(* ===== verification/_CoqProject ===== *)
-Q . S2P
Prelude.v
EventQ.v
EventQThm.v
CppString.v
PnmIpc.v
PnmService.v
PnmUnit.v
PnmModule.v
PnmMain.v
Float64.v
EventMgr.v
Drain.v
Bitfield.v
AddrRange.v
AddrIntlv.v
AddrRangeMap.v
PortProxy.v
PnmCompactor.v
PnmDeviceThm.v
Slice.v
Coding.v
Comparator.v
DbFormat.v
Heap.v
MergeIter.v
MergeIterThm.v
VectorIter.v
IterKey.v
BlockBuilder.v
BlockHash.v
BlockLayout.v
BlockIter.v
BlockThm.v
BlockRefine.v
BlockGet.v
CompactionIter.v
CompactionRef.v
CompactionSim.v
CompactionThm.v
LevelFiles.v
LevelFilesThm.v
Compaction.v
CompactionLevels.v
CompactionNew.v
CompactionMerge.v
OptionText.v
OptionTypes.v
OptionLaws.v
ServiceMessages.v
ServiceLaws.v
ServiceTrip.v
FileNames.v
Picker.v
PickerThm.v
HostJob.v
HostThm.v
HostSample.v
RemoteCompaction.v
WorkerJob.v
