(* ===== verification/Prelude.v ===== *)
(** * Verification of near-memory LSM compaction (gem5 + RocksDB)

    The repository moves RocksDB's compactions to a processing-near-memory (PNM)
    unit that gem5 simulates.  A RocksDB process hands a compaction to a service
    ([rocksdb/tools/pnm_compaction_service.h]), which sends it over a socket
    ([tools/pnm_ipc.h]) to a worker process ([tools/pnm_unit_main.cc]).  The worker
    runs it on a secondary database, which merges sorted runs of internal keys,
    drops what no reader can see and writes blocks.  Both sides ring the registers
    of a gem5 device ([gem5/src/dev/pnm/pnm_compactor.cc]) that charges the time of
    the transfer, through a kernel driver ([gem5/configs/yonsei/pnm_module.c]) that
    maps the register page.  The device schedules its completion on gem5's event
    queue, answers drain requests and writes a result record to guest memory.

    ** Conventions

    A definition is named after the function, method or type it translates.  State
    is a record that operations take and return; [res] (below) is the error monad:
    [Fail] where the code asserts, panics, throws, reads a bad pointer or has
    undefined behaviour.  Machine integers are [Z] with the wrap-around written out,
    bytes are [byte], strings and slices lists of bytes, doubles Corelib's
    [spec_float].  Code outside the repository, and components that are not
    modelled, are type classes of operations ([Socket], [Os], [Kernel], [FuncMem],
    [Comparator], ...) with a class of laws stating what is documented of them;
    theorems that use laws have instances that satisfy them in their witnesses.

    ** gem5

    - [EventQ.v], [EventQThm.v]: [sim/eventq.cc], [eventq.hh].  The queue as linked
      bins of events in a store.  Every reachable queue is in service order, each
      operation implements its abstract counterpart on the list of pending events,
      servicing terminates and serves what is due, and only the documented
      assertions can fail.  [EventMgr.v] is the interface that devices see.
    - [Drain.v]: [sim/drain.cc].  A drain request completes when the last object has
      signalled, and resuming brings back the running state.
    - [Bitfield.v], [AddrRange.v], [AddrIntlv.v], [AddrRangeMap.v]: [base/bitfield.hh],
      [intmath.hh], [addr_range.hh], [addr_range_map.hh].  Arithmetic against its
      mathematical definition, interleaved ranges as a partition, and an address
      map whose cache never changes the answer.
    - [PortProxy.v]: [base/chunk_generator.hh], [mem/port_proxy.cc].  Blob accesses cut
      at cache lines are one contiguous access.
    - [Float64.v], [PnmCompactor.v], [PnmDeviceThm.v]: the device.  Its status register
      is busy exactly when its completion is pending, a job goes through its
      lifecycle with the latency of the model, and commands are guarded.

    ** The PNM path in RocksDB

    - [CppString.v], [PnmIpc.v]: framing.  A frame that is sent is the frame that is
      received, through partial transfers and interrupted calls.
    - [PnmService.v], [PnmUnit.v], [PnmMain.v], [PnmModule.v]: the service, the worker
      with its threads, the launcher and the driver.  Each outcome of [Schedule] and
      [Wait], a job from the socket to the reply, mutual exclusion and progress of
      the worker's threads, release of the driver's resources.

    ** RocksDB

    - [Slice.v], [Coding.v], [Comparator.v], [DbFormat.v], [IterKey.v]: slices,
      encodings, key orders, internal keys and the buffers of iterator keys: round
      trips, total orders and memory safety.
    - [Heap.v], [MergeIter.v], [MergeIterThm.v], [VectorIter.v]: the merging iterator of
      compaction gives every key of every run once, in order.
    - [BlockBuilder.v], [BlockHash.v], [BlockLayout.v], [BlockIter.v], [BlockThm.v],
      [BlockRefine.v], [BlockGet.v]: data and meta blocks.  A block that is built and
      opened is a sorted list with a cursor: every sequence of calls on the bytes
      gives what an executable contract gives on the list.
    - [CompactionIter.v], [CompactionRef.v], [CompactionSim.v], [CompactionThm.v]:
      [db/compaction/compaction_iterator.cc].  The iterator with all its look-ahead,
      the rules of compaction as a reference definition on the versions of a key, the
      simulation between the two, and what readers see: the iterator
      writes what the rules keep, in order.
    - [LevelFiles.v], [LevelFilesThm.v], [Compaction.v], [CompactionLevels.v],
      [CompactionNew.v], [CompactionMerge.v]: [db/version_set.cc] (searches),
      [db/compaction/compaction.cc].  The files of the levels, searches against scans,
      the constructor of a compaction and its questions about deeper levels.  A compaction
      of files, and one of merged runs, is invisible to every live reader.

    ** A compaction over a service

    - [OptionText.v], [OptionTypes.v], [OptionLaws.v]: [options/options_helper.cc],
      [utilities/options_type.h], [util/string_util.cc].  The text form of structs and
      the tables that describe it; a law of reading what was written for every type of
      field, with the iteration order of hash maps as an argument of either side.
    - [ServiceMessages.v], [ServiceLaws.v], [ServiceTrip.v]:
      [db/compaction/compaction_service_job.cc], [table/table_properties.cc].  Job
      descriptions and results with all their fields, and their round trips.
    - [FileNames.v], [Picker.v], [PickerThm.v], [WorkerJob.v]: [file/filename.cc],
      [db/compaction/compaction_picker.cc], [db/db_impl/db_impl_secondary.cc].  The worker
      finds the files of a description in its version and builds a compaction of exactly these.
    - [HostJob.v], [HostThm.v], [HostSample.v]: the call of the database that hands a
      sub-compaction to a service and installs the result: its outcomes on every path, and
      the files, metadata and statistics after an installation.
    - [RemoteCompaction.v]: the database, the service, the socket and the worker together.
      The parameters of [PnmService.v] and [PnmUnit.v] that stand for RocksDB's messages are
      filled in with the models above; the secondary database stays an interface.

    ** Fuel

    Loops that are not structural take fuel and fail with [OutOfFuel].  The bound is
    taken from the data (the length of a queue, the size of a block, the number of
    children and keys) and the theorems show that the result is reached with it:
    no theorem is conditional on the fuel being enough.

    ** Not modelled

    Most of gem5 (processors, instruction sets, caches and memory controllers, GPU
    models, Ruby, Python bindings) and of RocksDB (version edits, write path,
    memory tables, table files with their caches and compression, file systems,
    option files, tools) is outside the compaction path or reached through one of the
    interfaces above.  Log output, statistics that do not feed back, and tracing
    are left out.  Of the block iterators, index blocks and interpolation search
    are missing.  Of the compaction itself, the loop that cuts the written records into
    table files ([CompactionJob::ProcessKeyValueCompaction],
    [CompactionServiceCompactionJob::Run]) needs the table builders and is missing, and so
    are the merge operator, compaction filters, range tombstone aggregation and blob files behind
    the iterator, which are arguments of it; the reader's view is shown for point records
    without merges and filters.  The pickers of automatic compactions, which choose
    the files before a job is handed over, are not modelled either. *)

From stdpp Require Export base list gmap strings numbers sorting.
From coqutil Require Export Byte Word.LittleEndianList.
From Stdlib Require Export Lia.

Global Set Default Goal Selector "!".

(** ** Faults and the error monad

    gem5 and the PNM tools stop on a failed [assert], on [panic] and on an
    escaped C++ exception; dereferencing a null or dangling pointer is undefined
    behaviour, and so is converting an out-of-range [double] to an integer
    ([Undefined]).  A model returns [Fail] where the code does not return normally.
    [OutOfFuel] marks a loop whose bound was too small: the theorems show that
    it never occurs. *)
Inductive fault :=
  | AssertFail
  | Panic
  | BadPointer
  | Exception
  | Undefined
  | OutOfFuel.

Inductive res (A : Type) :=
  | Ok (a : A)
  | Fail (f : fault).
Arguments Ok {A} a.
Arguments Fail {A} f.

Definition res_bind {A B} (m : res A) (k : A → res B) : res B :=
  match m with Ok a => k a | Fail f => Fail f end.

Declare Scope res_scope.
Delimit Scope res_scope with res.
Notation "'let*' x ':=' m 'in' k" := (res_bind m (fun x => k))
  (at level 10, x pattern, m at level 100, k at level 200)
  : res_scope.
Open Scope res_scope.

(** [assert(b)] and a pointer dereference. *)
Definition assert_ (b : bool) : res unit := if b then Ok tt else Fail AssertFail.
Definition deref {A} (o : option A) : res A :=
  match o with Some a => Ok a | None => Fail BadPointer end.

Definition is_ok {A} (m : res A) : bool := match m with Ok _ => true | Fail _ => false end.

#[global] Instance fault_eq_dec : EqDecision fault.
Proof. solve_decision. Defined.

Lemma res_bind_ok {A B} (m : res A) (k : A → res B) b :
  res_bind m k = Ok b ↔ ∃ a, m = Ok a ∧ k a = Ok b.
Proof. destruct m; simpl; naive_solver. Qed.

Lemma assert_ok b u : assert_ b = Ok u ↔ b = true.
Proof. destruct b, u; simpl; naive_solver. Qed.

Lemma deref_ok {A} (o : option A) a : deref o = Ok a ↔ o = Some a.
Proof. destruct o; simpl; naive_solver. Qed.

(** [resolve H as pat] takes the first step of a successful computation. *)
Tactic Notation "resolve" hyp(H) "as" simple_intropattern(pat) :=
  apply res_bind_ok in H as (? & pat & H).

(** ** Record update

    [s <| f := v |>] is [s] with the field [f] changed.  A record takes part by an
    instance of [Settable], the record rebuilt from its fields; the instances of
    [Setter] are found by abstracting a field in it. *)
Class Settable (R : Type) := eta : R → R.
Class Setter {R T : Type} (proj : R → T) := set_field : (T → T) → R → R.
Arguments set_field {R T} proj {_} _ _.
Ltac solve_setter :=
  lazymatch goal with
  | |- @Setter ?R ?T ?proj =>
      let i := constr:(_ : Settable R) in
      let e := eval hnf in i in
      lazymatch eval pattern proj in e with
      | ?f _ => let t := eval cbv beta in (λ g r, f (λ r', g (proj r')) r) in exact t
      end
  end.
#[export] Hint Extern 1 (Setter _) => solve_setter : typeclass_instances.
Notation "x <| proj := v |>" := (set_field proj (λ _, v) x) (at level 1, left associativity, proj at level 9, format "x  <| proj  :=  v |>").

(** ** Lists and conditionals *)
Lemma sorted_lookup {A} (R : A → A → Prop) l i j x y : StronglySorted R l → l !! i = Some x → l !! j = Some y → (i < j)%nat → R x y.
Proof.
  intros Hs. revert i j. induction Hs as [|a l Hs IH Ha]; intros [|i] [|j] Hi Hj Hlt; simplify_eq/=; try lia.
  - rewrite Forall_forall in Ha. apply Ha. by eapply list_elem_of_lookup_2.
  - apply (IH i j); try done. lia.
Qed.
Lemma if_both {A} (P : A → Prop) (b : bool) x y : (b = true → P x) → (b = false → P y) → P (if b then x else y).
Proof. destruct b; auto. Qed.

(** ** Machine integers

    A [w]-bit unsigned integer is a [Z]; [wrap w] is the conversion to it. *)
Abbreviation wrap w z := (z mod 2 ^ w)%Z.
Definition u8 (z : Z) : Z := wrap 8 z.
Definition u16 (z : Z) : Z := wrap 16 z.
Definition u32 (z : Z) : Z := wrap 32 z.
Definition u64 (z : Z) : Z := wrap 64 z.

Abbreviation in_u w z := (0 ≤ z < 2 ^ w)%Z.

Lemma u32_range z : in_u 32 (u32 z).
Proof. apply Z.mod_pos_bound. lia. Qed.
Lemma u64_range z : in_u 64 (u64 z).
Proof. apply Z.mod_pos_bound. lia. Qed.
Lemma u32_id z : in_u 32 z → u32 z = z.
Proof. apply Z.mod_small. Qed.
Lemma u64_id z : in_u 64 z → u64 z = z.
Proof. apply Z.mod_small. Qed.

(** ** Byte strings *)
Abbreviation bytes := (list byte).

(** [x00], [x01] ... are the constructors of [byte]; [b2z] is its value. *)
Abbreviation b2z := byte.unsigned.
Abbreviation z2b := byte.of_Z.

Lemma b2z_range b : in_u 8 (b2z b).
Proof. apply byte.unsigned_range. Qed.

Lemma z2b_b2z b : z2b (b2z b) = b.
Proof. apply byte.unsigned_inj. rewrite byte.unsigned_of_Z. apply Z.mod_small, b2z_range. Qed.

Lemma b2z_z2b z : in_u 8 z → b2z (z2b z) = z.
Proof. intros H. rewrite byte.unsigned_of_Z. by apply Z.mod_small. Qed.

(** The little-endian image of a [n]-byte integer and back (x86, the guest's
    byte order; [memcpy] to and from an integer). *)
Lemma le_roundtrip n z : in_u (Z.of_nat n * 8) z → le_combine (le_split n z) = z.
Proof. intros H. rewrite le_combine_split. by apply Z.mod_small. Qed.

Lemma le_combine_lt l : (0 ≤ le_combine l < 2 ^ (8 * Z.of_nat (length l)))%Z.
Proof. apply le_combine_bound. Qed.

Create HintDb mach discriminated.
#[export] Hint Resolve u32_range u64_range b2z_range le_combine_lt : mach.

(** ** Lists *)
Lemma take_app_exact {A} (l k : list A) n : n = length l → take n (l ++ k) = l.
Proof. intros ->. apply take_app_length. Qed.

Lemma drop_app_exact {A} (l k : list A) n : n = length l → drop n (l ++ k) = k.
Proof. intros ->. apply drop_app_length. Qed.

Lemma StronglySorted_mono {A} (R S : A → A → Prop) l :
  (∀ x y, R x y → S x y) → StronglySorted R l → StronglySorted S l.
Proof.
  intros HRS. induction 1 as [|x l Hs IH Hx]; constructor; [done|].
  eapply Forall_impl; [exact Hx|]. auto.
Qed.

Section filters.
Context {A : Type} (P Q : A → Prop) `{!∀ x, Decision (P x), !∀ x, Decision (Q x)}.
Lemma filter_all (l : list A) : (∀ x, x ∈ l → P x) → filter P l = l.
Proof.
  induction l as [|x l IH]; intros HP; [done|].
  rewrite filter_cons_True by set_solver. f_equal. apply IH. set_solver.
Qed.
Lemma filter_none (l : list A) : (∀ x, x ∈ l → ¬ P x) → filter P l = [].
Proof.
  induction l as [|x l IH]; intros HP; [done|].
  rewrite filter_cons_False by set_solver. apply IH. set_solver.
Qed.
Lemma filter_ext_in (l : list A) : (∀ x, x ∈ l → P x ↔ Q x) → filter P l = filter Q l.
Proof.
  induction l as [|x l IH]; intros HP; [done|]. rewrite !filter_cons, IH by set_solver.
  destruct (HP x ltac:(set_solver)). by repeat case_decide; try tauto.
Qed.
End filters.
