(* ===== verification/EventQ.v ===== *)
(** * The gem5 event queue ([gem5/src/sim/eventq.hh], [eventq.cc], [base/flags.hh])

    Events live in a store indexed by address.  The queue is a linked list of
    bins through [nextBin] (a bin holds the events of one time and priority),
    each bin a stack through [nextInBin].  Only the top event of a bin has a
    valid [nextBin]: the pointer of the others may be stale.  The operations
    below work on the pointers, as the code does; the second half of the file
    gives the abstract queue (the list of events in service order) and shows
    that every operation implements its abstract counterpart. *)
From S2P Require Import Prelude.
Local Open Scope Z_scope.

(** ** [Flags<unsigned short>] *)
Definition flags_isSet (flags mask : Z) : bool := negb (Z.land flags mask =? 0).
Definition flags_noneSet (flags mask : Z) : bool := Z.land flags mask =? 0.
Definition flags_set (flags mask : Z) : Z := Z.lor flags mask.
Definition flags_clear (flags mask : Z) : Z := Z.ldiff flags mask.

(** ** [EventBase] *)
Definition Squashed : Z := 0x0001.
Definition Scheduled : Z := 0x0002.
Definition Managed : Z := 0x0004.
Definition IsExitEvent : Z := 0x0010.
Definition IsMainQueue : Z := 0x0020.
Definition Initialized : Z := 0x7a40.
Definition InitMask : Z := 0xffc0.
Definition PublicWrite : Z := 0x001d.

(** ** [Event]; [eid] is an event's address, [qid] that of a queue. *)
Definition eid := positive.
Definition qid := positive.

Record Event := mkEvent {
  nextBin : option eid;
  nextInBin : option eid;
  ev_when : Z;
  ev_priority : Z;
  ev_flags : Z;
  ev_queue : option qid }.

Definition set_nextBin (o : option eid) (e : Event) : Event :=
  mkEvent o (nextInBin e) (ev_when e) (ev_priority e) (ev_flags e) (ev_queue e).
Definition set_nextInBin (o : option eid) (e : Event) : Event :=
  mkEvent (nextBin e) o (ev_when e) (ev_priority e) (ev_flags e) (ev_queue e).
Definition set_flags (f : Z) (e : Event) : Event :=
  mkEvent (nextBin e) (nextInBin e) (ev_when e) (ev_priority e) f (ev_queue e).
Definition setWhen (w : Z) (q : qid) (e : Event) : Event :=
  mkEvent (nextBin e) (nextInBin e) w (ev_priority e) (ev_flags e) (Some q).

(** [Event::Event(p, f)] with its assertion on the flags. *)
Definition new_event (p f : Z) : res Event :=
  let* _ := assert_ (flags_noneSet f (Z.ldiff 0xffff PublicWrite)) in
  Ok (mkEvent None None 0 p (Z.lor Initialized f) None).

Definition initialized (e : Event) : bool := Z.land (ev_flags e) InitMask =? Initialized.
Definition scheduled (e : Event) : bool := flags_isSet (ev_flags e) Scheduled.
Definition squashed (e : Event) : bool := flags_isSet (ev_flags e) Squashed.
Definition isExitEvent (e : Event) : bool := flags_isSet (ev_flags e) IsExitEvent.
Definition isManaged (e : Event) : bool := flags_isSet (ev_flags e) Managed.

(** [Event::squash()]. *)
Definition squash (e : Event) : Event := set_flags (flags_set (ev_flags e) Squashed) e.

(** [operator<], [<=], [==], [!=] on events. *)
Definition ev_lt (l r : Event) : bool :=
  (ev_when l <? ev_when r) || ((ev_when l =? ev_when r) && (ev_priority l <? ev_priority r)).
Definition ev_le (l r : Event) : bool :=
  (ev_when l <? ev_when r) || ((ev_when l =? ev_when r) && (ev_priority l <=? ev_priority r)).
Definition ev_eq (l r : Event) : bool :=
  (ev_when l =? ev_when r) && (ev_priority l =? ev_priority r).
Definition ev_ne (l r : Event) : bool :=
  negb (ev_when l =? ev_when r) || negb (ev_priority l =? ev_priority r).

(** ** [EventQueue] with the store of events it points into. *)
Abbreviation store := (gmap eid Event).

Record EventQueue := mkQueue {
  q_self : qid;
  q_head : option eid;
  q_curTick : Z;
  q_async : list eid;
  q_store : store }.

Definition set_head (o : option eid) (q : EventQueue) : EventQueue :=
  mkQueue (q_self q) o (q_curTick q) (q_async q) (q_store q).
Definition set_store (h : store) (q : EventQueue) : EventQueue :=
  mkQueue (q_self q) (q_head q) (q_curTick q) (q_async q) h.
Definition set_async (l : list eid) (q : EventQueue) : EventQueue :=
  mkQueue (q_self q) (q_head q) (q_curTick q) l (q_store q).
Definition setCurTick (t : Z) (q : EventQueue) : EventQueue :=
  mkQueue (q_self q) (q_head q) t (q_async q) (q_store q).

(** [EventQueue::EventQueue(n)], over the events that already exist. *)
Definition new_queue (self : qid) (h : store) : EventQueue := mkQueue self None 0 [] h.

Definition q_event (e : eid) (q : EventQueue) : res Event := deref (q_store q !! e).
Definition q_alter (f : Event → Event) (e : eid) (q : EventQueue) : EventQueue :=
  set_store (alter f e (q_store q)) q.

Definition q_empty (q : EventQueue) : bool := bool_decide (q_head q = None).

(** [EventQueue::nextTick()] reads the head without a check. *)
Definition nextTick (q : EventQueue) : res Z :=
  let* hd := deref (q_head q) in
  let* ev := q_event hd q in
  Ok (ev_when ev).

(** *** [Event::insertBefore] *)
Definition insertBefore (h : store) (event : eid) (curr : option eid) : res (eid * store) :=
  let* ev := deref (h !! event) in
  match curr with
  | None => Ok (event, <[event := set_nextInBin None (set_nextBin None ev)]> h)
  | Some c =>
      let* cv := deref (h !! c) in
      if ev_lt ev cv
      then Ok (event, <[event := set_nextInBin None (set_nextBin (Some c) ev)]> h)
      else Ok (event, <[event := set_nextInBin (Some c) (set_nextBin (nextBin cv) ev)]> h)
  end.

(** The [while (curr && *curr < *event)] walk along the bins. *)
Fixpoint find_bin (fuel : nat) (h : store) (ev : Event) (prev : eid) (curr : option eid)
    : res (eid * option eid) :=
  match fuel with
  | O => Fail OutOfFuel
  | S fuel =>
      match curr with
      | None => Ok (prev, None)
      | Some c =>
          let* cv := deref (h !! c) in
          if ev_lt cv ev then find_bin fuel h ev c (nextBin cv) else Ok (prev, Some c)
      end
  end.

Definition fuel_of (h : store) : nat := S (S (size h)).


(** *** [EventQueue::insert] *)
Definition insert (q : EventQueue) (event : eid) : res EventQueue :=
  let h := q_store q in
  let* ev := deref (h !! event) in
  match q_head q with
  | None =>
      let* (t, h') := insertBefore h event None in
      Ok (set_head (Some t) (set_store h' q))
  | Some hd =>
      let* hv := deref (h !! hd) in
      if ev_le ev hv then
        let* (t, h') := insertBefore h event (Some hd) in
        Ok (set_head (Some t) (set_store h' q))
      else
        let* (prev, curr) := find_bin (fuel_of h) h ev hd (nextBin hv) in
        let* (t, h') := insertBefore h event curr in
        Ok (set_store (alter (set_nextBin (Some t)) prev h') q)
  end.

(** The [while (event != next)] walk down a bin; returns the predecessor. *)
Fixpoint find_in_bin (fuel : nat) (h : store) (event curr : eid) (next : option eid)
    : res (eid * Event) :=
  match fuel with
  | O => Fail OutOfFuel
  | S fuel =>
      match next with
      | None => Fail Panic
      | Some n =>
          let* nv := deref (h !! n) in
          if decide (event = n) then Ok (curr, nv)
          else find_in_bin fuel h event n (nextInBin nv)
      end
  end.

(** *** [Event::removeItem] *)
Definition removeItem (h : store) (event top : eid) : res (option eid * store) :=
  let* tv := deref (h !! top) in
  if decide (event = top) then
    match nextInBin tv with
    | None => Ok (nextBin tv, h)
    | Some n => Ok (Some n, alter (set_nextBin (nextBin tv)) n h)
    end
  else
    let* (curr, nv) := find_in_bin (fuel_of h) h event top (nextInBin tv) in
    Ok (Some top, alter (set_nextInBin (nextInBin nv)) curr h).

(** *** [EventQueue::remove] *)
Definition remove (q : EventQueue) (event : eid) : res EventQueue :=
  let h := q_store q in
  match q_head q with
  | None => Fail Panic
  | Some hd =>
      let* ev := deref (h !! event) in
      let* _ := assert_ (bool_decide (ev_queue ev = Some (q_self q))) in
      let* hv := deref (h !! hd) in
      if ev_eq hv ev then
        let* (t, h') := removeItem h event hd in
        Ok (set_head t (set_store h' q))
      else
        let* (prev, curr) := find_bin (fuel_of h) h ev hd (nextBin hv) in
        match curr with
        | None => Fail Panic
        | Some c =>
            let* cv := deref (h !! c) in
            if ev_ne cv ev then Fail Panic
            else
              let* (t, h') := removeItem h event c in
              Ok (set_store (alter (set_nextBin t) prev h') q)
        end
  end.

(** *** [Event::release] with the base [releaseImpl]: a managed event that is
    not scheduled is deleted ([acquire] of a base event does nothing). *)
Definition release (e : eid) (q : EventQueue) : res EventQueue :=
  let* ev := q_event e q in
  if isManaged ev && negb (scheduled ev)
  then Ok (set_store (delete e (q_store q)) q)
  else Ok q.

(** What the operations read of the rest of the process. *)
Record Mode := mkMode { inParallelMode : bool; curEventQueue : qid }.

(** *** [EventQueue::asyncInsert], [handleAsyncInsertions] *)
Definition asyncInsert (q : EventQueue) (e : eid) : EventQueue :=
  set_async (q_async q ++ [e]) q.

Fixpoint insert_all (q : EventQueue) (l : list eid) : res EventQueue :=
  match l with
  | [] => Ok (set_async [] q)
  | e :: l' => let* q' := insert q e in insert_all (set_async l' q') l'
  end.

Definition handleAsyncInsertions (m : Mode) (q : EventQueue) : res EventQueue :=
  let* _ := assert_ (bool_decide (q_self q = curEventQueue m)) in
  insert_all q (q_async q).

(** *** [EventQueue::schedule] *)
Definition schedule (m : Mode) (q : EventQueue) (e : eid) (when : Z) (global : bool)
    : res EventQueue :=
  let* _ := assert_ (q_curTick q <=? when) in
  let* ev := q_event e q in
  let* _ := assert_ (negb (scheduled ev)) in
  let* _ := assert_ (initialized ev) in
  let q := q_alter (setWhen when (q_self q)) e q in
  let* q :=
    if inParallelMode m && (bool_decide (q_self q ≠ curEventQueue m) || global)
    then Ok (asyncInsert q e)
    else insert q e in
  Ok (q_alter (λ ev, set_flags (flags_set (ev_flags ev) Scheduled) ev) e q).

(** *** [EventQueue::deschedule] *)
Definition deschedule (m : Mode) (q : EventQueue) (e : eid) : res EventQueue :=
  let* ev := q_event e q in
  let* _ := assert_ (scheduled ev) in
  let* _ := assert_ (initialized ev) in
  let* _ := assert_ (negb (inParallelMode m) || bool_decide (q_self q = curEventQueue m)) in
  let* q := remove q e in
  let q := q_alter (λ ev, set_flags (flags_clear (flags_clear (ev_flags ev) Squashed) Scheduled) ev) e q in
  release e q.

(** *** [EventQueue::reschedule] *)
Definition reschedule (m : Mode) (q : EventQueue) (e : eid) (when : Z) (always : bool)
    : res EventQueue :=
  let* _ := assert_ (q_curTick q <=? when) in
  let* ev := q_event e q in
  let* _ := assert_ (always || scheduled ev) in
  let* _ := assert_ (initialized ev) in
  let* _ := assert_ (negb (inParallelMode m) || bool_decide (q_self q = curEventQueue m)) in
  let* q := if scheduled ev then remove q e else Ok q in
  let q := q_alter (setWhen when (q_self q)) e q in
  let* q := insert q e in
  Ok (q_alter (λ ev, set_flags (flags_set (flags_clear (ev_flags ev) Squashed) Scheduled) ev) e q).

(** *** [EventQueue::serviceOne], in its two halves: unlink the head, then act.
    [process] is the event's virtual handler, which may use the queue and
    change the rest [W] of the simulated machine. *)
Definition pop_head (q : EventQueue) : res (eid * EventQueue) :=
  let* event := deref (q_head q) in
  let* ev := q_event event q in
  let q := q_alter (λ ev, set_flags (flags_clear (ev_flags ev) Scheduled) ev) event q in
  match nextInBin ev with
  | Some next => Ok (event, set_head (Some next) (q_alter (set_nextBin (nextBin ev)) next q))
  | None => Ok (event, set_head (nextBin ev) q)
  end.

Section service.
Context {W : Type} (process : eid → EventQueue → W → res (EventQueue * W)).

Definition serviceOne (q : EventQueue) (w : W) : res (option eid * EventQueue * W) :=
  let* (event, q) := pop_head q in
  let* ev := q_event event q in
  if negb (squashed ev) then
    let* (q, w) := process event (setCurTick (ev_when ev) q) w in
    let* ev := q_event event q in
    if isExitEvent ev then
      let* _ := assert_ (negb (flags_isSet (ev_flags ev) Managed) ||
                         negb (flags_isSet (ev_flags ev) IsMainQueue)) in
      Ok (Some event, q, w)
    else let* q := release event q in Ok (None, q, w)
  else
    let q := q_alter (λ ev, set_flags (flags_clear (ev_flags ev) Squashed) ev) event q in
    let* q := release event q in Ok (None, q, w).

(** *** [EventQueue::serviceEvents]; the loop runs as long as handlers keep
    scheduling events, so [fuel] bounds the events it serves. *)
Fixpoint serviceEvents (fuel : nat) (q : EventQueue) (w : W) (when : Z)
    : res (EventQueue * W) :=
  match fuel with
  | O => Fail OutOfFuel
  | S fuel =>
      if q_empty q then Ok (setCurTick when q, w)
      else
        let* t := nextTick q in
        if when <? t then Ok (setCurTick when q, w)
        else let* (_, q, w) := serviceOne q w in serviceEvents fuel q w when
  end.
End service.

(** *** [Event::unserialize] on the saved fields, and
    [EventQueue::checkpointReschedule]; [UNSERIALIZE_EVENT] runs one after the
    other. *)
Definition unserialize (e : Event) (when priority flags : Z) : res Event :=
  let* _ := assert_ (negb (scheduled e)) in
  let* _ := assert_ (initialized e) in
  let f := flags_set flags Initialized in
  let f := if flags_isSet f Scheduled && negb (flags_isSet f Squashed)
           then flags_clear f (Z.lor Squashed Scheduled) else f in
  Ok (mkEvent (nextBin e) (nextInBin e) when priority f (ev_queue e)).

Definition checkpointReschedule (q : EventQueue) (e : eid) : res EventQueue :=
  let* ev := q_event e q in
  if flags_isSet (ev_flags ev) Scheduled then insert q e else Ok q.

Definition unserialize_event (q : EventQueue) (e : eid) (when priority flags : Z)
    : res EventQueue :=
  let* ev := q_event e q in
  let* ev' := unserialize ev when priority flags in
  checkpointReschedule (set_store (<[e := ev']> (q_store q)) q) e.

(** *** [EventQueue::replaceHead] *)
Definition replaceHead (q : EventQueue) (s : option eid) : option eid * EventQueue :=
  (q_head q, set_head s q).

(** *** [EventQueue::debugVerify]; [seen] is its map of visited nodes. *)
Fixpoint verify_bin (fuel : nat) (h : store) (seen : gset eid) (time priority : Z)
    (o : option eid) : res (option (gset eid * Z * Z)) :=
  match fuel with
  | O => Fail OutOfFuel
  | S fuel =>
      match o with
      | None => Ok (Some (seen, time, priority))
      | Some e =>
          let* ev := deref (h !! e) in
          if ev_when ev <? time then Ok None
          else if (ev_when ev =? time) && (ev_priority ev <? priority) then Ok None
          else if decide (e ∈ seen) then Ok None
          else verify_bin fuel h ({[e]} ∪ seen) (ev_when ev) (ev_priority ev) (nextInBin ev)
      end
  end.

Fixpoint verify_bins (fuel : nat) (h : store) (seen : gset eid) (time priority : Z)
    (o : option eid) : res bool :=
  match fuel with
  | O => Fail OutOfFuel
  | S fuel =>
      match o with
      | None => Ok true
      | Some e =>
          let* r := verify_bin (fuel_of h) h seen time priority (Some e) in
          match r with
          | None => Ok false
          | Some (seen, time, priority) =>
              let* ev := deref (h !! e) in
              verify_bins fuel h seen time priority (nextBin ev)
          end
      end
  end.

Definition debugVerify (q : EventQueue) : res bool :=
  verify_bins (fuel_of (q_store q)) (q_store q) ∅ 0 0 (q_head q).

(** *** [EventQueue::~EventQueue] *)
Fixpoint destroy (fuel : nat) (m : Mode) (q : EventQueue) : res EventQueue :=
  match fuel with
  | O => Fail OutOfFuel
  | S fuel =>
      match q_head q with
      | None => Ok q
      | Some hd => let* q := deschedule m q hd in destroy fuel m q
      end
  end.

(** ** The abstract queue

    [key] is what events are ordered by; [place] puts an event before the first
    one that is not smaller, so equal keys are served last-in first-out. *)
Definition klt (a b : Z * Z) : bool := (a.1 <? b.1) || ((a.1 =? b.1) && (a.2 <? b.2)).
Definition ekey (e : Event) : Z * Z := (ev_when e, ev_priority e).
Definition key (h : store) (e : eid) : Z * Z := from_option ekey (0, 0) (h !! e).

Fixpoint place (k : eid → Z * Z) (e : eid) (l : list eid) : list eid :=
  match l with
  | [] => [e]
  | x :: l' => if klt (k x) (k e) then x :: place k e l' else e :: l
  end.

(** Two keys in service order: not larger. *)
Definition kle (a b : Z * Z) : Prop := klt b a = false.

(** ** Representation: which bins the pointers describe *)
Definition ptrs (h : store) (e : eid) : option (option eid * option eid) :=
  (λ ev, (nextBin ev, nextInBin ev)) <$> h !! e.

Fixpoint stack (h : store) (o : option eid) (l : list eid) : Prop :=
  match l with
  | [] => o = None
  | e :: l' => o = Some e ∧ ∃ nb nib, ptrs h e = Some (nb, nib) ∧ stack h nib l'
  end.

(** [seg h o bins m]: from [o], the top pointers lead through [bins] to [m]. *)
Fixpoint seg (h : store) (o : option eid) (bins : list (list eid)) (m : option eid) : Prop :=
  match bins with
  | [] => o = m
  | [] :: _ => False
  | (e :: es) :: bins' =>
      o = Some e ∧ ∃ nb nib, ptrs h e = Some (nb, nib) ∧ stack h nib es ∧ seg h nb bins' m
  end.

(** The fields that are not list pointers. *)
Definition data (ev : Event) : Z * Z * Z * option qid :=
  (ev_when ev, ev_priority ev, ev_flags ev, ev_queue ev).
Definition same_data (h h' : store) : Prop := data <$> h = data <$> h'.

Definition bin_lt (k : eid → Z * Z) (b c : list eid) : Prop :=
  ∀ x y, x ∈ b → y ∈ c → klt (k x) (k y) = true.

Record repr (q : EventQueue) (bins : list (list eid)) : Prop := mkRepr {
  r_seg : seg (q_store q) (q_head q) bins None;
  r_nodup : NoDup (concat bins);
  r_bin : ∀ b x y, b ∈ bins → x ∈ b → y ∈ b → key (q_store q) x = key (q_store q) y;
  r_sorted : StronglySorted (bin_lt (key (q_store q))) bins }.

Lemma ev_lt_klt l r : ev_lt l r = klt (ekey l) (ekey r).
Proof. done. Qed.
Lemma ev_le_klt l r : ev_le l r = negb (klt (ekey r) (ekey l)).
Proof. unfold ev_le, klt, ekey; simpl. lia. Qed.
Lemma ev_eq_key l r : ev_eq l r = bool_decide (ekey l = ekey r).
Proof.
  unfold ev_eq, ekey. case_bool_decide as E; [injection E as -> ->; lia|].
  apply not_true_is_false. intros [? ?]%andb_true_iff. apply E. f_equal; lia.
Qed.
Lemma ev_ne_eq l r : ev_ne l r = negb (ev_eq l r).
Proof. unfold ev_ne, ev_eq. by rewrite negb_andb. Qed.

Lemma klt_irrefl a : klt a a = false.
Proof. unfold klt. lia. Qed.
Lemma klt_trans a b c : klt a b = true → klt b c = true → klt a c = true.
Proof. unfold klt. lia. Qed.
Lemma klt_asym a b : klt a b = true → klt b a = false.
Proof. unfold klt. lia. Qed.
Lemma klt_total a b : klt a b = false → klt b a = false → a = b.
Proof. unfold klt. destruct a, b; simpl. intros. f_equal; lia. Qed.

Lemma key_of h e ev : h !! e = Some ev → key h e = ekey ev.
Proof. unfold key. by intros ->. Qed.

Lemma ptrs_of h e ev : h !! e = Some ev → ptrs h e = Some (nextBin ev, nextInBin ev).
Proof. unfold ptrs. by intros ->. Qed.

Lemma ptrs_inv h e nb nib : ptrs h e = Some (nb, nib) →
  ∃ ev, h !! e = Some ev ∧ nextBin ev = nb ∧ nextInBin ev = nib.
Proof. unfold ptrs. destruct (h !! e) as [ev|] eqn:E; simpl; naive_solver. Qed.

Lemma same_data_lookup h h' e ev :
  same_data h h' → h !! e = Some ev → ∃ ev', h' !! e = Some ev' ∧ data ev' = data ev.
Proof.
  intros H He. apply (f_equal (.!! e)) in H. rewrite !lookup_fmap, He in H. simpl in H.
  destruct (h' !! e) as [ev'|]; [|done]. exists ev'. split; [done|]. apply (inj Some). done.
Qed.

Lemma same_data_key h h' : same_data h h' → ∀ e, key h' e = key h e.
Proof.
  intros H e. unfold key. apply (f_equal (.!! e)) in H. rewrite !lookup_fmap in H.
  destruct (h !! e), (h' !! e); [|done..]. simpl in *. unfold data in H. unfold ekey. congruence.
Qed.

Lemma same_data_refl h : same_data h h.
Proof. done. Qed.
Lemma same_data_trans h1 h2 h3 : same_data h1 h2 → same_data h2 h3 → same_data h1 h3.
Proof. unfold same_data. congruence. Qed.
Lemma same_data_sym h h' : same_data h h' → same_data h' h.
Proof. unfold same_data. congruence. Qed.

Lemma same_data_alter f e h : (∀ ev, data (f ev) = data ev) → same_data h (alter f e h).
Proof.
  intros Hf. apply map_eq. intros i. rewrite !lookup_fmap.
  destruct (decide (e = i)) as [->|].
  - rewrite lookup_alter_eq. destruct (h !! i); simpl; [by rewrite Hf|done].
  - by rewrite lookup_alter_ne.
Qed.

Lemma same_data_insert e ev ev' h :
  h !! e = Some ev → data ev' = data ev → same_data h (<[e := ev']> h).
Proof.
  intros He Hd. apply map_eq. intros i. rewrite !lookup_fmap.
  destruct (decide (e = i)) as [->|].
  - rewrite lookup_insert_eq, He. simpl. by rewrite Hd.
  - by rewrite lookup_insert_ne.
Qed.

#[export] Hint Resolve same_data_refl same_data_alter same_data_insert : core.

(** *** Framing: the shape depends on the pointers of its own events only. *)
Lemma stack_frame h h' o l :
  (∀ e, e ∈ l → ptrs h' e = ptrs h e) → stack h o l → stack h' o l.
Proof.
  revert o. induction l as [|e l IH]; intros o Hp; simpl; [done|].
  intros (-> & nb & nib & He & Hs). split; [done|]. exists nb, nib.
  rewrite Hp by set_solver. split; [done|]. apply IH; [set_solver|done].
Qed.

Lemma seg_frame h h' o bins m :
  (∀ e, e ∈ concat bins → ptrs h' e = ptrs h e) → seg h o bins m → seg h' o bins m.
Proof.
  revert o. induction bins as [|[|e es] bins IH]; intros o Hp; simpl; [done..|].
  intros (-> & nb & nib & He & Hs & Hr). simpl in Hp. split; [done|]. exists nb, nib.
  rewrite Hp by set_solver. split_and!; [done| |].
  - eapply stack_frame; [|done]. set_solver.
  - apply IH; [set_solver|done].
Qed.

Lemma seg_app h o A B m : seg h o (A ++ B) m ↔ ∃ p, seg h o A p ∧ seg h p B m.
Proof.
  revert o. induction A as [|[|e es] A IH]; intros o; simpl; [naive_solver..|].
  setoid_rewrite IH. naive_solver.
Qed.

Lemma ptrs_alter_ne f e x h : x ≠ e → ptrs (alter f e h) x = ptrs h x.
Proof. intros. unfold ptrs. by rewrite lookup_alter_ne. Qed.
Lemma ptrs_insert_ne e ev x h : x ≠ e → ptrs (<[e := ev]> h) x = ptrs h x.
Proof. intros. unfold ptrs. by rewrite lookup_insert_ne. Qed.
Lemma ptrs_alter_nextBin h e o nb nib :
  ptrs h e = Some (nb, nib) → ptrs (alter (set_nextBin o) e h) e = Some (o, nib).
Proof. intros (ev & He & <- & <-)%ptrs_inv. unfold ptrs. by rewrite lookup_alter_eq, He. Qed.
Lemma ptrs_alter_nextInBin h e o nb nib :
  ptrs h e = Some (nb, nib) → ptrs (alter (set_nextInBin o) e h) e = Some (nb, o).
Proof. intros (ev & He & <- & <-)%ptrs_inv. unfold ptrs. by rewrite lookup_alter_eq, He. Qed.

(** Redirecting the top of the last bin moves the end of the segment. *)
Lemma seg_relink h o A p ps m m' :
  NoDup (concat (A ++ [p :: ps])) →
  seg h o (A ++ [p :: ps]) m →
  seg (alter (set_nextBin m') p h) o (A ++ [p :: ps]) m'.
Proof.
  rewrite concat_app. simpl. rewrite app_nil_r. intros (_ & Hd & Hp)%NoDup_app.
  apply NoDup_cons in Hp as [Hp _].
  rewrite !seg_app. intros (x & HA & -> & nb & nib & Hpt & Hs & ->).
  exists (Some p). split.
  - eapply seg_frame; [|done]. intros e He. apply ptrs_alter_ne. set_solver.
  - simpl. split; [done|]. exists m', nib. split_and!; [by eapply ptrs_alter_nextBin| |done].
    eapply stack_frame; [|done]. intros e He. apply ptrs_alter_ne. set_solver.
Qed.

Definition top_lt (h : store) (k : Z * Z) (b : list eid) : Prop :=
  ∃ t ts, b = t :: ts ∧ klt (key h t) k = true.

(** What [find_bin] stops at: [p] tops the last bin below [ev]. *)
Lemma find_bin_spec fuel h ev p ps o bins :
  seg h o bins None → (length bins < fuel)%nat → klt (key h p) (ekey ev) = true →
  ∃ A p' ps' B o',
    (p :: ps) :: bins = (A ++ [p' :: ps']) ++ B ∧
    find_bin fuel h ev p o = Ok (p', o') ∧ seg h o' B None ∧
    Forall (top_lt h (ekey ev)) (A ++ [p' :: ps']) ∧
    match B with (t :: _) :: _ => klt (key h t) (ekey ev) = false | _ => True end.
Proof.
  revert fuel p ps o. induction bins as [|[|t ts] bins IH]; intros fuel p ps o Hseg Hf Hp;
    (destruct fuel as [|fuel]; [simpl in Hf; lia|]); simpl in Hseg.
  - subst o. exists [], p, ps, [], None. split_and!; try done.
    constructor; [by exists p, ps|constructor].
  - done.
  - destruct Hseg as (-> & nb & nib & (tv & Ht & <- & <-)%ptrs_inv & Hst & Hseg). simpl.
    rewrite Ht. simpl. rewrite ev_lt_klt, <-(key_of _ _ _ Ht).
    destruct (klt (key h t) (ekey ev)) eqn:Hlt.
    + destruct (IH fuel t ts (nextBin tv) Hseg ltac:(simpl in Hf; lia) Hlt)
        as (A & p' & ps' & B & o' & Heq & Hfb & HB & HA & Hhd).
      exists ((p :: ps) :: A), p', ps', B, o'. split_and!; try done.
      * simpl. by rewrite Heq.
      * simpl. constructor; [by exists p, ps|done].
    + exists [], p, ps, ((t :: ts) :: bins), (Some t). split_and!; try done.
      * simpl. split; [done|]. by exists (nextBin tv), (nextInBin tv); rewrite (ptrs_of _ _ _ Ht).
      * constructor; [by exists p, ps|constructor].
Qed.

Lemma place_app k e l1 l2 :
  (∀ x, x ∈ l1 → klt (k x) (k e) = true) → place k e (l1 ++ l2) = l1 ++ place k e l2.
Proof.
  induction l1 as [|x l1 IH]; intros H; [done|]. simpl. rewrite H by set_solver.
  f_equal. apply IH. set_solver.
Qed.

Lemma place_stop k e x l : klt (k x) (k e) = false → place k e (x :: l) = e :: x :: l.
Proof. simpl. by intros ->. Qed.

Lemma place_Permutation k e l : place k e l ≡ₚ e :: l.
Proof.
  induction l as [|x l IH]; simpl; [done|]. destruct klt; [|done].
  rewrite IH. apply perm_swap.
Qed.

Lemma place_ext k k' e l :
  (∀ x, x ∈ e :: l → k x = k' x) → place k e l = place k' e l.
Proof.
  induction l as [|x l IH]; intros H; [done|]. simpl.
  rewrite (H x), (H e) by set_solver. rewrite IH by set_solver. done.
Qed.

(** The order on the flattened queue. *)
Definition in_order (k : eid → Z * Z) (l : list eid) : Prop :=
  StronglySorted (λ x y, kle (k x) (k y)) l.

Lemma place_in_order k e l : in_order k l → in_order k (place k e l).
Proof.
  unfold in_order, kle. induction 1 as [|x l Hs IH Hx]; simpl.
  - repeat constructor.
  - destruct (klt (k x) (k e)) eqn:E.
    + constructor; [done|]. rewrite place_Permutation. constructor; [by apply klt_asym|done].
    + constructor; [by constructor|]. constructor; [done|].
      eapply Forall_impl; [exact Hx|]. simpl. intros y Hy.
      destruct (klt (k y) (k e)) eqn:E'; [|done].
      rewrite <-Hy. clear - E E'. unfold klt in *. lia.
Qed.

Lemma sorted_concat k bins :
  (∀ b x y, b ∈ bins → x ∈ b → y ∈ b → k x = k y) →
  StronglySorted (bin_lt k) bins → in_order k (concat bins).
Proof.
  intros Hb Hs. unfold in_order, kle.
  induction Hs as [|b bins Hs IH Hlt]; simpl; [constructor|].
  assert (IH' := IH ltac:(intros ??????; eapply Hb; [|done..]; set_solver)). clear IH.
  assert (Hbb : ∀ x y, x ∈ b → y ∈ b → k x = k y) by (intros; eapply Hb; [|done..]; set_solver).
  clear Hb. induction b as [|x b IHb]; simpl; [done|]. constructor.
  - apply IHb.
    + eapply Forall_impl; [exact Hlt|]. intros c Hc y z Hy Hz. apply Hc; set_solver.
    + intros. apply Hbb; set_solver.
  - apply Forall_app. split; apply Forall_forall; intros y Hy.
    + rewrite (Hbb y x) by set_solver. apply klt_irrefl.
    + apply list_elem_of_In, in_concat in Hy as (c & Hc & Hy).
      rewrite Forall_forall in Hlt. apply klt_asym, (Hlt c); [by apply list_elem_of_In|set_solver|].
      by apply list_elem_of_In.
Qed.

Lemma stack_dom h o l : stack h o l → ∀ e, e ∈ l → is_Some (h !! e).
Proof.
  revert o. induction l as [|x l IH]; simpl; [set_solver|].
  intros o (_ & nb & nib & (ev & Hx & _)%ptrs_inv & Hs) e [->|He]%elem_of_cons; eauto.
Qed.

Lemma seg_dom h o bins m : seg h o bins m → ∀ e, e ∈ concat bins → is_Some (h !! e).
Proof.
  revert o. induction bins as [|[|x xs] bins IH]; simpl; [set_solver|done|].
  intros o (_ & nb & nib & (ev & Hx & _)%ptrs_inv & Hs & Hr) e.
  rewrite elem_of_cons, elem_of_app. intros [->|[He|He]]; eauto using stack_dom.
Qed.

Lemma seg_nonempty h o bins m : seg h o bins m → Forall (λ b, b ≠ []) bins.
Proof.
  revert o. induction bins as [|[|x xs] bins IH]; simpl; [constructor|done|].
  intros o (_ & nb & nib & _ & _ & Hr). constructor; [done|eauto].
Qed.

Lemma nodup_size (h : store) (l : list eid) :
  NoDup l → (∀ e, e ∈ l → is_Some (h !! e)) → (length l ≤ size h)%nat.
Proof.
  intros Hn Hd. rewrite <-(size_dom h). change (length l) with (length l).
  rewrite <-(size_list_to_set (C := gset eid) l Hn). apply subseteq_size.
  intros e He. apply elem_of_dom, Hd. set_solver.
Qed.

Lemma bins_fuel h o bins m :
  seg h o bins m → NoDup (concat bins) → (length (concat bins) ≤ size h)%nat ∧
  (length bins ≤ size h)%nat.
Proof.
  intros Hs Hn. assert (length (concat bins) ≤ size h)%nat by eauto using nodup_size, seg_dom.
  split; [done|]. etrans; [|done]. apply seg_nonempty in Hs. clear -Hs.
  induction Hs as [|[|]]; simpl; [lia|done|]. rewrite length_app. lia.
Qed.

Lemma repr_fuel q bins : repr q bins → (S (length bins) < fuel_of (q_store q))%nat ∧
  (length (concat bins) < fuel_of (q_store q))%nat.
Proof. intros [Hs Hn _ _]. destruct (bins_fuel _ _ _ _ Hs Hn). unfold fuel_of. lia. Qed.

(** The proofs below use only this bound on the fuel. *)
#[local] Opaque fuel_of.

(** *** The bins after an insertion, apart from the pointers *)
Section bins.
Context (k : eid → Z * Z).
Definition same_key (b : list eid) : Prop := ∀ x y, x ∈ b → y ∈ b → k x = k y.
Definition below (c : Z * Z) (b : list eid) : Prop := ∀ x, x ∈ b → klt (k x) c = true.
Definition above (c : Z * Z) (b : list eid) : Prop := ∀ x, x ∈ b → klt c (k x) = true.

Lemma sorted_new_bin A B e :
  StronglySorted (bin_lt k) (A ++ B) → Forall (below (k e)) A → Forall (above (k e)) B →
  StronglySorted (bin_lt k) (A ++ [e] :: B).
Proof.
  intros Hs HA HB. induction A as [|b A IH]; simpl in *.
  - constructor; [done|]. eapply Forall_impl; [exact HB|]. intros c Hc x y Hx Hy. set_solver.
  - inversion_clear Hs as [|? ? Hs' Hf]. inversion_clear HA as [|? ? Hb HA'].
    constructor; [auto|]. apply Forall_app in Hf as [Hf1 Hf2]. apply Forall_app. split; [done|].
    constructor; [|done]. intros x y Hx Hy. set_solver.
Qed.

Lemma sorted_push A B b e :
  StronglySorted (bin_lt k) (A ++ b :: B) → (∀ x, x ∈ b → k x = k e) → b ≠ [] →
  StronglySorted (bin_lt k) (A ++ (e :: b) :: B).
Proof.
  intros Hs Hb Hne. destruct b as [|t ts]; [done|].
  assert (Ht : k t = k e) by (apply Hb; set_solver).
  induction A as [|c A IH]; simpl in *.
  - inversion_clear Hs as [|? ? Hs' Hf]. constructor; [done|].
    eapply Forall_impl; [exact Hf|]. intros d Hd x y [->|Hx]%elem_of_cons Hy; [|by apply Hd].
    rewrite <-Ht. apply Hd; set_solver.
  - inversion_clear Hs as [|? ? Hs' Hf]. constructor; [auto|].
    apply Forall_app in Hf as [Hf1 Hf2]. apply Forall_app. split; [done|].
    inversion_clear Hf2 as [|? ? Hc HB]. constructor; [|done].
    intros x y Hx [->|Hy]%elem_of_cons; [|by apply Hc]. rewrite <-Ht. apply Hc; set_solver.
Qed.

Lemma above_bins B c t ts :
  StronglySorted (bin_lt k) ((t :: ts) :: B) → same_key (t :: ts) → klt c (k t) = true →
  Forall (above c) ((t :: ts) :: B).
Proof.
  intros Hs Hb Hc. inversion_clear Hs as [|? ? Hs' Hf]. constructor.
  - intros x Hx. rewrite (Hb x t) by set_solver. done.
  - eapply Forall_impl; [exact Hf|]. intros b Hlt x Hx. eapply klt_trans; [exact Hc|].
    apply Hlt; set_solver.
Qed.

Lemma sorted_app_r A B : StronglySorted (bin_lt k) (A ++ B) → StronglySorted (bin_lt k) B.
Proof. induction A; [done|]. inversion_clear 1; auto. Qed.
End bins.

Lemma below_bins h A c :
  Forall (top_lt h c) A → (∀ b, b ∈ A → same_key (key h) b) → Forall (below (key h) c) A.
Proof.
  intros HA Hk. apply Forall_forall. intros b Hb x Hx.
  rewrite Forall_forall in HA. destruct (HA b Hb) as (t & ts & -> & Ht).
  by rewrite (Hk _ Hb x t) by set_solver.
Qed.

(** [insertBefore] at the first bin that is not below the event: a new bin in
    front of it, or one more event on its stack. *)
Lemma insertBefore_spec h e ev o A B :
  seg h o B None → h !! e = Some ev → e ∉ concat B →
  match B with (t :: _) :: _ => klt (key h t) (key h e) = false | _ => True end →
  (∀ b, b ∈ B → same_key (key h) b) →
  StronglySorted (bin_lt (key h)) (A ++ B) → Forall (below (key h) (key h e)) A →
  ∃ h' B',
    insertBefore h e o = Ok (e, h') ∧ seg h' (Some e) B' None ∧
    concat B' = e :: concat B ∧ same_data h h' ∧ (∀ x, x ≠ e → h' !! x = h !! x) ∧
    (∀ b, b ∈ B' → same_key (key h) b) ∧ StronglySorted (bin_lt (key h)) (A ++ B').
Proof.
  intros Hseg He Hnot Htop Hkey Hsort HA. unfold insertBefore. rewrite He. simpl.
  assert (Hfr : ∀ ev' x, x ∈ concat B → ptrs (<[e := ev']> h) x = ptrs h x)
    by (intros; apply ptrs_insert_ne; set_solver).
  assert (Hone : same_key (key h) [e]) by (intros x y ->%list_elem_of_singleton ->%list_elem_of_singleton; done).
  destruct B as [|[|t ts] B]; simpl in Hseg; [subst o|done|].
  - eexists _, [[e]]. split_and!; [done| |done|by eapply same_data_insert| | |].
    + simpl. split; [done|]. exists None, None. unfold ptrs. by rewrite lookup_insert_eq.
    + intros. by rewrite lookup_insert_ne.
    + set_solver.
    + by apply sorted_new_bin.
  - destruct Hseg as (-> & nb & nib & (tv & Ht & <- & <-)%ptrs_inv & Hst & Hseg). simpl in *.
    rewrite Ht. simpl. rewrite ev_lt_klt, <-(key_of _ _ _ Ht), <-(key_of _ _ _ He).
    destruct (klt (key h e) (key h t)) eqn:Hlt.
    + eexists _, ([e] :: (t :: ts) :: B). split_and!; [done| |done|by eapply same_data_insert| | |].
      * split; [done|]. eexists _, _. split; [unfold ptrs; by rewrite lookup_insert_eq|]. split; [done|].
        split; [done|]. exists (nextBin tv), (nextInBin tv).
        rewrite Hfr by set_solver. split; [by apply ptrs_of|]. split.
        -- eapply stack_frame; [|done]. intros. apply Hfr. set_solver.
        -- eapply seg_frame; [|done]. intros. apply Hfr. set_solver.
      * intros. by rewrite lookup_insert_ne.
      * set_solver.
      * apply sorted_new_bin; [done..|]. eapply above_bins; [by eapply sorted_app_r| |done].
        apply Hkey. set_solver.
    + assert (Hek : key h t = key h e) by by apply klt_total.
      assert (Hts : ∀ x, x ∈ t :: ts → key h x = key h e)
        by (intros; rewrite <-Hek; apply (Hkey (t :: ts)); set_solver).
      eexists _, ((e :: t :: ts) :: B). split_and!; [done| |done|by eapply same_data_insert| | |].
      * split; [done|]. eexists _, _. split; [unfold ptrs; by rewrite lookup_insert_eq|]. simpl.
        split; [split; [done|]; exists (nextBin tv), (nextInBin tv); rewrite Hfr by set_solver;
                split; [by apply ptrs_of|]|].
        -- eapply stack_frame; [|done]. intros. apply Hfr. set_solver.
        -- eapply seg_frame; [|done]. intros. apply Hfr. set_solver.
      * intros. by rewrite lookup_insert_ne.
      * intros b [->|Hb]%elem_of_cons; [|apply Hkey; set_solver].
        assert (Hall : ∀ x, x ∈ e :: t :: ts → key h x = key h e)
          by (intros x [->|Hx]%elem_of_cons; auto).
        intros x y Hx Hy. by rewrite (Hall x), (Hall y).
      * by apply sorted_push.
Qed.

Lemma repr_same_keys q bins b : repr q bins → b ∈ bins → same_key (key (q_store q)) b.
Proof. intros H Hb x y. by apply (r_bin _ _ H). Qed.

(** The new bins [B'] in place of [B], after the unchanged bins [A]. *)
Lemma repr_placed q A B B' e o h' :
  repr q (A ++ B) → e ∉ concat (A ++ B) → concat B' = e :: concat B →
  same_data (q_store q) h' → Forall (below (key (q_store q)) (key (q_store q) e)) A →
  match B with (t :: _) :: _ => klt (key (q_store q) t) (key (q_store q) e) = false | _ => True end →
  seg h' o (A ++ B') None → (∀ b, b ∈ B' → same_key (key (q_store q)) b) →
  StronglySorted (bin_lt (key (q_store q))) (A ++ B') →
  repr (set_head o (set_store h' q)) (A ++ B') ∧
  concat (A ++ B') = place (key (q_store q)) e (concat (A ++ B)).
Proof.
  intros Hr Hnot HB' Hd HA Hst Hs Hk Hso.
  assert (Hne := seg_nonempty _ _ _ _ (r_seg _ _ Hr)).
  assert (Hc : concat (A ++ B') = place (key (q_store q)) e (concat (A ++ B))).
  { rewrite !concat_app, HB', place_app.
    - f_equal. destruct B as [|[|t ts] B]; simpl; [done| |by rewrite Hst].
      apply Forall_app in Hne as [_ Hne]. by inversion_clear Hne.
    - intros x Hx. apply list_elem_of_In, in_concat in Hx as (b & Hb & Hx).
      rewrite Forall_forall in HA. apply (HA b); by apply list_elem_of_In. }
  split; [|done]. constructor; simpl; [done| | |].
  - rewrite Hc, place_Permutation. constructor; [done|]. apply (r_nodup _ _ Hr).
  - intros b x y Hb Hx Hy. rewrite !(same_data_key _ _ Hd).
    apply elem_of_app in Hb as [Hb|Hb]; [|by apply (Hk b)].
    apply (r_bin _ _ Hr b); set_solver.
  - eapply StronglySorted_mono; [|exact Hso]. intros b c Hbc x y Hx Hy.
    rewrite !(same_data_key _ _ Hd). by apply Hbc.
Qed.

(** [EventQueue::insert] on any well-formed queue: it succeeds and places the
    event; the other fields of every event are unchanged. *)
Definition inserts (q : EventQueue) (bins : list (list eid)) (e : eid) : Prop :=
  ∃ q' bins', insert q e = Ok q' ∧ repr q' bins' ∧
    concat bins' = place (key (q_store q)) e (concat bins) ∧
    same_data (q_store q) (q_store q') ∧
    q_self q' = q_self q ∧ q_curTick q' = q_curTick q ∧ q_async q' = q_async q.

Lemma insert_at_head q bins e ev :
  repr q bins → q_store q !! e = Some ev → e ∉ concat bins →
  match bins with
  | (t :: _) :: _ => klt (key (q_store q) t) (key (q_store q) e) = false
  | _ => True
  end → inserts q bins e.
Proof.
  intros Hr He Hnot Htop. unfold inserts, insert. rewrite He. simpl.
  destruct (insertBefore_spec (q_store q) e ev (q_head q) [] bins)
    as (h' & B' & Hib & HB' & HcB & Hd & Hoth & HkB & HsB); try done.
  { apply (r_seg _ _ Hr). }
  { intros b. by apply repr_same_keys. }
  { apply (r_sorted _ _ Hr). }
  destruct (repr_placed q [] bins B' e (Some e) h') as [Hrep Hc]; try done.
  exists (set_head (Some e) (set_store h' q)), B'. split; [|done].
  pose proof (r_seg _ _ Hr) as Hseg. destruct (q_head q) as [hd|] eqn:Hhd.
  - destruct bins as [|[|t ts] bins]; simpl in Hseg; [done..|].
    destruct Hseg as ([= ->] & nb & nib & (tv & Ht & _)%ptrs_inv & _).
    rewrite Ht. simpl. rewrite ev_le_klt, <-(key_of _ _ _ Ht), <-(key_of _ _ _ He), Htop. simpl.
    by rewrite Hib.
  - by rewrite Hib.
Qed.

Lemma insert_spec q bins e ev :
  repr q bins → q_store q !! e = Some ev → e ∉ concat bins → inserts q bins e.
Proof.
  intros Hr He Hnot. destruct bins as [|[|t ts] bins]; [by eapply insert_at_head|by destruct (r_seg _ _ Hr)|].
  destruct (klt (key (q_store q) t) (key (q_store q) e)) eqn:Hlt; [|by eapply insert_at_head].
  pose proof (r_seg _ _ Hr) as Hseg0. pose proof Hseg0 as (Hhd & nb & nib & Hpt & Hst & Hseg).
  destruct (ptrs_inv _ _ _ _ Hpt) as (tv & Ht & Enb & Enib).
  destruct (find_bin_spec (fuel_of (q_store q)) (q_store q) ev t ts nb bins Hseg)
    as (A & p & ps & B & o & Heq & Hfb & HB & HA & Htop);
    [destruct (repr_fuel _ _ Hr); simpl in *; lia|by rewrite <-(key_of _ _ _ He)|].
  rewrite <-(key_of _ _ _ He) in *. rewrite Heq in Hr, Hnot, Hseg0.
  assert (Hsk := λ b, repr_same_keys _ _ b Hr).
  assert (HAB : Forall (below (key (q_store q)) (key (q_store q) e)) (A ++ [p :: ps]))
    by (apply below_bins; [done|]; intros; apply Hsk; set_solver).
  assert (Hnot' := Hnot). rewrite concat_app in Hnot'.
  destruct (insertBefore_spec (q_store q) e ev o (A ++ [p :: ps]) B)
    as (h' & B' & Hib & HB' & HcB & Hd & Hoth & HkB & HsB); try done; [set_solver|..].
  { intros b Hb. apply Hsk. set_solver. }
  { apply (r_sorted _ _ Hr). }
  assert (Hnd := r_nodup _ _ Hr). rewrite concat_app in Hnd. apply NoDup_app in Hnd as (HndA & Hdis & _).
  apply seg_app in Hseg0 as (o2 & HsA & _).
  assert (Hd' : same_data (q_store q) (alter (set_nextBin (Some e)) p h'))
    by (eapply same_data_trans; [done|]; by apply same_data_alter).
  destruct (repr_placed q (A ++ [p :: ps]) B B' e (Some t) (alter (set_nextBin (Some e)) p h'))
    as [Hrep Hc]; try done.
  { apply seg_app. exists (Some e). split.
    - eapply seg_relink; [done|]. rewrite Hhd in HsA.
      eapply seg_frame; [|exact HsA]. intros x Hx. unfold ptrs. rewrite Hoth; [done|]. set_solver.
    - eapply seg_frame; [|exact HB']. intros x Hx. apply ptrs_alter_ne. intros ->.
      rewrite HcB in Hx. assert (Hp : p ∈ concat (A ++ [p :: ps])) by (rewrite concat_app; set_solver).
      set_solver. }
  exists (set_store (alter (set_nextBin (Some e)) p h') q), ((A ++ [p :: ps]) ++ B').
  rewrite Heq. split; [|rewrite <-Hhd in Hrep; by destruct q].
  unfold insert. rewrite He, Hhd. simpl. rewrite Ht. simpl.
  rewrite ev_le_klt, <-(key_of _ _ _ Ht), <-(key_of _ _ _ He), Hlt. simpl.
  rewrite Enb, Hfb. simpl. by rewrite Hib.
Qed.

(** *** Removal *)
Lemma find_in_bin_spec fuel h e c o l :
  stack h o l → e ∈ l → (length l < fuel)%nat →
  ∃ L1 c' L2 nv, c :: l = L1 ++ c' :: e :: L2 ∧ find_in_bin fuel h e c o = Ok (c', nv) ∧
    h !! e = Some nv.
Proof.
  revert fuel c o. induction l as [|x l IH]; intros [|fuel] c o Hs He Hf; simpl in *; try lia; [set_solver|].
  destruct Hs as (-> & nb & nib & (xv & Hx & <- & <-)%ptrs_inv & Hs). rewrite Hx. simpl.
  case_decide as Hex.
  - subst x. exists [], c, l, xv. done.
  - destruct (IH fuel x (nextInBin xv)) as (L1 & c' & L2 & nv & Heq & Hfb & Hnv); [done|set_solver|lia|].
    exists (c :: L1), c', L2, nv. rewrite Heq. done.
Qed.

Lemma stack_unlink h o L1 c e nv L2 :
  stack h o (L1 ++ c :: e :: L2) → NoDup (L1 ++ c :: e :: L2) → h !! e = Some nv →
  stack (alter (set_nextInBin (nextInBin nv)) c h) o (L1 ++ c :: L2).
Proof.
  revert o. induction L1 as [|x L1 IH]; intros o Hs Hn He; simpl in *.
  - destruct Hs as (-> & nb & nib & Hc & -> & nb' & nib' & He' & Hs).
    rewrite (ptrs_of _ _ _ He) in He'. injection He' as <- <-.
    split; [done|]. exists nb, (nextInBin nv). split; [by eapply ptrs_alter_nextInBin|].
    eapply stack_frame; [|done]. intros y Hy. apply ptrs_alter_ne.
    intros ->. apply NoDup_cons in Hn as [Hn _]. set_solver.
  - destruct Hs as (-> & nb & nib & Hx & Hs). apply NoDup_cons in Hn as [Hx' Hn].
    split; [done|]. exists nb, nib. rewrite ptrs_alter_ne by set_solver. eauto.
Qed.

Lemma stack_top h t ts nb nib :
  ptrs h t = Some (nb, nib) → (stack h nib ts ↔ stack h (Some t) (t :: ts)).
Proof. intros Hp. simpl. rewrite Hp. naive_solver. Qed.

(** The bins after [e] left its bin [b], which came before [B]. *)
Definition unbin (e : eid) (b : list eid) (B : list (list eid)) : list (list eid) :=
  match filter (λ x, x ≠ e) b with [] => B | b' => b' :: B end.

Lemma filter_ne_id (e : eid) (l : list eid) : e ∉ l → filter (λ x, x ≠ e) l = l.
Proof.
  induction l as [|x l IH]; intros H; [done|]. rewrite filter_cons_True by set_solver.
  f_equal. apply IH. set_solver.
Qed.

Lemma filter_ne_split (e : eid) (l1 l2 : list eid) :
  NoDup (l1 ++ e :: l2) → filter (λ x, x ≠ e) (l1 ++ e :: l2) = l1 ++ l2.
Proof.
  intros (_ & Hd & Hn)%NoDup_app. apply NoDup_cons in Hn as [Hn _].
  rewrite filter_app, filter_cons_False, !filter_ne_id by set_solver. done.
Qed.

Lemma concat_unbin e b B :
  e ∉ concat B → concat (unbin e b B) = filter (λ x, x ≠ e) (concat (b :: B)).
Proof.
  intros H. unfold unbin. simpl. rewrite filter_app, (filter_ne_id _ _ H).
  by destruct (filter _ b).
Qed.

Lemma removeItem_spec h e t ts B :
  seg h (Some t) ((t :: ts) :: B) None → NoDup (concat ((t :: ts) :: B)) → e ∈ t :: ts →
  (length ts < fuel_of h)%nat →
  ∃ o h', removeItem h e t = Ok (o, h') ∧ same_data h h' ∧
    seg h' o (unbin e (t :: ts) B) None ∧ (∀ x, x ∉ t :: ts → h' !! x = h !! x).
Proof.
  intros (_ & nb & nib & Hpt & Hst & Hseg) Hn He Hf. simpl in Hn.
  destruct (ptrs_inv _ _ _ _ Hpt) as (tv & Ht & Enb & Enib).
  apply NoDup_cons in Hn as [Ht_ Hn]. apply NoDup_app in Hn as (Hn & Hdis & HnB).
  unfold removeItem. rewrite Ht. simpl. rewrite Enb, Enib. case_decide as Het.
  - subst e. unfold unbin. rewrite filter_cons_False, filter_ne_id by set_solver.
    destruct ts as [|n ts]; simpl in Hst.
    + subst nib. eexists _, h. by split_and!.
    + destruct Hst as (Hnib & nbn & nibn & Hpn & Hst). rewrite Hnib.
      eexists _, _. split_and!; [done|by apply same_data_alter| |].
      * simpl. split; [done|]. exists nb, nibn. split; [by eapply ptrs_alter_nextBin|].
        apply NoDup_cons in Hn as [Hn _].
        split; [eapply stack_frame; [|done]|eapply seg_frame; [|done]]; intros x Hx;
          apply ptrs_alter_ne; set_solver.
      * intros x Hx. apply lookup_alter_ne. set_solver.
  - destruct (find_in_bin_spec (fuel_of h) h e t nib ts Hst) as (L1 & c & L2 & nv & Heq & Hfb & Hnv);
      [set_solver|lia|]. rewrite Hfb. simpl.
    assert (Hnd : NoDup (t :: ts)) by (constructor; set_solver).
    pose proof Hst as Hst'. rewrite (stack_top _ _ _ _ _ Hpt), Heq in Hst'.
    rewrite Heq in Hnd. pose proof (stack_unlink _ _ _ _ _ _ _ Hst' Hnd Hnv) as Hnew.
    eexists _, _. split_and!; [done|by apply same_data_alter| |].
    + assert (Hu : unbin e (t :: ts) B = (L1 ++ c :: L2) :: B).
      { unfold unbin. rewrite Heq, (cons_middle c), app_assoc, filter_ne_split;
          rewrite <-app_assoc; [by destruct L1|done]. }
      rewrite Hu. assert (Hc : c ∈ t :: ts) by (rewrite Heq; set_solver).
      assert (HB : seg (alter (set_nextInBin (nextInBin nv)) c h) nb B None).
      { eapply seg_frame; [|done]. intros x Hx. apply ptrs_alter_ne. set_solver. }
      destruct L1 as [|x L1]; simpl in *; injection Heq as <- Heq.
      * destruct Hnew as (_ & nb' & nib' & Hp' & Hs'). split; [done|]. exists nb', nib'.
        pose proof Hp' as Hp. rewrite (ptrs_alter_nextInBin _ _ _ _ _ Hpt) in Hp'. by simplify_eq.
      * destruct Hnew as (_ & nb' & nib' & Hp' & Hs'). split; [done|]. exists nb', nib'.
        pose proof Hp' as Hp. apply NoDup_cons in Hnd as [Hnd _].
        rewrite ptrs_alter_ne, Hpt in Hp' by set_solver. by simplify_eq.
    + intros x Hx. apply lookup_alter_ne. intros <-. apply Hx. rewrite Heq. set_solver.
Qed.

Lemma elem_of_unbin x e b B : x ∈ unbin e b B → x ∈ B ∨ x = filter (λ y, y ≠ e) b.
Proof. unfold unbin. destruct (filter _ b) eqn:E; set_solver. Qed.

Lemma sorted_unbin k A b B e :
  StronglySorted (bin_lt k) (A ++ b :: B) → StronglySorted (bin_lt k) (A ++ unbin e b B).
Proof.
  intros Hs. assert (HA : StronglySorted (bin_lt k) (A ++ filter (λ y, y ≠ e) b :: B)).
  { revert Hs. rewrite !StronglySorted_app, !StronglySorted_cons.
    intros (Hc & HA & Hb & HB). split_and!; [|done| |done].
    - intros c d Hcc [->|Hd]%elem_of_cons x y Hx Hy; [|by eapply Hc; [done|by right|..]].
      apply list_elem_of_filter in Hy as [_ Hy]. eapply (Hc c b); [done|by left|done..].
    - eapply Forall_impl; [exact Hb|]. intros c Hc' x y [_ Hx]%list_elem_of_filter Hy. by apply Hc'. }
  unfold unbin. destruct (filter _ b); [|done].
  revert HA. rewrite !StronglySorted_app, StronglySorted_cons. intros (Hc & ? & _ & ?). split_and!; [|done..].
  intros c d ??. by apply Hc; [|right].
Qed.

(** [repr] after [e] left its bin [b]. *)
Lemma repr_removed q A b B e o h' :
  repr q (A ++ b :: B) → e ∈ b → same_data (q_store q) h' →
  seg h' o (A ++ unbin e b B) None →
  repr (set_head o (set_store h' q)) (A ++ unbin e b B) ∧
  concat (A ++ unbin e b B) = filter (λ x, x ≠ e) (concat (A ++ b :: B)).
Proof.
  intros Hr He Hd Hs. assert (Hnd := r_nodup _ _ Hr). rewrite concat_app in Hnd.
  apply NoDup_app in Hnd as (_ & Hdis & Hnd). simpl in Hnd, Hdis.
  apply NoDup_app in Hnd as (_ & Hdis' & _).
  assert (Hc : concat (A ++ unbin e b B) = filter (λ x, x ≠ e) (concat (A ++ b :: B))).
  { rewrite !concat_app, filter_app, concat_unbin, (filter_ne_id e (concat A)) by set_solver. done. }
  split; [|done]. constructor; simpl; [done| | |].
  - rewrite Hc. apply NoDup_filter, (r_nodup _ _ Hr).
  - intros c x y Hc' Hx Hy. rewrite !(same_data_key _ _ Hd).
    apply elem_of_app in Hc' as [Hc'|[Hc'| ->]%elem_of_unbin].
    + apply (r_bin _ _ Hr c); set_solver.
    + apply (r_bin _ _ Hr c); set_solver.
    + apply list_elem_of_filter in Hx as [_ Hx], Hy as [_ Hy]. apply (r_bin _ _ Hr b); set_solver.
  - eapply StronglySorted_mono; [|apply sorted_unbin, (r_sorted _ _ Hr)].
    intros c d Hcd x y Hx Hy. rewrite !(same_data_key _ _ Hd). by apply Hcd.
Qed.

Definition removes (q : EventQueue) (bins : list (list eid)) (e : eid) : Prop :=
  ∃ q' bins', remove q e = Ok q' ∧ repr q' bins' ∧
    concat bins' = filter (λ x, x ≠ e) (concat bins) ∧
    same_data (q_store q) (q_store q') ∧
    q_self q' = q_self q ∧ q_curTick q' = q_curTick q ∧ q_async q' = q_async q.

Lemma remove_head q t ts B e ev :
  repr q ((t :: ts) :: B) → q_store q !! e = Some ev → ev_queue ev = Some (q_self q) →
  e ∈ t :: ts → removes q ((t :: ts) :: B) e.
Proof.
  intros Hr He Hq Hin. pose proof (r_seg _ _ Hr) as Hseg. pose proof (r_nodup _ _ Hr) as Hnd.
  destruct (Hseg) as (Hhd & nb & nib & (tv & Ht & _)%ptrs_inv & _). rewrite Hhd in Hseg.
  destruct (removeItem_spec (q_store q) e t ts B) as (o & h' & Hri & Hd & Hs & _); try done.
  { destruct (repr_fuel _ _ Hr) as [_ Hf]. simpl in Hf. rewrite length_app in Hf. lia. }
  destruct (repr_removed q [] (t :: ts) B e o h') as [Hrep Hc]; try done.
  eexists _, _. split; [|done]. unfold remove. rewrite Hhd, He. simpl.
  rewrite bool_decide_true by done. simpl. rewrite Ht. simpl.
  rewrite ev_eq_key, bool_decide_true.
  - by rewrite Hri.
  - rewrite <-(key_of _ _ _ Ht), <-(key_of _ _ _ He). apply (r_bin _ _ Hr (t :: ts)); set_solver.
Qed.

(** An event that is not in the first bin is in the bin [find_bin] stops at. *)
Lemma locate_bin q t ts bins e ev nb nib :
  repr q ((t :: ts) :: bins) → q_store q !! e = Some ev → e ∉ t :: ts → e ∈ concat bins →
  ptrs (q_store q) t = Some (nb, nib) → seg (q_store q) nb bins None →
  klt (key (q_store q) t) (key (q_store q) e) = true ∧
  ∃ A p ps u us B, (t :: ts) :: bins = (A ++ [p :: ps]) ++ (u :: us) :: B ∧ e ∈ u :: us ∧
    find_bin (fuel_of (q_store q)) (q_store q) ev t nb = Ok (p, Some u) ∧
    seg (q_store q) (Some u) ((u :: us) :: B) None.
Proof.
  intros Hr He Het Hin Hpt Hseg.
  apply list_elem_of_In, in_concat in Hin as (b & Hb & Heb). apply list_elem_of_In in Hb, Heb.
  assert (Hlt : klt (key (q_store q) t) (key (q_store q) e) = true).
  { pose proof (r_sorted _ _ Hr) as Hs. apply StronglySorted_cons in Hs as [Hs _].
    rewrite Forall_forall in Hs. apply (Hs b); set_solver. }
  split; [done|].
  destruct (find_bin_spec (fuel_of (q_store q)) (q_store q) ev t ts nb bins Hseg)
    as (A & p & ps & B & o & Heq & Hfb & HB & HA & Htop);
    [destruct (repr_fuel _ _ Hr); simpl in *; lia|by rewrite <-(key_of _ _ _ He)|].
  rewrite <-(key_of _ _ _ He) in *. assert (Hb' : b ∈ (t :: ts) :: bins) by by right.
  rewrite Heq in Hr, Hb'.
  assert (HAB : Forall (below (key (q_store q)) (key (q_store q) e)) (A ++ [p :: ps]))
    by (apply below_bins; [done|]; intros; eapply repr_same_keys; [done|set_solver]).
  assert (HbB : b ∈ B).
  { apply elem_of_app in Hb' as [Hb'|]; [|done]. rewrite Forall_forall in HAB.
    pose proof (HAB b Hb' e Heb) as Hc. by rewrite klt_irrefl in Hc. }
  destruct B as [|[|u us] B]; [set_solver|by destruct HB|].
  pose proof HB as (-> & _). exists A, p, ps, u, us, B. split_and!; try done.
  apply elem_of_cons in HbB as [->|HbB]; [done|]. pose proof (r_sorted _ _ Hr) as Hs.
  apply sorted_app_r, StronglySorted_cons in Hs as [Hs _]. rewrite Forall_forall in Hs.
  rewrite (Hs b HbB u e) in Htop; [done|set_solver|done].
Qed.

Lemma remove_spec q bins e ev :
  repr q bins → q_store q !! e = Some ev → ev_queue ev = Some (q_self q) →
  e ∈ concat bins → removes q bins e.
Proof.
  intros Hr He Hq Hin.
  destruct bins as [|[|t ts] bins]; [set_solver|by destruct (r_seg _ _ Hr)|].
  destruct (decide (e ∈ t :: ts)) as [Het|Het]; [by eapply remove_head|].
  pose proof (r_seg _ _ Hr) as Hseg0. pose proof Hseg0 as (Hhd & nb & nib & Hpt & Hst & Hseg).
  destruct (ptrs_inv _ _ _ _ Hpt) as (tv & Ht & Enb & Enib).
  destruct (locate_bin q t ts bins e ev nb nib)
    as (Hlt & A & p & ps & u & us & B & Heq & Heu & Hfb & HB); try done; [simpl in Hin; set_solver|].
  rewrite Heq in Hr, Hseg0 |- *.
  pose proof (r_nodup _ _ Hr) as Hnd. rewrite concat_app in Hnd. apply NoDup_app in Hnd as (HndA & Hdis & HndB).
  pose proof HB as (_ & nbu & nibu & (uv & Hu & _)%ptrs_inv & _).
  destruct (removeItem_spec (q_store q) e u us B) as (o' & h' & Hri & Hd & Hs & Hoth); try done.
  { destruct (repr_fuel _ _ Hr) as [_ Hf]. rewrite concat_app, length_app in Hf. simpl in Hf.
    rewrite length_app in Hf. lia. }
  apply seg_app in Hseg0 as (o2 & HsA & _). rewrite Hhd in HsA.
  assert (Hd' : same_data (q_store q) (alter (set_nextBin o') p h'))
    by (eapply same_data_trans; [done|]; by apply same_data_alter).
  destruct (repr_removed q (A ++ [p :: ps]) (u :: us) B e (Some t) (alter (set_nextBin o') p h'))
    as [Hrep Hc]; try done.
  { apply seg_app. exists o'. split.
    - eapply seg_relink; [done|]. eapply seg_frame; [|exact HsA]. intros x Hx. unfold ptrs.
      rewrite Hoth; [done|]. intros Hx'. eapply Hdis; [exact Hx|]. simpl. set_solver.
    - assert (Hp : p ∈ concat (A ++ [p :: ps])) by (rewrite concat_app; set_solver).
      eapply seg_frame; [|exact Hs]. intros x Hx. apply ptrs_alter_ne. intros ->.
      rewrite concat_unbin in Hx.
      + apply list_elem_of_filter in Hx as [_ Hx]. by eapply Hdis.
      + simpl in HndB. rewrite app_comm_cons in HndB. apply NoDup_app in HndB as (_ & HndB & _). auto. }
  exists (set_store (alter (set_nextBin o') p h') q), ((A ++ [p :: ps]) ++ unbin e (u :: us) B).
  split; [|rewrite <-Hhd in Hrep; by destruct q].
  unfold remove. rewrite Hhd, He. simpl. rewrite bool_decide_true by done. simpl. rewrite Ht. simpl.
  rewrite ev_eq_key, bool_decide_false.
  - rewrite Enb, Hfb. simpl. rewrite Hu. simpl. rewrite ev_ne_eq, ev_eq_key, bool_decide_true; simpl.
    + by rewrite Hri.
    + rewrite <-(key_of _ _ _ Hu), <-(key_of _ _ _ He). apply (r_bin _ _ Hr (u :: us)); set_solver.
  - rewrite <-(key_of _ _ _ Ht), <-(key_of _ _ _ He). intros Hk. by rewrite Hk, klt_irrefl in Hlt.
Qed.

(** ** The queue's invariant

    [wf q l]: the pointers describe a queue that serves [l] in order, and the
    [Scheduled] flag marks exactly the queued and the asynchronously added
    events. *)
Definition queued (q : EventQueue) (l : list eid) : Prop :=
  ∃ bins, repr q bins ∧ concat bins = l.

Definition live (q : EventQueue) (e : eid) : Prop :=
  ∃ ev, q_store q !! e = Some ev ∧ scheduled ev = true ∧ ev_queue ev = Some (q_self q).

Record wf (q : EventQueue) (l : list eid) : Prop := mkWf {
  wf_queued : queued q l;
  wf_live : ∀ e, e ∈ l ++ q_async q → live q e;
  wf_sched : ∀ e ev, q_store q !! e = Some ev → scheduled ev = true → e ∈ l ++ q_async q;
  wf_init : ∀ e ev, q_store q !! e = Some ev → initialized ev = true;
  wf_nodup : NoDup (l ++ q_async q) }.

(** No queued event is in the past. *)
Definition on_time (q : EventQueue) (l : list eid) : Prop :=
  ∀ e, e ∈ l → q_curTick q ≤ (key (q_store q) e).1.

(** *** Flag arithmetic *)
Lemma flags_set_same f m : m ≠ 0 → flags_isSet (flags_set f m) m = true.
Proof.
  intros Hm. unfold flags_isSet, flags_set. rewrite Z.land_lor_distr_l, Z.land_diag.
  destruct (Z.eqb_spec (Z.lor (Z.land f m) m) 0) as [E|]; [|done].
  apply Z.lor_eq_0_iff in E as [_ ?]. done.
Qed.
Lemma flags_clear_sub f m n : Z.land m n = n → flags_isSet (flags_clear f m) n = false.
Proof.
  intros H. unfold flags_isSet, flags_clear. apply negb_false_iff, Z.eqb_eq, Z.bits_inj. intros i.
  apply (f_equal (λ z, Z.testbit z i)) in H. rewrite Z.land_spec in H.
  rewrite Z.land_spec, Z.ldiff_spec, Z.bits_0. rewrite <-H.
  destruct (Z.testbit f i), (Z.testbit m i), (Z.testbit n i); done.
Qed.
Lemma flags_clear_same f m : flags_isSet (flags_clear f m) m = false.
Proof. unfold flags_isSet, flags_clear. by rewrite Z.land_ldiff. Qed.
Lemma land_set_other f m n : Z.land m n = 0 → Z.land (flags_set f m) n = Z.land f n.
Proof. intros H. unfold flags_set. by rewrite Z.land_lor_distr_l, H, Z.lor_0_r. Qed.
Lemma land_clear_other f m n : Z.land m n = 0 → Z.land (flags_clear f m) n = Z.land f n.
Proof.
  intros H. unfold flags_clear. apply Z.bits_inj. intros i.
  apply (f_equal (λ z, Z.testbit z i)) in H.
  rewrite Z.land_spec, Z.bits_0 in H. rewrite !Z.land_spec, Z.ldiff_spec.
  destruct (Z.testbit f i), (Z.testbit m i), (Z.testbit n i); done.
Qed.
Lemma isSet_set_other f m n : Z.land m n = 0 → flags_isSet (flags_set f m) n = flags_isSet f n.
Proof. intros H. unfold flags_isSet. by rewrite land_set_other. Qed.
Lemma isSet_clear_other f m n : Z.land m n = 0 → flags_isSet (flags_clear f m) n = flags_isSet f n.
Proof. intros H. unfold flags_isSet. by rewrite land_clear_other. Qed.

Create HintDb evflags discriminated.
#[export] Hint Rewrite flags_set_same flags_clear_same using done : evflags.
#[export] Hint Rewrite land_set_other land_clear_other isSet_set_other isSet_clear_other
  using reflexivity : evflags.

(** *** Changing fields of one event *)
Lemma key_alter_same f e h : (∀ ev, ekey (f ev) = ekey ev) → ∀ x, key (alter f e h) x = key h x.
Proof.
  intros Hf x. unfold key. destruct (decide (e = x)) as [->|].
  - rewrite lookup_alter_eq. destruct (h !! x); simpl; [apply Hf|done].
  - by rewrite lookup_alter_ne.
Qed.
Lemma key_alter_ne f e h x : x ≠ e → key (alter f e h) x = key h x.
Proof. intros. unfold key. by rewrite lookup_alter_ne. Qed.
Lemma ptrs_alter_same f e h :
  (∀ ev, nextBin (f ev) = nextBin ev ∧ nextInBin (f ev) = nextInBin ev) →
  ∀ x, ptrs (alter f e h) x = ptrs h x.
Proof.
  intros Hf x. unfold ptrs. destruct (decide (e = x)) as [->|].
  - rewrite lookup_alter_eq. destruct (h !! x); simpl; [|done]. by destruct (Hf e) as [-> ->].
  - by rewrite lookup_alter_ne.
Qed.

Lemma repr_ext q q' bins :
  q_head q' = q_head q →
  (∀ e, e ∈ concat bins → ptrs (q_store q') e = ptrs (q_store q) e) →
  (∀ e, e ∈ concat bins → key (q_store q') e = key (q_store q) e) →
  repr q bins → repr q' bins.
Proof.
  intros Hh Hp Hk [Hs Hn Hb Hso].
  assert (Hel : ∀ b x, b ∈ bins → x ∈ b → x ∈ concat bins).
  { intros b x ??. apply list_elem_of_In, in_concat. exists b. by rewrite <-!list_elem_of_In. }
  constructor; [|done| |].
  - rewrite Hh. by eapply seg_frame.
  - intros b x y Hbb Hx Hy. rewrite !Hk by eauto. by eapply Hb.
  - clear -Hso Hk Hel. induction Hso as [|b bins Hs IH Hb]; [constructor|]. constructor.
    + apply IH; intros; [apply Hk; simpl; set_solver|]. apply list_elem_of_In, in_concat.
      eexists. by rewrite <-!list_elem_of_In.
    + apply Forall_forall. rewrite Forall_forall in Hb. intros c Hc x y Hx Hy.
      rewrite (Hk x), (Hk y) by (eapply Hel; [|done]; set_solver). by apply (Hb c).
Qed.

Lemma repr_q_alter f e q bins :
  (∀ ev, nextBin (f ev) = nextBin ev ∧ nextInBin (f ev) = nextInBin ev ∧ ekey (f ev) = ekey ev) →
  repr q bins → repr (q_alter f e q) bins.
Proof.
  intros Hf. apply repr_ext; [done| |]; intros x _; simpl.
  - apply ptrs_alter_same. naive_solver.
  - apply key_alter_same. naive_solver.
Qed.

Lemma repr_q_alter_out f e q bins : e ∉ concat bins → repr q bins → repr (q_alter f e q) bins.
Proof.
  intros He. apply repr_ext; [done| |]; intros x Hx; simpl.
  - apply ptrs_alter_ne. set_solver.
  - apply key_alter_ne. set_solver.
Qed.

(** *** [wf] after one event changed, in terms of the non-pointer fields *)
Definition dlook (q : EventQueue) (e : eid) : option (Z * Z * Z * option qid) :=
  data <$> q_store q !! e.

Definition d_scheduled (d : Z * Z * Z * option qid) : bool := flags_isSet d.1.2 Scheduled.
Definition d_init (d : Z * Z * Z * option qid) : bool := Z.land d.1.2 InitMask =? Initialized.

Lemma dlook_Some q e d : dlook q e = Some d ↔ ∃ ev, q_store q !! e = Some ev ∧ data ev = d.
Proof. unfold dlook. rewrite fmap_Some. naive_solver. Qed.

Lemma same_data_dlook q q' e : same_data (q_store q) (q_store q') → dlook q' e = dlook q e.
Proof. intros H. unfold dlook. rewrite <-!lookup_fmap. by rewrite H. Qed.

Lemma wf_alt q l :
  wf q l ↔ queued q l ∧ NoDup (l ++ q_async q) ∧
    (∀ e, e ∈ l ++ q_async q → ∃ d, dlook q e = Some d ∧ d_scheduled d = true ∧ d.2 = Some (q_self q)) ∧
    (∀ e d, dlook q e = Some d → (d_scheduled d = true → e ∈ l ++ q_async q) ∧ d_init d = true).
Proof.
  split.
  - intros [Hq Hl Hs Hi Hn]. split_and!; [done..| |].
    + intros e He. destruct (Hl e He) as (ev & Hev & ? & ?). exists (data ev).
      split; [|done]. unfold dlook. by rewrite Hev.
    + intros e d (ev & Hev & <-)%dlook_Some. split; [by apply Hs|by eapply Hi].
  - intros (Hq & Hn & Hl & Hs). constructor; try done.
    + intros e He. destruct (Hl e He) as (d & (ev & Hev & <-)%dlook_Some & ? & ?). by exists ev.
    + intros e ev Hev ?. apply (Hs e (data ev)); [|done]. unfold dlook. by rewrite Hev.
    + intros e ev Hev. apply (Hs e (data ev)). unfold dlook. by rewrite Hev.
Qed.

Lemma wf_added q q' l l' e d :
  wf q l → queued q' l' → l' ≡ₚ e :: l → e ∉ l ++ q_async q → q_async q' = q_async q →
  q_self q' = q_self q → (∀ x, x ≠ e → dlook q' x = dlook q x) →
  dlook q' e = Some d → d_scheduled d = true → d_init d = true → d.2 = Some (q_self q) →
  wf q' l'.
Proof.
  rewrite !wf_alt. intros (_ & Hn & Hl & Hs) Hq' Hp He Ha Hself Hoth Hde Hsch Hin Hqe.
  split_and!; [done|..].
  - rewrite Ha, Hp. simpl. by constructor.
  - intros x. rewrite Ha, Hp, Hself. simpl. intros [->|Hx]%elem_of_cons; [by exists d|].
    rewrite Hoth by set_solver. by apply Hl.
  - intros x d' Hd'. rewrite Ha, Hp. simpl. destruct (decide (x = e)) as [->|Hne].
    + simplify_eq. split; [set_solver|done].
    + rewrite Hoth in Hd' by done. destruct (Hs x d' Hd') as [Hs1 ?]. split; [|done]. set_solver.
Qed.

Lemma wf_removed q q' l l' e :
  wf q l → queued q' l' → l ≡ₚ e :: l' → q_async q' = q_async q →
  q_self q' = q_self q → (∀ x, x ≠ e → dlook q' x = dlook q x) →
  (∀ d, dlook q' e = Some d → d_scheduled d = false ∧ d_init d = true) →
  wf q' l'.
Proof.
  rewrite !wf_alt. intros (_ & Hn & Hl & Hs) Hq' Hp Ha Hself Hoth Hde.
  rewrite Hp in Hn. simpl in Hn. apply NoDup_cons in Hn as [Hne Hn].
  split_and!; [done|by rewrite Ha|..].
  - intros x Hx. rewrite Ha in Hx. rewrite Hself, Hoth by set_solver. apply Hl. rewrite Hp. set_solver.
  - intros x d' Hd'. rewrite Ha. destruct (decide (x = e)) as [->|Hxe].
    + destruct (Hde _ Hd') as [-> ?]. done.
    + rewrite Hoth in Hd' by done. destruct (Hs x d' Hd') as [Hs1 ?]. split; [|done].
      intros Hd. specialize (Hs1 Hd). rewrite Hp in Hs1. set_solver.
Qed.

Lemma dlook_alter_ne f e q x : x ≠ e → dlook (q_alter f e q) x = dlook q x.
Proof. intros. unfold dlook. simpl. by rewrite lookup_alter_ne. Qed.
Lemma dlook_alter_eq f e q : dlook (q_alter f e q) e = data <$> (f <$> q_store q !! e).
Proof. unfold dlook. simpl. by rewrite lookup_alter_eq. Qed.
Lemma key_dlook q e d : dlook q e = Some d → key (q_store q) e = d.1.1.
Proof. intros (ev & Hev & <-)%dlook_Some. by rewrite (key_of _ _ _ Hev). Qed.

(** Local scheduling: serial simulation, or a local event on one's own queue. *)
Definition local_mode (m : Mode) (q : EventQueue) (global : bool) : Prop :=
  inParallelMode m = false ∨ (q_self q = curEventQueue m ∧ global = false).

Lemma local_mode_test m q g : local_mode m q g →
  inParallelMode m && (bool_decide (q_self q ≠ curEventQueue m) || g) = false.
Proof.
  intros [->|[-> ->]]; [done|]. rewrite bool_decide_false by naive_solver. by rewrite andb_false_r.
Qed.

(** [EventQueue::schedule]. *)
Lemma schedule_spec m q l e ev t g :
  wf q l → q_store q !! e = Some ev → scheduled ev = false → q_curTick q ≤ t → local_mode m q g →
  ∃ q', schedule m q e t g = Ok q' ∧ wf q' (place (key (q_store q')) e l) ∧
    dlook q' e = Some (t, ev_priority ev, flags_set (ev_flags ev) Scheduled, Some (q_self q)) ∧
    (∀ x, x ≠ e → dlook q' x = dlook q x) ∧
    q_curTick q' = q_curTick q ∧ q_self q' = q_self q ∧ q_async q' = q_async q.
Proof.
  intros Hwf He Hns Ht Hm. pose proof Hwf as [(bins & Hr & Hl) Hlive Hsch Hinit Hnd].
  assert (Hnot : e ∉ l ++ q_async q).
  { intros Hin. destruct (Hlive _ Hin) as (ev' & ? & ? & _). congruence. }
  unfold schedule. rewrite (proj2 (Z.leb_le _ _) Ht). simpl. unfold q_event. rewrite He. simpl.
  rewrite Hns, (Hinit _ _ He). simpl.
  set (q1 := q_alter (setWhen t (q_self q)) e q).
  rewrite (local_mode_test m q g Hm). simpl.
  assert (He1 : q_store q1 !! e = Some (setWhen t (q_self q) ev)) by (simpl; by rewrite lookup_alter_eq, He).
  destruct (insert_spec q1 bins e _ ltac:(apply repr_q_alter_out; [set_solver|done]) He1)
    as (q2 & bins' & Hi & Hr' & Hc & Hd & Hself & Hct & Has); [set_solver|].
  rewrite Hi. simpl. eexists. split; [done|].
  set (fl := λ ev, set_flags (flags_set (ev_flags ev) Scheduled) ev).
  assert (Hde : dlook (q_alter fl e q2) e =
    Some (t, ev_priority ev, flags_set (ev_flags ev) Scheduled, Some (q_self q))).
  { rewrite dlook_alter_eq. destruct (same_data_lookup _ _ _ _ Hd He1) as (ev2 & -> & Hd2). simpl.
    unfold data in *. simpl in *. injection Hd2 as E1 E2 E3 E4. by rewrite E1, E2, E3, E4. }
  assert (Hoth : ∀ x, x ≠ e → dlook (q_alter fl e q2) x = dlook q x).
  { intros x Hx. rewrite dlook_alter_ne, (same_data_dlook _ _ _ Hd) by done. by apply dlook_alter_ne. }
  split_and!; try done.
  assert (Hpl : concat bins' = place (key (q_store (q_alter fl e q2))) e l).
  { rewrite Hc, Hl. apply place_ext. intros x _. simpl.
    by rewrite (key_alter_same fl e _ (λ _, eq_refl)), (same_data_key _ _ Hd). }
  eapply wf_added; try done.
  - exists bins'. split; [by apply repr_q_alter|done].
  - apply place_Permutation.
  - unfold d_scheduled. simpl. by apply flags_set_same.
  - unfold d_init. simpl. rewrite land_set_other by done. apply (Hinit _ _ He).
Qed.

Definition own_mode (m : Mode) (q : EventQueue) : Prop :=
  inParallelMode m = false ∨ q_self q = curEventQueue m.

Lemma own_mode_test m q : own_mode m q →
  negb (inParallelMode m) || bool_decide (q_self q = curEventQueue m) = true.
Proof. intros [->| ->]; [done|]. rewrite bool_decide_true by done. apply orb_true_r. Qed.

Lemma filter_ne_Permutation (e : eid) (l : list eid) :
  NoDup l → e ∈ l → l ≡ₚ e :: filter (λ x, x ≠ e) l.
Proof.
  intros Hn (l1 & l2 & ->)%list_elem_of_split. rewrite filter_ne_split by done.
  symmetry. apply Permutation_middle.
Qed.

(** What [release] leaves of an event whose flags are [f]. *)
Definition released (f : Z) (d : Z * Z * Z * option qid) : option (Z * Z * Z * option qid) :=
  if flags_isSet f Managed && negb (flags_isSet f Scheduled) then None else Some d.

Lemma release_spec e q ev bins :
  q_store q !! e = Some ev → repr q bins → e ∉ concat bins →
  ∃ q', release e q = Ok q' ∧ repr q' bins ∧ dlook q' e = released (ev_flags ev) (data ev) ∧
    (∀ x, x ≠ e → dlook q' x = dlook q x) ∧
    q_curTick q' = q_curTick q ∧ q_self q' = q_self q ∧ q_async q' = q_async q.
Proof.
  intros He Hr Hn. unfold release, q_event, released. rewrite He. simpl.
  unfold isManaged, scheduled. destruct (_ && _).
  - eexists. split; [done|]. split_and!; try done.
    + apply (repr_ext q); [done|..|exact Hr]; intros x Hx; simpl; unfold ptrs, key;
        by rewrite lookup_delete_ne by set_solver.
    + unfold dlook. simpl. by rewrite lookup_delete_eq.
    + intros x Hx. unfold dlook. simpl. by rewrite lookup_delete_ne.
  - exists q. split_and!; try done. unfold dlook. by rewrite He.
Qed.

(** [EventQueue::deschedule]. *)
Lemma deschedule_spec m q l e ev :
  wf q l → e ∈ l → q_store q !! e = Some ev → own_mode m q →
  let f := flags_clear (flags_clear (ev_flags ev) Squashed) Scheduled in
  ∃ q', deschedule m q e = Ok q' ∧ wf q' (filter (λ x, x ≠ e) l) ∧
    dlook q' e = released f (ev_when ev, ev_priority ev, f, ev_queue ev) ∧
    (∀ x, x ≠ e → dlook q' x = dlook q x) ∧
    q_curTick q' = q_curTick q ∧ q_self q' = q_self q ∧ q_async q' = q_async q.
Proof.
  intros Hwf Hin He Hm f. pose proof Hwf as [(bins & Hr & Hl) Hlive Hsch Hinit Hnd]. subst l.
  destruct (Hlive e) as (ev' & He' & Hs & Hq); [set_solver|]. simplify_eq.
  unfold deschedule, q_event. rewrite He. simpl. rewrite Hs, (Hinit _ _ He), (own_mode_test _ _ Hm). simpl.
  destruct (remove_spec q bins e ev Hr He Hq Hin) as (q1 & bins' & Hrm & Hr1 & Hc & Hd & Hself & Hct & Has).
  rewrite Hrm. simpl. destruct (same_data_lookup _ _ _ _ Hd He) as (ev1 & He1 & Hd1).
  set (g := λ ev, set_flags (flags_clear (flags_clear (ev_flags ev) Squashed) Scheduled) ev).
  assert (He2 : q_store (q_alter g e q1) !! e = Some (g ev1)) by (simpl; by rewrite lookup_alter_eq, He1).
  unfold data in Hd1. injection Hd1 as E1 E2 E3 E4.
  destruct (release_spec e (q_alter g e q1) (g ev1) bins' He2) as (q' & Hrel & Hr' & Hde & Hoth & Hct' & Hself' & Has').
  { by apply repr_q_alter. }
  { rewrite Hc, list_elem_of_filter. naive_solver. }
  exists q'. split; [done|].
  assert (Hde' : dlook q' e = released f (ev_when ev, ev_priority ev, f, ev_queue ev)).
  { rewrite Hde. unfold data, g. simpl. by rewrite E1, E2, E3, E4. }
  assert (Hoth' : ∀ x, x ≠ e → dlook q' x = dlook q x).
  { intros x Hx. rewrite Hoth, dlook_alter_ne by done. by apply same_data_dlook. }
  simpl in *. split_and!; try congruence; try done.
  eapply (wf_removed q q' (concat bins) _ e); try done; try congruence.
  - exists bins'. done.
  - apply filter_ne_Permutation; [|done]. apply (r_nodup _ _ Hr).
  - intros d Hd'. rewrite Hde' in Hd'. unfold released in Hd'. destruct (_ && _); [done|]. injection Hd' as <-.
    unfold d_scheduled, d_init. simpl. subst f. split; [apply flags_clear_same|].
    rewrite !land_clear_other by done. apply (Hinit _ _ He).
Qed.

(** The unlinking half of [EventQueue::serviceOne]. *)
Definition pops (q : EventQueue) (e : eid) (ev : Event) (l : list eid) : Prop :=
  ∃ q', pop_head q = Ok (e, q') ∧ wf q' l ∧
    dlook q' e = Some (ev_when ev, ev_priority ev, flags_clear (ev_flags ev) Scheduled, ev_queue ev) ∧
    (∀ x, x ≠ e → dlook q' x = dlook q x) ∧
    q_curTick q' = q_curTick q ∧ q_self q' = q_self q ∧ q_async q' = q_async q.

Abbreviation unschedule := (λ ev, set_flags (flags_clear (ev_flags ev) Scheduled) ev).

Lemma pops_intro q e ev l q' bins' :
  wf q (e :: l) → q_store q !! e = Some ev → pop_head q = Ok (e, q') → repr q' bins' → concat bins' = l →
  (∀ x, dlook q' x = dlook (q_alter unschedule e q) x) → q_curTick q' = q_curTick q →
  q_self q' = q_self q → q_async q' = q_async q → pops q e ev l.
Proof.
  intros Hwf He Hp Hr' Hc Hd H1 H2 H3. exists q'. split; [done|].
  assert (Hde : dlook q' e = Some (ev_when ev, ev_priority ev, flags_clear (ev_flags ev) Scheduled, ev_queue ev))
    by by rewrite Hd, dlook_alter_eq, He.
  assert (Hoth : ∀ x, x ≠ e → dlook q' x = dlook q x) by (intros; rewrite Hd; by apply dlook_alter_ne).
  split_and!; try done. eapply (wf_removed q q' (e :: l) l e); try done.
  - by exists bins'.
  - intros d Hd'. rewrite Hde in Hd'. injection Hd' as <-. unfold d_scheduled, d_init. simpl.
    split; [apply flags_clear_same|]. rewrite land_clear_other by done. apply (wf_init _ _ Hwf _ _ He).
Qed.

Lemma pop_head_spec q e l ev : wf q (e :: l) → q_store q !! e = Some ev → pops q e ev l.
Proof.
  intros Hwf He. destruct (wf_queued _ _ Hwf) as (bins & Hr & Hl).
  destruct bins as [|[|t ts] bins]; [done|by destruct (r_seg _ _ Hr)|]. simpl in Hl. injection Hl as -> Hl.
  pose proof (r_seg _ _ Hr) as (Hhd & _).
  assert (Hrg : repr (q_alter unschedule e q) ((e :: ts) :: bins)) by by apply repr_q_alter.
  pose proof (r_nodup _ _ Hr) as Hn. simpl in Hn. apply NoDup_cons in Hn as [Hne Hn].
  destruct (removeItem_spec (q_store (q_alter unschedule e q)) e e ts bins) as (o & h' & Hri & Hd & Hs & _).
  { pose proof (r_seg _ _ Hrg) as Hsg. simpl in Hsg |- *. naive_solver. }
  { by apply (r_nodup _ _ Hrg). }
  { set_solver. }
  { destruct (repr_fuel _ _ Hrg) as [_ Hf]. simpl in *. rewrite length_app in Hf. lia. }
  destruct (repr_removed _ [] (e :: ts) bins e o h' Hrg) as [Hrep Hc]; [set_solver|done..|].
  apply (pops_intro q e ev l (set_head o (set_store h' (q_alter unschedule e q))) (unbin e (e :: ts) bins));
    try done.
  - unfold pop_head, q_event. rewrite Hhd. simpl. rewrite He. simpl.
    unfold removeItem in Hri. simpl in Hri. rewrite lookup_alter_eq, He in Hri. simpl in Hri.
    rewrite decide_True in Hri by done. destruct (nextInBin ev); simplify_eq/=; done.
  - change (concat (unbin e (e :: ts) bins) = l). etrans; [exact Hc|]. simpl.
    rewrite filter_cons_False, filter_ne_id by set_solver. done.
  - intros x. apply same_data_dlook. done.
Qed.

(** [EventQueue::reschedule]: first the queue without the event, whether it was
    queued or not; then the event is placed again. *)
Lemma unqueue_spec q l e ev :
  wf q l → q_async q = [] → q_store q !! e = Some ev →
  ∃ q0 bins0, (if scheduled ev then remove q e else Ok q) = Ok q0 ∧ repr q0 bins0 ∧
    concat bins0 = filter (λ x, x ≠ e) l ∧ same_data (q_store q) (q_store q0) ∧
    q_self q0 = q_self q ∧ q_curTick q0 = q_curTick q ∧ q_async q0 = q_async q.
Proof.
  intros [(bins & Hr & Hl) Hlive Hsch Hinit Hnd] Has He. destruct (scheduled ev) eqn:Hs.
  - pose proof (Hsch _ _ He Hs) as Hin. destruct (Hlive _ Hin) as (ev' & ? & _ & Hq). simplify_eq.
    rewrite Has, app_nil_r in Hin. by eapply remove_spec.
  - exists q, bins. split_and!; try done. rewrite filter_ne_id; [done|].
    intros Hin. destruct (Hlive e) as (ev' & ? & ? & _); [set_solver|]. congruence.
Qed.

Lemma wf_moved q q' l l' e d :
  wf q l → q_async q = [] → queued q' l' → NoDup l' → l' ≡ₚ e :: filter (λ x, x ≠ e) l →
  q_async q' = [] → q_self q' = q_self q → (∀ x, x ≠ e → dlook q' x = dlook q x) →
  dlook q' e = Some d → d_scheduled d = true → d_init d = true → d.2 = Some (q_self q) → wf q' l'.
Proof.
  rewrite !wf_alt. intros (_ & _ & Hl & Hs) Has Hq Hn Hp Has' Hself Hoth Hde Hds Hdi Hdq.
  rewrite Has, app_nil_r in *. rewrite Has', app_nil_r. split_and!; [done..| |].
  - intros x. rewrite Hp, Hself. intros [->|[Hx Hx']%list_elem_of_filter]%elem_of_cons; [by exists d|].
    rewrite Hoth by done. by apply Hl.
  - intros x d'. rewrite Hp. destruct (decide (x = e)) as [->|Hx].
    + rewrite Hde. intros [= <-]. split; [set_solver|done].
    + rewrite Hoth by done. intros Hdx. destruct (Hs x d' Hdx) as [Hs3 ?]. split; [|done].
      intros Hds'. right. apply list_elem_of_filter. auto.
Qed.

Lemma reschedule_spec m q l e ev t a :
  wf q l → q_async q = [] → q_store q !! e = Some ev → a || scheduled ev = true →
  q_curTick q ≤ t → own_mode m q →
  ∃ q', reschedule m q e t a = Ok q' ∧
    wf q' (place (key (q_store q')) e (filter (λ x, x ≠ e) l)) ∧
    dlook q' e = Some (t, ev_priority ev, flags_set (flags_clear (ev_flags ev) Squashed) Scheduled,
                       Some (q_self q)) ∧
    (∀ x, x ≠ e → dlook q' x = dlook q x) ∧
    q_curTick q' = q_curTick q ∧ q_self q' = q_self q ∧ q_async q' = q_async q.
Proof.
  intros Hwf Has He Ha Ht Hm. pose proof (wf_init _ _ Hwf _ _ He) as Hini.
  unfold reschedule. rewrite (proj2 (Z.leb_le _ _) Ht). simpl. unfold q_event. rewrite He. simpl.
  rewrite Ha, Hini, (own_mode_test _ _ Hm). simpl.
  destruct (unqueue_spec q l e ev Hwf Has He) as (q0 & bins0 & Hq0 & Hr0 & Hc0 & Hd0 & Hself0 & Hct0 & Has0).
  rewrite Hq0. simpl. destruct (same_data_lookup _ _ _ _ Hd0 He) as (ev0 & He0 & Hev0).
  set (q1 := q_alter (setWhen t (q_self q0)) e q0).
  assert (Hne : e ∉ concat bins0) by (rewrite Hc0, list_elem_of_filter; naive_solver).
  assert (He1 : q_store q1 !! e = Some (setWhen t (q_self q0) ev0)) by (simpl; by rewrite lookup_alter_eq, He0).
  destruct (insert_spec q1 bins0 e _ ltac:(by apply repr_q_alter_out) He1 Hne)
    as (q2 & bins' & Hi & Hr' & Hc & Hd & Hself & Hct & Has2).
  rewrite Hi. simpl. eexists. split; [done|].
  set (fl := λ ev, set_flags (flags_set (flags_clear (ev_flags ev) Squashed) Scheduled) ev).
  assert (Hde : dlook (q_alter fl e q2) e = Some (t, ev_priority ev,
    flags_set (flags_clear (ev_flags ev) Squashed) Scheduled, Some (q_self q))).
  { rewrite dlook_alter_eq. destruct (same_data_lookup _ _ _ _ Hd He1) as (ev2 & -> & Hd2). simpl.
    unfold data in *. simpl in *. injection Hd2 as E1 E2 E3 E4. injection Hev0 as F1 F2 F3 F4.
    by rewrite E1, E2, E3, E4, F2, F3, Hself0. }
  assert (Hoth : ∀ x, x ≠ e → dlook (q_alter fl e q2) x = dlook q x).
  { intros x Hx. rewrite dlook_alter_ne, (same_data_dlook _ _ _ Hd) by done. unfold q1.
    rewrite dlook_alter_ne by done. by apply same_data_dlook. }
  assert (Hpl : concat bins' = place (key (q_store (q_alter fl e q2))) e (filter (λ x, x ≠ e) l)).
  { rewrite Hc, Hc0. apply place_ext. intros x _. simpl.
    by rewrite (key_alter_same fl e _ (λ _, eq_refl)), (same_data_key _ _ Hd). }
  simpl in *. split_and!; try congruence; try done.
  eapply (wf_moved q); try done; try (simpl; congruence).
  - exists bins'. split; [by apply repr_q_alter|done].
  - rewrite <-Hpl. apply (r_nodup _ _ Hr').
  - apply place_Permutation.
  - by apply flags_set_same.
  - unfold d_init. simpl. rewrite land_set_other, land_clear_other by done. exact Hini.
Qed.
