(* ===== verification/EventQThm.v ===== *)
(** * Properties of the gem5 event queue

    The operations as a transition system, the invariant of its reachable
    states, what each operation does on them, [debugVerify], and restoring an
    event from a checkpoint. *)
From S2P Require Import Prelude EventQ.
Local Open Scope Z_scope.

(** ** The queue as a transition system *)
Inductive qstep (m : Mode) : EventQueue → EventQueue → Prop :=
  | st_schedule q e t g q' :
      local_mode m q g → schedule m q e t g = Ok q' → qstep m q q'
  | st_deschedule q e q' : own_mode m q → deschedule m q e = Ok q' → qstep m q q'
  | st_reschedule q e t a q' : own_mode m q → reschedule m q e t a = Ok q' → qstep m q q'
  | st_pop q e q' : pop_head q = Ok (e, q') →
      qstep m q (setCurTick (key (q_store q) e).1 q').

(** A store of constructed events, none of them scheduled. *)
Definition fresh (h : store) : Prop :=
  map_Forall (λ _ ev, initialized ev = true ∧ scheduled ev = false) h.

Record inv (q : EventQueue) (l : list eid) : Prop := mkInv {
  inv_wf : wf q l;
  inv_time : on_time q l;
  inv_async : q_async q = [] }.

Lemma wf_in_order q l : wf q l → in_order (key (q_store q)) l.
Proof.
  intros [(bins & Hr & <-) _ _ _ _]. apply sorted_concat.
  - intros b x y. by apply (r_bin _ _ Hr).
  - apply (r_sorted _ _ Hr).
Qed.

Lemma inv_new self h : fresh h → inv (new_queue self h) [].
Proof.
  intros Hf. constructor; [|intros e He; set_solver|done]. constructor; simpl.
  - exists []. split; [|done]. constructor; simpl; [done|constructor|set_solver|constructor].
  - set_solver.
  - intros e ev He. destruct (Hf e ev He). congruence.
  - intros e ev He. apply (Hf e ev He).
  - constructor.
Qed.

Lemma dlook_key q q' x : dlook q' x = dlook q x → key (q_store q') x = key (q_store q) x.
Proof.
  unfold dlook, key. destruct (q_store q !! x) as [ev|], (q_store q' !! x) as [ev'|]; simpl; try done.
  intros [= E1 E2 _ _]. unfold ekey. by rewrite E1, E2.
Qed.

(** A step whose queued events are the old ones, apart from [e] at [t]. *)
Lemma on_time_step q q' l l' e t :
  on_time q l → q_curTick q' = q_curTick q → (∀ x, x ≠ e → dlook q' x = dlook q x) →
  (∀ x, x ∈ l' → x = e ∨ x ∈ l) → (e ∈ l' → (key (q_store q') e).1 = t ∧ q_curTick q ≤ t) →
  on_time q' l'.
Proof.
  intros Ht Hc Hoth Hl He x Hx. rewrite Hc. destruct (decide (x = e)) as [->|Hne].
  - destruct (He Hx) as [-> ?]. done.
  - rewrite (dlook_key _ _ _ (Hoth x Hne)). apply Ht. destruct (Hl x Hx); done.
Qed.

Lemma inv_schedule m q l e ev t g :
  inv q l → q_store q !! e = Some ev → scheduled ev = false → q_curTick q ≤ t → local_mode m q g →
  ∃ q', schedule m q e t g = Ok q' ∧ inv q' (place (key (q_store q')) e l) ∧
    dlook q' e = Some (t, ev_priority ev, flags_set (ev_flags ev) Scheduled, Some (q_self q)) ∧
    (∀ x, x ≠ e → dlook q' x = dlook q x) ∧ q_curTick q' = q_curTick q ∧ q_self q' = q_self q.
Proof.
  intros [Hwf Hon Has] He Hs Ht Hm.
  destruct (schedule_spec m q l e ev t g Hwf He Hs Ht Hm) as (q' & Hq' & Hwf' & Hde & Hoth & Hct & Hself & Has').
  exists q'. split_and!; try done. constructor; [done| |congruence].
  eapply on_time_step; try done.
  - intros x. rewrite place_Permutation. set_solver.
  - intros _. by rewrite (key_dlook _ _ _ Hde).
Qed.

Lemma inv_deschedule m q l e ev :
  inv q l → e ∈ l → q_store q !! e = Some ev → own_mode m q →
  let f := flags_clear (flags_clear (ev_flags ev) Squashed) Scheduled in
  ∃ q', deschedule m q e = Ok q' ∧ inv q' (filter (λ x, x ≠ e) l) ∧
    dlook q' e = released f (ev_when ev, ev_priority ev, f, ev_queue ev) ∧
    (∀ x, x ≠ e → dlook q' x = dlook q x) ∧ q_curTick q' = q_curTick q ∧ q_self q' = q_self q.
Proof.
  intros [Hwf Hon Has] Hin He Hm f.
  destruct (deschedule_spec m q l e ev Hwf Hin He Hm) as (q' & Hq' & Hwf' & Hde & Hoth & Hct & Hself & Has').
  exists q'. split_and!; try done. constructor; [done| |congruence].
  eapply (on_time_step _ _ _ _ e 0); try done.
  - intros x [_ Hx]%list_elem_of_filter. by right.
  - intros [? _]%list_elem_of_filter. done.
Qed.

Lemma inv_reschedule m q l e ev t a :
  inv q l → q_store q !! e = Some ev → a || scheduled ev = true → q_curTick q ≤ t → own_mode m q →
  ∃ q', reschedule m q e t a = Ok q' ∧
    inv q' (place (key (q_store q')) e (filter (λ x, x ≠ e) l)) ∧
    dlook q' e = Some (t, ev_priority ev, flags_set (flags_clear (ev_flags ev) Squashed) Scheduled,
                       Some (q_self q)) ∧
    (∀ x, x ≠ e → dlook q' x = dlook q x) ∧ q_curTick q' = q_curTick q ∧ q_self q' = q_self q.
Proof.
  intros [Hwf Hon Has] He Ha Ht Hm.
  destruct (reschedule_spec m q l e ev t a Hwf Has He Ha Ht Hm)
    as (q' & Hq' & Hwf' & Hde & Hoth & Hct & Hself & Has').
  exists q'. split_and!; try done. constructor; [done| |congruence].
  eapply on_time_step; try done.
  - intros x. rewrite place_Permutation. intros [->|[_ Hx]%list_elem_of_filter]%elem_of_cons; auto.
  - intros _. by rewrite (key_dlook _ _ _ Hde).
Qed.

Lemma wf_setCurTick t q l : wf q l → wf (setCurTick t q) l.
Proof.
  intros [(bins & [H1 H2 H3 H4] & Hl) Hlive Hsch Hinit Hnd]. constructor; try done.
  exists bins. split; [|done]. by constructor.
Qed.

Lemma inv_pop q e l ev :
  inv q (e :: l) → q_store q !! e = Some ev →
  ∃ q', pop_head q = Ok (e, q') ∧ inv (setCurTick (ev_when ev) q') l ∧
    q_curTick q ≤ ev_when ev ∧
    dlook q' e = Some (ev_when ev, ev_priority ev, flags_clear (ev_flags ev) Scheduled, ev_queue ev) ∧
    (∀ x, x ≠ e → dlook q' x = dlook q x) ∧ q_self q' = q_self q.
Proof.
  intros [Hwf Hon Has] He. destruct (pop_head_spec q e l ev Hwf He) as (q' & Hp & Hwf' & Hde & Hoth & Hct & Hself & Has').
  pose proof (Hon e ltac:(set_solver)) as Hte. rewrite (key_of _ _ _ He) in Hte. simpl in Hte.
  exists q'. split_and!; try done. constructor; [by apply wf_setCurTick| |simpl; congruence].
  intros x Hx. simpl. pose proof (wf_nodup _ _ Hwf) as Hn. simpl in Hn. apply NoDup_cons in Hn as [Hne _].
  assert (x ≠ e) by set_solver. rewrite (dlook_key _ _ _ (Hoth x H)).
  pose proof (wf_in_order _ _ Hwf) as Ho. apply StronglySorted_cons in Ho as [Ho _].
  rewrite Forall_forall in Ho. specialize (Ho x Hx). rewrite (key_of _ _ _ He) in Ho.
  unfold kle, klt, ekey in Ho. simpl in Ho. lia.
Qed.

(** What a successful call says about its arguments. *)
Lemma schedule_inv m q e t g q' : schedule m q e t g = Ok q' →
  q_curTick q ≤ t ∧ ∃ ev, q_store q !! e = Some ev ∧ scheduled ev = false.
Proof.
  unfold schedule. intros H. resolve H as Ht%assert_ok. resolve H as He%deref_ok.
  resolve H as Hs%assert_ok. apply negb_true_iff in Hs. split; [lia|eauto].
Qed.
Lemma deschedule_inv m q e q' : deschedule m q e = Ok q' →
  ∃ ev, q_store q !! e = Some ev ∧ scheduled ev = true.
Proof.
  unfold deschedule. intros H. resolve H as He%deref_ok. resolve H as Hs%assert_ok. eauto.
Qed.
Lemma reschedule_inv m q e t a q' : reschedule m q e t a = Ok q' →
  q_curTick q ≤ t ∧ ∃ ev, q_store q !! e = Some ev ∧ a || scheduled ev = true.
Proof.
  unfold reschedule. intros H. resolve H as Ht%assert_ok. resolve H as He%deref_ok.
  resolve H as Hs%assert_ok. split; [lia|eauto].
Qed.

Lemma inv_scheduled_queued q l e ev :
  inv q l → q_store q !! e = Some ev → scheduled ev = true → e ∈ l.
Proof.
  intros Hi He Hs. pose proof (wf_sched _ _ (inv_wf _ _ Hi) _ _ He Hs) as Hin.
  by rewrite (inv_async _ _ Hi), app_nil_r in Hin.
Qed.

Lemma inv_head q l : inv q l → match l with [] => q_head q = None | e :: _ => q_head q = Some e end.
Proof.
  intros Hi. destruct (wf_queued _ _ (inv_wf _ _ Hi)) as (bins & Hr & <-). pose proof (r_seg _ _ Hr) as Hs.
  destruct bins as [|[|? ?] ?]; simpl in *; [done|done|]. by destruct Hs as [-> _].
Qed.

(** Each transition keeps the invariant. *)
Lemma inv_step m q l q' : inv q l → qstep m q q' → ∃ l', inv q' l'.
Proof.
  intros Hinv Hst. revert Hinv.
  destruct Hst as [q0 e t g q1 Hm Hs | q0 e q1 Hm Hs | q0 e t a q1 Hm Hs | q0 e q1 Hp]; intros Hinv.
  - destruct (schedule_inv _ _ _ _ _ _ Hs) as (Ht & ev & He & Hn).
    destruct (inv_schedule m q0 l e ev t g) as (q2 & Hq' & Hi & _); try done.
    rewrite Hs in Hq'. simplify_eq. eauto.
  - destruct (deschedule_inv _ _ _ _ Hs) as (ev & He & Hn).
    destruct (inv_deschedule m q0 l e ev) as (q2 & Hq' & Hi & _); try done.
    + by eapply inv_scheduled_queued.
    + rewrite Hs in Hq'. simplify_eq. eauto.
  - destruct (reschedule_inv _ _ _ _ _ _ Hs) as (Ht & ev & He & Hn).
    destruct (inv_reschedule m q0 l e ev t a) as (q2 & Hq' & Hi & _); try done.
    rewrite Hs in Hq'. simplify_eq. eauto.
  - pose proof (inv_head _ _ Hinv) as Hh. destruct l as [|e' l]; [unfold pop_head in Hp; by rewrite Hh in Hp|].
    destruct (wf_live _ _ (inv_wf _ _ Hinv) e') as (ev & He & _); [set_solver|].
    destruct (inv_pop q0 e' l ev Hinv He) as (q2 & Hp' & Hi & _).
    rewrite Hp in Hp'. injection Hp' as -> ->. rewrite (key_of _ _ _ He). eauto.
Qed.

Lemma inv_steps m q0 q l0 : inv q0 l0 → rtc (qstep m) q0 q → ∃ l, inv q l.
Proof.
  intros Hi Hr. revert l0 Hi. induction Hr as [|q0 q1 q Hs _ IH]; intros l0 Hi; [eauto|].
  destruct (inv_step _ _ _ _ Hi Hs) as (l1 & Hi1). eauto.
Qed.

(** ** [debugVerify] *)
Lemma verify_bin_ok fuel h seen tm pr o l k :
  stack h o l → (∀ x, x ∈ l → key h x = k) → kle (tm, pr) k → NoDup l →
  (∀ x, x ∈ l → x ∉ seen) → (length l < fuel)%nat →
  verify_bin fuel h seen tm pr o =
    Ok (Some (list_to_set l ∪ seen, if l then tm else k.1, if l then pr else k.2)).
Proof.
  revert fuel seen tm pr o. induction l as [|e l IH]; intros [|fuel] seen tm pr o Hs Hk Hle Hn Hsn Hf;
    simpl in Hf; try lia; simpl in Hs.
  - subst o. simpl. by rewrite (left_id_L ∅ (∪)).
  - destruct Hs as (-> & nb & nib & (ev & He & <- & <-)%ptrs_inv & Hs). simpl. rewrite He. simpl.
    pose proof (Hk e ltac:(set_solver)) as Hke. rewrite (key_of _ _ _ He) in Hke. subst k.
    unfold kle, klt, ekey in Hle. simpl in Hle. unfold ekey in *. simpl in *.
    rewrite (proj2 (Z.ltb_ge _ _)) by lia.
    replace ((ev_when ev =? tm) && (ev_priority ev <? pr)) with false by lia.
    rewrite decide_False by (apply Hsn; set_solver). apply NoDup_cons in Hn as [Hne Hn].
    rewrite (IH fuel _ _ _ _ Hs); try done; try lia.
    + replace (list_to_set l ∪ ({[e]} ∪ seen)) with (list_to_set (e :: l) ∪ seen : gset eid)
        by (apply leibniz_equiv; set_solver). by destruct l.
    + intros x Hx. apply Hk. set_solver.
    + unfold kle, klt. simpl. lia.
    + intros x Hx. set_solver.
Qed.

Lemma verify_bins_ok fuel h seen tm pr o bins :
  seg h o bins None → NoDup (concat bins) → (∀ b, b ∈ bins → same_key (key h) b) →
  StronglySorted (bin_lt (key h)) bins → (∀ x, x ∈ concat bins → x ∉ seen) →
  (length bins < fuel)%nat → (length (concat bins) < fuel_of h)%nat →
  match bins with (t :: _) :: _ => kle (tm, pr) (key h t) | _ => True end →
  verify_bins fuel h seen tm pr o = Ok true.
Proof.
  revert fuel seen tm pr o. induction bins as [|[|t ts] bins IH];
    intros [|fuel] seen tm pr o Hs Hn Hk Hso Hsn Hf Hf' Hle; simpl in Hf; try lia.
  - simpl in Hs. by subst o.
  - done.
  - destruct Hs as (-> & nb & nib & Hpt & Hst & Hs). cbn [verify_bins].
    simpl in Hn. rewrite app_comm_cons in Hn. apply NoDup_app in Hn as (Hn & Hdis & Hn').
    rewrite (verify_bin_ok _ _ _ _ _ _ (t :: ts) (key h t)); try done.
    + cbn [res_bind]. destruct (ptrs_inv _ _ _ _ Hpt) as (tv & Ht & <- & _). rewrite Ht. cbn [deref res_bind].
      apply StronglySorted_cons in Hso as [Hlt Hso].
      apply IH; try done; try lia.
      * intros b Hb. apply Hk. set_solver.
      * intros x Hx. rewrite not_elem_of_union, elem_of_list_to_set.
        split; [intros Hx'; by eapply Hdis|]. apply Hsn. simpl. set_solver.
      * simpl in Hf'. rewrite length_app in Hf'. lia.
      * destruct bins as [|[|u us] bins]; [done..|]. unfold kle. apply klt_asym.
        rewrite <-surjective_pairing. apply Forall_cons in Hlt as [Hlt _]. apply Hlt; set_solver.
    + rewrite <-(stack_top _ _ _ _ _ Hpt). done.
    + intros x Hx. apply (Hk (t :: ts)); set_solver.
    + intros x Hx. apply Hsn. simpl. set_solver.
    + simpl in *. rewrite length_app in Hf'. lia.
Qed.

(** The first event is not before tick 0 or, at tick 0, of negative priority. *)
Definition verifiable (q : EventQueue) (l : list eid) : Prop :=
  match l with e :: _ => kle (0, 0) (key (q_store q) e) | [] => True end.

Lemma debugVerify_spec q l : wf q l → verifiable q l → debugVerify q = Ok true.
Proof.
  intros Hwf Hv. destruct (wf_queued _ _ Hwf) as (bins & Hr & <-).
  destruct (repr_fuel _ _ Hr) as [Hf Hf']. unfold debugVerify. eapply verify_bins_ok; try done.
  - apply (r_seg _ _ Hr).
  - apply (r_nodup _ _ Hr).
  - intros b. by apply repr_same_keys.
  - apply (r_sorted _ _ Hr).
  - lia.
  - destruct bins as [|[|t ts] bins]; try done.
Qed.

(** ** Serving events *)


(** Handlers that only change the rest of the machine, on plain events. *)
Section quiet.
Context {W : Type} (act : eid → W → W).




End quiet.

(** ** The properties *)

(** C14: every state the queue's operations reach from an empty queue is
    well formed: the pointers describe a list of distinct events in order of
    time and priority, the [Scheduled] flag marks exactly its members, and none
    of them is in the past. *)
Theorem reachable_queue_ordered m self h q :
  fresh h → rtc (qstep m) (new_queue self h) q →
  ∃ l, queued q l ∧ NoDup l ∧ in_order (key (q_store q)) l ∧ on_time q l ∧
    ∀ e ev, q_store q !! e = Some ev → scheduled ev = true ↔ e ∈ l.
Proof.
  intros Hf Hr. destruct (inv_steps _ _ _ _ (inv_new self h Hf) Hr) as (l & Hi).
  exists l. pose proof Hi as [Hwf Hon Has]. split_and!; [apply Hwf| |by apply wf_in_order|done|].
  - pose proof (wf_nodup _ _ Hwf) as Hn. by rewrite Has, app_nil_r in Hn.
  - intros e ev He. split; [by eapply inv_scheduled_queued|].
    intros Hin. destruct (wf_live _ _ Hwf e) as (ev' & ? & ? & _); [set_solver|]. by simplify_eq.
Qed.

(** C27: scheduling an idle event at a time that is not past succeeds and
    puts it before the first queued event that is not earlier (equal time and
    priority: last in, first out); every other event keeps its place and data. *)
Theorem schedule_refines m q l e ev t g :
  inv q l → q_store q !! e = Some ev → scheduled ev = false → q_curTick q ≤ t → local_mode m q g →
  ∃ q', schedule m q e t g = Ok q' ∧ inv q' (place (key (q_store q')) e l) ∧
    key (q_store q') e = (t, ev_priority ev) ∧ (∀ x, x ≠ e → dlook q' x = dlook q x).
Proof.
  intros Hi He Hs Ht Hm. destruct (inv_schedule m q l e ev t g Hi He Hs Ht Hm) as (q' & Hq & Hi' & Hde & Hoth & _).
  exists q'. split_and!; try done. by rewrite (key_dlook _ _ _ Hde).
Qed.

(** Descheduling a queued event succeeds, takes exactly that event out of
    the service order, and leaves it unscheduled (deleted when it is managed). *)
Theorem deschedule_refines m q l e :
  inv q l → e ∈ l → own_mode m q →
  ∃ q', deschedule m q e = Ok q' ∧ inv q' (filter (λ x, x ≠ e) l) ∧
    (∀ ev', q_store q' !! e = Some ev' → scheduled ev' = false) ∧
    (∀ x, x ≠ e → dlook q' x = dlook q x).
Proof.
  intros Hi Hin Hm. destruct (wf_live _ _ (inv_wf _ _ Hi) e) as (ev & He & _); [set_solver|].
  destruct (inv_deschedule m q l e ev Hi Hin He Hm) as (q' & Hq & Hi' & Hde & Hoth & _).
  exists q'. split_and!; try done. intros ev' He'.
  assert (Hd' : dlook q' e = Some (data ev')) by (unfold dlook; by rewrite He').
  rewrite Hde in Hd'. unfold released in Hd'. destruct (_ && _); [done|]. injection Hd' as E1 E2 E3 E4.
  unfold scheduled. rewrite <-E3. apply flags_clear_same.
Qed.

(** C31: on a well-formed queue no operation on an existing event panics,
    follows a bad pointer or loops: it returns, or stops at one of its own
    assertions (time in the past, event already / not scheduled). *)
Theorem queue_ops_only_assert m q l e ev t g a :
  inv q l → q_store q !! e = Some ev → local_mode m q g → own_mode m q →
  (is_ok (schedule m q e t g) = true ∨ schedule m q e t g = Fail AssertFail) ∧
  (is_ok (deschedule m q e) = true ∨ deschedule m q e = Fail AssertFail) ∧
  (is_ok (reschedule m q e t a) = true ∨ reschedule m q e t a = Fail AssertFail).
Proof.
  intros Hi He Hl Hm. split_and!.
  - destruct (decide (q_curTick q ≤ t)) as [Ht|Ht].
    + destruct (scheduled ev) eqn:Hs.
      * right. unfold schedule, q_event. rewrite (proj2 (Z.leb_le _ _) Ht), He. simpl. by rewrite Hs.
      * left. destruct (inv_schedule m q l e ev t g) as (q' & -> & _); done.
    + right. unfold schedule. by rewrite (proj2 (Z.leb_gt _ _)) by lia.
  - destruct (scheduled ev) eqn:Hs.
    + left. destruct (inv_deschedule m q l e ev) as (q' & -> & _); try done. by eapply inv_scheduled_queued.
    + right. unfold deschedule, q_event. rewrite He. simpl. by rewrite Hs.
  - destruct (decide (q_curTick q ≤ t)) as [Ht|Ht].
    + destruct (a || scheduled ev) eqn:Hs.
      * left. destruct (inv_reschedule m q l e ev t a) as (q' & -> & _); done.
      * right. unfold reschedule, q_event. rewrite (proj2 (Z.leb_le _ _) Ht), He. simpl. by rewrite Hs.
    + right. unfold reschedule. by rewrite (proj2 (Z.leb_gt _ _)) by lia.
Qed.


(** [debugVerify] accepts every reachable queue whose first event is not
    at tick 0 with a negative priority. *)
Theorem debugVerify_accepts m self h q :
  fresh h → rtc (qstep m) (new_queue self h) q →
  ∃ l, queued q l ∧ (verifiable q l → debugVerify q = Ok true).
Proof.
  intros Hf Hr. destruct (inv_steps _ _ _ _ (inv_new self h Hf) Hr) as (l & [Hwf _ _]).
  exists l. split; [apply Hwf|]. by apply debugVerify_spec.
Qed.

(** Restoring an event that was scheduled and not squashed when the
    checkpoint was taken ([UNSERIALIZE_EVENT]) does not put it back on the
    queue: [unserialize] clears the [Scheduled] flag that
    [checkpointReschedule] then tests. *)
Theorem restored_event_not_requeued q l e ev w p f :
  inv q l → q_store q !! e = Some ev → scheduled ev = false →
  flags_isSet f Scheduled = true → flags_isSet f Squashed = false →
  ∃ q', unserialize_event q e w p f = Ok q' ∧ queued q' l ∧
    ∀ ev', q_store q' !! e = Some ev' → scheduled ev' = false ∧ ev_when ev' = w.
Proof.
  intros Hi He Hs Hsch Hsq. pose proof (inv_wf _ _ Hi) as Hwf.
  unfold unserialize_event, unserialize, q_event. rewrite He. simpl.
  rewrite Hs, (wf_init _ _ Hwf _ _ He). simpl.
  rewrite !isSet_set_other, Hsch, Hsq by done. simpl.
  unfold checkpointReschedule, q_event. simpl. rewrite lookup_insert_eq. simpl.
  rewrite flags_clear_sub by done. eexists. split; [done|]. split.
  - destruct (wf_queued _ _ Hwf) as (bins & Hr & <-). exists bins. split; [|done].
    assert (Hne : ∀ x, x ∈ concat bins → x ≠ e).
    { intros x Hx ->. destruct (wf_live _ _ Hwf e) as (ev' & ? & ? & _); [set_solver|congruence]. }
    apply (repr_ext q); [done|..|done]; intros x Hx; specialize (Hne x Hx); simpl.
    + by apply ptrs_insert_ne.
    + unfold key. by rewrite lookup_insert_ne.
  - intros ev'. simpl. rewrite lookup_insert_eq. intros [= <-]. split; [|done].
    unfold scheduled. simpl. by apply flags_clear_sub.
Qed.

(** ** A concrete queue, for the witnesses: events 1 to 3, of priorities 0, 0
    and 50; 1 is scheduled at tick 7, then 3 at tick 5. *)
Definition serial : Mode := mkMode false 1%positive.
Definition ev0 (p : Z) : Event := mkEvent None None 0 p Initialized None.
Definition store0 : store := {[ 1%positive := ev0 0; 2%positive := ev0 0; 3%positive := ev0 50 ]}.
Definition queue0 : EventQueue := new_queue 1%positive store0.
Definition from_res {A} (d : A) (r : res A) : A := match r with Ok a => a | Fail _ => d end.
Definition queue1 : EventQueue := from_res queue0 (schedule serial queue0 1%positive 7 false).
Definition queue2 : EventQueue := from_res queue1 (schedule serial queue1 3%positive 5 false).

Lemma store0_fresh : fresh store0.
Proof. apply map_Forall_to_list. vm_compute. repeat constructor. Qed.

Lemma queue1_inv : inv queue1 [1%positive].
Proof.
  destruct (inv_schedule serial queue0 [] 1%positive (ev0 0) 7 false) as (q' & Hq & Hi & _);
    [by apply inv_new, store0_fresh|done|done|done|by left|].
  unfold queue1. by rewrite Hq.
Qed.

Lemma queue2_inv : inv queue2 [3%positive; 1%positive].
Proof.
  destruct (inv_schedule serial queue1 [1%positive] 3%positive (ev0 50) 5 false) as (q' & Hq & Hi & _);
    [exact queue1_inv|by vm_compute|done|by vm_compute|by left|].
  assert (Hq2 : queue2 = q') by (unfold queue2; by rewrite Hq). subst q'. exact Hi.
Qed.

Lemma queue2_reachable : rtc (qstep serial) queue0 queue2.
Proof.
  eapply rtc_l; [eapply (st_schedule serial queue0 1%positive 7 false queue1); [by left|by vm_compute]|].
  eapply rtc_l; [eapply (st_schedule serial queue1 3%positive 5 false queue2); [by left|by vm_compute]|].
  apply rtc_refl.
Qed.

Lemma reachable_queue_ordered_witness : ∃ l, queued queue2 l ∧ NoDup l.
Proof.
  destruct (reachable_queue_ordered serial 1%positive store0 queue2 store0_fresh queue2_reachable)
    as (l & Hq & Hn & _). by exists l.
Defined.

Lemma schedule_refines_witness :
  ∃ q', schedule serial queue2 2%positive 7 false = Ok q' ∧
    inv q' (place (key (q_store q')) 2%positive [3%positive; 1%positive]).
Proof.
  destruct (schedule_refines serial queue2 [3%positive; 1%positive] 2%positive (ev0 0) 7 false)
    as (q' & Hq & Hi & _); [exact queue2_inv|by vm_compute|done|by vm_compute|by left|].
  by exists q'.
Defined.

Lemma deschedule_refines_witness :
  ∃ q', deschedule serial queue2 1%positive = Ok q' ∧ inv q' [3%positive].
Proof.
  destruct (deschedule_refines serial queue2 [3%positive; 1%positive] 1%positive)
    as (q' & Hq & Hi & _); [exact queue2_inv|set_solver|by left|].
  by exists q'.
Defined.

Lemma queue_ops_only_assert_witness :
  is_ok (deschedule serial queue2 2%positive) = true ∨ deschedule serial queue2 2%positive = Fail AssertFail.
Proof.
  apply (queue_ops_only_assert serial queue2 [3%positive; 1%positive] 2%positive (ev0 0) 0 false false);
    [exact queue2_inv|by vm_compute|by left|by left].
Defined.


Lemma debugVerify_accepts_witness : ∃ l, queued queue2 l ∧ (verifiable queue2 l → debugVerify queue2 = Ok true).
Proof.
  apply (debugVerify_accepts serial 1%positive store0 queue2 store0_fresh queue2_reachable).
Defined.

(** The saved flags of a scheduled event are [Initialized | Scheduled]. *)
Lemma restored_event_not_requeued_witness :
  ∃ q', unserialize_event queue2 2%positive 9 0 (Z.lor Initialized Scheduled) = Ok q' ∧
    queued q' [3%positive; 1%positive].
Proof.
  destruct (restored_event_not_requeued queue2 [3%positive; 1%positive] 2%positive (ev0 0) 9 0
    (Z.lor Initialized Scheduled)) as (q' & Hq & Hl & _);
    [exact queue2_inv|by vm_compute|done|done|done|]. by exists q'.
Defined.
