(* ===== verification/CppString.v ===== *)
(** * The [std::string] operations the PNM tools use

    A string is a list of bytes.  [to_string] prints an integer in decimal,
    [stoi] parses one the way [strtol] does (leading space, sign, digits) and
    throws when there is none or it does not fit in an [int]. *)
From S2P Require Import Prelude.
Local Open Scope Z_scope.

Definition str (s : string) : bytes := String.list_byte_of_string s.

(** [s.find(c)] and [s.rfind(c)]; [None] is [npos]. *)
Fixpoint find (c : byte) (s : bytes) : option nat :=
  match s with
  | [] => None
  | x :: s => if Byte.eqb x c then Some O else S <$> find c s
  end.
Fixpoint rfind (c : byte) (s : bytes) : option nat :=
  match s with
  | [] => None
  | x :: s =>
      match rfind c s with
      | Some n => Some (S n)
      | None => if Byte.eqb x c then Some O else None
      end
  end.

(** ** Decimal numbers *)
Definition digit (z : Z) : byte := z2b (48 + z).
Definition is_digit (b : byte) : bool := (48 <=? b2z b) && (b2z b <=? 57).
Definition is_space (b : byte) : bool := (b2z b =? 32) || ((9 <=? b2z b) && (b2z b <=? 13)).

Fixpoint dec (fuel : nat) (z : Z) : bytes :=
  match fuel with
  | O => []
  | S fuel => if z <? 10 then [digit z] else dec fuel (z / 10) ++ [digit (z mod 10)]
  end.
(** Twenty digits are enough for 64 bits. *)
Definition to_string (z : Z) : bytes :=
  if z <? 0 then Byte.x2d :: dec 20 (- z) else dec 20 z.

Fixpoint parse_dec (acc : Z) (s : bytes) : Z :=
  match s with
  | [] => acc
  | b :: s => if is_digit b then parse_dec (acc * 10 + (b2z b - 48)) s else acc
  end.
Fixpoint skip_space (s : bytes) : bytes :=
  match s with
  | b :: s' => if is_space b then skip_space s' else s
  | [] => []
  end.
Definition stoi (s : bytes) : res Z :=
  let s := skip_space s in
  let (neg, s) :=
    match s with
    | b :: s' => if Byte.eqb b Byte.x2d then (true, s') else if Byte.eqb b Byte.x2b then (false, s') else (false, s)
    | [] => (false, [])
    end in
  match s with
  | b :: _ =>
      if is_digit b then
        let v := if neg then - parse_dec 0 s else parse_dec 0 s in
        if (- 2 ^ 31 <=? v) && (v <? 2 ^ 31) then Ok v else Fail Exception
      else Fail Exception
  | [] => Fail Exception
  end.

(** ** Lemmas *)
Lemma digit_value z : 0 ≤ z < 10 → b2z (digit z) = 48 + z.
Proof. intros Hz. apply b2z_z2b. lia. Qed.
Lemma digit_is_digit z : 0 ≤ z < 10 → is_digit (digit z) = true.
Proof. intros Hz. unfold is_digit. rewrite digit_value by done. lia. Qed.

Lemma parse_dec_app acc s b : forallb is_digit s = true → is_digit b = true →
  parse_dec acc (s ++ [b]) = parse_dec acc s * 10 + (b2z b - 48).
Proof.
  intros Hs Hb. revert acc. induction s as [|x s IH]; intros acc; simpl in *; [by rewrite Hb|].
  apply andb_true_iff in Hs as [Hx Hs]. rewrite Hx. by apply IH.
Qed.

Lemma dec_spec fuel z : 0 ≤ z < 10 ^ Z.of_nat fuel → (0 < fuel)%nat →
  forallb is_digit (dec fuel z) = true ∧ dec fuel z ≠ [] ∧ parse_dec 0 (dec fuel z) = z.
Proof.
  revert z. induction fuel as [|fuel IH]; intros z Hz Hf; [lia|]. simpl.
  destruct (Z.ltb_spec z 10) as [Hs|Hs].
  - simpl. rewrite digit_is_digit, digit_value by lia. split_and!; [done|done|lia].
  - rewrite Nat2Z.inj_succ, Z.pow_succ_r in Hz by lia.
    pose proof (Z.div_mod z 10 ltac:(lia)) as Hdm. pose proof (Z.mod_pos_bound z 10 ltac:(lia)) as Hm.
    assert (1 ≤ z / 10) by (apply Z.div_le_lower_bound; lia).
    destruct fuel as [|fuel]; [simpl in Hz; lia|].
    destruct (IH (z / 10)) as (Hd & Hne & Hp); [|lia|].
    { split; [lia|]. apply Z.div_lt_upper_bound; lia. }
    split_and!.
    + rewrite forallb_app, Hd. simpl. by rewrite digit_is_digit by lia.
    + by destruct (dec (S fuel) (z / 10)).
    + rewrite parse_dec_app, Hp, digit_value by (done || lia || by apply digit_is_digit). lia.
Qed.

Lemma digit_byte_facts b : is_digit b = true →
  is_space b = false ∧ Byte.eqb b Byte.x2d = false ∧ Byte.eqb b Byte.x2b = false ∧ Byte.eqb b Byte.x3a = false.
Proof. destruct b; try done; by vm_compute. Qed.

(** Printing a non-negative [int] and parsing it back. *)
Lemma stoi_to_string z : 0 ≤ z < 2 ^ 31 → stoi (to_string z) = Ok z.
Proof.
  intros Hz. unfold to_string. rewrite (proj2 (Z.ltb_ge _ _)) by lia.
  destruct (dec_spec 20 z) as (Hd & Hne & Hp); [lia|lia|].
  destruct (dec 20 z) as [|b s] eqn:E; [done|]. simpl in Hd. apply andb_true_iff in Hd as [Hb Hs].
  destruct (digit_byte_facts b Hb) as (H1 & H2 & H3 & _).
  unfold stoi. simpl skip_space. rewrite H1, H2, H3, Hb, Hp. 
  rewrite (proj2 (Z.leb_le _ _)), (proj2 (Z.ltb_lt _ _)) by lia. done.
Qed.

Lemma find_digits s t : forallb is_digit s = true → find Byte.x3a (s ++ Byte.x3a :: t) = Some (length s).
Proof.
  induction s as [|b s IH]; simpl; intros Hs; [done|]. apply andb_true_iff in Hs as [Hb Hs].
  destruct (digit_byte_facts b Hb) as (_ & _ & _ & ->). by rewrite IH.
Qed.

Lemma to_string_digits z : 0 ≤ z < 2 ^ 64 → forallb is_digit (to_string z) = true.
Proof.
  intros Hz. unfold to_string. rewrite (proj2 (Z.ltb_ge _ _)) by lia. apply dec_spec; lia.
Qed.

Lemma rfind_none c s : c ∉ s → rfind c s = None.
Proof.
  induction s as [|x s IH]; intros Hn; [done|]. apply not_elem_of_cons in Hn as [Hx Hs]. simpl. rewrite IH by done.
  destruct (Byte.eqb x c) eqn:E; [|done]. by apply Byte.byte_dec_bl in E as ->.
Qed.
Lemma rfind_last c dir base : c ∉ base → rfind c (dir ++ [c] ++ base) = Some (length dir).
Proof.
  intros Hb. induction dir as [|x dir IH]; cbn [app rfind length] in *; [|by rewrite IH].
  by rewrite rfind_none, Byte.byte_dec_lb by done.
Qed.
