(* ===== verification/PnmIpc.v ===== *)
(** * Length-prefixed framing over the UNIX socket
    ([rocksdb/tools/pnm_ipc.h], with [append_frame] of
    [pnm_compaction_service.h] and [parse_field] of [pnm_unit_main.cc])

    The kernel's [send] and [recv] are the parameter [Socket]; [SocketLaws]
    states what the man pages promise of a connected stream socket. *)
From S2P Require Import Prelude.
Local Open Scope Z_scope.

(** [errno] after an interrupted call. *)
Definition EINTR : Z := 4.

(** ** The kernel interface: [send(fd, p, len, MSG_NOSIGNAL)] returns the count
    and errno; [recv(fd, p, len, 0)] also the bytes it stored at [p]. *)
Class Socket (S : Type) := {
  sys_send : S → bytes → Z * Z * S;
  sys_recv : S → Z → Z * Z * bytes * S }.

(** [sk_sent]: the bytes accepted for the peer so far; [sk_inbox]: the bytes of
    the peer not yet received; [sk_intr]: how many more calls a signal can
    interrupt. *)
Class SocketLaws (S : Type) `{Socket S} := {
  sk_sent : S → bytes;
  sk_inbox : S → bytes;
  sk_intr : S → nat;
  send_accepts s b n err s' : sys_send s b = (n, err, s') → 0 < n →
    n ≤ Z.of_nat (length b) ∧ sk_sent s' = sk_sent s ++ take (Z.to_nat n) b ∧
    sk_inbox s' = sk_inbox s ∧ (sk_intr s' ≤ sk_intr s)%nat;
  send_fails s b n err s' : sys_send s b = (n, err, s') → n ≤ 0 →
    sk_sent s' = sk_sent s ∧ sk_inbox s' = sk_inbox s;
  send_intr s b n s' : sys_send s b = (n, EINTR, s') → n < 0 → (sk_intr s' < sk_intr s)%nat;
  recv_stores s len n err d s' : sys_recv s len = (n, err, d, s') → 0 < n →
    n ≤ len ∧ Z.of_nat (length d) = n ∧ sk_inbox s = d ++ sk_inbox s' ∧
    sk_sent s' = sk_sent s ∧ (sk_intr s' ≤ sk_intr s)%nat;
  recv_fails s len n err d s' : sys_recv s len = (n, err, d, s') → n ≤ 0 →
    sk_sent s' = sk_sent s ∧ sk_inbox s' = sk_inbox s;
  recv_intr s len n d s' : sys_recv s len = (n, EINTR, d, s') → n < 0 →
    (sk_intr s' < sk_intr s)%nat }.

Section ipc.
Context {S : Type} `{Socket S}.

(** ** [pnm_send_all]: [p] is what is left of the buffer. *)
Fixpoint pnm_send_all (fuel : nat) (s : S) (p : bytes) : res (bool * S) :=
  match fuel with
  | O => Fail OutOfFuel
  | Datatypes.S fuel =>
      match p with
      | [] => Ok (true, s)
      | _ =>
          let '(n, err, s) := sys_send s p in
          if (n <? 0) && (err =? EINTR) then pnm_send_all fuel s p
          else if n <=? 0 then Ok (false, s)
          else pnm_send_all fuel s (drop (Z.to_nat n) p)
      end
  end.

(** ** [pnm_recv_all]: [got] is the part of the buffer already stored. *)
Fixpoint pnm_recv_all (fuel : nat) (s : S) (got : bytes) (len : Z) : res (bool * bytes * S) :=
  match fuel with
  | O => Fail OutOfFuel
  | Datatypes.S fuel =>
      if len <=? 0 then Ok (true, got, s)
      else
        let '(n, err, d, s) := sys_recv s len in
        if (n <? 0) && (err =? EINTR) then pnm_recv_all fuel s got len
        else if n <=? 0 then Ok (false, got, s)
        else pnm_recv_all fuel s (got ++ d) (len - n)
  end.

(** ** [pnm_send_frame] *)
Definition pnm_send_frame (fuel : nat) (s : S) (d : bytes) : res (bool * S) :=
  let len := u32 (Z.of_nat (length d)) in
  let* (ok, s) := pnm_send_all fuel s (le_split 4 len) in
  if negb ok then Ok (false, s)
  else if 0 <? len then pnm_send_all fuel s (take (Z.to_nat len) d)
  else Ok (true, s).

(** [out->resize(len)]. *)
Definition resize (out : bytes) (len : Z) : bytes :=
  take (Z.to_nat len) out ++ replicate (Z.to_nat len - length out) Byte.x00.

(** What a buffer [b] holds after [recv] stored [got] at its start. *)
Definition overwrite (b got : bytes) : bytes := got ++ drop (length got) b.

(** ** [pnm_recv_frame]; [out] is the string it fills. *)
Definition pnm_recv_frame (fuel : nat) (s : S) (out : bytes) : res (bool * bytes * S) :=
  let* (ok, hdr, s) := pnm_recv_all fuel s [] 4 in
  if negb ok then Ok (false, out, s)
  else
    let len := le_combine hdr in
    let out := resize out len in
    if 0 <? len then
      let* (ok, got, s) := pnm_recv_all fuel s [] len in
      Ok (ok, overwrite out got, s)
    else Ok (true, out, s).
End ipc.

(** ** Compound messages *)

(** [append_frame(buf, s)]. *)
Definition append_frame (buf s : bytes) : bytes :=
  buf ++ le_split 4 (u32 (Z.of_nat (length s))) ++ s.

(** [parse_field(buf, buf_len, &pos, &out)]: [None] is [false]; [pos] is a
    [size_t]. *)
Definition parse_field (buf : bytes) (pos : Z) : option (Z * bytes) :=
  let buf_len := Z.of_nat (length buf) in
  if buf_len <? u64 (pos + 4) then None
  else
    let len := le_combine (take 4 (drop (Z.to_nat pos) buf)) in
    let pos := u64 (pos + 4) in
    if buf_len <? u64 (pos + len) then None
    else Some (u64 (pos + len), take (Z.to_nat len) (drop (Z.to_nat pos) buf)).

(** The wire image of one frame. *)
Definition frame (d : bytes) : bytes := le_split 4 (Z.of_nat (length d)) ++ d.

(** ** Lemmas *)
Section laws.
Context {S : Type} `{SocketLaws S}.

Lemma pnm_send_all_spec fuel s p :
  (length p + sk_intr s < fuel)%nat →
  ∃ ok s', pnm_send_all fuel s p = Ok (ok, s') ∧ sk_inbox s' = sk_inbox s ∧
    (sk_intr s' ≤ sk_intr s ∨ ok = false)%nat ∧
    if ok then sk_sent s' = sk_sent s ++ p
    else ∃ k, (k < length p)%nat ∧ sk_sent s' = sk_sent s ++ take k p.
Proof.
  revert s p. induction fuel as [|fuel IH]; intros s p Hf; [lia|]. simpl.
  destruct p as [|b p]; [exists true, s; rewrite app_nil_r; split_and!; auto|].
  destruct (sys_send s (b :: p)) as [[n err] s1] eqn:Hs.
  destruct ((n <? 0) && (err =? EINTR)) eqn:Hi.
  - apply andb_true_iff in Hi as [Hn He]. apply Z.ltb_lt in Hn. apply Z.eqb_eq in He. subst err.
    pose proof (send_intr _ _ _ _ Hs Hn) as Hlt. destruct (send_fails _ _ _ _ _ Hs) as [Hsent Hin]; [lia|].
    destruct (IH s1 (b :: p)) as (ok & s' & Heq & Hin' & Hm & Hok); [simpl in *; lia|].
    exists ok, s'. rewrite Heq, Hin', Hin, <-Hsent. split_and!; try done. destruct Hm; [left; lia|by right].
  - destruct (n <=? 0) eqn:Hn.
    + apply Z.leb_le in Hn. destruct (send_fails _ _ _ _ _ Hs Hn) as [Hsent Hin]. exists false, s1.
      split_and!; auto. exists 0%nat. simpl. rewrite app_nil_r. split; [lia|done].
    + apply Z.leb_gt in Hn. destruct (send_accepts _ _ _ _ _ Hs Hn) as (Hle & Hsent & Hin & Hm).
      destruct (IH s1 (drop (Z.to_nat n) (b :: p))) as (ok & s' & Heq & Hin' & Hm' & Hok).
      { rewrite length_drop. simpl in *. lia. }
      exists ok, s'. rewrite Heq, Hin', Hin. split_and!; [done|done|destruct Hm'; [left; lia|by right]|].
      destruct ok.
      * by rewrite Hok, Hsent, <-app_assoc, take_drop.
      * destruct Hok as (k & Hk & ->). rewrite length_drop in Hk. exists (Z.to_nat n + k)%nat.
        rewrite Hsent, <-app_assoc, take_take_drop. split; [lia|done].
Qed.

(** Every successful [recv] takes at least a byte from the inbox, so its length
    bounds the loop whatever [len] is. *)
Lemma pnm_recv_all_spec fuel s got len :
  (length (sk_inbox s) + sk_intr s + 1 < fuel)%nat →
  ∃ ok d s', pnm_recv_all fuel s got len = Ok (ok, got ++ d, s') ∧
    sk_inbox s = d ++ sk_inbox s' ∧ sk_sent s' = sk_sent s ∧ (sk_intr s' ≤ sk_intr s ∨ ok = false)%nat ∧
    if ok then length d = Z.to_nat len else (length d < Z.to_nat len)%nat.
Proof.
  revert s got len. induction fuel as [|fuel IH]; intros s got len Hf; [lia|]. simpl.
  destruct (len <=? 0) eqn:Hl.
  { apply Z.leb_le in Hl. exists true, [], s. rewrite app_nil_r. split_and!; auto. simpl. lia. }
  apply Z.leb_gt in Hl. destruct (sys_recv s len) as [[[n err] d] s1] eqn:Hs.
  destruct ((n <? 0) && (err =? EINTR)) eqn:Hi.
  - apply andb_true_iff in Hi as [Hn He]. apply Z.ltb_lt in Hn. apply Z.eqb_eq in He. subst err.
    pose proof (recv_intr _ _ _ _ _ Hs Hn) as Hlt. destruct (recv_fails _ _ _ _ _ _ Hs) as [Hsent Hin]; [lia|].
    destruct (IH s1 got len) as (ok & d' & s' & Heq & Hin' & Hs' & Hm & Hok); [rewrite Hin; lia|].
    exists ok, d', s'. rewrite Heq, <-Hin, Hs', Hsent. split_and!; try done. destruct Hm; [left; lia|by right].
  - destruct (n <=? 0) eqn:Hn.
    + apply Z.leb_le in Hn. destruct (recv_fails _ _ _ _ _ _ Hs Hn) as [Hsent Hin]. exists false, [], s1.
      rewrite app_nil_r. split_and!; auto. simpl. lia.
    + apply Z.leb_gt in Hn. destruct (recv_stores _ _ _ _ _ _ Hs Hn) as (Hle & Hld & Hin & Hsent & Hm).
      destruct (IH s1 (got ++ d) (len - n)) as (ok & d' & s' & Heq & Hin' & Hs' & Hm' & Hok).
      { rewrite Hin, length_app in Hf. lia. }
      exists ok, (d ++ d'), s'. rewrite Heq, Hin, Hin', Hs', !app_assoc, length_app.
      split_and!; [done..|destruct Hm'; [left; lia|by right]|]. destruct ok; lia.
Qed.

(** A connection that neither fails nor closes while bytes are in flight. *)
Definition send_healthy : Prop := ∀ s b n err s',
  sys_send s b = (n, err, s') → b ≠ [] → 0 < n ∨ (n < 0 ∧ err = EINTR).
Definition recv_healthy : Prop := ∀ s len n err d s',
  sys_recv s len = (n, err, d, s') → 0 < len → sk_inbox s ≠ [] → 0 < n ∨ (n < 0 ∧ err = EINTR).

Lemma pnm_send_all_healthy fuel s p ok s' :
  send_healthy → pnm_send_all fuel s p = Ok (ok, s') → ok = true.
Proof.
  intros Hh. revert s p. induction fuel as [|fuel IH]; intros s p Heq; [done|]. simpl in Heq.
  destruct p as [|b p]; [naive_solver|].
  destruct (sys_send s (b :: p)) as [[n err] s1] eqn:Hs.
  destruct (Hh _ _ _ _ _ Hs) as [Hn|[Hn ->]]; [done| |].
  - rewrite (proj2 (Z.ltb_ge _ _)), (proj2 (Z.leb_gt _ _)) in Heq by lia. simpl in Heq. eauto.
  - rewrite (proj2 (Z.ltb_lt _ _)) in Heq by lia. simpl in Heq. eauto.
Qed.

Lemma pnm_recv_all_healthy fuel s got len ok out s' :
  recv_healthy → (Z.to_nat len ≤ length (sk_inbox s))%nat →
  pnm_recv_all fuel s got len = Ok (ok, out, s') → ok = true.
Proof.
  intros Hh. revert s got len. induction fuel as [|fuel IH]; intros s got len Hlen Heq; [done|].
  simpl in Heq. destruct (len <=? 0) eqn:Hl; [naive_solver|]. apply Z.leb_gt in Hl.
  destruct (sys_recv s len) as [[[n err] d] s1] eqn:Hs.
  destruct (Hh _ _ _ _ _ _ Hs Hl) as [Hn|[Hn ->]].
  { intros E. rewrite E in Hlen. simpl in Hlen. lia. }
  - destruct (recv_stores _ _ _ _ _ _ Hs Hn) as (Hle & Hld & Hin & _).
    rewrite (proj2 (Z.ltb_ge _ _)), (proj2 (Z.leb_gt _ _)) in Heq by lia. simpl in Heq.
    apply IH in Heq; [done|]. rewrite Hin, length_app in Hlen. lia.
  - destruct (recv_fails _ _ _ _ _ _ Hs) as [_ Hin]; [lia|].
    rewrite (proj2 (Z.ltb_lt _ _)) in Heq by lia. simpl in Heq. apply IH in Heq; [done|]. by rewrite Hin.
Qed.

Lemma frame_length d : length (frame d) = (4 + length d)%nat.
Proof. unfold frame. by rewrite length_app, length_le_split. Qed.

(** What [pnm_send_frame] puts on the wire: a frame of the first [len mod 2^32]
    bytes. *)
Lemma pnm_send_frame_spec fuel s d :
  (4 + length d + sk_intr s < fuel)%nat →
  let d' := take (Z.to_nat (u32 (Z.of_nat (length d)))) d in
  ∃ ok s', pnm_send_frame fuel s d = Ok (ok, s') ∧ sk_inbox s' = sk_inbox s ∧
    if ok then sk_sent s' = sk_sent s ++ frame d'
    else ∃ k, (k < length (frame d'))%nat ∧ sk_sent s' = sk_sent s ++ take k (frame d').
Proof.
  intros Hf d'. unfold pnm_send_frame. set (len := u32 (Z.of_nat (length d))) in *.
  assert (Hlen := u32_range (Z.of_nat (length d))). fold len in Hlen.
  assert (Hle : len ≤ Z.of_nat (length d)) by (apply Z.mod_le; lia).
  assert (Hd' : Z.of_nat (length d') = len) by (unfold d'; rewrite length_take; lia).
  destruct (pnm_send_all_spec fuel s (le_split 4 len)) as (ok & s1 & -> & Hin & Hm & Hok).
  { rewrite length_le_split. lia. }
  cbn [res_bind]. destruct ok; cbn [negb].
  - assert (Hfr : frame d' = le_split 4 len ++ d') by (unfold frame; by rewrite Hd').
    destruct (0 <? len) eqn:Hz.
    + destruct Hm as [Hm|]; [|done].
      destruct (pnm_send_all_spec fuel s1 d') as (ok & s2 & Heq2 & Hin2 & _ & Hok2); [lia|].
      exists ok, s2. split_and!; [done|congruence|]. rewrite Hfr. rewrite Hok in Hok2. destruct ok.
      * by rewrite Hok2, <-app_assoc.
      * destruct Hok2 as (k & Hk & ->). exists (4 + k)%nat. split; [simpl; lia|].
        by rewrite <-app_assoc, (take_app_add' _ _ 4) by by rewrite length_le_split.
    + apply Z.ltb_ge in Hz. exists true, s1. split_and!; [done..|]. rewrite Hfr, Hok.
      destruct d'; [by rewrite app_nil_r|simpl in Hd'; lia].
  - exists false, s1. split_and!; [done..|]. destruct Hok as (k & Hk & ->). rewrite length_le_split in Hk.
    exists k. rewrite frame_length. split; [lia|]. f_equal.
    unfold frame. rewrite Hd', take_app_le; [done|]. rewrite length_le_split. lia.
Qed.

Lemma take_resize out d : length d = length out → overwrite out d = d.
Proof. intros Hl. unfold overwrite. rewrite drop_ge by lia. apply app_nil_r. Qed.

Lemma length_resize out len : 0 ≤ len → length (resize out len) = Z.to_nat len.
Proof. intros. unfold resize. rewrite length_app, length_take, length_replicate. lia. Qed.

(** [pnm_recv_frame] on a stream that starts with a frame. *)
Lemma pnm_recv_frame_spec fuel s out d rest :
  (length (sk_inbox s) + sk_intr s + 1 < fuel)%nat → Z.of_nat (length d) < 2 ^ 32 →
  sk_inbox s = frame d ++ rest →
  ∃ ok out' s', pnm_recv_frame fuel s out = Ok (ok, out', s') ∧ sk_sent s' = sk_sent s ∧
    (if ok then out' = d ∧ sk_inbox s' = rest else True) ∧ (recv_healthy → ok = true).
Proof.
  intros Hf Hd Hin. unfold pnm_recv_frame.
  destruct (pnm_recv_all_spec fuel s [] 4) as (ok & hdr & s1 & Heq & Hin1 & Hs1 & Hm & Hok); [done|].
  rewrite Heq. simpl. destruct ok; simpl.
  2:{ exists false, out, s1. split_and!; try done. intros Hh.
      apply (pnm_recv_all_healthy _ _ _ _ _ _ _ Hh) in Heq; [done|]. rewrite Hin, length_app, frame_length. lia. }
  assert (hdr = le_split 4 (Z.of_nat (length d)) ∧ sk_inbox s1 = d ++ rest) as [-> Hin1'].
  { unfold frame in Hin. rewrite Hin1, <-app_assoc in Hin. apply app_inj_1 in Hin; [done|].
    rewrite length_le_split. simpl in Hok. lia. }
  rewrite le_roundtrip by (simpl; lia). destruct Hm as [Hm|]; [|done].
  destruct (0 <? Z.of_nat (length d)) eqn:Hz.
  - destruct (pnm_recv_all_spec fuel s1 [] (Z.of_nat (length d))) as (ok2 & d2 & s2 & Heq2 & Hin2 & Hs2 & _ & Hok2).
    { rewrite Hin1, length_app in Hf. lia. }
    rewrite Heq2. simpl. eexists ok2, _, s2. split; [done|]. split; [congruence|]. split.
    + destruct ok2; [|done]. rewrite Hin1' in Hin2. rewrite Nat2Z.id in Hok2.
      apply app_inj_1 in Hin2 as [<- <-]; [|done]. split; [|done].
      apply take_resize. rewrite length_resize; lia.
    + intros Hh. apply (pnm_recv_all_healthy _ _ _ _ _ _ _ Hh) in Heq2; [done|].
      rewrite Hin1', length_app. lia.
  - apply Z.ltb_ge in Hz. assert (d = []) as -> by (apply length_zero_iff_nil; lia).
    exists true, (resize out 0), s1. by split_and!.
Qed.
End laws.

(** *** Compound messages *)
Lemma append_frame_frame buf s :
  Z.of_nat (length s) < 2 ^ 32 → append_frame buf s = buf ++ frame s.
Proof. intros Hl. unfold append_frame, frame. by rewrite u32_id by lia. Qed.

(** [parse_field] at a position where a frame starts. *)
Lemma parse_field_frame pre d post :
  Z.of_nat (length d) < 2 ^ 32 → Z.of_nat (length (pre ++ frame d ++ post)) < 2 ^ 64 →
  parse_field (pre ++ frame d ++ post) (Z.of_nat (length pre)) =
    Some (Z.of_nat (length (pre ++ frame d)), d).
Proof.
  intros Hd Hall. rewrite !length_app, frame_length in *. unfold parse_field.
  rewrite !length_app, frame_length. set (n := length pre) in *.
  rewrite (u64_id (Z.of_nat n + 4)) by lia.
  rewrite (proj2 (Z.ltb_ge _ _)) by lia.
  assert (Hlen : le_combine (take 4 (drop (Z.to_nat (Z.of_nat n)) (pre ++ frame d ++ post))) =
                 Z.of_nat (length d)).
  { rewrite Nat2Z.id, drop_app_exact by done. unfold frame. rewrite <-app_assoc, take_app_exact.
    - apply le_roundtrip. simpl. lia.
    - by rewrite length_le_split. }
  rewrite Hlen, u64_id by lia. rewrite (proj2 (Z.ltb_ge _ _)) by lia. f_equal. f_equal; [lia|].
  rewrite app_assoc. unfold frame. rewrite app_assoc, <-app_assoc.
  rewrite drop_app_exact by (rewrite length_app, length_le_split; lia).
  by rewrite take_app_exact by lia.
Qed.

(** A parsed field lies inside the buffer. *)
Lemma parse_field_bounds buf pos pos' d :
  0 ≤ pos ≤ Z.of_nat (length buf) → Z.of_nat (length buf) < 2 ^ 63 →
  parse_field buf pos = Some (pos', d) →
  pos + 4 + Z.of_nat (length d) = pos' ∧ pos' ≤ Z.of_nat (length buf) ∧
  d = take (length d) (drop (Z.to_nat (pos + 4)) buf).
Proof.
  intros Hpos Hbuf. unfold parse_field. rewrite (u64_id (pos + 4)) by lia.
  destruct (_ <? pos + 4) eqn:H1; [done|]. apply Z.ltb_ge in H1.
  set (len := le_combine _). assert (Hlen : 0 ≤ len < 2 ^ 32).
  { subst len. pose proof (le_combine_lt (take 4 (drop (Z.to_nat pos) buf))) as Hl.
    rewrite length_take, length_drop in Hl.
    replace (Z.of_nat (4 `min` (length buf - Z.to_nat pos))) with 4 in Hl by lia. done. }
  rewrite (u64_id (pos + 4 + len)) by lia.
  destruct (_ <? pos + 4 + len) eqn:H2; [done|]. apply Z.ltb_ge in H2. intros [= <- <-].
  rewrite length_take, length_drop. split_and!; [lia..|]. f_equal. lia.
Qed.

Lemma pnm_send_frame_healthy {S} `{SocketLaws S} fuel (s : S) d ok s' :
  send_healthy (S := S) → pnm_send_frame fuel s d = Ok (ok, s') → ok = true.
Proof.
  intros Hsh Heq. unfold pnm_send_frame in Heq. apply res_bind_ok in Heq as ([ok1 s1] & Heq1 & Heq).
  apply (pnm_send_all_healthy _ _ _ _ _ Hsh) in Heq1. subst ok1. simpl in Heq.
  destruct (0 <? _); [by apply (pnm_send_all_healthy _ _ _ _ _ Hsh) in Heq|naive_solver].
Qed.

(** Reception returns whatever the peer sends. *)
Lemma pnm_recv_frame_total {S} `{SocketLaws S} fuel (s : S) out :
  (length (sk_inbox s) + sk_intr s + 1 < fuel)%nat →
  ∃ ok out' s', pnm_recv_frame fuel s out = Ok (ok, out', s').
Proof.
  intros Hf. unfold pnm_recv_frame.
  destruct (pnm_recv_all_spec fuel s [] 4) as (ok & hdr & s1 & -> & Hin & _ & Hm & _); [done|].
  cbn [res_bind]. destruct ok; [|by do 3 eexists]. cbn [negb]. destruct (0 <? _); [|by do 3 eexists].
  destruct Hm as [Hm|]; [|done].
  destruct (pnm_recv_all_spec fuel s1 [] (le_combine ([] ++ hdr))) as (ok & d & s2 & -> & _).
  - rewrite Hin, length_app in Hf. lia.
  - by do 3 eexists.
Qed.

(** What every [send] (every [recv]) preserves, a whole frame preserves. *)
Section preserves.
Context {S : Type} `{Socket S} (P : S → Prop).

Lemma pnm_send_frame_pres fuel s d ok s' :
  (∀ s b n err s', P s → sys_send s b = (n, err, s') → P s') →
  P s → pnm_send_frame fuel s d = Ok (ok, s') → P s'.
Proof.
  intros Hp. assert (Hall : ∀ fuel s p ok s', P s → pnm_send_all fuel s p = Ok (ok, s') → P s').
  { clear -Hp. induction fuel as [|fuel IH]; intros s p ok s' Hs Heq; [done|]. simpl in Heq.
    destruct p as [|b p]; [naive_solver|]. destruct (sys_send s (b :: p)) as [[n err] s1] eqn:E.
    pose proof (Hp _ _ _ _ _ Hs E). destruct (_ && _); [eauto|]. destruct (n <=? 0); naive_solver. }
  intros Hs Heq. unfold pnm_send_frame in Heq. apply res_bind_ok in Heq as ([ok1 s1] & H1 & Heq).
  apply Hall in H1; [|done]. destruct (negb ok1); [naive_solver|]. destruct (0 <? _); [eauto|naive_solver].
Qed.

Lemma pnm_recv_frame_pres fuel s out ok out' s' :
  (∀ s len n err d s', P s → sys_recv s len = (n, err, d, s') → P s') →
  P s → pnm_recv_frame fuel s out = Ok (ok, out', s') → P s'.
Proof.
  intros Hp. assert (Hall : ∀ fuel s got len ok out s', P s → pnm_recv_all fuel s got len = Ok (ok, out, s') → P s').
  { clear -Hp. induction fuel as [|fuel IH]; intros s got len ok out s' Hs Heq; [done|]. simpl in Heq.
    destruct (len <=? 0); [naive_solver|]. destruct (sys_recv s len) as [[[n err] d] s1] eqn:E.
    pose proof (Hp _ _ _ _ _ _ Hs E). destruct (_ && _); [eauto|]. destruct (n <=? 0); naive_solver. }
  intros Hs Heq. unfold pnm_recv_frame in Heq. apply res_bind_ok in Heq as ([[ok1 hdr] s1] & H1 & Heq).
  apply Hall in H1; [|done]. destruct (negb ok1); [naive_solver|]. destruct (0 <? _); [|naive_solver].
  apply res_bind_ok in Heq as ([[ok2 got] s2] & H2 & Heq). apply Hall in H2; naive_solver.
Qed.
End preserves.

(** ** The properties *)

(** C24: on healthy connections a frame sent by [pnm_send_frame] is received by
    [pnm_recv_frame] as the same string, whatever the sizes of the partial
    writes and reads and however often signals interrupt them; the receiver
    consumes exactly the frame. *)
Theorem frame_roundtrip {S R} `{SocketLaws S, SocketLaws R} (s : S) (r : R) d out rest fuel fuel' :
  send_healthy (S := S) → recv_healthy (S := R) → Z.of_nat (length d) < 2 ^ 32 →
  (4 + length d + sk_intr s < fuel)%nat →
  ∃ s' w, pnm_send_frame fuel s d = Ok (true, s') ∧ sk_sent s' = sk_sent s ++ w ∧
    (sk_inbox r = w ++ rest → (length (sk_inbox r) + sk_intr r + 1 < fuel')%nat →
     ∃ r', pnm_recv_frame fuel' r out = Ok (true, d, r') ∧ sk_inbox r' = rest).
Proof.
  intros Hsh Hrh Hd Hf. destruct (pnm_send_frame_spec fuel s d Hf) as (ok & s' & Heq & _ & Hok).
  rewrite u32_id in Hok by lia. rewrite Nat2Z.id, take_ge in Hok by lia.
  pose proof (pnm_send_frame_healthy _ _ _ _ _ Hsh Heq) as ->.
  exists s', (frame d). split_and!; [done..|]. intros Hin Hf'.
  destruct (pnm_recv_frame_spec fuel' r out d rest Hf' Hd Hin) as (ok & out' & r' & Heq' & _ & Hok' & Hh).
  pose proof (Hh Hrh) as ->. destruct Hok' as [-> Hrest]. eauto.
Qed.

(** A frame of 4 GiB or more is cut: on a healthy connection
    [pnm_send_frame] reports success, but only the first [size mod 2^32] bytes
    of the data are on the wire. *)
Theorem oversized_frame_cut {S} `{SocketLaws S} (s : S) d fuel :
  send_healthy (S := S) → 2 ^ 32 ≤ Z.of_nat (length d) → (4 + length d + sk_intr s < fuel)%nat →
  ∃ s', pnm_send_frame fuel s d = Ok (true, s') ∧
    sk_sent s' = sk_sent s ++ frame (take (Z.to_nat (Z.of_nat (length d) mod 2 ^ 32)) d) ∧
    (length (sk_sent s') < length (sk_sent s) + length d)%nat.
Proof.
  intros Hsh Hd Hf. destruct (pnm_send_frame_spec fuel s d Hf) as (ok & s' & Heq & _ & Hok).
  pose proof (pnm_send_frame_healthy _ _ _ _ _ Hsh Heq) as ->.
  exists s'. unfold u32 in Hok. split_and!; [done..|].
  rewrite Hok, length_app, frame_length, length_take.
  pose proof (Z.mod_pos_bound (Z.of_nat (length d)) (2 ^ 32)).
  pose proof (Z.div_mod (Z.of_nat (length d)) (2 ^ 32)).
  pose proof (Z.div_le_lower_bound (Z.of_nat (length d)) (2 ^ 32) 1).
  lia.
Qed.

(** Whatever bytes arrive, [parse_field] returns a slice of the message
    and leaves the position inside it; a length prefix that runs past the end
    is rejected. *)
Theorem parse_field_in_bounds buf pos :
  0 ≤ pos ≤ Z.of_nat (length buf) → Z.of_nat (length buf) < 2 ^ 63 →
  match parse_field buf pos with
  | Some (pos', d) =>
      pos + 4 ≤ pos' ≤ Z.of_nat (length buf) ∧
      d = take (Z.to_nat (pos' - pos - 4)) (drop (Z.to_nat (pos + 4)) buf)
  | None =>
      Z.of_nat (length buf) < pos + 4 ∨
      Z.of_nat (length buf) < pos + 4 + le_combine (take 4 (drop (Z.to_nat pos) buf))
  end.
Proof.
  intros Hpos Hbuf. destruct (parse_field buf pos) as [[pos' d]|] eqn:E.
  - destruct (parse_field_bounds _ _ _ _ Hpos Hbuf E) as (H1 & H2 & H3). split; [lia|].
    rewrite H3 at 1. f_equal. lia.
  - unfold parse_field in E. rewrite (u64_id (pos + 4)) in E by lia.
    destruct (_ <? pos + 4) eqn:H1; [left; lia|]. right.
    pose proof (le_combine_lt (take 4 (drop (Z.to_nat pos) buf))) as Hl.
    rewrite length_take, length_drop in Hl.
    assert (2 ^ (8 * Z.of_nat (4 `min` (length buf - Z.to_nat pos))) ≤ 2 ^ 32) by (apply Z.pow_le_mono_r; lia).
    rewrite u64_id in E by lia. destruct (_ <? _ + le_combine _) eqn:H2; [lia|done].
Qed.

(** ** An in-memory socket that moves a few bytes per call and is interrupted a
    few times, for the witnesses. *)
Record mem := mkMem { m_sent : bytes; m_inbox : bytes; m_intr : nat; m_chunk : nat }.

Definition mem_moves (m : mem) (n : nat) : nat := (Datatypes.S (m_chunk m) `min` n)%nat.
#[local] Arguments mem_moves : simpl never.
Lemma mem_moves_le m n : (mem_moves m n ≤ n)%nat.
Proof. unfold mem_moves. lia. Qed.
Lemma mem_moves_pos m n : (0 < n → 0 < mem_moves m n)%nat.
Proof. unfold mem_moves. lia. Qed.

#[export] Instance mem_socket : Socket mem := {|
  sys_send m b :=
    match m_intr m with
    | Datatypes.S k => (-1, EINTR, mkMem (m_sent m) (m_inbox m) k (m_chunk m))
    | O => let n := mem_moves m (length b) in
           (Z.of_nat n, 0, mkMem (m_sent m ++ take n b) (m_inbox m) 0 (m_chunk m))
    end;
  sys_recv m len :=
    match m_intr m with
    | Datatypes.S k => (-1, EINTR, [], mkMem (m_sent m) (m_inbox m) k (m_chunk m))
    | O => let n := mem_moves m (Z.to_nat len `min` length (m_inbox m)) in
           (Z.of_nat n, 0, take n (m_inbox m), mkMem (m_sent m) (drop n (m_inbox m)) 0 (m_chunk m))
    end |}.

#[export] Instance mem_socket_laws : SocketLaws mem.
Proof.
  refine {| sk_sent := m_sent; sk_inbox := m_inbox; sk_intr := m_intr |};
    intros [st ib [|k] c]; cbn; intros; simplify_eq/=; try lia; try done.
  - pose proof (mem_moves_le (mkMem st ib 0 c) (length b)). rewrite Nat2Z.id. split_and!; solve [lia|done].
  - replace (mem_moves _ _) with 0%nat by lia. by rewrite app_nil_r.
  - pose proof (mem_moves_le (mkMem st ib 0 c) (Z.to_nat len `min` length ib)).
    rewrite length_take, take_drop. split_and!; solve [lia|done].
  - by replace (mem_moves _ _) with 0%nat by lia.
Defined.

Lemma mem_send_healthy : send_healthy (S := mem).
Proof.
  intros [st ib [|k] c] b n err s'; cbn; intros; simplify_eq/=; [left|by right].
  destruct b; [done|]. pose proof (mem_moves_pos (mkMem st ib 0 c) (length (b :: b0))). simpl in *. lia.
Qed.
Lemma mem_recv_healthy : recv_healthy (S := mem).
Proof.
  intros [st ib [|k] c] len n err d s'; cbn; intros; simplify_eq/=; [left|by right].
  destruct ib as [|x ib]; [done|].
  pose proof (mem_moves_pos (mkMem st (x :: ib) 0 c) (Z.to_nat len `min` length (x :: ib))). simpl in *. lia.
Qed.

Lemma frame_roundtrip_witness :
  ∃ s', pnm_send_frame 20 (mkMem [] [] 2 1) [Byte.x61; Byte.x62; Byte.x63] = Ok (true, s').
Proof.
  destruct (frame_roundtrip (mkMem [] [] 2 1) (mkMem [] [] 0 0) [Byte.x61; Byte.x62; Byte.x63] [] [] 20 20)
    as (s' & w & Hs & _); [exact mem_send_healthy|exact mem_recv_healthy|by vm_compute|simpl; lia|].
  by exists s'.
Defined.

Lemma oversized_frame_cut_witness :
  ∃ s', pnm_send_frame (Z.to_nat (2 ^ 33)) (mkMem [] [] 0 0) (replicate (Z.to_nat (2 ^ 32)) Byte.x00) = Ok (true, s')
    ∧ m_sent s' = frame [].
Proof.
  assert (Hl : Z.of_nat (length (replicate (Z.to_nat (2 ^ 32)) Byte.x00)) = 2 ^ 32)
    by (rewrite length_replicate; lia).
  destruct (oversized_frame_cut (mkMem [] [] 0 0) (replicate (Z.to_nat (2 ^ 32)) Byte.x00) (Z.to_nat (2 ^ 33)))
    as (s' & Hs & Hsent & _); [exact mem_send_healthy|lia| |].
  - change (sk_intr (mkMem [] [] 0 0)) with 0%nat. lia.
  - rewrite Hl in Hsent. exists s'. by split.
Defined.

Lemma parse_field_in_bounds_witness :
  parse_field (frame [Byte.x61]) 0 = Some (5, [Byte.x61]) ∧ (0 + 4 ≤ 5 ≤ 5).
Proof.
  pose proof (parse_field_in_bounds (frame [Byte.x61]) 0 ltac:(simpl; lia) ltac:(by vm_compute)) as H.
  split; [by vm_compute|]. change (parse_field (frame [Byte.x61]) 0) with (Some (5, [Byte.x61])) in H.
  apply H.
Defined.
