(* ===== verification/PnmService.v ===== *)
(** * The compaction service (rocksdb [tools/pnm_compaction_service.h])

    RocksDB hands each compaction to [Schedule], which connects to the
    compaction unit, sends the job, rings the device's doorbell, and later calls
    [Wait] for the result.  The operating system and the device registers are
    the interface [Os]; [OsLaws] states what its calls change. *)
From S2P Require Import Prelude CppString PnmIpc.
Local Open Scope Z_scope.

(** A failing call returns a negative value (or [None]). *)
Class Os (W : Type) := {
  os_open_pnm : W → Z * W;
  os_mmap : W → Z → bool * W;
  os_munmap : W → W;
  os_close : W → Z → W;
  os_socket : W → Z * W;
  os_connect : W → Z → Z * W;
  os_usleep : W → Z → W;
  os_stat : W → bytes → option Z;
  os_send : W → Z → bytes → Z * Z * W;
  os_recv : W → Z → Z → Z * Z * bytes * W;
  mmio_w : W → Z → nat → Z → W;
  mmio_r32 : W → Z → Z * W }.

(** A descriptor as a socket. *)
#[export] Instance fd_socket {W} `{Os W} : Socket (W * Z) := {|
  sys_send s b := let '(n, err, w) := os_send s.1 s.2 b in (n, err, (w, s.2));
  sys_recv s len := let '(n, err, d, w) := os_recv s.1 s.2 len in (n, err, d, (w, s.2)) |}.

(** Open descriptors, the register writes so far, and for every descriptor the
    bytes sent, those still to be received and the pending interruptions. *)
Class OsLaws (W : Type) `{Os W} := {
  os_fds : W → gset Z;
  os_regs : W → list (Z * nat * Z);
  os_sent : W → Z → bytes;
  os_inbox : W → Z → bytes;
  os_intr : W → Z → nat;
  os_open_law w fd w' : os_open_pnm w = (fd, w') → os_regs w' = os_regs w ∧
    ((fd < 0 ∧ os_fds w' = os_fds w) ∨ (0 ≤ fd < 2 ^ 31 ∧ fd ∉ os_fds w ∧ os_fds w' = {[fd]} ∪ os_fds w));
  os_mmap_law w fd b w' : os_mmap w fd = (b, w') → os_fds w' = os_fds w ∧ os_regs w' = os_regs w;
  os_munmap_law w : os_fds (os_munmap w) = os_fds w ∧ os_regs (os_munmap w) = os_regs w;
  os_close_law w fd : os_fds (os_close w fd) = os_fds w ∖ {[fd]} ∧ os_regs (os_close w fd) = os_regs w;
  os_socket_law w fd w' : os_socket w = (fd, w') → os_regs w' = os_regs w ∧
    ((fd < 0 ∧ os_fds w' = os_fds w) ∨
     (0 ≤ fd < 2 ^ 31 ∧ fd ∉ os_fds w ∧ os_fds w' = {[fd]} ∪ os_fds w ∧ os_sent w' fd = []));
  os_connect_law w fd r w' : os_connect w fd = (r, w') →
    os_fds w' = os_fds w ∧ os_regs w' = os_regs w ∧ os_sent w' fd = os_sent w fd;
  os_usleep_law w t : os_fds (os_usleep w t) = os_fds w ∧ os_regs (os_usleep w t) = os_regs w ∧
    ∀ fd, os_sent (os_usleep w t) fd = os_sent w fd;
  os_send_frame w fd b n err w' : os_send w fd b = (n, err, w') → os_fds w' = os_fds w ∧ os_regs w' = os_regs w;
  os_recv_frame w fd len n err d w' : os_recv w fd len = (n, err, d, w') →
    os_fds w' = os_fds w ∧ os_regs w' = os_regs w;
  mmio_w_law w off n v : os_fds (mmio_w w off n v) = os_fds w ∧ os_regs (mmio_w w off n v) = os_regs w ++ [(off, n, v)] ∧
    ∀ fd, os_sent (mmio_w w off n v) fd = os_sent w fd;
  os_send_laws w fd b n err w' : os_send w fd b = (n, err, w') →
    os_inbox w' fd = os_inbox w fd ∧
    (0 < n → n ≤ Z.of_nat (length b) ∧ os_sent w' fd = os_sent w fd ++ take (Z.to_nat n) b ∧
             (os_intr w' fd ≤ os_intr w fd)%nat) ∧
    (n ≤ 0 → os_sent w' fd = os_sent w fd) ∧
    (n < 0 → err = EINTR → (os_intr w' fd < os_intr w fd)%nat);
  os_recv_laws w fd len n err d w' : os_recv w fd len = (n, err, d, w') →
    os_sent w' fd = os_sent w fd ∧
    (0 < n → n ≤ len ∧ Z.of_nat (length d) = n ∧ os_inbox w fd = d ++ os_inbox w' fd ∧
             (os_intr w' fd ≤ os_intr w fd)%nat) ∧
    (n ≤ 0 → os_inbox w' fd = os_inbox w fd) ∧
    (n < 0 → err = EINTR → (os_intr w' fd < os_intr w fd)%nat) }.

#[export] Instance fd_socket_laws {W} `{OsLaws W} : SocketLaws (W * Z).
Proof.
  refine {| sk_sent s := os_sent s.1 s.2; sk_inbox s := os_inbox s.1 s.2; sk_intr s := os_intr s.1 s.2 |};
    intros [w fd]; simpl.
  all: first [intros b|intros len]; intros *; repeat case_match; intros; simplify_eq/=;
    match goal with
    | E : os_send _ _ _ = _ |- _ => destruct (os_send_laws _ _ _ _ _ _ E) as (? & ? & ? & ?)
    | E : os_recv _ _ _ = _ |- _ => destruct (os_recv_laws _ _ _ _ _ _ _ E) as (? & ? & ? & ?)
    end; naive_solver.
Defined.

(** ** The service *)
Inductive JobStatus := kSuccess | kFailure | kAborted | kUseLocal.
#[global] Instance JobStatus_eq_dec : EqDecision JobStatus.
Proof. solve_decision. Defined.

Record JobInfo := mkJobInfo { db_name : bytes; job_id : Z }.

(** [mmio_base]: the registers are mapped. *)
Record PNMCompactionService := mkService { mmio_fd : Z; mmio_base : bool }.

Definition kOffSrcBytes := 0x00.
Definition kOffDstBytes := 0x08.
Definition kOffCmd := 0x10.
Definition kOffStatus := 0x14.
Definition kCmdSubmit := 1.
Definition kCmdReset := 2.

Section service.
Context {W : Type} `{Os W}.
(** [CompactionServiceInput::Read]: the input files of a job, when it parses. *)
Context (read_input : bytes → option (list bytes)).

Definition new_PNMCompactionService (w : W) : PNMCompactionService * W :=
  let (fd, w) := os_open_pnm w in
  if fd <? 0 then (mkService fd false, w)
  else
    let (ok, w) := os_mmap w fd in
    if negb ok then (mkService (-1) false, os_close w fd) else (mkService fd true, w).

Definition delete_PNMCompactionService (sv : PNMCompactionService) (w : W) : W :=
  let w := if mmio_base sv then os_munmap w else w in
  if 0 <=? mmio_fd sv then os_close w (mmio_fd sv) else w.

(** [w64], [w32]: release stores to a register. *)
Definition w64 (w : W) (off v : Z) : W := mmio_w w off 8 v.
Definition w32 (w : W) (off v : Z) : W := mmio_w w off 4 v.

(** The retry loop of [connect_to_unit], [i] attempts left. *)
Fixpoint connect_loop (i : nat) (sock : Z) (w : W) : Z * W :=
  match i with
  | O => (-1, os_close w sock)
  | S i =>
      let (r, w) := os_connect w sock in
      if r =? 0 then (sock, w) else connect_loop i sock (os_usleep w 100000)
  end.
Definition connect_to_unit (w : W) : Z * W :=
  let (sock, w) := os_socket w in
  if sock <? 0 then (-1, w) else connect_loop 50 sock w.

(** The full name of an input file. *)
Definition full_name (db fname : bytes) : bytes :=
  match fname with
  | c :: _ => if Byte.eqb c Byte.x2f then fname else db ++ [Byte.x2f] ++ fname
  | [] => db ++ [Byte.x2f] ++ fname
  end.
(** The sum of the sizes of the input files that can be found. *)
Fixpoint sum_sizes (w : W) (db : bytes) (files : list bytes) (src_bytes : Z) : Z :=
  match files with
  | [] => src_bytes
  | f :: files =>
      match os_stat w (full_name db f) with
      | Some sz => sum_sizes w db files (u64 (src_bytes + u64 sz))
      | None => sum_sizes w db files src_bytes
      end
  end.
Definition job_src_bytes (w : W) (db input : bytes) : Z :=
  match read_input input with
  | Some files => sum_sizes w db files 0
  | None => 0
  end.

Definition job_message (db id input : bytes) : bytes :=
  append_frame (append_frame (append_frame [] db) id) input.

Definition doorbell (w : W) (src_bytes : Z) : W :=
  let w := w32 w kOffCmd kCmdReset in
  let w := w64 w kOffSrcBytes src_bytes in
  let w := w64 w kOffDstBytes src_bytes in
  w32 w kOffCmd kCmdSubmit.

(** The scheduled job id and the status; the id is empty unless it succeeds. *)
Definition Schedule (fuel : nat) (sv : PNMCompactionService) (info : JobInfo) (input : bytes) (w : W)
  : res (JobStatus * bytes * W) :=
  let rdb_job := u32 (Z.shiftr (job_id info) 32) in
  let job_id_str := to_string rdb_job in
  let msg := job_message (db_name info) job_id_str input in
  let (sock, w) := connect_to_unit w in
  if sock <? 0 then Ok (kUseLocal, [], w)
  else
    let* (ok, s) := pnm_send_frame fuel (w, sock) msg in
    let w := s.1 in
    if negb ok then Ok (kUseLocal, [], os_close w sock)
    else
      let w := if mmio_base sv then doorbell w (job_src_bytes w (db_name info) input) else w in
      Ok (kSuccess, job_id_str ++ [Byte.x3a] ++ to_string sock, w).

(** The status and [*result], when it is assigned. *)
Definition Wait (fuel : nat) (scheduled_job_id : bytes) (w : W) : res (JobStatus * option bytes * W) :=
  match find Byte.x3a scheduled_job_id with
  | None => Ok (kFailure, None, w)
  | Some colon =>
      let* sock := stoi (drop (S colon) scheduled_job_id) in
      let* (ok, resp, s) := pnm_recv_frame fuel (w, sock) [] in
      let w := os_close s.1 sock in
      if negb ok then Ok (kUseLocal, None, w)
      else
        match resp with
        | [] => Ok (kFailure, None, w)
        | status_byte :: rest => Ok (if b2z status_byte =? 0 then kSuccess else kFailure, Some rest, w)
        end
  end.
End service.

(** ** What the calls change *)
Section behaviour.
Context {W : Type} `{OsLaws W} (read_input : bytes → option (list bytes)).

Lemma connect_loop_spec i sock w :
  sock ∈ os_fds w →
  ∃ r w', connect_loop i sock w = (r, w') ∧ os_regs w' = os_regs w ∧
    ((r = -1 ∧ os_fds w' = os_fds w ∖ {[sock]}) ∨ (r = sock ∧ os_fds w' = os_fds w ∧ os_sent w' sock = os_sent w sock)).
Proof.
  revert w. induction i as [|i IH]; intros w Hin; simpl.
  - destruct (os_close_law w sock) as [Hf Hr]. eexists _, _. split; [done|]. auto.
  - destruct (os_connect w sock) as [r w1] eqn:E. destruct (os_connect_law _ _ _ _ E) as (Hf & Hr & Hs).
    destruct (r =? 0); [eexists _, _; split; [done|]; auto|].
    destruct (os_usleep_law w1 100000) as (Hf' & Hr' & Hs').
    destruct (IH (os_usleep w1 100000)) as (r' & w' & -> & Hr2 & Hcase); [by rewrite Hf', Hf|].
    eexists _, _. split; [done|]. rewrite Hf', Hf in Hcase. rewrite Hs', Hs in Hcase. split; [congruence|done].
Qed.

Lemma connect_to_unit_spec w :
  ∃ r w', connect_to_unit w = (r, w') ∧ os_regs w' = os_regs w ∧
    ((r = -1 ∧ os_fds w' = os_fds w) ∨
     (0 ≤ r < 2 ^ 31 ∧ r ∉ os_fds w ∧ os_fds w' = {[r]} ∪ os_fds w ∧ os_sent w' r = [])).
Proof.
  unfold connect_to_unit. destruct (os_socket w) as [sock w1] eqn:E.
  destruct (os_socket_law _ _ _ E) as [Hr [[Hn Hf]|(Hn & Hfresh & Hf & Hs)]].
  - rewrite (proj2 (Z.ltb_lt _ _)) by done. eexists _, _. split; [done|]. auto.
  - rewrite (proj2 (Z.ltb_ge _ _)) by lia.
    destruct (connect_loop_spec 50 sock w1) as (r & w' & -> & Hr' & Hcase); [rewrite Hf; set_solver|].
    eexists _, _. split; [done|]. split; [congruence|]. destruct Hcase as [[-> Hf']|(-> & Hf' & Hs')]; [left|right].
    + split; [done|]. rewrite Hf', Hf. set_solver.
    + split_and!; try lia; try done; congruence.
Qed.

Lemma doorbell_law w src :
  os_fds (doorbell w src) = os_fds w ∧
  os_regs (doorbell w src) = os_regs w ++ [(kOffCmd, 4%nat, kCmdReset); (kOffSrcBytes, 8%nat, src);
                                            (kOffDstBytes, 8%nat, src); (kOffCmd, 4%nat, kCmdSubmit)] ∧
  ∀ fd, os_sent (doorbell w src) fd = os_sent w fd.
Proof.
  unfold doorbell, w32, w64.
  destruct (mmio_w_law w kOffCmd 4 kCmdReset) as (F1 & R1 & S1). set (w1 := mmio_w w _ _ _) in *.
  destruct (mmio_w_law w1 kOffSrcBytes 8 src) as (F2 & R2 & S2). set (w2 := mmio_w w1 _ _ _) in *.
  destruct (mmio_w_law w2 kOffDstBytes 8 src) as (F3 & R3 & S3). set (w3 := mmio_w w2 _ _ _) in *.
  destruct (mmio_w_law w3 kOffCmd 4 kCmdSubmit) as (F4 & R4 & S4).
  split_and!; [congruence|by rewrite R4, R3, R2, R1, <-!app_assoc|]. intros fd. by rewrite S4, S3, S2, S1.
Qed.

(** Sending and receiving on a descriptor touch neither the table of
    descriptors nor the registers. *)
Lemma send_frame_keeps fuel w fd d ok s' :
  pnm_send_frame fuel (w, fd) d = Ok (ok, s') →
  s'.2 = fd ∧ os_fds s'.1 = os_fds w ∧ os_regs s'.1 = os_regs w.
Proof.
  apply (pnm_send_frame_pres (λ s : W * Z, s.2 = fd ∧ os_fds s.1 = os_fds w ∧ os_regs s.1 = os_regs w)); [|done].
  intros [w1 fd1] b n err s2 (E1 & E2 & E3) Hs. simpl in *. subst fd1.
  destruct (os_send w1 fd b) as [[n' err'] w2] eqn:E. simplify_eq/=.
  destruct (os_send_frame _ _ _ _ _ _ E). split_and!; congruence.
Qed.
Lemma recv_frame_keeps fuel w fd out ok out' s' :
  pnm_recv_frame fuel (w, fd) out = Ok (ok, out', s') →
  s'.2 = fd ∧ os_fds s'.1 = os_fds w ∧ os_regs s'.1 = os_regs w.
Proof.
  apply (pnm_recv_frame_pres (λ s : W * Z, s.2 = fd ∧ os_fds s.1 = os_fds w ∧ os_regs s.1 = os_regs w)); [|done].
  intros [w1 fd1] len n err d s2 (E1 & E2 & E3) Hs. simpl in *. subst fd1.
  destruct (os_recv w1 fd len) as [[[n' err'] d'] w2] eqn:E. simplify_eq/=.
  destruct (os_recv_frame _ _ _ _ _ _ _ E). split_and!; congruence.
Qed.
End behaviour.

(** The identifier [Schedule] returns, as [Wait] reads it. *)
Lemma scheduled_id_fd job fd :
  0 ≤ job < 2 ^ 64 → 0 ≤ fd < 2 ^ 31 →
  ∃ colon, find Byte.x3a (to_string job ++ [Byte.x3a] ++ to_string fd) = Some colon ∧
    stoi (drop (S colon) (to_string job ++ [Byte.x3a] ++ to_string fd)) = Ok fd.
Proof.
  intros Hj Hfd. exists (length (to_string job)). split.
  - apply find_digits, to_string_digits. lia.
  - rewrite (app_assoc _ [Byte.x3a]), drop_app_exact by (rewrite length_app; simpl; lia).
    by apply stoi_to_string.
Qed.

(** ** The properties *)

Lemma Schedule_spec {W} `{OsLaws W} read_input fuel sv info input (w : W) :
  let job := to_string (u32 (Z.shiftr (job_id info) 32)) in
  let msg := job_message (db_name info) job input in
  (∀ w' fd, 4 + length msg + os_intr w' fd < fuel)%nat → Z.of_nat (length msg) < 2 ^ 32 →
  ∃ st id w', Schedule read_input fuel sv info input w = Ok (st, id, w') ∧
    ((st = kUseLocal ∧ os_fds w' = os_fds w ∧ os_regs w' = os_regs w) ∨
     (∃ fd wm, let src := job_src_bytes read_input wm (db_name info) input in
        st = kSuccess ∧ id = job ++ [Byte.x3a] ++ to_string fd ∧
        0 ≤ fd < 2 ^ 31 ∧ fd ∉ os_fds w ∧ os_fds w' = {[fd]} ∪ os_fds w ∧ os_sent w' fd = frame msg ∧
        os_regs w' = os_regs w ++
          if mmio_base sv then [(kOffCmd, 4%nat, kCmdReset); (kOffSrcBytes, 8%nat, src);
                                (kOffDstBytes, 8%nat, src); (kOffCmd, 4%nat, kCmdSubmit)] else [])).
Proof.
  intros job msg Hfuel Hmsg. unfold Schedule. fold job. fold msg. clearbody msg job.
  destruct (connect_to_unit_spec w) as (sock & w1 & -> & Hr1 & [[-> Hf1]|(Hs & Hfresh & Hf1 & Hsent1)]).
  { exists kUseLocal, [], w1. split; [done|]. auto. }
  rewrite (proj2 (Z.ltb_ge _ _)) by lia.
  destruct (pnm_send_frame_spec fuel (w1, sock) msg) as (ok & s2 & Heq & _ & Hok); [exact (Hfuel w1 sock)|].
  destruct (send_frame_keeps _ _ _ _ _ _ Heq) as (Hfd2 & Hf2 & Hr2). rewrite Heq. cbn [res_bind].
  destruct ok; cbn [negb].
  - rewrite u32_id, Nat2Z.id, take_ge in Hok by lia. destruct s2 as [w2 fd2]. simpl in *. subst fd2.
    rewrite Hsent1 in Hok. eexists _, _, _. split; [done|]. right.
    exists sock, w2. destruct (mmio_base sv).
    + destruct (doorbell_law w2 (job_src_bytes read_input w2 (db_name info) input)) as (F & R & Se).
      split_and!; try lia; try done; [congruence|by rewrite Se|]. rewrite R. congruence.
    + split_and!; try lia; try done; [congruence|]. rewrite app_nil_r. congruence.
  - destruct (os_close_law s2.1 sock) as [Hfc Hrc]. eexists _, _, _. split; [done|]. left.
    split_and!; [done| |congruence]. rewrite Hfc, Hf2, Hf1. set_solver.
Qed.

(** C5: [Schedule] either falls back to local compaction, with every descriptor
    it opened closed again and no register written; or it succeeds with exactly
    one more descriptor open, named in the job id, over which exactly the job
    message was sent, and afterwards rings the doorbell: reset, the total size of
    the input files (twice), submit, in that order, if the registers are mapped. *)
Theorem schedule_outcomes {W} `{OsLaws W} read_input fuel sv info input (w : W) :
  let job := to_string (u32 (Z.shiftr (job_id info) 32)) in
  let msg := job_message (db_name info) job input in
  (∀ w' fd, 4 + length msg + os_intr w' fd < fuel)%nat → Z.of_nat (length msg) < 2 ^ 32 →
  ∃ st id w', Schedule read_input fuel sv info input w = Ok (st, id, w') ∧
    ((st = kUseLocal ∧ os_fds w' = os_fds w ∧ os_regs w' = os_regs w) ∨
     (∃ fd wm, let src := job_src_bytes read_input wm (db_name info) input in
        st = kSuccess ∧ id = job ++ [Byte.x3a] ++ to_string fd ∧
        0 ≤ fd < 2 ^ 31 ∧ fd ∉ os_fds w ∧ os_fds w' = {[fd]} ∪ os_fds w ∧ os_sent w' fd = frame msg ∧
        os_regs w' = os_regs w ++
          if mmio_base sv then [(kOffCmd, 4%nat, kCmdReset); (kOffSrcBytes, 8%nat, src);
                                (kOffDstBytes, 8%nat, src); (kOffCmd, 4%nat, kCmdSubmit)] else [])).
Proof. apply Schedule_spec. Qed.

Lemma Wait_spec {W} `{OsLaws W} fuel job fd (w : W) :
  0 ≤ job < 2 ^ 64 → 0 ≤ fd < 2 ^ 31 →
  (length (os_inbox w fd) + os_intr w fd + 1 < fuel)%nat →
  ∃ st r w', Wait fuel (to_string job ++ [Byte.x3a] ++ to_string fd) w = Ok (st, r, w') ∧
    os_fds w' = os_fds w ∖ {[fd]} ∧ os_regs w' = os_regs w ∧
    ∀ b d rest, os_inbox w fd = frame (b :: d) ++ rest → Z.of_nat (length (b :: d)) < 2 ^ 32 →
      recv_healthy (S := W * Z) →
      r = Some d ∧ st = if b2z b =? 0 then kSuccess else kFailure.
Proof.
  intros Hj Hfd Hfuel. destruct (scheduled_id_fd job fd Hj Hfd) as (colon & Hc & Hst). unfold Wait. rewrite Hc, Hst.
  cbn [res_bind]. destruct (pnm_recv_frame_total fuel (w, fd) []) as (ok & resp & s' & Heq); [done|]. rewrite Heq.
  cbn [res_bind]. destruct (recv_frame_keeps _ _ _ _ _ _ _ Heq) as (_ & Hf & Hr).
  destruct (os_close_law s'.1 fd) as [Hfc Hrc].
  assert (Hgood : ∀ b d rest, os_inbox w fd = frame (b :: d) ++ rest → Z.of_nat (length (b :: d)) < 2 ^ 32 →
      recv_healthy (S := W * Z) → ok = true ∧ resp = b :: d).
  { intros b d rest Hin Hl Hh. destruct (pnm_recv_frame_spec fuel (w, fd) [] (b :: d) rest) as (ok' & o' & s2 & Heq2 & _ & Hok & Hok2);
      [done..|]. rewrite Heq in Heq2. simplify_eq. rewrite Hok2 in Hok by done. split; [auto|tauto]. }
  destruct ok; cbn [negb].
  - destruct resp as [|b resp]; eexists _, _, _; (split; [done|]); (split; [congruence|]); (split; [congruence|]);
      intros b' d rest Hin Hl Hh; destruct (Hgood b' d rest Hin Hl Hh) as [_ Eq]; by simplify_eq.
  - eexists _, _, _. split; [done|]. split; [congruence|]. split; [congruence|].
    intros b d rest Hin Hl Hh. by destruct (Hgood b d rest Hin Hl Hh).
Qed.

(** C9: [Wait] on an identifier that [Schedule] made never throws, reads from
    the descriptor the job was sent on and closes it; on a healthy connection
    that delivers the worker's response frame it reports success exactly when
    the status byte is 0 and hands over the rest of the response. *)
Theorem wait_returns_result {W} `{OsLaws W} fuel job fd (w : W) :
  0 ≤ job < 2 ^ 64 → 0 ≤ fd < 2 ^ 31 →
  (length (os_inbox w fd) + os_intr w fd + 1 < fuel)%nat →
  ∃ st r w', Wait fuel (to_string job ++ [Byte.x3a] ++ to_string fd) w = Ok (st, r, w') ∧
    os_fds w' = os_fds w ∖ {[fd]} ∧ os_regs w' = os_regs w ∧
    ∀ b d rest, os_inbox w fd = frame (b :: d) ++ rest → Z.of_nat (length (b :: d)) < 2 ^ 32 →
      recv_healthy (S := W * Z) →
      r = Some d ∧ st = if b2z b =? 0 then kSuccess else kFailure.
Proof. apply Wait_spec. Qed.

(** ** A small operating system, for the witnesses: descriptors are the smallest
    free number below 1024, connections succeed, transfers are complete. *)
Record os0 := mkOs0 {
  o_fds : gset Z; o_regs : list (Z * nat * Z); o_sent : gmap Z bytes; o_inbox : gmap Z bytes; o_status : Z }.

Definition free_fd (fds : gset Z) : Z :=
  match list_find (λ x, x ∉ fds) (seqZ 0 1024) with Some (_, fd) => fd | None => -1 end.
Definition add_fd (w : os0) : Z * os0 :=
  let fd := free_fd (o_fds w) in
  if fd <? 0 then (fd, w)
  else (fd, mkOs0 ({[fd]} ∪ o_fds w) (o_regs w) (delete fd (o_sent w)) (o_inbox w) (o_status w)).
Definition bytes_of (m : gmap Z bytes) (fd : Z) : bytes := default [] (m !! fd).

#[export] Instance os0_os : Os os0 := {|
  os_open_pnm := add_fd;
  os_mmap w fd := (true, w);
  os_munmap w := w;
  os_close w fd := mkOs0 (o_fds w ∖ {[fd]}) (o_regs w) (o_sent w) (o_inbox w) (o_status w);
  os_socket := add_fd;
  os_connect w fd := (0, w);
  os_usleep w t := w;
  os_stat w f := Some (Z.of_nat (length f));
  os_send w fd b := (Z.of_nat (length b), 0,
    mkOs0 (o_fds w) (o_regs w) (<[fd := bytes_of (o_sent w) fd ++ b]> (o_sent w)) (o_inbox w) (o_status w));
  os_recv w fd len :=
    let d := take (Z.to_nat len) (bytes_of (o_inbox w) fd) in
    (Z.of_nat (length d), 0, d,
     mkOs0 (o_fds w) (o_regs w) (o_sent w) (<[fd := drop (Z.to_nat len) (bytes_of (o_inbox w) fd)]> (o_inbox w)) (o_status w));
  mmio_w w off n v := mkOs0 (o_fds w) (o_regs w ++ [(off, n, v)]) (o_sent w) (o_inbox w) (o_status w);
  mmio_r32 w off := (o_status w, w) |}.

Lemma free_fd_spec fds : free_fd fds < 0 ∨ (0 ≤ free_fd fds < 2 ^ 31 ∧ free_fd fds ∉ fds).
Proof.
  unfold free_fd. destruct (list_find _ _) as [[i fd]|] eqn:E; [right|left; lia].
  apply list_find_Some in E as (Hl & Hf & _). split; [|done].
  apply list_elem_of_lookup_2, elem_of_seqZ in Hl. lia.
Qed.
Lemma add_fd_spec w fd w' : add_fd w = (fd, w') → o_regs w' = o_regs w ∧
  ((fd < 0 ∧ o_fds w' = o_fds w) ∨
   (0 ≤ fd < 2 ^ 31 ∧ fd ∉ o_fds w ∧ o_fds w' = {[fd]} ∪ o_fds w ∧ bytes_of (o_sent w') fd = [])).
Proof.
  unfold add_fd. pose proof (free_fd_spec (o_fds w)) as Hf. destruct (Z.ltb_spec (free_fd (o_fds w)) 0); intros [= <- <-].
  - auto.
  - split; [done|]. right. destruct Hf as [|[? ?]]; [lia|]. split_and!; try done; try lia.
    unfold bytes_of. simpl. by rewrite lookup_delete_eq.
Qed.

#[export] Instance os0_laws : OsLaws os0.
Proof.
  refine {| os_fds := o_fds; os_regs := o_regs; os_sent w := bytes_of (o_sent w);
            os_inbox w := bytes_of (o_inbox w); os_intr _ _ := 0%nat |}; cbn; try done.
  - intros w fd w' E. destruct (add_fd_spec _ _ _ E) as [? [?|?]]; naive_solver.
  - intros; by simplify_eq.
  - intros w fd w' E. apply (add_fd_spec _ _ _ E).
  - intros; by simplify_eq.
  - intros; by simplify_eq.
  - intros; by simplify_eq.
  - intros w fd b n err w' [= <- <- <-]. cbn. unfold bytes_of. rewrite lookup_insert_eq. simpl. split_and!; try done.
    + intros _. split_and!; [lia| |lia]. by rewrite Nat2Z.id, take_ge by lia.
    + intros Hn. destruct b; [by rewrite app_nil_r|simpl in Hn; lia].
  - intros w fd len n err d w' [= <- <- <- <-]. cbn. unfold bytes_of. rewrite lookup_insert_eq. simpl. split_and!; try done.
    + intros Hn. rewrite length_take in *. split_and!; [lia|done|by rewrite take_drop|lia].
    + intros Hn. rewrite length_take in Hn. destruct (decide (Z.to_nat len = 0%nat)) as [E|E]; [by rewrite E|].
      destruct (default [] (o_inbox w !! fd)) eqn:Ed; [by rewrite drop_nil|simpl in Hn; lia].
Defined.

Definition os_init : os0 := mkOs0 {[0; 1; 2]} [] ∅ {[3 := frame [Byte.x00; Byte.x41]]} 0.
Definition info0 : JobInfo := mkJobInfo (str "/db") (7 * 2 ^ 32 + 1).

Lemma schedule_outcomes_witness :
  ∃ st id w', Schedule (λ _, Some []) 100 (mkService 9 true) info0 (str "in") os_init = Ok (st, id, w').
Proof.
  destruct (schedule_outcomes (λ _, Some []) 100 (mkService 9 true) info0 (str "in") os_init)
    as (st & id & w' & Hs & _); [intros w' fd; change (os_intr w' fd) with 0%nat; vm_compute; lia|by vm_compute|].
  by exists st, id, w'.
Defined.

Lemma wait_returns_result_witness :
  ∃ w', Wait 100 (to_string 7 ++ [Byte.x3a] ++ to_string 3) os_init = Ok (kSuccess, Some [Byte.x41], w').
Proof.
  destruct (wait_returns_result 100 7 3 os_init) as (st & r & w' & Hw & _ & _ & Hres); [lia|lia|by vm_compute; lia|].
  destruct (Hres Byte.x00 [Byte.x41] []) as [-> ->]; [by vm_compute|by vm_compute| |by exists w'].
  intros [w fd] len n err d s'. cbn. intros [= <- <- <- <-] Hl Hne. left. rewrite length_take.
  unfold bytes_of in *. destruct (default [] (o_inbox w !! fd)); [done|]. simpl. lia.
Defined.
