(* ===== verification/PnmUnit.v ===== *)
(** * The compaction worker (rocksdb [tools/pnm_unit_main.cc])

    [main] accepts connections and starts a thread per connection; each thread
    runs [handle_job]: receive the job, run it on the secondary database under a
    mutex, wait for the device, respond.  [handle_job] is the whole handler run by
    one thread; [pool_step] interleaves the threads at the granularity of its
    calls.  RocksDB's entry points and the remaining system calls are interfaces. *)
From S2P Require Import Prelude CppString PnmIpc PnmService.
Local Open Scope Z_scope.

(** The system calls of the worker beyond those of the service. *)
Class UnitOs (W : Type) := {
  os_setaffinity : W → Z → bool * W;
  os_unlink : W → W;
  os_bind : W → Z → Z * W;
  os_listen : W → Z → Z → Z * W;
  os_accept : W → Z → Z * Z * W;
  os_yield : W → W;
  os_mkdir : W → bytes → W }.

(** RocksDB as the worker calls it.  [None] and [false] stand for a status that
    is not [ok()]. *)
Class RocksDb (W : Type) := {
  Db : Type; Opts : Type; Input : Type; Result : Type;
  LoadLatestOptions : W → bytes → option Opts * W;
  default_options : Opts;
  set_max_open_files : Opts → Z → Opts;
  OpenAsSecondary : W → Opts → bytes → bytes → option Db * W;
  OpenAndCompact : W → bytes → bytes → bytes → option bytes * W;
  TryCatchUpWithPrimary : W → Db → bool * W;
  ReadInput : bytes → option Input;
  CompactWithoutInstallation : W → Db → Input → bool * bool * Result * W;
  WriteResult : Result → option bytes }.

Definition kPNMOffStatus := 0x14.
Definition kPNMStatusDone := Z.shiftl 1 1.
Definition kPNMStatusErr := Z.shiftl 1 2.
Definition kSecondaryPath : bytes := str "/tmp/pnm_secondary".

(** What the work on a job ends in: a failure, the output of the fallback path,
    or the output of the secondary database. *)
Inductive outcome := Failed | Fallback (output : bytes) | Compacted (out_str : bytes).
Definition response (o : outcome) : bytes :=
  match o with Failed => [Byte.x01] | Fallback out | Compacted out => Byte.x00 :: out end.

Definition parse_job (msg : bytes) : option (bytes * bytes * bytes) :=
  match parse_field msg 0 with
  | None => None
  | Some (pos, db_name) =>
      match parse_field msg pos with
      | None => None
      | Some (pos, job_id_str) =>
          match parse_field msg pos with
          | None => None
          | Some (_, input) => Some (db_name, job_id_str, input)
          end
      end
  end.

Section unit.
Context {W : Type} `{Os W} `{UnitOs W} `{RocksDb W}.

(** The result of [ensure_secondary] and the secondary database after it. *)
Definition ensure_secondary (g_secondary_db : option Db) (db_path : bytes) (w : W) : bool * option Db * W :=
  match g_secondary_db with
  | Some db => (true, Some db, w)
  | None =>
      let w := os_mkdir w kSecondaryPath in
      let (o, w) := LoadLatestOptions w db_path in
      let db_opts := default default_options o in
      let db_opts := set_max_open_files db_opts (-1) in
      let (db, w) := OpenAsSecondary w db_opts db_path kSecondaryPath in
      match db with
      | None => (false, None, w)
      | Some db => (true, Some db, w)
      end
  end.

(** The part of [handle_job] under the mutex up to the response. *)
Definition job_work (g_secondary_db : option Db) (db_name job_id_str input : bytes) (w : W)
  : outcome * option Db * W :=
  let '(ok, g, w) := ensure_secondary g_secondary_db db_name w in
  match (if ok : bool then g else None) with
  | None =>
      let output_dir := kSecondaryPath ++ str "/" ++ job_id_str in
      let w := os_mkdir w output_dir in
      let (output, w) := OpenAndCompact w db_name output_dir input in
      (match output with Some out => Fallback out | None => Failed end, g, w)
  | Some db =>
      let (_, w) := TryCatchUpWithPrimary w db in
      match ReadInput input with
      | None => (Failed, g, w)
      | Some csi =>
          let '(s_ok, status_ok, result, w) := CompactWithoutInstallation w db csi in
          if negb s_ok || negb status_ok then (Failed, g, w)
          else
            match WriteResult result with
            | None => (Failed, g, w)
            | Some out_str => (Compacted out_str, g, w)
            end
      end
  end.

(** One round of the polling loop: has the device finished? *)
Definition poll_once (w : W) : bool * W :=
  let (st, w) := mmio_r32 w kPNMOffStatus in
  if negb (Z.land st kPNMStatusDone =? 0) || negb (Z.land st kPNMStatusErr =? 0) then (true, w)
  else (false, os_yield w).
Fixpoint poll (fuel : nat) (w : W) : res W :=
  match fuel with
  | O => Fail OutOfFuel
  | S fuel => let (done, w) := poll_once w in if done then Ok w else poll fuel w
  end.

(** [handle_job(conn_fd)]: the secondary database and the world after it. *)
Definition handle_job (fuel : nat) (g_mmio_base : bool) (g_secondary_db : option Db) (conn_fd : Z) (w : W)
  : res (option Db * W) :=
  let* (ok, msg, s) := pnm_recv_frame fuel (w, conn_fd) [] in
  if negb ok then Ok (g_secondary_db, s.1)
  else
    match parse_job msg with
    | None => let* (_, s) := pnm_send_frame fuel s [Byte.x01] in Ok (g_secondary_db, s.1)
    | Some (db_name, job_id_str, input) =>
        let '(o, g, w) := job_work g_secondary_db db_name job_id_str input s.1 in
        let* w := match o with Compacted _ => if g_mmio_base then poll fuel w else Ok w | _ => Ok w end in
        let* (_, s) := pnm_send_frame fuel (w, conn_fd) (response o) in
        Ok (g, s.1)
    end.

(** [main] up to the accept loop: an exit code, or the listening socket and
    whether the registers are mapped. *)
Definition unit_setup (w : W) : (Z + Z * bool) * W :=
  let (_, w) := os_setaffinity w 1 in
  let (mmio_fd, w) := os_open_pnm w in
  let (g_mmio_base, w) :=
    if 0 <=? mmio_fd then
      let (ok, w) := os_mmap w mmio_fd in (ok, os_close w mmio_fd)
    else (false, w) in
  let w := os_unlink w in
  let (srv, w) := os_socket w in
  if srv <? 0 then (inl 1, w)
  else
    let (r, w) := os_bind w srv in
    if negb (r =? 0) then (inl 1, w)
    else
      let (r, w) := os_listen w srv 8 in
      if negb (r =? 0) then (inl 1, w) else (inr (srv, g_mmio_base), w).

(** ** The threads *)
(** Where the thread of a connection is: before the receive, waiting for the
    mutex, about to work, polling, about to respond (holding the mutex or not),
    about to close. *)
Inductive phase :=
| PRecv
| PWait (db_name job_id_str input : bytes)
| PWork (db_name job_id_str input : bytes)
| PPoll (out_str : bytes)
| PSend (locked : bool) (resp : bytes)
| PClose.

(** The worker: the holder of [g_compact_mutex], the threads by connection. *)
Record pool := mkPool {
  p_mmio : bool; p_lock : option Z; p_threads : gmap Z phase; p_db : option Db; p_w : W }.
Definition pool0 (mmio : bool) (w : W) : pool := mkPool mmio None ∅ None w.

Definition set_phase (s : pool) (c : Z) (p : phase) (w : W) : pool :=
  mkPool (p_mmio s) (p_lock s) (<[c := p]> (p_threads s)) (p_db s) w.

Inductive thread_step (s : pool) (c : Z) : pool → Prop :=
| step_recv_fails fuel out w :
    p_threads s !! c = Some PRecv → pnm_recv_frame fuel (p_w s, c) [] = Ok (false, out, (w, c)) →
    thread_step s c (set_phase s c PClose w)
| step_recv_job fuel msg db id input w :
    p_threads s !! c = Some PRecv → pnm_recv_frame fuel (p_w s, c) [] = Ok (true, msg, (w, c)) →
    parse_job msg = Some (db, id, input) →
    thread_step s c (set_phase s c (PWait db id input) w)
| step_recv_malformed fuel msg w :
    p_threads s !! c = Some PRecv → pnm_recv_frame fuel (p_w s, c) [] = Ok (true, msg, (w, c)) →
    parse_job msg = None →
    thread_step s c (set_phase s c (PSend false [Byte.x01]) w)
| step_lock db id input :
    p_threads s !! c = Some (PWait db id input) → p_lock s = None →
    thread_step s c (mkPool (p_mmio s) (Some c) (<[c := PWork db id input]> (p_threads s)) (p_db s) (p_w s))
| step_work db id input o g w :
    p_threads s !! c = Some (PWork db id input) → job_work (p_db s) db id input (p_w s) = (o, g, w) →
    thread_step s c
      (mkPool (p_mmio s) (p_lock s)
         (<[c := match o with
                 | Compacted out => if p_mmio s then PPoll out else PSend true (response o)
                 | _ => PSend true (response o)
                 end]> (p_threads s)) g w)
| step_poll out done w :
    p_threads s !! c = Some (PPoll out) → poll_once (p_w s) = (done, w) →
    thread_step s c (set_phase s c (if done then PSend true (response (Compacted out)) else PPoll out) w)
| step_send fuel locked resp ok w :
    p_threads s !! c = Some (PSend locked resp) → pnm_send_frame fuel (p_w s, c) resp = Ok (ok, (w, c)) →
    thread_step s c
      (mkPool (p_mmio s) (if locked then None else p_lock s) (<[c := PClose]> (p_threads s)) (p_db s) w)
| step_close :
    p_threads s !! c = Some PClose →
    thread_step s c (mkPool (p_mmio s) (p_lock s) (delete c (p_threads s)) (p_db s) (os_close (p_w s) c)).

(** The accept loop beside the threads.  Any other error of [accept] ends the
    loop and with it the process. *)
Inductive pool_step (srv : Z) (s : pool) : pool → Prop :=
| step_accept conn err w :
    os_accept (p_w s) srv = (conn, err, w) → 0 ≤ conn →
    pool_step srv s (set_phase s conn PRecv w)
| step_accept_again conn w :
    os_accept (p_w s) srv = (conn, EINTR, w) → conn < 0 →
    pool_step srv s (mkPool (p_mmio s) (p_lock s) (p_threads s) (p_db s) w)
| step_thread c s' : thread_step s c s' → pool_step srv s s'.
End unit.

(** What the calls keep.  RocksDB opens files of its own and leaves the sockets
    alone. *)
Definition keeps {W} `{OsLaws W} (w w' : W) : Prop :=
  ∀ fd, fd ∈ os_fds w → fd ∈ os_fds w' ∧ os_sent w' fd = os_sent w fd.

Class UnitLaws (W : Type) `{OsLaws W} `{!UnitOs W} `{!RocksDb W} := {
  setaffinity_keeps w n b w' : os_setaffinity w n = (b, w') → os_fds w' = os_fds w;
  unlink_keeps w : os_fds (os_unlink w) = os_fds w;
  bind_keeps w fd r w' : os_bind w fd = (r, w') → os_fds w' = os_fds w;
  listen_keeps w fd n r w' : os_listen w fd n = (r, w') → os_fds w' = os_fds w;
  accept_law w srv fd err w' : os_accept w srv = (fd, err, w') →
    (0 ≤ fd → fd ∉ os_fds w ∧ os_fds w' = {[fd]} ∪ os_fds w) ∧ (fd < 0 → os_fds w' = os_fds w);
  yield_keeps w : keeps w (os_yield w);
  read_keeps w off v w' : mmio_r32 w off = (v, w') → keeps w w';
  mkdir_keeps w d : keeps w (os_mkdir w d);
  load_keeps w d o w' : LoadLatestOptions w d = (o, w') → keeps w w';
  open_keeps w o d d2 r w' : OpenAsSecondary w o d d2 = (r, w') → keeps w w';
  open_compact_keeps w d d2 i r w' : OpenAndCompact w d d2 i = (r, w') → keeps w w';
  catchup_keeps w db r w' : TryCatchUpWithPrimary w db = (r, w') → keeps w w';
  compact_keeps w db i a b r w' : CompactWithoutInstallation w db i = (a, b, r, w') → keeps w w' }.

(** A job message parses back into its fields. *)
Lemma parse_job_message db id input :
  Z.of_nat (length (job_message db id input)) < 2 ^ 32 →
  parse_job (job_message db id input) = Some (db, id, input).
Proof.
  intros Hl. assert (Hf : job_message db id input = frame db ++ frame id ++ frame input).
  { unfold job_message in *. unfold append_frame in Hl. rewrite !length_app, !length_le_split in Hl. simpl in Hl.
    rewrite !append_frame_frame by lia. by rewrite app_nil_l, <-app_assoc. }
  rewrite Hf in *. rewrite !length_app, !frame_length in Hl. unfold parse_job.
  pose proof (parse_field_frame [] db (frame id ++ frame input)) as E1.
  rewrite !app_nil_l in E1. change (Z.of_nat (length [])) with 0 in E1.
  rewrite E1 by (rewrite ?length_app, ?frame_length; lia).
  rewrite (parse_field_frame (frame db) id (frame input)) by (rewrite ?length_app, ?frame_length; lia).
  pose proof (parse_field_frame (frame db ++ frame id) input []) as E3. rewrite app_nil_r, <-!app_assoc in E3.
  rewrite E3 by (rewrite ?length_app, ?frame_length; lia). done.
Qed.

Section worker.
Context {W : Type} `{UnitLaws W}.
Implicit Types (w : W) (g : option Db).

Lemma keeps_refl w : keeps w w.
Proof. intros fd. auto. Qed.
Lemma keeps_trans w1 w2 w3 : keeps w1 w2 → keeps w2 w3 → keeps w1 w3.
Proof. intros K1 K2 fd Hin. destruct (K1 fd Hin) as [Hin2 ->%symmetry]. destruct (K2 fd Hin2). split; congruence. Qed.

Lemma ensure_secondary_keeps g db w ok g' w' :
  ensure_secondary g db w = (ok, g', w') → keeps w w' ∧ (ok = true ↔ is_Some g') ∧ (∀ d, g = Some d → g' = Some d).
Proof.
  unfold ensure_secondary. destruct g as [d|]; [intros [= <- <- <-]; split; [apply keeps_refl|naive_solver]|].
  destruct (LoadLatestOptions _ _) as [o w1] eqn:E1. destruct (OpenAsSecondary _ _ _ _) as [r w2] eqn:E2. intros Heq.
  apply load_keeps in E1. apply open_keeps in E2.
  assert (Hk : keeps w w2) by (eapply keeps_trans; [apply mkdir_keeps|]; by eapply keeps_trans).
  destruct r; simplify_eq; (split; [done|]); split; try done; split; try done; by intros [? ?].
Qed.

(** The work keeps the connections, and never replaces an open secondary. *)
Lemma job_work_keeps g db id input w o g' w' :
  job_work g db id input w = (o, g', w') → keeps w w' ∧ ∀ d, g = Some d → g' = Some d.
Proof.
  unfold job_work. destruct (ensure_secondary g db w) as [[ok g1] w1] eqn:E.
  destruct (ensure_secondary_keeps _ _ _ _ _ _ E) as (K1 & Hok & Hg).
  destruct (if ok then g1 else None) as [d|].
  - destruct (TryCatchUpWithPrimary _ _) as [r w2] eqn:E2. apply catchup_keeps in E2.
    destruct (ReadInput input) as [csi|]; [|intros [= <- <- <-]; eauto using keeps_trans].
    destruct (CompactWithoutInstallation _ _ _) as [[[a b] r'] w3] eqn:E3. apply compact_keeps in E3.
    assert (keeps w w3) by eauto using keeps_trans.
    repeat case_match; intros; simplify_eq; auto.
  - destruct (OpenAndCompact _ _ _ _) as [out w2] eqn:E2. apply open_compact_keeps in E2.
    intros [= <- <- <-]. split; [|done]. eapply keeps_trans; [done|]. eapply keeps_trans; [apply mkdir_keeps|done].
Qed.

Lemma poll_once_keeps w b w' : poll_once w = (b, w') → keeps w w'.
Proof.
  unfold poll_once. destruct (mmio_r32 _ _) as [st w1] eqn:E. apply read_keeps in E.
  case_match; intros [= <- <-]; [done|]. eapply keeps_trans; [done|apply yield_keeps].
Qed.
Lemma poll_keeps fuel w w' : poll fuel w = Ok w' → keeps w w'.
Proof.
  revert w. induction fuel as [|fuel IH]; intros w; simpl; [done|].
  destruct (poll_once w) as [b w1] eqn:E. apply poll_once_keeps in E.
  destruct b; [by intros [= <-]|]. eauto using keeps_trans.
Qed.
End worker.

Section handler.
Context {W : Type} `{UnitLaws W}.
Implicit Types (w : W) (g : option Db).

(** A worker whose connection delivers a well-formed job works on exactly that
    job and sends exactly its response. *)
Lemma handle_job_spec fuel B mmio g conn msg db id input rest w :
  recv_healthy (S := W * Z) → send_healthy (S := W * Z) → (∀ w' fd, os_intr w' fd ≤ B)%nat →
  conn ∈ os_fds w → os_inbox w conn = frame msg ++ rest → Z.of_nat (length msg) < 2 ^ 32 →
  (length (os_inbox w conn) + B + 1 < fuel)%nat → parse_job msg = Some (db, id, input) →
  ∃ w1, pnm_recv_frame fuel (w, conn) [] = Ok (true, msg, (w1, conn)) ∧
    ∀ o g' w2, job_work g db id input w1 = (o, g', w2) →
      (4 + length (response o) + B < fuel)%nat → Z.of_nat (length (response o)) < 2 ^ 32 →
      (∀ out, o = Compacted out → mmio = true → is_ok (poll fuel w2)) →
      ∃ w', handle_job fuel mmio g conn w = Ok (g', w') ∧ conn ∈ os_fds w' ∧
        os_sent w' conn = os_sent w conn ++ frame (response o).
Proof.
  intros Hrh Hsh HB Hc Hin Hlen Hfuel Hparse. pose proof (HB w conn) as HBw.
  destruct (pnm_recv_frame_spec fuel (w, conn) [] msg rest) as (ok & out & s1 & Heq & Hsent & Hok & Hh);
    [simpl; lia|done|done|]. specialize (Hh Hrh). subst ok. destruct Hok as [-> _].
  destruct (recv_frame_keeps _ _ _ _ _ _ _ Heq) as (Hfd & Hfds & _). destruct s1 as [w1 c]. simpl in *. subst c.
  exists w1. split; [done|]. intros o g' w2 Hw Hfo Hlo Hpoll. unfold handle_job. rewrite Heq. cbn [res_bind negb fst].
  rewrite Hparse. cbn [fst]. rewrite Hw. destruct (job_work_keeps _ _ _ _ _ _ _ _ Hw) as [K _].
  destruct (K conn) as [Hin2 Hs2]; [by rewrite Hfds|].
  assert (∃ w3, match o with Compacted _ => if mmio then poll fuel w2 else Ok w2 | _ => Ok w2 end = Ok w3 ∧ keeps w2 w3)
    as (w3 & -> & K3).
  { destruct o as [| |out]; eauto using keeps_refl. destruct mmio; eauto using keeps_refl.
    specialize (Hpoll out eq_refl eq_refl). destruct (poll fuel w2) as [w3|] eqn:Ep; [|done]. eauto using poll_keeps. }
  cbn [res_bind]. destruct (K3 conn Hin2) as [Hin3 Hs3].
  destruct (pnm_send_frame_spec fuel (w3, conn) (response o)) as (ok & s4 & Heq4 & _ & Hok4).
  { simpl. pose proof (HB w3 conn). lia. }
  pose proof (pnm_send_frame_healthy _ _ _ _ _ Hsh Heq4) as ->. destruct (send_frame_keeps _ _ _ _ _ _ Heq4) as (Hfd4 & Hf4 & _).
  rewrite Heq4. cbn [res_bind]. destruct s4 as [w4 c]. simpl in *. subst c. exists w4. split_and!; [done|by rewrite Hf4|].
  rewrite u32_id, Nat2Z.id, take_ge in Hok4 by lia. by rewrite Hok4, Hs3, Hs2, Hsent.
Qed.
End handler.

#[local] Opaque to_string job_message Schedule Wait handle_job.

(** The job is carried to the worker, and what its work ended in back to [Wait]. *)
Lemma job_carried {WC WW} `{OsLaws WC} `{UnitLaws WW} read_input fuel B sv info input (wc wc1 : WC) id :
  let job := to_string (u32 (Z.shiftr (job_id info) 32)) in
  let msg := job_message (db_name info) job input in
  (∀ (w : WC) fd, os_intr w fd ≤ B)%nat → (∀ (w : WW) fd, os_intr w fd ≤ B)%nat →
  recv_healthy (S := WC * Z) → recv_healthy (S := WW * Z) → send_healthy (S := WW * Z) →
  (5 + length msg + B < fuel)%nat → Z.of_nat (length msg) < 2 ^ 32 →
  Schedule read_input fuel sv info input wc = Ok (kSuccess, id, wc1) →
  ∃ fd, fd ∈ os_fds wc1 ∧ ∀ mmio g conn (ww : WW),
    conn ∈ os_fds ww → os_inbox ww conn = os_sent wc1 fd → os_sent ww conn = [] →
    ∃ ww1, pnm_recv_frame fuel (ww, conn) [] = Ok (true, msg, (ww1, conn)) ∧
      ∀ o g' ww2, job_work g (db_name info) job input ww1 = (o, g', ww2) →
        (5 + length (response o) + B < fuel)%nat → Z.of_nat (length (response o)) < 2 ^ 32 →
        (∀ out, o = Compacted out → mmio = true → is_ok (poll fuel ww2)) →
        ∃ ww', handle_job fuel mmio g conn ww = Ok (g', ww') ∧ os_sent ww' conn = frame (response o) ∧
          ∀ wc2 : WC, os_inbox wc2 fd = os_sent ww' conn →
            ∃ wc3, os_fds wc3 = os_fds wc2 ∖ {[fd]} ∧
              Wait fuel id wc2 = Ok match o with
                                    | Failed => (kFailure, Some [], wc3)
                                    | Fallback out | Compacted out => (kSuccess, Some out, wc3)
                                    end.
Proof.
  intros job msg HBc HBw Hrc Hrw Hsw Hfuel Hmsg Hsch.
  destruct (Schedule_spec read_input fuel sv info input wc) as (st & id' & w' & Heq & Hcase);
    [intros w fd; fold job; fold msg; specialize (HBc w fd); lia|done|].
  rewrite Hsch in Heq. injection Heq as <- <- <-. destruct Hcase as [(? & _)|(fd & wm & _ & -> & Hfd & _ & Hfds & Hsent & _)]; [done|].
  fold job msg in Hsent |- *. exists fd. split; [rewrite Hfds; apply elem_of_union_l; by apply elem_of_singleton|].
  intros mmio g conn ww Hc Hin Hout.
  destruct (handle_job_spec fuel B mmio g conn msg (db_name info) job input [] ww) as (ww1 & Hr & Hwork); try done.
  { by rewrite app_nil_r, Hin. }
  { rewrite Hin, Hsent, frame_length. lia. }
  { by apply parse_job_message. }
  exists ww1. split; [done|]. intros o g' ww2 Hw Hfo Hlo Hpoll.
  destruct (Hwork o g' ww2 Hw) as (ww' & Hh & _ & Hs'); try done; [lia|]. rewrite Hout, app_nil_l in Hs'. exists ww'. split; [done|]. split; [done|].
  intros wc2 Hin2. rewrite Hs' in Hin2.
  destruct (Wait_spec fuel (u32 (Z.shiftr (job_id info) 32)) fd wc2) as (st & r & wc3 & Hwait & Hf3 & _ & Hres).
  { pose proof (u32_range (Z.shiftr (job_id info) 32)). lia. }
  { done. }
  { rewrite Hin2, frame_length. specialize (HBc wc2 fd). lia. }
  exists wc3. split; [done|]. fold job in Hwait. rewrite Hwait. f_equal.
  destruct o as [|out|out];
    [destruct (Hres Byte.x01 [] []) as [-> ->]|destruct (Hres Byte.x00 out []) as [-> ->]|destruct (Hres Byte.x00 out []) as [-> ->]];
    try done; by rewrite app_nil_r.
Qed.
(** C3: a compaction end to end.  If [Schedule] succeeds and the connection it
    opened carries its bytes to the worker and the worker's bytes back, then
    [handle_job] works on exactly the database, job number and input that RocksDB
    scheduled, and [Wait] on the scheduled id returns what the work ended in:
    success and the output, or failure. *)
Theorem job_end_to_end {WC WW} `{OsLaws WC} `{UnitLaws WW} read_input fuel B sv info input (wc wc1 : WC) id :
  let job := to_string (u32 (Z.shiftr (job_id info) 32)) in
  let msg := job_message (db_name info) job input in
  (∀ (w : WC) fd, os_intr w fd ≤ B)%nat → (∀ (w : WW) fd, os_intr w fd ≤ B)%nat →
  recv_healthy (S := WC * Z) → recv_healthy (S := WW * Z) → send_healthy (S := WW * Z) →
  (5 + length msg + B < fuel)%nat → Z.of_nat (length msg) < 2 ^ 32 →
  Schedule read_input fuel sv info input wc = Ok (kSuccess, id, wc1) →
  ∃ fd, fd ∈ os_fds wc1 ∧ ∀ mmio g conn (ww : WW),
    conn ∈ os_fds ww → os_inbox ww conn = os_sent wc1 fd → os_sent ww conn = [] →
    ∃ ww1, pnm_recv_frame fuel (ww, conn) [] = Ok (true, msg, (ww1, conn)) ∧
      ∀ o g' ww2, job_work g (db_name info) job input ww1 = (o, g', ww2) →
        (5 + length (response o) + B < fuel)%nat → Z.of_nat (length (response o)) < 2 ^ 32 →
        (∀ out, o = Compacted out → mmio = true → is_ok (poll fuel ww2)) →
        ∃ ww', handle_job fuel mmio g conn ww = Ok (g', ww') ∧
          ∀ wc2 : WC, os_inbox wc2 fd = os_sent ww' conn →
            ∃ wc3, os_fds wc3 = os_fds wc2 ∖ {[fd]} ∧
              Wait fuel id wc2 = Ok match o with
                                    | Failed => (kFailure, Some [], wc3)
                                    | Fallback out | Compacted out => (kSuccess, Some out, wc3)
                                    end.
Proof.
  intros job msg H1' H2' H3' H4' H5' Hf Hm Hs. destruct (job_carried read_input fuel B sv info input wc wc1 id H1' H2' H3' H4' H5' Hf Hm Hs) as (fd & Hfd & Hall). exists fd. split; [done|].
  intros mmio g conn ww Hc Hi Ho. destruct (Hall mmio g conn ww Hc Hi Ho) as (ww1 & Hr & Hw). exists ww1. split; [done|]. intros o g' ww2 Hj Hl1 Hl2 Hp. destruct (Hw o g' ww2 Hj Hl1 Hl2 Hp) as (ww' & Hh & _ & Hb). by exists ww'.
Qed.

(** ** The threads together *)
Section pool.
Context {W : Type} `{UnitLaws W}.
Implicit Types (s : pool (W := W)) (w : W).

(** The phases inside the mutex. *)
Definition critical (p : phase) : bool :=
  match p with PWork _ _ _ | PPoll _ | PSend true _ => true | _ => false end.

Definition pool_ok (s : pool (W := W)) : Prop :=
  (∀ c p, p_threads s !! c = Some p → c ∈ os_fds (p_w s) ∧ (critical p = true → p_lock s = Some c)) ∧
  (∀ c, p_lock s = Some c → ∃ p, p_threads s !! c = Some p ∧ critical p = true).

(** A step of thread [c] to phase [p] with lock [l] and world [w]. *)
Lemma pool_ok_update s c p0 p l g w :
  pool_ok s → p_threads s !! c = Some p0 → (∀ fd, fd ∈ os_fds (p_w s) → fd ∈ os_fds w) →
  (critical p = true ∧ l = Some c ∧ (p_lock s = None ∨ critical p0 = true)
   ∨ critical p = false ∧ critical p0 = true ∧ l = None
   ∨ critical p = false ∧ critical p0 = false ∧ l = p_lock s) →
  pool_ok (mkPool (p_mmio s) l (<[c := p]> (p_threads s)) g w).
Proof.
  intros [Ht Hl] Hc Hk Hcase. destruct (Ht c p0 Hc) as [Hcin Hc0]. split; cbn.
  - intros c' p'. destruct (decide (c' = c)) as [->|Hne]; [rewrite lookup_insert_eq|rewrite lookup_insert_ne by done].
    + intros [= <-]. split; [auto|]. destruct Hcase as [(_ & -> & _)|[(? & _)|(? & _)]]; congruence.
    + intros Hc'. destruct (Ht c' p' Hc') as [Hin' Hcr']. split; [auto|]. intros Hcr. specialize (Hcr' Hcr).
      destruct Hcase as [(_ & _ & [Hn|Hcc])|[(_ & Hcc & _)|(_ & _ & ->)]]; [congruence| | |done];
        specialize (Hc0 Hcc); congruence.
  - intros c' Hl'. destruct (decide (c' = c)) as [->|Hne]; [rewrite lookup_insert_eq|rewrite lookup_insert_ne by done].
    + exists p. split; [done|]. destruct Hcase as [(? & _)|[(_ & _ & ->)|(_ & Hf & ->)]]; [done|done|].
      destruct (Hl c Hl') as (p1 & Hp1 & Hcr). congruence.
    + destruct Hcase as [(_ & -> & _)|[(_ & _ & ->)|(_ & _ & ->)]]; [congruence|done|eauto].
Qed.

Lemma thread_step_ok s c s' : pool_ok s → thread_step s c s' → pool_ok s'.
Proof.
  intros Hok [fuel out w Hp Hr|fuel msg db id input w Hp Hr _|fuel msg w Hp Hr _|db id input Hp Hl
             |db id input o g w Hp Hw|out b w Hp Hw|fuel l resp ok w Hp Hs|Hp].
  - destruct (recv_frame_keeps _ _ _ _ _ _ _ Hr) as (_ & Hf & _). simpl in Hf.
    apply (pool_ok_update s c PRecv); [done|done|by rewrite Hf|auto].
  - destruct (recv_frame_keeps _ _ _ _ _ _ _ Hr) as (_ & Hf & _). simpl in Hf.
    apply (pool_ok_update s c PRecv); [done|done|by rewrite Hf|auto].
  - destruct (recv_frame_keeps _ _ _ _ _ _ _ Hr) as (_ & Hf & _). simpl in Hf.
    apply (pool_ok_update s c PRecv); [done|done|by rewrite Hf|auto].
  - apply (pool_ok_update s c (PWait db id input)); [done|done|auto|auto 6].
  - destruct (job_work_keeps _ _ _ _ _ _ _ _ Hw) as [K _]. destruct Hok as [Ht Hl].
    destruct (Ht _ _ Hp) as [_ Hc]. eapply pool_ok_update; [by split|done|intros fd; apply K|].
    left. split_and!; [by destruct o, (p_mmio s)|auto|by right].
  - apply poll_once_keeps in Hw. destruct Hok as [Ht Hl].
    destruct (Ht _ _ Hp) as [_ Hc]. eapply pool_ok_update; [by split|done|intros fd; apply Hw|].
    left. split_and!; [by destruct b|auto|by right].
  - destruct (send_frame_keeps _ _ _ _ _ _ Hs) as (_ & Hf & _). simpl in Hf.
    apply (pool_ok_update s c (PSend l resp)); [done|done|by rewrite Hf|]. right. destruct l; [left|right]; done.
  - destruct Hok as [Ht Hl]. split; cbn.
    + intros c' p' [Hne Hc']%lookup_delete_Some. destruct (Ht c' p' Hc') as [Hin Hcr]. split; [|done].
      rewrite (proj1 (os_close_law _ _)). set_solver.
    + intros c' Hl'. destruct (Hl c' Hl') as (p & Hp' & Hcr). exists p. rewrite lookup_delete_ne; [done|].
      intros <-. by simplify_eq.
Qed.

Lemma pool_step_ok srv s s' : pool_ok s → pool_step srv s s' → pool_ok s'.
Proof.
  intros Hok [conn err w Ha Hc|conn w Ha Hc|c s2 Hs]; [| |by eapply thread_step_ok].
  - destruct (accept_law _ _ _ _ _ Ha) as [Hnew _]. destruct (Hnew Hc) as [Hfresh Hf]. destruct Hok as [Ht Hl]. split; cbn.
    + intros c p. destruct (decide (c = conn)) as [->|Hne]; [rewrite lookup_insert_eq|rewrite lookup_insert_ne by done].
      * intros [= <-]. rewrite Hf. split; [set_solver|done].
      * intros Hp. destruct (Ht c p Hp). rewrite Hf. split; [set_solver|done].
    + intros c Hc'. destruct (Hl c Hc') as (p & Hp & Hcr). exists p. rewrite lookup_insert_ne; [done|].
      intros <-. by destruct (Ht _ _ Hp).
  - destruct (accept_law _ _ _ _ _ Ha) as [_ Hsame]. destruct Hok as [Ht Hl]. split; cbn; [|done].
    intros c p Hp. rewrite (Hsame Hc). auto.
Qed.

Lemma pool_reachable_ok srv mmio w s : rtc (pool_step srv) (pool0 mmio w) s → pool_ok s.
Proof.
  assert (Hind : ∀ s1 s2 : pool (W := W), rtc (pool_step srv) s1 s2 → pool_ok s1 → pool_ok s2)
    by (induction 1; eauto using pool_step_ok).
  intros Hr. apply (Hind _ _ Hr). split; cbn; [|done]. intros c p. by rewrite lookup_empty.
Qed.

Lemma pool_step_db srv s s' d : pool_step srv s s' → p_db s = Some d → p_db s' = Some d.
Proof.
  intros [conn err w Ha Hc|conn w Ha Hc|c s2 Hs]; [done..|]. destruct Hs as [| | | |db id input o g w Hp Hw| | |]; try done.
  destruct (job_work_keeps _ _ _ _ _ _ _ _ Hw) as [_ Hg]. apply Hg.
Qed.

Lemma reachable_db srv s s' d : rtc (pool_step srv) s s' → p_db s = Some d → p_db s' = Some d.
Proof. induction 1 as [|s1 s2 s3 Hs _ IH]; [done|]. intros Hd. apply IH. by eapply pool_step_db. Qed.
End pool.

(** C16: in every interleaving of the worker's threads at most one of them is
    inside the mutex, working, polling or responding, and it is the mutex's
    holder; every thread's connection is open; and the secondary database, once
    opened, is the one every later job uses. *)
Theorem one_job_at_a_time {W} `{UnitLaws W} srv mmio (w : W) s s' :
  rtc (pool_step srv) (pool0 mmio w) s → rtc (pool_step srv) s s' →
  (∀ c1 c2 p1 p2, p_threads s !! c1 = Some p1 → p_threads s !! c2 = Some p2 →
     critical p1 = true → critical p2 = true → c1 = c2 ∧ p_lock s = Some c1) ∧
  (∀ c p, p_threads s !! c = Some p → c ∈ os_fds (p_w s)) ∧
  (∀ d, p_db s = Some d → p_db s' = Some d).
Proof.
  intros Hr Hr'. destruct (pool_reachable_ok _ _ _ _ Hr) as [Ht Hl]. split_and!.
  - intros c1 c2 p1 p2 Hp1 Hp2 Hc1 Hc2. destruct (Ht _ _ Hp1) as [_ E1], (Ht _ _ Hp2) as [_ E2].
    specialize (E1 Hc1). specialize (E2 Hc2). split; congruence.
  - intros c p Hp. apply (Ht c p Hp).
  - intros d. by eapply reachable_db.
Qed.

(** C36: the worker never deadlocks: in every reachable state with an unfinished
    connection, the thread of some connection can take a step. *)
Theorem worker_progress {W} `{UnitLaws W} srv mmio (w : W) s :
  rtc (pool_step srv) (pool0 mmio w) s → p_threads s ≠ ∅ → ∃ c s', thread_step s c s'.
Proof.
  intros Hr Hne. destruct (pool_reachable_ok _ _ _ _ Hr) as [Ht Hl].
  assert (∃ c p, p_threads s !! c = Some p ∧ (critical p = true ∨ p_lock s = None)) as (c & p & Hp & Hcase).
  { destruct (p_lock s) as [c|] eqn:E; [destruct (Hl c eq_refl) as (p & ? & ?); eauto|].
    destruct (map_choose _ Hne) as (c & p & Hp). eauto. }
  exists c. destruct p as [|db id input|db id input|out|l resp|].
  - destruct (pnm_recv_frame_total (S (S (length (os_inbox (p_w s) c) + os_intr (p_w s) c))) (p_w s, c) [])
      as (ok & msg & [w' c'] & Heq); [simpl; lia|].
    destruct (recv_frame_keeps _ _ _ _ _ _ _ Heq) as (Hc & _). simpl in Hc. subst c'. destruct ok.
    + destruct (parse_job msg) as [[[db id] input]|] eqn:Ej; eexists; [by eapply step_recv_job|by eapply step_recv_malformed].
    + eexists. by eapply step_recv_fails.
  - destruct Hcase as [|Hn]; [done|]. eexists. by eapply step_lock.
  - destruct (job_work (p_db s) db id input (p_w s)) as [[o g] w'] eqn:E. eexists. by eapply step_work.
  - destruct (poll_once (p_w s)) as [b w'] eqn:E. eexists. by eapply step_poll.
  - destruct (pnm_send_frame_spec (5 + length resp + os_intr (p_w s) c) (p_w s, c) resp) as (ok & [w' c'] & Heq & _); [simpl; lia|].
    destruct (send_frame_keeps _ _ _ _ _ _ Heq) as (Hc & _). simpl in Hc. subst c'. eexists. by eapply step_send.
  - eexists. by apply step_close.
Qed.

(** On the fallback path the worker reports success without looking at the
    device: whenever the secondary cannot be opened, [handle_job] does the same
    with and without mapped registers, even while the status register never shows
    the job done; the service's header says that the result is sent only once the
    status shows that the delay has passed. *)
Theorem fallback_skips_poll {W} `{UnitLaws W} fuel conn (w : W) s msg db id input w1 out w2 :
  pnm_recv_frame fuel (w, conn) [] = Ok (true, msg, s) → parse_job msg = Some (db, id, input) →
  ensure_secondary None db s.1 = (false, None, w1) →
  OpenAndCompact (os_mkdir w1 (kSecondaryPath ++ str "/" ++ id)) db (kSecondaryPath ++ str "/" ++ id) input = (Some out, w2) →
  handle_job fuel true None conn w = (let* (_, s) := pnm_send_frame fuel (w2, conn) (Byte.x00 :: out) in Ok (None, s.1)) ∧
  handle_job fuel true None conn w = handle_job fuel false None conn w.
Proof.
  intros Hr Hp He Ho.
  assert (Hw : job_work None db id input s.1 = (Fallback out, None, w2)).
  { unfold job_work. rewrite He. cbn match. by rewrite Ho. }
  Transparent handle_job. unfold handle_job. rewrite Hr. cbn [res_bind negb]. by rewrite Hp, Hw.
Qed.

(** ** Witnesses *)
(** On the small operating system of the service: a database whose options
    cannot be read, that opens unless its path is empty, and whose compaction
    returns its input. *)
#[export] Instance os0_unit : UnitOs os0 := {|
  os_setaffinity w n := (true, w);
  os_unlink w := w;
  os_bind w fd := (0, w);
  os_listen w fd n := (0, w);
  os_accept w srv := let (fd, w) := add_fd w in (fd, 0, w);
  os_yield w := w;
  os_mkdir w d := w |}.
#[export] Instance os0_rocks : RocksDb os0 := {|
  Db := bytes; Opts := Z; Input := bytes; Result := bytes;
  LoadLatestOptions w d := (None, w);
  default_options := 0;
  set_max_open_files o n := n;
  OpenAsSecondary w o d d2 := (match d with [] => None | _ => Some d end, w);
  OpenAndCompact w d d2 i := (Some i, w);
  TryCatchUpWithPrimary w db := (true, w);
  ReadInput i := Some i;
  CompactWithoutInstallation w db i := (true, true, i, w);
  WriteResult r := Some r |}.
#[export] Instance os0_unit_laws : UnitLaws os0.
Proof.
  constructor; cbn; try (intros; simplify_eq; by auto using keeps_refl).
  intros w srv fd err w'. destruct (add_fd w) as [fd' w1] eqn:E. intros [= <- <- <-].
  destruct (add_fd_spec _ _ _ E) as [_ [[? ?]|(? & ? & ? & _)]]; split; intros; try lia; auto.
Defined.

Lemma os0_recv_healthy : recv_healthy (S := os0 * Z).
Proof.
  intros [w fd] len n err d s'. cbn. intros [= <- <- <- <-] Hl Hne. left. rewrite length_take.
  unfold bytes_of in *. destruct (default [] (o_inbox w !! fd)); [done|]. simpl. lia.
Qed.
Lemma os0_send_healthy : send_healthy (S := os0 * Z).
Proof. intros [w fd] b n err s'. cbn. intros [= <- <- <-] Hne. left. destruct b; [done|]. simpl. lia. Qed.

#[local] Transparent to_string job_message Schedule Wait.

Lemma job_end_to_end_witness :
  ∃ id wc1 wc2 wc3 : _, Schedule (λ _, Some []) 100 (mkService 9 true) info0 (str "in") os_init = Ok (kSuccess, id, wc1) ∧
    Wait 100 id (wc2 : os0) = Ok (kSuccess, Some (str "in"), (wc3 : os0)).
Proof.
  destruct (Schedule (λ _, Some []) 100 (mkService 9 true) info0 (str "in") os_init) as [[[st id] wc1]|] eqn:Hs;
    [|by vm_compute in Hs].
  assert (st = kSuccess) as -> by (vm_compute in Hs; congruence).
  destruct (job_end_to_end (WC := os0) (WW := os0) (λ _, Some []) 100 0 (mkService 9 true) info0 (str "in") os_init wc1 id)
    as (fd & _ & Hwork); [done|done|apply os0_recv_healthy|apply os0_recv_healthy|apply os0_send_healthy
                         |vm_compute; lia|vm_compute; done|done|].
  destruct (Hwork false None 5 (mkOs0 {[5]} [] ∅ {[5 := bytes_of (o_sent wc1) fd]} 0)) as (ww1 & _ & Hrun);
    [by vm_compute|reflexivity|reflexivity|].
  destruct (Hrun (Compacted (str "in")) (Some (str "/db")) ww1) as (ww' & _ & Hwait); [reflexivity|simpl; lia|done|done|].
  exists id, wc1, (mkOs0 {[fd]} [] ∅ {[fd := bytes_of (o_sent ww') 5]} 0).
  destruct (Hwait (mkOs0 {[fd]} [] ∅ {[fd := bytes_of (o_sent ww') 5]} 0)) as (wc3 & _ & Hw).
  { cbn. unfold bytes_of at 1. by rewrite lookup_singleton_eq. }
  exists wc3. split; [done|exact Hw].
Defined.

(** Two connections: the first is working, the second waits for the mutex. *)
Definition unit_init : os0 := mkOs0 {[0; 1; 2; 3]} [] ∅
  {[4 := frame (job_message (str "/db") (str "7") (str "in")); 5 := frame (job_message (str "/db") (str "8") (str "in"))]} 0.

(** Three steps as functions. *)
Definition run_accept (s : pool (W := os0)) : option pool :=
  let '(conn, err, w) := os_accept (p_w s) 3 in if 0 <=? conn then Some (set_phase s conn PRecv w) else None.
Definition run_recv (c : Z) (s : pool (W := os0)) : option pool :=
  match p_threads s !! c, pnm_recv_frame 100 (p_w s, c) [] with
  | Some PRecv, Ok (true, msg, (w, c')) =>
      match parse_job msg with
      | Some (db, id, input) => if c' =? c then Some (set_phase s c (PWait db id input) w) else None
      | None => None
      end
  | _, _ => None
  end.
Definition run_lock (c : Z) (s : pool (W := os0)) : option pool :=
  match p_threads s !! c, p_lock s with
  | Some (PWait db id input), None =>
      Some (mkPool (p_mmio s) (Some c) (<[c := PWork db id input]> (p_threads s)) (p_db s) (p_w s))
  | _, _ => None
  end.
Lemma run_accept_step s s' : run_accept s = Some s' → pool_step 3 s s'.
Proof.
  unfold run_accept. destruct (os_accept (p_w s) 3) as [[conn err] w] eqn:E. destruct (Z.leb_spec 0 conn) as [Hc|]; [|done].
  intros [= <-]. by eapply step_accept.
Qed.
Lemma run_recv_step c s s' : run_recv c s = Some s' → pool_step 3 s s'.
Proof.
  unfold run_recv. repeat (case_match; try done). intros [= <-]. simplify_eq.
  match goal with E : (_ =? _) = true |- _ => apply Z.eqb_eq in E; subst end.
  eapply step_thread, step_recv_job; eauto.
Qed.
Lemma run_lock_step c s s' : run_lock c s = Some s' → pool_step 3 s s'.
Proof. unfold run_lock. repeat (case_match; try done). intros [= <-]. eapply step_thread, step_lock; eauto. Qed.

Definition two_jobs : option (pool (W := os0)) :=
  (((run_accept (pool0 false unit_init) ≫= run_accept) ≫= run_recv 4) ≫= run_recv 5) ≫= run_lock 4.
Lemma two_jobs_reachable s : two_jobs = Some s → rtc (pool_step 3) (pool0 (W := os0) false unit_init) s.
Proof.
  intros (s4 & (s3 & (s2 & (s1 & E1 & E2)%bind_Some & E3)%bind_Some & E4)%bind_Some & E5)%bind_Some.
  eapply rtc_l; [by apply run_accept_step|]. eapply rtc_l; [by apply run_accept_step|].
  eapply rtc_l; [by eapply run_recv_step|]. eapply rtc_l; [by eapply run_recv_step|].
  by eapply rtc_once, run_lock_step.
Qed.

Lemma one_job_at_a_time_witness :
  ∃ s, two_jobs = Some s ∧ p_threads s !! 4 = Some (PWork (str "/db") (str "7") (str "in")) ∧
    ∀ p, p_threads s !! 5 = Some p → critical p = false.
Proof.
  destruct two_jobs as [s|] eqn:Hs; [|by vm_compute in Hs].
  assert (H4 : p_threads s !! 4 = Some (PWork (str "/db") (str "7") (str "in")))
    by (vm_compute in Hs; injection Hs as <-; reflexivity).
  exists s. split; [done|]. split; [done|]. intros p H5.
  destruct (one_job_at_a_time 3 false unit_init s s (two_jobs_reachable s Hs) (rtc_refl _ _)) as (Hone & _).
  destruct (critical p) eqn:Hc; [|done]. by destruct (Hone 4 5 _ _ H4 H5 eq_refl Hc).
Defined.

Lemma worker_progress_witness :
  ∃ s c s', two_jobs = Some s ∧ thread_step s c s'.
Proof.
  destruct two_jobs as [s|] eqn:Hs; [|by vm_compute in Hs].
  destruct (worker_progress 3 false unit_init s (two_jobs_reachable s Hs)) as (c & s' & Hstep);
    [vm_compute in Hs; by injection Hs as <-|]. exists s, c, s'. exact (conj eq_refl Hstep).
Defined.

(** The empty path does not open; the status register reads 0 for ever. *)
Definition fallback_init : os0 := mkOs0 {[4]} [] ∅ {[4 := frame (job_message [] (str "7") (str "in"))]} 0.
Lemma fallback_skips_poll_witness :
  handle_job 100 true None 4 fallback_init = handle_job 100 false None 4 fallback_init.
Proof.
  refine (proj2 (fallback_skips_poll 100 4 fallback_init _ _ [] (str "7") (str "in") _ (str "in") _ _ _ _ _)); reflexivity.
Defined.
