(* ===== verification/PnmModule.v ===== *)
(** * The kernel driver (gem5 [configs/yonsei/pnm_module.c])

    The driver registers [/dev/pnm] and maps the device's register page into the
    process that asks for it.  The kernel's functions are the interface [Kernel];
    [KernelLaws] states which resources are registered and which physical
    addresses user space can reach. *)
From S2P Require Import Prelude.
Local Open Scope Z_scope.

Definition PAGE_SHIFT := 12.
Definition PAGE_SIZE := Z.shiftl 1 PAGE_SHIFT.
Definition EINVAL := 22.
Definition PNM_PHYS_BASE := 0xD0000000.

(** Error pointers of the kernel: the last 4095 addresses. *)
Definition IS_ERR (p : Z) : bool := 2 ^ 64 - 4095 <=? p.
Definition PTR_ERR (p : Z) : Z := p - 2 ^ 64.

Record vm_area_struct := mkVma { vm_start : Z; vm_end : Z; vm_pgoff : Z; vm_page_prot : Z }.

Class Kernel (K : Type) := {
  alloc_chrdev_region : K → Z * Z * K;
  cdev_add : K → Z → Z * K;
  class_create : K → Z * K;
  device_create : K → Z → Z → Z * K;
  device_destroy : K → Z → Z → K;
  class_destroy : K → Z → K;
  cdev_del : K → Z → K;
  unregister_chrdev_region : K → Z → K;
  pgprot_noncached : Z → Z;
  remap_pfn_range : K → Z → Z → Z → Z → Z * K }.

(** What the driver registers: device numbers, the cdev, classes, devices. *)
Inductive resource := Region (devno : Z) | Cdev (devno : Z) | Class_ (p : Z) | Device (p devno : Z).

Section module.
Context {K : Type} `{Kernel K}.

(** [pnm_devno] and [pnm_class]. *)
Record pnm_globals := mkGlobals { pnm_devno : Z; pnm_class : Z }.

(** [pnm_mmap]: the result and the area after it. *)
Definition pnm_mmap (vma : vm_area_struct) (k : K) : Z * vm_area_struct * K :=
  let size := u64 (vm_end vma - vm_start vma) in
  if negb (vm_pgoff vma =? 0) then (- EINVAL, vma, k)
  else if PAGE_SIZE <? size then (- EINVAL, vma, k)
  else
    let vma := mkVma (vm_start vma) (vm_end vma) (vm_pgoff vma) (pgprot_noncached (vm_page_prot vma)) in
    let (ret, k) := remap_pfn_range k (vm_start vma) (Z.shiftr PNM_PHYS_BASE PAGE_SHIFT) size (vm_page_prot vma) in
    (ret, vma, k).

(** The error labels, in the order they fall through. *)
Definition err_chrdev (devno ret : Z) (k : K) : Z * K := (ret, unregister_chrdev_region k devno).
Definition err_cdev (devno ret : Z) (k : K) : Z * K := err_chrdev devno ret (cdev_del k devno).
Definition err_class (devno cls ret : Z) (k : K) : Z * K := err_cdev devno ret (class_destroy k cls).

Definition pnm_init (k : K) : Z * pnm_globals * K :=
  let '(ret, devno, k) := alloc_chrdev_region k in
  if ret <? 0 then (ret, mkGlobals devno 0, k)
  else
    let (ret, k) := cdev_add k devno in
    if ret <? 0 then let (ret, k) := err_chrdev devno ret k in (ret, mkGlobals devno 0, k)
    else
      let (cls, k) := class_create k in
      if IS_ERR cls then let (ret, k) := err_cdev devno (PTR_ERR cls) k in (ret, mkGlobals devno cls, k)
      else
        let (dev, k) := device_create k cls devno in
        if IS_ERR dev then let (ret, k) := err_class devno cls (PTR_ERR dev) k in (ret, mkGlobals devno cls, k)
        else (0, mkGlobals devno cls, k).

Definition pnm_exit (m : pnm_globals) (k : K) : K :=
  let k := device_destroy k (pnm_class m) (pnm_devno m) in
  let k := class_destroy k (pnm_class m) in
  let k := cdev_del k (pnm_devno m) in
  unregister_chrdev_region k (pnm_devno m).
End module.

(** [held k r]: [r] is registered.  [reach k a]: the physical address behind the
    user address [a].  A failing call changes nothing; a succeeding one registers
    something new. *)
Definition adds {K} (held : K → resource → Prop) (k : K) (r : resource) (k' : K) : Prop :=
  ¬ held k r ∧ ∀ r', held k' r' ↔ r' = r ∨ held k r'.
Definition same {K} (held : K → resource → Prop) (k k' : K) : Prop := ∀ r, held k' r ↔ held k r.
Definition drops {K} (held : K → resource → Prop) (k : K) (r : resource) (k' : K) : Prop :=
  ∀ r', held k' r' ↔ r' ≠ r ∧ held k r'.

Class KernelLaws (K : Type) `{Kernel K} := {
  held : K → resource → Prop;
  reach : K → Z → option Z;
  alloc_law k ret d k' : alloc_chrdev_region k = (ret, d, k') →
    (ret < 0 ∧ same held k k') ∨ (0 ≤ ret ∧ adds held k (Region d) k');
  cdev_add_law k d ret k' : cdev_add k d = (ret, k') →
    (ret < 0 ∧ same held k k') ∨ (0 ≤ ret ∧ adds held k (Cdev d) k');
  class_law k p k' : class_create k = (p, k') → 0 ≤ p < 2 ^ 64 ∧
    if IS_ERR p then same held k k' else adds held k (Class_ p) k';
  device_law k c d p k' : device_create k c d = (p, k') → 0 ≤ p < 2 ^ 64 ∧
    if IS_ERR p then same held k k' else adds held k (Device c d) k';
  device_destroy_law k c d : drops held k (Device c d) (device_destroy k c d);
  class_destroy_law k c : drops held k (Class_ c) (class_destroy k c);
  cdev_del_law k d : drops held k (Cdev d) (cdev_del k d);
  unregister_law k d : drops held k (Region d) (unregister_chrdev_region k d);
  remap_law k start pfn size prot ret k' : remap_pfn_range k start pfn size prot = (ret, k') → ∀ a,
    (start ≤ a < start + size ∧ ret = 0 → reach k' a = Some (pfn * PAGE_SIZE + (a - start))) ∧
    (¬ (start ≤ a < start + size) ∨ ret ≠ 0 → reach k' a = reach k a) }.

Section module_laws.
Context {K : Type} `{KernelLaws K}.

(** Dropping what was just added restores the resources. *)
Lemma adds_drops (k k1 k2 k3 : K) r : adds held k r k1 → same held k1 k2 → drops held k2 r k3 → same held k k3.
Proof.
  intros [Hn Ha] Hs Hd r'. rewrite (Hd r'), (Hs r'), (Ha r'). split; [|intros Hr; split; [|auto]; by intros ->].
  intros [? [?|?]]; done.
Qed.
Lemma same_trans (k1 k2 k3 : K) : same held k1 k2 → same held k2 k3 → same held k1 k3.
Proof. intros S1 S2 r. by rewrite (S2 r). Qed.

(** The error labels undo what was registered before them. *)
Lemma err_chrdev_law d ret (k k1 k2 : K) :
  adds held k (Region d) k1 → same held k1 k2 → same held k (err_chrdev d ret k2).2.
Proof. intros. eapply adds_drops; [done..|]. apply unregister_law. Qed.
Lemma err_cdev_law d ret (k k1 k2 k3 : K) :
  adds held k (Region d) k1 → adds held k1 (Cdev d) k2 → same held k2 k3 → same held k (err_cdev d ret k3).2.
Proof. intros. eapply err_chrdev_law; [done|]. eapply adds_drops; [done..|]. apply cdev_del_law. Qed.
Lemma err_class_law d c ret (k k1 k2 k3 k4 : K) :
  adds held k (Region d) k1 → adds held k1 (Cdev d) k2 → adds held k2 (Class_ c) k3 → same held k3 k4 →
  same held k (err_class d c ret k4).2.
Proof. intros. eapply err_cdev_law; [done..|]. eapply adds_drops; [done..|]. apply class_destroy_law. Qed.
End module_laws.

(** C40: loading the driver is all or nothing.  If [pnm_init] fails, at whichever
    step, it returns a negative code and everything it had registered is
    unregistered; if it returns 0, exactly the device number, the cdev, the class
    and the device were added, and [pnm_exit] removes exactly these. *)
Theorem module_lifecycle {K} `{KernelLaws K} (k k1 : K) ret m :
  pnm_init k = (ret, m, k1) →
  (ret < 0 ∧ same held k k1) ∨
  (ret = 0 ∧ (∀ r, r ∈ [Region (pnm_devno m); Cdev (pnm_devno m); Class_ (pnm_class m); Device (pnm_class m) (pnm_devno m)] →
                held k1 r ∧ ¬ held k r) ∧
   ∀ k2, same held k1 k2 → same held k (pnm_exit m k2)).
Proof.
  unfold pnm_init. destruct (alloc_chrdev_region k) as [[r0 d] ka] eqn:Ea.
  destruct (alloc_law _ _ _ _ Ea) as [[Hn Hs]|[Hn A0]]; [rewrite (proj2 (Z.ltb_lt _ _)) by done; intros [= <- <- <-]; auto|].
  rewrite (proj2 (Z.ltb_ge _ _)) by done. destruct (cdev_add ka d) as [r1 kb] eqn:Eb.
  destruct (cdev_add_law _ _ _ _ Eb) as [[Hn1 Hs]|[Hn1 A1]].
  { rewrite (proj2 (Z.ltb_lt _ _)) by done. intros [= <- <- <-]. left. split; [done|]. by eapply (err_chrdev_law d r1). }
  rewrite (proj2 (Z.ltb_ge _ _)) by done. destruct (class_create kb) as [c kc] eqn:Ec.
  destruct (class_law _ _ _ Ec) as [Hc A2]. destruct (IS_ERR c).
  { intros [= <- <- <-]. left. split; [unfold PTR_ERR; lia|]. by eapply (err_cdev_law d 0). }
  destruct (device_create kc c d) as [p kd] eqn:Ed. destruct (device_law _ _ _ _ _ Ed) as [Hp A3]. destruct (IS_ERR p).
  { intros [= <- <- <-]. left. split; [unfold PTR_ERR; lia|]. by eapply (err_class_law d c 0). }
  intros [= <- <- <-]. right. split; [done|]. cbn. split.
  - destruct A0 as [N0 A0], A1 as [N1 A1], A2 as [N2 A2], A3 as [N3 A3]. intros r Hr.
    rewrite !elem_of_cons in Hr. rewrite (A3 r), (A2 r), (A1 r), (A0 r).
    destruct Hr as [->|[->|[->|[->|?%not_elem_of_nil]]]]; [..|done]; (split; [tauto|]).
    + done.
    + by intros ?%(or_intror (A := Cdev d = Region d))%A0.
    + intros Hh. apply N2. rewrite (A1 _), (A0 _). tauto.
    + intros Hh. apply N3. rewrite (A2 _), (A1 _), (A0 _). tauto.
  - intros k2 Hs. unfold pnm_exit. eapply (err_class_law d c 0); [done..|].
    eapply adds_drops; [done..|]. apply device_destroy_law.
Qed.

(** Whatever area user space asks to map, the driver exposes no physical
    address outside the register page, maps nothing when it rejects the request,
    and an accepted one sees the registers in order from the area's start,
    uncached. *)
Theorem mmap_confined {K} `{KernelLaws K} (k k' : K) vma vma' ret :
  0 ≤ vm_start vma ≤ vm_end vma → vm_end vma < 2 ^ 64 →
  pnm_mmap vma k = (ret, vma', k') →
  (∀ a p, reach k' a = Some p → reach k a = Some p ∨ PNM_PHYS_BASE ≤ p < PNM_PHYS_BASE + PAGE_SIZE) ∧
  (ret ≠ 0 → ∀ a, reach k' a = reach k a) ∧
  (ret = 0 → vm_page_prot vma' = pgprot_noncached (vm_page_prot vma) ∧
     ∀ off, 0 ≤ off < vm_end vma - vm_start vma → reach k' (vm_start vma + off) = Some (PNM_PHYS_BASE + off)).
Proof.
  intros Hv He. unfold pnm_mmap. rewrite u64_id by lia.
  destruct (negb (vm_pgoff vma =? 0)); [intros [= <- <- <-]; naive_solver|].
  destruct (Z.ltb_spec PAGE_SIZE (vm_end vma - vm_start vma)) as [|Hsz]; [intros [= <- <- <-]; naive_solver|]. cbn.
  destruct (remap_pfn_range _ _ _ _ _) as [r kr] eqn:Er. intros [= <- <- <-]. cbn.
  pose proof (remap_law _ _ _ _ _ _ _ Er) as L. change (Z.shiftr PNM_PHYS_BASE PAGE_SHIFT * PAGE_SIZE) with PNM_PHYS_BASE in L.
  split_and!.
  - intros a p Hp. destruct (L a) as [L1 L2].
    destruct (decide (vm_start vma ≤ a < vm_start vma + (vm_end vma - vm_start vma) ∧ r = 0)) as [Hin|Hout].
    + rewrite (L1 Hin) in Hp. injection Hp as <-. right. lia.
    + left. rewrite <-L2; [done|]. destruct (decide (r = 0)); [left|right]; tauto.
  - intros Hr a. destruct (L a) as [_ L2]. apply L2. by right.
  - intros ->. split; [done|]. intros off Hoff. destruct (L (vm_start vma + off)) as [L1 _]. rewrite L1; [f_equal|]; lia.
Qed.

(** ** Witnesses *)
(** A kernel that registers everything, and maps what it is asked to. *)
Record kernel0 := mkKernel0 { k_held : list resource; k_reach : list (Z * Z * Z) }.
#[global] Instance resource_eq_dec : EqDecision resource.
Proof. solve_decision. Defined.
Definition k_add (r : resource) (k : kernel0) : kernel0 := mkKernel0 (r :: k_held k) (k_reach k).
Definition k_drop (r : resource) (k : kernel0) : kernel0 := mkKernel0 (filter (λ x, x ≠ r) (k_held k)) (k_reach k).
Fixpoint k_lookup (l : list (Z * Z * Z)) (a : Z) : option Z :=
  match l with
  | [] => None
  | (start, size, pfn) :: l =>
      if decide (start ≤ a < start + size) then Some (pfn * PAGE_SIZE + (a - start)) else k_lookup l a
  end.
(** The first address that no class has. *)
Definition k_fresh (k : kernel0) : Z :=
  match list_find (λ p, Class_ p ∉ k_held k) (seqZ 4096 4096) with Some (_, p) => p | None => 2 ^ 64 - 12 end.

#[export] Instance kernel0_kernel : Kernel kernel0 := {|
  alloc_chrdev_region k := if decide (Region 240 ∈ k_held k) then (-16, 240, k) else (0, 240, k_add (Region 240) k);
  cdev_add k d := if decide (Cdev d ∈ k_held k) then (-16, k) else (0, k_add (Cdev d) k);
  class_create k := if IS_ERR (k_fresh k) then (k_fresh k, k) else (k_fresh k, k_add (Class_ (k_fresh k)) k);
  device_create k c d := if decide (Device c d ∈ k_held k) then (2 ^ 64 - 17, k) else (8192, k_add (Device c d) k);
  device_destroy k c d := k_drop (Device c d) k;
  class_destroy k c := k_drop (Class_ c) k;
  cdev_del k d := k_drop (Cdev d) k;
  unregister_chrdev_region k d := k_drop (Region d) k;
  pgprot_noncached p := Z.lor p 16;
  remap_pfn_range k start pfn size prot := (0, mkKernel0 (k_held k) ((start, size, pfn) :: k_reach k)) |}.

Lemma k_fresh_spec k : 0 ≤ k_fresh k < 2 ^ 64 ∧ (IS_ERR (k_fresh k) = false → Class_ (k_fresh k) ∉ k_held k).
Proof.
  unfold k_fresh. destruct (list_find _ _) as [[i p]|] eqn:E; [|split; [lia|]; by intros ?%Z.leb_gt].
  apply list_find_Some in E as (Hl & Hf & _). apply list_elem_of_lookup_2, elem_of_seqZ in Hl. split; [lia|done].
Qed.

#[export] Instance kernel0_laws : KernelLaws kernel0.
Proof.
  refine {| held k r := r ∈ k_held k; reach k a := k_lookup (k_reach k) a |}; cbn; unfold same, adds, drops; cbn.
  1,2: intros *; case_decide; intros; simplify_eq; [left|right]; (split; [lia|]); [done|split; [done|set_solver]].
  - intros k p k'. destruct (k_fresh_spec k) as [Hr Hn]. destruct (IS_ERR (k_fresh k)) eqn:E; intros [= <- <-]; rewrite E;
      (split; [done|]); [done|split; [auto|set_solver]].
  - intros k c d p k'. case_decide; intros [= <- <-]; (split; [lia|]); cbn; [done|split; [done|set_solver]].
  - intros k c d r. rewrite list_elem_of_filter. done.
  - intros k c r. rewrite list_elem_of_filter. done.
  - intros k c r. rewrite list_elem_of_filter. done.
  - intros k c r. rewrite list_elem_of_filter. done.
  - intros k start pfn size prot ret k' [= <- <-] a. cbn. case_decide; naive_solver.
Defined.

Lemma module_lifecycle_witness : ∃ ret m k1, pnm_init (mkKernel0 [] []) = (ret, m, k1) ∧ ret = 0.
Proof.
  destruct (pnm_init (mkKernel0 [] [])) as [[ret m] k1] eqn:E. exists ret, m, k1. split; [done|].
  destruct (module_lifecycle (mkKernel0 [] []) k1 ret m E) as [[Hn _]|[? _]]; [|done].
  vm_compute in E. injection E as <- <- <-. lia.
Defined.

Lemma mmap_confined_witness :
  ∃ k', reach k' (0x7000 + 0x14) = Some (PNM_PHYS_BASE + 0x14) ∧ (pnm_mmap (mkVma 0x7000 0x8000 0 0) (mkKernel0 [] [])).2 = k'.
Proof.
  destruct (pnm_mmap (mkVma 0x7000 0x8000 0 0) (mkKernel0 [] [])) as [[ret vma'] k'] eqn:E. exists k'. split; [|done].
  destruct (mmap_confined (mkKernel0 [] []) k' (mkVma 0x7000 0x8000 0 0) vma' ret ltac:(cbn; lia) ltac:(cbn; lia) E) as (_ & _ & Hok).
  apply Hok; [|cbn; lia]. vm_compute in E. by injection E as <- _ _.
Defined.
