(* ===== verification/PnmMain.v ===== *)
(** * The benchmark launcher (rocksdb [tools/db_bench_pnm_main.cc])

    [main] starts [pnm_compaction_unit] from its own directory, registers the
    clean-up of the child and runs [db_bench] with one more flag.  What it does is
    the list of its effects; the results of [readlink] and [fork] are arguments. *)
From S2P Require Import Prelude CppString.
Local Open Scope Z_scope.

Inductive effect :=
| Pin (core : Z)
| Exec (path arg0 : bytes)
| Exit (code : Z)
| AtExit
| Usleep (us : Z)
| Kill (pid : Z)
| Waitpid (pid : Z)
| DbBench (argc : Z) (argv : list (option bytes)).

(** [cleanup_pnm_unit]: its effects and [g_pnm_unit_pid] after it. *)
Definition cleanup_pnm_unit (g_pnm_unit_pid : Z) : list effect * Z :=
  if 0 <? g_pnm_unit_pid then ([Kill g_pnm_unit_pid; Waitpid g_pnm_unit_pid], -1) else ([], g_pnm_unit_pid).

Definition unit_name : bytes := str "pnm_compaction_unit".
Definition pnm_flag : bytes := str "--pnm_true_offload=1".

(** The path of the worker, from the link [/proc/self/exe]. *)
Definition unit_path (exe_path : bytes) : bytes :=
  match rfind Byte.x2f exe_path with
  | Some slash => take (S slash) exe_path
  | None => str "./"
  end ++ unit_name.

(** The argument vector passed on; [argv] is null-terminated at [argc]. *)
Definition new_argv (argv : list (option bytes)) (argc : nat) : list (option bytes) :=
  [default None (argv !! 0%nat); Some pnm_flag] ++ take (argc - 1) (drop 1 argv) ++ [None].

Definition run_bench (argv : list (option bytes)) (argc : nat) : list effect :=
  let a := new_argv argv argc in [DbBench (Z.of_nat (length a) - 1) a].

(** [main]: [link] is the target of [/proc/self/exe] ([None]: [readlink] fails),
    of which at most 4095 bytes are stored; [fork] returns [pid].  The effects of
    this process, and the final [g_pnm_unit_pid]. *)
Definition bench_main (link : option bytes) (pid : Z) (argv : list (option bytes)) (argc : nat) : list effect * Z :=
  match link with
  | Some (b :: target) =>
      let dir := take 4095 (b :: target) in
      if pid =? 0 then ([Pin 0; Exec (unit_path dir) unit_name; Exit 1], pid)
      else if pid <? 0 then (Pin 0 :: run_bench argv argc, pid)
      else ([Pin 0; AtExit; Usleep 500000] ++ run_bench argv argc, pid)
  | _ => (Pin 0 :: run_bench argv argc, -1)
  end.

(** The worker is looked up in the launcher's own directory; the parent runs
    the benchmark with its own arguments behind the injected flag, whether or not
    the worker could be started; and at exit exactly the started child is killed
    and reaped, once. *)
Theorem launcher_behaviour dir base pid args arg0 :
  Byte.x2f ∉ base → base ≠ [] → (length dir + 1 + length base < 4096)%nat → pid ≠ 0 →
  let exe := dir ++ [Byte.x2f] ++ base in
  let argv := map Some (arg0 :: args) ++ [None] in
  let bench := [DbBench (Z.of_nat (length (arg0 :: args)) + 1) (map Some (arg0 :: pnm_flag :: args) ++ [None])] in
  bench_main (Some exe) 0 argv (length (arg0 :: args)) =
    ([Pin 0; Exec (dir ++ [Byte.x2f] ++ unit_name) unit_name; Exit 1], 0) ∧
  (∃ pre, bench_main (Some exe) pid argv (length (arg0 :: args)) = (pre ++ bench, pid) ∧
     (AtExit ∈ pre ↔ 0 < pid)) ∧
  bench_main None pid argv (length (arg0 :: args)) = (Pin 0 :: bench, -1) ∧
  (let (e1, g1) := cleanup_pnm_unit pid in let (e2, _) := cleanup_pnm_unit g1 in
   e1 ++ e2 = if 0 <? pid then [Kill pid; Waitpid pid] else []).
Proof.
  intros Hb Hne Hlen Hpid exe argv bench.
  assert (Hrun : run_bench argv (length (arg0 :: args)) = bench).
  { unfold run_bench, new_argv, argv, bench. cbn [map app lookup list_lookup default drop length].
    replace (S (length args) - 1)%nat with (length (map (Some (A := bytes)) args)) by (rewrite length_map; lia).
    rewrite drop_0, take_app_length. do 2 f_equal. simpl. rewrite length_app, length_map. simpl. lia. }
  assert (Hdir : unit_path (take 4095 exe) = dir ++ [Byte.x2f] ++ unit_name).
  { rewrite take_ge by (unfold exe; rewrite !length_app; simpl; lia). unfold unit_path, exe.
    rewrite (rfind_last Byte.x2f dir base Hb). cbn match. rewrite app_assoc, take_app_exact by (rewrite length_app; simpl; lia).
    by rewrite <-app_assoc. }
  unfold bench_main. rewrite Hrun. assert (∃ b t, exe = b :: t) as (b & t & Ht) by (unfold exe; destruct dir; simpl; eauto).
  rewrite Ht in *. split_and!.
  - by rewrite Hdir.
  - rewrite (proj2 (Z.eqb_neq _ _)) by done. destruct (Z.ltb_spec pid 0); [exists [Pin 0]|exists [Pin 0; AtExit; Usleep 500000]];
      (split; [done|]); rewrite !elem_of_cons; (split; intros Hin; [|try lia; auto]); [|lia].
    by destruct Hin as [|?%not_elem_of_nil].
  - done.
  - unfold cleanup_pnm_unit. destruct (Z.ltb_spec 0 pid); [done|]. by rewrite (proj2 (Z.ltb_ge _ _)) by done.
Qed.

Lemma launcher_behaviour_witness :
  bench_main (Some (str "/root/rocksdb_pnm")) 0 [Some (str "rocksdb_pnm"); Some (str "--num=5"); None] 2 =
    ([Pin 0; Exec (str "/root/pnm_compaction_unit") unit_name; Exit 1], 0).
Proof.
  exact (proj1 (launcher_behaviour (str "/root") (str "rocksdb_pnm") 42 [str "--num=5"] (str "rocksdb_pnm")
    ltac:(intros Hin; repeat (apply elem_of_cons in Hin as [Hin|Hin]; [discriminate|]); by apply not_elem_of_nil in Hin)
    ltac:(done) ltac:(simpl; lia) ltac:(done))).
Defined.
