(* ===== verification/Float64.v ===== *)
(** * IEEE double precision, as the gem5 sources use it

    A [double] is Corelib's [spec_float] at precision 53; the arithmetic is
    IEEE round-to-nearest-even.  The lemmas show where the operations are exact:
    as long as the values are integers below [2^53]. *)
From Corelib Require Export SpecFloat.
From S2P Require Import Prelude.
Local Open Scope Z_scope.

Abbreviation double := spec_float.
Definition prec := 53.
Definition emax := 1024.

(** Conversion from an unsigned integer, [+], [*], and comparison with 0. *)
Definition of_u64 (z : Z) : double := binary_normalize prec emax z 0 false.
Definition dadd : double → double → double := SFadd prec emax.
Definition dmul : double → double → double := SFmul prec emax.
Definition dgt0 (x : double) : bool := SFltb (S754_zero false) x.

(** [static_cast<uint64_t>(x)]: truncation, undefined when the truncated value
    does not fit. *)
Definition trunc (m : positive) (e : Z) : Z := if 0 <=? e then Z.pos m * 2 ^ e else Z.pos m / 2 ^ (- e).
Definition to_u64 (x : double) : res Z :=
  match x with
  | S754_zero _ => Ok 0
  | S754_finite false m e => if trunc m e <? 2 ^ 64 then Ok (trunc m e) else Fail Undefined
  | S754_finite true m e => if trunc m e =? 0 then Ok 0 else Fail Undefined
  | _ => Fail Undefined
  end.
(** [static_cast<uint32_t>(x)] *)
Definition to_u32 (x : double) : res Z :=
  let* v := to_u64 x in if v <? 2 ^ 32 then Ok v else Fail Undefined.

(** ** Exact values

    [val m e v]: the float [m * 2^e] is the integer [v]. *)
Definition val (m e v : Z) : Prop := ∀ K, 0 ≤ K → 0 ≤ e + K → m * 2 ^ (e + K) = v * 2 ^ K.

Lemma val_of K m e v : 0 ≤ K → 0 ≤ e + K → m * 2 ^ (e + K) = v * 2 ^ K → val m e v.
Proof.
  intros HK Hs Heq K' HK' Hs'.
  assert (Hp : 2 ^ (e + K') * 2 ^ K = 2 ^ (e + K) * 2 ^ K')
    by (rewrite <-!Z.pow_add_r by lia; f_equal; lia).
  apply (Z.mul_reg_r _ _ (2 ^ K)); [lia|].
  rewrite <-Z.mul_assoc, Hp, Z.mul_assoc, Heq. lia.
Qed.

Lemma val_int v : val v 0 v.
Proof. apply (val_of 0); lia. Qed.

Lemma val_shift m e v d : 0 ≤ d → val (m * 2 ^ d) e v ↔ val m (e + d) v.
Proof.
  intros Hd. split; intros Hv; apply (val_of (Z.abs e)); try lia.
  - specialize (Hv (Z.abs e) ltac:(lia) ltac:(lia)). rewrite <-Hv, <-Z.mul_assoc, <-Z.pow_add_r by lia.
    f_equal. f_equal. lia.
  - rewrite <-(Hv (Z.abs e)), <-Z.mul_assoc, <-Z.pow_add_r by lia. f_equal. f_equal. lia.
Qed.

Lemma val_nonneg m e v : 0 ≤ e → val m e v ↔ v = m * 2 ^ e.
Proof.
  intros He. split; intros Hv.
  - specialize (Hv 0 ltac:(lia) ltac:(lia)). rewrite Z.add_0_r, Z.mul_1_r in Hv. done.
  - apply (val_of 0); [lia..|]. rewrite Z.add_0_r. lia.
Qed.

Lemma val_neg m e v : e < 0 → val m e v ↔ m = v * 2 ^ (- e).
Proof.
  intros He. split; intros Hv.
  - specialize (Hv (- e) ltac:(lia) ltac:(lia)). rewrite Z.add_opp_diag_r, Z.mul_1_r in Hv. done.
  - apply (val_of (- e)); [lia..|]. rewrite Z.add_opp_diag_r. lia.
Qed.

Lemma val_mul m e v m' e' v' : val m e v → val m' e' v' → val (m * m') (e + e') (v * v').
Proof.
  intros Hv Hv'. set (K := Z.abs e + Z.abs e'). apply (val_of (K + K)); [lia..|].
  replace (e + e' + (K + K)) with ((e + K) + (e' + K)) by lia.
  rewrite (Z.pow_add_r 2 (e + K)), (Z.pow_add_r 2 K) by lia.
  transitivity ((m * 2 ^ (e + K)) * (m' * 2 ^ (e' + K))); [lia|].
  rewrite Hv, Hv' by lia. lia.
Qed.

Lemma val_add m v m' v' e : val m e v → val m' e v' → val (m + m') e (v + v').
Proof. intros H H' K ??. rewrite !Z.mul_add_distr_r, H, H' by lia. done. Qed.

Lemma trunc_val m e v : val (Z.pos m) e v → trunc m e = v.
Proof.
  unfold trunc. destruct (0 <=? e) eqn:He; intros Hv.
  - apply val_nonneg in Hv; lia.
  - apply val_neg in Hv; [|lia]. rewrite Hv. apply Z.div_mul. lia.
Qed.

(** ** Rounding an exact value changes nothing *)
Lemma digits2_bounds p : 2 ^ (Z.pos (digits2_pos p) - 1) ≤ Z.pos p < 2 ^ Z.pos (digits2_pos p).
Proof.
  induction p as [p IH|p IH|]; simpl digits2_pos; [..|simpl; lia];
    rewrite Pos2Z.inj_succ; replace (Z.succ (Z.pos (digits2_pos p)) - 1) with (Z.succ (Z.pos (digits2_pos p) - 1)) by lia;
    rewrite !Z.pow_succ_r by lia; lia.
Qed.

Lemma digits2_shift p d : 0 ≤ d → ∀ q, Z.pos q = Z.pos p * 2 ^ d →
  Z.pos (digits2_pos q) = Z.pos (digits2_pos p) + d.
Proof.
  intros Hd q Hq. pose proof (digits2_bounds p) as [Hp1 Hp2]. pose proof (digits2_bounds q) as [Hq1 Hq2].
  rewrite Hq in *. set (a := Z.pos (digits2_pos p)) in *. set (b := Z.pos (digits2_pos q)) in *.
  assert (2 ^ (b - 1) < 2 ^ (a + d)) as H1%Z.pow_lt_mono_r_iff by (try lia; rewrite Z.pow_add_r by lia; nia).
  2,3: lia.
  assert (2 ^ (a - 1 + d) < 2 ^ b) as H2%Z.pow_lt_mono_r_iff by (try lia; rewrite Z.pow_add_r by lia; nia).
  2,3: lia. lia.
Qed.

(** Shifting out zero bits is exact. *)
Lemma shr_1_exact p : shr_1 (Build_shr_record (Z.pos p~0) false false) = Build_shr_record (Z.pos p) false false.
Proof. done. Qed.

Lemma pos_pow n p : Z.pos (p * 2 ^ n) = Z.pos p * 2 ^ Z.pos n.
Proof. by rewrite Pos2Z.inj_mul, Pos2Z.inj_pow. Qed.
Lemma pow_xO n : 2 ^ Z.pos n~0 = 2 ^ Z.pos n * 2 ^ Z.pos n.
Proof. rewrite Pos2Z.inj_xO, <-Z.pow_add_r by lia. f_equal. lia. Qed.
Lemma pow_xI n : 2 ^ Z.pos n~1 = 2 * (2 ^ Z.pos n * 2 ^ Z.pos n).
Proof. rewrite Pos2Z.inj_xI, <-Z.pow_add_r, <-Z.pow_succ_r by lia. f_equal. lia. Qed.

Lemma iter_shr_exact n p q :
  Z.pos q = Z.pos p * 2 ^ Z.pos n →
  SpecFloat.iter_pos shr_1 n (Build_shr_record (Z.pos q) false false) = Build_shr_record (Z.pos p) false false.
Proof.
  revert p q. induction n as [n IH|n IH|]; intros p q Hq; cbn [SpecFloat.iter_pos].
  - rewrite pow_xI in Hq. set (r := (p * 2 ^ n * 2 ^ n)%positive).
    assert (q = r~0)%positive as -> by (apply Pos2Z.inj; rewrite Pos2Z.inj_xO; unfold r; rewrite !pos_pow; lia).
    rewrite shr_1_exact, (IH (p * 2 ^ n)%positive), (IH p); [done|apply pos_pow|apply pos_pow].
  - rewrite pow_xO in Hq.
    rewrite (IH (p * 2 ^ n)%positive), (IH p); [done|apply pos_pow|rewrite pos_pow; lia].
  - replace q with (p~0)%positive by lia. done.
Qed.

Lemma fexp_small d e : 0 < d + e ≤ 53 → fexp prec emax (d + e) - e = d - 53.
Proof. unfold fexp, SpecFloat.emin, prec, emax. lia. Qed.

Lemma digits_val m e v b :
  val (Z.pos m) e v → 0 ≤ b → 0 < v < 2 ^ b → 0 < Z.pos (digits2_pos m) + e ≤ b.
Proof.
  intros Hv Hb0 Hr. specialize (Hv (Z.abs e) ltac:(lia) ltac:(lia)). pose proof (digits2_bounds m) as [H1 H2].
  assert (Hd : 0 < Z.pos (digits2_pos m)) by lia.
  set (d := Z.pos (digits2_pos m)) in *. set (K := Z.abs e) in *.
  assert (0 < 2 ^ (e + K)) by (apply Z.pow_pos_nonneg; lia).
  assert (0 < 2 ^ K) by (apply Z.pow_pos_nonneg; lia).
  assert (2 ^ K < 2 ^ (d + (e + K))) as ?%Z.pow_lt_mono_r_iff; [| |lia|lia].
  { rewrite (Z.pow_add_r 2 d) by lia. apply Z.le_lt_trans with (v * 2 ^ K);
      [rewrite <-(Z.mul_1_l (2 ^ K)) at 1; apply Z.mul_le_mono_nonneg_r; lia|].
    rewrite <-Hv. apply Z.mul_lt_mono_pos_r; lia. }
  assert (2 ^ (d - 1 + (e + K)) < 2 ^ (b + K)) as ?%Z.pow_lt_mono_r_iff; [|lia..].
  rewrite (Z.pow_add_r 2 (d - 1)), (Z.pow_add_r 2 b) by lia. apply Z.le_lt_trans with (v * 2 ^ K).
  - rewrite <-Hv. apply Z.mul_le_mono_nonneg_r; lia.
  - apply Z.mul_lt_mono_pos_r; lia.
Qed.

(** One shift to 53 bits keeps an exact value. *)
Lemma shr_fexp_exact m e v :
  val (Z.pos m) e v → 0 < v < 2 ^ 53 →
  ∃ m' e', shr_fexp prec emax (Z.pos m) e loc_Exact = (Build_shr_record (Z.pos m') false false, e') ∧
    val (Z.pos m') e' v ∧ e' ≤ 53.
Proof.
  intros Hv Hr. pose proof (digits_val _ _ _ 53 Hv ltac:(lia) Hr) as Hd. unfold shr_fexp. cbn [Zdigits2 shr_record_of_loc].
  rewrite fexp_small by done. unfold shr. destruct (Z.pos (digits2_pos m) - 53) as [|n|n] eqn:En.
  1,3: exists m, e; split_and!; [done..|lia].
  assert (He : e < 0) by lia. pose proof Hv as Hm. apply val_neg in Hm; [|done].
  assert (Hn : - e = (- e - Z.pos n) + Z.pos n) by lia.
  rewrite Hn, Z.pow_add_r, Z.mul_assoc in Hm by lia.
  destruct (v * 2 ^ (- e - Z.pos n)) as [|p|p] eqn:Ep; [lia| |lia].
  exists p, (e + Z.pos n). rewrite (iter_shr_exact n p) by done. split_and!; [done| |lia].
  apply val_shift; [lia|]. by rewrite <-Hm.
Qed.

Lemma round_aux_exact s m e v :
  val (Z.pos m) e v → 0 < v < 2 ^ 53 →
  ∃ m' e', binary_round_aux prec emax s (Z.pos m) e loc_Exact = S754_finite s m' e' ∧ val (Z.pos m') e' v.
Proof.
  intros Hv Hr. unfold binary_round_aux.
  destruct (shr_fexp_exact _ _ _ Hv Hr) as (m1 & e1 & -> & Hv1 & _). simpl loc_of_shr_record. cbn [round_nearest_even shr_m].
  destruct (shr_fexp_exact _ _ _ Hv1 Hr) as (m2 & e2 & -> & Hv2 & He). cbn [shr_m].
  exists m2, e2. by rewrite (proj2 (Z.leb_le _ _)) by (unfold emax, prec; lia).
Qed.

Lemma pos_shift m d : Z.pos (Pos.iter xO m d) = Z.pos m * 2 ^ Z.pos d.
Proof.
  induction d as [|d IH] using Pos.peano_ind; [simpl; lia|].
  rewrite Pos.iter_succ, Pos2Z.inj_xO, IH, Pos2Z.inj_succ, Z.pow_succ_r by lia. lia.
Qed.

Lemma shl_align_min m e e' : e' ≤ e → snd (shl_align m e e') = e'.
Proof. unfold shl_align. destruct (e' - e) eqn:E; simpl; lia. Qed.

Lemma shl_align_val m e e' v : val (Z.pos m) e v →
  val (Z.pos (fst (shl_align m e e'))) (snd (shl_align m e e')) v.
Proof.
  unfold shl_align. destruct (e' - e) as [|d|d] eqn:E; simpl; try done. intros Hv.
  replace e with (e' + Z.pos d) in Hv by lia. apply val_shift in Hv; [|lia].
  replace (Z.pos (Pos.iter xO m d)) with (Z.pos m * 2 ^ Z.pos d); [done|].
  by rewrite pos_shift.
Qed.

Lemma round_exact s m e v :
  val (Z.pos m) e v → 0 < v < 2 ^ 53 →
  ∃ m' e', binary_round prec emax s m e = S754_finite s m' e' ∧ val (Z.pos m') e' v.
Proof.
  intros Hv Hr. unfold binary_round. pose proof (shl_align_val m e (fexp prec emax (Z.pos (digits2_pos m) + e)) v Hv) as Hv'.
  destruct (shl_align m e _) as [mz ez]. by apply round_aux_exact.
Qed.

(** ** Integers below [2^53] *)
Definition is_int (x : double) (v : Z) : Prop :=
  match x with
  | S754_zero false => v = 0
  | S754_finite false m e => val (Z.pos m) e v
  | _ => False
  end.

Lemma is_int_to_u64 x v : is_int x v → v < 2 ^ 64 → to_u64 x = Ok v.
Proof.
  destruct x as [[]| | |[] m e]; simpl; try done; [congruence|].
  intros ->%trunc_val Hlt. by rewrite (proj2 (Z.ltb_lt _ _)).
Qed.

Lemma is_int_to_u32 x v : is_int x v → v < 2 ^ 32 → to_u32 x = Ok v.
Proof.
  intros Hx Hv. unfold to_u32. rewrite (is_int_to_u64 x v) by (done || lia). simpl.
  by rewrite (proj2 (Z.ltb_lt _ _)).
Qed.

Lemma val_pos m e v : val (Z.pos m) e v → 0 < v.
Proof.
  intros Hv. specialize (Hv (Z.abs e) ltac:(lia) ltac:(lia)).
  assert (0 < 2 ^ (e + Z.abs e)) by (apply Z.pow_pos_nonneg; lia).
  assert (0 < 2 ^ Z.abs e) by (apply Z.pow_pos_nonneg; lia). nia.
Qed.

Lemma is_int_nonneg x v : is_int x v → 0 ≤ v.
Proof. destruct x as [[]| | |[] m e]; simpl; try done; [lia|]. intros ?%val_pos. lia. Qed.

Lemma is_int_gt0 x v : is_int x v → dgt0 x = (0 <? v).
Proof.
  destruct x as [[]| | |[] m e]; simpl; try done; [by intros ->|].
  intros Hp%val_pos. by rewrite (proj2 (Z.ltb_lt _ _)).
Qed.

Lemma of_u64_exact v : 0 ≤ v < 2 ^ 53 → is_int (of_u64 v) v.
Proof.
  intros Hv. destruct v as [|p|p]; [done| |lia].
  destruct (round_exact false p 0 (Z.pos p) (val_int _)) as (m & e & Heq & Hval); [lia|].
  unfold of_u64, binary_normalize. by rewrite Heq.
Qed.

Lemma dadd_exact x y a b : is_int x a → is_int y b → a + b < 2 ^ 53 → is_int (dadd x y) (a + b).
Proof.
  destruct x as [[]| | |[] m e]; simpl; try done; destruct y as [[]| | |[] m' e']; simpl; try done.
  - by intros -> ->.
  - by intros -> Hb.
  - intros Ha ->. by rewrite Z.add_0_r.
  - intros Ha Hb Hr. pose proof (val_pos _ _ _ Ha). pose proof (val_pos _ _ _ Hb).
    pose proof (shl_align_val m e (e `min` e') a Ha) as Ha'. pose proof (shl_align_val m' e' (e `min` e') b Hb) as Hb'.
    rewrite shl_align_min in Ha' by lia. rewrite shl_align_min in Hb' by lia.
    destruct (round_exact false (fst (shl_align m e (e `min` e')) + fst (shl_align m' e' (e `min` e'))) (e `min` e') (a + b))
      as (m1 & e1 & Heq & Hv1); [exact (val_add _ _ _ _ _ Ha' Hb')|lia|].
    by rewrite Heq.
Qed.

Lemma dmul_exact x y a b : is_int x a → is_int y b → a * b < 2 ^ 53 → is_int (dmul x y) (a * b).
Proof.
  destruct x as [[]| | |[] m e]; simpl; try done; destruct y as [[]| | |[] m' e']; simpl; try done.
  - by intros -> ->.
  - by intros -> Hb.
  - intros Ha ->. by rewrite Z.mul_0_r.
  - intros Ha Hb Hr. pose proof (val_pos _ _ _ Ha). pose proof (val_pos _ _ _ Hb).
    destruct (round_aux_exact false (m * m') (e + e') (a * b)) as (m1 & e1 & Heq & Hv1);
      [exact (val_mul _ _ _ _ _ _ Ha Hb)|nia|].
    by rewrite Heq.
Qed.

(** ** Rounding in general

    For a product that is not an integer the result is within one unit of the
    exact value, as long as that is below [2^53]. *)
Lemma shr_1_floor p r s : 0 ≤ shr_m (shr_1 (Build_shr_record (Z.pos p) r s)) ∧
  shr_m (shr_1 (Build_shr_record (Z.pos p) r s)) = Z.pos p / 2.
Proof.
  assert (shr_m (shr_1 (Build_shr_record (Z.pos p) r s)) = Z.pos p / 2) as ->.
  { destruct p as [p|p|]; simpl; [| |done].
    - apply Z.div_unique with 1; lia.
    - apply Z.div_unique with 0; lia. }
  split; [apply Z.div_pos; lia|done].
Qed.

Lemma shr_1_floor' mrs : 0 ≤ shr_m mrs → shr_m (shr_1 mrs) = shr_m mrs / 2.
Proof.
  destruct mrs as [[|p|p] r s]; intros Hm; [done|apply shr_1_floor|done].
Qed.

Lemma iter_shr_floor n mrs : 0 ≤ shr_m mrs →
  shr_m (SpecFloat.iter_pos shr_1 n mrs) = shr_m mrs / 2 ^ Z.pos n.
Proof.
  revert mrs. induction n as [n IH|n IH|]; intros mrs Hm; cbn [SpecFloat.iter_pos].
  - assert (0 ≤ shr_m (shr_1 mrs)) by (rewrite shr_1_floor' by done; apply Z.div_pos; lia).
    assert (0 < 2 ^ Z.pos n) by (apply Z.pow_pos_nonneg; lia).
    rewrite IH, (IH (shr_1 mrs)), shr_1_floor', pow_xI by (done || rewrite IH by done; apply Z.div_pos; lia).
    by rewrite <-(Z.div_div _ 2), <-(Z.div_div _ (2 ^ Z.pos n)) by lia.
  - assert (0 < 2 ^ Z.pos n) by (apply Z.pow_pos_nonneg; lia).
    rewrite IH, IH, pow_xO, Z.div_div; try lia. rewrite IH by done. apply Z.div_pos; lia.
  - by rewrite shr_1_floor'.
Qed.

Lemma round_up_or_down m l : m ≤ round_nearest_even m l ≤ m + 1.
Proof. destruct l as [|[]]; simpl; try destruct (Z.even m); lia. Qed.

Lemma digits2_unique p d : 0 < d → 2 ^ (d - 1) ≤ Z.pos p < 2 ^ d → Z.pos (digits2_pos p) = d.
Proof.
  intros Hd Hp. pose proof (digits2_bounds p) as Hb.
  assert (2 ^ (d - 1) < 2 ^ Z.pos (digits2_pos p)) as ?%Z.pow_lt_mono_r_iff; [lia| |lia|lia].
  assert (2 ^ (Z.pos (digits2_pos p) - 1) < 2 ^ d) as ?%Z.pow_lt_mono_r_iff; [lia| |lia|lia].
  lia.
Qed.

Lemma trunc_neg m e : e ≤ 0 → trunc m e = Z.pos m / 2 ^ (- e).
Proof.
  intros He. unfold trunc. destruct (Z.leb_spec 0 e); [|done].
  replace e with 0 by lia. by rewrite Z.mul_1_r, Z.div_1_r.
Qed.

Lemma fexp_range d e : -1000 < d + e → fexp prec emax (d + e) - e = d - 53.
Proof. unfold fexp, SpecFloat.emin, prec, emax. lia. Qed.

(** Normalising after the rounding step, which may have carried to [2^53]. *)
Lemma renorm m e : 2 ^ 52 ≤ Z.pos m ≤ 2 ^ 53 → -1050 < e ≤ 0 →
  ∃ m' e', shr_fexp prec emax (Z.pos m) e loc_Exact = (Build_shr_record (Z.pos m') false false, e') ∧
    e' ≤ 1 ∧ trunc m' e' = Z.pos m / 2 ^ (- e).
Proof.
  intros Hm He. unfold shr_fexp. cbn [Zdigits2 shr_record_of_loc].
  destruct (decide (Z.pos m = 2 ^ 53)) as [->%(Pos2Z.inj m (2 ^ 53))|Hne].
  - change (Z.pos (digits2_pos (2 ^ 53))) with 54. rewrite fexp_range by lia. exists (2 ^ 52)%positive, (e + 1).
    split_and!; [|lia|].
    + done.
    + destruct (decide (e = 0)) as [->|]; [done|]. rewrite trunc_neg by lia.
      replace (- e) with (- (e + 1) + 1) by lia. rewrite Z.pow_add_r by lia.
      assert (0 < 2 ^ (- (e + 1))) by (apply Z.pow_pos_nonneg; lia).
      change (Z.pos (2 ^ 53)) with (Z.pos (2 ^ 52) * 2 ^ 1). by rewrite Z.div_mul_cancel_r by lia.
  - rewrite (digits2_unique m 53) by lia. rewrite fexp_range by lia. exists m, e.
    split_and!; [done|lia|apply trunc_neg; lia].
Qed.

(** [m * 2^-g] is within one unit of [M * 2^-(g + n)]; so is its integer part. *)
Lemma near_value M E f N m n :
  val M (E + f) N → 0 ≤ f → 0 ≤ n → E + n ≤ 0 → (m - 1) * 2 ^ n ≤ M < (m + 1) * 2 ^ n →
  (m / 2 ^ (- (E + n)) - 1) * 2 ^ f ≤ N < (m / 2 ^ (- (E + n)) + 1) * 2 ^ f.
Proof.
  intros Hv Hf Hn Hg HM. set (g := - (E + n)) in *. assert (Hg0 : 0 ≤ g) by lia.
  assert (Hgp : 0 < 2 ^ g) by (apply Z.pow_pos_nonneg; lia).
  pose proof (Z.div_mod m (2 ^ g) ltac:(lia)) as Hdm. pose proof (Z.mod_pos_bound m (2 ^ g) Hgp) as Hmb.
  set (t := m / 2 ^ g) in *. set (K := Z.abs E + g).
  specialize (Hv K ltac:(lia) ltac:(lia)). set (h := f + K - g). assert (Hh : 0 ≤ h) by lia.
  assert (Hhp : 0 < 2 ^ h) by (apply Z.pow_pos_nonneg; lia).
  assert (HKp : 0 < 2 ^ K) by (apply Z.pow_pos_nonneg; lia).
  assert (E1 : 2 ^ n * 2 ^ (E + f + K) = 2 ^ h) by (rewrite <-Z.pow_add_r by lia; f_equal; lia).
  assert (E2 : 2 ^ g * 2 ^ h = 2 ^ f * 2 ^ K) by (rewrite <-!Z.pow_add_r by lia; f_equal; lia).
  assert (Hep : 0 < 2 ^ (E + f + K)) by (apply Z.pow_pos_nonneg; lia).
  assert (HM' : (m - 1) * 2 ^ h ≤ N * 2 ^ K < (m + 1) * 2 ^ h).
  { rewrite <-Hv, <-E1, !Z.mul_assoc. split; [apply Z.mul_le_mono_nonneg_r|apply Z.mul_lt_mono_pos_r]; lia. }
  split.
  - apply (Z.mul_le_mono_pos_r _ _ (2 ^ K)); [done|]. rewrite <-Z.mul_assoc, <-E2. nia.
  - apply (Z.mul_lt_mono_pos_r (2 ^ K)); [done|]. rewrite <-Z.mul_assoc, <-E2. nia.
Qed.

Lemma round_aux_near M E f N :
  val (Z.pos M) (E + f) N → 0 ≤ f ≤ 900 → 0 < N < 2 ^ (53 + f) →
  ∃ m e, binary_round_aux prec emax false (Z.pos M) E loc_Exact = S754_finite false m e ∧
    (trunc m e - 1) * 2 ^ f ≤ N < (trunc m e + 1) * 2 ^ f.
Proof.
  intros Hv Hf HN. pose proof (digits_val _ _ _ (53 + f) Hv ltac:(lia) HN) as Hd.
  unfold binary_round_aux, shr_fexp at 1. cbn [Zdigits2 shr_record_of_loc]. rewrite fexp_range by lia.
  pose proof (digits2_bounds M) as HM. set (d := Z.pos (digits2_pos M)) in *.
  destruct (decide (d ≤ 53)) as [Hle|Hgt].
  - replace (shr _ E (d - 53)) with (Build_shr_record (Z.pos M) false false, E)
      by (unfold shr; destruct (d - 53) eqn:En; [done|lia|done]).
    cbn [loc_of_shr_record round_nearest_even shr_m]. unfold shr_fexp. cbn [Zdigits2 shr_record_of_loc].
    fold d. rewrite fexp_range by lia.
    replace (shr _ E (d - 53)) with (Build_shr_record (Z.pos M) false false, E)
      by (unfold shr; destruct (d - 53) eqn:En; [done|lia|done]).
    cbn [shr_m]. rewrite (proj2 (Z.leb_le _ _)) by (unfold emax, prec; lia). exists M, E. split; [done|].
    destruct (decide (E ≤ 0)) as [HE|HE].
    + rewrite trunc_neg by done. replace (- E) with (- (E + 0)) by lia.
      apply (near_value (Z.pos M)); try done; lia.
    + apply val_nonneg in Hv; [|lia]. unfold trunc. rewrite (proj2 (Z.leb_le _ _)) by lia.
      rewrite Z.pow_add_r in Hv by lia. assert (0 < 2 ^ f) by (apply Z.pow_pos_nonneg; lia). lia.
  - destruct (d - 53) as [|n|n] eqn:En; [lia| |lia]. cbn [shr].
    set (mrs := SpecFloat.iter_pos shr_1 n _).
    assert (Hmrs : shr_m mrs = Z.pos M / 2 ^ Z.pos n) by (unfold mrs; by rewrite iter_shr_floor).
    set (m2 := round_nearest_even (shr_m mrs) (loc_of_shr_record mrs)).
    pose proof (round_up_or_down (shr_m mrs) (loc_of_shr_record mrs)) as Hru. fold m2 in Hru.
    assert (Hnp : 0 < 2 ^ Z.pos n) by (apply Z.pow_pos_nonneg; lia).
    assert (H52 : 2 ^ 52 ≤ shr_m mrs < 2 ^ 53).
    { rewrite Hmrs. split; [apply Z.div_le_lower_bound|apply Z.div_lt_upper_bound]; try lia;
        rewrite Z.mul_comm, <-Z.pow_add_r by lia; [replace (52 + Z.pos n) with (d - 1) by lia|replace (53 + Z.pos n) with d by lia]; lia. }
    pose proof (Z.div_mod (Z.pos M) (2 ^ Z.pos n) ltac:(lia)) as Hdm.
    pose proof (Z.mod_pos_bound (Z.pos M) (2 ^ Z.pos n) Hnp) as Hmb. rewrite <-Hmrs in Hdm.
    destruct m2 as [|p2|p2] eqn:Em2; [lia| |lia].
    destruct (renorm p2 (E + Z.pos n)) as (m' & e' & -> & He' & Ht); [lia..|].
    cbn [shr_m]. rewrite (proj2 (Z.leb_le _ _)) by (unfold emax, prec; lia). exists m', e'. split; [done|].
    rewrite Ht. apply (near_value (Z.pos M) E f N (Z.pos p2) (Z.pos n)); try done; [lia..|nia].
Qed.

(** The integer part of a product of an integer and a positive double: less
    than one below and at most one above the exact product. *)
Lemma dmul_near x a m f :
  is_int x a → 0 < a → 0 ≤ f ≤ 900 → a * Z.pos m < 2 ^ (53 + f) →
  ∃ v, to_u64 (dmul x (S754_finite false m (- f))) = Ok v ∧
    (v - 1) * 2 ^ f ≤ a * Z.pos m < (v + 1) * 2 ^ f.
Proof.
  destruct x as [[]| | |[] mx ex]; simpl; try done; [lia|]. intros Hx Ha Hf Hlt.
  destruct (round_aux_near (mx * m) (ex + - f) f (a * Z.pos m)) as (m' & e' & -> & Hb); [| |nia|].
  - rewrite Pos2Z.inj_mul. replace (ex + - f + f) with (ex + 0) by lia. apply val_mul; [done|apply val_int].
  - lia.
  - simpl. assert (0 < 2 ^ f) by (apply Z.pow_pos_nonneg; lia). rewrite Z.pow_add_r in Hlt by lia.
    assert (trunc m' e' < 2 ^ 64) by nia. rewrite (proj2 (Z.ltb_lt _ _)) by done. eauto.
Qed.
