(* ===== verification/EventMgr.v ===== *)
(** * What the event queue promises to the simulated devices

    A gem5 device owns [Event] objects and schedules them through
    [EventManager].  [EventManagerOps] is that interface, [EventManagerLaws] what
    a device may rely on: which events are pending and when they fire.  The
    event queue implements it ([queue_manager_laws]), so a theorem proved
    against the laws holds for a device on the real queue. *)
From S2P Require Import Prelude EventQ EventQThm.
Local Open Scope Z_scope.

Class EventManagerOps (Q E : Type) := {
  em_curTick : Q → Z;
  em_schedule : Q → E → Z → res Q;
  em_deschedule : Q → E → res Q;
  em_scheduled : Q → E → res bool;
  em_next : Q → res (E * Q) }.

(** [em_when q e]: the tick at which [e] is due, if it is pending.  [em_live]:
    the event exists and nobody else frees or squashes it. *)
Class EventManagerLaws (Q E : Type) `{EventManagerOps Q E} := {
  em_ok : Q → Prop;
  em_live : Q → E → Prop;
  em_when : Q → E → option Z;
  em_tick_range q : em_ok q → in_u 64 (em_curTick q);
  em_scheduled_law q e : em_ok q → em_live q e →
    em_scheduled q e = Ok (bool_decide (is_Some (em_when q e)));
  em_schedule_law q e t : em_ok q → em_live q e → em_when q e = None →
    em_curTick q ≤ t < 2 ^ 64 →
    ∃ q', em_schedule q e t = Ok q' ∧ em_ok q' ∧ em_curTick q' = em_curTick q ∧
      em_when q' e = Some t ∧ (∀ x, x ≠ e → em_when q' x = em_when q x) ∧
      (∀ x, em_live q x → em_live q' x);
  em_schedule_past q e t : t < em_curTick q → em_schedule q e t = Fail AssertFail;
  em_deschedule_law q e t : em_ok q → em_live q e → em_when q e = Some t →
    ∃ q', em_deschedule q e = Ok q' ∧ em_ok q' ∧ em_curTick q' = em_curTick q ∧
      em_when q' e = None ∧ (∀ x, x ≠ e → em_when q' x = em_when q x) ∧
      (∀ x, em_live q x → em_live q' x);
  em_next_law q : em_ok q →
    ((∀ e, em_when q e = None) ∧ em_next q = Fail BadPointer) ∨
    ∃ e q', em_next q = Ok (e, q') ∧ em_ok q' ∧ em_when q e = Some (em_curTick q') ∧
      (∀ x t, em_when q x = Some t → em_curTick q' ≤ t) ∧
      em_when q' e = None ∧ (∀ x, x ≠ e → em_when q' x = em_when q x) ∧
      (∀ x, em_live q x → em_live q' x) }.

(** ** The event queue as an event manager; [m] says which thread runs. *)
Section queue.
Context (m : Mode).

Definition EventManager_schedule (q : EventQueue) (event : eid) (when : Z) : res EventQueue :=
  schedule m q event when false.
Definition EventManager_deschedule (q : EventQueue) (event : eid) : res EventQueue :=
  deschedule m q event.
Definition event_scheduled (q : EventQueue) (event : eid) : res bool :=
  let* ev := q_event event q in Ok (scheduled ev).
(** The first half of [serviceOne]: take the head and advance to its time. *)
Definition next_event (q : EventQueue) : res (eid * EventQueue) :=
  let* (event, q) := pop_head q in
  let* ev := q_event event q in
  Ok (event, setCurTick (ev_when ev) q).

#[export] Instance queue_manager : EventManagerOps EventQueue eid := {|
  em_curTick := q_curTick;
  em_schedule := EventManager_schedule;
  em_deschedule := EventManager_deschedule;
  em_scheduled := event_scheduled;
  em_next := next_event |}.

Definition due_at (q : EventQueue) (e : eid) : option Z :=
  match q_store q !! e with
  | Some ev => if scheduled ev then Some (ev_when ev) else None
  | None => None
  end.

Definition owned (q : EventQueue) (e : eid) : Prop :=
  ∃ ev, q_store q !! e = Some ev ∧ isManaged ev = false ∧ squashed ev = false.

Definition manager_ok (q : EventQueue) : Prop :=
  (∃ l, inv q l) ∧ own_mode m q ∧ in_u 64 (q_curTick q) ∧
  (∀ e t, due_at q e = Some t → t < 2 ^ 64).

Lemma due_at_dlook q e :
  due_at q e = match dlook q e with
               | Some d => if flags_isSet d.1.2 Scheduled then Some d.1.1.1 else None
               | None => None
               end.
Proof. unfold due_at, dlook, scheduled. by destruct (q_store q !! e). Qed.

Lemma due_at_frame q q' x : dlook q' x = dlook q x → due_at q' x = due_at q x.
Proof. intros E. by rewrite !due_at_dlook, E. Qed.

Lemma owned_dlook q e :
  owned q e ↔ ∃ d, dlook q e = Some d ∧ flags_isSet d.1.2 Managed = false ∧ flags_isSet d.1.2 Squashed = false.
Proof.
  unfold owned, isManaged, squashed. split.
  - intros (ev & He & H1 & H2). exists (data ev). split; [|done]. unfold dlook. by rewrite He.
  - intros (d & (ev & He & <-)%dlook_Some & H1 & H2). eauto.
Qed.

Lemma owned_step q q' e :
  (∀ x, x ≠ e → dlook q' x = dlook q x) → (owned q e → owned q' e) → ∀ x, owned q x → owned q' x.
Proof.
  intros Hoth He x Hx. destruct (decide (x = e)) as [->|Hne]; [auto|].
  rewrite owned_dlook in *. by rewrite Hoth.
Qed.

Lemma manager_ok_step q q' e l' :
  manager_ok q → inv q' l' → q_self q' = q_self q → in_u 64 (q_curTick q') →
  (∀ x, x ≠ e → dlook q' x = dlook q x) → (∀ t, due_at q' e = Some t → t < 2 ^ 64) →
  manager_ok q'.
Proof.
  intros (_ & Hm & _ & Hd) Hi Hself Ht Hoth He. split_and!; [eauto| |lia..|].
  - unfold own_mode in *. by rewrite Hself.
  - intros x t Hx. destruct (decide (x = e)) as [->|Hne]; [eauto|].
    rewrite (due_at_frame q) in Hx by auto. eauto.
Qed.

Lemma manager_schedule q e t :
  manager_ok q → owned q e → due_at q e = None → q_curTick q ≤ t < 2 ^ 64 →
  ∃ q', EventManager_schedule q e t = Ok q' ∧ manager_ok q' ∧ q_curTick q' = q_curTick q ∧
    due_at q' e = Some t ∧ (∀ x, x ≠ e → due_at q' x = due_at q x) ∧ (∀ x, owned q x → owned q' x).
Proof.
  intros Hok (ev & He & Hma & Hsq) Hd Ht. pose proof Hok as ((l & Hi) & Hm & Hr & Hp).
  unfold due_at in Hd. rewrite He in Hd. destruct (scheduled ev) eqn:Hs; [done|].
  destruct (inv_schedule m q l e ev t false Hi He Hs) as (q' & Hq & Hi' & Hde & Hoth & Hct & Hself);
    [lia|destruct Hm; [by left|by right]|].
  assert (Hdue : due_at q' e = Some t).
  { rewrite due_at_dlook, Hde. simpl. by rewrite flags_set_same. }
  exists q'. split_and!; try done.
  - eapply manager_ok_step; try done; [by rewrite Hct|]. intros t'. rewrite Hdue. intros [= <-]. lia.
  - intros x Hx. by apply due_at_frame, Hoth.
  - apply (owned_step q q' e Hoth). intros _. apply owned_dlook. eexists. split; [done|]. simpl.
    by rewrite !isSet_set_other.
Qed.

Lemma manager_deschedule q e t :
  manager_ok q → owned q e → due_at q e = Some t →
  ∃ q', EventManager_deschedule q e = Ok q' ∧ manager_ok q' ∧ q_curTick q' = q_curTick q ∧
    due_at q' e = None ∧ (∀ x, x ≠ e → due_at q' x = due_at q x) ∧ (∀ x, owned q x → owned q' x).
Proof.
  intros Hok (ev & He & Hma & Hsq) Hd. pose proof Hok as ((l & Hi) & Hm & Hr & Hp).
  unfold due_at in Hd. rewrite He in Hd. destruct (scheduled ev) eqn:Hs; [|done].
  destruct (inv_deschedule m q l e ev Hi) as (q' & Hq & Hi' & Hde & Hoth & Hct & Hself);
    [by eapply inv_scheduled_queued|done|done|].
  unfold released in Hde. rewrite !isSet_clear_other in Hde by done.
  unfold isManaged in Hma. rewrite Hma in Hde. simpl in Hde.
  assert (Hdue : due_at q' e = None).
  { rewrite due_at_dlook, Hde. simpl. by rewrite flags_clear_same. }
  exists q'. split_and!; try done.
  - eapply manager_ok_step; try done; [by rewrite Hct|]. intros t'. by rewrite Hdue.
  - intros x Hx. by apply due_at_frame, Hoth.
  - apply (owned_step q q' e Hoth). intros _. apply owned_dlook. eexists. split; [done|]. simpl.
    split; [by rewrite !isSet_clear_other|]. rewrite isSet_clear_other by done. apply flags_clear_same.
Qed.

Lemma pending_queued q l e t : inv q l → due_at q e = Some t →
  e ∈ l ∧ ∃ ev, q_store q !! e = Some ev ∧ scheduled ev = true ∧ ev_when ev = t.
Proof.
  unfold due_at. intros Hi He. destruct (q_store q !! e) as [ev|] eqn:Hev; [|done].
  destruct (scheduled ev) eqn:Hs; [|done]. injection He as <-. split; [by eapply inv_scheduled_queued|eauto].
Qed.

Lemma manager_next q : manager_ok q →
  ((∀ e, due_at q e = None) ∧ next_event q = Fail BadPointer) ∨
  ∃ e q', next_event q = Ok (e, q') ∧ manager_ok q' ∧ due_at q e = Some (q_curTick q') ∧
    (∀ x t, due_at q x = Some t → q_curTick q' ≤ t) ∧
    due_at q' e = None ∧ (∀ x, x ≠ e → due_at q' x = due_at q x) ∧ (∀ x, owned q x → owned q' x).
Proof.
  intros Hok. pose proof Hok as (([|e l] & Hi) & Hm & Hr & Hp).
  { left. split.
    - intros e. destruct (due_at q e) eqn:E; [|done].
      apply (pending_queued _ _ _ _ Hi) in E as [? _]. set_solver.
    - pose proof (inv_head _ _ Hi) as Hh. unfold next_event, pop_head. by rewrite Hh. }
  right. destruct (wf_live _ _ (inv_wf _ _ Hi) e) as (ev & He & Hs & _); [set_solver|].
  assert (Hdue : due_at q e = Some (ev_when ev)) by (unfold due_at; by rewrite He, Hs).
  destruct (inv_pop q e l ev Hi He) as (q' & Hpop & Hi' & Hct & Hde & Hoth & Hself).
  exists e, (setCurTick (ev_when ev) q'). split_and!.
  - unfold next_event. rewrite Hpop. simpl. apply dlook_Some in Hde as (ev' & He' & Hd').
    unfold q_event. rewrite He'. simpl. injection Hd' as -> _ _ _. done.
  - eapply (manager_ok_step q _ e); try done; simpl; [pose proof (Hp _ _ Hdue); lia|].
    intros t. rewrite due_at_dlook. unfold dlook in *. simpl. rewrite Hde. simpl. by rewrite flags_clear_same.
  - done.
  - intros x t (Hin & xv & Hx & _ & <-)%(pending_queued _ _ _ _ Hi).
    pose proof (wf_in_order _ _ (inv_wf _ _ Hi)) as [Ho _]%StronglySorted_cons.
    rewrite Forall_forall in Ho. apply elem_of_cons in Hin as [->|Hin]; [simplify_eq/=; lia|].
    specialize (Ho x Hin). rewrite (key_of _ _ _ He), (key_of _ _ _ Hx) in Ho.
    unfold kle, klt, ekey in Ho. simpl in *. lia.
  - rewrite due_at_dlook. unfold dlook in *. simpl. rewrite Hde. simpl. by rewrite flags_clear_same.
  - intros x Hx. by apply due_at_frame, Hoth.
  - apply (owned_step q _ e Hoth). rewrite !owned_dlook. intros (d & Hd & H1 & H2).
    eexists. split; [exact Hde|]. simpl. rewrite !isSet_clear_other by done.
    unfold dlook in Hd. rewrite He in Hd. by injection Hd as <-.
Qed.

#[export] Instance queue_manager_laws : EventManagerLaws EventQueue eid.
Proof.
  refine {| em_ok := manager_ok; em_live := owned; em_when := due_at |}; cbn.
  - intros q (_ & _ & H & _). exact H.
  - intros q e _ (ev & He & _). unfold event_scheduled, q_event, due_at. rewrite He. simpl.
    by destruct (scheduled ev).
  - exact manager_schedule.
  - intros q e t Ht. unfold EventManager_schedule, schedule. by rewrite (proj2 (Z.leb_gt _ _)) by lia.
  - exact manager_deschedule.
  - exact manager_next.
Defined.
End queue.
