(* ===== verification/Drain.v ===== *)
(** * Draining the simulator (gem5 [sim/drain.hh], [sim/drain.cc])

    The drain manager asks every object to drain, counts those that need more
    simulation, and leaves the simulation loop when the last of them signals.
    Objects are names; their [_drainState] is kept in the manager's record.  The
    virtual methods [drain] and [drainResume] are parameters: they may use the
    manager and change the rest [W] of the machine. *)
From S2P Require Import Prelude.
Local Open Scope Z_scope.

Inductive DrainState := Running | Draining | Drained | Resuming.
#[global] Instance DrainState_eq_dec : EqDecision DrainState.
Proof. solve_decision. Defined.

Definition oid := positive.

(** [dm_exits] counts the calls of [exitSimLoop("Finished drain")]. *)
Record DrainManager := mkDrainManager {
  dm_all : list oid;
  dm_count : Z;
  dm_state : DrainState;
  dm_obj : gmap oid DrainState;
  dm_exits : nat }.

Definition set_dm_state (s : DrainState) (d : DrainManager) : DrainManager :=
  mkDrainManager (dm_all d) (dm_count d) s (dm_obj d) (dm_exits d).
Definition set_dm_count (c : Z) (d : DrainManager) : DrainManager :=
  mkDrainManager (dm_all d) c (dm_state d) (dm_obj d) (dm_exits d).
Definition set_dm_all (l : list oid) (d : DrainManager) : DrainManager :=
  mkDrainManager l (dm_count d) (dm_state d) (dm_obj d) (dm_exits d).
Definition set_drainState (o : oid) (s : DrainState) (d : DrainManager) : DrainManager :=
  mkDrainManager (dm_all d) (dm_count d) (dm_state d) (<[o := s]> (dm_obj d)) (dm_exits d).

Definition panic_if (b : bool) : res unit := if b then Fail Panic else Ok tt.

Definition new_DrainManager : DrainManager := mkDrainManager [] 0 Running ∅ 0.
Definition isDrained (d : DrainManager) : bool := bool_decide (dm_state d = Drained).
Definition drainState (d : DrainManager) (o : oid) : res DrainState := deref (dm_obj d !! o).

(** [DrainManager::signalDrainDone]: [--_count] on an [atomic_uint]. *)
Definition manager_signalDrainDone (d : DrainManager) : res DrainManager :=
  let* _ := assert_ (0 <? dm_count d) in
  let d := set_dm_count (u32 (dm_count d - 1)) d in
  if dm_count d =? 0 then
    Ok (mkDrainManager (dm_all d) (dm_count d) (dm_state d) (dm_obj d) (S (dm_exits d)))
  else Ok d.

(** [Drainable::signalDrainDone] *)
Definition signalDrainDone (o : oid) (d : DrainManager) : res DrainManager :=
  let* s := drainState d o in
  match s with
  | Running | Drained | Resuming => Ok d
  | Draining => manager_signalDrainDone (set_drainState o Drained d)
  end.

Definition registerDrainable (o : oid) (d : DrainManager) : res DrainManager :=
  let* _ := assert_ (bool_decide (o ∉ dm_all d)) in
  Ok (set_dm_all (dm_all d ++ [o]) d).

(** [_allDrainable.erase(find(obj))]: the first occurrence. *)
Fixpoint erase (o : oid) (l : list oid) : list oid :=
  match l with
  | [] => []
  | x :: l => if decide (x = o) then l else x :: erase o l
  end.
Definition unregisterDrainable (o : oid) (d : DrainManager) : res DrainManager :=
  let* _ := assert_ (bool_decide (o ∈ dm_all d)) in
  Ok (set_dm_all (erase o (dm_all d)) d).

(** The constructor and destructor of an object. *)
Definition new_Drainable (o : oid) (d : DrainManager) : res DrainManager :=
  registerDrainable o (set_drainState o (dm_state d) d).
Definition delete_Drainable (o : oid) (d : DrainManager) : res DrainManager :=
  unregisterDrainable o d.

Fixpoint allInState (s : DrainState) (l : list oid) (d : DrainManager) : res bool :=
  match l with
  | [] => Ok true
  | o :: l =>
      let* so := drainState d o in
      if decide (so = s) then allInState s l d else Ok false
  end.

Fixpoint preCheckpointRestore_loop (l : list oid) (d : DrainManager) : DrainManager :=
  match l with
  | [] => d
  | o :: l => preCheckpointRestore_loop l (set_drainState o Drained d)
  end.
Definition preCheckpointRestore (d : DrainManager) : res DrainManager :=
  let* _ := panic_if (bool_decide (dm_state d ≠ Running)) in
  Ok (preCheckpointRestore_loop (dm_all d) (set_dm_state Drained d)).

Section methods.
Context {W : Type}.
Context (drain : oid → DrainManager → W → res (DrainState * DrainManager * W)).
Context (drainResume : oid → DrainManager → W → res (DrainManager * W)).

Definition dmDrain (o : oid) (d : DrainManager) (w : W) : res (DrainState * DrainManager * W) :=
  let d := set_drainState o Draining d in
  let* (s, d, w) := drain o d w in
  let d := set_drainState o s d in
  let* _ := assert_ (bool_decide (s = Draining ∨ s = Drained)) in
  Ok (s, d, w).

Definition dmDrainResume (o : oid) (d : DrainManager) (w : W) : res (DrainManager * W) :=
  let* s := drainState d o in
  let* _ := panic_if (bool_decide (s ≠ Drained ∧ s ≠ Resuming)) in
  drainResume o (set_drainState o Running d) w.

(** The loop of [tryDrain] over the objects registered when it starts. *)
Fixpoint drain_loop (l : list oid) (d : DrainManager) (w : W) : res (DrainManager * W) :=
  match l with
  | [] => Ok (d, w)
  | o :: l =>
      let* (status, d, w) := dmDrain o d w in
      drain_loop l (set_dm_count (u32 (dm_count d + if decide (status = Drained) then 0 else 1)) d) w
  end.

Definition tryDrain (d : DrainManager) (w : W) : res (bool * DrainManager * W) :=
  let* _ := panic_if (bool_decide (dm_state d = Drained)) in
  let* _ := panic_if (negb (dm_count d =? 0)) in
  let d := set_dm_state Draining d in
  let* (d, w) := drain_loop (dm_all d) d w in
  if dm_count d =? 0 then Ok (true, set_dm_state Drained d, w) else Ok (false, d, w).

(** The [for] loop of [resume] and the [do]/[while] around it. *)
Fixpoint resume_pass (l : list oid) (d : DrainManager) (w : W) : res (DrainManager * W) :=
  match l with
  | [] => Ok (d, w)
  | o :: l =>
      let* s := drainState d o in
      if decide (s ≠ Running) then
        let* _ := assert_ (bool_decide (s = Drained ∨ s = Resuming)) in
        let* (d, w) := dmDrainResume o d w in
        resume_pass l d w
      else resume_pass l d w
  end.
Fixpoint resume_loop (fuel : nat) (d : DrainManager) (w : W) : res (DrainManager * W) :=
  match fuel with
  | O => Fail OutOfFuel
  | S fuel =>
      let* (d, w) := resume_pass (dm_all d) d w in
      let* b := allInState Running (dm_all d) d in
      if b then Ok (d, w) else resume_loop fuel d w
  end.

Definition resume (fuel : nat) (d : DrainManager) (w : W) : res (DrainManager * W) :=
  let* _ := panic_if (bool_decide (dm_state d = Running)) in
  let* _ := panic_if (bool_decide (dm_state d = Resuming)) in
  let* _ := panic_if (negb (dm_count d =? 0)) in
  let d := set_dm_state Resuming d in
  let* (d, w) := resume_loop fuel d w in
  Ok (set_dm_state Running d, w).
End methods.

(** ** The counting invariant *)
Definition is_draining (d : DrainManager) (o : oid) : Prop := dm_obj d !! o = Some Draining.
#[global] Instance is_draining_dec d o : Decision (is_draining d o).
Proof. unfold is_draining. apply _. Defined.

Definition waiting (d : DrainManager) : list oid := filter (is_draining d) (dm_all d).

Record dwf (d : DrainManager) : Prop := mkDwf {
  dwf_nodup : NoDup (dm_all d);
  dwf_known : ∀ o, o ∈ dm_all d → is_Some (dm_obj d !! o);
  dwf_small : Z.of_nat (length (dm_all d)) < 2 ^ 32;
  dwf_count : dm_count d = Z.of_nat (length (waiting d)) }.

Lemma filter_count_insert (f : oid → Prop) `{!∀ o, Decision (f o)} (g : oid → Prop) `{!∀ o, Decision (g o)} o l :
  NoDup l → o ∈ l → (∀ x, x ≠ o → f x ↔ g x) → f o → ¬ g o →
  length (filter f l) = S (length (filter g l)).
Proof.
  intros Hn Hin Hfg Hfo Hgo. induction l as [|x l IH]; [set_solver|]. apply NoDup_cons in Hn as [Hx Hn].
  destruct (decide (x = o)) as [->|Hne].
  - rewrite filter_cons_True, filter_cons_False by done. simpl. f_equal. f_equal.
    apply filter_ext_in. intros y Hy. apply Hfg. set_solver.
  - rewrite !filter_cons. specialize (Hfg x Hne) as Hx'. assert (o ∈ l) by set_solver.
    destruct (decide (f x)), (decide (g x)); simpl; try tauto; rewrite IH; done.
Qed.

Lemma filter_length_le (f : oid → Prop) `{!∀ o, Decision (f o)} l : (length (filter f l) ≤ length l)%nat.
Proof. induction l as [|x l IH]; [done|]. rewrite filter_cons. case_decide; simpl; lia. Qed.

Lemma waiting_le d : (length (waiting d) ≤ length (dm_all d))%nat.
Proof. apply filter_length_le. Qed.

Lemma waiting_drained o d :
  NoDup (dm_all d) → o ∈ dm_all d → is_draining d o →
  waiting (set_drainState o Drained d) = filter (λ x, x ≠ o) (waiting d) ∧
  length (waiting d) = S (length (waiting (set_drainState o Drained d))).
Proof.
  intros Hn Hin Ho. unfold waiting. split.
  - rewrite list_filter_filter. simpl. apply filter_ext_in. intros x _.
    unfold is_draining, set_drainState. simpl. destruct (decide (x = o)) as [->|Hne].
    + rewrite lookup_insert_eq. naive_solver.
    + rewrite lookup_insert_ne by done. naive_solver.
  - apply (filter_count_insert _ _ o); try done.
    + intros x Hx. unfold is_draining. simpl. by rewrite lookup_insert_ne.
    + unfold is_draining. simpl. by rewrite lookup_insert_eq.
Qed.

(** What one signal does. *)
Lemma signal_spec o d :
  dwf d → o ∈ dm_all d →
  ∃ d', signalDrainDone o d = Ok d' ∧ dwf d' ∧ dm_all d' = dm_all d ∧ dm_state d' = dm_state d ∧
    waiting d' = filter (λ x, x ≠ o) (waiting d) ∧
    (∀ x, dm_obj d' !! x = if decide (x = o ∧ is_draining d o) then Some Drained else dm_obj d !! x) ∧
    (dm_exits d' = if decide (waiting d ≠ [] ∧ waiting d' = []) then S (dm_exits d) else dm_exits d).
Proof.
  intros [Hn Hk Hs Hc] Hin. destruct (Hk o Hin) as [s Ho]. unfold signalDrainDone, drainState. rewrite Ho. simpl.
  destruct (decide (s = Draining)) as [->|Hnd].
  - destruct (waiting_drained o d Hn Hin Ho) as [Hw Hlen].
    pose proof (waiting_le d) as Hle.
    unfold manager_signalDrainDone. simpl. rewrite (proj2 (Z.ltb_lt _ _)) by lia. simpl.
    rewrite u32_id by lia.
    set (d1 := set_drainState o Drained d) in *.
    assert (Hcount : dm_count d - 1 = Z.of_nat (length (waiting d1))) by lia.
    assert (Hd1 : dwf (set_dm_count (dm_count d - 1) d1)).
    { constructor; try done. intros x Hx. simpl. destruct (decide (x = o)) as [->|Hne].
      - rewrite lookup_insert_eq. eauto.
      - rewrite lookup_insert_ne by done. by apply Hk. }
    assert (Hobj : ∀ x, dm_obj d1 !! x = if decide (x = o ∧ is_draining d o) then Some Drained else dm_obj d !! x).
    { intros x. simpl. case_decide as Hx; [destruct Hx as [-> _]; apply lookup_insert_eq|].
      apply lookup_insert_ne. intros <-. by apply Hx. }
    assert (Hne : waiting d ≠ []) by (intros E; rewrite E in Hlen; done).
    destruct (Z.eqb_spec (dm_count d - 1) 0) as [Hz|Hz]; eexists; (split; [done|]).
    + assert (Hw0 : waiting d1 = []) by (apply nil_length_inv; lia).
      split_and!; try done; [by destruct Hd1|]. by rewrite decide_True.
    + split_and!; try done. rewrite decide_False; [done|]. intros [_ E].
      change (waiting (set_dm_count (dm_count d - 1) d1)) with (waiting d1) in E. rewrite E in Hcount. done.
  - exists d. assert (¬ is_draining d o) by (unfold is_draining; congruence). split_and!; try done.
    + by destruct s.
    + symmetry. apply filter_all. unfold waiting. intros x Hx ->. apply list_elem_of_filter in Hx. naive_solver.
    + intros x. rewrite decide_False; naive_solver.
    + rewrite decide_False; naive_solver.
Qed.

(** Any sequence of signals. *)
Fixpoint signals (os : list oid) (d : DrainManager) : res DrainManager :=
  match os with
  | [] => Ok d
  | o :: os => let* d := signalDrainDone o d in signals os d
  end.

Lemma signals_spec os d :
  dwf d → (∀ o, o ∈ os → o ∈ dm_all d) →
  ∃ d', signals os d = Ok d' ∧ dwf d' ∧ dm_all d' = dm_all d ∧
    waiting d' = filter (λ x, x ∉ os) (waiting d) ∧
    (∀ x, dm_obj d' !! x = if decide (x ∈ os ∧ is_draining d x) then Some Drained else dm_obj d !! x) ∧
    dm_exits d' = (if decide (waiting d ≠ [] ∧ waiting d' = []) then S (dm_exits d) else dm_exits d).
Proof.
  revert d. induction os as [|o os IH]; intros d Hwf Hin.
  - exists d. split_and!; try done.
    + symmetry. apply filter_all. intros; set_solver.
    + rewrite decide_False; naive_solver.
  - destruct (signal_spec o d Hwf) as (d1 & Hs & Hwf1 & Hall1 & _ & Hw1 & Ho1 & He1); [set_solver|].
    destruct (IH d1 Hwf1) as (d2 & Hs2 & Hwf2 & Hall2 & Hw2 & Ho2 & He2); [intros x Hx; rewrite Hall1; set_solver|].
    exists d2. split_and!; try done.
    + simpl. by rewrite Hs.
    + congruence.
    + rewrite Hw2, Hw1, list_filter_filter. apply filter_ext_in. intros x _. rewrite elem_of_cons. tauto.
    + intros x. clear He1 He2. assert (is_draining d1 x ↔ is_draining d x ∧ x ≠ o) as Hi.
      { unfold is_draining at 1. rewrite Ho1. unfold is_draining. case_decide as Hd; [destruct Hd as [-> _]; split; [done|by intros [_ ?]]|].
        split; [|tauto]. intros Hx. split; [done|]. intros ->. by apply Hd. }
      rewrite Ho2, Ho1. pose proof (elem_of_cons os x o).
      destruct (decide (x = o)) as [->|]; repeat case_decide; tauto || done.
    + assert (waiting d = [] → waiting d1 = []) by (intros E; by rewrite Hw1, E).
      assert (waiting d1 = [] → waiting d2 = []) by (intros E; by rewrite Hw2, E).
      rewrite He2, He1. clear He1 He2. repeat case_decide; tauto || done.
Qed.

(** ** Objects that do not touch the manager while they are asked to drain or
    to resume. *)
Section local.
Context {W : Type}.
Context (drain : oid → DrainManager → W → res (DrainState * DrainManager * W)).
Hypothesis drain_local : ∀ o d w, ∃ s w', drain o d w = Ok (s, d, w') ∧ (s = Draining ∨ s = Drained).

Lemma drain_loop_spec l d w :
  NoDup l → 0 ≤ dm_count d → dm_count d + Z.of_nat (length l) < 2 ^ 32 →
  ∃ d' w', drain_loop drain l d w = Ok (d', w') ∧ dm_all d' = dm_all d ∧ dm_state d' = dm_state d ∧
    dm_exits d' = dm_exits d ∧
    (∀ x, x ∉ l → dm_obj d' !! x = dm_obj d !! x) ∧
    (∀ x, x ∈ l → dm_obj d' !! x = Some Draining ∨ dm_obj d' !! x = Some Drained) ∧
    dm_count d' = dm_count d + Z.of_nat (length (filter (is_draining d') l)).
Proof.
  revert d w. induction l as [|o l IH]; intros d w Hn Hc Hlt.
  - exists d, w. split_and!; try done; [set_solver|simpl; lia].
  - apply NoDup_cons in Hn as [Hno Hn]. simpl in Hlt. simpl. unfold dmDrain.
    destruct (drain_local o (set_drainState o Draining d) w) as (s & w1 & -> & Hs). simpl.
    rewrite bool_decide_true by done. simpl. set (k := if decide (s = Drained) then 0 else 1).
    assert (Hk : k = if decide (s = Draining) then 1 else 0) by (unfold k; by destruct Hs as [->| ->]).
    assert (0 ≤ k ≤ 1) by (rewrite Hk; case_decide; lia). rewrite u32_id by lia.
    set (d1 := set_dm_count _ _).
    destruct (IH d1 w1 Hn) as (d' & w' & Hl & Hall & Hst & Hex & Hout & Hin & Hcnt); [simpl; lia|simpl; lia|].
    assert (Ho : dm_obj d' !! o = Some s) by (rewrite Hout by done; simpl; apply lookup_insert_eq).
    exists d', w'. split_and!; try done.
    + intros x Hx. rewrite Hout by set_solver. simpl. rewrite !lookup_insert_ne by set_solver. done.
    + intros x [->|Hx]%elem_of_cons; [rewrite Ho; naive_solver|auto].
    + rewrite Hcnt. simpl. assert (Hi : is_draining d' o ↔ s = Draining) by (unfold is_draining; rewrite Ho; naive_solver).
      rewrite filter_cons, Hk. repeat case_decide; simpl; tauto || lia.
Qed.

Lemma tryDrain_spec d w :
  dwf d → dm_count d = 0 → dm_state d ≠ Drained →
  ∃ d' w', tryDrain drain d w = Ok (bool_decide (waiting d' = []), d', w') ∧ dwf d' ∧
    dm_all d' = dm_all d ∧ dm_exits d' = dm_exits d ∧
    dm_state d' = (if decide (waiting d' = []) then Drained else Draining) ∧
    (∀ o, o ∈ dm_all d → dm_obj d' !! o = Some Draining ∨ dm_obj d' !! o = Some Drained).
Proof.
  intros [Hn Hk Hs Hc] H0 Hst. unfold tryDrain. rewrite bool_decide_false by done. simpl.
  rewrite (proj2 (Z.eqb_eq _ _) H0). simpl.
  destruct (drain_loop_spec (dm_all d) (set_dm_state Draining d) w Hn)
    as (d1 & w1 & -> & Hall & Hst1 & Hex & _ & Hin & Hcnt); simpl in *; [lia|lia|].
  assert (Hw : dm_count d1 = Z.of_nat (length (waiting d1))) by (unfold waiting; rewrite Hall; lia).
  assert (Hd1 : dwf d1).
  { constructor; rewrite ?Hall; try done. intros o Ho. destruct (Hin o Ho) as [->| ->]; eauto. }
  rewrite Hw. destruct (waiting d1) as [|x l] eqn:E; simpl.
  - exists (set_dm_state Drained d1), w1. change (waiting (set_dm_state Drained d1)) with (waiting d1).
    rewrite E, bool_decide_true by done. split_and!; try done. by destruct Hd1.
  - exists d1, w1. rewrite E, bool_decide_false by done. done.
Qed.

End local.

Section local_resume.
Context {W : Type} (drainResume : oid → DrainManager → W → res (DrainManager * W)).
Hypothesis resume_local : ∀ o d w, ∃ w', drainResume o d w = Ok (d, w').

Lemma resume_pass_spec l d w :
  NoDup l → (∀ o, o ∈ l → dm_obj d !! o = Some Drained) →
  ∃ d' w', resume_pass drainResume l d w = Ok (d', w') ∧ dm_all d' = dm_all d ∧ dm_count d' = dm_count d ∧
    (∀ x, dm_obj d' !! x = if decide (x ∈ l) then Some Running else dm_obj d !! x).
Proof.
  revert d w. induction l as [|o l IH]; intros d w Hn Hd.
  - by exists d, w.
  - apply NoDup_cons in Hn as [Hno Hn]. simpl. unfold drainState at 1. rewrite (Hd o) by set_solver. simpl.
    unfold dmDrainResume, drainState. rewrite (Hd o) by set_solver. simpl.
    destruct (resume_local o (set_drainState o Running d) w) as (w1 & ->). simpl.
    destruct (IH (set_drainState o Running d) w1 Hn) as (d' & w' & Hl & Hall & Hc & Hobj).
    { intros x Hx. simpl. rewrite lookup_insert_ne by set_solver. apply Hd. set_solver. }
    exists d', w'. split_and!; try done. intros x. rewrite Hobj. simpl.
    pose proof (elem_of_cons l x o). destruct (decide (x = o)) as [->|Hne].
    + rewrite lookup_insert_eq. repeat case_decide; tauto || done.
    + rewrite lookup_insert_ne by done. repeat case_decide; tauto || done.
Qed.

Lemma allInState_spec s l d : (∀ o, o ∈ l → dm_obj d !! o = Some s) → allInState s l d = Ok true.
Proof.
  induction l as [|o l IH]; intros Hl; [done|]. simpl. unfold drainState. rewrite (Hl o) by set_solver. simpl.
  rewrite decide_True by done. apply IH. set_solver.
Qed.

Lemma resume_spec fuel d w :
  NoDup (dm_all d) → (∀ o, o ∈ dm_all d → dm_obj d !! o = Some Drained) →
  dm_count d = 0 → dm_state d = Drained → (0 < fuel)%nat →
  ∃ d' w', resume drainResume fuel d w = Ok (d', w') ∧ dm_state d' = Running ∧ dm_all d' = dm_all d ∧
    dm_count d' = 0 ∧ ∀ o, o ∈ dm_all d → dm_obj d' !! o = Some Running.
Proof.
  intros Hn Hd H0 Hst Hf. unfold resume. rewrite Hst, H0. simpl. destruct fuel as [|fuel]; [lia|]. simpl.
  destruct (resume_pass_spec (dm_all d) (set_dm_state Resuming d) w Hn Hd) as (d' & w' & -> & Hall & Hc & Hobj). simpl.
  assert (Hrun : ∀ o, o ∈ dm_all d → dm_obj d' !! o = Some Running).
  { intros o Ho. by rewrite Hobj, decide_True. }
  simpl in Hall. rewrite Hall, (allInState_spec Running) by done. simpl. eexists _, _. split_and!; try done. simpl in *. lia.
Qed.
End local_resume.

(** ** The properties *)

(** C33: one drain cycle.  [tryDrain] asks every object once and answers true
    exactly when all are drained.  If some are not, then once each of them has
    signalled (in any order, signals may repeat and drained objects may signal
    too) every object is drained, the count is back to 0 and the simulation
    loop has been left exactly once. *)
Theorem drain_cycle {W} (drain : oid → DrainManager → W → res (DrainState * DrainManager * W)) d w :
  (∀ o d w, ∃ s w', drain o d w = Ok (s, d, w') ∧ (s = Draining ∨ s = Drained)) →
  dwf d → dm_count d = 0 → dm_state d ≠ Drained →
  ∃ d1 w1, tryDrain drain d w = Ok (bool_decide (waiting d1 = []), d1, w1) ∧
    ∀ os, (∀ o, o ∈ os → o ∈ dm_all d) → (∀ o, o ∈ waiting d1 → o ∈ os) →
      ∃ d2, signals os d1 = Ok d2 ∧ dm_count d2 = 0 ∧
        (∀ o, o ∈ dm_all d → dm_obj d2 !! o = Some Drained) ∧
        dm_exits d2 = (dm_exits d + if decide (waiting d1 = []) then 0 else 1)%nat.
Proof.
  intros Hl Hwf H0 Hst. destruct (tryDrain_spec drain Hl d w Hwf H0 Hst) as (d1 & w1 & Ht & Hwf1 & Hall & Hex & _ & Hobj).
  exists d1, w1. split; [done|]. intros os Hin Hcov.
  destruct (signals_spec os d1 Hwf1) as (d2 & Hs & Hwf2 & Hall2 & Hw2 & Hobj2 & Hex2); [by rewrite Hall|].
  assert (Hw0 : waiting d2 = []) by (rewrite Hw2; apply filter_none; naive_solver).
  exists d2. split_and!; [done| | |].
  - by rewrite (dwf_count _ Hwf2), Hw0.
  - clear Hex2. intros o Ho. rewrite Hobj2. case_decide as Hd; [done|].
    destruct (Hobj o Ho) as [Hdr|Hdr]; [|done]. exfalso. apply Hd. split; [|exact Hdr].
    apply Hcov, list_elem_of_filter. by rewrite Hall.
  - rewrite Hex2, Hex, Hw0. clear Hex2. repeat case_decide; tauto || lia.
Qed.

(** After a drain that found every object drained, [resume] returns after
    one pass and every object is running again. *)
Theorem drained_resumes {W} (drain : oid → DrainManager → W → res (DrainState * DrainManager * W))
    (drainResume : oid → DrainManager → W → res (DrainManager * W)) d w d1 w1 :
  (∀ o d w, ∃ s w', drain o d w = Ok (s, d, w') ∧ (s = Draining ∨ s = Drained)) →
  (∀ o d w, ∃ w', drainResume o d w = Ok (d, w')) →
  dwf d → dm_count d = 0 → dm_state d ≠ Drained → tryDrain drain d w = Ok (true, d1, w1) →
  ∃ d2 w2, resume drainResume 1 d1 w1 = Ok (d2, w2) ∧ dm_state d2 = Running ∧ dm_count d2 = 0 ∧
    dm_all d2 = dm_all d ∧ ∀ o, o ∈ dm_all d → dm_obj d2 !! o = Some Running.
Proof.
  intros Hl Hr Hwf H0 Hst Ht. destruct (tryDrain_spec drain Hl d w Hwf H0 Hst) as (d1' & w1' & Ht' & Hwf1 & Hall & _ & Hs1 & Hobj).
  rewrite Ht in Ht'. injection Ht' as Hb <- <-. symmetry in Hb. apply bool_decide_eq_true in Hb.
  rewrite decide_True in Hs1 by done.
  destruct (resume_spec drainResume Hr 1 d1 w1) as (d2 & w2 & Hres & Hst2 & Hall2 & Hc2 & Hobj2); try done.
  - apply Hwf1.
  - rewrite Hall. intros o Ho. destruct (Hobj o Ho) as [Hdr|]; [|done].
    exfalso. assert (o ∈ waiting d1); [|rewrite Hb in *; set_solver].
    apply list_elem_of_filter. by rewrite Hall.
  - by rewrite (dwf_count _ Hwf1), Hb.
  - lia.
  - exists d2, w2. rewrite Hall2, Hall in *. done.
Qed.

(** Two objects; those in [w] are busy. *)
Definition drain0 (o : oid) (d : DrainManager) (w : list oid) : res (DrainState * DrainManager * list oid) :=
  Ok (if decide (o ∈ w) then Draining else Drained, d, w).
Definition drainResume0 (o : oid) (d : DrainManager) (w : list oid) : res (DrainManager * list oid) := Ok (d, w).
Definition manager0 : DrainManager :=
  mkDrainManager [1%positive; 2%positive] 0 Running {[1%positive := Running; 2%positive := Running]} 0.

Lemma drain0_local o d w : ∃ s w', drain0 o d w = Ok (s, d, w') ∧ (s = Draining ∨ s = Drained).
Proof. unfold drain0. case_decide; naive_solver. Qed.
Lemma manager0_wf : dwf manager0.
Proof.
  constructor; [by apply (bool_decide_unpack _); vm_compute| |done|done].
  intros o Ho. assert (o = 1%positive ∨ o = 2%positive) as [->| ->] by set_solver; by eexists.
Qed.

Lemma drain_cycle_witness :
  ∃ d1 w1, tryDrain drain0 manager0 [2%positive] = Ok (false, d1, w1) ∧
    ∃ d2, signals [2%positive; 1%positive; 2%positive] d1 = Ok d2 ∧ dm_exits d2 = 1%nat.
Proof.
  destruct (drain_cycle drain0 manager0 [2%positive]) as (d1 & w1 & Ht & Hs);
    [exact drain0_local|exact manager0_wf|done|done|].
  vm_compute in Ht. injection Ht as Hb <- <-. eexists _, _. split; [by vm_compute|].
  destruct (Hs [2%positive; 1%positive; 2%positive]) as (d2 & H2 & _ & _ & He); [set_solver| |].
  - vm_compute. intros o Ho. set_solver.
  - exists d2. split; [exact H2|]. rewrite He. by vm_compute.
Defined.

Lemma drained_resumes_witness :
  ∃ d1 w1 d2 w2, tryDrain drain0 manager0 [] = Ok (true, d1, w1) ∧
    resume drainResume0 1 d1 w1 = Ok (d2, w2) ∧ dm_state d2 = Running.
Proof.
  assert (Ht : ∃ d1, tryDrain drain0 manager0 [] = Ok (true, d1, [])) by (eexists; by vm_compute).
  destruct Ht as (d1 & Ht). exists d1, [].
  destruct (drained_resumes drain0 drainResume0 manager0 [] d1 []) as (d2 & w2 & Hr & Hs & _);
    [exact drain0_local|by intros; eexists|exact manager0_wf|done|done|done|].
  by exists d2, w2.
Defined.
