(* ===== verification/Bitfield.v ===== *)
(** * Bit fields and integer arithmetic (gem5 [base/bitfield.hh], [base/intmath.hh])

    The [uint64_t] instances of the templates.  The branching and multi-step
    routines (most and least significant bit, logarithms, rounding to powers of
    two, 64x64-bit products) are shown equal to their mathematical
    definitions. *)
From S2P Require Import Prelude.
Local Open Scope Z_scope.

Definition ones64 : Z := 2 ^ 64 - 1.
(** [~x] on [uint64_t]. *)
Definition not64 (x : Z) : Z := Z.lxor x ones64.
(** [x >> n]: undefined for [n >= 64]. *)
Definition shr64 (x n : Z) : res Z := if (0 <=? n) && (n <? 64) then Ok (Z.shiftr x n) else Fail Undefined.
Definition shl64 (x n : Z) : res Z :=
  if (0 <=? n) && (n <? 64) then Ok (u64 (Z.shiftl x n)) else Fail Undefined.

(** ** [base/bitfield.hh] *)
Definition mask (nbits : Z) : Z := if 64 <=? nbits then ones64 else Z.shiftl 1 nbits - 1.

Definition bits (val first last : Z) : res Z :=
  let* _ := assert_ (last <=? first) in
  let nbits := first - last + 1 in
  let* v := shr64 val last in
  Ok (Z.land v (mask nbits)).
Definition bit_at (val bit : Z) : res Z := bits val bit bit.

Definition mbits (val first last : Z) : Z := Z.land val (Z.land (mask (u32 (first + 1))) (not64 (mask last))).
Definition mask_range (first last : Z) : Z := mbits ones64 first last.

Definition sext (val N : Z) : res Z :=
  let* sign_bit := bit_at val (N - 1) in
  if negb (sign_bit =? 0) then Ok (Z.lor val (not64 (mask N))) else Ok val.
Definition szext (N val : Z) : res Z :=
  let* sign_bit := bit_at val (N - 1) in
  if negb (sign_bit =? 0) then Ok (Z.lor val (not64 (mask N))) else Ok (Z.land val (mask N)).

Definition insertBits (val first last bit_val : Z) : res Z :=
  let* _ := assert_ (last <=? first) in
  let bmask := mask_range first last in
  let val := Z.land val (not64 bmask) in
  let* b := shl64 bit_val last in
  Ok (Z.lor val (Z.land b bmask)).
Definition replaceBits (val first last bit_val : Z) : res Z := insertBits val first last bit_val.

(** One halving step of the bit searches: when [hit], count [k] and drop [k]
    bits. *)
Definition halve (hit : bool) (k : Z) (s : Z * Z) : Z * Z :=
  if hit then (s.1 + k, Z.shiftr s.2 k) else s.

(** [if (bits(val, first, last)) { msb += last; val >>= last; }] *)
Definition msb_step (first last : Z) (s : Z * Z) : res (Z * Z) :=
  let* b := bits s.2 first last in Ok (halve (negb (b =? 0)) last s).
Definition findMsbSet (val : Z) : res Z :=
  if val =? 0 then Ok 0
  else
    let* s := msb_step 63 32 (0, val) in
    let* s := msb_step 31 16 s in
    let* s := msb_step 15 8 s in
    let* s := msb_step 7 4 s in
    let* s := msb_step 3 2 s in
    let* b := bits s.2 1 1 in
    Ok (if negb (b =? 0) then s.1 + 1 else s.1).

(** [if (!bits(val, k - 1, 0)) { lsb += k; val >>= k; }] *)
Definition lsb_step (k : Z) (s : Z * Z) : res (Z * Z) :=
  let* b := bits s.2 (k - 1) 0 in Ok (halve (b =? 0) k s).
Definition findLsbSetFallback (val : Z) : res Z :=
  if val =? 0 then Ok 64
  else
    let* s := lsb_step 32 (0, val) in
    let* s := lsb_step 16 s in
    let* s := lsb_step 8 s in
    let* s := lsb_step 4 s in
    let* s := lsb_step 2 s in
    let* b := bits s.2 0 0 in
    Ok (if b =? 0 then s.1 + 1 else s.1).

Definition alignToPowerOfTwo (val : Z) : Z :=
  let val := u64 (val - 1) in
  let val := Z.lor val (Z.shiftr val 1) in
  let val := Z.lor val (Z.shiftr val 2) in
  let val := Z.lor val (Z.shiftr val 4) in
  let val := Z.lor val (Z.shiftr val 8) in
  let val := Z.lor val (Z.shiftr val 16) in
  let val := Z.lor val (Z.shiftr val 32) in
  u64 (val + 1).

(** ** [base/intmath.hh]; [ts] is [sizeof(T)]. *)
Definition log_step (wide : bool) (m k : Z) (s : Z * Z) : Z * Z :=
  halve (wide && negb (Z.land s.2 m =? 0)) k s.
Definition floorLog2 (ts x : Z) : res Z :=
  let* _ := assert_ (0 <? x) in
  let s := log_step (8 <=? ts) 0xffffffff00000000 32 (0, x) in
  let s := log_step (4 <=? ts) 0x00000000ffff0000 16 s in
  let s := log_step (2 <=? ts) 0x000000000000ff00 8 s in
  let s := log_step true 0x00000000000000f0 4 s in
  let s := log_step true 0x000000000000000c 2 s in
  Ok (if negb (Z.land s.2 0x0000000000000002 =? 0) then s.1 + 1 else s.1).

Definition ceilLog2 (ts n : Z) : res Z :=
  let* _ := assert_ (0 <? n) in
  if n =? 1 then Ok 0
  else let* y := floorLog2 ts (n - 1) in Ok (y + 1).

Definition isPowerOf2 (n : Z) : bool := negb (n =? 0) && (Z.land n (u64 (n - 1)) =? 0).

(** [b = 0] is a division by zero. *)
Definition divCeil (a b : Z) : res Z :=
  if b =? 0 then Fail Undefined else Ok (u64 (a + b - 1) / b).

Definition roundUp (val align : Z) : res Z :=
  let* _ := assert_ (isPowerOf2 align) in
  let m := u64 (align - 1) in
  Ok (Z.land (u64 (val + m)) (not64 m)).
Definition roundDown (val align : Z) : res Z :=
  let* _ := assert_ (isPowerOf2 align) in
  let m := u64 (align - 1) in
  Ok (Z.land val (not64 m)).

(** The 64-bit product in two halves, [(high, low)]. *)
Definition mulUnsignedManual (val_a val_b : Z) : Z * Z :=
  let low := u64 (val_a * val_b) in
  let A := u32 (Z.shiftr val_a 32) in
  let a := u32 val_a in
  let B := u32 (Z.shiftr val_b 32) in
  let b := u32 val_b in
  let ab := u64 (a * b) in
  let Ab := u64 (A * b) in
  let aB := u64 (a * B) in
  let AB := u64 (A * B) in
  let c1 := u32 (Z.shiftr ab 32) in
  let c2 := u64 (Z.shiftr c1 1 + Z.shiftr Ab 1 + Z.shiftr aB 1) in
  let c2 := u64 (c2 + Z.shiftr (Z.land c1 1 + Z.land Ab 1 + Z.land aB 1) 1) in
  let c2 := Z.shiftr c2 31 in
  let high := u64 (AB + c2) in
  (high, low).

(** With 128-bit integers. *)
Definition mulUnsigned (val_a val_b : Z) : Z * Z :=
  let val := val_a * val_b in
  (u64 (Z.shiftr val 64), u64 val).

(** A signed 64-bit value. *)
Definition s64 (z : Z) : Z := if u64 z <? 2 ^ 63 then u64 z else u64 z - 2 ^ 64.
Definition mulSignedManual (val_a val_b : Z) : Z * Z :=
  let (u_high, u_low) := mulUnsigned (u64 val_a) (u64 val_b) in
  let u_high := if val_a <? 0 then u64 (u_high - val_b) else u_high in
  let u_high := if val_b <? 0 then u64 (u_high - val_a) else u_high in
  (s64 u_high, s64 u_low).
Definition mulSigned (val_a val_b : Z) : Z * Z :=
  let val := val_a * val_b in
  (s64 (Z.shiftr val 64), s64 val).

(** ** Masks and fields *)
Lemma small_testbit v k n : 0 ≤ v < 2 ^ n → n ≤ k → 0 ≤ n → Z.testbit v k = false.
Proof.
  intros Hv Hk Hn. destruct (Z.eq_dec v 0) as [->|]; [by rewrite Z.bits_0|]. apply Z.bits_above_log2; [lia|].
  apply Z.log2_lt_pow2; [lia|]. assert (2 ^ n ≤ 2 ^ k) by (apply Z.pow_le_mono_r; lia). lia.
Qed.
Lemma lor_range w a b : 0 ≤ w → in_u w a → in_u w b → in_u w (Z.lor a b).
Proof.
  intros Hw Ha Hb. replace (Z.lor a b) with (Z.lor a b mod 2 ^ w); [apply Z.mod_pos_bound; lia|].
  apply Z.bits_inj'. intros i Hi. destruct (decide (i < w)); [by rewrite Z.mod_pow2_bits_low by lia|].
  rewrite Z.mod_pow2_bits_high, Z.lor_spec by lia. by rewrite !(small_testbit _ i w) by lia.
Qed.
Lemma mask_ones n : 0 ≤ n ≤ 64 → mask n = Z.ones n.
Proof.
  intros Hn. unfold mask. destruct (Z.leb_spec 64 n); [by replace n with 64 by lia|].
  unfold Z.ones. lia.
Qed.

Lemma not64_spec x i : 0 ≤ i → Z.testbit (not64 x) i = xorb (Z.testbit x i) (i <? 64).
Proof.
  intros Hi. unfold not64. rewrite Z.lxor_spec. change ones64 with (Z.ones 64).
  destruct (Z.ltb_spec i 64); [by rewrite Z.ones_spec_low by lia|by rewrite Z.ones_spec_high by lia].
Qed.

Lemma testbit_high x n i : 0 ≤ x < 2 ^ n → n ≤ i → Z.testbit x i = false.
Proof.
  intros Hx Hi. destruct (decide (0 ≤ n)) as [Hn|Hn]; [|rewrite Z.pow_neg_r in Hx by lia; lia].
  destruct (Z.eq_dec x 0) as [->|Hx0]; [apply Z.bits_0|].
  apply Z.bits_above_log2; [lia|]. apply Z.log2_lt_pow2; [lia|].
  apply Z.lt_le_trans with (2 ^ n); [lia|]. apply Z.pow_le_mono_r; lia.
Qed.

Lemma land_not64 x m : in_u 64 x → Z.land x (not64 m) = Z.ldiff x m.
Proof.
  intros Hx. apply Z.bits_inj'. intros i Hi. rewrite Z.land_spec, Z.ldiff_spec, not64_spec by done.
  destruct (Z.ltb_spec i 64); [by destruct (Z.testbit x i), (Z.testbit m i)|].
  by rewrite (testbit_high x 64) by done.
Qed.

Lemma bits_spec val first last :
  0 ≤ last ≤ first → first < 64 → bits val first last = Ok ((val / 2 ^ last) mod 2 ^ (first - last + 1)).
Proof.
  intros Hl Hf. unfold bits, shr64. rewrite !(proj2 (Z.leb_le _ _)), (proj2 (Z.ltb_lt _ _)) by lia. simpl.
  by rewrite mask_ones, Z.land_ones, Z.shiftr_div_pow2 by lia.
Qed.

(** ** Searching for a bit *)
Definition below (k : Z) (s : Z * Z) : Prop := 0 < s.2 < 2 ^ k.

Lemma halve_msb k s hit :
  0 < k → below (2 * k) s → (hit = true ↔ 2 ^ k ≤ s.2) →
  below k (halve hit k s) ∧ (halve hit k s).1 + Z.log2 (halve hit k s).2 = s.1 + Z.log2 s.2.
Proof.
  unfold below. intros Hk Hs Hhit. destruct hit; simpl.
  - destruct Hhit as [Hhit _]. specialize (Hhit eq_refl). rewrite Z.log2_shiftr, Z.shiftr_div_pow2 by lia.
    assert (k ≤ Z.log2 s.2) by (apply Z.log2_le_pow2; lia). rewrite Z.max_r by lia. split; [|lia].
    split; [apply Z.div_str_pos; lia|]. apply Z.div_lt_upper_bound; [lia|].
    rewrite <-Z.pow_add_r by lia. replace (k + k) with (2 * k) by lia. lia.
  - split; [|done]. destruct (Z.le_gt_cases (2 ^ k) s.2); [naive_solver|lia].
Qed.

Lemma top_half_hit k v : 0 < k → 0 ≤ v < 2 ^ (2 * k) → negb ((v / 2 ^ k) mod 2 ^ k =? 0) = true ↔ 2 ^ k ≤ v.
Proof.
  intros Hk Hv. replace (2 * k) with (k + k) in Hv by lia. rewrite Z.pow_add_r in Hv by lia.
  assert (0 < 2 ^ k) by (apply Z.pow_pos_nonneg; lia).
  assert (v / 2 ^ k < 2 ^ k) by (apply Z.div_lt_upper_bound; lia).
  assert (0 ≤ v / 2 ^ k) by (apply Z.div_pos; lia). rewrite Z.mod_small by lia.
  rewrite negb_true_iff, Z.eqb_neq. split; intros Hne.
  - destruct (Z.le_gt_cases (2 ^ k) v); [done|]. by rewrite Z.div_small in Hne by lia.
  - assert (0 < v / 2 ^ k) by (apply Z.div_str_pos; lia). lia.
Qed.

Definition near_log (val : Z) (s : Z * Z) : Prop := s.1 + Z.log2 s.2 = Z.log2 val.

Lemma msb_step_spec val f k s :
  f = 2 * k - 1 → 0 < k ≤ 32 → below (2 * k) s → near_log val s →
  ∃ s', msb_step f k s = Ok s' ∧ below k s' ∧ near_log val s'.
Proof.
  intros -> Hk Hb Hlog. unfold msb_step. rewrite bits_spec by lia. simpl.
  replace (2 * k - 1 - k + 1) with k by lia. eexists. split; [done|]. unfold near_log. rewrite <-Hlog.
  apply halve_msb; [lia|done|]. apply top_half_hit; [lia|]. destruct Hb. lia.
Qed.

Lemma last_bit_log s : below 2 s → s.1 + Z.log2 s.2 = if decide (2 ≤ s.2) then s.1 + 1 else s.1.
Proof.
  intros [H1 H2]. change (2 ^ 2) with 4 in H2. case_decide.
  - assert (s.2 = 2 ∨ s.2 = 3) as [->| ->] by lia; done.
  - replace s.2 with 1 by lia. change (Z.log2 1) with 0. lia.
Qed.

Lemma findMsbSet_log2 val : 0 < val < 2 ^ 64 → findMsbSet val = Ok (Z.log2 val).
Proof.
  intros Hv. unfold findMsbSet. rewrite (proj2 (Z.eqb_neq _ _)) by lia.
  destruct (msb_step_spec val 63 32 (0, val)) as (s1 & -> & Hb & Hl);
    [lia|lia|unfold below; simpl; lia|done|]. cbn [res_bind].
  destruct (msb_step_spec val 31 16 s1) as (s2 & -> & Hb2 & Hl2); [lia|lia|done..|]. cbn [res_bind].
  destruct (msb_step_spec val 15 8 s2) as (s3 & -> & Hb3 & Hl3); [lia|lia|done..|]. cbn [res_bind].
  destruct (msb_step_spec val 7 4 s3) as (s4 & -> & Hb4 & Hl4); [lia|lia|done..|]. cbn [res_bind].
  destruct (msb_step_spec val 3 2 s4) as (s5 & -> & Hb5 & Hl5); [lia|lia|done..|]. cbn [res_bind].
  rewrite bits_spec by lia. cbn [res_bind]. f_equal. rewrite <-Hl5, last_bit_log by done.
  destruct Hb5 as [Hb5 Hb5']. change (2 ^ 2) with 4 in Hb5'. change (1 - 1 + 1) with 1.
  assert (negb ((s5.2 / 2 ^ 1) mod 2 ^ 1 =? 0) = true ↔ 2 ^ 1 ≤ s5.2) as Hhit by (apply top_half_hit; lia).
  case_decide; destruct (negb _); naive_solver lia.
Qed.

(** *** Least significant bit *)
Definition lsb_inv (k val : Z) (s : Z * Z) : Prop :=
  0 ≤ s.1 ∧ val = 2 ^ s.1 * s.2 ∧ s.2 mod 2 ^ k ≠ 0.

Lemma lsb_halve k val s :
  0 < k → lsb_inv (2 * k) val s → lsb_inv k val (halve (s.2 mod 2 ^ k =? 0) k s).
Proof.
  unfold lsb_inv. intros Hk (H1 & H2 & H3). destruct (Z.eqb_spec (s.2 mod 2 ^ k) 0) as [E|E]; simpl; [|done].
  assert (0 < 2 ^ k) by (apply Z.pow_pos_nonneg; lia).
  pose proof (Z.div_exact s.2 (2 ^ k) ltac:(lia)) as [_ Hex]. specialize (Hex E).
  rewrite Z.shiftr_div_pow2 by lia. split_and!; [lia| |].
  - rewrite Z.pow_add_r by lia. rewrite H2 at 1. rewrite Hex at 1. lia.
  - intros Hz. apply H3. replace (2 * k) with (k + k) by lia. rewrite Z.pow_add_r by lia.
    rewrite Hex, Z.mul_mod_distr_l by lia. lia.
Qed.

Lemma lsb_step_spec k val s :
  0 < k ≤ 32 → lsb_inv (2 * k) val s → ∃ s', lsb_step k s = Ok s' ∧ lsb_inv k val s'.
Proof.
  intros Hk Hi. unfold lsb_step. rewrite bits_spec by lia. cbn [res_bind]. eexists. split; [done|].
  rewrite Z.div_1_r. replace (k - 1 - 0 + 1) with k by lia. apply lsb_halve; [lia|done].
Qed.

Lemma findLsbSetFallback_spec val : 0 < val < 2 ^ 64 →
  ∃ n c, findLsbSetFallback val = Ok n ∧ 0 ≤ n ∧ val = 2 ^ n * (2 * c + 1).
Proof.
  intros Hv. unfold findLsbSetFallback. rewrite (proj2 (Z.eqb_neq _ _)) by lia.
  destruct (lsb_step_spec 32 val (0, val)) as (s1 & -> & H1);
    [lia|split_and!; simpl; [lia|lia|rewrite Z.mod_small; lia]|]. cbn [res_bind].
  destruct (lsb_step_spec 16 val s1) as (s2 & -> & H2); [lia|done|]. cbn [res_bind].
  destruct (lsb_step_spec 8 val s2) as (s3 & -> & H3); [lia|done|]. cbn [res_bind].
  destruct (lsb_step_spec 4 val s3) as (s4 & -> & H4); [lia|done|]. cbn [res_bind].
  destruct (lsb_step_spec 2 val s4) as (s5 & -> & H5); [lia|done|]. cbn [res_bind].
  pose proof (lsb_halve 1 val s5 ltac:(lia) H5) as (Hn & Hval & Hodd).
  rewrite bits_spec by lia. cbn [res_bind]. rewrite Z.div_1_r. change (0 - 0 + 1) with 1.
  exists (halve (s5.2 mod 2 ^ 1 =? 0) 1 s5).1, ((halve (s5.2 mod 2 ^ 1 =? 0) 1 s5).2 / 2).
  split_and!; [by destruct (_ =? 0)|done|]. rewrite Hval at 1. f_equal. change (2 ^ 1) with 2 in Hodd.
  set (x := (halve _ _ _).2) in *.
  pose proof (Z.div_mod x 2 ltac:(lia)). pose proof (Z.mod_pos_bound x 2 ltac:(lia)). lia.
Qed.

(** *** Logarithms *)
Lemma land_field v m k : 0 < k → m = Z.shiftl (Z.ones k) k → Z.land v m = (v / 2 ^ k) mod 2 ^ k * 2 ^ k.
Proof.
  intros Hk ->. rewrite <-Z.land_ones, <-Z.shiftr_div_pow2, <-Z.shiftl_mul_pow2 by lia.
  apply Z.bits_inj'. intros i Hi. rewrite Z.land_spec. destruct (decide (i < k)).
  - by rewrite !Z.shiftl_spec_low, andb_false_r by lia.
  - rewrite !Z.shiftl_spec_high, Z.land_spec, Z.shiftr_spec by lia. by replace (i - k + k) with i by lia.
Qed.

(** Where the type is too narrow for a step, the value is already small. *)
Lemma log_step_spec val w m k s :
  0 < k → m = Z.shiftl (Z.ones k) k → below (2 * k) s → (w = false → below k s) → near_log val s →
  below k (log_step w m k s) ∧ near_log val (log_step w m k s).
Proof.
  intros Hk Hm Hb Hw Hl. unfold log_step. destruct w; [|auto]. simpl.
  unfold near_log. rewrite <-Hl. apply halve_msb; try done. rewrite (land_field _ m k) by done.
  rewrite <-top_half_hit by (try destruct Hb; lia). assert (0 < 2 ^ k) by (apply Z.pow_pos_nonneg; lia).
  rewrite !negb_true_iff, !Z.eqb_neq. nia.
Qed.

Definition int_size (ts : Z) : Prop := ts = 1 ∨ ts = 2 ∨ ts = 4 ∨ ts = 8.

Lemma floorLog2_log2 ts x : int_size ts → 0 < x < 2 ^ (8 * ts) → floorLog2 ts x = Ok (Z.log2 x).
Proof.
  intros Hts Hx. unfold floorLog2. rewrite (proj2 (Z.ltb_lt _ _)) by lia. cbn [assert_ res_bind].
  assert (Hx' : x < 2 ^ 64) by (destruct Hts as [->|[->|[->| ->]]]; lia).
  destruct (log_step_spec x (8 <=? ts) 0xffffffff00000000 32 (0, x)) as [Hb1 Hl1];
    [lia|done|unfold below; simpl; lia| |done|].
  { destruct (Z.leb_spec 8 ts); [done|]. intros _. unfold below. simpl. destruct Hts as [->|[->|[->| ->]]]; lia. }
  destruct (log_step_spec x (4 <=? ts) 0x00000000ffff0000 16 (log_step (8 <=? ts) 0xffffffff00000000 32 (0, x)))
    as [Hb2 Hl2]; [lia|done|done| |done|].
  { destruct Hts as [->|[->|[->| ->]]]; try done; unfold below; simpl; lia. }
  destruct (log_step_spec x (2 <=? ts) 0x000000000000ff00 8
    (log_step (4 <=? ts) 0x00000000ffff0000 16 (log_step (8 <=? ts) 0xffffffff00000000 32 (0, x))))
    as [Hb3 Hl3]; [lia|done|done| |done|].
  { destruct Hts as [->|[->|[->| ->]]]; try done; unfold below; simpl; lia. }
  cbv zeta. set (s3 := log_step (2 <=? ts) _ _ _) in *.
  destruct (log_step_spec x true 0xf0 4 s3) as [Hb4 Hl4]; [lia|done..|].
  destruct (log_step_spec x true 0x0c 2 (log_step true 0xf0 4 s3)) as [Hb5 Hl5]; [lia|done..|].
  set (s5 := log_step true 0x0c _ _) in *. f_equal. rewrite <-Hl5, last_bit_log by done.
  destruct Hb5 as [Hp Hlt]. change (2 ^ 2) with 4 in Hlt.
  assert (s5.2 = 1 ∨ s5.2 = 2 ∨ s5.2 = 3) as [->|[->| ->]] by lia; done.
Qed.

Lemma ceilLog2_log2_up ts n : int_size ts → 0 < n < 2 ^ (8 * ts) → ceilLog2 ts n = Ok (Z.log2_up n).
Proof.
  intros Hts Hn. unfold ceilLog2. rewrite (proj2 (Z.ltb_lt _ _)) by lia. cbn [assert_ res_bind].
  destruct (Z.eqb_spec n 1) as [->|Hne]; [done|].
  rewrite floorLog2_log2 by (done || lia). simpl. rewrite Z.log2_up_eqn by lia. by rewrite Z.sub_1_r, Z.add_1_r.
Qed.

(** *** Powers of two *)
Lemma isPowerOf2_spec n : in_u 64 n → isPowerOf2 n = true ↔ ∃ k, 0 ≤ k < 64 ∧ n = 2 ^ k.
Proof.
  intros Hn. unfold isPowerOf2. rewrite andb_true_iff, negb_true_iff, Z.eqb_neq, Z.eqb_eq. split.
  - intros [H0 Hl]. rewrite u64_id in Hl by lia. exists (Z.log2 n).
    pose proof (Z.log2_spec n ltac:(lia)) as Hlog. pose proof (Z.log2_nonneg n).
    assert (Z.log2 n < 64) by (apply Z.log2_lt_pow2; lia). split; [lia|].
    destruct (Z.eq_dec n (2 ^ Z.log2 n)) as [|Hne]; [done|]. exfalso.
    assert (Hlog1 : Z.log2 (n - 1) = Z.log2 n) by (apply Z.log2_unique; lia).
    apply (f_equal (λ z, Z.testbit z (Z.log2 n))) in Hl. rewrite Z.land_spec, Z.bits_0, Z.bit_log2 in Hl by lia.
    rewrite <-Hlog1, Z.bit_log2 in Hl; [done|]. lia.
  - intros (k & Hk & ->). assert (0 < 2 ^ k) by (apply Z.pow_pos_nonneg; lia). split; [lia|].
    rewrite u64_id by lia. rewrite Z.sub_1_r, <-Z.ones_equiv, Z.land_ones by lia. apply Z.mod_same. lia.
Qed.

Lemma round_mask x k : 0 ≤ k < 64 → in_u 64 x → Z.land x (not64 (u64 (2 ^ k - 1))) = x / 2 ^ k * 2 ^ k.
Proof.
  intros Hk Hx. assert (0 < 2 ^ k < 2 ^ 64) by (split; [apply Z.pow_pos_nonneg; lia|apply Z.pow_lt_mono_r; lia]).
  rewrite u64_id, land_not64 by lia. rewrite Z.sub_1_r, <-Z.ones_equiv, Z.ldiff_ones_r by lia.
  by rewrite Z.shiftl_mul_pow2, Z.shiftr_div_pow2 by lia.
Qed.

Lemma roundUp_spec val k :
  0 ≤ k < 64 → 0 ≤ val → val + 2 ^ k ≤ 2 ^ 64 → roundUp val (2 ^ k) = Ok ((val + 2 ^ k - 1) / 2 ^ k * 2 ^ k).
Proof.
  intros Hk Hv Hs. assert (0 < 2 ^ k < 2 ^ 64) by (split; [apply Z.pow_pos_nonneg; lia|apply Z.pow_lt_mono_r; lia]).
  unfold roundUp. rewrite (proj2 (isPowerOf2_spec (2 ^ k) ltac:(lia))) by eauto. cbn [assert_ res_bind].
  rewrite round_mask by (done || apply u64_range). rewrite (u64_id (2 ^ k - 1)), u64_id by lia. do 3 f_equal. lia.
Qed.

Lemma roundDown_spec val k : 0 ≤ k < 64 → in_u 64 val → roundDown val (2 ^ k) = Ok (val / 2 ^ k * 2 ^ k).
Proof.
  intros Hk Hv. assert (0 < 2 ^ k < 2 ^ 64) by (split; [apply Z.pow_pos_nonneg; lia|apply Z.pow_lt_mono_r; lia]).
  unfold roundDown. rewrite (proj2 (isPowerOf2_spec (2 ^ k) ltac:(lia))) by eauto. cbn [assert_ res_bind].
  by rewrite round_mask.
Qed.

(** [y] is [x] with each bit spread over the [n - 1] bits below it. *)
Definition smeared (n x y : Z) : Prop :=
  ∀ i, 0 ≤ i → Z.testbit y i = true ↔ ∃ d, 0 ≤ d < n ∧ Z.testbit x (i + d) = true.

Lemma smear_step n x y : 0 < n → smeared n x y → smeared (2 * n) x (Z.lor y (Z.shiftr y n)).
Proof.
  intros Hn Hy i Hi. rewrite Z.lor_spec, Z.shiftr_spec, orb_true_iff by lia.
  rewrite (Hy i), (Hy (i + n)) by lia. split.
  - intros [(d & Hd & Hb)|(d & Hd & Hb)]; [exists d; split; [lia|done]|].
    exists (n + d). split; [lia|]. by rewrite Z.add_assoc.
  - intros (d & Hd & Hb). destruct (decide (d < n)); [left; exists d; split; [lia|done]|].
    right. exists (d - n). split; [lia|]. by replace (i + n + (d - n)) with (i + d) by lia.
Qed.

Lemma smeared_full x y : 0 < x < 2 ^ 64 → 0 ≤ y → smeared 64 x y → y = Z.ones (Z.log2 x + 1).
Proof.
  intros Hx Hy0 Hy. pose proof (Z.log2_nonneg x). assert (Z.log2 x < 64) by (apply Z.log2_lt_pow2; lia).
  apply Z.bits_inj'. intros i Hi. destruct (decide (i ≤ Z.log2 x)).
  - rewrite Z.ones_spec_low by lia. apply Hy; [done|]. exists (Z.log2 x - i). split; [lia|].
    replace (i + (Z.log2 x - i)) with (Z.log2 x) by lia. apply Z.bit_log2. lia.
  - rewrite Z.ones_spec_high by lia. apply not_true_iff_false. intros Ht. apply Hy in Ht as (d & Hd & Hb); [|done].
    rewrite Z.bits_above_log2 in Hb by lia. done.
Qed.

Lemma smear_spec x : 0 < x < 2 ^ 64 →
  let y := Z.lor x (Z.shiftr x 1) in let y := Z.lor y (Z.shiftr y 2) in
  let y := Z.lor y (Z.shiftr y 4) in let y := Z.lor y (Z.shiftr y 8) in
  let y := Z.lor y (Z.shiftr y 16) in let y := Z.lor y (Z.shiftr y 32) in
  y = Z.ones (Z.log2 x + 1).
Proof.
  intros Hx. apply smeared_full; [done| |].
  - repeat (apply Z.lor_nonneg; split); try apply Z.shiftr_nonneg; repeat (apply Z.lor_nonneg; split; try apply Z.shiftr_nonneg); lia.
  - apply (smear_step 32); [lia|]. apply (smear_step 16); [lia|]. apply (smear_step 8); [lia|].
    apply (smear_step 4); [lia|]. apply (smear_step 2); [lia|]. apply (smear_step 1); [lia|].
    intros i Hi. split; [intros Hb; exists 0; by rewrite Z.add_0_r|].
    intros (d & Hd & Hb). by replace (i + d) with i in Hb by lia.
Qed.

Lemma alignToPowerOfTwo_spec val : 0 < val ≤ 2 ^ 63 → alignToPowerOfTwo val = 2 ^ Z.log2_up val.
Proof.
  intros Hv. unfold alignToPowerOfTwo. rewrite (u64_id (val - 1)) by lia.
  destruct (Z.eq_dec val 1) as [->|Hne]; [done|].
  rewrite smear_spec by lia. rewrite Z.log2_up_eqn, <-Z.sub_1_r by lia.
  pose proof (Z.log2_nonneg (val - 1)).
  assert (Z.log2 (val - 1) < 63) by (apply Z.log2_lt_pow2; lia).
  rewrite Z.ones_equiv, <-Z.sub_1_r. replace (2 ^ (Z.log2 (val - 1) + 1) - 1 + 1) with (2 ^ (Z.log2 (val - 1) + 1)) by lia.
  apply u64_id. split; [apply Z.pow_nonneg; lia|]. apply Z.pow_lt_mono_r; lia.
Qed.

(** ** Fields *)
Lemma mask_range_spec first last i :
  0 ≤ last ≤ first → first < 64 → 0 ≤ i → Z.testbit (mask_range first last) i = (last <=? i) && (i <=? first).
Proof.
  intros Hl Hf Hi. unfold mask_range, mbits. change ones64 with (Z.ones 64). rewrite u32_id by lia.
  rewrite !mask_ones, !Z.land_spec, not64_spec by lia.
  rewrite !Z.testbit_ones_nonneg by lia.
  destruct (Z.ltb_spec i 64), (Z.ltb_spec i (first + 1)), (Z.ltb_spec i last), (Z.leb_spec last i), (Z.leb_spec i first); done || lia.
Qed.

Lemma insertBits_spec val first last b :
  in_u 64 val → 0 ≤ last ≤ first → first < 64 →
  ∃ r, insertBits val first last b = Ok r ∧
    ∀ i, 0 ≤ i → Z.testbit r i = if (last <=? i) && (i <=? first) then Z.testbit b (i - last) else Z.testbit val i.
Proof.
  intros Hv Hl Hf. unfold insertBits, shl64.
  rewrite !(proj2 (Z.leb_le _ _)), (proj2 (Z.ltb_lt last 64)) by lia. simpl. eexists. split; [done|].
  intros i Hi. rewrite land_not64, Z.lor_spec, Z.ldiff_spec, Z.land_spec, mask_range_spec by done.
  destruct (Z.leb_spec last i), (Z.leb_spec i first); simpl; rewrite ?andb_true_r, ?andb_false_r, ?orb_false_r; try done.
  unfold u64. rewrite Z.mod_pow2_bits_low, Z.shiftl_spec by lia. done.
Qed.

(** ** Products *)
Lemma high_half A a B b : in_u 32 A → in_u 32 a → in_u 32 B → in_u 32 b →
  (A * 2 ^ 32 + a) * (B * 2 ^ 32 + b) / 2 ^ 64 = A * B + (a * b / 2 ^ 32 + A * b + a * B) / 2 ^ 32.
Proof.
  intros HA Ha HB Hb. pose proof (Z.div_mod (a * b) (2 ^ 32) ltac:(lia)) as Hab.
  pose proof (Z.mod_pos_bound (a * b) (2 ^ 32) ltac:(lia)) as Hm.
  set (c := a * b / 2 ^ 32) in *. set (l := (a * b) mod 2 ^ 32) in *.
  replace ((A * 2 ^ 32 + a) * (B * 2 ^ 32 + b)) with (l + (c + A * b + a * B + A * B * 2 ^ 32) * 2 ^ 32) by lia.
  replace (2 ^ 64) with (2 ^ 32 * 2 ^ 32) by lia.
  rewrite <-Z.div_div, Z.div_add, (Z.div_small l), Z.add_0_l, Z.div_add by lia. lia.
Qed.

Lemma half_sum x y z :
  x / 2 + y / 2 + z / 2 + (x mod 2 + y mod 2 + z mod 2) / 2 = (x + y + z) / 2.
Proof.
  pose proof (Z.div_mod x 2 ltac:(lia)). pose proof (Z.div_mod y 2 ltac:(lia)). pose proof (Z.div_mod z 2 ltac:(lia)).
  replace (x + y + z) with ((x mod 2 + y mod 2 + z mod 2) + (x / 2 + y / 2 + z / 2) * 2) by lia.
  rewrite Z.div_add by lia. lia.
Qed.

Lemma mulUnsignedManual_eq a b : in_u 64 a → in_u 64 b → mulUnsignedManual a b = mulUnsigned a b.
Proof.
  intros Ha Hb. unfold mulUnsignedManual, mulUnsigned. f_equal. rewrite !Z.shiftr_div_pow2 by lia.
  assert (HA : in_u 32 (a / 2 ^ 32)) by (split; [apply Z.div_pos|apply Z.div_lt_upper_bound]; lia).
  assert (HB : in_u 32 (b / 2 ^ 32)) by (split; [apply Z.div_pos|apply Z.div_lt_upper_bound]; lia).
  rewrite (u32_id (a / 2 ^ 32)), (u32_id (b / 2 ^ 32)) by done. unfold u32.
  pose proof (Z.mod_pos_bound a (2 ^ 32) ltac:(lia)) as Hla. pose proof (Z.mod_pos_bound b (2 ^ 32) ltac:(lia)) as Hlb.
  pose proof (Z.div_mod a (2 ^ 32) ltac:(lia)) as Ea. pose proof (Z.div_mod b (2 ^ 32) ltac:(lia)) as Eb.
  set (A := a / 2 ^ 32) in *. set (al := a mod 2 ^ 32) in *. set (B := b / 2 ^ 32) in *. set (bl := b mod 2 ^ 32) in *.
  replace (a * b) with ((A * 2 ^ 32 + al) * (B * 2 ^ 32 + bl)) by (rewrite Ea, Eb; lia).
  rewrite high_half by done.
  assert (Hp : ∀ x y, in_u 32 x → in_u 32 y → 0 ≤ x * y ≤ (2 ^ 32 - 1) * (2 ^ 32 - 1)) by (intros; nia).
  pose proof (Hp al bl Hla Hlb). pose proof (Hp A bl HA Hlb). pose proof (Hp al B Hla HB). pose proof (Hp A B HA HB).
  rewrite !(u64_id (_ * _)) by lia.
  assert (Hc1 : in_u 32 (al * bl / 2 ^ 32)) by (split; [apply Z.div_pos|apply Z.div_lt_upper_bound]; lia).
  rewrite (Z.mod_small (al * bl / 2 ^ 32)) by done.
  set (c1 := al * bl / 2 ^ 32) in *. set (Ab := A * bl) in *. set (aB := al * B) in *.
  change 1 with (Z.ones 1). rewrite !Z.land_ones by lia. change (2 ^ Z.ones 1) with 2. change (2 ^ 1) with 2.
  assert (Hd : ∀ x, 0 ≤ x < 2 ^ 64 → 0 ≤ x / 2 ≤ x) by (intros x Hx; split; [apply Z.div_pos|apply Z.div_le_upper_bound]; lia).
  pose proof (Hd c1). pose proof (half_sum c1 Ab aB) as Hh.
  assert (Hs : 0 ≤ (c1 + Ab + aB) / 2 < 2 ^ 64) by (split; [apply Z.div_pos|apply Z.div_lt_upper_bound]; lia).
  assert (0 ≤ c1 / 2 + Ab / 2 + aB / 2) by (pose proof (Hd c1); pose proof (Hd Ab); pose proof (Hd aB); lia).
  assert (0 ≤ (c1 mod 2 + Ab mod 2 + aB mod 2) / 2).
  { apply Z.div_pos; [|lia]. pose proof (Z.mod_pos_bound c1 2). pose proof (Z.mod_pos_bound Ab 2). pose proof (Z.mod_pos_bound aB 2). lia. }
  rewrite (u64_id (c1 / 2 + _ + _)) by lia. rewrite Hh, (u64_id (_ / 2)) by done.
  by rewrite Z.div_div by lia.
Qed.

Lemma s64_range z : - 2 ^ 63 ≤ s64 z < 2 ^ 63.
Proof. pose proof (u64_range z). unfold s64. destruct (Z.ltb_spec (u64 z) (2 ^ 63)); lia. Qed.

Lemma s64_mod z z' : u64 z = u64 z' → s64 z = s64 z'.
Proof. unfold s64. by intros ->. Qed.

(** Congruence modulo [2^64]. *)
Lemma u64_eq k x y : x = y + k * 2 ^ 64 → u64 x = u64 y.
Proof. intros ->. apply Z.mod_add. lia. Qed.

Lemma u64_u64 x : u64 (u64 x) = u64 x.
Proof. apply u64_id, u64_range. Qed.
Lemma u64_sub_l x y : u64 (u64 x - y) = u64 (x - y).
Proof. apply Zminus_mod_idemp_l. Qed.

Lemma u64_signed a : - 2 ^ 63 ≤ a < 2 ^ 63 → u64 a = if a <? 0 then a + 2 ^ 64 else a.
Proof.
  intros Ha. destruct (Z.ltb_spec a 0); [|apply u64_id; lia].
  rewrite (u64_eq (-1) a (a + 2 ^ 64)) by lia. apply u64_id. lia.
Qed.

Lemma mulSignedManual_eq a b :
  - 2 ^ 63 ≤ a < 2 ^ 63 → - 2 ^ 63 ≤ b < 2 ^ 63 → mulSignedManual a b = mulSigned a b.
Proof.
  intros Ha Hb. unfold mulSignedManual, mulSigned, mulUnsigned. rewrite !Z.shiftr_div_pow2 by lia. f_equal.
  - rewrite (u64_signed a), (u64_signed b) by done. apply s64_mod.
    destruct (Z.ltb_spec a 0), (Z.ltb_spec b 0); rewrite ?u64_sub_l, ?u64_u64; try done.
    + replace ((a + 2 ^ 64) * (b + 2 ^ 64)) with (a * b + (a + b + 2 ^ 64) * 2 ^ 64) by lia.
      rewrite Z.div_add by lia. rewrite <-Z.sub_add_distr, u64_sub_l. apply (u64_eq 1). lia.
    + replace ((a + 2 ^ 64) * b) with (a * b + b * 2 ^ 64) by lia. rewrite Z.div_add by lia. f_equal. lia.
    + replace (a * (b + 2 ^ 64)) with (a * b + a * 2 ^ 64) by lia. rewrite Z.div_add by lia. f_equal. lia.
  - apply s64_mod. rewrite u64_u64. unfold u64. symmetry. apply Zmult_mod.
Qed.

(** ** Sign extension *)
Lemma not64_mask N : 0 ≤ N ≤ 64 → not64 (mask N) = Z.shiftl (Z.ones (64 - N)) N.
Proof.
  intros HN. rewrite mask_ones by done. apply Z.bits_inj'. intros i Hi. rewrite not64_spec by done.
  rewrite Z.testbit_ones_nonneg by lia. destruct (decide (i < N)).
  - rewrite Z.shiftl_spec_low, !(proj2 (Z.ltb_lt _ _)) by lia. done.
  - rewrite Z.shiftl_spec_high, Z.testbit_ones_nonneg by lia.
    destruct (Z.ltb_spec i N), (Z.ltb_spec i 64), (Z.ltb_spec (i - N) (64 - N)); done || lia.
Qed.

Lemma lor_high val N y : 0 ≤ N → 0 ≤ val < 2 ^ N → Z.lor val (Z.shiftl y N) = val + y * 2 ^ N.
Proof.
  intros HN Hv. rewrite <-Z.shiftl_mul_pow2 by done. assert (Hl : Z.land val (Z.shiftl y N) = 0).
  { apply Z.bits_inj'. intros i Hi. rewrite Z.land_spec, Z.bits_0. destruct (decide (i < N)).
    - by rewrite Z.shiftl_spec_low, andb_false_r by lia.
    - by rewrite (testbit_high val N) by lia. }
  by rewrite Z.add_nocarry_lxor, Z.lxor_lor.
Qed.

Lemma sext_spec val N :
  0 < N ≤ 64 → 0 ≤ val < 2 ^ N → sext val N = Ok (u64 (if val <? 2 ^ (N - 1) then val else val - 2 ^ N)).
Proof.
  intros HN Hv. unfold sext, bit_at. rewrite bits_spec by lia. replace (N - 1 - (N - 1) + 1) with 1 by lia.
  assert (Hp : 2 ^ N = 2 * 2 ^ (N - 1)) by (rewrite <-Z.pow_succ_r by lia; f_equal; lia).
  assert (2 ^ N ≤ 2 ^ 64) by (apply Z.pow_le_mono_r; lia). cbn [res_bind].
  destruct (Z.ltb_spec val (2 ^ (N - 1))).
  - rewrite Z.div_small by lia. simpl. by rewrite u64_id by lia.
  - replace (val / 2 ^ (N - 1)) with 1 by (apply Z.div_unique with (val - 2 ^ (N - 1)); lia). simpl.
    rewrite not64_mask, lor_high, Z.ones_equiv by lia. f_equal.
    rewrite (u64_eq (-1) (val - 2 ^ N) (val - 2 ^ N + 2 ^ 64)), u64_id by lia.
    rewrite <-Z.sub_1_r, Z.mul_sub_distr_r, <-Z.pow_add_r by lia. replace (64 - N + N) with 64 by lia. lia.
Qed.

(** ** The properties *)

(** The branching bit searches compute the mathematical logarithms: the
    most significant bit, the floor and ceiling of the logarithm, the number of
    trailing zeros, and the next power of two. *)
Theorem bit_searches_exact x :
  0 < x < 2 ^ 64 →
  findMsbSet x = Ok (Z.log2 x) ∧ floorLog2 8 x = Ok (Z.log2 x) ∧ ceilLog2 8 x = Ok (Z.log2_up x) ∧
  (∃ n c, findLsbSetFallback x = Ok n ∧ 0 ≤ n ∧ x = 2 ^ n * (2 * c + 1)) ∧
  (x ≤ 2 ^ 63 → alignToPowerOfTwo x = 2 ^ Z.log2_up x).
Proof.
  intros Hx. split_and!.
  - by apply findMsbSet_log2.
  - apply floorLog2_log2; [by do 3 right|done].
  - apply ceilLog2_log2_up; [by do 3 right|done].
  - by apply findLsbSetFallback_spec.
  - intros Hle. apply alignToPowerOfTwo_spec. lia.
Qed.

(** The 64x64-bit products without 128-bit integers are exact: the
    unsigned and the signed high and low words together are the product. *)
Theorem wide_products_exact a b :
  in_u 64 a → in_u 64 b →
  (let (high, low) := mulUnsignedManual a b in high * 2 ^ 64 + low = a * b) ∧
  mulSignedManual (s64 a) (s64 b) = mulSigned (s64 a) (s64 b).
Proof.
  intros Ha Hb. split; [|apply mulSignedManual_eq; apply s64_range].
  rewrite mulUnsignedManual_eq by done. unfold mulUnsigned, u64. rewrite Z.shiftr_div_pow2 by lia.
  rewrite (Z.mod_small (a * b / 2 ^ 64)); [pose proof (Z.div_mod (a * b) (2 ^ 64)); lia|].
  split; [apply Z.div_pos; nia|apply Z.div_lt_upper_bound; nia].
Qed.

(** [insertBits] writes a field and nothing else: reading the field gives
    the inserted value back, every bit outside it is unchanged. *)
Theorem insertBits_field val first last b :
  in_u 64 val → 0 ≤ last ≤ first → first < 64 →
  ∃ r, insertBits val first last b = Ok r ∧ bits r first last = Ok (b mod 2 ^ (first - last + 1)) ∧
    ∀ i, 0 ≤ i → (i < last ∨ first < i) → Z.testbit r i = Z.testbit val i.
Proof.
  intros Hv Hl Hf. destruct (insertBits_spec val first last b Hv Hl Hf) as (r & Hr & Hbits).
  exists r. split_and!; [done| |].
  - rewrite bits_spec by done. f_equal. apply Z.bits_inj'. intros i Hi.
    destruct (decide (i < first - last + 1)).
    + rewrite !Z.mod_pow2_bits_low, <-Z.shiftr_div_pow2, Z.shiftr_spec, Hbits by lia.
      rewrite !(proj2 (Z.leb_le _ _)) by lia. simpl. f_equal. lia.
    + by rewrite !Z.mod_pow2_bits_high by lia.
  - intros i Hi Hout. rewrite Hbits by done.
    destruct (Z.leb_spec last i), (Z.leb_spec i first); simpl; done || lia.
Qed.

Lemma bit_searches_exact_witness : findMsbSet 1000 = Ok 9 ∧ alignToPowerOfTwo 1000 = 1024.
Proof.
  destruct (bit_searches_exact 1000) as (H1 & _ & _ & _ & H2); [lia|].
  rewrite H1, H2 by lia. done.
Defined.

Lemma wide_products_exact_witness :
  let (high, low) := mulUnsignedManual (2 ^ 64 - 1) (2 ^ 63 + 5) in high * 2 ^ 64 + low = (2 ^ 64 - 1) * (2 ^ 63 + 5).
Proof. apply (wide_products_exact (2 ^ 64 - 1) (2 ^ 63 + 5)); lia. Defined.

Lemma insertBits_field_witness : ∃ r, insertBits 0xffff 7 4 0 = Ok r ∧ r = 0xff0f.
Proof.
  destruct (insertBits_field 0xffff 7 4 0) as (r & Hr & _); [lia..|]. exists r. split; [done|].
  vm_compute in Hr. congruence.
Defined.
