(* ===== verification/AddrRange.v ===== *)
(** * Address ranges (gem5 [src/base/addr_range.hh])

    Ranges of addresses, striped over interleaved parts: construction, tests,
    the flattening of an interleaved address and its inverse, and the exclusion
    of a list of ranges.  [fatal] and [panic] are [Fail Panic]. *)
From S2P Require Import Prelude Bitfield.
Local Open Scope Z_scope.

Record AddrRange := mkRange { r_start : Z; r_end : Z; masks : list Z; intlvMatch : Z }.
#[global] Instance AddrRange_eq_dec : EqDecision AddrRange.
Proof. solve_decision. Defined.

Definition fatal_if (b : bool) : res unit := if b then Fail Panic else Ok tt.

(** [popCount] and [ctz64] of [base/bitfield.hh]. *)
Definition popCount (v : Z) : Z := foldr (λ i n, Z.b2z (Z.testbit v i) + n) 0 (seqZ 0 64).
Definition ctz64 (v : Z) : Z :=
  match list_find (λ i, Z.testbit v i = true) (seqZ 0 64) with Some (_, i) => i | None => 64 end.

(** [n] as an [int]. *)
Definition s32 (z : Z) : Z := if u32 z <? 2 ^ 31 then u32 z else u32 z - 2 ^ 32.
Definition size_of (l : list Z) : Z := Z.of_nat (length l).

(** ** Construction *)
Definition new_AddrRange_empty : AddrRange := mkRange 1 0 [] 0.
Definition new_AddrRange (start end_ : Z) : AddrRange := mkRange start end_ [] 0.
Definition new_AddrRange_masks (start end_ : Z) (ms : list Z) (match_ : Z) : res AddrRange :=
  let* stripes := match ms with [] => Ok 0 | _ => shl64 1 (size_of ms) end in
  let* _ := fatal_if (match ms with [] => false | _ => stripes <=? match_ end) in
  Ok (mkRange start end_ ms match_).

(** The mask of the [i]-th interleaving bit from the top. *)
Definition intlv_mask (intlv_high xor_high i : Z) : res Z :=
  let* mask := shl64 1 (u8 (intlv_high - i)) in
  if negb (xor_high =? 0) then let* m2 := shl64 1 (u8 (xor_high - i)) in Ok (Z.lor mask m2) else Ok mask.
Fixpoint intlv_masks (intlv_high xor_high : Z) (n : nat) : res (list Z) :=
  match n with
  | O => Ok []
  | S n =>
      let* m := intlv_mask intlv_high xor_high (Z.of_nat n) in
      let* ms := intlv_masks intlv_high xor_high n in
      Ok (m :: ms)
  end.
Definition new_AddrRange_intlv (start end_ intlv_high xor_high intlv_bits match_ : Z) : res AddrRange :=
  let* _ := if intlv_bits =? 0 then Ok tt
            else let* stripes := shl64 1 intlv_bits in fatal_if (stripes <=? match_) in
  let* _ := fatal_if (negb (intlv_bits =? 0) && negb (xor_high =? 0) &&
                      ((xor_high =? intlv_high) || (Z.abs (xor_high - intlv_high) <? intlv_bits))) in
  let* ms := intlv_masks intlv_high xor_high (Z.to_nat intlv_bits) in
  Ok (mkRange start end_ ms match_).

(** ** Tests *)
Definition interleaved (r : AddrRange) : bool := match masks r with [] => false | _ => true end.

Definition size (r : AddrRange) : res Z := shr64 (u64 (r_end r - r_start r)) (size_of (masks r)).

(** The masks are collected in an [int]. *)
Definition combined_mask (ms : list Z) : Z := fold_left (λ c m, s32 (Z.lor (u64 c) m)) ms 0.
Definition granularity (r : AddrRange) : res Z :=
  if interleaved r then shl64 1 (u8 (ctz64 (u64 (combined_mask (masks r))))) else size r.

Definition stripes (r : AddrRange) : res Z := let* s := shl64 1 (size_of (masks r)) in Ok (u32 s).
Definition valid (r : AddrRange) : bool := r_start r <=? r_end r.

Definition mergesWith (r r2 : AddrRange) : bool :=
  (r_start r2 =? r_start r) && (r_end r2 =? r_end r) && bool_decide (masks r2 = masks r).

(** The selector of an address: bit [i] is the parity of the bits under the
    [i]-th mask.  It is an [int], so a range has at most 31 masks. *)
Fixpoint sel_from (ms : list Z) (i a : Z) : Z :=
  match ms with
  | [] => 0
  | m :: ms => Z.lor (Z.shiftl (popCount (Z.land a m) mod 2) i) (sel_from ms (i + 1) a)
  end.
Definition contains (r : AddrRange) (a : Z) : bool :=
  if (r_start r <=? a) && (a <? r_end r) then sel_from (masks r) 0 a =? intlvMatch r else false.

Definition intersects (r r2 : AddrRange) : res bool :=
  if (r_end r2 <=? r_start r) || (r_end r <=? r_start r2) then Ok false
  else if negb (interleaved r) && negb (interleaved r2) then Ok true
  else
    let* sz := size r2 in
    if sz =? 1 then Ok (contains r (r_start r2))
    else if mergesWith r r2 then Ok (intlvMatch r =? intlvMatch r2)
    else Fail Panic.

Definition isSubset (r r2 : AddrRange) : res bool :=
  let* _ := fatal_if (interleaved r) in
  if interleaved r2 then
    if contains r2 (r_start r) then
      let* sz := size r in
      let* g := granularity r2 in
      if sz <=? g then
        if r_start r =? u64 (r_end r - 1) then Ok true else Ok (contains r2 (u64 (r_end r - 1)))
      else Ok false
    else Ok false
  else if r_end r <=? r_start r then Ok ((r_start r2 <=? r_start r) && (r_end r2 =? 0))
  else if r_end r2 <=? r_start r2 then Ok (r_start r2 <=? r_start r)
  else Ok ((r_start r2 <=? r_start r) && (r_end r <=? r_end r2)).

(** [operator<] and [operator&]. *)
Definition range_lt (r r2 : AddrRange) : bool :=
  if negb (r_start r =? r_start r2) then r_start r <? r_start r2
  else if interleaved r && interleaved r2 then intlvMatch r <? intlvMatch r2
  else interleaved r.
Definition range_and (r r2 : AddrRange) : res AddrRange :=
  let* _ := fatal_if (interleaved r || interleaved r2) in
  let start := Z.max (r_start r) (r_start r2) in
  let end_ := Z.min (r_end r) (r_end r2) in
  if end_ <=? start then Ok (new_AddrRange 0 0) else Ok (new_AddrRange start end_).

(** Merging all the stripes of a range; [match_] counts in a [uint8_t]. *)
Fixpoint check_stripes (r0 : AddrRange) (rs : list AddrRange) (match_ : Z) : res unit :=
  match rs with
  | [] => Ok tt
  | r :: rs =>
      let* _ := fatal_if (negb (mergesWith r0 r)) in
      let* _ := fatal_if (negb (intlvMatch r =? match_)) in
      check_stripes r0 rs (u8 (match_ + 1))
  end.
Definition new_AddrRange_merge (rs : list AddrRange) : res AddrRange :=
  match rs with
  | [] => Ok new_AddrRange_empty
  | [r] => Ok r
  | r0 :: _ =>
      let* n := shl64 1 (size_of (masks r0)) in
      let* _ := fatal_if (negb (Z.of_nat (length rs) =? n)) in
      let* _ := check_stripes r0 rs 0 in
      Ok (mkRange (r_start r0) (r_end r0) [] 0)
  end.

(** ** Flattening an interleaved address *)
Definition masks_lsb (r : AddrRange) : list Z := merge_sort Z.le (map ctz64 (masks r)).

Fixpoint remove_loop (lsb : list Z) (i a : Z) : res Z :=
  match lsb with
  | [] => Ok a
  | intlv_bit :: lsb =>
      let* a := if 0 <? intlv_bit then insertBits (Z.shiftr a 1) (u32 (intlv_bit - i - 1)) 0 a
                else Ok (Z.shiftr a 1) in
      remove_loop lsb (i + 1) a
  end.
Definition removeIntlvBits (r : AddrRange) (a : Z) : res Z :=
  if negb (interleaved r) then Ok a else remove_loop (masks_lsb r) 0 a.

Fixpoint add_loop (lsb : list Z) (a : Z) : res Z :=
  match lsb with
  | [] => Ok a
  | intlv_bit :: lsb =>
      let* a := if 0 <? intlv_bit then insertBits (u64 (Z.shiftl a 1)) (intlv_bit - 1) 0 a
                else Ok (u64 (Z.shiftl a 1)) in
      add_loop lsb a
  end.
(** [~(1 << lsb)] on [int], as an [Addr]. *)
Definition not_bit (lsb : Z) : res Z := if lsb <? 32 then Ok (u64 (- s32 (2 ^ lsb) - 1)) else Fail Undefined.
Fixpoint select_loop (ms : list Z) (i match_ a : Z) : res Z :=
  match ms with
  | [] => Ok a
  | m :: ms =>
      let lsb := ctz64 m in
      let* intlv_bit := bit_at match_ i in
      let* nb := not_bit lsb in
      let masked := Z.land (Z.land a m) nb in
      let* a := insertBits a lsb lsb (Z.lxor intlv_bit (popCount masked)) in
      select_loop ms (i + 1) match_ a
  end.
Definition addIntlvBits (r : AddrRange) (a : Z) : res Z :=
  if negb (interleaved r) then Ok a
  else
    let* a := add_loop (masks_lsb r) a in
    select_loop (masks r) 0 (intlvMatch r) a.

Definition MaxAddr : Z := 2 ^ 64 - 1.
Definition getOffset (r : AddrRange) (a : Z) : res Z :=
  if negb ((r_start r <=? a) && (a <? r_end r)) then Ok MaxAddr
  else if interleaved r then
    let* x := removeIntlvBits r a in
    let* y := removeIntlvBits r (r_start r) in
    Ok (u64 (x - y))
  else Ok (u64 (a - r_start r)).

(** ** Exclusion *)
(** [std::list::sort] with [operator<]: a stable sort. *)
Fixpoint sort_insert (r : AddrRange) (l : list AddrRange) : list AddrRange :=
  match l with
  | [] => [r]
  | x :: l => if range_lt x r then x :: sort_insert r l else r :: x :: l
  end.
Definition range_sort (l : list AddrRange) : list AddrRange := foldr sort_insert [] l.

(** The loop of [exclude]; [acc] is [ranges]. *)
Fixpoint exclude_loop (r : AddrRange) (es acc : list AddrRange) (next_start : Z) : res (list AddrRange) :=
  match es with
  | [] => Ok (if next_start <? r_end r then acc ++ [new_AddrRange next_start (r_end r)] else acc)
  | e :: es =>
      let* _ := assert_ (negb (interleaved e)) in
      let* b := intersects r e in
      if negb b then exclude_loop r es acc next_start
      else if r_start e <=? next_start then
        if r_end e <? r_end r then
          exclude_loop r es acc (if next_start <? r_end e then r_end e else next_start)
        else Ok acc
      else
        let acc := acc ++ [new_AddrRange next_start (r_start e)] in
        if r_end e <? r_end r then exclude_loop r es acc (r_end e) else Ok acc
  end.
Definition exclude (r : AddrRange) (exclude_ranges : list AddrRange) : res (list AddrRange) :=
  let* _ := assert_ (negb (interleaved r)) in
  exclude_loop r (range_sort exclude_ranges) [] (r_start r).

(** [exclude] of a list from a list. *)
Fixpoint list_exclude_loop (base to_exclude : list AddrRange) : res (list AddrRange) :=
  match base with
  | [] => Ok []
  | r :: base =>
      let* l := exclude r to_exclude in
      let* l' := list_exclude_loop base to_exclude in
      Ok (l ++ l')
  end.
Definition list_exclude (base to_exclude : list AddrRange) : res (list AddrRange) :=
  list_exclude_loop base (range_sort to_exclude).

Definition RangeEx (start end_ : Z) : AddrRange := new_AddrRange start end_.
Definition RangeIn (start end_ : Z) : AddrRange := new_AddrRange start (u64 (end_ + 1)).
Definition RangeSize (start sz : Z) : AddrRange := new_AddrRange start (u64 (start + sz)).

(** ** Plain ranges *)
Definition plain (r : AddrRange) : Prop := masks r = [] ∧ intlvMatch r = 0 ∧ 0 ≤ r_start r ∧ r_start r ≤ r_end r < 2 ^ 64.

Lemma plain_interleaved r : plain r → interleaved r = false.
Proof. intros (Hm & _). unfold interleaved. by rewrite Hm. Qed.
Lemma plain_contains r a : plain r → contains r a = true ↔ r_start r ≤ a < r_end r.
Proof.
  intros (Hm & Hi & _). unfold contains. rewrite Hm, Hi. simpl.
  destruct (Z.leb_spec (r_start r) a), (Z.ltb_spec a (r_end r)); simpl; split; intros; try done; lia.
Qed.
Lemma new_plain s e : 0 ≤ s ≤ e → e < 2 ^ 64 → plain (new_AddrRange s e).
Proof. intros. unfold plain. simpl. split_and!; done || lia. Qed.

Lemma plain_intersects r e :
  plain r → plain e → intersects r e = Ok (negb ((r_end e <=? r_start r) || (r_end r <=? r_start e))).
Proof.
  intros Hr He. unfold intersects. rewrite !plain_interleaved by done. by destruct (_ || _).
Qed.

(** The ranges left by [exclude] are sorted and separate. *)
Fixpoint ascending (lo : Z) (l : list AddrRange) : Prop :=
  match l with [] => True | r :: l => lo ≤ r_start r ∧ r_start r < r_end r ∧ plain r ∧ ascending (r_end r) l end.
Lemma ascending_app lo l r :
  ascending lo l → (∀ x, x ∈ l → r_end x ≤ r_start r) → lo ≤ r_start r → r_start r < r_end r → plain r → ascending lo (l ++ [r]).
Proof.
  revert lo. induction l as [|x l IH]; intros lo Ha Hl Hlo Hr Hp; simpl in *; [done|].
  destruct Ha as (? & ? & ? & ?). split_and!; try done. apply IH; try done; [set_solver|]. apply Hl. set_solver.
Qed.

Definition covers (l : list AddrRange) (a : Z) : Prop := ∃ r, r ∈ l ∧ contains r a = true.
Lemma covers_app l l' a : covers (l ++ l') a ↔ covers l a ∨ covers l' a.
Proof. unfold covers. set_solver. Qed.
Lemma covers_one r a : plain r → covers [r] a ↔ r_start r ≤ a < r_end r.
Proof. intros Hp. rewrite <-plain_contains by done. unfold covers. set_solver. Qed.

(** Sorted by start. *)
Lemma sort_insert_elem r l x : x ∈ sort_insert r l ↔ x = r ∨ x ∈ l.
Proof. induction l as [|y l IH]; simpl; [set_solver|]. destruct (range_lt y r); set_solver. Qed.
Lemma range_sort_elem l x : x ∈ range_sort l ↔ x ∈ l.
Proof. induction l as [|y l IH]; simpl; [done|]. rewrite sort_insert_elem. set_solver. Qed.
Definition by_start : list AddrRange → Prop := StronglySorted (λ r e, r_start r ≤ r_start e).
Lemma sort_insert_sorted r l : interleaved r = false → Forall (λ e, interleaved e = false) l → by_start l → by_start (sort_insert r l).
Proof.
  intros Hr Hf. unfold by_start. induction l as [|y l IH]; intros Hs; simpl; [by repeat constructor|].
  apply Forall_cons in Hf as [Hy Hf]. apply StronglySorted_inv in Hs as [Hs Hall].
  assert (E : range_lt y r = (r_start y <? r_start r)).
  { unfold range_lt. rewrite Hy, Hr. destruct (Z.eqb_spec (r_start y) (r_start r)); simpl; [lia|done]. }
  rewrite E. destruct (Z.ltb_spec (r_start y) (r_start r)).
  - constructor; [by apply IH|]. apply Forall_forall. intros x [->|Hx]%sort_insert_elem; [lia|].
    by eapply Forall_forall in Hall.
  - constructor; [by constructor|]. constructor; [done|]. eapply Forall_impl; [done|]. simpl. lia.
Qed.
Lemma range_sort_sorted l : Forall (λ e, interleaved e = false) l → by_start (range_sort l).
Proof.
  induction l as [|x l IH]; intros Hf; simpl; [constructor|]. apply Forall_cons in Hf as [Hx Hf].
  apply sort_insert_sorted; [done| |by apply IH]. rewrite Forall_forall in *. intros y Hy. by apply Hf, range_sort_elem.
Qed.

(** What is left of [r] from [ns] on without [es]. *)
Definition left_of (r : AddrRange) (ns : Z) (es : list AddrRange) (a : Z) : Prop := ns ≤ a < r_end r ∧ ¬ covers es a.

Lemma covers_cons e es a : plain e → covers (e :: es) a ↔ r_start e ≤ a < r_end e ∨ covers es a.
Proof. intros He. by rewrite (covers_app [e] es a), covers_one. Qed.
Lemma left_nil r ns a : left_of r ns [] a ↔ ns ≤ a < r_end r.
Proof. unfold left_of, covers. set_solver. Qed.
Lemma left_done r ns es a : r_end r ≤ ns → ¬ left_of r ns es a.
Proof. unfold left_of. lia. Qed.
Lemma left_skip r ns e es a :
  plain e → r_start r ≤ ns → r_end e ≤ r_start r ∨ r_end r ≤ r_start e → left_of r ns (e :: es) a ↔ left_of r ns es a.
Proof. intros He Hns Hm. unfold left_of. rewrite covers_cons by done. intuition lia. Qed.
Lemma left_before r ns e es a :
  plain e → r_start e ≤ ns → left_of r ns (e :: es) a ↔ left_of r (Z.max ns (r_end e)) es a.
Proof.
  intros He Hs. unfold left_of. rewrite covers_cons by done. split; intros [? Hn].
  - split; [|tauto]. destruct (decide (a < r_end e)); [exfalso; apply Hn; left; lia|lia].
  - split; [lia|]. intros [?|?]; [lia|done].
Qed.
Lemma left_gap r ns e es a :
  plain e → Forall plain es → Forall (λ x, r_start e ≤ r_start x) es → ns < r_start e → r_start e < r_end r →
  left_of r ns (e :: es) a ↔ ns ≤ a < r_start e ∨ left_of r (r_end e) es a.
Proof.
  intros He Hes Hall Hns Hr. unfold left_of. rewrite covers_cons by done.
  assert (Hlate : covers es a → r_start e ≤ a).
  { intros (x & Hx & Hc). eapply Forall_forall in Hall; [|done]. eapply Forall_forall in Hes; [|done].
    apply plain_contains in Hc; [|done]. lia. }
  assert (r_start e ≤ r_end e) by apply He. split.
  - intros [? Hn]. destruct (decide (a < r_start e)); [left; lia|]. destruct (decide (a < r_end e)); [exfalso; apply Hn; left; lia|].
    right. split; [lia|tauto].
  - intros [?|[? Hn]]; (split; [lia|]); intros [?|Hx]; try lia; [|done]. apply Hlate in Hx. lia.
Qed.

(** The loop from [next_start] on. *)
Lemma exclude_loop_spec r es acc ns :
  plain r → Forall plain es → by_start es → r_start r ≤ ns ≤ r_end r →
  ascending (r_start r) acc → (∀ x, x ∈ acc → r_end x ≤ ns) →
  ∃ out, exclude_loop r es acc ns = Ok out ∧ ascending (r_start r) out ∧
    ∀ a, covers out a ↔ covers acc a ∨ left_of r ns es a.
Proof.
  intros Hr. assert (0 ≤ r_start r ≤ r_end r ∧ r_end r < 2 ^ 64) as [? ?] by (destruct Hr as (_ & _ & ?); lia).
  revert acc ns. induction es as [|e es IH]; intros acc ns Hes Hs Hns Hasc Hacc; simpl.
  { destruct (Z.ltb_spec ns (r_end r)) as [Hlt|Hge]; eexists; (split; [done|]).
    - assert (Hp : plain (new_AddrRange ns (r_end r))) by (apply new_plain; lia).
      split; [apply ascending_app; simpl; done || lia|]. intros a. by rewrite covers_app, covers_one, left_nil by done.
    - split; [done|]. intros a. pose proof (left_done r ns [] a Hge). tauto. }
  apply Forall_cons in Hes as [He Hes]. apply StronglySorted_inv in Hs as [Hs Hall].
  rewrite (plain_interleaved e) by done. cbn [negb assert_ res_bind]. rewrite plain_intersects by done. cbn [res_bind].
  rewrite negb_involutive. assert (Hee : r_start e ≤ r_end e) by apply He.
  destruct ((r_end e <=? r_start r) || (r_end r <=? r_start e)) eqn:Hm.
  { apply orb_true_iff in Hm. rewrite !Z.leb_le in Hm.
    destruct (IH acc ns) as (out & -> & Ho & Hc); try done. exists out. do 2 (split; [done|]). intros a. by rewrite Hc, left_skip by (done || lia). }
  apply orb_false_iff in Hm. rewrite !Z.leb_gt in Hm. destruct (Z.leb_spec (r_start e) ns).
  - assert (Heq : (if ns <? r_end e then r_end e else ns) = Z.max ns (r_end e)) by (destruct (Z.ltb_spec ns (r_end e)); lia).
    rewrite Heq. destruct (Z.ltb_spec (r_end e) (r_end r)).
    + destruct (IH acc (Z.max ns (r_end e))) as (out & -> & Ho & Hc); try done; [lia|intros x Hx; specialize (Hacc x Hx); lia|].
      exists out. do 2 (split; [done|]). intros a. by rewrite Hc, left_before.
    + exists acc. do 2 (split; [done|]). intros a. rewrite left_before by done.
      pose proof (left_done r (Z.max ns (r_end e)) es a ltac:(lia)). tauto.
  - assert (Hp : plain (new_AddrRange ns (r_start e))) by (apply new_plain; lia).
    set (acc' := acc ++ [new_AddrRange ns (r_start e)]).
    assert (Hasc' : ascending (r_start r) acc') by (apply ascending_app; simpl; done || lia).
    assert (Hcov : ∀ a, covers acc' a ↔ covers acc a ∨ ns ≤ a < r_start e) by (intros a; unfold acc'; by rewrite covers_app, covers_one).
    destruct (Z.ltb_spec (r_end e) (r_end r)).
    + destruct (IH acc' (r_end e)) as (out & -> & Ho & Hc); try done; [lia| |].
      { intros x [Hx| ->%list_elem_of_singleton]%elem_of_app; [specialize (Hacc x Hx); lia|done]. }
      exists out. do 2 (split; [done|]). intros a. rewrite Hc, Hcov, left_gap by (done || lia). tauto.
    + eexists. do 2 (split; [done|]). intros a. rewrite Hcov, left_gap by (done || lia).
      pose proof (left_done r (r_end e) es a ltac:(lia)). tauto.
Qed.

(** On plain ranges [exclude] returns exactly the addresses of the range that
    are in no excluded range, as non-empty, separate ranges in ascending order,
    whatever the order and the overlaps of the excluded ones. *)
Theorem exclude_exact r es :
  plain r → Forall plain es →
  ∃ out, exclude r es = Ok out ∧ ascending (r_start r) out ∧
    ∀ a, covers out a ↔ contains r a = true ∧ ¬ covers es a.
Proof.
  intros Hr Hes. unfold exclude. rewrite plain_interleaved by done. cbn [negb assert_ res_bind].
  assert (Hiff : ∀ a, covers (range_sort es) a ↔ covers es a) by (intros a; unfold covers; by setoid_rewrite range_sort_elem).
  destruct (exclude_loop_spec r (range_sort es) [] (r_start r)) as (out & -> & Ho & Hc); try done.
  - rewrite Forall_forall in *. intros x Hx. by apply Hes, range_sort_elem.
  - apply range_sort_sorted. eapply Forall_impl; [done|]. apply plain_interleaved.
  - destruct Hr as (_ & _ & ?). lia.
  - intros x ?%elem_of_nil. done.
  - exists out. do 2 (split; [done|]). intros a. rewrite Hc. unfold left_of. rewrite Hiff, plain_contains by done.
    split; [|auto]. intros [(x & ?%elem_of_nil & _)|?]; done.
Qed.

(** On plain ranges the tests and the intersection mean what they say:
    [intersects] finds a common address, [isSubset] compares the sets of
    addresses, [operator&] has exactly the common addresses. *)
Theorem range_relations_exact r r2 :
  plain r → plain r2 → r_start r < r_end r → r_start r2 < r_end r2 →
  (∃ b, intersects r r2 = Ok b ∧ (b = true ↔ ∃ a, contains r a = true ∧ contains r2 a = true)) ∧
  (∃ b, isSubset r r2 = Ok b ∧ (b = true ↔ ∀ a, contains r a = true → contains r2 a = true)) ∧
  (∃ q, range_and r r2 = Ok q ∧ ∀ a, contains q a = true ↔ contains r a = true ∧ contains r2 a = true).
Proof.
  intros Hr Hr2 Hne Hne2. pose proof (λ a, plain_contains r a Hr) as C1. pose proof (λ a, plain_contains r2 a Hr2) as C2.
  setoid_rewrite C1. setoid_rewrite C2.
  assert (0 ≤ r_start r ∧ r_end r < 2 ^ 64 ∧ 0 ≤ r_start r2 ∧ r_end r2 < 2 ^ 64) as (? & ? & ? & ?)
    by (destruct Hr as (_ & _ & ?), Hr2 as (_ & _ & ?); lia). split_and!.
  - rewrite plain_intersects by done. eexists. split; [done|]. rewrite negb_true_iff, orb_false_iff, !Z.leb_gt. split.
    + intros. exists (Z.max (r_start r) (r_start r2)). lia.
    + intros (a & ?). lia.
  - unfold isSubset. rewrite !plain_interleaved by done. cbn [fatal_if res_bind].
    rewrite (proj2 (Z.leb_gt _ _)), (proj2 (Z.leb_gt _ _)) by done. eexists. split; [done|].
    rewrite andb_true_iff, !Z.leb_le. split; [lia|]. intros Ha. pose proof (Ha (r_start r)). pose proof (Ha (r_end r - 1)). lia.
  - unfold range_and. rewrite !plain_interleaved by done. cbn [orb fatal_if res_bind].
    destruct (Z.leb_spec (Z.min (r_end r) (r_end r2)) (Z.max (r_start r) (r_start r2))); eexists; (split; [done|]); intros a;
      (rewrite plain_contains; [|apply new_plain; lia]); simpl; lia.
Qed.

(** ** Witnesses *)
Lemma exclude_exact_witness :
  ∃ out, exclude (new_AddrRange 0 100) [new_AddrRange 50 60; new_AddrRange 10 20; new_AddrRange 15 30] = Ok out ∧
    covers out 40 ∧ ¬ covers out 55.
Proof.
  assert (Hp : ∀ s e, 0 ≤ s ≤ e → e ≤ 100 → plain (new_AddrRange s e)) by (intros; apply new_plain; lia).
  destruct (exclude_exact (new_AddrRange 0 100) [new_AddrRange 50 60; new_AddrRange 10 20; new_AddrRange 15 30])
    as (out & Ho & _ & Hc); [apply Hp; lia|repeat constructor; try apply Hp; lia|].
  exists out. split; [done|]. rewrite !Hc. split.
  - split; [done|]. intros (x & Hx & Hb). rewrite !elem_of_cons in Hx.
    by destruct Hx as [->|[->|[->|?%elem_of_nil]]].
  - intros [_ Hn]. apply Hn. exists (new_AddrRange 50 60). split; [apply elem_of_cons; by left|done].
Defined.
Lemma range_relations_exact_witness :
  ∃ b, intersects (new_AddrRange 0 100) (new_AddrRange 50 200) = Ok b ∧
    (b = true ↔ ∃ a, contains (new_AddrRange 0 100) a = true ∧ contains (new_AddrRange 50 200) a = true).
Proof.
  refine (proj1 (range_relations_exact (new_AddrRange 0 100) (new_AddrRange 50 200) _ _ _ _));
    try (apply new_plain; lia); simpl; lia.
Defined.
