(* ===== verification/AddrIntlv.v ===== *)
(** * Interleaved address ranges: the properties

    The stripes of an interleaved range partition it, and
    [addIntlvBits] undoes [removeIntlvBits] on the addresses of a stripe. *)
From S2P Require Import Prelude Bitfield AddrRange.
Local Open Scope Z_scope.

(** ** Counting bits *)
Definition bit_sum (l : list Z) (v : Z) : Z := foldr (λ i n, Z.b2z (Z.testbit v i) + n) 0 l.
Lemma bit_sum_agree l x y : (∀ i, i ∈ l → Z.testbit x i = Z.testbit y i) → bit_sum l x = bit_sum l y.
Proof. induction l as [|i l IH]; intros Hag; simpl; [done|]. rewrite Hag, IH; set_solver. Qed.
Lemma bit_sum_flip l x y b :
  b ∈ l → NoDup l → (∀ i, i ∈ l → i ≠ b → Z.testbit x i = Z.testbit y i) → Z.testbit y b = false →
  bit_sum l x = bit_sum l y + Z.b2z (Z.testbit x b).
Proof.
  induction l as [|i l IH]; intros Hin Hnd Hag Hy; simpl; [by apply elem_of_nil in Hin|].
  apply NoDup_cons in Hnd as [Hni Hnd]. destruct (decide (i = b)) as [->|Hne].
  - rewrite (bit_sum_agree l x y), Hy; [simpl; lia|]. intros j Hj. apply Hag; [set_solver|]. by intros ->.
  - rewrite Hag, IH; [lia|set_solver..].
Qed.

Lemma popCount_agree x y : (∀ i, 0 ≤ i < 64 → Z.testbit x i = Z.testbit y i) → popCount x = popCount y.
Proof. intros Hag. apply (bit_sum_agree (seqZ 0 64)). intros i Hi%elem_of_seqZ. apply Hag. lia. Qed.
Lemma popCount_flip x y b :
  0 ≤ b < 64 → (∀ i, 0 ≤ i < 64 → i ≠ b → Z.testbit x i = Z.testbit y i) → Z.testbit y b = false →
  popCount x = popCount y + Z.b2z (Z.testbit x b).
Proof.
  intros Hb Hag Hy. apply (bit_sum_flip (seqZ 0 64)); [apply elem_of_seqZ; lia|apply NoDup_seqZ| |done].
  intros i Hi%elem_of_seqZ Hne. apply Hag; [lia|done].
Qed.

(** The lowest set bit. *)
Lemma ctz64_spec m : in_u 64 m → m ≠ 0 →
  0 ≤ ctz64 m < 64 ∧ Z.testbit m (ctz64 m) = true ∧ ∀ i, 0 ≤ i < ctz64 m → Z.testbit m i = false.
Proof.
  intros Hm H0. unfold ctz64. destruct (list_find _ _) as [[k i]|] eqn:E.
  - apply list_find_Some in E as (Hl & Hb & Hmin). pose proof Hl as Hin%list_elem_of_lookup_2%elem_of_seqZ.
    split; [lia|]. split; [done|]. intros j Hj. apply lookup_seqZ in Hl as [-> Hk].
    apply not_true_is_false. apply (Hmin (Z.to_nat j) j); [apply lookup_seqZ; lia|lia].
  - apply list_find_None in E. exfalso. apply H0. apply Z.bits_inj'. intros i Hi. rewrite Z.bits_0.
    destruct (decide (i < 64)); [|apply (testbit_high m 64); lia].
    apply not_true_is_false. rewrite Forall_forall in E. apply E, elem_of_seqZ. lia.
Qed.

(** ** The selector *)
Lemma sel_from_bits ms i a j :
  0 ≤ i → 0 ≤ j → Z.testbit (sel_from ms i a) j = (i <=? j) &&
    match ms !! Z.to_nat (j - i) with Some m => popCount (Z.land a m) mod 2 =? 1 | None => false end.
Proof.
  revert i. induction ms as [|m ms IH]; intros i Hi Hj; simpl; [by rewrite Z.bits_0, andb_false_r|].
  rewrite Z.lor_spec, IH, Z.shiftl_spec by lia.
  assert (Hp : 0 ≤ popCount (Z.land a m) mod 2 < 2) by (apply Z.mod_pos_bound; lia).
  set (p := popCount (Z.land a m) mod 2) in *. destruct (Z.leb_spec i j).
  - destruct (Z.to_nat (j - i)) as [|k] eqn:E.
    + replace (j - i) with 0 by lia. rewrite (proj2 (Z.leb_gt (i + 1) j)) by lia. rewrite orb_false_r. simpl. fold p.
      assert (p = 0 ∨ p = 1) as [->| ->] by lia; done.
    + rewrite (proj2 (Z.leb_le (i + 1) j)) by lia. replace (Z.to_nat (j - (i + 1))) with k by lia. simpl.
      rewrite (testbit_high p 1) by lia. done.
  - rewrite (proj2 (Z.leb_gt (i + 1) j)) by lia. rewrite Z.testbit_neg_r by lia. done.
Qed.
Lemma sel_from_range ms i a : 0 ≤ i → 0 ≤ sel_from ms i a < 2 ^ (i + size_of ms).
Proof.
  unfold size_of. revert i. induction ms as [|m ms IH]; intros i Hi; cbn [sel_from length]; [split; [lia|apply Z.pow_pos_nonneg; lia]|].
  assert (Hp : 0 ≤ popCount (Z.land a m) mod 2 < 2) by (apply Z.mod_pos_bound; lia).
  set (p := popCount (Z.land a m) mod 2) in *. destruct (IH (i + 1)) as [H1 H2]; [lia|].
  replace (i + 1 + Z.of_nat (length ms)) with (i + Z.of_nat (S (length ms))) in H2 by lia. split.
  - apply Z.lor_nonneg. split; [apply Z.shiftl_nonneg; lia|lia].
  - apply Z.log2_lt_cancel. rewrite Z.log2_lor by (try apply Z.shiftl_nonneg; lia). rewrite Z.log2_pow2 by lia.
    assert (Z.log2 (Z.shiftl p i) < i + Z.of_nat (S (length ms))).
    { assert (p = 0 ∨ p = 1) as [->| ->] by lia; [rewrite Z.shiftl_0_l; simpl; lia|].
      rewrite Z.log2_shiftl by lia. simpl. lia. }
    assert (Z.log2 (sel_from ms (i + 1) a) < i + Z.of_nat (S (length ms))).
    { destruct (Z.eq_dec (sel_from ms (i + 1) a) 0) as [->|?]; [simpl; lia|]. apply Z.log2_lt_pow2; lia. }
    lia.
Qed.

(** ** Removing and inserting bits, on functions *)
Definition del (b : Z) (f : Z → bool) (j : Z) : bool := if j <? b then f j else f (j + 1).
Definition gap (b : Z) (f : Z → bool) (j : Z) : bool := if j <? b then f j else f (j - 1).
Fixpoint dels (l : list Z) (i : Z) (f : Z → bool) : Z → bool :=
  match l with [] => f | b :: l => dels l (i + 1) (del (b - i) f) end.
Fixpoint gaps (l : list Z) (f : Z → bool) : Z → bool :=
  match l with [] => f | b :: l => gaps l (gap b f) end.

Lemma del_ext b f g : (∀ j, f j = g j) → ∀ j, del b f j = del b g j.
Proof. intros E j. unfold del. by rewrite !E. Qed.
Lemma gap_ext b f g : (∀ j, f j = g j) → ∀ j, gap b f j = gap b g j.
Proof. intros E j. unfold gap. by rewrite !E. Qed.
Lemma gaps_ext l f g : (∀ j, f j = g j) → ∀ j, gaps l f j = gaps l g j.
Proof. revert f g. induction l as [|b l IH]; intros f g E; simpl; [done|]. apply IH. by apply gap_ext. Qed.

Lemma gap_del b f j : j ≠ b → gap b (del b f) j = f j.
Proof.
  intros Hne. unfold gap, del. destruct (Z.ltb_spec j b); [done|]. rewrite (proj2 (Z.ltb_ge _ _)) by lia. f_equal. lia.
Qed.
Lemma gap_del_comm c b f j : c ≤ b → gap c (del b f) j = del (b + 1) (gap c f) j.
Proof.
  intros Hc. unfold gap, del. destruct (Z.ltb_spec j c).
  - rewrite !(proj2 (Z.ltb_lt _ _)) by lia. done.
  - destruct (Z.ltb_spec (j - 1) b); [rewrite (proj2 (Z.ltb_lt j _)) by lia; done|].
    rewrite (proj2 (Z.ltb_ge j _)), (proj2 (Z.ltb_ge (j + 1) c)) by lia. f_equal. lia.
Qed.

Notation increasing := (StronglySorted Z.lt).
Lemma increasing_room c l b : increasing (c :: l) → Forall (λ x, x < b) (c :: l) → c + Z.of_nat (length l) < b.
Proof.
  revert c. induction l as [|d l IH]; intros c Hs Hb; apply Forall_cons in Hb as [Hc Hb]; simpl; [lia|].
  apply StronglySorted_inv in Hs as [Hs Hall]. specialize (IH d Hs Hb). apply Forall_cons in Hall as [? _]. lia.
Qed.

Lemma gaps_del l b f j :
  increasing l → Forall (λ x, x < b) l → gaps l (del (b - Z.of_nat (length l)) f) j = del b (gaps l f) j.
Proof.
  revert f. induction l as [|c l IH]; intros f Hs Hb; simpl length; [by rewrite Z.sub_0_r|]. cbn [gaps].
  pose proof (increasing_room c l b Hs Hb). apply StronglySorted_inv in Hs as [Hs _]. apply Forall_cons in Hb as [_ Hb].
  rewrite <-IH by done. apply gaps_ext. intros k. rewrite gap_del_comm by lia. f_equal. lia.
Qed.

Lemma dels_snoc l b i f j : dels (l ++ [b]) i f j = del (b - i - Z.of_nat (length l)) (dels l i f) j.
Proof.
  revert i f. induction l as [|c l IH]; intros i f; simpl; [by rewrite Z.sub_0_r|]. rewrite IH. f_equal. lia.
Qed.
Lemma gaps_snoc l b f j : gaps (l ++ [b]) f j = gap b (gaps l f) j.
Proof. revert f. by induction l as [|c l IH]; intros f; simpl. Qed.

Lemma increasing_snoc l b : increasing (l ++ [b]) → increasing l ∧ Forall (λ x, x < b) l.
Proof.
  induction l as [|c l IH]; intros Hs; simpl in *; [by repeat constructor|].
  apply StronglySorted_inv in Hs as [Hs Hall]. destruct (IH Hs) as [H1 H2]. apply Forall_app in Hall as [Ha Hb].
  split; constructor; try done. by apply Forall_cons in Hb as [? _].
Qed.

(** Putting the gaps back where bits were removed restores the other bits. *)
Lemma gaps_dels l f j : increasing l → j ∉ l → gaps l (dels l 0 f) j = f j.
Proof.
  induction l as [|b l IH] using rev_ind; intros Hs Hj; [done|].
  destruct (increasing_snoc l b Hs) as [Hl Hb]. apply not_elem_of_app in Hj as [Hj Hjb].
  rewrite gaps_snoc, (gap_ext b _ (del b (gaps l (dels l 0 f)))).
  - rewrite gap_del by set_solver. by apply IH.
  - intros k. rewrite <-gaps_del by done. apply gaps_ext. intros n. rewrite dels_snoc. f_equal. lia.
Qed.

(** ** The loops on machine words *)
Lemma in_u_bits x : 0 ≤ x → (∀ i, 64 ≤ i → Z.testbit x i = false) → in_u 64 x.
Proof.
  intros H0 Hb. split; [done|]. destruct (Z.eq_dec x 0) as [->|Hne]; [lia|].
  apply Z.log2_lt_pow2; [lia|]. destruct (decide (Z.log2 x < 64)) as [|Hge]; [done|].
  pose proof (Z.bit_log2 x ltac:(lia)) as Ht. rewrite Hb in Ht by lia. done.
Qed.
Lemma word_eq x y : in_u 64 x → in_u 64 y → (∀ j, 0 ≤ j < 64 → Z.testbit x j = Z.testbit y j) → x = y.
Proof.
  intros Hx Hy Hb. apply Z.bits_inj'. intros j Hj. destruct (decide (j < 64)); [by apply Hb|].
  rewrite (testbit_high x 64), (testbit_high y 64) by lia. done.
Qed.
Lemma insertBits_in_u val first last b r : in_u 64 val → insertBits val first last b = Ok r → in_u 64 r.
Proof.
  intros Hv. unfold insertBits. destruct (last <=? first); [|done]. cbn [assert_ res_bind].
  unfold shl64. destruct (_ && _); [|done]. cbn [res_bind]. intros [= <-].
  assert (Hm : in_u 64 (mask_range first last)).
  { unfold mask_range, mbits. change ones64 with (Z.ones 64). apply in_u_bits; [apply Z.land_nonneg; left; done|].
    intros i Hi. rewrite Z.land_spec, Z.ones_spec_high by lia. done. }
  apply in_u_bits; [apply Z.lor_nonneg; split; apply Z.land_nonneg; [left|right]; lia|].
  intros i Hi. rewrite Z.lor_spec, !Z.land_spec, (testbit_high val 64), (testbit_high (mask_range first last) 64) by lia.
  by rewrite andb_false_r.
Qed.
(** An empty field: [first] has wrapped around below [last = 0]. *)
Lemma insertBits_empty val b : in_u 64 val → insertBits val (u32 (-1)) 0 b = Ok val.
Proof.
  intros Hv. unfold insertBits, shl64. change (0 <=? u32 (-1)) with true. cbn [assert_ res_bind andb Z.leb Z.ltb Z.compare].
  replace (mask_range (u32 (-1)) 0) with 0 by reflexivity. rewrite Z.land_0_r, Z.lor_0_r.
  rewrite land_not64, Z.ldiff_0_r by done. done.
Qed.

Lemma remove_step b a :
  in_u 64 a → 0 ≤ b < 64 → ∃ r, insertBits (Z.shiftr a 1) (u32 (b - 1)) 0 a = Ok r ∧ in_u 64 r ∧
    ∀ j, Z.testbit r j = del b (Z.testbit a) j.
Proof.
  intros Ha Hb. assert (Hs : in_u 64 (Z.shiftr a 1)).
  { rewrite Z.shiftr_div_pow2 by lia. split; [apply Z.div_pos; lia|]. apply Z.div_lt_upper_bound; lia. }
  assert (Hneg : ∀ r j, j < 0 → Z.testbit r j = del b (Z.testbit a) j).
  { intros r j Hj. unfold del. rewrite (proj2 (Z.ltb_lt _ _)), !Z.testbit_neg_r by lia. done. }
  destruct (decide (b = 0)) as [->|Hne].
  - rewrite insertBits_empty by done. eexists. do 2 (split; [done|]). intros j. destruct (decide (j < 0)); [auto|].
    unfold del. rewrite (proj2 (Z.ltb_ge _ _)), Z.shiftr_spec by lia. done.
  - rewrite u32_id by lia. destruct (insertBits_spec (Z.shiftr a 1) (b - 1) 0 a Hs) as (r & Hr & Hbits); [lia..|].
    exists r. split; [done|]. split; [by eapply insertBits_in_u|]. intros j. destruct (decide (j < 0)); [auto|].
    rewrite Hbits by lia. unfold del. rewrite (proj2 (Z.leb_le 0 j)), Z.sub_0_r, Z.shiftr_spec by lia. cbn [andb].
    destruct (Z.leb_spec j (b - 1)), (Z.ltb_spec j b); done || lia.
Qed.

Lemma dels_ext l i f g : (∀ j, f j = g j) → ∀ j, dels l i f j = dels l i g j.
Proof. revert i f g. induction l as [|b l IH]; intros i f g E; simpl; [done|]. apply IH. by apply del_ext. Qed.

Lemma remove_loop_spec lsb i a :
  in_u 64 a → 0 ≤ i → increasing lsb → Forall (λ b, i ≤ b < 64) lsb →
  ∃ r, remove_loop lsb i a = Ok r ∧ in_u 64 r ∧ ∀ j, Z.testbit r j = dels lsb i (Z.testbit a) j.
Proof.
  revert i a. induction lsb as [|b lsb IH]; intros i a Ha Hi Hs Hf; simpl; [by exists a|].
  apply Forall_cons in Hf as [Hb Hf]. apply StronglySorted_inv in Hs as [Hs Hall].
  destruct (remove_step (b - i) a Ha ltac:(lia)) as (a1 & Hstep & Ha1 & Hbits).
  assert (Heq : (if 0 <? b then insertBits (Z.shiftr a 1) (u32 (b - i - 1)) 0 a else Ok (Z.shiftr a 1)) = Ok a1).
  { destruct (Z.ltb_spec 0 b); [done|]. replace (b - i) with 0 in Hstep by lia. rewrite <-Hstep. symmetry.
    apply insertBits_empty. rewrite Z.shiftr_div_pow2 by lia. split; [apply Z.div_pos; lia|apply Z.div_lt_upper_bound; lia]. }
  rewrite Heq. cbn [res_bind]. destruct (IH (i + 1) a1) as (r & Hr & Hru & Hrb); try done; [lia| |].
  - rewrite Forall_forall in *. intros x Hx. specialize (Hf x Hx). specialize (Hall x Hx). lia.
  - exists r. do 2 (split; [done|]). intros j. rewrite Hrb. by apply dels_ext.
Qed.

Lemma gaps_agree l f g :
  (∀ j, j < 64 → f j = g j) → ∀ j, j < 64 → gaps l f j = gaps l g j.
Proof.
  revert f g. induction l as [|b l IH]; intros f g E; simpl; [done|]. apply IH. intros j Hj. unfold gap.
  destruct (j <? b); apply E; lia.
Qed.
Lemma add_loop_spec lsb a :
  in_u 64 a → Forall (λ b, 0 ≤ b < 64) lsb →
  ∃ r, add_loop lsb a = Ok r ∧ in_u 64 r ∧ ∀ j, j < 64 → Z.testbit r j = gaps lsb (Z.testbit a) j.
Proof.
  revert a. induction lsb as [|b lsb IH]; intros a Ha Hf; simpl; [by exists a|]. apply Forall_cons in Hf as [Hb Hf].
  assert (Hs : ∀ j, j < 64 → Z.testbit (u64 (Z.shiftl a 1)) j = Z.testbit a (j - 1)).
  { intros j Hj. destruct (decide (j < 0)); [by rewrite !Z.testbit_neg_r by lia|].
    unfold u64. rewrite Z.mod_pow2_bits_low, Z.shiftl_spec by lia. done. }
  assert (∃ a1, (if 0 <? b then insertBits (u64 (Z.shiftl a 1)) (b - 1) 0 a else Ok (u64 (Z.shiftl a 1))) = Ok a1 ∧
    in_u 64 a1 ∧ ∀ j, j < 64 → Z.testbit a1 j = gap b (Z.testbit a) j) as (a1 & -> & Ha1 & Hb1).
  { destruct (Z.ltb_spec 0 b).
    - destruct (insertBits_spec (u64 (Z.shiftl a 1)) (b - 1) 0 a) as (r & Hr & Hbits); [apply u64_range|lia..|].
      exists r. split; [done|]. split; [eapply insertBits_in_u, Hr; apply u64_range|]. intros j Hj. unfold gap.
      destruct (decide (j < 0)); [by rewrite (proj2 (Z.ltb_lt _ _)), !Z.testbit_neg_r by lia|].
      rewrite Hbits, Hs, (proj2 (Z.leb_le 0 j)), Z.sub_0_r by lia. cbn [andb].
      destruct (Z.leb_spec j (b - 1)), (Z.ltb_spec j b); done || lia.
    - eexists. split; [done|]. split; [apply u64_range|]. intros j Hj. rewrite Hs by done. unfold gap.
      destruct (Z.ltb_spec j b); [by rewrite !Z.testbit_neg_r by lia|done]. }
  cbn [res_bind]. destruct (IH a1 Ha1 Hf) as (r & -> & Hr & Hrb). exists r. do 2 (split; [done|]).
  intros j Hj. rewrite Hrb by done. by apply gaps_agree.
Qed.

(** ** Interleaving *)
(** The lowest bit of every mask is in no earlier mask, and [~(1 << lsb)] is
    computed in range. *)
Fixpoint masks_ok (ms : list Z) : Prop :=
  match ms with
  | [] => True
  | m :: ms => in_u 64 m ∧ m ≠ 0 ∧ ctz64 m < 31 ∧ Forall (λ m', Z.testbit m (ctz64 m') = false) ms ∧ masks_ok ms
  end.
Lemma masks_ok_lsb ms : masks_ok ms → NoDup (map ctz64 ms) ∧ Forall (λ b, 0 ≤ b < 64) (map ctz64 ms).
Proof.
  induction ms as [|m ms IH]; simpl; [by repeat constructor|]. intros (Hm & H0 & Hl & Hd & Hok). destruct (IH Hok) as [Hn Hf].
  destruct (ctz64_spec m Hm H0) as (Hr & Ht & _). split; constructor; try done.
  rewrite list_elem_of_In, in_map_iff. intros (m' & E & Hin%list_elem_of_In). rewrite Forall_forall in Hd.
  specialize (Hd m' Hin). congruence.
Qed.
Lemma masks_lsb_spec r : masks_ok (masks r) →
  increasing (masks_lsb r) ∧ Forall (λ b, 0 ≤ b < 64) (masks_lsb r) ∧ ∀ b, b ∈ masks_lsb r ↔ b ∈ map ctz64 (masks r).
Proof.
  intros [Hn Hf]%masks_ok_lsb. unfold masks_lsb. set (l := map ctz64 (masks r)) in *.
  pose proof (merge_sort_Permutation Z.le l) as Hp. split_and!; [|by rewrite Hp|intros b; by rewrite Hp].
  rewrite <-Hp in Hn. pose proof (StronglySorted_merge_sort Z.le l) as Hs. revert Hs Hn. generalize (merge_sort Z.le l).
  induction 1 as [|x k Hs IH Hall]; intros Hnd; [constructor|]. apply NoDup_cons in Hnd as [Hx Hnd].
  constructor; [auto|]. rewrite Forall_forall in *. intros y Hy. specialize (Hall y Hy).
  assert (x ≠ y) by (by intros ->). lia.
Qed.

Lemma not_bit_spec l : 0 ≤ l < 31 → ∃ nb, not_bit l = Ok nb ∧ ∀ j, 0 ≤ j < 64 → Z.testbit nb j = negb (j =? l).
Proof.
  intros Hl. unfold not_bit. rewrite (proj2 (Z.ltb_lt _ _)) by lia. eexists. split; [done|]. intros j Hj.
  assert (0 < 2 ^ l < 2 ^ 31) by (split; [apply Z.pow_pos_nonneg|apply Z.pow_lt_mono_r]; lia).
  unfold s32. rewrite u32_id by lia. rewrite (proj2 (Z.ltb_lt _ _)) by lia.
  replace (- 2 ^ l - 1) with (Z.lnot (2 ^ l)) by (unfold Z.lnot; lia).
  unfold u64. rewrite Z.mod_pow2_bits_low, Z.lnot_spec, Z.pow2_bits_eqb by lia. by rewrite Z.eqb_sym.
Qed.

Lemma odd_mod2 x : (x mod 2 =? 1) = Z.odd x.
Proof. rewrite Zmod_odd. by destruct (Z.odd x). Qed.

Lemma odd_b2z b : Z.odd (Z.b2z b) = b.
Proof. by destruct b. Qed.

(** One mask: its lowest bit becomes what the selector needs. *)
Lemma select_step orig a m mt i :
  in_u 64 a → in_u 64 m → m ≠ 0 → ctz64 m < 31 → 0 ≤ i < 64 →
  Z.testbit mt i = Z.odd (popCount (Z.land orig m)) →
  (∀ j, 0 ≤ j < 64 → Z.testbit m j = true → j ≠ ctz64 m → Z.testbit a j = Z.testbit orig j) →
  ∃ bit nb a', bit_at mt i = Ok bit ∧ not_bit (ctz64 m) = Ok nb ∧
    insertBits a (ctz64 m) (ctz64 m) (Z.lxor bit (popCount (Z.land (Z.land a m) nb))) = Ok a' ∧ in_u 64 a' ∧
    Z.testbit a' (ctz64 m) = Z.testbit orig (ctz64 m) ∧
    ∀ j, 0 ≤ j → j ≠ ctz64 m → Z.testbit a' j = Z.testbit a j.
Proof.
  intros Ha Hm H0 Hl Hi Hsel Hag. destruct (ctz64_spec m Hm H0) as (Hr & Ht & _). set (l := ctz64 m) in *.
  destruct (not_bit_spec l ltac:(lia)) as (nb & Hnb & Hnbb).
  assert (Hbit : bit_at mt i = Ok (Z.b2z (Z.testbit mt i))).
  { unfold bit_at. rewrite bits_spec by lia. rewrite Z.testbit_spec' by lia. by replace (i - i + 1) with 1 by lia. }
  destruct (insertBits_spec a l l (Z.lxor (Z.b2z (Z.testbit mt i)) (popCount (Z.land (Z.land a m) nb))) Ha) as (a' & Ha' & Hb'); [lia..|].
  exists (Z.b2z (Z.testbit mt i)), nb, a'. do 2 (split; [done|]). split; [exact Ha'|].
  split; [exact (insertBits_in_u _ _ _ _ _ Ha Ha')|].
  assert (Hpc : popCount (Z.land orig m) = popCount (Z.land (Z.land a m) nb) + Z.b2z (Z.testbit orig l)).
  { rewrite (popCount_flip _ (Z.land (Z.land a m) nb) l); [by rewrite Z.land_spec, Ht, andb_true_r|lia| |].
    - intros j Hj Hne. rewrite !Z.land_spec, Hnbb, (proj2 (Z.eqb_neq _ _)), andb_true_r by done.
      destruct (Z.testbit m j) eqn:Em; [|by rewrite !andb_false_r]. by rewrite Hag.
    - rewrite !Z.land_spec, Hnbb, Z.eqb_refl by lia. by rewrite andb_false_r. }
  split.
  - rewrite Hb', Z.leb_refl, Z.sub_diag, Z.lxor_spec, Z.bit0_odd, Z.bit0_odd, odd_b2z by lia. cbn [andb].
    rewrite Hsel, Hpc, Z.odd_add, odd_b2z. by rewrite xorb_comm, <-xorb_assoc, xorb_nilpotent, xorb_false_l.
  - intros j Hj Hne. rewrite Hb' by done. destruct (Z.leb_spec l j), (Z.leb_spec j l); simpl; done || lia.
Qed.

Lemma select_loop_spec orig ms i mt a :
  in_u 64 orig → in_u 64 a → masks_ok ms → 0 ≤ i → i + size_of ms ≤ 64 →
  (∀ k m, ms !! k = Some m → Z.testbit mt (i + Z.of_nat k) = Z.odd (popCount (Z.land orig m))) →
  (∀ j, 0 ≤ j < 64 → j ∉ map ctz64 ms → Z.testbit a j = Z.testbit orig j) →
  select_loop ms i mt a = Ok orig.
Proof.
  unfold size_of. intros Ho. revert i a. induction ms as [|m ms IH]; intros i a Ha Hok Hi Hlen Hsel Hag.
  { simpl. f_equal. apply word_eq; try done. intros j Hj. apply Hag; [done|set_solver]. }
  destruct Hok as (Hm & H0 & Hl & Hd & Hok). simpl in Hlen.
  destruct (select_step orig a m mt i) as (bit & nb & a' & Eb & En & Ea & Ha' & Hbl & Hbo); try done; [lia| | |].
  - rewrite <-(Hsel 0%nat m) by done. f_equal. lia.
  - intros j Hj Hmj Hne. apply Hag; [done|]. simpl. intros [|Hin]%elem_of_cons; [done|].
    rewrite list_elem_of_In, in_map_iff in Hin. destruct Hin as (m' & <- & Hin%list_elem_of_In).
    rewrite Forall_forall in Hd. specialize (Hd m' Hin). congruence.
  - cbn [select_loop]. rewrite Eb. cbn [res_bind]. rewrite En. cbn [res_bind]. rewrite Ea. cbn [res_bind].
    apply IH; try done; [lia|lia| |].
    + intros k m' Hk. rewrite <-(Hsel (S k) m') by done. f_equal. lia.
    + intros j Hj Hn. destruct (decide (j = ctz64 m)) as [->|Hne]; [done|]. rewrite Hbo by (done || lia).
      apply Hag; [done|]. simpl. set_solver.
Qed.

(** Removing the interleaving bits of an address of an interleaved range and
    adding them again gives the address back, when the lowest bit of every mask
    is below bit 31 and in no earlier mask. *)
Theorem intlv_roundtrip r a :
  masks_ok (masks r) → (length (masks r) ≤ 8)%nat → in_u 64 a → contains r a = true →
  ∃ x, removeIntlvBits r a = Ok x ∧ in_u 64 x ∧ addIntlvBits r x = Ok a.
Proof.
  intros Hok Hlen Ha Hc. unfold removeIntlvBits, addIntlvBits. destruct (interleaved r) eqn:Hil; [|by exists a].
  cbn [negb]. destruct (masks_lsb_spec r Hok) as (Hinc & Hf & Hin).
  destruct (remove_loop_spec (masks_lsb r) 0 a) as (x & -> & Hx & Hxb); try done.
  exists x. split; [done|]. split; [done|]. destruct (add_loop_spec (masks_lsb r) x) as (y & -> & Hy & Hyb); try done.
  cbn [res_bind]. apply select_loop_spec; try done; [unfold size_of; lia| |].
  - intros k m Hk. unfold contains in Hc. destruct (_ && _); [|done]. apply Z.eqb_eq in Hc. rewrite <-Hc.
    rewrite sel_from_bits, (proj2 (Z.leb_le _ _)) by lia. replace (Z.to_nat (0 + Z.of_nat k - 0)) with k by lia.
    rewrite Hk. cbn [andb]. apply odd_mod2.
  - intros j Hj Hn. rewrite Hyb by lia. rewrite (gaps_agree _ _ (dels (masks_lsb r) 0 (Z.testbit a))) by (done || lia).
    apply gaps_dels; [done|]. by rewrite Hin.
Qed.

(** ** Stripes *)
Lemma check_stripes_all s e ms m0 m k :
  0 ≤ m → 0 ≤ k → m + k ≤ 256 →
  check_stripes (mkRange s e ms m0) (map (mkRange s e ms) (seqZ m k)) (u8 m) = Ok tt.
Proof.
  intros Hm Hk. revert m Hm. pattern k. apply natlike_ind; [|clear k Hk; intros k Hk IH|done]; intros m Hm Hb; [done|].
  rewrite seqZ_cons by lia. replace (Z.pred (Z.succ k)) with k by lia. cbn [map check_stripes].
  unfold mergesWith. simpl. rewrite !Z.eqb_refl, bool_decide_eq_true_2 by done. cbn [negb andb fatal_if res_bind].
  assert (u8 m = m) as -> by (unfold u8; rewrite Z.mod_small; lia). rewrite Z.eqb_refl. cbn [negb fatal_if res_bind].
  replace (m + 1) with (Z.succ m) by lia. apply IH; lia.
Qed.

(** The stripes of an interleaving partition the range: every address of the
    range is in exactly one of the [2^n] stripes, and merging the stripes in
    order gives the whole range. *)
Theorem stripes_partition s e ms :
  ms ≠ [] → (length ms ≤ 8)%nat →
  let n := 2 ^ size_of ms in
  new_AddrRange_merge (map (mkRange s e ms) (seqZ 0 n)) = Ok (new_AddrRange s e) ∧
  ∀ a, contains (new_AddrRange s e) a = true ↔
       ∃ m, 0 ≤ m < n ∧ ∀ m', 0 ≤ m' < n → contains (mkRange s e ms m') a = true ↔ m' = m.
Proof.
  intros Hne Hlen n. assert (Hsz : 0 < size_of ms ≤ 8) by (unfold size_of; destruct ms; simpl in *; [done|lia]).
  assert (Hn : 2 ≤ n ≤ 256).
  { unfold n. change 256 with (2 ^ 8). change 2 with (2 ^ 1) at 1. split; apply Z.pow_le_mono_r; lia. }
  assert (Hshl : shl64 1 (size_of ms) = Ok n).
  { unfold shl64. rewrite (proj2 (Z.leb_le _ _)), (proj2 (Z.ltb_lt _ _)) by lia. cbn [andb].
    rewrite Z.shiftl_mul_pow2, Z.mul_1_l, u64_id by lia. done. }
  split.
  - pose proof (check_stripes_all s e ms 0 0 n) as Hch. assert (Hl : length (seqZ 0 n) = Z.to_nat n) by apply length_seqZ.
    rewrite (seqZ_cons 0), (seqZ_cons (Z.succ 0)) in * by lia. cbn [map new_AddrRange_merge masks].
    rewrite Hshl. cbn [res_bind]. cbn [length] in Hl |- *. rewrite length_map.
    rewrite (proj2 (Z.eqb_eq _ _)) by lia. cbn [negb fatal_if res_bind]. cbn [map] in Hch. change (u8 0) with 0 in Hch.
    rewrite Hch by lia. done.
  - intros a. unfold contains. simpl. destruct (_ && _).
    + split; [intros _|done]. pose proof (sel_from_range ms 0 a ltac:(lia)) as Hr. rewrite Z.add_0_l in Hr. fold n in Hr.
      exists (sel_from ms 0 a). split; [done|]. intros m' _. rewrite Z.eqb_eq. split; by intros.
    + split; [done|]. intros (m & Hm & Hu). by apply (Hu m Hm).
Qed.

(** [addIntlvBits] computes [~(1 << lsb)] as an [int]: for a range interleaved
    on bit 31 and hashed with bit 40 it drops the hashed bit, and the address it
    returns for an address of the range is not in the range any more. *)
Theorem addIntlvBits_loses_bit31 :
  ∃ r a x b, new_AddrRange_intlv 0 (2 ^ 48) 31 40 1 0 = Ok r ∧ contains r a = true ∧
    removeIntlvBits r a = Ok x ∧ addIntlvBits r x = Ok b ∧ b ≠ a ∧ contains r b = false.
Proof.
  exists (mkRange 0 (2 ^ 48) [2 ^ 31 + 2 ^ 40] 0), (2 ^ 31 + 2 ^ 40), (2 ^ 39), (2 ^ 40).
  split_and!; vm_compute; done.
Qed.

(** ** Witnesses *)
(** Four stripes on bits 8 and 9, hashed with bits 12 and 13. *)
Definition striped : AddrRange := mkRange 0 (2 ^ 32) [2 ^ 8 + 2 ^ 12; 2 ^ 9 + 2 ^ 13] 3.
Lemma intlv_roundtrip_witness :
  new_AddrRange_intlv 0 (2 ^ 32) 9 13 2 3 = Ok striped ∧
  ∃ x, removeIntlvBits striped 0x12345abc = Ok x ∧ in_u 64 x ∧ addIntlvBits striped x = Ok 0x12345abc.
Proof.
  split; [by vm_compute|]. apply (intlv_roundtrip striped 0x12345abc); [|simpl; lia|by split; vm_compute|by vm_compute].
  cbn [striped masks masks_ok]. split_and!; try (by vm_compute); try done; repeat constructor.
Defined.
Lemma stripes_partition_witness :
  new_AddrRange_merge (map (mkRange 0 4096 [2 ^ 8]) [0; 1]) = Ok (new_AddrRange 0 4096).
Proof. exact (proj1 (stripes_partition 0 4096 [2 ^ 8] ltac:(done) ltac:(simpl; lia))). Defined.
