(* ===== verification/AddrRangeMap.v ===== *)
(** * Address maps (gem5 [src/base/addr_range_map.hh])

    A map from address ranges to values with a cache of recently found entries.
    The tree is the list of its nodes in key order; an iterator is the identity of
    a node, and reading through the iterator of an erased node is undefined. *)
From S2P Require Import Prelude Bitfield AddrRange.
Local Open Scope Z_scope.

Section map.
Context {V : Type} (max_cache_size : nat).

Record node := mkNode { n_id : nat; first : AddrRange; second : V }.
(** [n_next] numbers the nodes; it is not part of the program. *)
Record AddrRangeMap := mkMap { tree : list node; cache : list nat; n_next : nat }.

Definition new_AddrRangeMap : AddrRangeMap := mkMap [] [] 0.

(** [*it]. *)
Definition node_at (t : list node) (it : nat) : res node :=
  match list_find (λ n, n_id n = it) t with Some (_, n) => Ok n | None => Fail Undefined end.

Definition addNewEntryToCache (it : nat) (c : list nat) : list nat :=
  if decide (max_cache_size = 0%nat) then c
  else if (max_cache_size <=? length c)%nat then it :: take (length c - 1) c
  else it :: c.

(** The search of the cache: the entry found and the cache with it in front. *)
Fixpoint find_cached (t : list node) (cond : AddrRange → res bool) (seen c : list nat) : res (option (nat * list nat)) :=
  match c with
  | [] => Ok None
  | it :: c =>
      let* n := node_at t it in
      let* b := cond (first n) in
      if b then Ok (Some (it, it :: rev seen ++ c)) else find_cached t cond (it :: seen) c
  end.

(** [tree.upper_bound(r)]: the nodes before it, from the nearest, and from it on. *)
Fixpoint upper_bound (r : AddrRange) (before t : list node) : list node * list node :=
  match t with
  | [] => (before, [])
  | n :: t => if range_lt r (first n) then (before, n :: t) else upper_bound r (n :: before) t
  end.

(** The backward search while the ranges merge. *)
Fixpoint find_back (cond : AddrRange → res bool) (i : node) (before : list node) : res (option nat) :=
  let* b := cond (first i) in
  if b then Ok (Some (n_id i))
  else
    match before with
    | [] => Ok None
    | n :: before => if mergesWith (first n) (first i) then find_back cond n before else Ok None
    end.

(** The search of the tree; [None] is [end()]. *)
Definition find_tree (r : AddrRange) (cond : AddrRange → res bool) (t : list node) : res (option nat) :=
  let (before, after) := upper_bound r [] t in
  let* found := match after with n :: _ => cond (first n) | [] => Ok false end in
  match found, after, before with
  | true, n :: _, _ => Ok (Some (n_id n))
  | _, _, [] => Ok None
  | _, _, n :: before => find_back cond n before
  end.

Definition find (r : AddrRange) (cond : AddrRange → res bool) (m : AddrRangeMap) : res (option nat * AddrRangeMap) :=
  let* c := find_cached (tree m) cond [] (cache m) in
  match c with
  | Some (it, c) => Ok (Some it, mkMap (tree m) c (n_next m))
  | None =>
      let* o := find_tree r cond (tree m) in
      let c := match o with Some it => addNewEntryToCache it (cache m) | None => cache m end in
      Ok (o, mkMap (tree m) c (n_next m))
  end.

Definition contains_range (r : AddrRange) (m : AddrRangeMap) : res (option nat * AddrRangeMap) := find r (isSubset r) m.
Definition contains_addr (a : Z) (m : AddrRangeMap) : res (option nat * AddrRangeMap) := contains_range (RangeSize a 1) m.
Definition intersects_range (r : AddrRange) (m : AddrRangeMap) : res (option nat * AddrRangeMap) := find r (intersects r) m.

(** [std::map::insert]: an equivalent key keeps its node. *)
Fixpoint tree_insert (n : node) (t : list node) : nat * list node :=
  match t with
  | [] => (n_id n, [n])
  | x :: t' =>
      if range_lt (first n) (first x) then (n_id n, n :: t)
      else if range_lt (first x) (first n) then let (it, t') := tree_insert n t' in (it, x :: t')
      else (n_id x, t)
  end.
Definition insert (r : AddrRange) (d : V) (m : AddrRangeMap) : res (option nat * AddrRangeMap) :=
  let* (o, m) := intersects_range r m in
  match o with
  | Some _ => Ok (None, m)
  | None =>
      let (it, t) := tree_insert (mkNode (n_next m) r d) (tree m) in
      Ok (Some it, mkMap t (cache m) (S (n_next m)))
  end.

Definition erase (p : nat) (m : AddrRangeMap) : AddrRangeMap :=
  mkMap (filter (λ n, n_id n ≠ p) (tree m)) (filter (λ it, it ≠ p) (cache m)) (n_next m).

(** [erase(p, q)]: the nodes from [p] up to [q]; the loop removes [p] from the
    cache once per node. *)
Fixpoint split_at (it : nat) (t : list node) : list node * list node :=
  match t with
  | [] => ([], [])
  | n :: t' => if decide (n_id n = it) then ([], t) else let (a, b) := split_at it t' in (n :: a, b)
  end.
Definition erase_range (p : nat) (q : option nat) (m : AddrRangeMap) : AddrRangeMap :=
  let (pre, rest) := split_at p (tree m) in
  let (gone, post) := match q with Some q => split_at q rest | None => (rest, []) end in
  mkMap (pre ++ post) (foldr (λ _ c, filter (λ it, it ≠ p) c) (cache m) gone) (n_next m).

Definition clear (m : AddrRangeMap) : AddrRangeMap := mkMap [] [] (n_next m).
Definition map_size (m : AddrRangeMap) : nat := length (tree m).
Definition empty (m : AddrRangeMap) : bool := match tree m with [] => true | _ => false end.
End map.
Arguments node : clear implicits.
Arguments AddrRangeMap : clear implicits.

(** ** Maps of separate ranges and of the stripes of interleaved ones *)
Section spec.
Context {V : Type} (max : nat).
Implicit Types (t : list (node V)) (m : AddrRangeMap V).

(** A plain range with an address. *)
Definition solid (r : AddrRange) : Prop := plain r ∧ r_start r < r_end r.
(** A range a map holds: plain, or a stripe whose masks have a lowest bit (the
    granularity is otherwise a shift by the width of the type). *)
Definition entry_ok (r : AddrRange) : Prop :=
  0 ≤ r_start r < r_end r ∧ r_end r < 2 ^ 64 ∧
  if interleaved r then ∃ g, granularity r = Ok g else intlvMatch r = 0.
(** [x] is in front of [y]: it ends where [y] starts at the latest, or they are
    stripes of the same range and [x] is the lower one. *)
Definition in_front (x y : AddrRange) : Prop :=
  r_end x ≤ r_start y ∨ (mergesWith y x = true ∧ intlvMatch x < intlvMatch y).
Definition separate : list (node V) → Prop := StronglySorted (λ x y, in_front (first x) (first y)).
Record map_ok (m : AddrRangeMap V) : Prop := {
  ok_entries : Forall (λ n, entry_ok (first n)) (tree m);
  ok_sep : separate (tree m);
  ok_ids : NoDup (map n_id (tree m));
  ok_next : Forall (λ n, n_id n < n_next m)%nat (tree m);
  ok_cache : Forall (λ it, it ∈ map n_id (tree m)) (cache m) }.

Lemma node_at_elem t n : NoDup (map n_id t) → n ∈ t → node_at t (n_id n) = Ok n.
Proof.
  intros Hnd Hin. unfold node_at. induction t as [|x t IH]; [by apply elem_of_nil in Hin|].
  apply NoDup_cons in Hnd as [Hx Hnd]. simpl. apply elem_of_cons in Hin as [->|Hin]; [by rewrite decide_True by done|].
  rewrite decide_False; [|intros E; apply Hx; rewrite E; apply list_elem_of_In, in_map; by apply list_elem_of_In].
  specialize (IH Hnd Hin). by destruct (list_find _ t) as [[i y]|]; simpl in *.
Qed.
Lemma id_elem t it : it ∈ map n_id t → ∃ n, n ∈ t ∧ n_id n = it.
Proof. rewrite list_elem_of_In, in_map_iff. intros (n & <- & Hn%list_elem_of_In). eauto. Qed.
Lemma elem_id t n : n ∈ t → n_id n ∈ map n_id t.
Proof. intros Hin%list_elem_of_In. by apply list_elem_of_In, in_map. Qed.

Lemma solid_entry r : solid r → entry_ok r.
Proof. intros [(Hm & Hi & ? & ?) ?]. unfold entry_ok, interleaved. rewrite Hm. split_and!; done || lia. Qed.
Lemma mergesWith_iff r r2 :
  mergesWith r r2 = true ↔ r_start r2 = r_start r ∧ r_end r2 = r_end r ∧ masks r2 = masks r.
Proof. unfold mergesWith. rewrite !andb_true_iff, !Z.eqb_eq, bool_decide_eq_true. tauto. Qed.
Lemma in_front_start x y : entry_ok x → in_front x y → r_start x ≤ r_start y.
Proof. intros (? & _) [?|[(? & _)%mergesWith_iff _]]; lia. Qed.
Lemma front_order t l x r' y : separate t → t = l ++ x :: r' → y ∈ r' → in_front (first x) (first y).
Proof.
  intros Hs -> Hy. apply StronglySorted_app_1_r, StronglySorted_inv in Hs as [_ Hall]. rewrite Forall_forall in Hall. auto.
Qed.

(** [upper_bound] splits the tree at the start of a plain range. *)
Lemma upper_bound_spec r before t a b :
  interleaved r = false → separate t → Forall (λ n, entry_ok (first n)) t →
  upper_bound r before t = (a, b) →
  ∃ pre, a = rev pre ++ before ∧ t = pre ++ b ∧ Forall (λ n, r_start (first n) ≤ r_start r) pre ∧
    Forall (λ n, r_start r < r_start (first n)) b.
Proof.
  intros Hr. revert before. induction t as [|n t IH]; intros before Hs Hp; simpl.
  { intros [= <- <-]. exists []. simpl. split_and!; auto using Forall_nil. }
  apply StronglySorted_inv in Hs as [Hs Hall]. apply Forall_cons in Hp as [Hpn Hp].
  assert (E : range_lt r (first n) = (r_start r <? r_start (first n))).
  { unfold range_lt. rewrite Hr. destruct (Z.eqb_spec (r_start r) (r_start (first n))); simpl; [lia|done]. }
  rewrite E. destruct (Z.ltb_spec (r_start r) (r_start (first n))).
  - intros [= <- <-]. exists []. simpl. do 3 (split; [done || constructor|]). constructor; [done|].
    eapply Forall_impl; [exact Hall|]. intros x Hx. simpl in Hx. pose proof (in_front_start _ _ Hpn Hx). lia.
  - intros Hu. destruct (IH (n :: before) Hs Hp Hu) as (pre & -> & -> & H1 & H2). exists (n :: pre). simpl.
    rewrite <-app_assoc. split_and!; try done. by constructor.
Qed.

(** The cache search returns an entry that satisfies the condition. *)
Lemma find_cached_spec t cond cb seen c :
  NoDup (map n_id t) → (∀ n, n ∈ t → cond (first n) = Ok (cb (first n))) →
  Forall (λ it, it ∈ map n_id t) (seen ++ c) →
  ∃ o, find_cached t cond seen c = Ok o ∧
    match o with
    | Some (it, c') => (∃ n, n ∈ t ∧ n_id n = it ∧ cb (first n) = true) ∧ Forall (λ it, it ∈ map n_id t) c'
    | None => True
    end.
Proof.
  intros Hnd Hcond. revert seen. induction c as [|it c IH]; intros seen Hf; simpl; [by exists None|].
  assert (it ∈ map n_id t) as (n & Hn & <-)%id_elem by (rewrite Forall_forall in Hf; apply Hf; set_solver).
  rewrite (node_at_elem t n Hnd Hn). cbn [res_bind]. rewrite (Hcond n Hn). cbn [res_bind].
  destruct (cb (first n)) eqn:E.
  - eexists. split; [done|]. split; [by exists n|]. rewrite Forall_forall in *. intros x Hx. apply Hf.
    rewrite elem_of_cons, elem_of_app, (list_elem_of_In (rev seen)), <-in_rev, <-list_elem_of_In in Hx. set_solver.
  - apply IH. rewrite Forall_forall in *. intros x Hx. apply Hf. set_solver.
Qed.

Lemma add_cache_ids t it c :
  it ∈ map n_id t → Forall (λ it, it ∈ map n_id t) c → Forall (λ it, it ∈ map n_id t) (addNewEntryToCache max it c).
Proof.
  intros Hi Hc. unfold addNewEntryToCache. case_decide; [done|]. case_match; constructor; try done. by apply Forall_take.
Qed.

(** [x] is reached from the end of [pre] through entries that merge with it. *)
Definition reached (pre : list (node V)) (x : node V) : Prop :=
  ∃ l1 l2, pre = l1 ++ x :: l2 ∧ Forall (λ y, mergesWith (first y) (first x) = true) l2.
(** The condition holds somewhere only if it holds at the node after the key or
    at one the backward search reaches. *)
Definition local_cond (r : AddrRange) (t : list (node V)) (cb : AddrRange → bool) : Prop :=
  ∀ pre b, t = pre ++ b → Forall (λ n, r_start (first n) ≤ r_start r) pre → Forall (λ n, r_start r < r_start (first n)) b →
    ∀ n, n ∈ t → cb (first n) = true → ∃ x, cb (first x) = true ∧ (head b = Some x ∨ reached pre x).

(** The answer to a search of [t]. *)
Definition answer (t : list (node V)) (cb : AddrRange → bool) (o : option nat) : Prop :=
  match o with
  | Some it => ∃ n, n ∈ t ∧ n_id n = it ∧ cb (first n) = true
  | None => ∀ n, n ∈ t → cb (first n) = false
  end.

Lemma reached_snoc l n x : reached (l ++ [n]) x ↔ x = n ∨ (mergesWith (first n) (first x) = true ∧ reached l x).
Proof.
  split.
  - intros (l1 & l2 & E & Hf). destruct l2 as [|y l2 _] using rev_ind.
    + apply app_inj_tail in E as [_ ->]. by left.
    + rewrite app_comm_cons, app_assoc in E. apply app_inj_tail in E as [-> ->].
      apply Forall_app in Hf as [Hf [Hn _]%Forall_cons]. right. split; [done|]. by exists l1, l2.
  - intros [->|(Hm & l1 & l2 & -> & Hf)]; [exists l, []; auto using Forall_nil|].
    exists l1, (l2 ++ [n]). rewrite <-app_assoc. split; [done|]. apply Forall_app. auto using Forall_cons_2, Forall_nil_2.
Qed.

(** The backward search looks at exactly the entries reached. *)
Lemma find_back_spec cond cb l n :
  Forall (λ x, cond (first x) = Ok (cb (first x))) (l ++ [n]) →
  ∃ o, find_back cond n (rev l) = Ok o ∧
    match o with
    | Some it => ∃ x, x ∈ l ++ [n] ∧ n_id x = it ∧ cb (first x) = true
    | None => ∀ x, reached (l ++ [n]) x → cb (first x) = false
    end.
Proof.
  revert n. induction l as [|m l IH] using rev_ind; intros n [Hl [Hn _]%Forall_cons]%Forall_app.
  { simpl. rewrite Hn. cbn [res_bind]. destruct (cb (first n)) eqn:E; eexists; (split; [done|]); [exists n; split_and!; [set_solver|done..]|].
    intros x [->|[_ (l1 & l2 & Hx & _)]]%(reached_snoc []); [done|by destruct l1]. }
  rewrite rev_app_distr. simpl. rewrite Hn. cbn [res_bind].
  destruct (cb (first n)) eqn:E; [eexists; split; [done|]; exists n; split_and!; [set_solver|done..]|].
  destruct (mergesWith (first m) (first n)) eqn:Hm.
  - destruct (IH m Hl) as (o & -> & Ho). exists o. split; [done|]. destruct o as [it|];
      [destruct Ho as (x & Hx & ? & ?); exists x; rewrite elem_of_app; by auto|].
    intros x [->|[_ Hx]]%reached_snoc; [done|]. by apply Ho.
  - exists None. split; [done|]. intros x [->|[Hx Hr]]%reached_snoc; [done|]. exfalso.
    assert (mergesWith (first m) (first n) = true); [|congruence]. apply mergesWith_iff in Hx as (? & ? & ?).
    apply reached_snoc in Hr as [->|[(? & ? & ?)%mergesWith_iff _]]; apply mergesWith_iff; split_and!; congruence.
Qed.

Lemma find_tree_spec r cond cb t :
  separate t → Forall (λ n, entry_ok (first n)) t → plain r →
  (∀ n, n ∈ t → cond (first n) = Ok (cb (first n))) → local_cond r t cb →
  ∃ o, find_tree r cond t = Ok o ∧ answer t cb o.
Proof.
  intros Hsep Hs Hr Hcond Hloc. unfold find_tree. destruct (upper_bound r [] t) as [before after] eqn:Hu.
  destruct (upper_bound_spec r [] t before after (plain_interleaved r Hr) Hsep Hs Hu) as (pre & -> & Ht & H1 & H2).
  rewrite app_nil_r. specialize (Hloc pre after Ht H1 H2).
  assert (∃ f, match after with n :: _ => cond (first n) | [] => Ok false end = Ok f ∧
    (f = true → ∃ n l, after = n :: l ∧ cb (first n) = true) ∧
    (f = false → ∀ n, head after = Some n → cb (first n) = false)) as (f & -> & Hf1 & Hf0).
  { destruct after as [|n after]; [exists false; naive_solver|]. rewrite Hcond by set_solver. exists (cb (first n)). naive_solver. }
  cbn [res_bind]. destruct f.
  { destruct (Hf1 eq_refl) as (n & l & -> & Hc). eexists. split; [done|]. exists n. split_and!; [set_solver|done..]. }
  assert (Hno : (∀ x, reached pre x → cb (first x) = false) → ∀ n, n ∈ t → cb (first n) = false).
  { intros Hpre n Hn. destruct (cb (first n)) eqn:E; [|done]. destruct (Hloc n Hn E) as (x & Hx & [Hh|Hh]).
    - by rewrite <-(Hf0 eq_refl x Hh), Hx.
    - by rewrite <-(Hpre x Hh), Hx. }
  destruct pre as [|n l _] using rev_ind.
  { simpl. exists None. split; [by destruct after|]. refine (Hno _). intros x (l1 & l2 & Hx & _). by destruct l1. }
  rewrite rev_app_distr. simpl. destruct (find_back_spec cond cb l n) as (o & -> & Ho).
  { apply Forall_forall. intros x Hx. apply Hcond. rewrite Ht. set_solver. }
  exists o. split; [by destruct after|]. destruct o as [it|]; [|exact (Hno Ho)].
  destruct Ho as (x & Hx & ? & ?). exists x. split_and!; [|done..]. rewrite Ht. set_solver.
Qed.

Lemma find_spec r cond cb m :
  map_ok m → plain r → (∀ n, n ∈ tree m → cond (first n) = Ok (cb (first n))) → local_cond r (tree m) cb →
  ∃ o m', find max r cond m = Ok (o, m') ∧ tree m' = tree m ∧ n_next m' = n_next m ∧ map_ok m' ∧ answer (tree m) cb o.
Proof.
  intros [Hs Hsep Hids Hnext Hcache] Hr Hcond Hloc. unfold find.
  destruct (find_cached_spec (tree m) cond cb [] (cache m) Hids Hcond Hcache) as (c & -> & Hc). cbn [res_bind].
  destruct c as [[it c]|].
  - destruct Hc as [Ha Hc]. eexists _, _. split; [done|]. do 2 (split; [done|]). by split.
  - destruct (find_tree_spec r cond cb (tree m) Hsep Hs Hr Hcond Hloc) as (o & -> & Ha). cbn [res_bind].
    eexists _, _. split; [done|]. do 2 (split; [done|]). split; [|done]. split; simpl; try done.
    destruct o as [it|]; [|done]. destruct Ha as (n & Hn & <- & _). by apply add_cache_ids; [apply elem_id|].
Qed.

(** *** The two searches are local *)
(** Plain ranges are in front of each other only by ending first. *)
Lemma solid_order t l x r' y :
  separate t → Forall (λ n, solid (first n)) t → t = l ++ x :: r' → y ∈ r' → r_end (first x) ≤ r_start (first y).
Proof.
  intros Hs Hf Ht Hy. destruct (front_order t l x r' y Hs Ht Hy) as [?|[_ Hlt]]; [done|]. exfalso.
  rewrite Forall_forall in Hf. destruct (Hf x) as [(_ & Hx & _) _]; [set_solver|]. destruct (Hf y) as [(_ & Hy' & _) _]; [set_solver|]. lia.
Qed.
(** Every other node is separated from the split by a whole range. *)
Lemma around_split pre b n :
  separate (pre ++ b) → Forall (λ n, solid (first n)) (pre ++ b) → n ∈ pre ++ b →
  head b = Some n ∨ reached pre n ∨
  (∃ x, x ∈ b ∧ head b = Some x ∧ r_end (first x) ≤ r_start (first n)) ∨
  (∃ x, x ∈ pre ∧ r_end (first n) ≤ r_start (first x)).
Proof.
  intros Hsep Hs [Hn|Hn]%elem_of_app.
  - apply list_elem_of_split in Hn as (l1 & l2 & ->). destruct l2 as [|x l2]; [right; left; exists l1, []; auto using Forall_nil_2|].
    right; right; right. exists x. split; [set_solver|].
    eapply (solid_order _ l1 n ((x :: l2) ++ b)); [exact Hsep|exact Hs|by rewrite <-app_assoc|set_solver].
  - destruct b as [|x b]; [by apply elem_of_nil in Hn|]. apply elem_of_cons in Hn as [->|Hn]; [by left|].
    right; right; left. exists x. split; [set_solver|]. split; [done|]. by eapply solid_order.
Qed.

Definition meets (r x : AddrRange) : bool := negb ((r_end x <=? r_start r) || (r_end r <=? r_start x)).
Lemma meets_local r t : separate t → Forall (λ n, solid (first n)) t → solid r → local_cond r t (meets r).
Proof.
  intros Hsep Hsol Hr pre b -> Hpre Hb n Hn Hm. pose proof Hsol as Hs. pose proof Hm as Hm'. unfold meets in Hm. rewrite negb_true_iff, orb_false_iff, !Z.leb_gt in Hm.
  rewrite Forall_forall in Hpre, Hb, Hs.
  destruct (around_split pre b n Hsep Hsol Hn) as [?|[?|[(x & Hx & Hh & Hlt)|(x & Hx & Hlt)]]]; [by eauto..| |].
  - exists x. split; [|by left]. specialize (Hb x Hx). destruct (Hs x ltac:(set_solver)) as [_ ?]. simpl in *.
    unfold meets. rewrite negb_true_iff, orb_false_iff, !Z.leb_gt. lia.
  - specialize (Hpre x Hx). simpl in Hpre. lia.
Qed.
(** An entry with the address is reached: those after it start before it ends. *)
Lemma contains_local a b t :
  separate t → Forall (λ n, entry_ok (first n)) t → local_cond (new_AddrRange a b) t (λ r, contains r a).
Proof.
  intros Hsep Hs pre post Ht Hpre Hpost n Hn Hc. exists n. split; [done|]. right.
  unfold contains in Hc. destruct (_ && _) eqn:Hb in Hc; [|done]. rewrite andb_true_iff, Z.leb_le, Z.ltb_lt in Hb.
  rewrite Forall_forall in Hpre, Hpost. rewrite Ht in Hn. apply elem_of_app in Hn as [Hn|Hn];
    [|specialize (Hpost n Hn); simpl in Hpost; lia].
  apply list_elem_of_split in Hn as (l1 & l2 & ->). exists l1, l2. split; [done|]. apply Forall_forall. intros y Hy.
  specialize (Hpre y ltac:(set_solver)). simpl in Hpre.
  destruct (front_order t l1 n (l2 ++ post) y Hsep) as [?|[Hm _]]; [by rewrite Ht, <-app_assoc|set_solver|lia|done].
Qed.

Lemma granularity_pos r g : interleaved r = true → granularity r = Ok g → 1 ≤ g.
Proof.
  intros Hi. unfold granularity, shl64. rewrite Hi. destruct (_ && _) eqn:Hn; [|done]. intros [= <-].
  rewrite andb_true_iff, Z.leb_le, Z.ltb_lt in Hn. rewrite Z.shiftl_1_l.
  pose proof (Z.pow_lt_mono_r 2 _ 64 ltac:(lia) ltac:(lia) (proj2 Hn)).
  assert (0 < 2 ^ u8 (ctz64 (u64 (combined_mask (masks r))))) by (apply Z.pow_pos_nonneg; lia). rewrite u64_id by lia. lia.
Qed.
(** One address is a subset of a range exactly if the range has it. *)
Lemma isSubset_contains a x :
  0 ≤ a < 2 ^ 64 - 1 → entry_ok x → isSubset (new_AddrRange a (a + 1)) x = Ok (contains x a).
Proof.
  intros Ha (Hx & Hx' & Hi). unfold isSubset. cbn [interleaved masks new_AddrRange fatal_if res_bind r_start r_end].
  destruct (interleaved x) eqn:Ei.
  - destruct Hi as (g & Hg). destruct (contains x a); [|done]. unfold size, size_of. simpl.
    replace (a + 1 - a) with 1 by lia. unfold shr64. simpl. rewrite Hg. cbn [res_bind].
    rewrite (proj2 (Z.leb_le _ _)) by (by apply (granularity_pos x)). rewrite u64_id by lia.
    by rewrite (proj2 (Z.eqb_eq _ _)) by lia.
  - rewrite (proj2 (Z.leb_gt (a + 1) a)), (proj2 (Z.leb_gt (r_end x) _)) by lia. unfold contains, interleaved in *.
    destruct (masks x); [|done]. rewrite Hi. simpl.
    destruct (Z.leb_spec (r_start x) a), (Z.leb_spec (a + 1) (r_end x)), (Z.ltb_spec a (r_end x)); simpl; done || lia.
Qed.

(** An address is in one entry: stripes of one range have different selectors. *)
Lemma contains_apart x y a : in_front x y → contains x a = true → contains y a = true → False.
Proof.
  unfold contains. destruct ((r_start x <=? a) && _) eqn:Hx; [|done]. destruct ((r_start y <=? a) && _) eqn:Hy; [|done].
  rewrite andb_true_iff, Z.leb_le, Z.ltb_lt in Hx, Hy. rewrite !Z.eqb_eq.
  intros [?|[(_ & _ & Hm)%mergesWith_iff Hlt]] H1 H2; [lia|]. rewrite Hm in H1. lia.
Qed.
Lemma separate_unique t n n' a :
  separate t → n ∈ t → n' ∈ t → contains (first n) a = true → contains (first n') a = true → n = n'.
Proof.
  intros Hsep Hn Hn' Ha Ha'. apply list_elem_of_split in Hn as (l1 & l2 & ->).
  apply elem_of_app in Hn' as [Hn'|[->|Hn']%elem_of_cons]; [|done|]; exfalso.
  - apply list_elem_of_split in Hn' as (l3 & l4 & ->). apply (contains_apart (first n') (first n) a); try done.
    apply (front_order _ l3 n' (l4 ++ n :: l2) n Hsep); [by rewrite <-app_assoc|set_solver].
  - apply (contains_apart (first n) (first n') a); try done. by apply (front_order _ l1 n l2 n' Hsep).
Qed.
End spec.

(** C39: on a map of separate ranges and of the stripes of interleaved ranges,
    [contains] finds exactly the entry that has the address, or none if there is
    none, whatever the cache holds: among the stripes of a range, which have the
    same bounds, it goes back to the one whose selector matches.  The entries do
    not change and the cache keeps only entries of the map. *)
Theorem map_lookup_exact {V} max (m : AddrRangeMap V) a :
  map_ok m → 0 ≤ a < 2 ^ 64 - 1 →
  ∃ o m', contains_addr max a m = Ok (o, m') ∧ map_ok m' ∧ tree m' = tree m ∧
    (∀ n, n ∈ tree m → contains (first n) a = true ↔ o = Some (n_id n)) ∧
    (o = None ↔ ∀ n, n ∈ tree m → contains (first n) a = false).
Proof.
  intros Hok Ha. unfold contains_addr, contains_range, RangeSize. rewrite u64_id by lia.
  pose proof Hok as [Hs Hsep Hids _ _]. destruct (find_spec max (new_AddrRange a (a + 1)) (isSubset (new_AddrRange a (a + 1)))
    (λ r, contains r a) m) as (o & m' & Heq & Ht & _ & Hok' & Hans); [done|apply new_plain; lia| |by apply contains_local|].
  { intros n Hn. apply isSubset_contains; [done|]. rewrite Forall_forall in Hs. auto. }
  exists o, m'. do 3 (split; [done|]). destruct o as [it|]; simpl in Hans.
  - destruct Hans as (x & Hx & <- & Hcx). split; [|split; [done|]; intros Hno; by rewrite Hno in Hcx].
    intros n Hn. split; [intros Hc; by rewrite (separate_unique (tree m) n x a)|]. intros [= Hid].
    pose proof (node_at_elem _ _ Hids Hx) as E1. pose proof (node_at_elem _ _ Hids Hn) as E2. congruence.
  - split; [|done]. intros n Hn. by rewrite Hans.
Qed.

(** *** Insertion and removal *)
Section edits.
Context {V : Type} (max : nat).
Implicit Types (t : list (node V)) (m : AddrRangeMap V).

Lemma solid_lt r x : solid r → solid x → range_lt r x = (r_start r <? r_start x).
Proof.
  intros [Hr _] [Hx _]. unfold range_lt. rewrite (plain_interleaved r Hr).
  destruct (Z.eqb_spec (r_start r) (r_start x)); simpl; [lia|done].
Qed.

Lemma tree_insert_spec (n : node V) t :
  separate t → Forall (λ x, solid (first x)) t → solid (first n) →
  Forall (λ x, meets (first n) (first x) = false) t →
  ∃ t', tree_insert n t = (n_id n, t') ∧ separate t' ∧ t' ≡ₚ n :: t.
Proof.
  intros Hsep Hs Hn Hm. induction t as [|x t IH]; [exists [n]; repeat constructor|]. simpl.
  pose proof Hs as Hsx. apply Forall_cons in Hs as [Hx Hs]. apply Forall_cons in Hm as [Hmx Hm]. pose proof Hsep as [Hsep' Hall]%StronglySorted_inv.
  rewrite !solid_lt by done. unfold meets in Hmx. rewrite negb_false_iff, orb_true_iff, !Z.leb_le in Hmx.
  destruct Hn as [Hnp Hne], Hx as [Hxp Hxe]. destruct (Z.ltb_spec (r_start (first n)) (r_start (first x))).
  - exists (n :: x :: t). split; [done|]. split; [|done]. constructor; [done|]. constructor; [left; lia|].
    apply Forall_forall. intros y Hy. left. pose proof (solid_order _ [] x t y Hsep Hsx eq_refl Hy). lia.
  - rewrite (proj2 (Z.ltb_lt _ _)) by lia. destruct IH as (t' & -> & Hs' & Hp); try done.
    exists (x :: t'). split; [done|]. split; [|by rewrite Hp, Permutation_swap]. constructor; [done|].
    rewrite Hp. constructor; [left; lia|done].
Qed.

Lemma intersects_meets r x : solid r → solid x → intersects r x = Ok (meets r x).
Proof. intros [Hr _] [Hx _]. by rewrite plain_intersects. Qed.
Lemma meets_common r x : solid r → solid x → meets r x = true ↔ ∃ a, contains r a = true ∧ contains x a = true.
Proof.
  intros [Hr Hr'] [Hx Hx']. pose proof (λ a, plain_contains r a Hr) as C1. pose proof (λ a, plain_contains x a Hx) as C2.
  setoid_rewrite C1. setoid_rewrite C2. unfold meets. rewrite negb_true_iff, orb_false_iff, !Z.leb_gt. split.
  - intros. exists (Z.max (r_start r) (r_start x)). lia.
  - intros (a & ?). lia.
Qed.

Lemma filter_separate t P `{∀ x, Decision (P x)} : separate t → separate (filter P t).
Proof.
  induction 1 as [|x t Hs IH Hall]; [constructor|]. rewrite filter_cons. case_decide; [|done]. constructor; [done|].
  rewrite Forall_forall in *. intros y [_ Hy]%list_elem_of_filter. auto.
Qed.
Lemma erase_ok p m : map_ok m → map_ok (erase p m).
Proof.
  intros [Hs Hsep Hids Hnext Hc]. split; simpl.
  - rewrite Forall_forall in *. intros x [_ Hx]%list_elem_of_filter. auto.
  - by apply filter_separate.
  - clear -Hids. induction (tree m) as [|x t IH]; [constructor|]. apply NoDup_cons in Hids as [Hx Hids].
    rewrite filter_cons. case_decide; [|auto]. constructor; [|auto]. intros (y & [_ Hy]%list_elem_of_filter & E)%id_elem.
    apply Hx. simpl. rewrite <-E. by apply elem_id.
  - rewrite Forall_forall in *. intros x [_ Hx]%list_elem_of_filter. auto.
  - rewrite Forall_forall in *. intros it [Hne Hit]%list_elem_of_filter. apply Hc, id_elem in Hit as (n & Hn & <-).
    apply elem_id, list_elem_of_filter. done.
Qed.
End edits.

(** On a map of plain ranges [insert] adds a plain range exactly when it has no address in common with any
    entry, and otherwise leaves the entries alone; [erase] removes exactly its
    entry; both keep the map's ranges separate and its cache without dangling
    entries. *)
Theorem map_edits_exact {V} max (m : AddrRangeMap V) r d :
  map_ok m → Forall (λ n, solid (first n)) (tree m) → solid r →
  (∃ o m', insert max r d m = Ok (o, m') ∧ map_ok m' ∧
     (o = None ↔ ∃ n a, n ∈ tree m ∧ contains (first n) a = true ∧ contains r a = true) ∧
     match o with
     | None => tree m' = tree m
     | Some it => tree m' ≡ₚ mkNode it r d :: tree m ∧ it ∉ map n_id (tree m)
     end) ∧
  ∀ p, map_ok (erase p m) ∧ ∀ n, n ∈ tree (erase p m) ↔ n ∈ tree m ∧ n_id n ≠ p.
Proof.
  intros Hok Hs Hr. split; [|intros p; split; [by apply erase_ok|]; intros n; simpl; rewrite list_elem_of_filter; tauto].
  pose proof Hok as [_ Hsep _ _ _]. assert (Hs' := Hs). rewrite Forall_forall in Hs'.
  destruct (find_spec max r (intersects r) (meets r) m) as (o & m1 & Heq & Ht & Hn & Hok1 & Hans);
    [done|apply Hr|intros n Hin; apply intersects_meets; auto|by apply meets_local|].
  unfold insert, intersects_range. rewrite Heq. cbn [res_bind]. destruct o as [it|]; simpl in Hans.
  - exists None, m1. do 2 (split; [done|]). split; [|done]. split; [|done]. intros _. destruct Hans as (n & Hin & _ & Hm).
    apply meets_common in Hm as (a & ? & ?); [|done|auto]. eauto.
  - rewrite Ht, Hn. destruct Hok1 as [Hs1 Hsep1 Hids1 Hnext1 Hc1]. rewrite Ht, ?Hn in *.
    destruct (tree_insert_spec (mkNode (n_next m) r d) (tree m)) as (t' & -> & Hsep' & Hp); try done; [by apply Forall_forall|].
    assert (Hfresh : n_next m ∉ map n_id (tree m)).
    { intros (n & Hin & E)%id_elem. rewrite Forall_forall in Hnext1. specialize (Hnext1 n Hin). simpl in Hnext1. lia. }
    eexists _, _. split; [done|]. split; [|split; [|done]].
    + split; simpl; rewrite ?Hp; try done.
      * constructor; [by apply solid_entry|done].
      * simpl. by constructor.
      * constructor; [simpl; lia|]. eapply Forall_impl; [exact Hnext1|]. simpl. lia.
      * eapply Forall_impl; [exact Hc1|]. intros it Hit. simpl. rewrite Hp. simpl. set_solver.
    + split; [done|]. intros (n & a & Hin & Hc & Hcr). specialize (Hans n Hin).
      assert (meets r (first n) = true) by (apply meets_common; eauto). congruence.
Qed.

(** [erase(p, q)] leaves dangling iterators in the cache: its loop removes [p]
    once per erased entry instead of each of them, so after erasing two cached
    entries the next lookup reads through an iterator of an erased entry. *)
Theorem erase_range_dangles :
  ∃ (m : AddrRangeMap nat) o1 o2 m1 m2, map_ok m ∧
    contains_addr 4 0x1000 m = Ok (o1, m1) ∧ contains_addr 4 0x2000 m1 = Ok (o2, m2) ∧ map_ok m2 ∧
    contains_addr 4 0x1000 (erase_range 0 None m2) = Fail Undefined.
Proof.
  set (n0 := mkNode 0 (new_AddrRange 0x1000 0x2000) 7%nat). set (n1 := mkNode 1 (new_AddrRange 0x2000 0x3000) 8%nat).
  assert (Hm : ∀ c, Forall (λ it, it ∈ [0; 1]%nat) c → map_ok (mkMap [n0; n1] c 2)).
  { intros c Hc. split; simpl; try done.
    - repeat constructor; simpl; lia.
    - constructor; [repeat constructor|]. constructor; [left; simpl; lia|constructor].
    - repeat constructor; set_solver.
    - repeat constructor; simpl; lia. }
  exists (mkMap [n0; n1] [] 2), (Some 0%nat), (Some 1%nat), (mkMap [n0; n1] [0]%nat 2), (mkMap [n0; n1] [1; 0]%nat 2).
  split_and!; [apply Hm; constructor|by vm_compute|by vm_compute|apply Hm; repeat constructor; set_solver|by vm_compute].
Qed.

(** ** Witnesses *)
Definition map0 : AddrRangeMap nat := mkMap [mkNode 0 (new_AddrRange 0xD0000000 0xD0000100) 7%nat] [0]%nat 1.
Lemma map0_ok : map_ok map0.
Proof. split; simpl; repeat constructor; simpl; (lia || set_solver). Qed.

(** A plain range and the four stripes of an interleaved one, inserted in turn. *)
Definition stripe (i : Z) : AddrRange := mkRange 0x80000000 0xC0000000 [2 ^ 8; 2 ^ 9] i.
Definition striped_map : AddrRangeMap nat :=
  mkMap [mkNode 4 (stripe 0) 10%nat; mkNode 1 (stripe 1) 11%nat; mkNode 2 (stripe 2) 12%nat; mkNode 3 (stripe 3) 13%nat;
         mkNode 0 (new_AddrRange 0xD0000000 0xD0000100) 7%nat] [0]%nat 5.
Lemma striped_map_built :
  (let* (_, m) := insert 2 (stripe 1) 11%nat map0 in let* (_, m) := insert 2 (stripe 2) 12%nat m in
   let* (_, m) := insert 2 (stripe 3) 13%nat m in let* (_, m) := insert 2 (stripe 0) 10%nat m in Ok m) = Ok striped_map.
Proof. by vm_compute. Qed.
Lemma striped_map_ok : map_ok striped_map.
Proof.
  assert (Hst : ∀ i, entry_ok (stripe i)) by (intros i; split_and!; simpl; [lia..|]; by exists 256).
  split; simpl.
  - repeat (constructor; [apply Hst|]). constructor; [|constructor]. by split_and!.
  - repeat first [apply SSorted_nil | apply SSorted_cons | apply Forall_nil_2 | apply Forall_cons_2 |
      by left | by right].
  - repeat constructor; set_solver.
  - repeat constructor; simpl; lia.
  - repeat constructor; set_solver.
Qed.
Lemma map_lookup_exact_witness :
  ∃ o m', contains_addr 2 0x80000100 striped_map = Ok (o, m') ∧ o = Some 1%nat.
Proof.
  destruct (map_lookup_exact 2 striped_map 0x80000100 striped_map_ok ltac:(lia)) as (o & m' & Heq & _ & _ & Hc & _).
  exists o, m'. split; [done|]. apply (Hc (mkNode 1 (stripe 1) 11%nat)); [|by vm_compute].
  apply elem_of_cons. right. apply elem_of_cons. by left.
Defined.
Lemma map_edits_exact_witness :
  ∃ o m', insert 2 (new_AddrRange 0xD0000080 0xD0000200) 9%nat map0 = Ok (o, m') ∧ tree m' = tree map0.
Proof.
  destruct (map_edits_exact 2 map0 (new_AddrRange 0xD0000080 0xD0000200) 9%nat map0_ok) as [(o & m' & Heq & _ & Hc & Hm) _].
  { repeat constructor; simpl; lia. }
  { split; [apply new_plain; lia|simpl; lia]. }
  exists o, m'. split; [done|]. assert (o = None) as ->; [|done]. apply Hc.
  eexists _, 0xD0000080. split; [by apply elem_of_cons; left|]. by split; vm_compute.
Defined.
