(* ===== verification/PortProxy.v ===== *)
(** * Chunked functional accesses (gem5 [base/chunk_generator.hh], [mem/port_proxy.cc])

    A port proxy reads and writes blobs of guest memory in pieces that do not
    cross cache lines.  [FuncMem] is the functional port underneath: memory as
    the proxies rely on it.  The theorems show that the pieces cover the blob
    exactly, so a blob access is one contiguous access. *)
From S2P Require Import Prelude Bitfield.
Local Open Scope Z_scope.

(** ** The chunk generator *)
Record ChunkGenerator := mkGen {
  curAddr : Z;
  nextAddr : Z;
  curSize : Z;
  nextSize : Z;
  sizeLeft : Z;
  startAddr : Z;
  chunkSize : Z }.

Definition new_ChunkGenerator (startAddr totalSize chunkSize : Z) : res ChunkGenerator :=
  let* _ := assert_ ((chunkSize =? 0) || isPowerOf2 chunkSize) in
  let curAddr := startAddr in
  let* nextAddr :=
    if chunkSize =? 0 then Ok (u64 (startAddr + totalSize))
    else
      let* nextAddr := roundUp startAddr chunkSize in
      let nextAddr := if curAddr =? nextAddr then u64 (nextAddr + chunkSize) else nextAddr in
      Ok (nextAddr `min` u64 (startAddr + totalSize)) in
  let curSize := u64 (nextAddr - curAddr) in
  let sizeLeft := u64 (totalSize - curSize) in
  Ok (mkGen curAddr nextAddr curSize (sizeLeft `min` chunkSize) sizeLeft startAddr chunkSize).

Definition gen_done (g : ChunkGenerator) : bool := curSize g =? 0.
Definition gen_last (g : ChunkGenerator) : bool := sizeLeft g =? 0.
Definition gen_complete (g : ChunkGenerator) : Z := u64 (curAddr g - startAddr g).

Definition setNext (g : ChunkGenerator) (next : Z) : res ChunkGenerator :=
  let* _ := assert_ (nextAddr g <=? next) in
  let skipping := u64 (next - nextAddr g) `min` sizeLeft g in
  let left := u64 (sizeLeft g - skipping) in
  let* _ := assert_ (negb (chunkSize g =? 0)) in
  let* r := roundUp next (chunkSize g) in
  let size := u64 (r - next) in
  let size := if size =? 0 then left `min` chunkSize g else size in
  Ok (mkGen (curAddr g) next (u64 (curSize g + skipping)) size left (startAddr g) (chunkSize g)).

Definition gen_next (g : ChunkGenerator) : bool * ChunkGenerator :=
  if gen_last g then
    (false, mkGen (curAddr g) (nextAddr g) 0 (nextSize g) (sizeLeft g) (startAddr g) (chunkSize g))
  else
    let cur := nextAddr g in
    let size := nextSize g in
    let left := u64 (sizeLeft g - size) in
    (true, mkGen cur (u64 (nextAddr g + size)) size (left `min` chunkSize g) left (startAddr g) (chunkSize g)).

(** ** The functional port *)
Class FuncMem (M : Type) := {
  fm_write : M → Z → bytes → M;
  fm_read : M → Z → Z → bytes }.

(** Memory [f] with the bytes [d] stored at [a]. *)
Definition stored (f : Z → byte) (a : Z) (d : bytes) (x : Z) : byte :=
  if decide (a ≤ x < a + Z.of_nat (length d)) then nth (Z.to_nat (x - a)) d (f x) else f x.
Definition loaded (f : Z → byte) (a n : Z) : bytes := (λ i, f (a + Z.of_nat i)) <$> seq 0 (Z.to_nat n).

Class FuncMemLaws (M : Type) `{FuncMem M} := {
  fm_byte : M → Z → byte;
  fm_write_law m a d x : fm_byte (fm_write m a d) x = stored (fm_byte m) a d x;
  fm_read_law m a n : fm_read m a n = loaded (fm_byte m) a n }.

Section proxy.
Context {M : Type} `{FuncMem M} (_cacheLineSize : Z).

(** The loops of [readBlobPhys] and [writeBlobPhys]; [p] is the rest of the
    caller's buffer. *)
Fixpoint read_loop (fuel : nat) (m : M) (g : ChunkGenerator) (p : bytes) : res bytes :=
  match fuel with
  | O => Fail OutOfFuel
  | S fuel =>
      if gen_done g then Ok p
      else read_loop fuel m (gen_next g).2 (p ++ fm_read m (curAddr g) (curSize g))
  end.
Definition readBlobPhys (fuel : nat) (m : M) (addr size : Z) : res bytes :=
  let* g := new_ChunkGenerator addr size _cacheLineSize in read_loop fuel m g [].

Fixpoint write_loop (fuel : nat) (m : M) (g : ChunkGenerator) (p : bytes) : res M :=
  match fuel with
  | O => Fail OutOfFuel
  | S fuel =>
      if gen_done g then Ok m
      else write_loop fuel (fm_write m (curAddr g) (take (Z.to_nat (curSize g)) p)) (gen_next g).2
             (drop (Z.to_nat (curSize g)) p)
  end.
Definition writeBlobPhys (fuel : nat) (m : M) (addr : Z) (p : bytes) : res M :=
  let* g := new_ChunkGenerator addr (Z.of_nat (length p)) _cacheLineSize in write_loop fuel m g p.

Definition memsetBlobPhys (fuel : nat) (m : M) (addr : Z) (v : byte) (size : Z) : res M :=
  writeBlobPhys fuel m addr (replicate (Z.to_nat size) v).

(** [tryReadBlob]/[tryWriteBlob]/[tryMemsetBlob] of the physical proxy succeed;
    [readBlob] and its companions would stop the simulation otherwise. *)
Definition tryReadBlob (fuel : nat) (m : M) (addr size : Z) : res (bool * bytes) :=
  let* d := readBlobPhys fuel m addr size in Ok (true, d).
Definition tryWriteBlob (fuel : nat) (m : M) (addr : Z) (p : bytes) : res (bool * M) :=
  let* m := writeBlobPhys fuel m addr p in Ok (true, m).
Definition readBlob (fuel : nat) (m : M) (addr size : Z) : res bytes :=
  let* (ok, d) := tryReadBlob fuel m addr size in if ok then Ok d else Fail Panic.
Definition writeBlob (fuel : nat) (m : M) (addr : Z) (p : bytes) : res M :=
  let* (ok, m) := tryWriteBlob fuel m addr p in if ok then Ok m else Fail Panic.
Definition memsetBlob (fuel : nat) (m : M) (addr : Z) (v : byte) (size : Z) : res M :=
  memsetBlobPhys fuel m addr v size.
End proxy.

(** ** The pieces *)

(** A generator in the middle of the region that ends at [e], with chunks of
    [2^k] bytes: the current chunk starts at [curAddr] and does not cross a
    chunk boundary. *)
Record gen_ok (k e : Z) (g : ChunkGenerator) : Prop := mkGenOk {
  go_chunk : chunkSize g = 2 ^ k;
  go_addr : 0 ≤ curAddr g;
  go_size : 0 ≤ curSize g;
  go_left : 0 ≤ sizeLeft g;
  go_next : nextAddr g = curAddr g + curSize g;
  go_end : nextAddr g + sizeLeft g = e;
  go_nsize : nextSize g = sizeLeft g `min` 2 ^ k;
  go_aligned : 0 < sizeLeft g → nextAddr g mod 2 ^ k = 0;
  go_line : curSize g = 0 ∨ curAddr g / 2 ^ k = (curAddr g + curSize g - 1) / 2 ^ k;
  go_done : curSize g = 0 → sizeLeft g = 0 }.

Lemma pow2_small k : 0 ≤ k < 64 → 0 < 2 ^ k < 2 ^ 64.
Proof. intros Hk. split; [apply Z.pow_pos_nonneg; lia|apply Z.pow_lt_mono_r; lia]. Qed.

(** The first chunk boundary after [a]. *)
Definition boundary (k a : Z) : Z := (a / 2 ^ k + 1) * 2 ^ k.

Lemma boundary_spec k a : 0 ≤ k → a < boundary k a ≤ a + 2 ^ k ∧ boundary k a mod 2 ^ k = 0.
Proof.
  intros Hk. assert (0 < 2 ^ k) by (apply Z.pow_pos_nonneg; lia). unfold boundary.
  pose proof (Z.div_mod a (2 ^ k)). pose proof (Z.mod_pos_bound a (2 ^ k)).
  split; [lia|]. apply Z.mod_mul. lia.
Qed.

Lemma below_boundary k a b : 0 ≤ k → a ≤ b < boundary k a → a / 2 ^ k = b / 2 ^ k.
Proof.
  intros Hk Hb. assert (0 < 2 ^ k) by (apply Z.pow_pos_nonneg; lia). unfold boundary in Hb.
  pose proof (Z.div_mod a (2 ^ k)). pose proof (Z.mod_pos_bound a (2 ^ k)).
  apply Z.div_unique with (b - (a / 2 ^ k) * 2 ^ k); lia.
Qed.

Lemma roundUp_boundary k a : 0 ≤ k < 64 → 0 ≤ a → a + 2 ^ k ≤ 2 ^ 64 →
  roundUp a (2 ^ k) = Ok (if a mod 2 ^ k =? 0 then a else boundary k a).
Proof.
  intros Hk Ha Hlt. pose proof (pow2_small k Hk). rewrite roundUp_spec by lia. f_equal. unfold boundary.
  pose proof (Z.div_mod a (2 ^ k)) as Hd. pose proof (Z.mod_pos_bound a (2 ^ k)) as Hm.
  destruct (Z.eqb_spec (a mod 2 ^ k) 0) as [E|E].
  - replace ((a + 2 ^ k - 1) / 2 ^ k) with (a / 2 ^ k); [lia|].
    apply Z.div_unique with (2 ^ k - 1); lia.
  - replace ((a + 2 ^ k - 1) / 2 ^ k) with (a / 2 ^ k + 1); [done|].
    apply Z.div_unique with (a mod 2 ^ k - 1); lia.
Qed.

Lemma new_gen_ok k start total :
  0 ≤ k < 64 → 0 ≤ start → 0 ≤ total → start + total + 2 ^ k < 2 ^ 64 →
  ∃ g, new_ChunkGenerator start total (2 ^ k) = Ok g ∧ gen_ok k (start + total) g ∧
    curAddr g = start ∧ startAddr g = start.
Proof.
  intros Hk Hs Ht Hlt. pose proof (pow2_small k Hk) as Hp. unfold new_ChunkGenerator.
  rewrite (proj2 (isPowerOf2_spec (2 ^ k) ltac:(lia))) by eauto.
  rewrite orb_true_r, (proj2 (Z.eqb_neq _ _)) by lia. cbn [assert_ res_bind].
  rewrite roundUp_boundary by lia. cbn [res_bind].
  destruct (boundary_spec k start) as [Hb1 Hb2]; [lia|].
  assert (Hnext : (if start =? (if start mod 2 ^ k =? 0 then start else boundary k start)
    then u64 ((if start mod 2 ^ k =? 0 then start else boundary k start) + 2 ^ k)
    else (if start mod 2 ^ k =? 0 then start else boundary k start)) = boundary k start).
  { destruct (Z.eqb_spec (start mod 2 ^ k) 0) as [E|E].
    - rewrite Z.eqb_refl, u64_id by lia. unfold boundary. pose proof (Z.div_mod start (2 ^ k)). lia.
    - by rewrite (proj2 (Z.eqb_neq _ _)) by lia. }
  rewrite Hnext, (u64_id (start + total)) by lia. rewrite (u64_id (_ - start)), (u64_id (total - _)) by lia.
  eexists. split; [done|]. split; [|done]. constructor; simpl; try lia.
  - intros Hpos. by rewrite Z.min_l by lia.
  - destruct (Z.eq_dec (boundary k start `min` (start + total) - start) 0); [by left|].
    right. apply below_boundary; lia.
Qed.

Lemma gen_next_ok k e g :
  0 ≤ k < 64 → e < 2 ^ 64 → gen_ok k e g → 0 < sizeLeft g →
  gen_ok k e (gen_next g).2 ∧ curAddr (gen_next g).2 = nextAddr g ∧ 0 < curSize (gen_next g).2.
Proof.
  intros Hk He [Hc Ha Hs Hl Hn Hend Hns Hal Hline Hd] Hleft. pose proof (pow2_small k Hk) as Hp.
  unfold gen_next, gen_last. rewrite (proj2 (Z.eqb_neq _ _)) by lia. simpl.
  rewrite Hc, Hns. rewrite (u64_id (sizeLeft g - _)), (u64_id (nextAddr g + _)) by lia.
  split; [|simpl; lia]. specialize (Hal Hleft). constructor; simpl; try lia.
  - intros Hpos. rewrite Z.min_r by lia. by rewrite <-(Z.mul_1_l (2 ^ k)) at 1; rewrite Z.mod_add by lia.
  - right. apply below_boundary; [lia|]. unfold boundary. pose proof (Z.div_mod (nextAddr g) (2 ^ k)). lia.
Qed.

Lemma gen_next_end k e g : gen_ok k e g → sizeLeft g = 0 → gen_done (gen_next g).2 = true.
Proof. intros _ H0. unfold gen_next, gen_last. by rewrite H0. Qed.

(** The chunks a loop over the generator visits. *)
Fixpoint chunks (fuel : nat) (g : ChunkGenerator) : res (list (Z * Z)) :=
  match fuel with
  | O => Fail OutOfFuel
  | S fuel =>
      if gen_done g then Ok []
      else let* l := chunks fuel (gen_next g).2 in Ok ((curAddr g, curSize g) :: l)
  end.

(** Adjacent pieces from [a] to [e], none empty, none across a boundary. *)
Fixpoint covers (k a e : Z) (l : list (Z * Z)) : Prop :=
  match l with
  | [] => a = e
  | (b, n) :: l => b = a ∧ 0 < n ∧ b / 2 ^ k = (b + n - 1) / 2 ^ k ∧ covers k (a + n) e l
  end.

Lemma chunks_spec k e fuel g :
  0 ≤ k < 64 → e < 2 ^ 64 → gen_ok k e g → curSize g + sizeLeft g < Z.of_nat fuel →
  ∃ l, chunks fuel g = Ok l ∧ covers k (curAddr g) e l.
Proof.
  intros Hk He. revert g. induction fuel as [|fuel IH]; intros g Hg Hf; [destruct Hg; lia|].
  simpl. unfold gen_done. pose proof Hg as [Hc Ha Hs Hl Hn Hend Hns Hal Hline Hd].
  destruct (Z.eqb_spec (curSize g) 0) as [E|E]; [exists []; split; [done|]; simpl; specialize (Hd E); lia|].
  destruct (Z.eq_dec (sizeLeft g) 0) as [E0|E0].
  - exists [(curAddr g, curSize g)]. pose proof (gen_next_end k e g Hg E0) as Hdone.
    split; [|simpl; split_and!; lia].
    destruct fuel; simpl; [lia|by rewrite Hdone].
  - destruct (gen_next_ok k e g Hk He Hg) as (Hg' & Ha' & Hs'); [lia|].
    destruct (IH (gen_next g).2 Hg') as (l & Hl' & Hcov).
    { pose proof (go_end _ _ _ Hg'). pose proof (go_next _ _ _ Hg'). lia. }
    rewrite Hl'. simpl. eexists. split; [done|]. simpl. split_and!; try lia.
    by rewrite Ha', Hn in Hcov.
Qed.

(** ** Stores and loads in pieces *)
Lemma stored_app f a d1 d2 x :
  stored (stored f a d1) (a + Z.of_nat (length d1)) d2 x = stored f a (d1 ++ d2) x.
Proof.
  unfold stored. rewrite length_app. repeat case_decide; try lia; try done.
  - rewrite app_nth2 by lia. replace (Z.to_nat (x - a) - length d1)%nat with (Z.to_nat (x - (a + Z.of_nat (length d1)))) by lia.
    apply nth_indep. lia.
  - by rewrite app_nth1 by lia.
Qed.

Lemma stored_ext f g a d x : f x = g x → stored f a d x = stored g a d x.
Proof. intros E. unfold stored. by rewrite E. Qed.

Lemma loaded_app f a n1 n2 : 0 ≤ n1 → 0 ≤ n2 → loaded f a (n1 + n2) = loaded f a n1 ++ loaded f (a + n1) n2.
Proof.
  intros H1 H2. unfold loaded. rewrite Z2Nat.inj_add, seq_app, fmap_app by lia. f_equal.
  replace (0 + Z.to_nat n1)%nat with (Z.to_nat n1 + 0)%nat by lia.
  rewrite <-fmap_add_seq, <-list_fmap_compose.
  apply list_fmap_ext. intros i x _. simpl. f_equal. lia.
Qed.

Lemma loaded_stored f g a d : (∀ x, g x = stored f a d x) → loaded g a (Z.of_nat (length d)) = d.
Proof.
  intros Hg. unfold loaded. rewrite Nat2Z.id. apply list_eq. intros i. rewrite list_lookup_fmap.
  destruct (decide (i < length d)%nat) as [Hi|Hi].
  - rewrite lookup_seq_lt by done. simpl. rewrite Hg. unfold stored. rewrite decide_True by lia.
    replace (Z.to_nat (a + Z.of_nat i - a)) with i by lia. destruct (d !! i) eqn:E; [|apply lookup_ge_None in E; lia].
    by rewrite (nth_lookup_Some _ _ _ _ E).
  - rewrite lookup_seq_ge by lia. symmetry. apply lookup_ge_None. lia.
Qed.

Section blobs.
Context {M : Type} `{FuncMemLaws M}.

Lemma write_loop_spec k e fuel m g p :
  0 ≤ k < 64 → e < 2 ^ 64 → gen_ok k e g → Z.of_nat (length p) = curSize g + sizeLeft g →
  (length p < fuel)%nat →
  ∃ m', write_loop fuel m g p = Ok m' ∧ ∀ x, fm_byte m' x = stored (fm_byte m) (curAddr g) p x.
Proof.
  intros Hk He. revert m g p. induction fuel as [|fuel IH]; intros m g p Hg Hp Hf; [lia|].
  simpl. unfold gen_done. pose proof Hg as [Hc Ha Hs Hl Hn Hend Hns Hal Hline Hd].
  destruct (Z.eqb_spec (curSize g) 0) as [E|E].
  { exists m. split; [done|]. destruct p; [|simpl in Hp; specialize (Hd E); lia].
    intros x. unfold stored. by case_decide; [simpl in *; lia|]. }
  set (d1 := take (Z.to_nat (curSize g)) p). set (d2 := drop (Z.to_nat (curSize g)) p).
  assert (Hd1 : Z.of_nat (length d1) = curSize g) by (unfold d1; rewrite length_take; lia).
  assert (Hd2 : Z.of_nat (length d2) = sizeLeft g) by (unfold d2; rewrite length_drop; lia).
  assert (Hsplit : p = d1 ++ d2) by (unfold d1, d2; by rewrite take_drop).
  destruct (Z.eq_dec (sizeLeft g) 0) as [E0|E0].
  - pose proof (gen_next_end k e g Hg E0) as Hdone. exists (fm_write m (curAddr g) d1).
    destruct fuel as [|fuel]; [lia|]. simpl. rewrite Hdone. split; [done|]. intros x.
    rewrite fm_write_law, Hsplit. destruct d2; [by rewrite app_nil_r|simpl in Hd2; lia].
  - destruct (gen_next_ok k e g Hk He Hg) as (Hg' & Ha' & Hs'); [lia|].
    pose proof (go_end _ _ _ Hg') as He'. pose proof (go_next _ _ _ Hg') as Hn'.
    destruct (IH (fm_write m (curAddr g) d1) (gen_next g).2 d2 Hg') as (m' & Hw & Hm'); [lia|lia|].
    exists m'. split; [done|]. intros x. rewrite Hm', Ha', Hn, <-Hd1, Hsplit, <-stored_app.
    apply stored_ext, fm_write_law.
Qed.

Lemma read_loop_spec k e fuel m g p :
  0 ≤ k < 64 → e < 2 ^ 64 → gen_ok k e g → curSize g + sizeLeft g < Z.of_nat fuel →
  read_loop fuel m g p = Ok (p ++ loaded (fm_byte m) (curAddr g) (curSize g + sizeLeft g)).
Proof.
  intros Hk He. revert g p. induction fuel as [|fuel IH]; intros g p Hg Hf; [destruct Hg; lia|].
  simpl. unfold gen_done. pose proof Hg as [Hc Ha Hs Hl Hn Hend Hns Hal Hline Hd].
  destruct (Z.eqb_spec (curSize g) 0) as [E|E].
  { rewrite E, Hd by done. by rewrite app_nil_r. }
  rewrite fm_read_law. destruct (Z.eq_dec (sizeLeft g) 0) as [E0|E0].
  - pose proof (gen_next_end k e g Hg E0) as Hdone. destruct fuel as [|fuel]; [lia|]. simpl. rewrite Hdone.
    by rewrite E0, Z.add_0_r.
  - destruct (gen_next_ok k e g Hk He Hg) as (Hg' & Ha' & Hs'); [lia|].
    pose proof (go_end _ _ _ Hg') as He'. pose proof (go_next _ _ _ Hg') as Hn'.
    rewrite IH by (done || lia). rewrite (loaded_app _ _ (curSize g)), <-app_assoc, Ha', Hn by lia.
    by replace (curSize (gen_next g).2 + sizeLeft (gen_next g).2) with (sizeLeft g) by lia.
Qed.

(** What a client of the proxy may rely on. *)
Lemma writeBlob_spec k fuel m a d :
  0 ≤ k < 64 → 0 ≤ a → a + Z.of_nat (length d) + 2 ^ k < 2 ^ 64 → (length d < fuel)%nat →
  ∃ m', writeBlob (2 ^ k) fuel m a d = Ok m' ∧ ∀ x, fm_byte m' x = stored (fm_byte m) a d x.
Proof.
  intros Hk Ha Hlt Hf. destruct (new_gen_ok k a (Z.of_nat (length d)) Hk Ha) as (g & Hg & Hok & Hca & _); [lia..|].
  unfold writeBlob, tryWriteBlob, writeBlobPhys. rewrite Hg. cbn [res_bind]. pose proof (pow2_small k Hk).
  destruct (write_loop_spec k (a + Z.of_nat (length d)) fuel m g d Hk) as (m' & Hw & Hm'); [lia|done| |done|].
  - pose proof (go_end _ _ _ Hok). pose proof (go_next _ _ _ Hok). lia.
  - rewrite Hw. exists m'. split; [done|]. by rewrite Hca in Hm'.
Qed.

Lemma readBlob_spec k fuel m a n :
  0 ≤ k < 64 → 0 ≤ a → 0 ≤ n → a + n + 2 ^ k < 2 ^ 64 → n < Z.of_nat fuel →
  readBlob (2 ^ k) fuel m a n = Ok (loaded (fm_byte m) a n).
Proof.
  intros Hk Ha Hn Hlt Hf. destruct (new_gen_ok k a n Hk Ha Hn) as (g & Hg & Hok & Hca & _); [lia|].
  unfold readBlob, tryReadBlob, readBlobPhys. rewrite Hg. cbn [res_bind]. pose proof (pow2_small k Hk).
  assert (Hsz : curSize g + sizeLeft g = n) by (pose proof (go_end _ _ _ Hok); pose proof (go_next _ _ _ Hok); lia).
  rewrite (read_loop_spec k (a + n)) by (done || lia). simpl. by rewrite Hsz, Hca.
Qed.
End blobs.

(** ** The properties *)

(** A loop over a chunk generator terminates and its chunks are adjacent,
    non-empty, cover the region exactly, and none crosses a boundary of the
    chunk size. *)
Theorem chunks_cover k start total :
  0 ≤ k < 64 → 0 ≤ start → 0 ≤ total → start + total + 2 ^ k < 2 ^ 64 →
  ∃ g l, new_ChunkGenerator start total (2 ^ k) = Ok g ∧
    chunks (S (Z.to_nat total)) g = Ok l ∧ covers k start (start + total) l.
Proof.
  intros Hk Hs Ht Hlt. destruct (new_gen_ok k start total Hk Hs Ht Hlt) as (g & Hg & Hok & Hca & _).
  pose proof (pow2_small k Hk).
  destruct (chunks_spec k (start + total) (S (Z.to_nat total)) g Hk) as (l & Hl & Hc); [lia|done| |].
  - pose proof (go_end _ _ _ Hok). pose proof (go_next _ _ _ Hok). lia.
  - exists g, l. by rewrite Hca in Hc.
Qed.

(** C34: a blob written through the proxy is read back unchanged, and no other
    byte of the memory changes, whatever the alignment and cache line size. *)
Theorem blob_roundtrip {M} `{FuncMemLaws M} k (m : M) a d :
  0 ≤ k < 64 → 0 ≤ a → a + Z.of_nat (length d) + 2 ^ k < 2 ^ 64 →
  ∃ m', writeBlob (2 ^ k) (S (length d)) m a d = Ok m' ∧
    readBlob (2 ^ k) (S (length d)) m' a (Z.of_nat (length d)) = Ok d ∧
    ∀ x, x < a ∨ a + Z.of_nat (length d) ≤ x → fm_byte m' x = fm_byte m x.
Proof.
  intros Hk Ha Hlt. destruct (writeBlob_spec k (S (length d)) m a d Hk Ha Hlt) as (m' & Hw & Hm'); [lia|].
  exists m'. split_and!; [done| |].
  - rewrite readBlob_spec by (done || lia). f_equal. by apply (loaded_stored (fm_byte m)).
  - intros x Hx. rewrite Hm'. unfold stored. rewrite decide_False by lia. done.
Qed.

(** [setNext] to an unaligned address inside the last chunk of the region
    makes the next chunk run past the end of the region, and the remaining size
    wraps around. *)
Theorem setNext_overruns k e g next :
  0 ≤ k < 64 → e + 2 ^ k < 2 ^ 64 → gen_ok k e g → nextAddr g ≤ next < e →
  next mod 2 ^ k ≠ 0 → e < boundary k next →
  ∃ g', setNext g next = Ok g' ∧ curAddr (gen_next g').2 = next ∧
    curAddr (gen_next g').2 + curSize (gen_next g').2 = boundary k next ∧
    sizeLeft (gen_next g').2 = 2 ^ 64 - (boundary k next - e).
Proof.
  intros Hk He [Hc Ha Hs Hl Hn Hend Hns Hal Hline Hd] Hnext Hmod Hb. pose proof (pow2_small k Hk).
  destruct (boundary_spec k next) as [Hb1 _]; [lia|].
  unfold setNext. rewrite (proj2 (Z.leb_le _ _)) by lia. cbn [assert_ res_bind].
  rewrite Hc, (proj2 (Z.eqb_neq _ 0)) by lia. cbn [assert_ res_bind negb].
  rewrite roundUp_boundary, (proj2 (Z.eqb_neq _ 0) Hmod) by lia. cbn [res_bind].
  rewrite (u64_id (next - _)), (u64_id (sizeLeft g - _)), (u64_id (boundary _ _ - _)) by lia.
  rewrite (proj2 (Z.eqb_neq (boundary _ _ - _) 0)) by lia. eexists. split; [done|].
  unfold gen_next, gen_last. simpl. rewrite (proj2 (Z.eqb_neq _ 0)) by lia. simpl. split_and!; [done|lia|].
  rewrite Z.min_l by lia. rewrite (u64_eq (-1) _ (2 ^ 64 - (boundary k next - e))) by lia. apply u64_id. lia.
Qed.

(** A flat memory, for the witnesses. *)
#[export] Instance flat_mem : FuncMem (Z → byte) := {| fm_write := stored; fm_read := loaded |}.
#[export] Instance flat_mem_laws : FuncMemLaws (Z → byte).
Proof. by refine {| fm_byte (m : Z → byte) := m |}. Defined.

Lemma chunks_cover_witness :
  ∃ g, new_ChunkGenerator 60 10 (2 ^ 6) = Ok g ∧ chunks 11 g = Ok [(60, 4); (64, 6)] ∧ covers 6 60 70 [(60, 4); (64, 6)].
Proof.
  destruct (chunks_cover 6 60 10) as (g & l & Hg & Hl & Hc); [lia..|]. exists g.
  vm_compute in Hg. injection Hg as <-. vm_compute in Hl. injection Hl as <-. done.
Defined.

Lemma blob_roundtrip_witness :
  ∃ m', writeBlob (2 ^ 6) 3 (λ _, Byte.x00) 63 [Byte.x61; Byte.x62] = Ok m' ∧
    readBlob (2 ^ 6) 3 m' 63 2 = Ok [Byte.x61; Byte.x62].
Proof.
  destruct (blob_roundtrip 6 (λ _ : Z, Byte.x00) 63 [Byte.x61; Byte.x62]) as (m' & Hw & Hr & _);
    [lia|lia|simpl; lia|]. by exists m'.
Defined.

Lemma setNext_overruns_witness :
  ∃ g g', new_ChunkGenerator 0 10 (2 ^ 3) = Ok g ∧ setNext g 9 = Ok g' ∧
    curAddr (gen_next g').2 + curSize (gen_next g').2 = 16.
Proof.
  destruct (new_gen_ok 3 0 10) as (g & Hg & Hok & _); [lia..|].
  destruct (setNext_overruns 3 10 g 9) as (g' & Hs & _ & Hend & _); [lia|lia|done|..].
  - vm_compute in Hg. injection Hg as <-. simpl. lia.
  - done.
  - by vm_compute.
  - by exists g, g'.
Defined.
