(* ===== verification/PnmCompactor.v ===== *)
(** * The PNM compaction device (gem5 [dev/pnm/pnm_compactor.hh], [.cc])

    A memory-mapped engine: the guest writes the byte counts of a job and
    submits it, the device is busy for the transfer time, then reports
    completion through its status register and its statistics.

    The device is a client of three interfaces: the event manager (its
    completion event), the physical port proxy (the result record) and the
    drain manager. *)
From S2P Require Import Prelude Float64 EventMgr Drain Bitfield PortProxy.
Local Open Scope Z_scope.

(** ** Packets ([mem/packet.hh], [mem/packet_access.hh]) *)
Record Packet := mkPacket {
  pkt_addr : Z;
  pkt_data : bytes;
  pkt_isRequest : bool;
  pkt_needsResponse : bool }.

Definition getSize (p : Packet) : Z := Z.of_nat (length (pkt_data p)).

(** [getLE<T>] and [setLE<T>] for a [T] of [n] bytes. *)
Definition getLE (n : nat) (p : Packet) : res Z :=
  let* _ := assert_ (Z.of_nat n <=? getSize p) in
  Ok (le_combine (take n (pkt_data p))).
Definition setLE (n : nat) (v : Z) (p : Packet) : res Packet :=
  let* _ := assert_ (Z.of_nat n <=? getSize p) in
  Ok (mkPacket (pkt_addr p) (le_split n v ++ drop n (pkt_data p)) (pkt_isRequest p) (pkt_needsResponse p)).

Definition makeAtomicResponse (p : Packet) : res Packet :=
  let* _ := assert_ (pkt_needsResponse p) in
  let* _ := assert_ (pkt_isRequest p) in
  Ok (mkPacket (pkt_addr p) (pkt_data p) false false).

(** ** Register map *)
Definition OFF_SRC_BYTES := 0x00.
Definition OFF_DST_BYTES := 0x08.
Definition OFF_CMD := 0x10.
Definition OFF_STATUS := 0x14.
Definition OFF_BYTES_PROC := 0x18.
Definition OFF_JOBS_DONE := 0x20.
Definition STATUS_BUSY := 1.
Definition STATUS_DONE := 2.
Definition STATUS_ERROR := 4.
Definition CMD_SUBMIT := 1.
Definition CMD_RESET := 2.
Definition MAX_JOB_BYTES := 512 * 1024 * 1024.

Record Params := mkParams {
  pioAddr : Z;
  pioSize : Z;
  processLatency : Z;
  bandwidth : double;
  useDma : bool;
  dmaAddr : Z }.

Record PNMCompactor := mkDev {
  d_params : Params;
  srcBytesReg : Z;
  dstBytesReg : Z;
  statusReg : Z;
  busy : bool;
  bytesProcessed : double;
  jobsCompleted : double }.

Definition new_PNMCompactor (p : Params) : PNMCompactor :=
  mkDev p 0 0 0 false (S754_zero false) (S754_zero false).

Definition set_src (v : Z) (d : PNMCompactor) : PNMCompactor :=
  mkDev (d_params d) v (dstBytesReg d) (statusReg d) (busy d) (bytesProcessed d) (jobsCompleted d).
Definition set_dst (v : Z) (d : PNMCompactor) : PNMCompactor :=
  mkDev (d_params d) (srcBytesReg d) v (statusReg d) (busy d) (bytesProcessed d) (jobsCompleted d).
Definition set_status (s : Z) (b : bool) (d : PNMCompactor) : PNMCompactor :=
  mkDev (d_params d) (srcBytesReg d) (dstBytesReg d) s b (bytesProcessed d) (jobsCompleted d).
Definition set_stats (b j : double) (d : PNMCompactor) : PNMCompactor :=
  mkDev (d_params d) (srcBytesReg d) (dstBytesReg d) (statusReg d) (busy d) b j.

(** The claimed address range, [start] to one past the end. *)
Definition getAddrRanges (d : PNMCompactor) : list (Z * Z) :=
  [(pioAddr (d_params d), u64 (pioAddr (d_params d) + pioSize (d_params d)))].

Definition pktGet (p : Packet) : res Z :=
  if getSize p =? 8 then getLE 8 p
  else if getSize p =? 4 then getLE 4 p
  else if getSize p =? 2 then getLE 2 p
  else getLE 1 p.
Definition pktSet (p : Packet) (val : Z) : res Packet :=
  if getSize p =? 8 then setLE 8 val p
  else if getSize p =? 4 then setLE 4 (u32 val) p
  else if getSize p =? 2 then setLE 2 (u16 val) p
  else setLE 1 (u8 val) p.

(** ** MMIO read *)
Definition read (d : PNMCompactor) (p : Packet) : res Packet :=
  let off := u64 (pkt_addr p - pioAddr (d_params d)) in
  let* p :=
    if off =? OFF_STATUS then pktSet p (statusReg d)
    else if off =? OFF_BYTES_PROC then let* v := to_u64 (bytesProcessed d) in pktSet p v
    else if off =? OFF_JOBS_DONE then let* v := to_u64 (jobsCompleted d) in pktSet p v
    else pktSet p 0 in
  makeAtomicResponse p.

(** The transfer time of [totalBytes]. *)
Definition bwLatency (bw : double) (totalBytes : Z) : res Z :=
  if dgt0 bw && (0 <? totalBytes) then to_u64 (dmul (of_u64 totalBytes) bw) else Ok 0.

Section device.
Context {Q E : Type} `{EventManagerLaws Q E} {M : Type} `{FuncMemLaws M}.
Context (completeEvent : E) (self : oid) (_cacheLineSize : Z).

(** The device and what it uses: the event queue, the drain manager and guest
    memory. *)
Record World := mkWorld { w_dev : PNMCompactor; w_q : Q; w_dm : DrainManager; w_mem : M }.

Definition on_dev (f : PNMCompactor → PNMCompactor) (w : World) : World :=
  mkWorld (f (w_dev w)) (w_q w) (w_dm w) (w_mem w).

(** ** MMIO write *)
Definition submit (w : World) : res World :=
  let d := w_dev w in
  if busy d then Ok w
  else if MAX_JOB_BYTES <? srcBytesReg d then Ok (on_dev (set_status STATUS_ERROR (busy d)) w)
  else
    let totalBytes := u64 (srcBytesReg d + dstBytesReg d) in
    let* bw := bwLatency (bandwidth (d_params d)) totalBytes in
    let totalLatency := u64 (bw + processLatency (d_params d)) in
    let* q := em_schedule (w_q w) completeEvent (u64 (em_curTick (w_q w) + totalLatency)) in
    Ok (mkWorld (set_status STATUS_BUSY true d) q (w_dm w) (w_mem w)).

Definition reset (w : World) : res World :=
  let* b := em_scheduled (w_q w) completeEvent in
  let* q := if b then em_deschedule (w_q w) completeEvent else Ok (w_q w) in
  Ok (mkWorld (set_status 0 false (w_dev w)) q (w_dm w) (w_mem w)).

Definition write (w : World) (p : Packet) : res (Packet * World) :=
  let off := u64 (pkt_addr p - pioAddr (d_params (w_dev w))) in
  let* w :=
    if off =? OFF_SRC_BYTES then let* v := pktGet p in Ok (on_dev (set_src v) w)
    else if off =? OFF_DST_BYTES then let* v := pktGet p in Ok (on_dev (set_dst v) w)
    else if off =? OFF_CMD then
      let* v := pktGet p in
      let cmd := u32 v in
      if cmd =? CMD_SUBMIT then submit w
      else if cmd =? CMD_RESET then reset w
      else Ok w
    else Ok w in
  let* p := makeAtomicResponse p in
  Ok (p, w).

(** ** Completion *)
Definition result_record (b j : Z) : bytes := le_split 8 b ++ le_split 4 j ++ replicate 4 Byte.x00.

Definition onComplete (w : World) : res World :=
  let d := w_dev w in
  let total := u64 (srcBytesReg d + dstBytesReg d) in
  let b := dadd (bytesProcessed d) (of_u64 total) in
  let j := dadd (jobsCompleted d) (of_u64 1) in
  let d := set_stats b j d in
  let* m :=
    if useDma (d_params d) then
      let* bProc := to_u64 b in
      let* jDone := to_u32 j in
      writeBlob _cacheLineSize 17 (w_mem w) (dmaAddr (d_params d)) (result_record bProc jDone)
    else Ok (w_mem w) in
  let d := set_status STATUS_DONE false d in
  let* s := drainState (w_dm w) self in
  let* dm := if decide (s = Draining) then signalDrainDone self (w_dm w) else Ok (w_dm w) in
  Ok (mkWorld d (w_q w) dm m).

(** ** Drain *)
Definition drain (q : Q) : res DrainState :=
  let* b := em_scheduled q completeEvent in
  Ok (if b then Draining else Drained).
End device.
Arguments World Q M : clear implicits.

(** ** Accesses of the register widths *)
Definition reg_width (n : nat) : Prop := n = 1%nat ∨ n = 2%nat ∨ n = 4%nat ∨ n = 8%nat.

(** A request of [n] bytes to the register at [off]. *)
Definition request (ps : Params) (off : Z) (d : bytes) : Packet := mkPacket (u64 (pioAddr ps + off)) d true true.

Lemma request_off ps off d : in_u 64 off → u64 (pkt_addr (request ps off d) - pioAddr ps) = off.
Proof.
  intros Hoff. unfold request. simpl. rewrite u64_sub_l.
  replace (pioAddr ps + off - pioAddr ps) with off by lia. by apply u64_id.
Qed.

Lemma pktGet_spec p : reg_width (length (pkt_data p)) → pktGet p = Ok (le_combine (pkt_data p)).
Proof.
  unfold pktGet, getLE, getSize. intros [Hn|[Hn|[Hn|Hn]]]; rewrite Hn; simpl; by rewrite take_ge by lia.
Qed.

Lemma le_split_wrap n w v : w = Z.of_nat n * 8 → le_split n (v mod 2 ^ w) = le_split n v.
Proof. intros ->. symmetry. apply le_split_mod. Qed.

Lemma pktSet_spec p v : reg_width (length (pkt_data p)) →
  pktSet p v = Ok (mkPacket (pkt_addr p) (le_split (length (pkt_data p)) v) (pkt_isRequest p) (pkt_needsResponse p)).
Proof.
  unfold pktSet, setLE, getSize, u32, u16, u8.
  intros [Hn|[Hn|[Hn|Hn]]]; rewrite Hn;
    cbv [Z.of_nat Pos.of_succ_nat Pos.succ Z.eqb Pos.eqb Z.leb Z.compare Pos.compare Pos.compare_cont assert_ res_bind];
    rewrite drop_ge, app_nil_r, ?le_split_wrap by (done || lia); done.
Qed.

(** ** Invariant and behaviour of the operations *)
Section behaviour.
Context {Q E : Type} `{EventManagerLaws Q E} {M : Type} `{FuncMemLaws M}.
Context (ce : E) (self : oid) (k : Z).

Abbreviation write := (write ce).
Abbreviation onComplete := (onComplete self (2 ^ k)).

(** The device is busy exactly while its completion event is pending, and the
    status register says so. *)
Record dev_inv (w : World Q M) : Prop := mkDevInv {
  di_ok : em_ok (w_q w);
  di_live : em_live (w_q w) ce;
  di_busy : busy (w_dev w) = true ↔ is_Some (em_when (w_q w) ce);
  di_status : if busy (w_dev w) then statusReg (w_dev w) = STATUS_BUSY
              else statusReg (w_dev w) ∈ [0; STATUS_DONE; STATUS_ERROR] }.

(** What a submitted job adds to the time. *)
Definition job_time (d : PNMCompactor) (now L : Z) : Z :=
  u64 (now + u64 (L + processLatency (d_params d))).

Lemma submit_cases w : dev_inv w →
  (busy (w_dev w) = true ∧ submit ce w = Ok w) ∨
  (busy (w_dev w) = false ∧ MAX_JOB_BYTES < srcBytesReg (w_dev w) ∧
     submit ce w = Ok (on_dev (set_status STATUS_ERROR false) w)) ∨
  (busy (w_dev w) = false ∧ srcBytesReg (w_dev w) ≤ MAX_JOB_BYTES ∧
     ∀ L, bwLatency (bandwidth (d_params (w_dev w))) (u64 (srcBytesReg (w_dev w) + dstBytesReg (w_dev w))) = Ok L →
       em_curTick (w_q w) ≤ job_time (w_dev w) (em_curTick (w_q w)) L →
       ∃ q', submit ce w = Ok (mkWorld (set_status STATUS_BUSY true (w_dev w)) q' (w_dm w) (w_mem w)) ∧
         em_ok q' ∧ em_live q' ce ∧ em_curTick q' = em_curTick (w_q w) ∧
         em_when q' ce = Some (job_time (w_dev w) (em_curTick (w_q w)) L)).
Proof.
  intros [Hok Hlive Hbusy Hst]. unfold submit. destruct (busy (w_dev w)) eqn:Eb; [by left|right].
  destruct (Z.ltb_spec MAX_JOB_BYTES (srcBytesReg (w_dev w))); [by left|right]. split_and!; try done.
  intros L HL Ht. rewrite HL. cbn [res_bind].
  destruct (em_schedule_law (w_q w) ce (job_time (w_dev w) (em_curTick (w_q w)) L) Hok Hlive)
    as (q' & Hq & Hok' & Hct & Hwhen & _ & Hlv).
  - apply eq_None_not_Some. intros Hs%Hbusy. done.
  - split; [done|]. unfold job_time. apply u64_range.
  - unfold job_time in Hq. rewrite Hq. eexists. split; [done|]. eauto.
Qed.

(** Whatever a submission does, it keeps the invariant. *)
Lemma submit_inv w w' : dev_inv w → submit ce w = Ok w' → dev_inv w'.
Proof.
  intros Hi Hs. destruct (submit_cases w Hi) as [[_ Es]|[(Eb & _ & Es)|(Eb & Hsz & Hrun)]].
  - rewrite Hs in Es. by simplify_eq.
  - rewrite Hs in Es. simplify_eq. destruct Hi as [Ho Hl Hb Hst]. rewrite Eb in *. constructor; simpl; try done. set_solver.
  - unfold submit in Hs. rewrite Eb, (proj2 (Z.ltb_ge _ _)) in Hs by done.
    apply res_bind_ok in Hs as (L & HL & Hs). apply res_bind_ok in Hs as (q1 & Hq1 & Hs).
    destruct (decide (em_curTick (w_q w) ≤ job_time (w_dev w) (em_curTick (w_q w)) L)) as [Ht|Ht].
    + destruct (Hrun L HL Ht) as (q' & Es & Hok' & Hlive' & _ & Hw'). unfold submit in Es.
      rewrite Eb, (proj2 (Z.ltb_ge _ _)), HL in Es by done. cbn [res_bind] in Es. rewrite Hq1 in Es. simpl in Es.
      simplify_eq. by constructor; simpl; try done; rewrite Hw'.
    + unfold job_time in Ht. by rewrite em_schedule_past in Hq1 by lia.
Qed.

Lemma reset_spec w : dev_inv w →
  ∃ q', reset ce w = Ok (mkWorld (set_status 0 false (w_dev w)) q' (w_dm w) (w_mem w)) ∧
    em_ok q' ∧ em_live q' ce ∧ em_curTick q' = em_curTick (w_q w) ∧ em_when q' ce = None.
Proof.
  intros [Hok Hlive Hbusy Hst]. unfold reset. rewrite em_scheduled_law by done. cbn [res_bind].
  destruct (em_when (w_q w) ce) as [t|] eqn:Ew.
  - rewrite bool_decide_true by eauto.
    destruct (em_deschedule_law (w_q w) ce t Hok Hlive Ew) as (q' & Hq & Hok' & Hct & Hw' & _ & Hlv).
    rewrite Hq. cbn [res_bind]. eexists. split; [done|]. eauto.
  - rewrite bool_decide_false by (by intros []). cbn [res_bind]. eexists. split; [done|]. eauto.
Qed.

Lemma write_inv w p p' w' : dev_inv w → write w p = Ok (p', w') → dev_inv w'.
Proof.
  intros Hi. unfold PnmCompactor.write. set (off := u64 _). intros Hw.
  apply res_bind_ok in Hw as (w1 & H1w & Hw). apply res_bind_ok in Hw as (p1 & _ & Hw). simplify_eq.
  destruct (off =? OFF_SRC_BYTES).
  { apply res_bind_ok in H1w as (v & _ & Hw). simplify_eq. by destruct Hi. }
  destruct (off =? OFF_DST_BYTES).
  { apply res_bind_ok in H1w as (v & _ & Hw). simplify_eq. by destruct Hi. }
  destruct (off =? OFF_CMD); [|by simplify_eq].
  apply res_bind_ok in H1w as (v & _ & Hw). destruct (u32 v =? CMD_SUBMIT); [by eapply submit_inv|].
  destruct (u32 v =? CMD_RESET); [|by simplify_eq].
  destruct (reset_spec w Hi) as (q' & Hr & Hok' & Hlive' & _ & Hn). rewrite Hw in Hr. simplify_eq.
  constructor; simpl; try done; [|set_solver]. rewrite Hn. split; [done|by intros []].
Qed.

(** The registers, status and drain state after the completion event. *)
Lemma onComplete_dev (w w' : World Q M) : onComplete w = Ok w' →
  statusReg (w_dev w') = STATUS_DONE ∧ busy (w_dev w') = false ∧ w_q w' = w_q w ∧
  bytesProcessed (w_dev w') = dadd (bytesProcessed (w_dev w)) (of_u64 (u64 (srcBytesReg (w_dev w) + dstBytesReg (w_dev w)))) ∧
  jobsCompleted (w_dev w') = dadd (jobsCompleted (w_dev w)) (of_u64 1) ∧
  d_params (w_dev w') = d_params (w_dev w).
Proof.
  unfold PnmCompactor.onComplete. intros Hw. apply res_bind_ok in Hw as (m & _ & Hw).
  apply res_bind_ok in Hw as (s & _ & Hw). apply res_bind_ok in Hw as (dm & _ & Hw). by simplify_eq.
Qed.

(** The drain manager knows the device and its count is consistent. *)
Definition drain_ok (dm : DrainManager) : Prop := dwf dm ∧ self ∈ dm_all dm.

(** A completion that cannot fail: the statistics are exact and the result
    record fits in the address space. *)
Record completes (w : World Q M) (B J : Z) : Prop := mkCompletes {
  cp_bytes : is_int (bytesProcessed (w_dev w)) B;
  cp_jobs : is_int (jobsCompleted (w_dev w)) J;
  cp_bytes_lt : B + u64 (srcBytesReg (w_dev w) + dstBytesReg (w_dev w)) < 2 ^ 53;
  cp_jobs_lt : J + 1 < 2 ^ 32;
  cp_dma : 0 ≤ dmaAddr (d_params (w_dev w)) ∧ dmaAddr (d_params (w_dev w)) + 16 + 2 ^ k < 2 ^ 64;
  cp_drain : drain_ok (w_dm w) }.

Lemma result_record_length b j : length (result_record b j) = 16%nat.
Proof. unfold result_record. by rewrite !length_app, !length_le_split. Qed.

Lemma onComplete_runs w B J :
  0 ≤ k < 64 → completes w B J →
  let total := u64 (srcBytesReg (w_dev w) + dstBytesReg (w_dev w)) in
  ∃ w', onComplete w = Ok w' ∧
    is_int (bytesProcessed (w_dev w')) (B + total) ∧ is_int (jobsCompleted (w_dev w')) (J + 1) ∧
    (∀ x, fm_byte (w_mem w') x =
       if useDma (d_params (w_dev w)) then
         stored (fm_byte (w_mem w)) (dmaAddr (d_params (w_dev w))) (result_record (B + total) (J + 1)) x
       else fm_byte (w_mem w) x) ∧
    dm_obj (w_dm w') !! self ≠ Some Draining ∧ drain_ok (w_dm w').
Proof.
  intros Hk [HB HJ HBl HJl [Hd0 Hd1] [Hdwf Hin]] total. unfold PnmCompactor.onComplete.
  pose proof (u64_range (srcBytesReg (w_dev w) + dstBytesReg (w_dev w))) as Htot. fold total in HBl, Htot.
  pose proof (is_int_nonneg _ _ HB). pose proof (is_int_nonneg _ _ HJ).
  assert (HB' : is_int (dadd (bytesProcessed (w_dev w)) (of_u64 total)) (B + total))
    by (apply dadd_exact; [done|apply of_u64_exact; lia|done]).
  assert (HJ' : is_int (dadd (jobsCompleted (w_dev w)) (of_u64 1)) (J + 1))
    by (apply dadd_exact; [done|apply of_u64_exact; lia|lia]).
  fold total. rewrite (is_int_to_u64 _ _ HB') by lia. cbn [res_bind set_stats d_params].
  rewrite (is_int_to_u32 _ _ HJ') by lia. cbn [res_bind].
  destruct (writeBlob_spec k 17 (w_mem w) (dmaAddr (d_params (w_dev w))) (result_record (B + total) (J + 1)))
    as (m' & Hm & Hm'); rewrite ?result_record_length; try done; try lia.
  set (mres := if useDma _ then _ else _).
  assert (Hmem : ∃ m2, mres = Ok m2 ∧ ∀ x, fm_byte m2 x =
    if useDma (d_params (w_dev w)) then
      stored (fm_byte (w_mem w)) (dmaAddr (d_params (w_dev w))) (result_record (B + total) (J + 1)) x
    else fm_byte (w_mem w) x).
  { unfold mres. destruct (useDma _); eauto. }
  destruct Hmem as (m2 & -> & Hm2). cbn [res_bind].
  destruct (dwf_known _ Hdwf self Hin) as [s Hs]. unfold drainState. rewrite Hs. cbn [deref res_bind].
  destruct (decide (s = Draining)) as [->|Hne].
  - destruct (signal_spec self (w_dm w) Hdwf Hin) as (dm' & Hsig & Hdwf' & Hall & _ & _ & Hobj & _).
    rewrite Hsig. cbn [res_bind]. eexists. split; [done|]. split_and!; try done; simpl.
    + rewrite Hobj. by rewrite decide_True.
    + split; [done|by rewrite Hall].
  - cbn [res_bind]. eexists. split; [done|]. split_and!; try done; simpl. congruence.
Qed.

(** ** The device as a transition system.  [guest p] restricts the packets the
    guest writes. *)
Inductive dstep (guest : Packet → Prop) : World Q M → World Q M → Prop :=
  | ds_read w p p' : read (w_dev w) p = Ok p' → dstep guest w w
  | ds_write w p p' w' : guest p → write w p = Ok (p', w') → dstep guest w w'
  | ds_fire w q' w' :
      em_next (w_q w) = Ok (ce, q') →
      onComplete (mkWorld (w_dev w) q' (w_dm w) (w_mem w)) = Ok w' → dstep guest w w'
  (* time passes, other components use the queue, guest memory and the manager *)
  | ds_other w q' dm' m' :
      em_ok q' → (em_live (w_q w) ce → em_live q' ce) → em_when q' ce = em_when (w_q w) ce →
      em_curTick (w_q w) ≤ em_curTick q' → dm_obj dm' !! self = dm_obj (w_dm w) !! self →
      dstep guest w (mkWorld (w_dev w) q' dm' m').

(** The drain manager asks the device. *)
Definition asked (w : World Q M) (w' : World Q M) : Prop :=
  ∃ s, drain ce (w_q w) = Ok s ∧
    w' = mkWorld (w_dev w) (w_q w) (set_drainState self s (w_dm w)) (w_mem w).

Lemma next_fires q e q' : em_ok q → em_next q = Ok (e, q') →
  em_when q e = Some (em_curTick q') ∧ em_ok q' ∧ em_when q' e = None ∧ (∀ x, em_live q x → em_live q' x).
Proof.
  intros Hok Hn. destruct (em_next_law q Hok) as [[_ Hf]|(e' & q2 & Hn' & Hok' & Hw & _ & He & _ & Hl)].
  - by rewrite Hf in Hn.
  - rewrite Hn in Hn'. by injection Hn' as <- <-.
Qed.

Lemma dstep_inv guest w w' : dev_inv w → dstep guest w w' → dev_inv w'.
Proof.
  intros Hi Hs. destruct Hs as [w p p' Hr|w p p' w' _ Hw|w q' w' Hn Hc|w q' dm' m' Hok Hl Hw Ht _].
  - done.
  - by eapply write_inv.
  - destruct Hi as [Ho Hlv Hb Hst]. destruct (next_fires _ _ _ Ho Hn) as (Hwhen & Ho' & Hn' & Hl').
    destruct (onComplete_dev _ _ Hc) as (Hs' & Hb' & Hq' & _). simpl in Hq'.
    constructor; rewrite ?Hq', ?Hb', ?Hs'; [done|auto| |set_solver]. rewrite Hn'. split; [done|by intros []].
  - destruct Hi as [Ho Hlv Hb Hst]. constructor; simpl; auto. by rewrite Hw.
Qed.

Lemma asked_inv w w' : dev_inv w → asked w w' → dev_inv w'.
Proof. intros [] (s & _ & ->). by constructor. Qed.
End behaviour.
