(* ===== verification/PnmDeviceThm.v ===== *)
(** * Properties of the PNM compaction device

    Proved against the interfaces the device uses, then instantiated with the
    real event queue. *)
From S2P Require Import Prelude Float64 EventQ EventQThm EventMgr Drain Bitfield PortProxy PnmCompactor.
Local Open Scope Z_scope.

(** A register read returns the register's value in the packet's width. *)
Lemma read_status d ps data :
  d_params d = ps → reg_width (length data) →
  read d (request ps OFF_STATUS data) =
    Ok (mkPacket (u64 (pioAddr ps + OFF_STATUS)) (le_split (length data) (statusReg d)) false false).
Proof.
  intros <- Hn. unfold read. rewrite request_off by (unfold OFF_STATUS; lia). simpl.
  by rewrite pktSet_spec.
Qed.

Lemma read_jobs d ps data J :
  d_params d = ps → reg_width (length data) → is_int (jobsCompleted d) J → J < 2 ^ 64 →
  read d (request ps OFF_JOBS_DONE data) =
    Ok (mkPacket (u64 (pioAddr ps + OFF_JOBS_DONE)) (le_split (length data) J) false false).
Proof.
  intros <- Hn HJ HJl. unfold read. rewrite request_off by (unfold OFF_JOBS_DONE; lia). simpl.
  rewrite (is_int_to_u64 _ _ HJ) by done. simpl. by rewrite pktSet_spec.
Qed.

Lemma read_bytes d ps data B :
  d_params d = ps → reg_width (length data) → is_int (bytesProcessed d) B → B < 2 ^ 64 →
  read d (request ps OFF_BYTES_PROC data) =
    Ok (mkPacket (u64 (pioAddr ps + OFF_BYTES_PROC)) (le_split (length data) B) false false).
Proof.
  intros <- Hn HB HBl. unfold read. rewrite request_off by (unfold OFF_BYTES_PROC; lia). simpl.
  rewrite (is_int_to_u64 _ _ HB) by done. simpl. by rewrite pktSet_spec.
Qed.

Section device.
Context {Q E : Type} `{EventManagerLaws Q E} {M : Type} `{FuncMemLaws M}.
Context (ce : E) (self : oid) (k : Z).

(** The three kinds of register write the drivers use. *)
Definition w64 (w : World Q M) (off v : Z) : res (Packet * World Q M) :=
  write ce w (request (d_params (w_dev w)) off (le_split 8 v)).
Definition w32 (w : World Q M) (off v : Z) : res (Packet * World Q M) :=
  write ce w (request (d_params (w_dev w)) off (le_split 4 v)).

Lemma write_reg (w : World Q M) off n v :
  reg_width n → in_u 64 off → in_u (Z.of_nat n * 8) v →
  write ce w (request (d_params (w_dev w)) off (le_split n v)) =
    (let* w' :=
       if off =? OFF_SRC_BYTES then Ok (on_dev (set_src v) w)
       else if off =? OFF_DST_BYTES then Ok (on_dev (set_dst v) w)
       else if off =? OFF_CMD then
         if u32 v =? CMD_SUBMIT then submit ce w else if u32 v =? CMD_RESET then reset ce w else Ok w
       else Ok w in
     Ok (mkPacket (u64 (pioAddr (d_params (w_dev w)) + off)) (le_split n v) false false, w')).
Proof.
  intros Hn Hoff Hv. unfold write. rewrite request_off by done.
  rewrite pktGet_spec by (cbn [pkt_data request]; by rewrite length_le_split).
  cbn [pkt_data request]. by rewrite le_roundtrip.
Qed.

Lemma w64_src w v : in_u 64 v → ∃ p, w64 w OFF_SRC_BYTES v = Ok (p, on_dev (set_src v) w).
Proof. intros Hv. unfold w64. rewrite (write_reg w OFF_SRC_BYTES 8 v) by (done || by do 3 right). eauto. Qed.
Lemma w64_dst w v : in_u 64 v → ∃ p, w64 w OFF_DST_BYTES v = Ok (p, on_dev (set_dst v) w).
Proof. intros Hv. unfold w64. rewrite (write_reg w OFF_DST_BYTES 8 v) by (done || by do 3 right). eauto. Qed.
Lemma w32_submit w : ∃ p, w32 w OFF_CMD CMD_SUBMIT = (let* w' := submit ce w in Ok (p, w')).
Proof.
  unfold w32. rewrite (write_reg w OFF_CMD 4 CMD_SUBMIT) by (done || by right; right; left). by eexists.
Qed.
Lemma w32_reset w : ∃ p, w32 w OFF_CMD CMD_RESET = (let* w' := reset ce w in Ok (p, w')).
Proof.
  unfold w32. rewrite (write_reg w OFF_CMD 4 CMD_RESET) by (done || by right; right; left). by eexists.
Qed.

(** ** The latency model *)

(** A positive bandwidth parameter [m * 2^-f] ticks per byte. *)
Lemma bwLatency_near m f total :
  0 ≤ f ≤ 900 → 0 ≤ total < 2 ^ 53 → total * Z.pos m < 2 ^ (53 + f) →
  ∃ L, bwLatency (S754_finite false m (- f)) total = Ok L ∧ 0 ≤ L ∧
    (L - 1) * 2 ^ f ≤ total * Z.pos m < (L + 1) * 2 ^ f.
Proof.
  intros Hf Ht Hlt. unfold bwLatency. assert (0 < 2 ^ f) by (apply Z.pow_pos_nonneg; lia).
  destruct (Z.ltb_spec 0 total) as [Hpos|Hz]; simpl.
  - destruct (dmul_near (of_u64 total) total m f) as (L & HL & Hb); [by apply of_u64_exact|done..|].
    exists L. split; [done|]. split; [nia|done].
  - exists 0. split; [done|]. split; [done|]. nia.
Qed.

(** ** The whole life of a job *)

(** The register writes of a submission. *)
Definition submit_job (w : World Q M) (src dst : Z) : res (World Q M) :=
  let* (_, w) := w64 w OFF_SRC_BYTES src in
  let* (_, w) := w64 w OFF_DST_BYTES dst in
  let* (_, w) := w32 w OFF_CMD CMD_SUBMIT in
  Ok w.

Lemma submit_job_spec w src dst :
  in_u 64 src → in_u 64 dst → submit_job w src dst = submit ce (on_dev (set_dst dst) (on_dev (set_src src) w)).
Proof.
  intros Hs Hd. unfold submit_job. destruct (w64_src w src Hs) as [p1 ->]. cbn [res_bind].
  destruct (w64_dst (on_dev (set_src src) w) dst Hd) as [p2 ->]. cbn [res_bind].
  destruct (w32_submit (on_dev (set_dst dst) (on_dev (set_src src) w))) as [p3 ->].
  by destruct (submit ce _).
Qed.

(** While the guest writes nothing, a pending job stays as it was submitted
    until it completes, and an idle device stays idle. *)
Lemma pending_until_done w1 w2 t :
  dev_inv ce w1 → em_when (w_q w1) ce = Some t → rtc (dstep ce self k (λ _, False)) w1 w2 →
  dev_inv ce w2 ∧ ((w_dev w2 = w_dev w1 ∧ em_when (w_q w2) ce = Some t) ∨ busy (w_dev w2) = false).
Proof.
  intros Hi Hw Hr. set (d := w_dev w1). assert (Hc : (w_dev w1 = d ∧ em_when (w_q w1) ce = Some t) ∨ busy (w_dev w1) = false) by auto.
  clearbody d. clear Hw. induction Hr as [|w1 w' w2 Hs _ IH]; [auto|].
  apply IH; [by eapply dstep_inv|]. clear IH.
  destruct Hs as [w p p' Hrd|w p p' w' [] Hwr|w q' w' Hn Hcp|w q' dm' m' Hok Hl Hwhen Ht Hdm]; [done| |].
  - right. by destruct (onComplete_dev _ _ _ _ Hcp) as (_ & Hb' & _).
  - simpl in *. rewrite Hwhen. done.
Qed.

(** A submission to an idle device. *)
Lemma submit_runs w src dst m f :
  dev_inv ce w → busy (w_dev w) = false →
  0 ≤ src ≤ MAX_JOB_BYTES → 0 ≤ dst → src + dst < 2 ^ 53 →
  bandwidth (d_params (w_dev w)) = S754_finite false m (- f) → 0 ≤ f ≤ 900 →
  (src + dst) * Z.pos m < 2 ^ (53 + f) → 0 ≤ processLatency (d_params (w_dev w)) →
  em_curTick (w_q w) + 2 ^ 53 + processLatency (d_params (w_dev w)) < 2 ^ 64 →
  ∃ w1 L, submit_job w src dst = Ok w1 ∧ dev_inv ce w1 ∧
    w_dev w1 = set_status STATUS_BUSY true (set_dst dst (set_src src (w_dev w))) ∧
    (L - 1) * 2 ^ f ≤ (src + dst) * Z.pos m < (L + 1) * 2 ^ f ∧
    em_when (w_q w1) ce = Some (em_curTick (w_q w) + L + processLatency (d_params (w_dev w))).
Proof.
  intros Hi Hb Hsrc Hdst Hsum Hbw Hf Hlt Hpl Htick. unfold MAX_JOB_BYTES in Hsrc.
  set (w0 := on_dev (set_dst dst) (on_dev (set_src src) w)).
  assert (Hi0 : dev_inv ce w0) by by destruct Hi.
  assert (Htot : u64 (srcBytesReg (w_dev w0) + dstBytesReg (w_dev w0)) = src + dst) by (simpl; apply u64_id; lia).
  destruct (bwLatency_near m f (src + dst)) as (L & HL & HL0 & HLb); [done|lia|done|].
  pose proof (em_tick_range _ (di_ok _ _ Hi)) as Hr.
  assert (HLlt : L ≤ 2 ^ 53).
  { assert (0 < 2 ^ f) by (apply Z.pow_pos_nonneg; lia). rewrite Z.pow_add_r in Hlt by lia. nia. }
  assert (Hjt : job_time (w_dev w0) (em_curTick (w_q w0)) L = em_curTick (w_q w) + L + processLatency (d_params (w_dev w))).
  { unfold job_time. simpl. rewrite (u64_id (L + _)), u64_id by lia. lia. }
  destruct (submit_cases ce w0 Hi0) as [[Hb' _]|[(_ & Hbig & _)|(_ & _ & Hrun)]].
  { simpl in Hb'. congruence. }
  { simpl in Hbig. unfold MAX_JOB_BYTES in Hbig. lia. }
  destruct (Hrun L) as (q' & Hsub & Hok' & Hlive' & _ & Hwhen').
  { rewrite Htot. simpl. by rewrite Hbw. }
  { rewrite Hjt. simpl. lia. }
  rewrite Hjt in Hwhen'. eexists _, L. split; [rewrite submit_job_spec by lia; exact Hsub|].
  split; [by eapply submit_inv|]. done.
Qed.

(** The completion of a job that nobody disturbed. *)
Lemma completion_runs w1 w2 q3 t B J :
  0 ≤ k < 64 → dev_inv ce w1 → em_when (w_q w1) ce = Some t →
  rtc (dstep ce self k (λ _, False)) w1 w2 → em_next (w_q w2) = Ok (ce, q3) →
  completes self k (mkWorld (w_dev w2) q3 (w_dm w2) (w_mem w2)) B J →
  let total := u64 (srcBytesReg (w_dev w1) + dstBytesReg (w_dev w1)) in
  ∃ w3, onComplete self (2 ^ k) (mkWorld (w_dev w2) q3 (w_dm w2) (w_mem w2)) = Ok w3 ∧
    em_curTick q3 = t ∧ statusReg (w_dev w3) = STATUS_DONE ∧ busy (w_dev w3) = false ∧
    to_u64 (bytesProcessed (w_dev w3)) = Ok (B + total) ∧ to_u64 (jobsCompleted (w_dev w3)) = Ok (J + 1) ∧
    (useDma (d_params (w_dev w1)) = true →
     loaded (fm_byte (w_mem w3)) (dmaAddr (d_params (w_dev w1))) 16 = result_record (B + total) (J + 1)).
Proof.
  intros Hk Hi1 Hwhen Hrtc Hn Hcp total.
  destruct (pending_until_done w1 w2 _ Hi1 Hwhen Hrtc) as [Hi2 Hcase].
  destruct (next_fires _ _ _ (di_ok _ _ Hi2) Hn) as (Hw3 & _).
  destruct Hcase as [[Hdev2 Hw2]|Hb2].
  2: { assert (busy (w_dev w2) = true) by (apply (di_busy _ _ Hi2); eauto). congruence. }
  rewrite Hw2 in Hw3. injection Hw3 as Ht3.
  pose proof (cp_bytes_lt _ _ _ _ _ Hcp) as HBlt. pose proof (cp_jobs_lt _ _ _ _ _ Hcp) as HJlt.
  destruct (onComplete_runs self k _ B J Hk Hcp) as (w3 & Hc3 & HB3 & HJ3 & Hm3 & _).
  destruct (onComplete_dev self k _ _ Hc3) as (Hst3 & Hb3 & _).
  simpl in *. rewrite Hdev2 in *. fold total in HBlt, HB3, Hm3.
  exists w3. split_and!; try done.
  - apply is_int_to_u64; [done|lia].
  - apply is_int_to_u64; [done|lia].
  - intros Hdma. rewrite Hdma in Hm3. change 16 with (Z.of_nat 16).
    rewrite <-(result_record_length (B + total) (J + 1)). by apply (loaded_stored (fm_byte (w_mem w2))).
Qed.
End device.

(** ** The properties *)

(** C1: in every reachable state the device is busy, and its status register
    reads BUSY, exactly while its completion event is pending. *)
Theorem status_tracks_event {Q E} `{EventManagerLaws Q E} {M} `{FuncMemLaws M}
    (ce : E) (self : oid) (k : Z) ps (q : Q) dm (m : M) w data :
  em_ok q → em_live q ce → em_when q ce = None → length data = 4%nat →
  rtc (λ a b, dstep ce self k (λ _, True) a b ∨ asked ce self a b) (mkWorld (new_PNMCompactor ps) q dm m) w →
  (busy (w_dev w) = true ↔ is_Some (em_when (w_q w) ce)) ∧
  ∃ v, read (w_dev w) (request (d_params (w_dev w)) OFF_STATUS data) =
         Ok (mkPacket (u64 (pioAddr (d_params (w_dev w)) + OFF_STATUS)) (le_split 4 v) false false) ∧
    (v = STATUS_BUSY ↔ is_Some (em_when (w_q w) ce)).
Proof.
  intros Hok Hl Hn Hdata Hr.
  assert (Hi : dev_inv ce w).
  { assert (H0' : dev_inv ce (mkWorld (new_PNMCompactor ps) q dm m)).
    { constructor; simpl; try done; [|set_solver]. rewrite Hn. split; [done|by intros []]. }
    revert H0'. induction Hr as [|w1 w2 w3 [Hs|Hs] _ IH]; intros Hi; [done|apply IH; by eapply dstep_inv|].
    apply IH. by eapply asked_inv. }
  split; [apply Hi|]. exists (statusReg (w_dev w)). rewrite read_status by (done || rewrite Hdata; by right; right; left).
  rewrite Hdata. split; [done|]. rewrite <-(di_busy _ _ Hi). pose proof (di_status _ _ Hi) as Hst.
  destruct (busy (w_dev w)); [done|]. unfold STATUS_BUSY, STATUS_DONE, STATUS_ERROR in *.
  split; [intros E0; rewrite E0 in Hst; set_solver|done].
Qed.

(** C2: the life of a job.  Submitting [src] and [dst] bytes to an idle device
    makes it busy and its completion due after the fixed latency plus a
    transfer time less than one tick below and at most one tick above
    [(src + dst) * bandwidth].  If the guest writes no register until the
    completion fires, it fires at exactly that time; then the status reads DONE,
    the counters read one more job and [src + dst] more bytes, and in DMA mode
    the 16-byte record is in guest memory. *)
Theorem job_lifecycle {Q E} `{EventManagerLaws Q E} {M} `{FuncMemLaws M}
    (ce : E) (self : oid) (k : Z) (w : World Q M) src dst m f :
  0 ≤ k < 64 → dev_inv ce w → busy (w_dev w) = false →
  0 ≤ src ≤ MAX_JOB_BYTES → 0 ≤ dst → src + dst < 2 ^ 53 →
  bandwidth (d_params (w_dev w)) = S754_finite false m (- f) → 0 ≤ f ≤ 900 →
  (src + dst) * Z.pos m < 2 ^ (53 + f) → 0 ≤ processLatency (d_params (w_dev w)) →
  em_curTick (w_q w) + 2 ^ 53 + processLatency (d_params (w_dev w)) < 2 ^ 64 →
  ∃ w1 L, submit_job ce w src dst = Ok w1 ∧ statusReg (w_dev w1) = STATUS_BUSY ∧
    (L - 1) * 2 ^ f ≤ (src + dst) * Z.pos m < (L + 1) * 2 ^ f ∧
    em_when (w_q w1) ce = Some (em_curTick (w_q w) + L + processLatency (d_params (w_dev w))) ∧
    ∀ w2 q3 B J, rtc (dstep ce self k (λ _, False)) w1 w2 → em_next (w_q w2) = Ok (ce, q3) →
      completes self k (mkWorld (w_dev w2) q3 (w_dm w2) (w_mem w2)) B J →
      ∃ w3, onComplete self (2 ^ k) (mkWorld (w_dev w2) q3 (w_dm w2) (w_mem w2)) = Ok w3 ∧
        em_curTick q3 = em_curTick (w_q w) + L + processLatency (d_params (w_dev w)) ∧
        statusReg (w_dev w3) = STATUS_DONE ∧ busy (w_dev w3) = false ∧
        to_u64 (bytesProcessed (w_dev w3)) = Ok (B + (src + dst)) ∧
        to_u64 (jobsCompleted (w_dev w3)) = Ok (J + 1) ∧
        (useDma (d_params (w_dev w)) = true →
         loaded (fm_byte (w_mem w3)) (dmaAddr (d_params (w_dev w))) 16 = result_record (B + (src + dst)) (J + 1)).
Proof.
  intros Hk Hi Hb Hsrc Hdst Hsum Hbw Hf Hlt Hpl Htick.
  destruct (submit_runs ce w src dst m f) as (w1 & L & Hsub & Hi1 & Hdev1 & HLb & Hwhen1); try done.
  exists w1, L. split; [done|]. split; [by rewrite Hdev1|]. split; [done|]. split; [done|].
  intros w2 q3 B J Hrtc Hn Hcp. unfold MAX_JOB_BYTES in Hsrc.
  destruct (completion_runs ce self k w1 w2 q3 _ B J Hk Hi1 Hwhen1 Hrtc Hn Hcp)
    as (w3 & Hc3 & Ht3 & Hst3 & Hb3 & HB3 & HJ3 & Hm3).
  rewrite Hdev1 in HB3, Hm3. simpl in HB3, Hm3. rewrite (u64_id (src + dst)) in HB3, Hm3 by lia.
  exists w3. split_and!; done.
Qed.

(** C17: the command register's guards.  A submission to a busy device changes
    nothing; one with more than [MAX_JOB_BYTES] source bytes only sets the
    error status; a reset always succeeds and leaves the device idle, with no
    completion pending and the statistics kept. *)
Theorem command_guards {Q E} `{EventManagerLaws Q E} {M} `{FuncMemLaws M} (ce : E) (w : World Q M) :
  dev_inv ce w →
  (busy (w_dev w) = true → ∃ p, w32 ce w OFF_CMD CMD_SUBMIT = Ok (p, w)) ∧
  (busy (w_dev w) = false → MAX_JOB_BYTES < srcBytesReg (w_dev w) →
   ∃ p, w32 ce w OFF_CMD CMD_SUBMIT = Ok (p, on_dev (set_status STATUS_ERROR false) w)) ∧
  ∃ p w', w32 ce w OFF_CMD CMD_RESET = Ok (p, w') ∧ dev_inv ce w' ∧ em_when (w_q w') ce = None ∧
    w_dev w' = set_status 0 false (w_dev w) ∧ em_curTick (w_q w') = em_curTick (w_q w).
Proof.
  intros Hi. destruct (w32_submit ce w) as [p Hp]. split_and!.
  - intros Hb. destruct (submit_cases ce w Hi) as [[_ Hs]|[(Hb' & _)|(Hb' & _)]]; [|congruence..].
    exists p. by rewrite Hp, Hs.
  - intros Hb Hbig. destruct (submit_cases ce w Hi) as [[Hb' _]|[(_ & _ & Hs)|(_ & Hle & _)]]; [congruence| |lia].
    exists p. by rewrite Hp, Hs.
  - destruct (w32_reset ce w) as [p' Hp']. destruct (reset_spec ce w Hi) as (q' & Hr & Hok & Hl & Hct & Hn).
    eexists p', _. rewrite Hp', Hr. split; [done|]. split; [|done].
    constructor; simpl; try done; [|set_solver]. rewrite Hn. split; [done|by intros []].
Qed.

(** The packets that are not a submission. *)
Definition no_submit (ps : Params) (p : Packet) : Prop :=
  u64 (pkt_addr p - pioAddr ps) = OFF_CMD → ∀ v, pktGet p = Ok v → u32 v ≠ CMD_SUBMIT.

Lemma no_submit_write {Q E} `{EventManagerLaws Q E} {M} `{FuncMemLaws M} (ce : E) (w w' : World Q M) p p' :
  dev_inv ce w → busy (w_dev w) = false → no_submit (d_params (w_dev w)) p → write ce w p = Ok (p', w') →
  busy (w_dev w') = false ∧ w_dm w' = w_dm w ∧ d_params (w_dev w') = d_params (w_dev w).
Proof.
  intros Hi Hb Hns Hw. unfold write in Hw. apply res_bind_ok in Hw as (w1 & H1w & Hw).
  apply res_bind_ok in Hw as (p1 & _ & Hw). simplify_eq.
  destruct (_ =? OFF_SRC_BYTES); [apply res_bind_ok in H1w as (v & _ & Hw); by simplify_eq|].
  destruct (_ =? OFF_DST_BYTES); [apply res_bind_ok in H1w as (v & _ & Hw); by simplify_eq|].
  destruct (Z.eqb_spec (u64 (pkt_addr p - pioAddr (d_params (w_dev w)))) OFF_CMD) as [Eo|Eo]; [|by simplify_eq].
  apply res_bind_ok in H1w as (v & Hv & Hw).
  rewrite (proj2 (Z.eqb_neq _ _) (Hns Eo v Hv)) in Hw. destruct (_ =? CMD_RESET); [|by simplify_eq].
  destruct (reset_spec ce w Hi) as (q' & Hr & _). rewrite Hw in Hr. by simplify_eq.
Qed.

(** A reset while the device drains loses the drain.  A busy device that
    was asked to drain and is then reset is idle with nothing pending, but still
    counted as draining, and stays so for ever unless the guest submits another
    job: [signalDrainDone] is only called on completion. *)
Theorem reset_strands_drain {Q E} `{EventManagerLaws Q E} {M} `{FuncMemLaws M}
    (ce : E) (self : oid) (k : Z) (w w1 w2 w3 : World Q M) p :
  dev_inv ce w → busy (w_dev w) = true → asked ce self w w1 →
  w32 ce w1 OFF_CMD CMD_RESET = Ok (p, w2) →
  rtc (dstep ce self k (no_submit (d_params (w_dev w)))) w2 w3 →
  busy (w_dev w3) = false ∧ em_when (w_q w3) ce = None ∧ dm_obj (w_dm w3) !! self = Some Draining.
Proof.
  intros Hi Hb (s & Hs & ->) Hw Hr.
  assert (s = Draining) as ->.
  { unfold drain in Hs. rewrite em_scheduled_law in Hs by apply Hi. simpl in Hs.
    rewrite bool_decide_true in Hs by (by apply (di_busy _ _ Hi)). congruence. }
  set (w1 := mkWorld _ _ _ _) in Hw. assert (Hi1 : dev_inv ce w1) by (by destruct Hi).
  destruct (w32_reset ce w1) as [p' Hp']. rewrite Hp' in Hw.
  destruct (reset_spec ce w1 Hi1) as (q' & Hrs & Hok & Hl & _ & Hn). rewrite Hrs in Hw. simpl in Hw.
  injection Hw as _ <-.
  assert (Hi2 : dev_inv ce (mkWorld (set_status 0 false (w_dev w)) q' (set_drainState self Draining (w_dm w)) (w_mem w))).
  { constructor; simpl; try done; [|set_solver]. rewrite Hn. split; [done|by intros []]. }
  assert (Hgen : ∀ a b : World Q M, rtc (dstep ce self k (no_submit (d_params (w_dev w)))) a b →
    dev_inv ce a → busy (w_dev a) = false → d_params (w_dev a) = d_params (w_dev w) →
    dm_obj (w_dm a) !! self = Some Draining →
    busy (w_dev b) = false ∧ em_when (w_q b) ce = None ∧ dm_obj (w_dm b) !! self = Some Draining).
  { induction 1 as [a|a a' b Hst _ IH]; intros Hia Hba Hpa Hda.
    - split_and!; try done. apply eq_None_not_Some. rewrite <-(di_busy _ _ Hia). congruence.
    - pose proof (dstep_inv _ _ _ _ _ _ Hia Hst) as Hia'.
      destruct Hst as [a p0 p1 _|a p0 p1 a' Hg Hwr|a q2 a' Hnx Hc|a q2 dm' m' _ _ _ _ Hdm']; [auto| | |].
      + rewrite <-Hpa in Hg. destruct (no_submit_write ce a a' p0 p1 Hia Hba Hg Hwr) as (Hb' & Hd' & Hp0).
        apply IH; [done|done|congruence|by rewrite Hd'].
      + destruct (next_fires _ _ _ (di_ok _ _ Hia) Hnx) as (Hwhen & _).
        assert (busy (w_dev a) = true) by (apply (di_busy _ _ Hia); eauto). congruence.
      + apply IH; try done. simpl. by rewrite Hdm'. }
  eapply (Hgen _ _ Hr); try done. simpl. apply lookup_insert_eq.
Qed.

(** The destination size is not checked.  With a bandwidth of two ticks per
    byte, a submission with [2^63] destination bytes passes the guards and then
    converts a [double] that does not fit in a [Tick]: undefined behaviour. *)
Theorem runaway_dst_undefined {Q E} `{EventManagerLaws Q E} {M} `{FuncMemLaws M} (ce : E) (w : World Q M) :
  busy (w_dev w) = false → bandwidth (d_params (w_dev w)) = of_u64 2 →
  submit_job ce w 0 (2 ^ 63) = Fail Undefined.
Proof.
  intros Hb Hbw. rewrite submit_job_spec by lia. unfold submit. simpl. rewrite Hb, Hbw. done.
Qed.

(** ** A concrete machine: the real event queue, flat memory, one device at tick
    0 with two ticks per byte, draining supervised by a manager of two objects. *)
Section machine.
#[local] Instance serial_manager : EventManagerOps EventQueue eid := queue_manager serial.
#[local] Instance serial_laws : EventManagerLaws EventQueue eid := queue_manager_laws serial.

Definition params0 : Params := mkParams 0xD0000000 0x100 500 (of_u64 2) true 0x80000000.
Definition ce0 : eid := 2%positive.
Definition self0 : oid := 1%positive.
Definition world0 : World EventQueue (Z → byte) :=
  mkWorld (new_PNMCompactor params0) queue0 manager0 (λ _, Byte.x00).

Lemma self0_known : self0 ∈ dm_all manager0.
Proof. set_solver. Qed.
Lemma due_at_queue0 e : due_at queue0 e = None.
Proof.
  unfold due_at. destruct (q_store queue0 !! e) as [ev|] eqn:E; [|done].
  by destruct (store0_fresh e ev E) as [_ ->].
Qed.
Lemma queue0_ok : em_ok queue0.
Proof.
  split; [exists []; apply inv_new, store0_fresh|]. split; [by left|]. split; [done|].
  intros e t Ht. by rewrite due_at_queue0 in Ht.
Qed.
Lemma queue0_live : em_live queue0 ce0.
Proof. exists (ev0 0). by vm_compute. Qed.
Lemma world0_inv : dev_inv ce0 world0.
Proof.
  constructor; [exact queue0_ok|exact queue0_live| |set_solver].
  split; [done|]. change (em_when (w_q world0) ce0) with (due_at queue0 ce0). rewrite due_at_queue0. by intros [].
Qed.

Lemma status_tracks_event_witness :
  ∃ v, read (w_dev world0) (request params0 OFF_STATUS (replicate 4 Byte.x00)) =
    Ok (mkPacket (u64 (0xD0000000 + OFF_STATUS)) (le_split 4 v) false false).
Proof.
  destruct (status_tracks_event ce0 self0 6 params0 queue0 manager0 (λ _ : Z, Byte.x00) world0 (replicate 4 Byte.x00))
    as (_ & v & Hv & _); [exact queue0_ok|exact queue0_live|apply due_at_queue0|done|apply rtc_refl|].
  by exists v.
Defined.

Definition world1 : World EventQueue (Z → byte) :=
  match submit_job ce0 world0 1000 500 with Ok w => w | Fail _ => world0 end.

(** Submitting 1000 and 500 bytes: the completion fires at tick 3500. *)
Lemma job_lifecycle_witness :
  ∃ w1 q3 w3, submit_job ce0 world0 1000 500 = Ok w1 ∧ em_next (w_q w1) = Ok (ce0, q3) ∧
    onComplete self0 (2 ^ 6) (mkWorld (w_dev w1) q3 (w_dm w1) (w_mem w1)) = Ok w3 ∧
    em_curTick q3 = 3500 ∧ to_u64 (bytesProcessed (w_dev w3)) = Ok 1500.
Proof.
  destruct (job_lifecycle ce0 self0 6 world0 1000 500 (2 ^ 52) 51) as (w1 & L & Hw & Hs & _ & _ & Hrest);
    [lia|exact world0_inv|done|unfold MAX_JOB_BYTES; lia|lia|lia|by vm_compute|lia|lia|done|by vm_compute|].
  assert (Hw1 : submit_job ce0 world0 1000 500 = Ok world1) by (unfold world1; by rewrite Hw).
  rewrite Hw1 in Hw. injection Hw as <-.
  assert (Hn : ∃ q3, em_next (w_q world1) = Ok (ce0, q3) ∧ em_curTick q3 = 3500)
    by (eexists; split; vm_compute; reflexivity).
  destruct Hn as (q3 & Hn & Ht).
  destruct (Hrest world1 q3 0 0 (rtc_refl _ _) Hn) as (w3 & Hc & _ & _ & _ & HB & _).
  { constructor; [by vm_compute..|split; by vm_compute|]. split; [exact manager0_wf|].
    exact self0_known. }
  exists world1, q3, w3. exact (conj Hw1 (conj Hn (conj Hc (conj Ht HB)))).
Defined.

Lemma command_guards_witness : ∃ p w', w32 ce0 world0 OFF_CMD CMD_RESET = Ok (p, w').
Proof.
  destruct (command_guards ce0 world0 world0_inv) as (_ & _ & p & w' & Hw & _). by exists p, w'.
Defined.

Lemma world1_inv : dev_inv ce0 world1 ∧ busy (w_dev world1) = true.
Proof.
  destruct (submit_runs ce0 world0 1000 500 (2 ^ 52) 51) as (w1 & L & Hw & Hi & Hd & _);
    [exact world0_inv|done|unfold MAX_JOB_BYTES; lia|lia|lia|by vm_compute|lia|lia|done|by vm_compute|].
  unfold world1. rewrite Hw. split; [done|]. by rewrite Hd.
Qed.

#[local] Opaque world1.

Lemma reset_strands_drain_witness :
  ∃ p w2, w32 ce0 (mkWorld (w_dev world1) (w_q world1) (set_drainState self0 Draining (w_dm world1)) (w_mem world1))
            OFF_CMD CMD_RESET = Ok (p, w2) ∧
    em_when (w_q w2) ce0 = None ∧ dm_obj (w_dm w2) !! self0 = Some Draining.
Proof.
  destruct world1_inv as [Hi Hb].
  set (w1 := mkWorld (w_dev world1) (w_q world1) (set_drainState self0 Draining (w_dm world1)) (w_mem world1)).
  assert (Ha : asked ce0 self0 world1 w1).
  { exists Draining. split; [|done]. unfold drain. rewrite em_scheduled_law by apply Hi. cbn [res_bind].
    rewrite bool_decide_true; [done|]. by apply (di_busy _ _ Hi). }
  destruct (w32_reset ce0 w1) as [p Hp].
  destruct (reset_spec ce0 w1) as (q' & Hr & _); [by apply (asked_inv _ _ _ _ Hi Ha)|].
  rewrite Hr in Hp. cbn [res_bind] in Hp. eexists p, _. split; [exact Hp|].
  destruct (reset_strands_drain ce0 self0 6 world1 w1 _ _ p Hi Hb Ha Hp (rtc_refl _ _)) as (_ & Hn & Hd).
  exact (conj Hn Hd).
Defined.

Lemma runaway_dst_undefined_witness : submit_job ce0 world0 0 (2 ^ 63) = Fail Undefined.
Proof. by apply (runaway_dst_undefined ce0 world0). Defined.
End machine.
