(* ===== verification/Slice.v ===== *)
(** * Slices and their order (rocksdb [include/rocksdb/slice.h])

    A slice is the string it refers to; [memcmp] returns the sign of the first
    difference.  [Slice::compare] is shown to be the lexicographic order. *)
From S2P Require Import Prelude.
Local Open Scope Z_scope.

#[global] Instance byte_eq_dec : EqDecision byte.
Proof. intros x y. destruct (Byte.byte_eq_dec x y); [by left|by right]. Defined.

(** [memcmp(a, b, n)], the slices at least [n] long. *)
Fixpoint memcmp (a b : bytes) (n : nat) : Z :=
  match n, a, b with
  | S n, x :: a, y :: b => if b2z x =? b2z y then memcmp a b n else if b2z x <? b2z y then -1 else 1
  | _, _, _ => 0
  end.

Definition slice_compare (a b : bytes) : Z :=
  let min_len := if (length a <? length b)%nat then length a else length b in
  let r := memcmp a b min_len in
  if r =? 0 then
    if (length a <? length b)%nat then -1 else if (length b <? length a)%nat then 1 else r
  else r.

(** [operator==]. *)
Definition slice_eq (a b : bytes) : bool := (length a =? length b)%nat && (memcmp a b (length a) =? 0).

Definition starts_with (s x : bytes) : bool := (length x <=? length s)%nat && (memcmp s x (length x) =? 0).
Definition ends_with (s x : bytes) : bool :=
  (length x <=? length s)%nat && (memcmp (drop (length s - length x) s) x (length x) =? 0).

(** The loop of [difference_offset], [n] steps left. *)
Fixpoint diff_loop (a b : bytes) (n : nat) : nat :=
  match n, a, b with
  | S n, x :: a, y :: b => if decide (x = y) then S (diff_loop a b n) else 0
  | _, _, _ => 0
  end%nat.
Definition difference_offset (a b : bytes) : nat :=
  diff_loop a b (if (length a <? length b)%nat then length a else length b).

Definition slice_at (s : bytes) (n : nat) : res byte :=
  let* _ := assert_ (n <? length s)%nat in match s !! n with Some b => Ok b | None => Fail BadPointer end.
Definition remove_prefix (s : bytes) (n : nat) : res bytes := let* _ := assert_ (n <=? length s)%nat in Ok (drop n s).
Definition remove_suffix (s : bytes) (n : nat) : res bytes :=
  let* _ := assert_ (n <=? length s)%nat in Ok (take (length s - n) s).

(** ** The order *)
(** Lexicographic comparison, bytes as unsigned numbers. *)
Fixpoint lex (a b : bytes) : Z :=
  match a, b with
  | [], [] => 0
  | [], _ :: _ => -1
  | _ :: _, [] => 1
  | x :: a, y :: b => if b2z x =? b2z y then lex a b else if b2z x <? b2z y then -1 else 1
  end.

Lemma b2z_inj x y : b2z x = b2z y → x = y.
Proof. apply byte.unsigned_inj. Qed.

Lemma slice_compare_lex a b : slice_compare a b = lex a b.
Proof.
  revert b. induction a as [|x a IH]; intros [|y b]; [done..|]. unfold slice_compare. cbn [length lex].
  assert (Hm : (if (S (length a) <? S (length b))%nat then S (length a) else S (length b)) =
               S (if (length a <? length b)%nat then length a else length b)).
  { destruct (Nat.ltb_spec (S (length a)) (S (length b))), (Nat.ltb_spec (length a) (length b)); lia. }
  rewrite Hm. cbn [memcmp]. destruct (Z.eqb_spec (b2z x) (b2z y)) as [E|E].
  - rewrite <-IH. unfold slice_compare. change (S (length a) <? S (length b))%nat with (length a <? length b)%nat.
    by change (S (length b) <? S (length a))%nat with (length b <? length a)%nat.
  - by destruct (b2z x <? b2z y).
Qed.

Lemma lex_refl a : lex a a = 0.
Proof. induction a as [|x a IH]; [done|]. simpl. by rewrite Z.eqb_refl. Qed.
Lemma lex_eq a b : lex a b = 0 ↔ a = b.
Proof.
  split; [|intros ->; apply lex_refl]. revert b. induction a as [|x a IH]; intros [|y b]; try done. simpl.
  destruct (Z.eqb_spec (b2z x) (b2z y)) as [E|E]; [|by destruct (_ <? _)]. intros Hl. f_equal; [by apply b2z_inj|auto].
Qed.
Lemma lex_opp a b : lex b a = - lex a b.
Proof.
  revert b. induction a as [|x a IH]; intros [|y b]; try done. simpl. rewrite (Z.eqb_sym (b2z y)).
  destruct (Z.eqb_spec (b2z x) (b2z y)); [done|]. destruct (Z.ltb_spec (b2z x) (b2z y)), (Z.ltb_spec (b2z y) (b2z x)); lia.
Qed.
Lemma lex_values a b : lex a b = -1 ∨ lex a b = 0 ∨ lex a b = 1.
Proof.
  revert b. induction a as [|x a IH]; intros [|y b]; simpl; auto. destruct (_ =? _); [done|]. destruct (_ <? _); auto.
Qed.
Lemma lex_trans a b c : lex a b < 0 → lex b c < 0 → lex a c < 0.
Proof.
  revert b c. induction a as [|x a IH]; intros [|y b] [|z c]; simpl; try lia.
  destruct (Z.eqb_spec (b2z x) (b2z y)) as [E|E], (Z.eqb_spec (b2z y) (b2z z)) as [E'|E'].
  - rewrite (proj2 (Z.eqb_eq _ _)) by congruence. apply IH.
  - rewrite E, (proj2 (Z.eqb_neq _ _)) by done. done.
  - rewrite <-E', (proj2 (Z.eqb_neq _ _)) by done. done.
  - destruct (Z.ltb_spec (b2z x) (b2z y)), (Z.ltb_spec (b2z y) (b2z z)); try lia. intros _ _.
    rewrite (proj2 (Z.eqb_neq _ _)), (proj2 (Z.ltb_lt _ _)) by lia. lia.
Qed.
Lemma lex_le_trans a b c : lex a b ≤ 0 → lex b c ≤ 0 → lex a c ≤ 0.
Proof.
  intros H1 H2. destruct (Z.eq_dec (lex a b) 0) as [->%lex_eq|]; [done|].
  destruct (Z.eq_dec (lex b c) 0) as [<-%lex_eq|]; [lia|]. pose proof (lex_trans a b c). lia.
Qed.

Lemma lex_app p a b : lex (p ++ a) (p ++ b) = lex a b.
Proof. induction p as [|x p IH]; [done|]. simpl. by rewrite Z.eqb_refl. Qed.
Lemma lex_prefix a b : b ≠ [] → lex a (a ++ b) = -1.
Proof. intros Hb. rewrite <-(app_nil_r a) at 1. rewrite lex_app. by destruct b. Qed.

Lemma memcmp_zero a b n : memcmp a b n = 0 → (n ≤ length a)%nat → (n ≤ length b)%nat → take n a = take n b.
Proof.
  revert a b. induction n as [|n IH]; intros [|x a] [|y b]; simpl; try done; try lia.
  destruct (Z.eqb_spec (b2z x) (b2z y)) as [E%b2z_inj|E]; [|by destruct (_ <? _)]. subst y. intros Hm Ha Hb.
  f_equal. apply IH; [done|lia..].
Qed.
Lemma memcmp_refl a n : memcmp a a n = 0.
Proof. revert a. induction n as [|n IH]; intros [|x a]; simpl; try done. by rewrite Z.eqb_refl. Qed.
Lemma slice_eq_spec a b : slice_eq a b = true ↔ a = b.
Proof.
  unfold slice_eq. rewrite andb_true_iff, Nat.eqb_eq, Z.eqb_eq. split.
  - intros [Hl Hm]. apply memcmp_zero in Hm; [|lia..]. by rewrite !take_ge in Hm by lia.
  - intros ->. split; [done|apply memcmp_refl].
Qed.

(** [difference_offset] is the length of the longest common prefix. *)
Lemma diff_loop_spec a b n :
  n = Nat.min (length a) (length b) →
  ∃ p a' b', a = p ++ a' ∧ b = p ++ b' ∧ diff_loop a b n = length p ∧
    match a', b' with x :: _, y :: _ => x ≠ y | _, _ => True end.
Proof.
  revert b n. induction a as [|x a IH]; intros b n Hn; [exists [], [], b; by destruct n|].
  destruct b as [|y b]; [exists [], (x :: a), []; by destruct n|]. simpl in Hn. subst n. simpl.
  destruct (decide (x = y)) as [->|Hne]; [|by exists [], (x :: a), (y :: b)].
  destruct (IH b _ eq_refl) as (p & a' & b' & -> & -> & -> & Hd). by exists (y :: p), a', b'.
Qed.
Lemma difference_offset_spec a b :
  ∃ p a' b', a = p ++ a' ∧ b = p ++ b' ∧ difference_offset a b = length p ∧
    match a', b' with x :: _, y :: _ => x ≠ y | _, _ => True end.
Proof. apply diff_loop_spec. destruct (Nat.ltb_spec (length a) (length b)); lia. Qed.
