(* ===== verification/Coding.v ===== *)
(** * Integer and string encodings (rocksdb [util/coding.h], [coding_lean.h], [coding.cc])

    Fixed-width little-endian integers, variable-length integers in groups of
    seven bits, and length-prefixed strings.  A writer appends to a string; a
    reader takes the bytes from [p] to [limit] and returns the value and what is
    left ([None]: [nullptr] or [false]). *)
From S2P Require Import Prelude Bitfield Slice.
Local Open Scope Z_scope.

Definition kMaxVarint64Length : nat := 10.

(** ** Fixed width; [kLittleEndian] is the byte order of the host *)
Definition byte_of (v k : Z) : byte := z2b (Z.land (Z.shiftr v k) 0xff).
Definition EncodeFixed16 (kLittleEndian : bool) (v : Z) : bytes :=
  if kLittleEndian then le_split 2 v else [byte_of v 0; byte_of v 8].
Definition EncodeFixed32 (kLittleEndian : bool) (v : Z) : bytes :=
  if kLittleEndian then le_split 4 v else [byte_of v 0; byte_of v 8; byte_of v 16; byte_of v 24].
Definition EncodeFixed64 (kLittleEndian : bool) (v : Z) : bytes :=
  if kLittleEndian then le_split 8 v
  else [byte_of v 0; byte_of v 8; byte_of v 16; byte_of v 24; byte_of v 32; byte_of v 40; byte_of v 48; byte_of v 56].

(** A byte of the buffer; [ptr] has enough bytes. *)
Definition at_ (ptr : bytes) (i : nat) : Z := match ptr !! i with Some b => b2z b | None => 0 end.
Definition DecodeFixed16 (kLittleEndian : bool) (ptr : bytes) : Z :=
  if kLittleEndian then le_combine (take 2 ptr) else Z.lor (at_ ptr 0) (Z.shiftl (at_ ptr 1) 8).
Definition DecodeFixed32 (kLittleEndian : bool) (ptr : bytes) : Z :=
  if kLittleEndian then le_combine (take 4 ptr)
  else Z.lor (Z.lor (Z.lor (at_ ptr 0) (Z.shiftl (at_ ptr 1) 8)) (Z.shiftl (at_ ptr 2) 16)) (Z.shiftl (at_ ptr 3) 24).
Definition DecodeFixed64 (kLittleEndian : bool) (ptr : bytes) : Z :=
  if kLittleEndian then le_combine (take 8 ptr)
  else
    let lo := DecodeFixed32 kLittleEndian ptr in
    let hi := DecodeFixed32 kLittleEndian (drop 4 ptr) in
    Z.lor (Z.shiftl hi 32) lo.

(** On x86 from here on. *)
Definition PutFixed16 (dst : bytes) (v : Z) : bytes := dst ++ EncodeFixed16 true v.
Definition PutFixed32 (dst : bytes) (v : Z) : bytes := dst ++ EncodeFixed32 true v.
Definition PutFixed64 (dst : bytes) (v : Z) : bytes := dst ++ EncodeFixed64 true v.
Definition GetFixed16 (input : bytes) : option (Z * bytes) :=
  if (length input <? 2)%nat then None else Some (DecodeFixed16 true input, drop 2 input).
Definition GetFixed32 (input : bytes) : option (Z * bytes) :=
  if (length input <? 4)%nat then None else Some (DecodeFixed32 true input, drop 4 input).
Definition GetFixed64 (input : bytes) : option (Z * bytes) :=
  if (length input <? 8)%nat then None else Some (DecodeFixed64 true input, drop 8 input).

(** ** Variable length *)
(** The unrolled encoder of 32-bit values. *)
Definition EncodeVarint32 (v : Z) : bytes :=
  let B := 128 in
  if v <? Z.shiftl 1 7 then [z2b v]
  else if v <? Z.shiftl 1 14 then [z2b (Z.lor v B); z2b (Z.shiftr v 7)]
  else if v <? Z.shiftl 1 21 then [z2b (Z.lor v B); z2b (Z.lor (Z.shiftr v 7) B); z2b (Z.shiftr v 14)]
  else if v <? Z.shiftl 1 28 then
    [z2b (Z.lor v B); z2b (Z.lor (Z.shiftr v 7) B); z2b (Z.lor (Z.shiftr v 14) B); z2b (Z.shiftr v 21)]
  else
    [z2b (Z.lor v B); z2b (Z.lor (Z.shiftr v 7) B); z2b (Z.lor (Z.shiftr v 14) B); z2b (Z.lor (Z.shiftr v 21) B);
     z2b (Z.shiftr v 28)].

Fixpoint encode_loop (fuel : nat) (v : Z) : res bytes :=
  match fuel with
  | O => Fail OutOfFuel
  | S fuel =>
      if 128 <=? v then
        let* l := encode_loop fuel (Z.shiftr v 7) in
        Ok (z2b (Z.lor (Z.land v (128 - 1)) 128) :: l)
      else Ok [z2b v]
  end.
(** Ten rounds are enough for 64 bits. *)
Definition EncodeVarint64 (v : Z) : res bytes := encode_loop 10 v.

Fixpoint length_loop (fuel : nat) (v len : Z) : res Z :=
  match fuel with
  | O => Fail OutOfFuel
  | S fuel => if 128 <=? v then length_loop fuel (Z.shiftr v 7) (u16 (len + 1)) else Ok len
  end.
Definition VarintLength (v : Z) : res Z := length_loop 10 v 1.

(** The decoding loop: [w] bits, shifts up to [last]; at most ten rounds. *)
Fixpoint decode_loop (fuel : nat) (w last : Z) (p : bytes) (shift result : Z) : option (Z * bytes) :=
  match fuel, p with
  | S fuel, b :: p =>
      if last <? shift then None
      else
        let byte := b2z b in
        if negb (Z.land byte 128 =? 0) then
          decode_loop fuel w last p (shift + 7) (Z.lor result (wrap w (Z.shiftl (Z.land byte 127) shift)))
        else Some (Z.lor result (wrap w (Z.shiftl byte shift)), p)
  | _, _ => None
  end.
Definition GetVarint32PtrFallback (p : bytes) : option (Z * bytes) := decode_loop 10 32 28 p 0 0.
Definition GetVarint64Ptr (p : bytes) : option (Z * bytes) := decode_loop 10 64 63 p 0 0.
Definition GetVarint32Ptr (p : bytes) : option (Z * bytes) :=
  match p with
  | b :: p' => if Z.land (b2z b) 128 =? 0 then Some (b2z b, p') else GetVarint32PtrFallback p
  | [] => GetVarint32PtrFallback p
  end.
Definition GetVarint32 (input : bytes) : option (Z * bytes) := GetVarint32Ptr input.
Definition GetVarint64 (input : bytes) : option (Z * bytes) := GetVarint64Ptr input.

Definition PutVarint32 (dst : bytes) (args : list Z) : bytes := dst ++ concat (map (λ a, EncodeVarint32 (u32 a)) args).
Definition PutVarint64 (dst : bytes) (v : Z) : res bytes := let* e := EncodeVarint64 v in Ok (dst ++ e).
Definition PutVarint64Varint64 (dst : bytes) (v1 v2 : Z) : res bytes :=
  let* e1 := EncodeVarint64 v1 in let* e2 := EncodeVarint64 v2 in Ok (dst ++ e1 ++ e2).
Definition PutVarint32Varint64 (dst : bytes) (v1 v2 : Z) : res bytes :=
  let* e2 := EncodeVarint64 v2 in Ok (dst ++ EncodeVarint32 v1 ++ e2).
Definition PutVarint32Varint32Varint64 (dst : bytes) (v1 v2 v3 : Z) : res bytes :=
  let* e3 := EncodeVarint64 v3 in Ok (dst ++ EncodeVarint32 v1 ++ EncodeVarint32 v2 ++ e3).

(** Signed values in zigzag form; [l >> 63] is an arithmetic shift. *)
Definition i64ToZigzag (l : Z) : Z := Z.lxor (u64 (Z.shiftl (u64 l) 1)) (u64 (Z.shiftr l 63)).
Definition zigzagToI64 (n : Z) : Z := s64 (Z.lxor (Z.shiftr n 1) (u64 (- Z.land n 1))).
Definition PutVarsignedint64 (dst : bytes) (v : Z) : res bytes :=
  let* e := EncodeVarint64 (i64ToZigzag v) in Ok (dst ++ e).
Definition GetVarsignedint64 (input : bytes) : option (Z * bytes) :=
  match GetVarint64Ptr input with Some (u, q) => Some (zigzagToI64 u, q) | None => None end.

(** ** Strings *)
Definition PutLengthPrefixedSlice (dst value : bytes) : bytes := PutVarint32 dst [Z.of_nat (length value)] ++ value.
Definition PutLengthPrefixedSliceParts (dst : bytes) (total_bytes : Z) (parts : list bytes) : bytes :=
  let total_bytes := fold_left (λ t p, u64 (t + Z.of_nat (length p))) parts total_bytes in
  PutVarint32 dst [total_bytes] ++ concat parts.
Definition PutLengthPrefixedSlicePartsWithPadding (dst : bytes) (parts : list bytes) (pad_sz : nat) : bytes :=
  PutLengthPrefixedSliceParts dst (Z.of_nat pad_sz) parts ++ replicate pad_sz Byte.x00.
Definition GetLengthPrefixedSlice (input : bytes) : option (bytes * bytes) :=
  match GetVarint32 input with
  | Some (len, input) =>
      if len <=? Z.of_nat (length input) then Some (take (Z.to_nat len) input, drop (Z.to_nat len) input) else None
  | None => None
  end.

(** The slice up to the delimiter, and what follows it. *)
Fixpoint until_loop (s : bytes) (delimiter : byte) : nat :=
  match s with [] => 0 | c :: s => if decide (c = delimiter) then 0 else S (until_loop s delimiter) end.
Definition GetSliceUntil (s : bytes) (delimiter : byte) : bytes * bytes :=
  let len := until_loop s delimiter in
  (take len s, drop (len + if (len <? length s)%nat then 1 else 0) s).

(** ** Lemmas *)
Lemma byte_land b : Z.land (b2z b) 128 = if 128 <=? b2z b then 128 else 0.
Proof. by destruct b. Qed.
Lemma byte_low7 b : Z.land (b2z b) 127 = b2z b mod 128.
Proof. by destruct b. Qed.

(** A group of seven bits with the continuation bit. *)
Lemma more_byte v : 0 ≤ v → b2z (z2b (Z.lor (Z.land v 127) 128)) = v mod 128 + 128.
Proof.
  intros Hv. change 127 with (Z.ones 7). rewrite Z.land_ones by lia. change (2 ^ 7) with 128.
  assert (Hm : 0 ≤ v mod 128 < 128) by (apply Z.mod_pos_bound; lia).
  replace (Z.lor (v mod 128) 128) with (v mod 128 + 128).
  - apply b2z_z2b. lia.
  - change 128 with (Z.shiftl 1 7) at 4. rewrite lor_high by (change (2 ^ 7) with 128; lia). done.
Qed.
Lemma z2b_more v : 0 ≤ v → z2b (Z.lor v 128) = z2b (Z.lor (Z.land v 127) 128).
Proof.
  intros Hv. apply byte.unsigned_inj. rewrite !byte.unsigned_of_Z. unfold byte.wrap. apply Z.bits_inj'. intros i Hi.
  change (2 ^ 8) with (2 ^ 8). destruct (decide (i < 8)); [|by rewrite !Z.mod_pow2_bits_high by lia].
  rewrite !Z.mod_pow2_bits_low, !Z.lor_spec, Z.land_spec by lia. change 127 with (Z.ones 7). change 128 with (2 ^ 7).
  destruct (decide (i < 7)); [by rewrite Z.ones_spec_low, andb_true_r by lia|].
  replace i with 7 by lia. by rewrite !Z.pow2_bits_true, !orb_true_r by lia.
Qed.

(** One value of at most [7n] bits takes at most [n] bytes. *)
Lemma encode_loop_total fuel v : (0 < fuel)%nat → 0 ≤ v < 2 ^ (7 * Z.of_nat fuel) →
  ∃ l, encode_loop fuel v = Ok l ∧ (0 < length l ≤ fuel)%nat.
Proof.
  revert v. induction fuel as [|fuel IH]; intros v Hf Hv; [lia|]. simpl. destruct (Z.leb_spec 128 v).
  - assert (Hq : 0 ≤ Z.shiftr v 7 < 2 ^ (7 * Z.of_nat fuel)).
    { rewrite Z.shiftr_div_pow2 by lia. split; [apply Z.div_pos; lia|]. apply Z.div_lt_upper_bound; [lia|].
      rewrite <-Z.pow_add_r by lia. replace (7 + 7 * Z.of_nat fuel) with (7 * Z.of_nat (S fuel)) by lia. lia. }
    destruct fuel as [|fuel]; [change (2 ^ (7 * Z.of_nat 1)) with 128 in Hv; lia|].
    destruct (IH (Z.shiftr v 7)) as (l & -> & Hl); [lia|done|]. eexists. split; [done|]. simpl. lia.
  - eexists. split; [done|]. simpl. lia.
Qed.

(** Decoding what was encoded, from any position of the loop. *)
Lemma decode_encode fuel dfuel w last v l rest shift result :
  encode_loop fuel v = Ok l → (length l ≤ dfuel)%nat → 0 ≤ shift → 0 ≤ v → 0 ≤ result < 2 ^ shift →
  v * 2 ^ shift < 2 ^ w → shift + 7 * (Z.of_nat (length l) - 1) ≤ last → 0 ≤ w →
  decode_loop dfuel w last (l ++ rest) shift result = Some (result + v * 2 ^ shift, rest).
Proof.
  revert dfuel v l shift result. induction fuel as [|fuel IH]; intros dfuel v l shift result; [done|]. simpl.
  intros Henc Hlen Hs Hv Hr Hw Hlast Hw0. assert (Hp : 0 < 2 ^ shift) by (apply Z.pow_pos_nonneg; lia).
  destruct (Z.leb_spec 128 v) as [Hge|Hlt].
  - apply res_bind_ok in Henc as (l' & Henc & [= <-]). destruct dfuel as [|dfuel]; simpl in Hlen; [lia|].
    cbn [app decode_loop]. cbn [length] in Hlast. rewrite (proj2 (Z.ltb_ge _ _)) by lia.
    assert (Hm : 0 ≤ v mod 128 < 128) by (apply Z.mod_pos_bound; lia).
    rewrite byte_land, byte_low7, more_byte by lia. rewrite (proj2 (Z.leb_le _ _)) by lia. cbn [negb Z.eqb].
    replace ((v mod 128 + 128) mod 128) with (v mod 128) by (rewrite <-Z.add_mod_idemp_r, Z.mod_same, Z.add_0_r, Z.mod_mod by lia; lia).
    pose proof (Z.div_mod v 128 ltac:(lia)) as Hd. assert (0 ≤ v / 128) by (apply Z.div_pos; lia).
    assert (Hmp : v mod 128 * 2 ^ shift ≤ v * 2 ^ shift) by (apply Z.mul_le_mono_nonneg_r; lia).
    rewrite (Z.mod_small (Z.shiftl _ _)) by (rewrite Z.shiftl_mul_pow2 by lia; split; [apply Z.mul_nonneg_nonneg; lia|lia]).
    rewrite lor_high by lia. rewrite (IH dfuel (Z.shiftr v 7) l'); try done; try lia;
      rewrite ?Z.shiftr_div_pow2 by lia; change (2 ^ 7) with 128; rewrite ?Z.pow_add_r by lia; change (2 ^ 7) with 128; try nia.
    f_equal. f_equal. nia.
  - injection Henc as <-. destruct dfuel as [|dfuel]; simpl in Hlen; [lia|]. cbn [app decode_loop].
    cbn [length] in Hlast. rewrite (proj2 (Z.ltb_ge _ _)) by lia. rewrite byte_land, b2z_z2b by lia.
    rewrite (proj2 (Z.leb_gt _ _)) by lia. cbn [negb Z.eqb].
    rewrite (Z.mod_small (Z.shiftl _ _)) by (rewrite Z.shiftl_mul_pow2 by lia; split; [apply Z.mul_nonneg_nonneg; lia|lia]).
    by rewrite lor_high by lia.
Qed.

(** The unrolled encoder is the loop. *)
Lemma EncodeVarint32_loop v : in_u 32 v → encode_loop 5 v = Ok (EncodeVarint32 v).
Proof.
  intros Hv. unfold EncodeVarint32.
  change (Z.shiftl 1 7) with (2 ^ 7). change (Z.shiftl 1 14) with (2 ^ 14). change (Z.shiftl 1 21) with (2 ^ 21). change (Z.shiftl 1 28) with (2 ^ 28).
  assert (Hs : ∀ k, 0 ≤ k → 0 ≤ Z.shiftr v k) by (intros k Hk; apply Z.shiftr_nonneg; lia).
  assert (Hge : ∀ k, 0 ≤ k → (128 <=? Z.shiftr v k) = negb (v <? 2 ^ (k + 7))).
  { intros k Hk. rewrite Z.shiftr_div_pow2, Z.pow_add_r by lia. change (2 ^ 7) with 128.
    assert (0 < 2 ^ k) by (apply Z.pow_pos_nonneg; lia).
    destruct (Z.leb_spec 128 (v / 2 ^ k)), (Z.ltb_spec v (2 ^ k * 128)); try done; exfalso.
    - assert (v / 2 ^ k < 128) by (apply Z.div_lt_upper_bound; lia). lia.
    - assert (128 ≤ v / 2 ^ k) by (apply Z.div_le_lower_bound; lia). lia. }
  assert (Hsh : ∀ a b, 0 ≤ a → 0 ≤ b → Z.shiftr (Z.shiftr v a) b = Z.shiftr v (a + b)) by (intros; apply Z.shiftr_shiftr; lia).
  cbn [encode_loop]. change (128 - 1) with 127. pose proof (Hge 0 ltac:(lia)) as Hge0. rewrite Z.shiftr_0_r in Hge0. rewrite Hge0.
  rewrite !Hsh by lia. rewrite !Hge by lia.
  change (7 + 7 + 7 + 7 + 7) with 35. change (7 + 7 + 7 + 7) with 28. change (7 + 7 + 7) with 21. change (7 + 7) with 14. change (0 + 7) with 7.
  rewrite (z2b_more v), !(z2b_more (Z.shiftr v _)) by (try apply Hs; lia).
  destruct (v <? 2 ^ 7); [done|]. destruct (v <? 2 ^ 14); [done|]. destruct (v <? 2 ^ 21); [done|].
  destruct (v <? 2 ^ 28); [done|]. rewrite (proj2 (Z.ltb_lt v (2 ^ 35))) by lia. done.
Qed.

Lemma encode_loop_mono fuel fuel' v l : encode_loop fuel v = Ok l → (fuel ≤ fuel')%nat → encode_loop fuel' v = Ok l.
Proof.
  revert fuel' v l. induction fuel as [|fuel IH]; intros [|fuel'] v l; simpl; try done; [lia|].
  destruct (128 <=? v); [|done]. intros (l' & Hl & [= <-])%res_bind_ok Hle. rewrite (IH fuel' _ l') by (done || lia). done.
Qed.
Lemma length_loop_spec fuel v l len :
  encode_loop fuel v = Ok l → 0 ≤ len → len + Z.of_nat (length l) < 2 ^ 16 →
  length_loop fuel v len = Ok (len + Z.of_nat (length l) - 1).
Proof.
  revert v l len. induction fuel as [|fuel IH]; intros v l len; simpl; [done|]. destruct (128 <=? v).
  - intros (l' & Hl & [= <-])%res_bind_ok H0 Hb. cbn [length] in *. unfold u16. rewrite Z.mod_small by lia.
    rewrite (IH _ l') by (done || lia). f_equal. lia.
  - intros [= <-] _ _. simpl. f_equal. lia.
Qed.

Lemma GetVarint32_encoded v rest : in_u 32 v → GetVarint32 (EncodeVarint32 v ++ rest) = Some (v, rest).
Proof.
  intros Hv. pose proof (EncodeVarint32_loop v Hv) as He. destruct (encode_loop_total 5 v) as (l & Hl & Hlen); [lia|simpl; lia|].
  rewrite He in Hl. injection Hl as <-.
  assert (Hd : GetVarint32PtrFallback (EncodeVarint32 v ++ rest) = Some (v, rest)).
  { unfold GetVarint32PtrFallback. rewrite (decode_encode 5 10 32 28 v (EncodeVarint32 v)) by (done || simpl; lia).
    f_equal. f_equal. lia. }
  unfold GetVarint32, GetVarint32Ptr. destruct (EncodeVarint32 v ++ rest) as [|b p] eqn:E; [done|].
  destruct (Z.eqb_spec (Z.land (b2z b) 128) 0) as [Hb|Hb]; [|done]. rewrite <-Hd. unfold GetVarint32PtrFallback.
  cbn [decode_loop]. change (28 <? 0) with false. rewrite Hb. cbn [Z.eqb negb]. rewrite Z.shiftl_0_r, Z.lor_0_l.
  pose proof (b2z_range b). rewrite Z.mod_small by lia. done.
Qed.

(** Zigzag is a bijection of the signed onto the unsigned values. *)
Lemma lxor_ones x : in_u 64 x → Z.lxor x ones64 = 2 ^ 64 - 1 - x.
Proof.
  intros Hx. replace (2 ^ 64 - 1 - x) with (u64 (Z.lnot x)).
  - apply Z.bits_inj'. intros i Hi. change (Z.lxor x ones64) with (not64 x). rewrite not64_spec by done. unfold u64.
    destruct (Z.ltb_spec i 64); [by rewrite Z.mod_pow2_bits_low, Z.lnot_spec, xorb_true_r by lia|].
    rewrite Z.mod_pow2_bits_high, xorb_false_r by lia. apply (testbit_high _ 64); lia.
  - unfold Z.lnot. rewrite (u64_eq (-1) (Z.pred (- x)) (2 ^ 64 - 1 - x)) by lia. apply u64_id. lia.
Qed.
Lemma zigzag_value l : - 2 ^ 63 ≤ l < 2 ^ 63 → i64ToZigzag l = if l <? 0 then - 2 * l - 1 else 2 * l.
Proof.
  intros Hl. unfold i64ToZigzag. rewrite Z.shiftl_mul_pow2, Z.shiftr_div_pow2 by lia. change (2 ^ 1) with 2.
  destruct (Z.ltb_spec l 0).
  - replace (l / 2 ^ 63) with (-1) by (apply Z.div_unique with (l + 2 ^ 63); lia). change (u64 (-1)) with ones64.
    rewrite (u64_signed l), (proj2 (Z.ltb_lt _ _)) by lia.
    rewrite (u64_eq 1 ((l + 2 ^ 64) * 2) (2 ^ 64 + 2 * l)), u64_id, lxor_ones by lia. lia.
  - rewrite Z.div_small by lia. change (u64 0) with 0. rewrite Z.lxor_0_r, (u64_id l), u64_id by lia. lia.
Qed.
Lemma zigzag_back n : in_u 64 n → zigzagToI64 n = if Z.odd n then - (n / 2) - 1 else n / 2.
Proof.
  intros Hn. unfold zigzagToI64. rewrite Z.shiftr_div_pow2 by lia. change (2 ^ 1) with 2.
  replace (Z.land n 1) with (n mod 2) by (change 1 with (Z.ones 1); by rewrite Z.land_ones by lia).
  assert (0 ≤ n / 2 < 2 ^ 63) by (split; [apply Z.div_pos|apply Z.div_lt_upper_bound]; lia).
  rewrite Zmod_odd. unfold s64. destruct (Z.odd n).
  - change (u64 (-(1))) with ones64. rewrite lxor_ones, u64_id, (proj2 (Z.ltb_ge _ _)) by lia. lia.
  - change (u64 (-(0))) with 0. rewrite Z.lxor_0_r, u64_id, (proj2 (Z.ltb_lt _ _)) by lia. done.
Qed.
Lemma zigzag_roundtrip l : - 2 ^ 63 ≤ l < 2 ^ 63 → in_u 64 (i64ToZigzag l) ∧ zigzagToI64 (i64ToZigzag l) = l.
Proof.
  intros Hl. rewrite zigzag_value by done. destruct (Z.ltb_spec l 0); (split; [lia|]); rewrite zigzag_back by lia.
  - replace (-2 * l - 1) with (2 * (- l - 1) + 1) by lia. rewrite Z.odd_odd.
    replace ((2 * (- l - 1) + 1) / 2) with (- l - 1) by (apply Z.div_unique with 1; lia). lia.
  - rewrite Z.odd_even, (Z.mul_comm 2), Z.div_mul by lia. done.
Qed.

Lemma fixed_roundtrip n v rest : 0 ≤ v < 2 ^ (8 * Z.of_nat n) → le_combine (take n (le_split n v ++ rest)) = v.
Proof. intros Hv. rewrite take_app_exact by (by rewrite length_le_split). apply le_roundtrip. by rewrite Z.mul_comm. Qed.

(** The code for big-endian hosts writes and reads the same bytes. *)
Lemma z2b_land v : z2b (Z.land v 0xff) = z2b v.
Proof.
  apply byte.unsigned_inj. rewrite !byte.unsigned_of_Z. unfold byte.wrap. change 255 with (Z.ones 8).
  rewrite Z.land_ones by lia. by rewrite Z.mod_mod by lia.
Qed.
Lemma encode_portable v :
  EncodeFixed16 false v = EncodeFixed16 true v ∧ EncodeFixed32 false v = EncodeFixed32 true v ∧
  EncodeFixed64 false v = EncodeFixed64 true v.
Proof.
  unfold EncodeFixed16, EncodeFixed32, EncodeFixed64, byte_of. rewrite !z2b_land, Z.shiftr_0_r. unfold le_split.
  rewrite !Z.shiftr_shiftr by lia. done.
Qed.
Lemma decode_portable ptr :
  (8 ≤ length ptr)%nat → DecodeFixed32 false ptr = DecodeFixed32 true ptr ∧ DecodeFixed64 false ptr = DecodeFixed64 true ptr.
Proof.
  intros Hl. do 8 (destruct ptr as [|? ptr]; [simpl in Hl; lia|]). unfold DecodeFixed64, DecodeFixed32, at_.
  cbn [take drop lookup list_lookup]. unfold le_combine. rewrite !Z.shiftl_lor, !Z.shiftl_shiftl, !Z.shiftl_0_l, !Z.lor_0_r by lia.
  split; [by rewrite !Z.lor_assoc|]. rewrite Z.lor_comm. by rewrite !Z.lor_assoc.
Qed.

(** C35: variable-length integers read back.  Every 64-bit value is encoded in at
    most ten bytes, as many as [VarintLength] says, and [GetVarint64] reads it and
    leaves the rest; for a 32-bit value the unrolled encoder writes the same
    bytes and [GetVarint32] reads them; a signed value reads back through its
    zigzag form. *)
Theorem varint_roundtrip v rest :
  in_u 64 v →
  ∃ e, EncodeVarint64 v = Ok e ∧ (0 < length e ≤ kMaxVarint64Length)%nat ∧
    VarintLength v = Ok (Z.of_nat (length e)) ∧ GetVarint64 (e ++ rest) = Some (v, rest) ∧
    (in_u 32 v → e = EncodeVarint32 v ∧ GetVarint32 (e ++ rest) = Some (v, rest)) ∧
    ∃ d, PutVarsignedint64 [] (s64 v) = Ok d ∧ GetVarsignedint64 (d ++ rest) = Some (s64 v, rest).
Proof.
  intros Hv. assert (Hget : ∀ v, in_u 64 v → ∃ e, EncodeVarint64 v = Ok e ∧ (0 < length e ≤ 10)%nat ∧ GetVarint64 (e ++ rest) = Some (v, rest)).
  { clear v Hv. intros v Hv. destruct (encode_loop_total 10 v) as (e & He & Hl); [lia|simpl; lia|]. exists e. do 2 (split; [done|]).
    unfold GetVarint64, GetVarint64Ptr. rewrite (decode_encode 10 10 64 63 v e) by (done || lia). f_equal. f_equal. lia. }
  destruct (Hget v Hv) as (e & He & Hl & Hg). exists e. do 2 (split; [done|]). split; [|split; [done|split]].
  - unfold VarintLength. rewrite (length_loop_spec 10 v e 1) by (done || lia). f_equal. lia.
  - intros H32. pose proof (encode_loop_mono 5 10 v _ (EncodeVarint32_loop v H32) ltac:(lia)) as E.
    unfold EncodeVarint64 in He. rewrite E in He. injection He as <-. split; [done|]. by apply GetVarint32_encoded.
  - destruct (zigzag_roundtrip (s64 v) (s64_range v)) as [Hz Hb]. destruct (Hget _ Hz) as (d & Hd & _ & Hgd).
    exists d. unfold PutVarsignedint64, GetVarsignedint64. rewrite Hd. split; [done|]. unfold GetVarint64 in Hgd. by rewrite Hgd, Hb.
Qed.

(** Length-prefixed strings read back: a string below 4 GiB written by
    [PutLengthPrefixedSlice], or in parts, is read by [GetLengthPrefixedSlice],
    which never returns a string that runs past its input. *)
Theorem slice_roundtrip parts pad rest :
  let value := concat parts ++ replicate pad Byte.x00 in
  Z.of_nat (length value) < 2 ^ 32 →
  GetLengthPrefixedSlice (PutLengthPrefixedSlice [] value ++ rest) = Some (value, rest) ∧
  PutLengthPrefixedSlicePartsWithPadding [] parts pad = PutLengthPrefixedSlice [] value ∧
  ∀ input s r, GetLengthPrefixedSlice input = Some (s, r) → ∃ h, input = h ++ s ++ r.
Proof.
  intros value Hlen. split_and!.
  - unfold GetLengthPrefixedSlice, PutLengthPrefixedSlice, PutVarint32. simpl. rewrite app_nil_r, u32_id, <-app_assoc by lia.
    rewrite GetVarint32_encoded by lia. rewrite Nat2Z.id, take_app_exact, drop_app_exact by done.
    by rewrite (proj2 (Z.leb_le _ _)) by (rewrite length_app; lia).
  - unfold PutLengthPrefixedSlicePartsWithPadding, PutLengthPrefixedSliceParts, PutLengthPrefixedSlice.
    assert (Hf : ∀ t, 0 ≤ t → t + Z.of_nat (length (concat parts)) < 2 ^ 64 →
      fold_left (λ t p, u64 (t + Z.of_nat (length p))) parts t = t + Z.of_nat (length (concat parts))).
    { clear. induction parts as [|p ps IH]; intros t Ht Hb; simpl in *; [lia|]. rewrite length_app in *.
      rewrite u64_id, IH by lia. lia. }
    subst value. rewrite length_app, length_replicate in *. rewrite Hf by lia. rewrite app_assoc. do 4 f_equal. lia.
  - intros input s r. unfold GetLengthPrefixedSlice, GetVarint32. destruct (GetVarint32Ptr input) as [[len q]|] eqn:E; [|done].
    destruct (_ <=? _); [|done]. intros [= <- <-]. rewrite take_drop.
    assert (Hd : ∀ fuel p sh res v q, decode_loop fuel 32 28 p sh res = Some (v, q) → ∃ h, p = h ++ q).
    { clear. intros fuel. induction fuel as [|fuel IH]; intros [|b p] sh rs v q; simpl; try done.
      destruct (28 <? sh); [done|]. destruct (negb _); [|intros [= <- <-]; by exists [b]].
      intros (h & ->)%IH. by exists (b :: h). }
    unfold GetVarint32Ptr in E. destruct input as [|b p]; [by apply Hd in E|].
    destruct (_ =? 0); [injection E as <- <-; by exists [b]|by apply Hd in E].
Qed.

Lemma varint_roundtrip_witness : EncodeVarint64 300 = Ok [Byte.xac; Byte.x02] ∧ GetVarint64 [Byte.xac; Byte.x02; Byte.xff] = Some (300, [Byte.xff]).
Proof.
  destruct (varint_roundtrip 300 [Byte.xff] ltac:(lia)) as (e & He & _ & _ & Hg & _).
  assert (e = [Byte.xac; Byte.x02]) as -> by (vm_compute in He; congruence). exact (conj He Hg).
Defined.
Lemma slice_roundtrip_witness :
  GetLengthPrefixedSlice (PutLengthPrefixedSlice [] [Byte.x61; Byte.x62; Byte.x00] ++ [Byte.xff]) = Some ([Byte.x61; Byte.x62; Byte.x00], [Byte.xff]).
Proof. exact (proj1 (slice_roundtrip [[Byte.x61]; [Byte.x62]] 1 [Byte.xff] ltac:(vm_compute; done))). Defined.
