(* ===== verification/Comparator.v ===== *)
(** * Key comparators (rocksdb [util/comparator.cc])

    The interface that the rest of RocksDB uses a comparator through, with its
    laws, and the byte-wise, the reverse byte-wise and the timestamped
    comparator as its instances. *)
From S2P Require Import Prelude Slice Coding.
Local Open Scope Z_scope.

(** [include/rocksdb/comparator.h]: the sign of [Compare] is what counts. *)
Class Comparator := {
  Compare : bytes → bytes → Z;
  Equal : bytes → bytes → bool;
  FindShortestSeparator : bytes → bytes → res bytes;
  FindShortSuccessor : bytes → bytes;
  IsSameLengthImmediateSuccessor : bytes → bytes → res bool }.

(** A total order, separators inside the interval, successors not below. *)
Class ComparatorLaws (C : Comparator) := {
  Compare_eq a : Compare a a = 0;
  Compare_opp a b : Z.sgn (Compare b a) = - Z.sgn (Compare a b);
  Compare_trans a b c : Compare a b ≤ 0 → Compare b c ≤ 0 → Compare a c ≤ 0;
  Equal_Compare a b : Equal a b = true ↔ Compare a b = 0;
  separator_law a b : Compare a b < 0 → ∃ s, FindShortestSeparator a b = Ok s ∧ Compare a s ≤ 0 ∧ Compare s b < 0;
  separator_total a b : is_ok (FindShortestSeparator a b) = true;
  successor_law a : Compare a (FindShortSuccessor a) ≤ 0 }.

(** ** Byte-wise *)
(** The first byte of [suf] that can be incremented is, and ends the string. *)
Fixpoint increment_first (pre suf : bytes) : bytes :=
  match suf with
  | [] => pre
  | b :: suf => if b2z b <? 0xff then pre ++ [z2b (b2z b + 1)] else increment_first (pre ++ [b]) suf
  end.

Definition bytewise_separator (start limit : bytes) : res bytes :=
  let min_length := Nat.min (length start) (length limit) in
  let diff_index := diff_loop start limit min_length in
  if (min_length <=? diff_index)%nat then Ok start
  else
    let* start_byte := slice_at start diff_index in
    let* limit_byte := slice_at limit diff_index in
    if b2z limit_byte <=? b2z start_byte then Ok start
    else
      let* _ := assert_ (b2z start_byte <? b2z limit_byte) in
      let s :=
        if (diff_index <? length limit - 1)%nat || (b2z start_byte + 1 <? b2z limit_byte)
        then take diff_index start ++ [z2b (b2z start_byte + 1)]
        else increment_first (take (S diff_index) start) (drop (S diff_index) start) in
      let* _ := assert_ (slice_compare s limit <? 0) in
      Ok s.

Definition bytewise_successor (key : bytes) : bytes := increment_first [] key.

(** The remaining bytes are [0xff] in [s] and [0x00] in [t]. *)
Fixpoint carry_tail (s t : bytes) : bool :=
  match s, t with
  | x :: s, y :: t => if negb (b2z x =? 0xff) || negb (b2z y =? 0) then false else carry_tail s t
  | _, _ => true
  end.
Definition bytewise_immediate_successor (s t : bytes) : res bool :=
  if negb (length s =? length t)%nat || (length s =? 0)%nat then Ok false
  else
    let diff_ind := difference_offset s t in
    if (length s <=? diff_ind)%nat then Ok false
    else
      let* byte_s := slice_at s diff_ind in
      let* byte_t := slice_at t diff_ind in
      if negb (b2z byte_s =? 0xff) && (b2z byte_s + 1 =? b2z byte_t)
      then Ok (carry_tail (drop (S diff_ind) s) (drop (S diff_ind) t))
      else Ok false.

#[export] Instance BytewiseComparator : Comparator := {|
  Compare := slice_compare;
  Equal := slice_eq;
  FindShortestSeparator := bytewise_separator;
  FindShortSuccessor := bytewise_successor;
  IsSameLengthImmediateSuccessor := bytewise_immediate_successor |}.

(** ** Reverse byte-wise *)
Definition reverse_separator (start limit : bytes) : res bytes :=
  let min_length := Nat.min (length start) (length limit) in
  let diff_index := diff_loop start limit min_length in
  let* _ := assert_ (diff_index <=? min_length)%nat in
  if (diff_index =? min_length)%nat then Ok start
  else
    let* start_byte := slice_at start diff_index in
    let* limit_byte := slice_at limit diff_index in
    if (b2z limit_byte <? b2z start_byte) && (diff_index <? length start - 1)%nat then
      let s := take (S diff_index) start in
      let* _ := assert_ (0 <=? slice_compare start s) in
      let* _ := assert_ (0 <? slice_compare s limit) in
      Ok s
    else Ok start.

Definition ReverseBytewiseComparator : Comparator := {|
  Compare a b := - slice_compare a b;
  Equal := slice_eq;
  FindShortestSeparator := reverse_separator;
  FindShortSuccessor key := key;
  IsSameLengthImmediateSuccessor s t := Ok false |}.

(** ** With a 64-bit timestamp at the end of the key *)
Definition StripTimestampFromUserKey (user_key : bytes) (ts_sz : nat) : res bytes :=
  let* _ := assert_ (ts_sz <=? length user_key)%nat in Ok (take (length user_key - ts_sz) user_key).
Definition ExtractTimestampFromUserKey (user_key : bytes) (ts_sz : nat) : res bytes :=
  let* _ := assert_ (ts_sz <=? length user_key)%nat in Ok (take ts_sz (drop (length user_key - ts_sz) user_key)).

Definition CompareTimestamp (ts1 ts2 : bytes) : res Z :=
  let* _ := assert_ (length ts1 =? 8)%nat in
  let* _ := assert_ (length ts2 =? 8)%nat in
  let lhs := DecodeFixed64 true ts1 in
  let rhs := DecodeFixed64 true ts2 in
  Ok (if lhs <? rhs then -1 else if rhs <? lhs then 1 else 0).
Definition CompareWithoutTimestamp (root : Comparator) (a : bytes) (a_has_ts : bool) (b : bytes) (b_has_ts : bool) : res Z :=
  let ts_sz := 8%nat in
  let* _ := assert_ (negb a_has_ts || (ts_sz <=? length a)%nat) in
  let* _ := assert_ (negb b_has_ts || (ts_sz <=? length b)%nat) in
  let* lhs := if a_has_ts then StripTimestampFromUserKey a ts_sz else Ok a in
  let* rhs := if b_has_ts then StripTimestampFromUserKey b ts_sz else Ok b in
  Ok (Compare (Comparator := root) lhs rhs).
Definition CompareU64Ts (root : Comparator) (a b : bytes) : res Z :=
  let* ret := CompareWithoutTimestamp root a true b true in
  if negb (ret =? 0) then Ok ret
  else
    let* ta := ExtractTimestampFromUserKey a 8 in
    let* tb := ExtractTimestampFromUserKey b 8 in
    let* c := CompareTimestamp ta tb in
    Ok (- c).

Definition DecodeU64Ts (ts : bytes) : option Z := if negb (length ts =? 8)%nat then None else Some (DecodeFixed64 true ts).
Definition EncodeU64Ts (ts : Z) : bytes := EncodeFixed64 true ts.
Definition MaxU64Ts : bytes := replicate 8 Byte.xff.
Definition MinU64Ts : bytes := replicate 8 Byte.x00.

(** ** Lemmas *)
Lemma lex_first p x y a b : b2z x < b2z y → lex (p ++ x :: a) (p ++ y :: b) = -1.
Proof. intros Hlt. rewrite lex_app. simpl. by rewrite (proj2 (Z.eqb_neq _ _)), (proj2 (Z.ltb_lt _ _)) by lia. Qed.

Lemma increment_first_app pre suf : increment_first pre suf = pre ++ increment_first [] suf.
Proof.
  revert pre. induction suf as [|b suf IH]; intros pre; simpl; [by rewrite app_nil_r|].
  destruct (b2z b <? 255); [done|]. rewrite IH, (IH [b]), <-app_assoc. done.
Qed.
Lemma increment_first_le a : lex a (increment_first [] a) ≤ 0.
Proof.
  induction a as [|b a IH]; [done|]. cbn [increment_first app]. destruct (Z.ltb_spec (b2z b) 255).
  - pose proof (b2z_range b). pose proof (lex_first [] b (z2b (b2z b + 1)) a []) as Hl.
    rewrite b2z_z2b in Hl by lia. cbn [app] in *. rewrite Hl by lia. lia.
  - rewrite increment_first_app. change (b :: a) with ([b] ++ a). by rewrite lex_app.
Qed.

Lemma increment_first_length a : (length (increment_first [] a) ≤ length a)%nat.
Proof.
  induction a as [|c a IH]; [done|]. cbn [increment_first app]. destruct (b2z c <? 255); [simpl; lia|].
  rewrite increment_first_app. simpl. lia.
Qed.

Lemma take_S_app {A} p (x : A) a : take (S (length p)) (p ++ x :: a) = p ++ [x].
Proof. change (x :: a) with ([x] ++ a). rewrite app_assoc. apply take_app_exact. rewrite length_app. simpl. lia. Qed.
Lemma drop_S_app {A} p (x : A) a : drop (S (length p)) (p ++ x :: a) = a.
Proof. change (x :: a) with ([x] ++ a). rewrite app_assoc. apply drop_app_exact. rewrite length_app. simpl. lia. Qed.

Lemma slice_at_app p (x : byte) a : slice_at (p ++ x :: a) (length p) = Ok x.
Proof.
  unfold slice_at. rewrite (proj2 (Nat.ltb_lt _ _)) by (rewrite length_app; simpl; lia). cbn [assert_ res_bind].
  by rewrite lookup_app_r, Nat.sub_diag by lia.
Qed.

(** A common prefix, and at the first difference what the separators look at. *)
Lemma split_keys start limit :
  let n := Nat.min (length start) (length limit) in
  ∃ p a b, start = p ++ a ∧ limit = p ++ b ∧ diff_loop start limit n = length p ∧
    ((a = [] ∨ b = []) ∧ n = length p ∨ ∃ x y a' b', a = x :: a' ∧ b = y :: b' ∧ x ≠ y ∧ (length p < n)%nat).
Proof.
  intros n. destruct (diff_loop_spec start limit n eq_refl) as (p & a & b & -> & -> & Hd & Hab).
  exists p, a, b. do 3 (split; [done|]). subst n. rewrite !length_app.
  destruct a as [|x a]; [left; split; [auto|simpl; lia]|]. destruct b as [|y b]; [left; split; [auto|simpl; lia]|].
  right. exists x, y, a, b. split_and!; try done. simpl. lia.
Qed.

Lemma bytewise_separator_spec start limit :
  ∃ s, bytewise_separator start limit = Ok s ∧ lex start s ≤ 0 ∧ (lex start limit < 0 → lex s limit < 0) ∧
    (length s ≤ length start)%nat.
Proof.
  unfold bytewise_separator. destruct (split_keys start limit) as (p & a & b & -> & -> & -> & Hcase).
  destruct Hcase as [[_ Hn]|(x & y & a' & b' & -> & -> & Hxy & Hn)].
  { rewrite (proj2 (Nat.leb_le _ _)) by lia. eexists. split; [done|]. rewrite lex_refl. done. }
  rewrite (proj2 (Nat.leb_gt _ _)) by done. rewrite !slice_at_app. cbn [res_bind].
  destruct (Z.leb_spec (b2z y) (b2z x)) as [|Hlt]; [eexists; split; [done|]; rewrite lex_refl; done|].
  rewrite (proj2 (Z.ltb_lt _ _)) by done. cbn [assert_ res_bind]. pose proof (b2z_range x). pose proof (b2z_range y).
  assert (Hb : b2z (z2b (b2z x + 1)) = b2z x + 1) by (apply b2z_z2b; lia).
  destruct ((length p <? length (p ++ y :: b') - 1)%nat || (b2z x + 1 <? b2z y)) eqn:Hc.
  - rewrite take_app_exact by done. assert (Hl : lex (p ++ [z2b (b2z x + 1)]) (p ++ y :: b') < 0).
    { rewrite lex_app. simpl. rewrite Hb. destruct (Z.eqb_spec (b2z x + 1) (b2z y)); [|rewrite (proj2 (Z.ltb_lt _ _)) by lia; lia].
      apply orb_true_iff in Hc as [Hc|?%Z.ltb_lt]; [|lia]. apply Nat.ltb_lt in Hc. rewrite length_app in Hc. simpl in Hc.
      destruct b'; simpl in *; lia. }
    rewrite slice_compare_lex, (proj2 (Z.ltb_lt _ _)) by done. eexists. split; [done|]. split; [|split; [done|]].
    + rewrite (lex_first p x) by lia. lia.
    + rewrite !length_app. simpl. lia.
  - rewrite take_S_app, drop_S_app, increment_first_app, <-app_assoc. simpl app.
    rewrite slice_compare_lex, (lex_first p x y) by done. cbn [Z.ltb Z.compare assert_ res_bind]. eexists. split; [done|].
    rewrite (lex_first p x y) by done. rewrite lex_app. simpl. rewrite Z.eqb_refl. split; [apply increment_first_le|].
    split; [rewrite (lex_first p x y) by done; lia|]. rewrite !length_app. simpl. pose proof (increment_first_length a'). lia.
Qed.

Lemma reverse_separator_spec start limit :
  ∃ s, reverse_separator start limit = Ok s ∧ lex s start ≤ 0 ∧ (lex limit start < 0 → lex limit s < 0).
Proof.
  unfold reverse_separator. destruct (split_keys start limit) as (p & a & b & -> & -> & -> & Hcase).
  destruct Hcase as [[_ Hn]|(x & y & a' & b' & -> & -> & Hxy & Hn)].
  { rewrite (proj2 (Nat.leb_le _ _)), (proj2 (Nat.eqb_eq _ _)) by lia. eexists. split; [done|]. rewrite lex_refl. done. }
  rewrite (proj2 (Nat.leb_le _ _)), (proj2 (Nat.eqb_neq _ _)) by lia. cbn [assert_ res_bind]. rewrite !slice_at_app. cbn [res_bind].
  destruct ((b2z y <? b2z x) && (length p <? length (p ++ x :: a') - 1)%nat) eqn:Hc; [|eexists; split; [done|]; rewrite lex_refl; done].
  apply andb_true_iff in Hc as [Hc%Z.ltb_lt Hl%Nat.ltb_lt].
  rewrite take_S_app.
  assert (Hs : lex (p ++ [x]) (p ++ x :: a') = -1).
  { rewrite lex_app. simpl. rewrite Z.eqb_refl. rewrite length_app in Hl. destruct a'; simpl in *; [lia|done]. }
  assert (Hs2 : lex (p ++ y :: b') (p ++ [x]) = -1) by by apply lex_first.
  rewrite !slice_compare_lex, (lex_opp (p ++ [x]) (p ++ x :: a')), Hs, (lex_opp (p ++ y :: b')), Hs2.
  cbn [Z.opp Z.leb Z.ltb Z.compare assert_ res_bind]. eexists. split; [done|]. rewrite Hs, Hs2. lia.
Qed.

#[export] Instance bytewise_laws : ComparatorLaws BytewiseComparator.
Proof.
  split; cbn.
  - intros a. rewrite slice_compare_lex. apply lex_refl.
  - intros a b. rewrite !slice_compare_lex, (lex_opp a b). by rewrite Z.sgn_opp.
  - intros a b c. rewrite !slice_compare_lex. apply lex_le_trans.
  - intros a b. by rewrite slice_eq_spec, slice_compare_lex, lex_eq.
  - intros a b Hab. rewrite slice_compare_lex in Hab. destruct (bytewise_separator_spec a b) as (s & Hs & H1 & H2 & _).
    exists s. rewrite !slice_compare_lex. auto.
  - intros a b. by destruct (bytewise_separator_spec a b) as (s & -> & _).
  - intros a. rewrite slice_compare_lex. apply increment_first_le.
Qed.
#[export] Instance reverse_laws : ComparatorLaws ReverseBytewiseComparator.
Proof.
  split; cbn.
  - intros a. by rewrite slice_compare_lex, lex_refl.
  - intros a b. rewrite !slice_compare_lex, (lex_opp a b). by rewrite !Z.sgn_opp.
  - intros a b c. rewrite !slice_compare_lex. pose proof (lex_le_trans c b a) as Ht.
    rewrite (lex_opp a b), (lex_opp b c), (lex_opp a c) in Ht. lia.
  - intros a b. rewrite slice_eq_spec, slice_compare_lex, <-lex_eq. lia.
  - intros a b Hab. rewrite slice_compare_lex in Hab. destruct (reverse_separator_spec a b) as (s & Hs & H1 & H2).
    exists s. rewrite !slice_compare_lex. pose proof (lex_opp a b). pose proof (lex_opp s a). pose proof (lex_opp s b).
    split; [done|]. lia.
  - intros a b. by destruct (reverse_separator_spec a b) as (s & -> & _).
  - intros a. by rewrite slice_compare_lex, lex_refl.
Qed.

(** ** Immediate successors: byte strings as big-endian numbers *)
Fixpoint big_endian (s : bytes) : Z :=
  match s with [] => 0 | x :: s => b2z x * 256 ^ Z.of_nat (length s) + big_endian s end.

Lemma big_endian_range s : 0 ≤ big_endian s < 256 ^ Z.of_nat (length s).
Proof.
  induction s as [|x s IH]; [done|]. simpl. pose proof (b2z_range x).
  replace (Z.of_nat (S (length s))) with (Z.succ (Z.of_nat (length s))) by lia. rewrite Z.pow_succ_r by lia. nia.
Qed.
Lemma big_endian_app p a b : length a = length b → big_endian (p ++ b) - big_endian (p ++ a) = big_endian b - big_endian a.
Proof. intros Hl. induction p as [|x p IH]; [done|]. simpl. rewrite !length_app, Hl. lia. Qed.

Lemma carry_tail_spec s t :
  length s = length t → carry_tail s t = true ↔ big_endian t - big_endian s = 1 - 256 ^ Z.of_nat (length s).
Proof.
  revert t. induction s as [|x s IH]; intros [|y t]; try done. intros [= Hl]. simpl.
  pose proof (b2z_range x). pose proof (b2z_range y). pose proof (big_endian_range s). pose proof (big_endian_range t).
  replace (Z.of_nat (S (length s))) with (Z.succ (Z.of_nat (length s))) by lia. rewrite Z.pow_succ_r by lia.
  rewrite <-Hl in *. destruct (Z.eqb_spec (b2z x) 255), (Z.eqb_spec (b2z y) 0); simpl;
    [rewrite (IH t Hl); nia|split; [done|nia]..].
Qed.

Lemma immediate_successor_spec s t :
  ∃ b, bytewise_immediate_successor s t = Ok b ∧
    (b = true ↔ length s = length t ∧ big_endian t = big_endian s + 1).
Proof.
  unfold bytewise_immediate_successor. destruct (Nat.eqb_spec (length s) (length t)) as [Hl|Hl]; simpl; [|by exists false; naive_solver].
  destruct (Nat.eqb_spec (length s) 0) as [H0|H0].
  { exists false. split; [done|]. destruct s, t; simpl in *; lia. }
  destruct (difference_offset_spec s t) as (p & a & b & -> & -> & -> & Hd). rewrite !length_app in Hl.
  assert (Hab : length a = length b) by lia. pose proof (big_endian_app p a b Hab) as Hbe. rewrite !length_app in *.
  destruct a as [|x a], b as [|y b]; try done.
  { rewrite (proj2 (Nat.leb_le _ _)) by (simpl; lia). exists false. split; [done|]. simpl in Hbe. split; [done|lia]. }
  rewrite (proj2 (Nat.leb_gt _ _)) by (simpl; lia). rewrite !slice_at_app, !drop_S_app. cbn [res_bind].
  injection Hab as Hab. simpl in Hbe. rewrite <-Hab in Hbe.
  pose proof (b2z_range x). pose proof (b2z_range y). pose proof (big_endian_range a). pose proof (big_endian_range b).
  rewrite <-Hab in *. assert (b2z x ≠ b2z y) by (intros ?%b2z_inj; done).
  destruct (Z.eqb_spec (b2z x) 255); simpl; [exists false; split; [done|]; split; [done|nia]|].
  destruct (Z.eqb_spec (b2z x + 1) (b2z y)) as [Hy|Hy]; [|exists false; split; [done|]; split; [done|nia]].
  eexists. split; [done|]. rewrite (carry_tail_spec a b Hab). nia.
Qed.

(** ** The timestamped order: the root order, newer timestamps first *)
Lemma strip_timestamp k t n : length t = n → StripTimestampFromUserKey (k ++ t) n = Ok k ∧ ExtractTimestampFromUserKey (k ++ t) n = Ok t.
Proof.
  intros Hl. unfold StripTimestampFromUserKey, ExtractTimestampFromUserKey.
  rewrite length_app, (proj2 (Nat.leb_le _ _)), Hl, Nat.add_sub by lia. cbn [assert_ res_bind].
  rewrite take_app_exact, drop_app_exact, take_ge by lia. done.
Qed.
Lemma CompareU64Ts_spec root k1 t1 k2 t2 :
  length t1 = 8%nat → length t2 = 8%nat →
  CompareU64Ts root (k1 ++ t1) (k2 ++ t2) =
    Ok (let r := Compare (Comparator := root) k1 k2 in
        if r =? 0 then - Z.sgn (DecodeFixed64 true t1 - DecodeFixed64 true t2) else r).
Proof.
  intros H1 H2. unfold CompareU64Ts, CompareWithoutTimestamp. destruct (strip_timestamp k1 t1 8 H1) as [-> ->].
  destruct (strip_timestamp k2 t2 8 H2) as [-> ->]. rewrite !length_app, !(proj2 (Nat.leb_le _ _)) by lia. cbn [orb negb assert_ res_bind].
  destruct (Z.eqb_spec (Compare k1 k2) 0) as [->|]; cbn [negb]; [|done]. unfold CompareTimestamp. rewrite H1, H2. cbn [Nat.eqb assert_ res_bind].
  f_equal. destruct (Z.ltb_spec (DecodeFixed64 true t1) (DecodeFixed64 true t2)); [rewrite Z.sgn_neg by lia; lia|].
  destruct (Z.ltb_spec (DecodeFixed64 true t2) (DecodeFixed64 true t1)); [rewrite Z.sgn_pos by lia; lia|].
  replace (DecodeFixed64 true t1 - DecodeFixed64 true t2) with 0 by lia. done.
Qed.

(** The built-in comparators keep the contract of the interface.  Both the
    byte-wise and the reverse comparator are total orders whose separators lie
    in [start, limit) and whose short successors are not below the key; the
    byte-wise separator never trips an assertion and is never longer than
    [start]; and [IsSameLengthImmediateSuccessor] answers exactly whether, read as
    big-endian numbers of the same length, [t] is [s] plus one. *)
Theorem comparators_lawful :
  ComparatorLaws BytewiseComparator ∧ ComparatorLaws ReverseBytewiseComparator ∧
  (∀ start limit, ∃ s, FindShortestSeparator (Comparator := BytewiseComparator) start limit = Ok s ∧ (length s ≤ length start)%nat) ∧
  ∀ s t, ∃ b, IsSameLengthImmediateSuccessor (Comparator := BytewiseComparator) s t = Ok b ∧
    (b = true ↔ length s = length t ∧ big_endian t = big_endian s + 1).
Proof.
  split; [apply _|]. split; [apply _|]. split; [|apply immediate_successor_spec].
  intros start limit. destruct (bytewise_separator_spec start limit) as (s & Hs & _ & _ & Hl). by exists s.
Qed.
