(* ===== verification/DbFormat.v ===== *)
(** * Internal keys (rocksdb [db/dbformat.h], [dbformat.cc], [lookup_key.h])

    A user key followed by eight bytes that pack a sequence number and a value
    type.  Keys are ordered by user key, then by decreasing sequence number, then
    by decreasing type.  [SequenceNumber] and [ValueType] are the numbers the code
    stores, since a type read from a file can be any byte. *)
From S2P Require Import Prelude Bitfield Slice Coding Comparator.
Local Open Scope Z_scope.

(** ** Value types *)
Definition kTypeDeletion : Z := 0x0.
Definition kTypeValue : Z := 0x1.
Definition kTypeMerge : Z := 0x2.
Definition kTypeSingleDeletion : Z := 0x7.
Definition kTypeRangeDeletion : Z := 0xF.
Definition kTypeBlobIndex : Z := 0x11.
Definition kTypeDeletionWithTimestamp : Z := 0x14.
Definition kTypeWideColumnEntity : Z := 0x16.
Definition kTypeValuePreferredSeqno : Z := 0x18.
Definition kTypeMaxValid : Z := 0x1A.
Definition kMaxValue : Z := 0x7F.

Definition IsValueType (t : Z) : bool :=
  (t <=? kTypeMerge) || (kTypeSingleDeletion =? t) || (kTypeBlobIndex =? t) || (kTypeDeletionWithTimestamp =? t) ||
  (kTypeWideColumnEntity =? t) || (kTypeValuePreferredSeqno =? t).
Definition IsExtendedValueType (t : Z) : bool := IsValueType t || (t =? kTypeRangeDeletion) || (t =? kTypeMaxValid).

Definition kValueTypeForSeek : Z := kTypeValuePreferredSeqno.
Definition kValueTypeForSeekForPrev : Z := kTypeDeletion.

Inductive EntryType :=
  | kEntryPut | kEntryDelete | kEntrySingleDelete | kEntryMerge | kEntryRangeDeletion | kEntryBlobIndex
  | kEntryDeleteWithTimestamp | kEntryWideColumnEntity | kEntryTimedPut | kEntryOther.
Definition GetEntryType (value_type : Z) : EntryType :=
  if value_type =? kTypeValue then kEntryPut
  else if value_type =? kTypeDeletion then kEntryDelete
  else if value_type =? kTypeDeletionWithTimestamp then kEntryDeleteWithTimestamp
  else if value_type =? kTypeSingleDeletion then kEntrySingleDelete
  else if value_type =? kTypeMerge then kEntryMerge
  else if value_type =? kTypeRangeDeletion then kEntryRangeDeletion
  else if value_type =? kTypeBlobIndex then kEntryBlobIndex
  else if value_type =? kTypeWideColumnEntity then kEntryWideColumnEntity
  else if value_type =? kTypeValuePreferredSeqno then kEntryTimedPut
  else kEntryOther.

(** ** Packing *)
Definition kMaxSequenceNumber : Z := Z.shiftl 0x1 56 - 1.
Definition kDisableGlobalSequenceNumber : Z := 2 ^ 64 - 1.
Definition kNumInternalBytes : nat := 8.

Record ParsedInternalKey := mkParsed { user_key : bytes; sequence : Z; type : Z }.

Definition InternalKeyEncodingLength (key : ParsedInternalKey) : nat := length (user_key key) + kNumInternalBytes.

(** [(seq << 8) | t] in 64 bits. *)
Definition pack (seq t : Z) : Z := Z.lor (u64 (Z.shiftl seq 8)) t.
Definition PackSequenceAndType (seq t : Z) : res Z :=
  let* _ := assert_ (seq <=? kMaxSequenceNumber) in
  let* _ := assert_ (IsExtendedValueType t || (t =? kTypeMaxValid)) in
  Ok (pack seq t).
Definition UnPackSequenceAndType (packed : Z) : Z * Z := (Z.shiftr packed 8, Z.land packed 0xff).

(** [SetTimestamp] overwrites the bytes the user key refers to. *)
Definition SetTimestamp (k : ParsedInternalKey) (ts : bytes) : res ParsedInternalKey :=
  let* _ := assert_ (length ts <=? length (user_key k))%nat in
  Ok (mkParsed (take (length (user_key k) - length ts) (user_key k) ++ ts) (sequence k) (type k)).
Definition GetTimestamp (k : ParsedInternalKey) (ts_sz : nat) : res bytes :=
  let* _ := assert_ (ts_sz <=? length (user_key k))%nat in
  Ok (drop (length (user_key k) - ts_sz) (user_key k)).

(** ** Appending keys *)
Definition AppendInternalKey (result : bytes) (key : ParsedInternalKey) : res bytes :=
  let* p := PackSequenceAndType (sequence key) (type key) in
  Ok (PutFixed64 (result ++ user_key key) p).
Definition AppendInternalKeyWithDifferentTimestamp (result : bytes) (key : ParsedInternalKey) (ts : bytes) : res bytes :=
  let* _ := assert_ (length ts <=? length (user_key key))%nat in
  let result := result ++ take (length (user_key key) - length ts) (user_key key) ++ ts in
  let* p := PackSequenceAndType (sequence key) (type key) in
  Ok (PutFixed64 result p).
Definition AppendUserKeyWithDifferentTimestamp (result key ts : bytes) : res bytes :=
  let* _ := assert_ (length ts <=? length key)%nat in
  Ok (result ++ take (length key - length ts) key ++ ts).
Definition AppendInternalKeyFooter (result : bytes) (s t : Z) : res bytes :=
  let* p := PackSequenceAndType s t in Ok (PutFixed64 result p).

Definition AppendKeyWithMinTimestamp (result key : bytes) (ts_sz : nat) : res bytes :=
  let* _ := assert_ (0 <? ts_sz)%nat in Ok (result ++ key ++ replicate ts_sz Byte.x00).
Definition AppendKeyWithMaxTimestamp (result key : bytes) (ts_sz : nat) : res bytes :=
  let* _ := assert_ (0 <? ts_sz)%nat in Ok (result ++ key ++ replicate ts_sz Byte.xff).

(** [append(key.data(), key.size() - ts_sz)] with a key shorter than the
    timestamp asks for almost 2^64 bytes: [std::length_error]. *)
Definition append_without (result key : bytes) (ts_sz : nat) : res bytes :=
  if (ts_sz <=? length key)%nat then Ok (result ++ take (length key - ts_sz) key) else Fail Exception.
Definition AppendUserKeyWithMinTimestamp (result key : bytes) (ts_sz : nat) : res bytes :=
  let* _ := assert_ (0 <? ts_sz)%nat in
  let* result := append_without result key ts_sz in
  Ok (result ++ replicate ts_sz Byte.x00).
Definition AppendUserKeyWithMaxTimestamp (result key : bytes) (ts_sz : nat) : res bytes :=
  let* _ := assert_ (0 <? ts_sz)%nat in
  let* result := append_without result key ts_sz in
  let kTsMax := replicate 9 Byte.xff in
  if (ts_sz <? length kTsMax)%nat then Ok (result ++ take ts_sz kTsMax) else Ok (result ++ replicate ts_sz Byte.xff).

Definition PadInternalKeyWith (b : byte) (result key : bytes) (ts_sz : nat) : res bytes :=
  let* _ := assert_ (0 <? ts_sz)%nat in
  let* _ := assert_ (kNumInternalBytes <=? length key)%nat in
  let user_key_size := (length key - kNumInternalBytes)%nat in
  Ok (result ++ take user_key_size key ++ replicate ts_sz b ++ take kNumInternalBytes (drop user_key_size key)).
Definition PadInternalKeyWithMinTimestamp := PadInternalKeyWith Byte.x00.
Definition PadInternalKeyWithMaxTimestamp := PadInternalKeyWith Byte.xff.

Definition StripTimestampFromInternalKey (result key : bytes) (ts_sz : nat) : res bytes :=
  let* _ := assert_ (ts_sz + kNumInternalBytes <=? length key)%nat in
  Ok (result ++ take (length key - kNumInternalBytes - ts_sz) key ++ drop (length key - kNumInternalBytes) key).
Definition ReplaceInternalKeyWithMinTimestamp (result key : bytes) (ts_sz : nat) : res bytes :=
  let key_sz := length key in
  let* _ := assert_ (ts_sz + kNumInternalBytes <=? key_sz)%nat in
  Ok (result ++ take (key_sz - kNumInternalBytes - ts_sz) key ++ replicate ts_sz Byte.x00 ++ drop (key_sz - kNumInternalBytes) key).

(** ** Taking keys apart *)
Definition ExtractUserKey (internal_key : bytes) : res bytes :=
  let* _ := assert_ (kNumInternalBytes <=? length internal_key)%nat in
  Ok (take (length internal_key - kNumInternalBytes) internal_key).
Definition ExtractUserKeyAndStripTimestamp (internal_key : bytes) (ts_sz : nat) : res bytes :=
  let* _ := assert_ (kNumInternalBytes + ts_sz <=? length internal_key)%nat in
  Ok (take (length internal_key - (kNumInternalBytes + ts_sz)) internal_key).
Definition ExtractTimestampFromKey (internal_key : bytes) (ts_sz : nat) : res bytes :=
  let key_size := length internal_key in
  let* _ := assert_ (kNumInternalBytes + ts_sz <=? key_size)%nat in
  Ok (take ts_sz (drop (key_size - ts_sz - kNumInternalBytes) internal_key)).

(** [DecodeFixed64(data() + size() - kNumInternalBytes)]. *)
Definition footer (k : bytes) : Z := DecodeFixed64 true (drop (length k - kNumInternalBytes) k).
Definition ExtractInternalKeyFooter (internal_key : bytes) : res Z :=
  let* _ := assert_ (kNumInternalBytes <=? length internal_key)%nat in Ok (footer internal_key).
Definition ExtractValueType (internal_key : bytes) : res Z :=
  let* num := ExtractInternalKeyFooter internal_key in Ok (Z.land num 0xff).
Definition GetInternalKeySeqno (internal_key : bytes) : res Z :=
  let* _ := assert_ (kNumInternalBytes <=? length internal_key)%nat in Ok (Z.shiftr (footer internal_key) 8).

(** [None]: [Status::Corruption]. *)
Definition ParseInternalKey (internal_key : bytes) : res (option ParsedInternalKey) :=
  let n := length internal_key in
  if (n <? kNumInternalBytes)%nat then Ok None
  else
    let num := footer internal_key in
    let c := Z.land num 0xff in
    let* _ := assert_ (c <=? kMaxValue) in
    let result := mkParsed (take (n - kNumInternalBytes) internal_key) (Z.shiftr num 8) c in
    if IsExtendedValueType c then Ok (Some result) else Ok None.
Definition UpdateInternalKey (ikey : bytes) (seq t : Z) : res bytes :=
  let ikey_sz := length ikey in
  let* _ := assert_ (kNumInternalBytes <=? ikey_sz)%nat in
  let newval := pack seq t in
  Ok (take (ikey_sz - kNumInternalBytes) ikey ++ EncodeFixed64 true newval).

(** ** The order *)
(** Larger numbers first. *)
Definition by_footer (anum bnum : Z) : Z := if bnum <? anum then -1 else if anum <? bnum then 1 else 0.

Section Compare.
Context `{UC : Comparator}.

Definition CompareSlices (akey bkey : bytes) : res Z :=
  let* a := ExtractUserKey akey in
  let* b := ExtractUserKey bkey in
  let r := Compare a b in
  Ok (if r =? 0 then by_footer (footer akey) (footer bkey) else r).
Definition CompareParsed (a b : ParsedInternalKey) : Z :=
  let r := Compare (user_key a) (user_key b) in
  if r =? 0 then
    if sequence b <? sequence a then -1
    else if sequence a <? sequence b then 1
    else if type b <? type a then -1
    else if type a <? type b then 1 else r
  else r.
Definition CompareSliceParsed (a : bytes) (b : ParsedInternalKey) : res Z :=
  let* ua := ExtractUserKey a in
  let r := Compare ua (user_key b) in
  Ok (if r =? 0 then by_footer (footer a) (pack (sequence b) (type b)) else r).
Definition CompareParsedSlice (a : ParsedInternalKey) (b : bytes) : res Z :=
  let* r := CompareSliceParsed b a in Ok (- r).
Definition CompareKeySeq (akey bkey : bytes) : res Z :=
  let* a := ExtractUserKey akey in
  let* b := ExtractUserKey bkey in
  let r := Compare a b in
  Ok (if r =? 0 then by_footer (Z.shiftr (footer akey) 8) (Z.shiftr (footer bkey) 8) else r).
Definition CompareKeySeqParsed (a : ParsedInternalKey) (b : bytes) : res Z :=
  let* ub := ExtractUserKey b in
  let r := Compare (user_key a) ub in
  Ok (if r =? 0 then by_footer (sequence a) (Z.shiftr (footer b) 8) else r).

(** With sequence numbers that override those of the keys. *)
Definition global_footer (k : bytes) (global_seqno : Z) : res Z :=
  if global_seqno =? kDisableGlobalSequenceNumber then ExtractInternalKeyFooter k
  else let* t := ExtractValueType k in PackSequenceAndType global_seqno t.
Definition CompareGlobal (a : bytes) (a_global_seqno : Z) (b : bytes) (b_global_seqno : Z) : res Z :=
  let* ua := ExtractUserKey a in
  let* ub := ExtractUserKey b in
  let r := Compare ua ub in
  if r =? 0 then
    let* a_footer := global_footer a a_global_seqno in
    let* b_footer := global_footer b b_global_seqno in
    Ok (by_footer a_footer b_footer)
  else Ok r.

(** [InternalKeyComparator::Equal] and [ParsedInternalKeyComparator]. *)
Definition InternalEqual (a b : bytes) : res bool := let* r := CompareSlices a b in Ok (r =? 0).
Definition ParsedLess (a b : ParsedInternalKey) : bool := CompareParsed a b <? 0.
End Compare.

(** ** [InternalKey]: its [rep_] *)
Definition InternalKey (_user_key : bytes) (s t : Z) : res bytes := AppendInternalKey [] (mkParsed _user_key s t).
Definition InternalKeyTs (_user_key : bytes) (s t : Z) (ts : bytes) : res bytes :=
  AppendInternalKeyWithDifferentTimestamp [] (mkParsed _user_key s t) ts.
(** These two append to whatever [rep_] holds. *)
Definition SetMaxPossibleForUserKey (rep_ _user_key : bytes) : res bytes := AppendInternalKey rep_ (mkParsed _user_key 0 0).
Definition SetMinPossibleForUserKey (rep_ _user_key : bytes) : res bytes :=
  AppendInternalKey rep_ (mkParsed _user_key kMaxSequenceNumber kValueTypeForSeek).
Definition Valid (rep_ : bytes) : res bool := let* p := ParseInternalKey rep_ in Ok (bool_decide (is_Some p)).
Definition Encode (rep_ : bytes) : res bytes := let* _ := assert_ (0 <? length rep_)%nat in Ok rep_.
Definition SetFrom (rep_ : bytes) (p : ParsedInternalKey) : res bytes := AppendInternalKey [] p.
Definition SetFromTs (rep_ : bytes) (p : ParsedInternalKey) (ts : bytes) : res bytes :=
  AppendInternalKeyWithDifferentTimestamp [] p ts.
Definition ConvertFromUserKey (rep_ : bytes) (s t : Z) : res bytes := AppendInternalKeyFooter rep_ s t.

(** ** [LookupKey]: the buffer from [start_] to [end_], and [kstart_] in it *)
Record LookupKey := mkLookup { lk_start : bytes; lk_kstart : nat }.
Definition mkLookupKey (_user_key : bytes) (s : Z) (ts : option bytes) : res LookupKey :=
  let usize := length _user_key in
  let ts_sz := match ts with None => 0%nat | Some ts => length ts end in
  let needed := (usize + ts_sz + 13)%nat in
  let capacity := if (needed <=? 200)%nat then 200%nat else needed in
  let len := EncodeVarint32 (u32 (Z.of_nat (usize + ts_sz + 8))) in
  let* p := PackSequenceAndType s kValueTypeForSeek in
  let dst := len ++ _user_key ++ match ts with None => [] | Some ts => ts end ++ EncodeFixed64 true p in
  if (length dst <=? capacity)%nat then Ok (mkLookup dst (length len)) else Fail BadPointer.
Definition memtable_key (k : LookupKey) : bytes := lk_start k.
Definition internal_key (k : LookupKey) : bytes := drop (lk_kstart k) (lk_start k).
Definition lookup_user_key (k : LookupKey) : bytes := take (length (internal_key k) - 8) (internal_key k).

(** ** [RangeTombstone] *)
Record RangeTombstone := mkTombstone { start_key_ : bytes; end_key_ : bytes; seq_ : Z; ts_ : bytes }.
Definition RangeTombstoneTs (sk ek : bytes) (sn : Z) (ts : bytes) : res RangeTombstone :=
  let ts_sz := length ts in
  let* _ := assert_ (0 <? ts_sz)%nat in
  let* pinned_start := AppendUserKeyWithDifferentTimestamp [] sk ts in
  let* pinned_end := AppendUserKeyWithDifferentTimestamp [] ek ts in
  Ok (mkTombstone pinned_start pinned_end sn (take ts_sz (drop (length sk - ts_sz) pinned_start))).
Definition RangeTombstoneParsed (parsed_key : ParsedInternalKey) (value : bytes) : RangeTombstone :=
  mkTombstone (user_key parsed_key) value (sequence parsed_key) [].
Definition SerializeKey (t : RangeTombstone) : res bytes := InternalKey (start_key_ t) (seq_ t) kTypeRangeDeletion.
Definition Serialize (t : RangeTombstone) : res (bytes * bytes) :=
  let* key := InternalKey (start_key_ t) (seq_ t) kTypeRangeDeletion in Ok (key, end_key_ t).
Definition SerializeEndKey (t : RangeTombstone) : res bytes :=
  if negb (length (ts_ t) =? 0)%nat then
    let kTsMax := replicate 9 Byte.xff in
    if (length (ts_ t) <=? length kTsMax)%nat
    then InternalKeyTs (end_key_ t) kMaxSequenceNumber kTypeRangeDeletion (take (length (ts_ t)) kTsMax)
    else InternalKeyTs (end_key_ t) kMaxSequenceNumber kTypeRangeDeletion (replicate (length (ts_ t)) Byte.xff)
  else InternalKey (end_key_ t) kMaxSequenceNumber kTypeRangeDeletion.

(** ** [PredecessorWALInfo] *)
Record PredecessorWALInfo := mkWalInfo { log_number_ : Z; size_bytes_ : Z; last_seqno_recorded_ : Z; initialized_ : bool }.
Definition WALInfo_EncodeTo (w : PredecessorWALInfo) (dst : bytes) : res bytes :=
  let* _ := assert_ (initialized_ w) in
  Ok (PutFixed64 (PutFixed64 (PutFixed64 dst (log_number_ w)) (size_bytes_ w)) (last_seqno_recorded_ w)).
(** [None]: [Status::Corruption]. *)
Definition WALInfo_DecodeFrom (src : bytes) : option (PredecessorWALInfo * bytes) :=
  match GetFixed64 src with
  | None => None
  | Some (l, src) =>
      match GetFixed64 src with
      | None => None
      | Some (z, src) =>
          match GetFixed64 src with
          | None => None
          | Some (n, src) => Some (mkWalInfo l z n true, src)
          end
      end
  end.

(** ** Lemmas *)
(** A key the code may build: a 56-bit sequence number and a known type. *)
Definition valid_key (k : ParsedInternalKey) : Prop :=
  0 ≤ sequence k ≤ kMaxSequenceNumber ∧ 0 ≤ type k ∧ IsExtendedValueType (type k) = true.
Definition encoded (k : ParsedInternalKey) : bytes := user_key k ++ EncodeFixed64 true (pack (sequence k) (type k)).

Lemma extended_range t : IsExtendedValueType t = true → t ≤ kTypeMaxValid.
Proof.
  unfold IsExtendedValueType, IsValueType, kTypeMerge, kTypeSingleDeletion, kTypeBlobIndex, kTypeDeletionWithTimestamp,
    kTypeWideColumnEntity, kTypeValuePreferredSeqno, kTypeRangeDeletion, kTypeMaxValid.
  rewrite !orb_true_iff, !Z.eqb_eq, Z.leb_le. lia.
Qed.
Lemma value_range t : IsValueType t = true → t ≤ kValueTypeForSeek ∧ IsExtendedValueType t = true.
Proof.
  intros Ht. split; [|unfold IsExtendedValueType; by rewrite Ht]. revert Ht.
  unfold IsValueType, kTypeMerge, kTypeSingleDeletion, kTypeBlobIndex, kTypeDeletionWithTimestamp,
    kTypeWideColumnEntity, kValueTypeForSeek, kTypeValuePreferredSeqno.
  rewrite !orb_true_iff, !Z.eqb_eq, Z.leb_le. lia.
Qed.
Lemma max_seqno : kMaxSequenceNumber = 2 ^ 56 - 1.
Proof. done. Qed.

Lemma pack_value seq t : 0 ≤ seq ≤ kMaxSequenceNumber → 0 ≤ t < 256 → pack seq t = seq * 256 + t ∧ in_u 64 (pack seq t).
Proof.
  rewrite max_seqno. intros Hs Ht. unfold pack. rewrite Z.lor_comm, u64_id.
  - rewrite lor_high by (simpl; lia). change (2 ^ 8) with 256. lia.
  - rewrite Z.shiftl_mul_pow2 by lia. lia.
Qed.
Lemma unpack_value seq t : 0 ≤ seq → 0 ≤ t < 256 → Z.shiftr (seq * 256 + t) 8 = seq ∧ Z.land (seq * 256 + t) 0xff = t.
Proof.
  intros Hs Ht. rewrite Z.shiftr_div_pow2 by lia. change 255 with (Z.ones 8). rewrite Z.land_ones by lia. change (2 ^ 8) with 256.
  split; [symmetry; apply Z.div_unique with t; lia|symmetry; apply Z.mod_unique with seq; lia].
Qed.
Lemma valid_type k : valid_key k → 0 ≤ type k < 256.
Proof. intros (_ & Ht & Hx%extended_range). unfold kTypeMaxValid in Hx. lia. Qed.
Lemma valid_pack k : valid_key k →
  PackSequenceAndType (sequence k) (type k) = Ok (pack (sequence k) (type k)) ∧
  pack (sequence k) (type k) = sequence k * 256 + type k ∧ in_u 64 (pack (sequence k) (type k)).
Proof.
  intros Hk. pose proof (valid_type k Hk) as Ht. destruct Hk as (Hs & Ht0 & Hx). unfold PackSequenceAndType.
  rewrite (proj2 (Z.leb_le _ _)), Hx by lia. split; [done|]. by apply pack_value.
Qed.

Lemma fixed64_length v : length (EncodeFixed64 true v) = 8%nat.
Proof. apply length_le_split. Qed.
#[local] Opaque EncodeFixed64.
Lemma split_footer u v :
  length (u ++ EncodeFixed64 true v) = (length u + 8)%nat ∧
  take (length (u ++ EncodeFixed64 true v) - kNumInternalBytes) (u ++ EncodeFixed64 true v) = u ∧
  drop (length (u ++ EncodeFixed64 true v) - kNumInternalBytes) (u ++ EncodeFixed64 true v) = EncodeFixed64 true v.
Proof.
  rewrite length_app, fixed64_length. unfold kNumInternalBytes. rewrite Nat.add_sub. split; [done|].
  by rewrite take_app_exact, drop_app_exact.
Qed.
Lemma decode_fixed64 v : in_u 64 v → DecodeFixed64 true (EncodeFixed64 true v) = v.
Proof. intros Hv. pose proof (fixed_roundtrip 8 v [] Hv) as H8. by rewrite app_nil_r in H8. Qed.
Lemma footer_app u v : in_u 64 v → footer (u ++ EncodeFixed64 true v) = v.
Proof. intros Hv. unfold footer. destruct (split_footer u v) as (_ & _ & ->). by apply decode_fixed64. Qed.
Lemma extract_app u v : ExtractUserKey (u ++ EncodeFixed64 true v) = Ok u.
Proof.
  unfold ExtractUserKey. destruct (split_footer u v) as (Hl & -> & _).
  rewrite Hl, (proj2 (Nat.leb_le _ _)) by (unfold kNumInternalBytes; lia). done.
Qed.
Lemma long_app u v : (kNumInternalBytes <=? length (u ++ EncodeFixed64 true v))%nat = true.
Proof. destruct (split_footer u v) as (-> & _). apply Nat.leb_le. unfold kNumInternalBytes. lia. Qed.
Lemma footer_encoded k : valid_key k → footer (encoded k) = sequence k * 256 + type k.
Proof. intros Hk. destruct (valid_pack k Hk) as (_ & <- & Hr). by apply footer_app. Qed.
Lemma append_encoded r k : valid_key k → AppendInternalKey r k = Ok (r ++ encoded k).
Proof.
  intros Hk. unfold AppendInternalKey. destruct (valid_pack k Hk) as (-> & _). simpl. unfold PutFixed64, encoded.
  by rewrite app_assoc.
Qed.
Lemma encoded_inj k1 k2 : valid_key k1 → valid_key k2 → encoded k1 = encoded k2 → k1 = k2.
Proof.
  intros H1 H2 He. pose proof (footer_encoded k1 H1) as F1. rewrite He, footer_encoded in F1 by done.
  pose proof (extract_app (user_key k1) (pack (sequence k1) (type k1))) as E1. fold (encoded k1) in E1.
  rewrite He in E1. unfold encoded in E1. rewrite extract_app in E1.
  pose proof (valid_type k1 H1). pose proof (valid_type k2 H2). destruct k1, k2; simpl in *. f_equal; [congruence|lia|lia].
Qed.

Lemma parse_encoded k : valid_key k → ParseInternalKey (encoded k) = Ok (Some k).
Proof.
  intros Hk. pose proof (valid_type k Hk) as Ht. unfold ParseInternalKey. rewrite footer_encoded by done.
  destruct (unpack_value (sequence k) (type k)) as [-> ->]; [by destruct Hk as [? _]; lia|done|].
  destruct (split_footer (user_key k) (pack (sequence k) (type k))) as (Hl & Htk & _). fold (encoded k) in *.
  rewrite Htk, Hl, (proj2 (Nat.ltb_ge _ _)) by (unfold kNumInternalBytes; lia).
  destruct Hk as (_ & Ht0 & Hx). pose proof (extended_range _ Hx) as Hr. unfold kTypeMaxValid in Hr.
  rewrite (proj2 (Z.leb_le _ _)), Hx by (unfold kMaxValue; lia). by destruct k.
Qed.
Lemma split_key b : (8 ≤ length b)%nat → b = take (length b - 8) b ++ EncodeFixed64 true (footer b) ∧ in_u 64 (footer b).
Proof.
  intros Hl. unfold footer, DecodeFixed64, kNumInternalBytes. assert (Hd : length (drop (length b - 8) b) = 8%nat) by (rewrite length_drop; lia).
  rewrite (take_ge (drop _ _) 8) by lia. split.
  - rewrite <-(take_drop (length b - 8) b) at 1. f_equal. symmetry.
    pose proof (split_le_combine (drop (length b - 8) b)) as Hs. rewrite Hd in Hs. exact Hs.
  - pose proof (le_combine_lt (drop (length b - 8) b)) as Hb. rewrite Hd in Hb. exact Hb.
Qed.
Lemma parse_valid b k : ParseInternalKey b = Ok (Some k) → valid_key k ∧ b = encoded k.
Proof.
  unfold ParseInternalKey. destruct (Nat.ltb_spec (length b) kNumInternalBytes) as [|Hl]; [done|].
  destruct (split_key b Hl) as (Hb & Hf). intros ([] & _ & Hp)%res_bind_ok.
  destruct (IsExtendedValueType _) eqn:Hx; [|done]. injection Hp as <-. revert Hx.
  change 255 with (Z.ones 8). rewrite Z.land_ones, Z.shiftr_div_pow2 by lia. change (2 ^ 8) with 256.
  assert (0 ≤ footer b mod 256 < 256) by (apply Z.mod_pos_bound; lia).
  assert (0 ≤ footer b / 256 < 2 ^ 56) by (split; [apply Z.div_pos|apply Z.div_lt_upper_bound]; lia).
  intros Hx. assert (Hv : valid_key (mkParsed (take (length b - kNumInternalBytes) b) (footer b / 256) (footer b mod 256)))
    by (unfold valid_key; rewrite max_seqno; simpl; split_and!; [lia..|done]).
  split; [done|]. unfold encoded. destruct (valid_pack _ Hv) as (_ & Hp & _). cbn [sequence type user_key] in *. rewrite Hp.
  replace (footer b / 256 * 256 + footer b mod 256) with (footer b) by (pose proof (Z.div_mod (footer b) 256 ltac:(lia)); lia).
  exact Hb.
Qed.

(** ** The order of internal keys *)
Lemma by_footer_parsed (a b : ParsedInternalKey) :
  valid_key a → valid_key b →
  by_footer (sequence a * 256 + type a) (sequence b * 256 + type b) =
    if sequence b <? sequence a then -1 else if sequence a <? sequence b then 1
    else if type b <? type a then -1 else if type a <? type b then 1 else 0.
Proof.
  intros Ha%valid_type Hb%valid_type. unfold by_footer.
  destruct (Z.ltb_spec (sequence b) (sequence a)), (Z.ltb_spec (sequence a) (sequence b)), (Z.ltb_spec (type b) (type a)),
    (Z.ltb_spec (type a) (type b)); try lia;
  destruct (Z.ltb_spec (sequence b * 256 + type b) (sequence a * 256 + type a)); try lia;
  destruct (Z.ltb_spec (sequence a * 256 + type a) (sequence b * 256 + type b)); lia.
Qed.

Section order.
Context `{UL : ComparatorLaws}.

Lemma CompareSlices_app u v u' v' : in_u 64 v → in_u 64 v' →
  CompareSlices (u ++ EncodeFixed64 true v) (u' ++ EncodeFixed64 true v') =
    Ok (if Compare u u' =? 0 then by_footer v v' else Compare u u').
Proof. intros. unfold CompareSlices. rewrite !extract_app. cbn [res_bind]. by rewrite !footer_app. Qed.

Lemma CompareSlices_encoded a b : valid_key a → valid_key b → CompareSlices (encoded a) (encoded b) = Ok (CompareParsed a b).
Proof.
  intros Ha Hb. unfold encoded. rewrite CompareSlices_app by (by apply valid_pack).
  destruct (valid_pack a Ha) as (_ & -> & _), (valid_pack b Hb) as (_ & -> & _). rewrite by_footer_parsed by done.
  unfold CompareParsed. by destruct (Z.eqb_spec (Compare (user_key a) (user_key b)) 0) as [->|].
Qed.

Lemma CompareSliceParsed_encoded a b : valid_key a → valid_key b → CompareSliceParsed (encoded a) b = Ok (CompareParsed a b).
Proof.
  intros Ha Hb. rewrite <-CompareSlices_encoded by done. unfold CompareSliceParsed, CompareSlices, encoded.
  rewrite !extract_app. cbn [res_bind]. by rewrite !footer_app by (by apply valid_pack).
Qed.

Lemma CompareParsed_refl a : CompareParsed a a = 0.
Proof. unfold CompareParsed. by rewrite Compare_eq, !Z.ltb_irrefl. Qed.
Lemma CompareParsed_opp a b : Z.sgn (CompareParsed b a) = - Z.sgn (CompareParsed a b).
Proof.
  unfold CompareParsed. pose proof (Compare_opp (user_key a) (user_key b)) as Ho.
  destruct (Z.eqb_spec (Compare (user_key a) (user_key b)) 0) as [E|E], (Z.eqb_spec (Compare (user_key b) (user_key a)) 0) as [E'|E'];
    [|rewrite ?E, ?E' in Ho; lia..|done].
  destruct (Z.ltb_spec (sequence b) (sequence a)), (Z.ltb_spec (sequence a) (sequence b)), (Z.ltb_spec (type b) (type a)),
    (Z.ltb_spec (type a) (type b)); lia.
Qed.

(** A preorder with the same sign on both sides is transitive. *)
Lemma Compare_zero_trans a b c : Compare a b = 0 → Compare b c = 0 → Compare a c = 0.
Proof.
  intros H1 H2. pose proof (Compare_trans a b c). pose proof (Compare_trans c b a).
  pose proof (Compare_opp a b). pose proof (Compare_opp b c). pose proof (Compare_opp a c). lia.
Qed.
Lemma Compare_lt_trans a b c : (Compare a b < 0 ∧ Compare b c ≤ 0) ∨ (Compare a b ≤ 0 ∧ Compare b c < 0) → Compare a c < 0.
Proof.
  intros Hc. pose proof (Compare_trans a b c). destruct (Z.eq_dec (Compare a c) 0) as [E|]; [|lia].
  pose proof (Compare_opp a b). pose proof (Compare_opp b c). pose proof (Compare_opp a c).
  pose proof (Compare_trans c a b). pose proof (Compare_trans b c a). lia.
Qed.
Lemma CompareParsed_le a b :
  CompareParsed a b ≤ 0 ↔
  Compare (user_key a) (user_key b) < 0 ∨ Compare (user_key a) (user_key b) = 0 ∧
    (sequence b < sequence a ∨ sequence a = sequence b ∧ type b ≤ type a).
Proof.
  unfold CompareParsed. destruct (Z.eqb_spec (Compare (user_key a) (user_key b)) 0) as [E|E]; [|lia].
  destruct (Z.ltb_spec (sequence b) (sequence a)), (Z.ltb_spec (sequence a) (sequence b)), (Z.ltb_spec (type b) (type a)),
    (Z.ltb_spec (type a) (type b)); lia.
Qed.
Lemma CompareParsed_trans a b c : CompareParsed a b ≤ 0 → CompareParsed b c ≤ 0 → CompareParsed a c ≤ 0.
Proof.
  rewrite !CompareParsed_le. intros H1 H2.
  pose proof (Compare_lt_trans (user_key a) (user_key b) (user_key c)) as Hlt.
  pose proof (Compare_zero_trans (user_key a) (user_key b) (user_key c)) as Hz.
  destruct H1 as [H1|[H1 ?]], H2 as [H2|[H2 ?]]; [left; apply Hlt; lia..|right; split; [auto|lia]].
Qed.
End order.

Lemma extract_encoded k : valid_key k →
  ExtractUserKey (encoded k) = Ok (user_key k) ∧ GetInternalKeySeqno (encoded k) = Ok (sequence k) ∧
  ExtractValueType (encoded k) = Ok (type k) ∧ ExtractInternalKeyFooter (encoded k) = Ok (sequence k * 256 + type k).
Proof.
  intros Hk. destruct (unpack_value (sequence k) (type k)) as [Hs Ht]; [by destruct Hk as [? _]; lia|by apply valid_type|].
  unfold GetInternalKeySeqno, ExtractValueType, ExtractInternalKeyFooter. rewrite footer_encoded by done.
  unfold encoded. rewrite long_app. cbn [assert_ res_bind]. rewrite Hs, Ht. by rewrite extract_app.
Qed.

(** The sequence number of the key, or the one that overrides it. *)
Definition with_seqno (k : ParsedInternalKey) (g : Z) : ParsedInternalKey :=
  if g =? kDisableGlobalSequenceNumber then k else mkParsed (user_key k) g (type k).
Lemma global_footer_encoded k g : valid_key k → valid_key (with_seqno k g) →
  global_footer (encoded k) g = Ok (sequence (with_seqno k g) * 256 + type (with_seqno k g)).
Proof.
  intros Hk Hg. unfold global_footer, with_seqno in *. destruct (extract_encoded k Hk) as (_ & _ & Ht & Hf).
  destruct (g =? kDisableGlobalSequenceNumber); [exact Hf|]. rewrite Ht. cbn [res_bind].
  destruct (valid_pack _ Hg) as (Hp & Hv & _). cbn [sequence type] in *. by rewrite Hp, Hv.
Qed.
Lemma with_seqno_user k g : user_key (with_seqno k g) = user_key k.
Proof. unfold with_seqno. by destruct (_ =? _). Qed.

Lemma CompareGlobal_encoded `{UC : Comparator} a ga b gb :
  valid_key a → valid_key b → valid_key (with_seqno a ga) → valid_key (with_seqno b gb) →
  CompareGlobal (encoded a) ga (encoded b) gb = Ok (CompareParsed (with_seqno a ga) (with_seqno b gb)).
Proof.
  intros Ha Hb Hga Hgb. unfold CompareGlobal, CompareParsed. destruct (extract_encoded a Ha) as (-> & _), (extract_encoded b Hb) as (-> & _).
  cbn [res_bind]. rewrite !with_seqno_user. destruct (Z.eqb_spec (Compare (user_key a) (user_key b)) 0) as [->|]; [|done].
  rewrite !global_footer_encoded by done. cbn [res_bind]. f_equal. by apply by_footer_parsed.
Qed.

(** ** Theorems *)
(** C28: internal keys read back.  A key with a sequence number below 2^56 and a
    known type is written by [AppendInternalKey] in [InternalKeyEncodingLength]
    bytes, and its parts are extracted; [ParseInternalKey] accepts a byte string
    exactly when it is the encoding of such a key, and returns that key; and
    [UpdateInternalKey] turns the encoding of a key into the encoding of the key
    with the new sequence number and type. *)
Theorem internal_key_roundtrip k :
  valid_key k →
  AppendInternalKey [] k = Ok (encoded k) ∧ length (encoded k) = InternalKeyEncodingLength k ∧
  (ExtractUserKey (encoded k) = Ok (user_key k) ∧ GetInternalKeySeqno (encoded k) = Ok (sequence k) ∧
   ExtractValueType (encoded k) = Ok (type k)) ∧
  (∀ b k', ParseInternalKey b = Ok (Some k') ↔ valid_key k' ∧ b = encoded k') ∧
  (∀ seq t, let k' := mkParsed (user_key k) seq t in valid_key k' → UpdateInternalKey (encoded k) seq t = Ok (encoded k')).
Proof.
  intros Hk. split_and!; try apply (extract_encoded k Hk).
  - by apply append_encoded.
  - apply split_footer.
  - intros b k'. split; [apply parse_valid|]. intros [Hk' ->]. by apply parse_encoded.
  - intros seq t k' Hk'. unfold UpdateInternalKey, encoded. rewrite long_app. cbn [assert_ res_bind].
    by destruct (split_footer (user_key k) (pack (sequence k) (type k))) as (_ & -> & _).
Qed.

(** C29: internal keys are totally ordered, and every overload compares the same.
    For a lawful user comparator, the comparison of encoded keys, of an encoded
    with a parsed key and of keys with overriding sequence numbers all agree with
    the comparison of parsed keys, which is reflexive, antisymmetric and
    transitive, and equates two keys exactly when their user keys compare equal
    and their sequence numbers and types are the same. *)
Theorem internal_key_order `{UL : ComparatorLaws} a b :
  valid_key a → valid_key b →
  (CompareSlices (encoded a) (encoded b) = Ok (CompareParsed a b) ∧
   CompareSliceParsed (encoded a) b = Ok (CompareParsed a b) ∧
   (∃ r, CompareParsedSlice a (encoded b) = Ok r ∧ Z.sgn r = Z.sgn (CompareParsed a b)) ∧
   (∀ ga gb, valid_key (with_seqno a ga) → valid_key (with_seqno b gb) →
      CompareGlobal (encoded a) ga (encoded b) gb = Ok (CompareParsed (with_seqno a ga) (with_seqno b gb)))) ∧
  CompareParsed a a = 0 ∧ Z.sgn (CompareParsed b a) = - Z.sgn (CompareParsed a b) ∧
  (∀ c, CompareParsed a b ≤ 0 → CompareParsed b c ≤ 0 → CompareParsed a c ≤ 0) ∧
  (CompareParsed a b = 0 ↔ Compare (user_key a) (user_key b) = 0 ∧ sequence a = sequence b ∧ type a = type b).
Proof.
  intros Ha Hb. pose proof (CompareParsed_opp a b) as Ho. split; [split_and!|split_and!].
  - by apply CompareSlices_encoded.
  - by apply CompareSliceParsed_encoded.
  - unfold CompareParsedSlice. rewrite CompareSliceParsed_encoded by done. eexists. split; [done|]. lia.
  - intros. by apply CompareGlobal_encoded.
  - apply CompareParsed_refl.
  - done.
  - apply CompareParsed_trans.
  - pose proof (CompareParsed_le a b). pose proof (CompareParsed_le b a). pose proof (Compare_opp (user_key a) (user_key b)). lia.
Qed.

(** C30: seeking sees exactly the versions a snapshot may see.  The lookup key of a
    user key at sequence number [s] is built within its buffer and is the
    length-prefixed internal key the memtable stores; an entry of that user key
    is at or after it exactly when its sequence number is at most [s]; and the
    minimal and maximal internal keys of a user key, written to an empty key,
    bracket all its entries. *)
Theorem lookup_sees_snapshot `{UL : ComparatorLaws} u s ts e :
  0 ≤ s ≤ kMaxSequenceNumber → Z.of_nat (length u + length ts + 8) < 2 ^ 32 →
  valid_key e → IsValueType (type e) = true → Compare (u ++ ts) (user_key e) = 0 →
  (∃ lk r, mkLookupKey u s (Some ts) = Ok lk ∧ lookup_user_key lk = u ++ ts ∧
     GetLengthPrefixedSlice (memtable_key lk) = Some (internal_key lk, []) ∧
     CompareSlices (internal_key lk) (encoded e) = Ok r ∧ (r ≤ 0 ↔ sequence e ≤ s)) ∧
  ∃ lo hi rl rh, SetMinPossibleForUserKey [] (u ++ ts) = Ok lo ∧ SetMaxPossibleForUserKey [] (u ++ ts) = Ok hi ∧
    CompareSlices lo (encoded e) = Ok rl ∧ rl ≤ 0 ∧ CompareSlices (encoded e) hi = Ok rh ∧ rh ≤ 0.
Proof.
  intros Hs Hlen He [Ht _]%value_range Hu. assert (Hseek : ∀ s, 0 ≤ s ≤ kMaxSequenceNumber → valid_key (mkParsed (u ++ ts) s kValueTypeForSeek)) by (by intros).
  assert (Hmax : valid_key (mkParsed (u ++ ts) 0 0)) by (unfold valid_key; rewrite max_seqno; simpl; split_and!; done || lia).
  assert (Hm : 0 ≤ kMaxSequenceNumber ≤ kMaxSequenceNumber) by (rewrite max_seqno; lia).
  assert (He2 : 0 ≤ sequence e ≤ kMaxSequenceNumber ∧ 0 ≤ type e) by (by destruct He as (? & ? & _)). split.
  - unfold mkLookupKey. destruct (valid_pack _ (Hseek s Hs)) as (Hp & _). cbn [sequence type] in Hp. rewrite Hp. cbn [res_bind].
    set (len := EncodeVarint32 _). set (ik := encoded (mkParsed (u ++ ts) s kValueTypeForSeek)).
    replace (len ++ u ++ ts ++ _) with (len ++ ik) by (subst ik; unfold encoded; cbn [user_key sequence type]; by rewrite <-!app_assoc).
    destruct (encode_loop_total 5 (u32 (Z.of_nat (length u + length ts + 8)))) as (l & Hl & Hll); [lia|rewrite u32_id by lia; simpl; lia|].
    rewrite EncodeVarint32_loop in Hl by apply u32_range. injection Hl as Hl. fold len in Hl. rewrite Hl.
    assert (Hik : length ik = (length u + length ts + 8)%nat) by (unfold ik, encoded; rewrite !length_app, fixed64_length; simpl; rewrite length_app; lia).
    rewrite (proj2 (Nat.leb_le _ _)) by (rewrite length_app; destruct (Nat.leb_spec (length u + length ts + 13) 200); lia).
    eexists _, _. split; [done|]. unfold lookup_user_key, memtable_key, internal_key. cbn [lk_start lk_kstart].
    rewrite drop_app_exact by done. split; [apply split_footer|]. split.
    + unfold GetLengthPrefixedSlice. rewrite <-Hl. unfold len. rewrite GetVarint32_encoded, u32_id by (apply u32_range || lia).
      rewrite (proj2 (Z.leb_le _ _)), Nat2Z.id, take_ge, drop_ge by lia. done.
    + split; [by apply CompareSlices_encoded; [apply Hseek|]|]. rewrite CompareParsed_le. cbn [user_key sequence type]. lia.
  - unfold SetMinPossibleForUserKey, SetMaxPossibleForUserKey. rewrite !append_encoded by (try apply Hseek; done).
    eexists _, _, _, _. do 2 (split; [done|]). split; [by apply CompareSlices_encoded; [apply Hseek|]|]. split; [|split].
    + rewrite CompareParsed_le. cbn [user_key sequence type]. lia.
    + by apply CompareSlices_encoded.
    + rewrite CompareParsed_le. cbn [user_key sequence type]. pose proof (Compare_opp (u ++ ts) (user_key e)). lia.
Qed.

(** Where the parts of a timestamped internal key are. *)
Lemma split_timestamped u ts v n :
  length ts = n →
  let key := (u ++ ts) ++ EncodeFixed64 true v in
  (n + kNumInternalBytes <=? length key)%nat = true ∧ (kNumInternalBytes + n <=? length key)%nat = true ∧
  take (length key - kNumInternalBytes - n) key = u ∧ take (length key - (kNumInternalBytes + n)) key = u ∧
  take n (drop (length key - n - kNumInternalBytes) key) = ts.
Proof.
  intros Hn key. assert (Hl : length key = (length u + n + 8)%nat) by (unfold key; rewrite !length_app, fixed64_length; lia).
  rewrite Hl. unfold kNumInternalBytes. split; [apply Nat.leb_le; lia|]. split; [apply Nat.leb_le; lia|]. unfold key. rewrite <-app_assoc.
  split; [apply take_app_exact; lia|]. split; [apply take_app_exact; lia|]. rewrite drop_app_exact by lia. by apply take_app_exact.
Qed.

Lemma decode_min_max ts : length ts = 8%nat → DecodeFixed64 true MinU64Ts ≤ DecodeFixed64 true ts ≤ DecodeFixed64 true MaxU64Ts.
Proof.
  intros Hl. assert (Hmax : DecodeFixed64 true MaxU64Ts = 2 ^ 64 - 1) by (vm_compute; done).
  assert (Hmin : DecodeFixed64 true MinU64Ts = 0) by (vm_compute; done). rewrite Hmin, Hmax. unfold DecodeFixed64. rewrite take_ge by lia.
  pose proof (le_combine_lt ts) as Hb. rewrite Hl in Hb. simpl in *. lia.
Qed.

(** Rewriting the timestamp of an internal key touches the timestamp only:
    it is extracted, stripped, padded with the least or the greatest timestamp
    or replaced, and the result is the encoding of the key with that user key;
    in the order of the comparator with 64-bit timestamps the greatest
    timestamp puts a key before, and the least after, all versions of it. *)
Theorem timestamp_rewriting u ts seq t ts' :
  let n := length ts in let key w := mkParsed w seq t in
  (0 < n)%nat → length ts' = n → valid_key (key u) →
  (ExtractTimestampFromKey (encoded (key (u ++ ts))) n = Ok ts ∧
   ExtractUserKeyAndStripTimestamp (encoded (key (u ++ ts))) n = Ok u) ∧
  (StripTimestampFromInternalKey [] (encoded (key (u ++ ts))) n = Ok (encoded (key u)) ∧
   PadInternalKeyWithMinTimestamp [] (encoded (key u)) n = Ok (encoded (key (u ++ replicate n Byte.x00))) ∧
   PadInternalKeyWithMaxTimestamp [] (encoded (key u)) n = Ok (encoded (key (u ++ replicate n Byte.xff))) ∧
   ReplaceInternalKeyWithMinTimestamp [] (encoded (key (u ++ ts))) n = Ok (encoded (key (u ++ replicate n Byte.x00))) ∧
   AppendInternalKeyWithDifferentTimestamp [] (key (u ++ ts)) ts' = Ok (encoded (key (u ++ ts')))) ∧
  (n = 8%nat → ∀ root, ComparatorLaws root →
   ∃ a b, CompareU64Ts root (u ++ MaxU64Ts) (u ++ ts) = Ok a ∧ CompareU64Ts root (u ++ ts) (u ++ MinU64Ts) = Ok b ∧ a ≤ 0 ∧ b ≤ 0).
Proof.
  intros n key Hn Hts' Hk. unfold encoded. cbn [user_key sequence type key]. set (v := pack seq t).
  destruct (split_timestamped u ts v n eq_refl) as (H1 & H2 & H3 & H4 & H5). destruct (split_footer (u ++ ts) v) as (_ & _ & H6).
  destruct (split_footer u v) as (_ & H7 & H8). split; [|split].
  - unfold ExtractTimestampFromKey, ExtractUserKeyAndStripTimestamp. rewrite H2, H4, H5. done.
  - unfold StripTimestampFromInternalKey, PadInternalKeyWithMinTimestamp, PadInternalKeyWithMaxTimestamp, PadInternalKeyWith,
      ReplaceInternalKeyWithMinTimestamp, AppendInternalKeyWithDifferentTimestamp.
    rewrite H1, H3, H6, H7, H8, long_app, (proj2 (Nat.ltb_lt _ _)), (take_ge (EncodeFixed64 _ _)) by (done || rewrite fixed64_length; done).
    cbn [assert_ res_bind key user_key sequence type app]. rewrite length_app, (proj2 (Nat.leb_le _ _)) by lia. cbn [assert_ res_bind].
    destruct (valid_pack _ Hk) as (Hp & _). cbn [sequence type key] in Hp. rewrite Hp. cbn [res_bind]. rewrite !app_assoc.
    rewrite Hts', Nat.add_sub, take_app_exact by done. done.
  - intros H8' root HL. eexists _, _. rewrite !CompareU64Ts_spec by done. cbn zeta. rewrite Compare_eq. cbn [Z.eqb].
    pose proof (decode_min_max ts H8'). do 2 (split; [done|]). lia.
Qed.

Definition key_a : ParsedInternalKey := mkParsed [Byte.x61] 7 kTypeValue.
Definition key_b : ParsedInternalKey := mkParsed [Byte.x61] 5 kTypeDeletion.
Lemma key_a_valid : valid_key key_a.
Proof. split_and!; vm_compute; congruence. Qed.
Lemma key_b_valid : valid_key key_b.
Proof. split_and!; vm_compute; congruence. Qed.

Lemma internal_key_roundtrip_witness : ParseInternalKey (encoded key_a) = Ok (Some key_a) ∧ UpdateInternalKey (encoded key_a) 9 kTypeMerge = Ok (encoded (mkParsed [Byte.x61] 9 kTypeMerge)).
Proof.
  destruct (internal_key_roundtrip key_a key_a_valid) as (_ & _ & _ & Hp & Hu). split.
  - apply Hp. exact (conj key_a_valid eq_refl).
  - apply Hu. split_and!; vm_compute; congruence.
Defined.
Lemma internal_key_order_witness : CompareSlices (UC := BytewiseComparator) (encoded key_a) (encoded key_b) = Ok (-1).
Proof. exact (proj1 (proj1 (internal_key_order (UL := bytewise_laws) key_a key_b key_a_valid key_b_valid))). Defined.
Lemma lookup_sees_snapshot_witness :
  ∃ lk r, mkLookupKey [Byte.x61] 6 (Some []) = Ok lk ∧ CompareSlices (UC := BytewiseComparator) (internal_key lk) (encoded key_b) = Ok r ∧ r ≤ 0.
Proof.
  destruct (lookup_sees_snapshot (UL := bytewise_laws) [Byte.x61] 6 [] key_b ltac:(vm_compute; split; congruence) ltac:(vm_compute; congruence)
    key_b_valid eq_refl eq_refl) as ((lk & r & H1 & _ & _ & H2 & H3) & _).
  exists lk, r. split; [exact H1|]. split; [exact H2|]. apply H3. vm_compute. congruence.
Defined.
Lemma timestamp_rewriting_witness :
  PadInternalKeyWithMinTimestamp [] (encoded key_a) 8 = Ok (encoded (mkParsed ([Byte.x61] ++ replicate 8 Byte.x00) 7 kTypeValue)).
Proof.
  destruct (timestamp_rewriting [Byte.x61] MaxU64Ts 7 kTypeValue MinU64Ts ltac:(vm_compute; lia) eq_refl key_a_valid) as (_ & (_ & Hp & _) & _).
  exact Hp.
Defined.
