(* ===== verification/Heap.v ===== *)
(** * The binary heap of the merging iterators (rocksdb [util/heap.h])

    [top] is the maximum under [cmp_].  The elements are pointers whose keys change
    while they are in the heap: [replace_top] and [pop] are shown correct from a
    heap whose root is arbitrary.  [cmp_] may fail an assertion, so it is a
    computation; it is only asked about elements that satisfy [P]. *)
From S2P Require Import Prelude.

(** [root_cmp_cache_] is [None] for [numeric_limits<size_t>::max()]. *)
Record BinaryHeap (T : Type) := mkHeap { data_ : list T; root_cmp_cache_ : option nat }.
Arguments mkHeap {T}.
Arguments data_ {T}.
Arguments root_cmp_cache_ {T}.

Section Heap.
Context {T : Type} (cmp_ : T → T → res bool).

(** [autovector::operator[]] asserts its index. *)
Definition item (d : list T) (i : nat) : res T := match d !! i with Some x => Ok x | None => Fail AssertFail end.

Definition empty (h : BinaryHeap T) : bool := (length (data_ h) =? 0)%nat.
Definition get_root : nat := 0.
Definition get_parent (index : nat) : nat := (index - 1) / 2.
Definition get_left (index : nat) : nat := 2 * index + 1.
Definition get_right (index : nat) : nat := 2 * index + 2.

Fixpoint upheap_loop (fuel : nat) (d : list T) (index : nat) (v : T) : res (list T * nat) :=
  match fuel with
  | O => Fail OutOfFuel
  | S fuel =>
      if get_root <? index then
        let parent := get_parent index in
        let* p := item d parent in
        let* c := cmp_ p v in
        if negb c then Ok (d, index) else upheap_loop fuel (<[index := p]> d) parent v
      else Ok (d, index)
  end.
Definition upheap (d : list T) (index : nat) : res (BinaryHeap T) :=
  let* v := item d index in
  let* (d, index) := upheap_loop (S index) d index v in
  Ok (mkHeap (<[index := v]> d) None).

(** The child [downheap] compares with. *)
Definition pick_child (d : list T) (cache : option nat) (index : nat) : res nat :=
  let left_child := get_left index in
  let right_child := left_child + 1 in
  let* _ := assert_ (right_child =? get_right index) in
  let cached := match cache with Some c => if (index =? 0) && (c <? length d) then Some c else None | None => None end in
  match cached with
  | Some c => Ok c
  | None =>
      if right_child <? length d then
        let* l := item d left_child in
        let* r := item d right_child in
        let* c := cmp_ l r in
        Ok (if c then right_child else left_child)
      else Ok left_child
  end.
Fixpoint downheap_loop (fuel : nat) (cache : option nat) (d : list T) (index : nat) (v : T) (picked : option nat) :
    res (list T * nat * option nat) :=
  match fuel with
  | O => Fail OutOfFuel
  | S fuel =>
      if length d <=? get_left index then Ok (d, index, picked)
      else
        let* picked_child := pick_child d cache index in
        let* p := item d picked_child in
        let* c := cmp_ v p in
        if negb c then Ok (d, index, Some picked_child)
        else downheap_loop fuel cache (<[index := p]> d) picked_child v (Some picked_child)
  end.
Definition downheap (h : BinaryHeap T) (index : nat) : res (BinaryHeap T) :=
  let* v := item (data_ h) index in
  let* (d, index, picked) := downheap_loop (S (length (data_ h))) (root_cmp_cache_ h) (data_ h) index v None in
  Ok (mkHeap (<[index := v]> d) (if index =? 0 then picked else None)).

Definition push (h : BinaryHeap T) (value : T) : res (BinaryHeap T) :=
  let d := data_ h ++ [value] in upheap d (length d - 1).
Definition top (h : BinaryHeap T) : res T :=
  let* _ := assert_ (negb (empty h)) in item (data_ h) 0.
Definition replace_top (h : BinaryHeap T) (value : T) : res (BinaryHeap T) :=
  let* _ := assert_ (negb (empty h)) in
  downheap (mkHeap (<[0 := value]> (data_ h)) (root_cmp_cache_ h)) get_root.
Definition pop (h : BinaryHeap T) : res (BinaryHeap T) :=
  let* _ := assert_ (negb (empty h)) in
  let d := data_ h in
  let* d := if 1 <? length d then let* b := item d (length d - 1) in Ok (<[0 := b]> d) else Ok d in
  let d := take (length d - 1) d in
  if negb (length d =? 0) then downheap (mkHeap d (root_cmp_cache_ h)) get_root else Ok (mkHeap d None).
Definition clear (h : BinaryHeap T) : BinaryHeap T := mkHeap [] None.
Definition swap (h other : BinaryHeap T) : BinaryHeap T * BinaryHeap T := (other, h).

(** ** The order *)
(** [ge a b]: [a] need not be below [b]. *)
Class HeapOrder (P : T → Prop) (ge : T → T → Prop) := {
  cmp_spec a b : P a → P b → ∃ c, cmp_ a b = Ok c ∧ if c then ge b a else ge a b;
  ge_trans a b c : P a → P b → P c → ge a b → ge b c → ge a c }.
End Heap.

(** ** Lemmas *)
Lemma swap_lookup {T} (d : list T) i j x y n :
  d !! i = Some x → d !! j = Some y →
  <[j := x]> (<[i := y]> d) !! n = if decide (n = j) then Some x else if decide (n = i) then Some y else d !! n.
Proof.
  intros Hi%lookup_lt_Some Hj%lookup_lt_Some. destruct (decide (n = j)) as [->|].
  - apply list_lookup_insert_eq. by rewrite length_insert.
  - rewrite list_lookup_insert_ne by done. destruct (decide (n = i)) as [->|]; [by apply list_lookup_insert_eq|].
    by rewrite list_lookup_insert_ne.
Qed.
Lemma swap_perm {T} (d : list T) i j x y :
  d !! i = Some x → d !! j = Some y → <[j := x]> (<[i := y]> d) ≡ₚ d.
Proof.
  intros Hi Hj. apply Permutation_inj. split; [by rewrite !length_insert|].
  exists (λ n, if decide (n = j) then i else if decide (n = i) then j else n). split.
  - intros n m. repeat case_decide; congruence.
  - intros n. rewrite (swap_lookup d i j x y) by done. repeat case_decide; congruence.
Qed.

Lemma parent_left i : get_parent (get_left i) = i.
Proof. unfold get_parent, get_left. rewrite Nat.add_sub, Nat.mul_comm. apply Nat.div_mul. lia. Qed.
Lemma parent_right i : get_parent (get_right i) = i.
Proof. unfold get_parent, get_right. symmetry. apply (Nat.div_unique _ _ _ 1); lia. Qed.
Lemma parent_cases i k : 0 < i → get_parent i = k ↔ i = get_left k ∨ i = get_right k.
Proof.
  intros Hi. split; [|intros [->| ->]; [apply parent_left|apply parent_right]]. unfold get_parent, get_left, get_right. intros <-.
  pose proof (Nat.div_mod (i - 1) 2 ltac:(lia)). pose proof (Nat.mod_upper_bound (i - 1) 2 ltac:(lia)). lia.
Qed.
Lemma parent_lt i : 0 < i → get_parent i < i.
Proof. intros Hi. unfold get_parent. pose proof (Nat.Div0.div_le_mono (i - 1) (i - 1) 2). pose proof (Nat.div_le_upper_bound (i - 1) 2 (i - 1)). lia. Qed.

Section Laws.
Context {T : Type} (cmp_ : T → T → res bool) (P : T → Prop) (ge : T → T → Prop) `{HO : !HeapOrder cmp_ P ge}.

(** The element at [i] is not above its parent. *)
Definition ordered (d : list T) (i : nat) : Prop :=
  ∀ x y, d !! get_parent i = Some x → d !! i = Some y → ge x y.
Definition heap_ok (d : list T) : Prop := ∀ i, 0 < i → ordered d i.

(** The cached child of the root is not below its sibling. *)
Definition cache_ok (d : list T) (cache : option nat) : Prop :=
  match cache with
  | None => True
  | Some c => c < length d → get_parent c = 0 ∧ 0 < c ∧ ∀ i x y, 0 < i → get_parent i = 0 → d !! c = Some x → d !! i = Some y → ge x y
  end.
Definition valid_heap (h : BinaryHeap T) : Prop := heap_ok (data_ h) ∧ cache_ok (data_ h) (root_cmp_cache_ h) ∧ Forall P (data_ h).

(** All but the order of [k] and its parent; all but that of [k] and its children. *)
Definition up_inv (d : list T) (k : nat) : Prop :=
  (∀ i, 0 < i → i ≠ k → ordered d i) ∧
  ∀ i x y, 0 < k → 0 < i → get_parent i = k → d !! get_parent k = Some x → d !! i = Some y → ge x y.
Definition down_inv (d : list T) (k : nat) : Prop :=
  (∀ i, 0 < i → get_parent i ≠ k → ordered d i) ∧
  ∀ i x y, 0 < k → 0 < i → get_parent i = k → d !! get_parent k = Some x → d !! i = Some y → ge x y.

Lemma up_step d k x v :
  0 < k → d !! k = Some v → d !! get_parent k = Some x → ge v x → Forall P d → up_inv d k →
  up_inv (<[get_parent k := v]> (<[k := x]> d)) (get_parent k).
Proof.
  intros Hk Hv Hx Hge HP [Ho Hg]. pose proof (parent_lt k Hk) as Hpk. rewrite Forall_lookup in HP.
  assert (Hsib : ∀ i y, 0 < i → i ≠ k → get_parent i = get_parent k → d !! i = Some y → ge x y).
  { intros i y Hi Hik Hp Hy. eapply Ho; [exact Hi|done|by rewrite Hp|done]. }
  split.
  - intros i Hi Hne a b. rewrite !(swap_lookup d k (get_parent k) v x) by done. pose proof (parent_lt i Hi).
    destruct (decide (i = get_parent k)) as [|_]; [done|]. destruct (decide (get_parent i = get_parent k)) as [E|E].
    + intros [= <-]. destruct (decide (i = k)) as [->|]; [by intros [= <-]|]. intros Hb.
      eapply (ge_trans cmp_ v x b); eauto.
    + destruct (decide (i = k)) as [->|Hik]; [done|]. destruct (decide (get_parent i = k)) as [Hc|Hc].
      * intros [= <-] Hb. by eapply Hg.
      * by apply Ho.
  - intros i a b Hp0 Hi Hp. pose proof (parent_lt (get_parent k) Hp0). pose proof (parent_lt i Hi).
    rewrite !(swap_lookup d k (get_parent k) v x) by done.
    rewrite (decide_False (P := get_parent (get_parent k) = get_parent k)), (decide_False (P := get_parent (get_parent k) = k)) by lia. intros Ha.
    assert (Hax : ge a x) by (eapply (Ho (get_parent k)); [lia|lia|done|done]).
    rewrite decide_False by lia. destruct (decide (i = k)) as [->|]; [by intros [= <-]|]. intros Hb.
    eapply (ge_trans cmp_ a x b); eauto.
Qed.

Lemma down_step d k c x v :
  0 < c → get_parent c = k → d !! k = Some v → d !! c = Some x → ge x v →
  (∀ i y, 0 < i → get_parent i = k → d !! i = Some y → ge x y) → down_inv d k →
  down_inv (<[c := v]> (<[k := x]> d)) c.
Proof.
  intros Hc Hp Hv Hx Hge Hall [Ho Hg]. pose proof (parent_lt c Hc) as Hlt. split.
  - intros i Hi Hne a b. rewrite !(swap_lookup d k c v x) by done. pose proof (parent_lt i Hi).
    rewrite (decide_False (P := get_parent i = c)) by done. destruct (decide (get_parent i = k)) as [E|E].
    + intros [= <-]. destruct (decide (i = c)) as [->|]; [by intros [= <-]|]. rewrite decide_False by lia. by apply Hall.
    + rewrite (decide_False (P := i = c)) by congruence. destruct (decide (i = k)) as [->|]; [|by apply Ho].
      intros Ha [= <-]. eapply (Hg c); done.
  - intros i a b _ Hi Hpi. pose proof (parent_lt i Hi). rewrite !(swap_lookup d k c v x) by done.
    rewrite (decide_False (P := get_parent c = c)), (decide_True (P := get_parent c = k)) by lia. intros [= <-].
    rewrite !decide_False by lia. apply Ho; [done|lia|]. by rewrite Hpi.
Qed.

Lemma item_some (d : list T) i x : d !! i = Some x → item d i = Ok x.
Proof. intros Hx. unfold item. by rewrite Hx. Qed.
Lemma ge_refl x : P x → ge x x.
Proof. intros Hx. destruct (cmp_spec cmp_ x x Hx Hx) as ([] & _ & Hg); exact Hg. Qed.

Lemma pick_child_spec d cache k :
  get_left k < length d → (∀ i x, k < i → d !! i = Some x → P x) → (k = 0 → cache_ok d cache) →
  ∃ c x, pick_child cmp_ d cache k = Ok c ∧ 0 < c ∧ get_parent c = k ∧ d !! c = Some x ∧
    ∀ i y, 0 < i → get_parent i = k → d !! i = Some y → ge x y.
Proof.
  intros Hl HP Hcache. unfold pick_child. replace (get_left k + 1 =? get_right k) with true by (symmetry; apply Nat.eqb_eq; unfold get_left, get_right; lia).
  cbn [assert_ res_bind]. replace (get_left k + 1) with (get_right k) by (unfold get_left, get_right; lia).
  assert (0 < get_left k ∧ k < get_left k ∧ k < get_right k ∧ 0 < get_right k) as (H1 & H2 & H3 & H4) by (unfold get_left, get_right; lia).
  destruct (match cache with Some c => _ | None => None end) as [c|] eqn:E.
  { destruct cache as [c'|]; [|done]. destruct ((k =? 0) && (c' <? length d)) eqn:E'; [|done]. injection E as ->.
    apply andb_true_iff in E' as [->%Nat.eqb_eq Hc%Nat.ltb_lt]. destruct (Hcache eq_refl Hc) as (Hp & Hc0 & Hall).
    destruct (lookup_lt_is_Some_2 d c Hc) as [x Hx]. exists c, x. split_and!; try done. intros i y Hi Hpi Hy. by eapply Hall. }
  destruct (lookup_lt_is_Some_2 d _ Hl) as [l Hll]. destruct (Nat.ltb_spec (get_right k) (length d)) as [Hr|Hr].
  - destruct (lookup_lt_is_Some_2 d _ Hr) as [r Hrr]. rewrite (item_some _ _ _ Hll), (item_some _ _ _ Hrr). cbn [res_bind].
    pose proof (HP _ _ H2 Hll) as HPl. pose proof (HP _ _ H3 Hrr) as HPr.
    destruct (cmp_spec cmp_ l r HPl HPr) as ([] & -> & Hb); cbn [res_bind].
    + exists (get_right k), r. split_and!; try done; [apply parent_right|]. intros i y Hi Hpi%parent_cases Hy; [|done].
      destruct Hpi as [-> | ->]; simplify_eq; [done|by apply ge_refl].
    + exists (get_left k), l. split_and!; try done; [apply parent_left|]. intros i y Hi Hpi%parent_cases Hy; [|done].
      destruct Hpi as [-> | ->]; simplify_eq; [by apply ge_refl|done].
  - exists (get_left k), l. split_and!; try done; [apply parent_left|]. intros i y Hi Hpi%parent_cases Hy; [|done].
    destruct Hpi as [-> | ->]; [simplify_eq; by apply ge_refl, (HP _ _ H2 Hll)|]. apply lookup_ge_None_2 in Hr. congruence.
Qed.

Lemma upheap_loop_spec fuel d k v :
  k < fuel → k < length d → Forall P (<[k := v]> d) → up_inv (<[k := v]> d) k →
  ∃ d' k', upheap_loop cmp_ fuel d k v = Ok (d', k') ∧ heap_ok (<[k' := v]> d') ∧ <[k' := v]> d' ≡ₚ <[k := v]> d.
Proof.
  revert d k. induction fuel as [|fuel IH]; intros d k Hf Hk HP Hinv; [lia|]. simpl. unfold get_root.
  destruct (Nat.ltb_spec 0 k) as [Hk0|Hk0]; [|exists d, k; split_and!; try done; intros i Hi; apply Hinv; lia].
  pose proof (parent_lt k Hk0) as Hpk. destruct (lookup_lt_is_Some_2 d (get_parent k)) as [p Hp]; [lia|].
  rewrite (item_some _ _ _ Hp). cbn [res_bind].
  assert (Hv' : <[k := v]> d !! k = Some v) by by apply list_lookup_insert_eq.
  assert (Hp' : <[k := v]> d !! get_parent k = Some p) by (by rewrite list_lookup_insert_ne by lia).
  assert (HPv : P v) by (exact (proj1 (Forall_lookup _ _) HP _ _ Hv')).
  assert (HPp : P p) by (exact (proj1 (Forall_lookup _ _) HP _ _ Hp')).
  destruct (cmp_spec cmp_ p v HPp HPv) as ([] & -> & Hge); cbn [res_bind negb].
  - assert (Hsw : <[get_parent k := v]> (<[k := p]> (<[k := v]> d)) ≡ₚ <[k := v]> d) by by apply swap_perm.
    pose proof (up_step _ k p v Hk0 Hv' Hp' Hge HP Hinv) as Hinv'. rewrite list_insert_insert_eq in Hsw, Hinv'.
    destruct (IH (<[k := p]> d) (get_parent k)) as (d' & k' & -> & Hok & Hperm); [lia|by rewrite length_insert; lia|by rewrite Hsw|done|].
    exists d', k'. split_and!; try done. by rewrite Hperm.
  - exists d, k. split_and!; try done. intros i Hi. destruct (decide (i = k)) as [->|]; [|by apply Hinv].
    intros a b Ha Hb. by simplify_eq.
Qed.

Lemma downheap_loop_spec fuel cache d k v picked :
  length d < fuel + k → k < length d → Forall P (<[k := v]> d) → down_inv (<[k := v]> d) k →
  (k = 0 → cache_ok d cache ∧ picked = None) →
  ∃ d' k' picked', downheap_loop cmp_ fuel cache d k v picked = Ok (d', k', picked') ∧ k ≤ k' ∧
    heap_ok (<[k' := v]> d') ∧ <[k' := v]> d' ≡ₚ <[k := v]> d ∧ (k' = 0 → cache_ok (<[k' := v]> d') picked').
Proof.
  revert d k picked. induction fuel as [|fuel IH]; intros d k picked Hf Hk HP Hinv H0; [lia|]. simpl.
  assert (Hne : ∀ i, 0 < i → get_parent i = k → <[k := v]> d !! i = d !! i).
  { intros i Hi Hp. pose proof (parent_lt i Hi). apply list_lookup_insert_ne. lia. }
  assert (Hv' : <[k := v]> d !! k = Some v) by by apply list_lookup_insert_eq.
  rewrite Forall_lookup in HP. destruct (Nat.leb_spec (length d) (get_left k)) as [Hl|Hl].
  { exists d, k, picked. split_and!; try done; [|intros ->; by destruct (H0 eq_refl) as [_ ->]]. intros i Hi. destruct (decide (get_parent i = k)) as [E|E]; [|by apply Hinv].
    intros a b _ Hb. rewrite Hne in Hb by done. apply lookup_lt_Some in Hb.
    apply parent_cases in E; [|done]. unfold get_left, get_right in *. lia. }
  destruct (pick_child_spec d cache k) as (c & x & -> & Hc & Hpc & Hx & Hall); [done| |by intros ->; apply H0|].
  { intros i y Hi Hy. apply (HP i). by rewrite list_lookup_insert_ne by lia. }
  cbn [res_bind]. rewrite (item_some _ _ _ Hx). cbn [res_bind]. rewrite <-Hne in Hx by done.
  assert (Hall' : ∀ i y, 0 < i → get_parent i = k → <[k := v]> d !! i = Some y → ge x y) by (intros i y ? ?; rewrite Hne by done; by apply Hall).
  destruct (cmp_spec cmp_ v x (HP _ _ Hv') (HP _ _ Hx)) as ([] & -> & Hge); cbn [res_bind negb].
  - pose proof (parent_lt c Hc). assert (Hsw : <[c := v]> (<[k := x]> (<[k := v]> d)) ≡ₚ <[k := v]> d) by by apply swap_perm.
    pose proof (down_step _ k c x v Hc Hpc Hv' Hx Hge Hall' Hinv) as Hinv'. rewrite list_insert_insert_eq in Hsw, Hinv'.
    apply lookup_lt_Some in Hx. rewrite length_insert in Hx.
    destruct (IH (<[k := x]> d) c (Some c)) as (d' & k' & pk & -> & Hle & Hok & Hperm & _);
      [rewrite length_insert; lia..|by rewrite Hsw; apply Forall_lookup|done|lia|].
    exists d', k', pk. split_and!; try done; [lia|by rewrite Hperm|lia].
  - assert (Hany : ∀ i y, 0 < i → get_parent i = k → <[k := v]> d !! i = Some y → ge v y).
    { intros i y Hi Hp Hy. apply (ge_trans cmp_ v x y); eauto. }
    exists d, k, (Some c). split_and!; try done.
    + intros i Hi. destruct (decide (get_parent i = k)) as [E|E]; [|by apply Hinv].
      intros a b Ha Hb. rewrite E in Ha. simplify_eq. by eapply Hany.
    + intros -> _. split_and!; try done. intros i a b Hi Hp Ha Hb. simplify_eq. by eapply Hall'.
Qed.

(** A heap but for its root, whatever that is. *)
Definition near_heap (d : list T) (cache : option nat) : Prop :=
  (∀ i, 0 < i → get_parent i ≠ 0 → ordered d i) ∧ cache_ok d cache ∧ Forall P (tail d).

Lemma near_root x y tl cache : near_heap (x :: tl) cache → near_heap (y :: tl) cache.
Proof.
  intros (Ho & Hc & HP). assert (Hl : ∀ i, 0 < i → (y :: tl) !! i = (x :: tl) !! i) by (intros [|i] ?; [lia|done]). split_and!.
  - intros i Hi Hp a b. rewrite !Hl by lia. by apply Ho.
  - unfold cache_ok in *. destruct cache as [c|]; [|done]. intros Hlt. destruct (Hc Hlt) as (H1 & H2 & H3).
    split_and!; try done. intros i a b Hi. rewrite !Hl by done. by apply H3.
  - done.
Qed.
Lemma near_prefix d e cache : d ≠ [] → near_heap (d ++ e) cache → near_heap d cache.
Proof.
  intros Hd (Ho & Hc & HP). assert (Hl : ∀ i x, d !! i = Some x → (d ++ e) !! i = Some x) by (intros; by apply lookup_app_l_Some). split_and!.
  - intros i Hi Hp a b Ha Hb. by apply (Ho i); auto.
  - unfold cache_ok in *. destruct cache as [c|]; [|done]. intros Hlt. rewrite length_app in Hc. destruct (Hc ltac:(lia)) as (H1 & H2 & H3).
    split_and!; try done. intros i a b Hi Hp Ha Hb. by eapply (H3 i); auto.
  - destruct d as [|x d]; [done|]. simpl in HP. by apply Forall_app in HP as [? _].
Qed.
Lemma valid_near h : valid_heap h → near_heap (data_ h) (root_cmp_cache_ h).
Proof. intros (Ho & Hc & HP). split_and!; try done; [intros i Hi _; by apply Ho|]. destruct (data_ h); [done|]. by inversion HP. Qed.

Lemma downheap_spec v tl cache :
  near_heap (v :: tl) cache → P v →
  ∃ h', downheap cmp_ (mkHeap (v :: tl) cache) 0 = Ok h' ∧ valid_heap h' ∧ data_ h' ≡ₚ v :: tl.
Proof.
  intros (Ho & Hc & HP) Hv. unfold downheap. cbn [data_ root_cmp_cache_]. change (item (v :: tl) 0) with (Ok v). cbn [res_bind].
  destruct (downheap_loop_spec (S (length (v :: tl))) cache (v :: tl) 0 v None) as (d' & k' & pk & -> & _ & Hok & Hperm & Hpk);
    [lia|simpl; lia|by constructor|split; [exact Ho|lia]|done|].
  cbn [res_bind]. eexists. split; [done|]. split; [|exact Hperm]. split_and!; cbn [data_ root_cmp_cache_]; [done| |].
  - destruct (Nat.eqb_spec k' 0) as [->|]; [by apply Hpk|done].
  - rewrite Hperm. by constructor.
Qed.

Lemma replace_top_spec x v tl cache :
  near_heap (x :: tl) cache → P v →
  ∃ h', replace_top cmp_ (mkHeap (x :: tl) cache) v = Ok h' ∧ valid_heap h' ∧ data_ h' ≡ₚ v :: tl.
Proof. intros Hn Hv. apply downheap_spec; [by eapply near_root|done]. Qed.

Lemma pop_spec x tl cache :
  near_heap (x :: tl) cache → ∃ h', pop cmp_ (mkHeap (x :: tl) cache) = Ok h' ∧ valid_heap h' ∧ data_ h' ≡ₚ tl.
Proof.
  intros Hn. unfold pop. cbn [data_ root_cmp_cache_ empty]. change (negb (empty _)) with true. cbn [assert_ res_bind].
  destruct tl as [|b tl _] using rev_ind; [eexists; split; [done|]; split; [|done]; split_and!; [done|done|by constructor]|].
  rewrite (proj2 (Nat.ltb_lt _ _)) by (simpl; rewrite length_app; simpl; lia).
  rewrite (item_some _ _ b) by (apply (list_lookup_middle (x :: tl)); simpl; rewrite length_app; simpl; lia). cbn [res_bind].
  replace (take _ (<[0 := b]> (x :: tl ++ [b]))) with (b :: tl)
    by (simpl; rewrite length_app; simpl; replace (length tl + 1 - 0) with (S (length tl)) by lia; simpl; by rewrite take_app_length).
  unfold get_root. cbn [length Nat.eqb negb]. destruct (downheap_spec b tl cache) as (h' & -> & Hv & Hp).
  - apply (near_root x). apply (near_prefix (x :: tl) [b]); [done|exact Hn].
  - destruct Hn as (_ & _ & HP). simpl in HP. apply Forall_app in HP as [_ HP]. by inversion HP.
  - exists h'. split_and!; try done. rewrite Hp. by rewrite Permutation_app_comm.
Qed.

Lemma push_spec h v : valid_heap h → P v → ∃ h', push cmp_ h v = Ok h' ∧ valid_heap h' ∧ data_ h' ≡ₚ v :: data_ h.
Proof.
  intros (Ho & _ & HP) Hv. unfold push, upheap. set (d := data_ h) in *. rewrite length_app. simpl length. rewrite Nat.add_sub.
  assert (Hlast : (d ++ [v]) !! length d = Some v) by by apply list_lookup_middle. rewrite (item_some _ _ _ Hlast). cbn [res_bind].
  assert (HPn : Forall P (d ++ [v])) by (apply Forall_app; auto). pose proof (list_insert_id _ _ _ Hlast) as Hid.
  destruct (upheap_loop_spec (S (length d)) (d ++ [v]) (length d) v) as (d' & k' & -> & Hok & Hperm);
    [lia|rewrite length_app; simpl; lia|by rewrite Hid|rewrite Hid; split|].
  - intros i Hi Hne a b Ha Hb. pose proof (parent_lt i Hi). pose proof (lookup_lt_Some _ _ _ Hb) as Hlt. rewrite length_app in Hlt. simpl in Hlt.
    rewrite lookup_app_l in Ha, Hb by lia. by eapply Ho.
  - intros i a b _ Hi Hp _ Hb. pose proof (parent_lt i Hi). apply lookup_lt_Some in Hb. rewrite length_app in Hb. simpl in Hb. lia.
  - cbn [res_bind]. eexists. split; [done|]. rewrite Hid in Hperm. split; [|cbn; rewrite Hperm; by rewrite Permutation_app_comm].
    split_and!; [done|done|cbn; by rewrite Hperm].
Qed.

Lemma top_spec x tl cache : valid_heap (mkHeap (x :: tl) cache) → top (mkHeap (x :: tl) cache) = Ok x ∧ Forall (ge x) (x :: tl).
Proof.
  intros (Ho & _ & HP). cbn [data_] in *. split; [done|]. apply Forall_lookup. rewrite Forall_lookup in HP.
  intros i. induction (lt_wf i) as [i _ IH]. intros y Hy. destruct (decide (i = 0)) as [->|].
  - injection Hy as <-. apply ge_refl. by apply (HP 0).
  - pose proof (parent_lt i ltac:(lia)) as Hlt. pose proof (lookup_lt_Some _ _ _ Hy) as Hi.
    destruct (lookup_lt_is_Some_2 (x :: tl) (get_parent i)) as [z Hz]; [lia|].
    apply (ge_trans cmp_ x z y); [by apply (HP 0)|by eapply HP|by eapply HP|by eapply IH|]. by eapply (Ho i); [lia|..].
Qed.
End Laws.

(** C26: the heap keeps its order and its elements.  From a valid heap, [push] adds
    the element, [top] is an element that no other exceeds, and, even when the key
    of the root has changed since it was placed, [replace_top] replaces the root
    and [pop] removes it; each gives a valid heap again, the remembered larger
    child of the root included, and no assertion fails. *)
Theorem heap_operations {T} (cmp_ : T → T → res bool) P ge :
  HeapOrder cmp_ P ge →
  (∀ h v, valid_heap P ge h → P v → ∃ h', push cmp_ h v = Ok h' ∧ valid_heap P ge h' ∧ data_ h' ≡ₚ v :: data_ h) ∧
  (∀ x tl cache, valid_heap P ge (mkHeap (x :: tl) cache) →
     top (mkHeap (x :: tl) cache) = Ok x ∧ Forall (ge x) (x :: tl) ∧ near_heap P ge (x :: tl) cache) ∧
  (∀ x v tl cache, near_heap P ge (x :: tl) cache → P v →
     ∃ h', replace_top cmp_ (mkHeap (x :: tl) cache) v = Ok h' ∧ valid_heap P ge h' ∧ data_ h' ≡ₚ v :: tl) ∧
  (∀ x tl cache, near_heap P ge (x :: tl) cache →
     ∃ h', pop cmp_ (mkHeap (x :: tl) cache) = Ok h' ∧ valid_heap P ge h' ∧ data_ h' ≡ₚ tl).
Proof.
  intros HO. split; [apply push_spec; done|]. split; [|split; [apply replace_top_spec; done|apply pop_spec; done]].
  intros x tl cache Hv. destruct (top_spec cmp_ P ge x tl cache Hv) as [Ht Hge]. split_and!; try done. exact (valid_near P ge _ Hv).
Qed.

Definition nat_cmp (a b : nat) : res bool := Ok (a <? b).
#[local] Instance nat_heap_order : HeapOrder nat_cmp (λ _, True) (λ a b, b ≤ a).
Proof.
  split; [|intros; lia]. intros a b _ _. exists (a <? b). split; [done|]. destruct (Nat.ltb_spec a b); lia.
Qed.
Lemma heap_operations_witness :
  ∃ h', push nat_cmp (mkHeap [5; 3; 4] (Some 2)) 9 = Ok h' ∧ data_ h' ≡ₚ [9; 5; 3; 4] ∧
  ∃ h'', pop nat_cmp (mkHeap [5; 3; 4] (Some 2)) = Ok h'' ∧ data_ h'' ≡ₚ [3; 4].
Proof.
  destruct (heap_operations nat_cmp _ _ nat_heap_order) as (Hpush & Htop & _ & Hpop).
  assert (Hv : valid_heap (λ _, True) (λ a b, b ≤ a) (mkHeap [5; 3; 4] (Some 2))).
  { split; [|split; [intros _; split_and!|by repeat constructor]].
    - intros [|[|[|i]]] Hi x y Hx Hy; [lia|..]; vm_compute in Hx, Hy; simplify_eq; lia.
    - done.
    - lia.
    - intros [|[|[|i]]] x y Hi _ Hx Hy; [lia|..]; vm_compute in Hx, Hy; simplify_eq; lia. }
  destruct (Hpush _ 9 Hv I) as (h' & H1 & _ & H2). destruct (Htop _ _ _ Hv) as (_ & _ & Hn). destruct (Hpop _ _ _ Hn) as (h'' & H3 & _ & H4).
  exists h'. split; [exact H1|]. split; [exact H2|]. exists h''. exact (conj H3 H4).
Defined.
