(* ===== verification/MergeIter.v ===== *)
(** * The merging iterator of compaction (rocksdb [table/compaction_merging_iterator.cc], [iterator_wrapper.h])

    Merges sorted runs, and the start keys of their range tombstones, into one
    sorted stream.  A run is reached through the interface of
    [table/internal_iterator.h]; its child iterator can replace the tombstone
    iterator in its slot of [range_tombstone_iters_] (a [LevelIterator] does when it
    enters a file), so the operations of a child take and return the slot.  Heap
    items are pointers into [children_] and [pinned_heap_item_]. *)
From S2P Require Import Prelude Slice Coding Comparator DbFormat Heap.
Local Open Scope Z_scope.

(** [None]: [Status::OK()]; otherwise the code of the error. *)
Definition Status : Type := option Z.
Inductive IterBoundCheck := kUnknown | kOutOfBound | kInbound.
Record IterateResult := mkResult { r_key : bytes; bound_check_result : IterBoundCheck; value_prepared : bool }.

(** ** Interfaces *)
(** [TruncatedRangeDelIterator]. *)
Class TombOps (R : Type) := {
  rd_valid : R → bool;
  rd_start_key : R → ParsedInternalKey;
  rd_next : R → R;
  rd_seek_first : R → R;
  rd_seek : bytes → R → R }.
(** [InternalIterator], with the slot of its tombstone iterator. *)
Class IterOps (C R : Type) := {
  it_valid : C → bool;
  it_key : C → bytes;
  it_value : C → bytes;
  it_status : C → Status;
  it_sentinel : C → bool;
  it_lower : C → bool;
  it_next_result : C → option R → C * option R * option IterateResult;
  it_seek_first : C → option R → C * option R;
  it_seek : bytes → C → option R → C * option R }.

(** ** [IteratorWrapper]: an iterator with its cached validity and key *)
Record IteratorWrapper (C : Type) := mkWrapper { iter_ : C; valid_ : bool; result_ : IterateResult }.
Arguments mkWrapper {C}.
Arguments iter_ {C}.
Arguments valid_ {C}.
Arguments result_ {C}.

Inductive HeapItem := ITERATOR (level : nat) | DELETE_RANGE_START (level : nat).
#[global] Instance HeapItem_eq_dec : EqDecision HeapItem.
Proof. solve_decision. Defined.
Definition level (it : HeapItem) : nat := match it with ITERATOR l => l | DELETE_RANGE_START l => l end.
Definition same_type (a b : HeapItem) : bool :=
  match a, b with ITERATOR _, ITERATOR _ => true | DELETE_RANGE_START _, DELETE_RANGE_START _ => true | _, _ => false end.

Record CMI (C R : Type) := mkCMI {
  children_ : list (IteratorWrapper C);
  tombstone_str : list bytes;  (* of pinned_heap_item_ *)
  range_tombstone_iters_ : list (option R);
  current_ : option HeapItem;
  status_ : Status;
  minHeap_ : BinaryHeap HeapItem }.
Arguments mkCMI {C R}.
Arguments children_ {C R}.
Arguments tombstone_str {C R}.
Arguments range_tombstone_iters_ {C R}.
Arguments current_ {C R}.
Arguments status_ {C R}.
Arguments minHeap_ {C R}.

Section Merge.
Context `{UC : Comparator} {C R : Type} `{TO : !TombOps R} `{IO : !IterOps C R}.

Definition status_ok (s : Status) : bool := match s with None => true | Some _ => false end.

Definition Update (w : IteratorWrapper C) : res (IteratorWrapper C) :=
  if it_valid (iter_ w) then
    let* _ := assert_ (status_ok (it_status (iter_ w))) in
    Ok (mkWrapper (iter_ w) true (mkResult (it_key (iter_ w)) kUnknown false))
  else Ok (mkWrapper (iter_ w) false (result_ w)).
Definition no_result : IterateResult := mkResult [] kUnknown true.
Definition wrapper_Set (c : C) : res (IteratorWrapper C) := Update (mkWrapper c false no_result).
Definition wrapper_key (w : IteratorWrapper C) : res bytes := let* _ := assert_ (valid_ w) in Ok (r_key (result_ w)).
Definition wrapper_value (w : IteratorWrapper C) : res bytes := let* _ := assert_ (valid_ w) in Ok (it_value (iter_ w)).
Definition wrapper_Next (w : IteratorWrapper C) (slot : option R) : res (IteratorWrapper C * option R) :=
  let '(c, slot, result) := it_next_result (iter_ w) slot in
  let w' := match result with Some r => mkWrapper c true r | None => mkWrapper c false (result_ w) end in
  let* _ := assert_ (negb (valid_ w') || status_ok (it_status c)) in
  Ok (w', slot).
Definition wrapper_SeekToFirst (w : IteratorWrapper C) (slot : option R) : res (IteratorWrapper C * option R) :=
  let '(c, slot) := it_seek_first (iter_ w) slot in
  let* w := Update (mkWrapper c (valid_ w) (result_ w)) in Ok (w, slot).
Definition wrapper_Seek (k : bytes) (w : IteratorWrapper C) (slot : option R) : res (IteratorWrapper C * option R) :=
  let '(c, slot) := it_seek k (iter_ w) slot in
  let* w := Update (mkWrapper c (valid_ w) (result_ w)) in Ok (w, slot).

(** ** State updates *)
Definition child (s : CMI C R) (i : nat) : res (IteratorWrapper C) := deref (children_ s !! i).
Definition slot (s : CMI C R) (i : nat) : res (option R) := deref (range_tombstone_iters_ s !! i).
Definition set_child (s : CMI C R) (i : nat) (w : IteratorWrapper C) : CMI C R :=
  mkCMI (<[i := w]> (children_ s)) (tombstone_str s) (range_tombstone_iters_ s) (current_ s) (status_ s) (minHeap_ s).
Definition set_slot (s : CMI C R) (i : nat) (r : option R) : CMI C R :=
  mkCMI (children_ s) (tombstone_str s) (<[i := r]> (range_tombstone_iters_ s)) (current_ s) (status_ s) (minHeap_ s).
Definition set_str (s : CMI C R) (i : nat) (k : bytes) : CMI C R :=
  mkCMI (children_ s) (<[i := k]> (tombstone_str s)) (range_tombstone_iters_ s) (current_ s) (status_ s) (minHeap_ s).
Definition set_heap (s : CMI C R) (h : BinaryHeap HeapItem) : CMI C R :=
  mkCMI (children_ s) (tombstone_str s) (range_tombstone_iters_ s) (current_ s) (status_ s) h.
Definition set_current (s : CMI C R) (c : option HeapItem) : CMI C R :=
  mkCMI (children_ s) (tombstone_str s) (range_tombstone_iters_ s) c (status_ s) (minHeap_ s).
Definition set_status (s : CMI C R) (st : Status) : CMI C R :=
  mkCMI (children_ s) (tombstone_str s) (range_tombstone_iters_ s) (current_ s) st (minHeap_ s).

(** ** [CompactionMergingIterator] *)
Definition item_key (s : CMI C R) (it : HeapItem) : res bytes :=
  match it with
  | ITERATOR i => let* w := child s i in wrapper_key w
  | DELETE_RANGE_START i => deref (tombstone_str s !! i)
  end.
(** [CompactionHeapItemComparator]. *)
Definition heap_cmp (s : CMI C R) (a b : HeapItem) : res bool :=
  let* ka := item_key s a in
  let* kb := item_key s b in
  let* r := CompareSlices ka kb in
  let* _ := assert_ (same_type a b || negb (r =? 0)) in
  Ok (0 <? r).
Definition heap_push (s : CMI C R) (it : HeapItem) : res (CMI C R) :=
  let* h := push (heap_cmp s) (minHeap_ s) it in Ok (set_heap s h).
Definition heap_replace_top (s : CMI C R) (it : HeapItem) : res (CMI C R) :=
  let* h := replace_top (heap_cmp s) (minHeap_ s) it in Ok (set_heap s h).
Definition heap_pop (s : CMI C R) : res (CMI C R) :=
  let* h := pop (heap_cmp s) (minHeap_ s) in Ok (set_heap s h).

Definition considerStatus (s : CMI C R) (st : Status) : CMI C R :=
  if negb (status_ok st) && status_ok (status_ s) then set_status s st else s.
Definition SetTombstoneForCompaction (s : CMI C R) (i : nat) (pik : ParsedInternalKey) : res (CMI C R) :=
  let* k := AppendInternalKey [] pik in Ok (set_str s i k).

Definition AddToMinHeapOrCheckStatus (s : CMI C R) (i : nat) : res (CMI C R) :=
  let* w := child s i in
  if valid_ w then
    let* _ := assert_ (status_ok (it_status (iter_ w))) in heap_push s (ITERATOR i)
  else Ok (considerStatus s (it_status (iter_ w))).
Definition InsertRangeTombstoneAtLevel (s : CMI C R) (i : nat) : res (CMI C R) :=
  let* o := slot s i in
  let* r := deref o in
  if rd_valid r then
    let* s := SetTombstoneForCompaction s i (rd_start_key r) in heap_push s (DELETE_RANGE_START i)
  else Ok s.
Definition CurrentForward (s : CMI C R) : res (option HeapItem) :=
  if negb (empty (minHeap_ s)) then let* t := top (minHeap_ s) in Ok (Some t) else Ok None.

(** [iter.Next()] of child [i], then its place in the heap: the common part of
    [Next] and [FindNextVisibleKey]. *)
Definition advance_child (s : CMI C R) (i : nat) : res (CMI C R) :=
  let* w := child s i in
  let* sl := slot s i in
  let* (w, sl) := wrapper_Next w sl in
  let s := set_slot (set_child s i w) i sl in
  if valid_ w then
    let* _ := assert_ (status_ok (it_status (iter_ w))) in heap_replace_top s (ITERATOR i)
  else heap_pop (considerStatus s (it_status (iter_ w))).

Fixpoint FindNextVisibleKey (fuel : nat) (s : CMI C R) : res (CMI C R) :=
  match fuel with
  | O => Fail OutOfFuel
  | S fuel =>
      if empty (minHeap_ s) then Ok s
      else
        let* current := top (minHeap_ s) in
        match current with
        | DELETE_RANGE_START _ => Ok s
        | ITERATOR i =>
            let* w := child s i in
            if negb (it_sentinel (iter_ w)) then Ok s
            else
              let* o := slot s i in
              let* _ := assert_ (match o with Some r => negb (rd_valid r) | None => true end) in
              let* s := advance_child s i in
              let* o := slot s i in
              let* s := match o with Some _ => InsertRangeTombstoneAtLevel s i | None => Ok s end in
              FindNextVisibleKey fuel s
        end
  end.
Definition finish (fuel : nat) (s : CMI C R) : res (CMI C R) :=
  let* s := FindNextVisibleKey fuel s in
  let* c := CurrentForward s in
  Ok (set_current s c).

Definition Valid (s : CMI C R) : bool := match current_ s with Some _ => status_ok (status_ s) | None => false end.
Definition key (s : CMI C R) : res bytes :=
  let* _ := assert_ (Valid s) in let* c := deref (current_ s) in item_key s c.
Definition value (s : CMI C R) : res bytes :=
  let* _ := assert_ (Valid s) in
  let* c := deref (current_ s) in
  match c with ITERATOR i => let* w := child s i in wrapper_value w | DELETE_RANGE_START _ => Ok [] end.
Definition IsDeleteRangeSentinelKey (s : CMI C R) : res bool :=
  let* _ := assert_ (Valid s) in
  let* c := deref (current_ s) in
  Ok (match c with ITERATOR _ => false | DELETE_RANGE_START _ => true end).
Definition MayBeOutOfLowerBound (s : CMI C R) : res bool :=
  let* _ := assert_ (Valid s) in
  let* c := deref (current_ s) in
  match c with
  | DELETE_RANGE_START _ => Ok true
  | ITERATOR i => let* w := child s i in let* _ := assert_ (valid_ w) in Ok (it_lower (iter_ w))
  end.
Definition UpperBoundCheckResult (s : CMI C R) : res IterBoundCheck :=
  let* _ := assert_ (Valid s) in
  let* c := deref (current_ s) in
  match c with
  | DELETE_RANGE_START _ => Ok kUnknown
  | ITERATOR i => let* w := child s i in let* _ := assert_ (valid_ w) in Ok (bound_check_result (result_ w))
  end.

Definition advance_tomb (s : CMI C R) (i : nat) : res (CMI C R) :=
  let* o := slot s i in
  let* _ := assert_ (bool_decide (is_Some o)) in
  let* r := deref o in
  let r := rd_next r in
  let s := set_slot s i (Some r) in
  if rd_valid r then
    let* s := SetTombstoneForCompaction s i (rd_start_key r) in heap_replace_top s (DELETE_RANGE_START i)
  else heap_pop s.
Definition advance (s : CMI C R) (it : HeapItem) : res (CMI C R) :=
  match it with ITERATOR i => advance_child s i | DELETE_RANGE_START i => advance_tomb s i end.
Definition Next (fuel : nat) (s : CMI C R) : res (CMI C R) :=
  let* _ := assert_ (Valid s) in
  let* cf := CurrentForward s in
  let* _ := assert_ (bool_decide (current_ s = cf)) in
  let* c := deref (current_ s) in
  let* s := advance s c in
  finish fuel s.

(** [for (i : l) s = f(s, i)]. *)
Fixpoint for_each {A S : Type} (f : S → A → res S) (l : list A) (s : S) : res S :=
  match l with [] => Ok s | i :: l => let* s := f s i in for_each f l s end.

Definition seek_child (seek : IteratorWrapper C → option R → res (IteratorWrapper C * option R)) (s : CMI C R) (i : nat) : res (CMI C R) :=
  let* w := child s i in
  let* sl := slot s i in
  let* (w, sl) := seek w sl in
  AddToMinHeapOrCheckStatus (set_slot (set_child s i w) i sl) i.
Definition seek_tomb (seek : R → res R) (s : CMI C R) (i : nat) : res (CMI C R) :=
  let* o := slot s i in
  match o with
  | None => Ok s
  | Some r => let* r := seek r in InsertRangeTombstoneAtLevel (set_slot s i (Some r)) i
  end.
Definition restart (s : CMI C R) : CMI C R := set_status (set_heap s (clear (minHeap_ s))) None.
Definition SeekToFirst (fuel : nat) (s : CMI C R) : res (CMI C R) :=
  let s := restart s in
  let* s := for_each (seek_child wrapper_SeekToFirst) (seq 0 (length (children_ s))) s in
  let* s := for_each (seek_tomb (λ r, Ok (rd_seek_first r))) (seq 0 (length (range_tombstone_iters_ s))) s in
  finish fuel s.

(** [ParsedInternalKey pik; ParseInternalKey(target, &pik)], its status ignored. *)
Definition parse_target (target : bytes) : res ParsedInternalKey :=
  let n := length target in
  if (n <? kNumInternalBytes)%nat then Ok (mkParsed [] kMaxSequenceNumber kTypeDeletion)
  else
    let num := footer target in
    let* _ := assert_ (Z.land num 0xff <=? kMaxValue) in
    Ok (mkParsed (take (n - kNumInternalBytes) target) (Z.shiftr num 8) (Z.land num 0xff)).
Fixpoint skip_before (fuel : nat) (pik : ParsedInternalKey) (r : R) : res R :=
  match fuel with
  | O => Fail OutOfFuel
  | S fuel =>
      if rd_valid r && (CompareParsed (rd_start_key r) pik <? 0) then skip_before fuel pik (rd_next r) else Ok r
  end.
Definition Seek (fuel : nat) (target : bytes) (s : CMI C R) : res (CMI C R) :=
  let s := restart s in
  let* s := for_each (seek_child (wrapper_Seek target)) (seq 0 (length (children_ s))) s in
  let* pik := parse_target target in
  let* s := for_each (seek_tomb (λ r, skip_before fuel pik (rd_seek (user_key pik) r)))
              (seq 0 (length (range_tombstone_iters_ s))) s in
  finish fuel s.

Definition mkCompactionMergingIterator (children : list C) (range_tombstones : list (option R)) : res (CMI C R) :=
  let* ws := for_each (λ ws c, let* w := wrapper_Set c in Ok (ws ++ [w])) children [] in
  let* _ := assert_ (length range_tombstones =? length children)%nat in
  Ok (mkCMI ws (replicate (length children) []) range_tombstones None None (mkHeap [] None)).
End Merge.
