(* ===== verification/MergeIterThm.v ===== *)
(** * Correctness of the merging iterator of compaction

    What the merging iterator relies on about its runs (the contract documented in
    [table/internal_iterator.h] and in [compaction_merging_iterator.cc]) is the class
    [RunLaws]; against it, iterating gives every key of every run once, in order. *)
From S2P Require Import Prelude Slice Coding Comparator DbFormat Heap MergeIter.
Local Open Scope Z_scope.

Abbreviation key_le a b := (CompareParsed a b ≤ 0).

(** What an iterator still has to give.  [points]: the entries of a child, marked
    [true] at a file boundary; [starts]: the start keys of the tombstones in the
    slot; [pending]: those of the files the child has not entered yet. *)
Class RunLaws `{UC : Comparator} (C R : Type) `{TO : !TombOps R} `{IO : !IterOps C R} := {
  points : C → list (ParsedInternalKey * bytes * bool);
  starts : R → list ParsedInternalKey;
  pending : C → list ParsedInternalKey;
  it_ok : C → Prop;
  rd_ok : R → Prop;
  run_ok : C → option R → Prop;
  run_it_ok c o : run_ok c o → it_ok c;
  run_rd_ok c r : run_ok c (Some r) → rd_ok r;
  (* positions *)
  valid_points c : it_ok c → it_valid c = true ↔ points c ≠ [];
  valid_status c : it_ok c → it_valid c = true → it_status c = None;
  head_points c k b l : it_ok c → points c = (k, b) :: l →
    it_key c = encoded k.1 ∧ it_sentinel c = b ∧ valid_key k.1 ∧ Forall (λ p, key_le k.1 p.1.1) l;
  head_value c k l : it_ok c → points c = (k, false) :: l → it_value c = k.2;
  valid_starts r : rd_ok r → rd_valid r = true ↔ starts r ≠ [];
  head_starts r k l : rd_ok r → starts r = k :: l → rd_start_key r = k ∧ valid_key k ∧ Forall (λ q, key_le k q) l;
  (* a tombstone start key never equals a point or boundary key *)
  keys_distinct c r p k : it_ok c → rd_ok r → p ∈ points c → k ∈ starts r → CompareParsed p.1.1 k ≠ 0;
  (* the tombstones of a file start before its boundary, those of later files not before it *)
  boundary c r k l s : run_ok c (Some r) → points c = (k, true) :: l → s ∈ starts r → CompareParsed s k.1 < 0;
  pending_bound c o s : run_ok c o → s ∈ pending c → ∃ p, (p, true) ∈ points c ∧ key_le p.1 s;
  (* moving *)
  child_next c o k b l : run_ok c o → points c = (k, b) :: l → (b = true → from_option starts [] o = []) →
    let '(c', o', result) := it_next_result c o in
    points c' = l ∧ run_ok c' o' ∧
    match result with Some r => it_valid c' = true ∧ r_key r = it_key c' | None => it_valid c' = false end ∧
    if b then from_option starts [] o' ++ pending c' ≡ₚ pending c else o' = o ∧ pending c' = pending c;
  tomb_next c r k l : run_ok c (Some r) → starts r = k :: l → starts (rd_next r) = l ∧ run_ok c (Some (rd_next r));
  (* seeking: first the child, then the tombstone iterator it left in the slot *)
  opened : C → option R → Prop;
  seek_first c o : opened c o → let '(c', o') := it_seek_first c o in it_ok c' ∧ run_ok c' (rd_seek_first <$> o');
  seek_key t c o : opened c o → valid_key t → let '(c', o') := it_seek (encoded t) c o in
    it_ok c' ∧ Forall (λ p, key_le t p.1.1) (points c') ∧ run_ok c' (rd_seek (user_key t) <$> o') }.

Section Laws.
Context `{UC : Comparator} `{UL : !ComparatorLaws UC} {C R : Type} `{TO : !TombOps R} `{IO : !IterOps C R} `{RL : !RunLaws C R}.
Implicit Types (s : CMI C R) (it : HeapItem).

Definition slot_starts (o : option R) : list ParsedInternalKey := from_option starts [] o.

(** ** The key of a heap item *)
Definition item_pk s it : option ParsedInternalKey :=
  match it with
  | ITERATOR i => w ← children_ s !! i; (fst ∘ fst) <$> head (points (iter_ w))
  | DELETE_RANGE_START i => o ← range_tombstone_iters_ s !! i; head (slot_starts o)
  end.
Definition src_ok s it : Prop :=
  match it with
  | ITERATOR i => ∀ w, children_ s !! i = Some w → it_ok (iter_ w)
  | DELETE_RANGE_START i => ∀ r, range_tombstone_iters_ s !! i = Some (Some r) → rd_ok r
  end.
(** An item that can be compared: it has a key and refers to it. *)
Definition live s it : Prop := ∃ k, item_pk s it = Some k ∧ item_key s it = Ok (encoded k) ∧ valid_key k ∧ src_ok s it.
Definition before s a b : Prop := ∀ ka kb, item_pk s a = Some ka → item_pk s b = Some kb → key_le ka kb.

Lemma different_types_distinct s a b ka kb :
  src_ok s a → src_ok s b → same_type a b = false → item_pk s a = Some ka → item_pk s b = Some kb → CompareParsed ka kb ≠ 0.
Proof.
  assert (Hmain : ∀ i j ka kb, src_ok s (ITERATOR i) → src_ok s (DELETE_RANGE_START j) → item_pk s (ITERATOR i) = Some ka →
    item_pk s (DELETE_RANGE_START j) = Some kb → CompareParsed ka kb ≠ 0).
  { clear. intros i j ka kb Hi Hj. simpl in *. destruct (children_ s !! i) as [w|] eqn:Ew; [|done].
    destruct (range_tombstone_iters_ s !! j) as [[r|]|] eqn:Er; simpl; try done.
    destruct (points (iter_ w)) as [|p l] eqn:Ep; [done|]. destruct (starts r) as [|k' l'] eqn:Es; [done|]. simpl. intros [= <-] [= <-].
    apply (keys_distinct (iter_ w) r); [by apply Hi|by apply Hj|rewrite Ep|rewrite Es]; by left. }
  intros Ha Hb Ht Hka Hkb. destruct a as [i|i], b as [j|j]; try done; [by eapply Hmain|].
  intros E. apply (Hmain j i kb ka Hb Ha Hkb Hka). pose proof (CompareParsed_opp ka kb). lia.
Qed.

#[export] Instance item_order s : HeapOrder (heap_cmp s) (live s) (before s).
Proof.
  split.
  - intros a b (ka & Hka & Hra & Hva & Hsa) (kb & Hkb & Hrb & Hvb & Hsb). unfold heap_cmp. rewrite Hra, Hrb. cbn [res_bind].
    rewrite CompareSlices_encoded by done. cbn [res_bind]. exists (0 <? CompareParsed ka kb).
    replace (same_type a b || negb (CompareParsed ka kb =? 0)) with true; [split; [done|]|].
    + pose proof (CompareParsed_opp ka kb). destruct (Z.ltb_spec 0 (CompareParsed ka kb)); intros k1 k2 H1 H2; simplify_eq; lia.
    + destruct (same_type a b) eqn:Et; [done|]. simpl. symmetry. apply negb_true_iff, Z.eqb_neq. by eapply (different_types_distinct s a b).
  - intros a b c _ (kb & Hkb & _) _ Hab Hbc ka kc Hka Hkc. eapply CompareParsed_trans; [by apply Hab|by apply Hbc].
Qed.

(** The order of the heap only depends on the keys of its items. *)
Lemma near_heap_mono {A} (P P' : A → Prop) (g g' : A → A → Prop) x tl cache :
  (∀ a, a ∈ tl → P a → P' a) → (∀ a b, a ∈ tl → b ∈ tl → g a b → g' a b) →
  near_heap P g (x :: tl) cache → near_heap P' g' (x :: tl) cache.
Proof.
  intros HP Hg (Ho & Hc & Hall). assert (Hin : ∀ i y, (0 < i)%nat → (x :: tl) !! i = Some y → y ∈ tl).
  { intros [|i] y Hi Hy; [lia|]. by eapply list_elem_of_lookup_2. }
  split; [|split].
  - intros i Hi Hp a b Ha Hb. apply Hg; [eapply Hin; [|done]; lia|eapply Hin; [|done]; lia|]. by eapply Ho.
  - unfold cache_ok in *. destruct cache as [c|]; [|done]. intros Hlt. destruct (Hc Hlt) as (H1 & H2 & H3). split_and!; try done.
    intros i a b Hi Hp Ha Hb. apply Hg; [by eapply (Hin c)|by eapply (Hin i)|]. by eapply H3.
  - simpl in *. rewrite Forall_forall in Hall |- *. auto.
Qed.
Lemma valid_heap_mono {A} (P P' : A → Prop) (g g' : A → A → Prop) h :
  (∀ a, a ∈ data_ h → P a → P' a) → (∀ a b, a ∈ data_ h → b ∈ data_ h → g a b → g' a b) → valid_heap P g h → valid_heap P' g' h.
Proof.
  intros HP Hg (Ho & Hc & Hall). split; [|split].
  - intros i Hi a b Ha Hb. apply Hg; [by eapply list_elem_of_lookup_2..|]. by eapply Ho.
  - unfold cache_ok in *. destruct (root_cmp_cache_ h) as [c|]; [|done]. intros Hlt. destruct (Hc Hlt) as (H1 & H2 & H3). split_and!; try done.
    intros i a b Hi Hp Ha Hb. apply Hg; [by eapply list_elem_of_lookup_2..|]. by eapply H3.
  - rewrite Forall_forall in Hall |- *. auto.
Qed.

(** ** Invariant *)
(** The wrapper caches what its iterator says. *)
Definition wrapper_ok (w : IteratorWrapper C) : Prop :=
  it_ok (iter_ w) ∧ valid_ w = it_valid (iter_ w) ∧ (valid_ w = true → r_key (result_ w) = it_key (iter_ w)).
Definition runs_ok s : Prop :=
  ∀ i w o, children_ s !! i = Some w → range_tombstone_iters_ s !! i = Some o → wrapper_ok w ∧ run_ok (iter_ w) o.
(** The heap holds, once each, the items of [D] that have a key. *)
Record heaped s (D : HeapItem → Prop) : Prop := {
  hp_strs : length (tombstone_str s) = length (children_ s);
  hp_slots : length (range_tombstone_iters_ s) = length (children_ s);
  hp_valid : valid_heap (live s) (before s) (minHeap_ s);
  hp_nodup : NoDup (data_ (minHeap_ s));
  hp_members it : it ∈ data_ (minHeap_ s) ↔ is_Some (item_pk s it) ∧ D it }.

Lemma heap_push_spec s D it :
  heaped s D → live s it → it ∉ data_ (minHeap_ s) →
  ∃ h, heap_push s it = Ok (set_heap s h) ∧ heaped (set_heap s h) (λ x, D x ∨ x = it).
Proof.
  intros [H1 H2 Hv Hn Hm] Hl Hni. unfold heap_push.
  destruct (push_spec (heap_cmp s) (live s) (before s) (minHeap_ s) it Hv Hl) as (h & -> & Hv' & Hp).
  exists h. split; [done|]. split; [done|done|exact Hv'|cbn; rewrite Hp; by constructor|].
  intros x. cbn [set_heap minHeap_]. rewrite Hp, elem_of_cons, Hm. change (item_pk (set_heap s h) x) with (item_pk s x).
  split; [|naive_solver]. intros [->|[? ?]]; [|tauto]. destruct Hl as (k & Hk & _). split; [by exists k|by right].
Qed.

(** Moving one run: its child and its slot. *)
Definition set_run s (i : nat) (w : IteratorWrapper C) (o : option R) : CMI C R := set_slot (set_child s i w) i o.
Lemma set_run_other s i w o it :
  it ≠ ITERATOR i → (it = DELETE_RANGE_START i → range_tombstone_iters_ s !! i = Some o) →
  item_pk (set_run s i w o) it = item_pk s it ∧ item_key (set_run s i w o) it = item_key s it ∧
  (live s it → live (set_run s i w o) it).
Proof.
  intros Hne Heq. assert (Hsame : (∀ j, it = ITERATOR j → <[i := w]> (children_ s) !! j = children_ s !! j) ∧
    ∀ j, it = DELETE_RANGE_START j → <[i := o]> (range_tombstone_iters_ s) !! j = range_tombstone_iters_ s !! j).
  { split; intros j ->; [apply list_lookup_insert_ne; congruence|]. destruct (decide (i = j)) as [->|]; [|by apply list_lookup_insert_ne].
    rewrite list_insert_id; [done|]. by apply Heq. }
  destruct Hsame as [Hc Ho].
  assert (Hpk : item_pk (set_run s i w o) it = item_pk s it) by (destruct it as [j|j]; simpl; [by rewrite (Hc j)|by rewrite (Ho j)]).
  assert (Hkey : item_key (set_run s i w o) it = item_key s it) by (destruct it as [j|j]; [|done]; unfold item_key, child; simpl; by rewrite (Hc j)).
  split_and!; [done|done|]. intros (k & H1 & H2 & H3 & H4). exists k. rewrite Hpk, Hkey. split_and!; try done.
  destruct it as [j|j]; simpl in *; [by rewrite (Hc j)|by rewrite (Ho j)].
Qed.

(** The root changed: the rest of the heap is as it was. *)
Lemma root_changed s s1 D x tl cache :
  heaped s D → minHeap_ s = mkHeap (x :: tl) cache →
  (∀ it, it ∈ tl → item_pk s1 it = item_pk s it ∧ (live s it → live s1 it)) → near_heap (live s1) (before s1) (x :: tl) cache.
Proof.
  intros [_ _ Hv _ _] Eh Hsame. apply valid_near in Hv. rewrite Eh in Hv. cbn [data_ root_cmp_cache_] in Hv. revert Hv.
  apply near_heap_mono; [naive_solver|]. intros a b Ha Hb Hab ka kb. destruct (Hsame a Ha) as [-> _], (Hsame b Hb) as [-> _]. apply Hab.
Qed.
Lemma replace_root s1 x tl cache :
  minHeap_ s1 = mkHeap (x :: tl) cache → near_heap (live s1) (before s1) (x :: tl) cache → live s1 x →
  ∃ h, heap_replace_top s1 x = Ok (set_heap s1 h) ∧ valid_heap (live s1) (before s1) h ∧ data_ h ≡ₚ x :: tl.
Proof.
  intros Eh Hn Hl. unfold heap_replace_top. rewrite Eh.
  destruct (replace_top_spec (heap_cmp s1) _ _ x x tl cache Hn Hl) as (h & -> & Hv & Hp). by exists h.
Qed.
Lemma pop_root s1 x tl cache :
  minHeap_ s1 = mkHeap (x :: tl) cache → near_heap (live s1) (before s1) (x :: tl) cache →
  ∃ h, heap_pop s1 = Ok (set_heap s1 h) ∧ valid_heap (live s1) (before s1) h ∧ data_ h ≡ₚ tl.
Proof.
  intros Eh Hn. unfold heap_pop. rewrite Eh. destruct (pop_spec (heap_cmp s1) _ _ x tl cache Hn) as (h & -> & Hv & Hp). by exists h.
Qed.

Lemma wrapper_Next_spec w o k b l :
  wrapper_ok w → run_ok (iter_ w) o → points (iter_ w) = (k, b) :: l → (b = true → slot_starts o = []) →
  ∃ w' o', wrapper_Next w o = Ok (w', o') ∧ wrapper_ok w' ∧ run_ok (iter_ w') o' ∧ points (iter_ w') = l ∧
    if b then slot_starts o' ++ pending (iter_ w') ≡ₚ pending (iter_ w) else o' = o ∧ pending (iter_ w') = pending (iter_ w).
Proof.
  intros Hw Hr Hp Hb. pose proof (child_next _ _ _ _ _ Hr Hp Hb) as Hn. unfold wrapper_Next.
  destruct (it_next_result (iter_ w) o) as [[c' o'] result]. destruct Hn as (Hl & Hr' & Hres & Hpend).
  pose proof (run_it_ok _ _ Hr') as Hit. destruct result as [r|]; cbn [valid_ negb orb].
  - destruct Hres as [Hv Hk]. rewrite (valid_status c' Hit Hv). cbn [status_ok assert_ res_bind].
    eexists _, _. split; [done|]. split_and!; try done.
  - cbn [assert_ res_bind]. eexists _, _. split; [done|]. split_and!; try done.
Qed.

Lemma live_child s i w k b l :
  children_ s !! i = Some w → wrapper_ok w → points (iter_ w) = (k, b) :: l → live s (ITERATOR i) ∧ valid_ w = true.
Proof.
  intros Hi (Hit & Hv & Hk) Hp. destruct (head_points _ _ _ _ Hit Hp) as (Hkey & _ & Hvk & _).
  assert (Hval : valid_ w = true) by (rewrite Hv; apply valid_points; [done|]; by rewrite Hp). split; [|done].
  exists k.1. unfold item_key, child, wrapper_key. simpl. rewrite Hi. simpl. rewrite Hp, Hval. simpl.
  split_and!; [done|by rewrite Hk, Hkey|done|]. intros w' [= <-]. done.
Qed.

Lemma runs_ok_set_run s i w o :
  runs_ok s → wrapper_ok w → run_ok (iter_ w) o → runs_ok (set_run s i w o).
Proof.
  intros Hr Hw Ho j w' o'. simpl. rewrite !list_lookup_insert_Some. intros Hj Hj'.
  destruct Hj as [(E & <- & _)|[Hne Hj]], Hj' as [(E' & <- & _)|[Hne' Hj']]; [done|congruence|congruence|]. by eapply Hr.
Qed.

(** The child at the top of the heap moved: the rest of the heap stands. *)
Lemma run_moved s D i tl cache w' o' b :
  heaped s D → minHeap_ s = mkHeap (ITERATOR i :: tl) cache →
  (b = true → item_pk s (DELETE_RANGE_START i) = None) → (b = false → range_tombstone_iters_ s !! i = Some o') →
  let s1 := set_run s i w' o' in
  near_heap (live s1) (before s1) (ITERATOR i :: tl) cache ∧ NoDup (ITERATOR i :: tl) ∧ D (ITERATOR i) ∧
  ∀ it, it ∈ tl ↔ is_Some (item_pk s1 it) ∧ (D it ∧ (b = true → it ≠ DELETE_RANGE_START i)) ∧ it ≠ ITERATOR i.
Proof.
  intros Hh Eh Hexh Hkeep s1. pose proof (hp_nodup _ _ Hh) as Hnd. rewrite Eh in Hnd. pose proof Hnd as [Hni _]%NoDup_cons.
  assert (Hmem : ∀ it, it ∈ ITERATOR i :: tl ↔ is_Some (item_pk s it) ∧ D it) by (intros it; by rewrite <-(hp_members _ _ Hh), Eh).
  assert (Hsame : ∀ it, it ≠ ITERATOR i → (b = true → it ≠ DELETE_RANGE_START i) → item_pk s1 it = item_pk s it ∧ (live s it → live s1 it)).
  { intros it Hne Hd. destruct (set_run_other s i w' o' it Hne) as (H1 & _ & H3); [|done].
    intros ->. destruct b; [by destruct (Hd eq_refl)|by apply Hkeep]. }
  assert (Htl : ∀ it, it ∈ tl → it ≠ ITERATOR i ∧ (b = true → it ≠ DELETE_RANGE_START i)).
  { intros it Hit. split; [congruence|]. intros Hbt ->. destruct (proj1 (Hmem _) (list_elem_of_further _ _ _ Hit)) as [[x Hx] _].
    rewrite (Hexh Hbt) in Hx. done. }
  split; [|split; [done|split; [apply (Hmem (ITERATOR i)); by left|]]].
  - eapply root_changed; [exact Hh|exact Eh|]. intros it Hit. destruct (Htl it Hit). by apply Hsame.
  - intros it. split.
    + intros Hit. destruct (Htl it Hit) as [H1 H2]. destruct (proj1 (Hmem it) (list_elem_of_further _ _ _ Hit)). by rewrite (proj1 (Hsame it H1 H2)).
    + intros (H1 & [H2 H3] & H4). rewrite (proj1 (Hsame it H4 H3)) in H1.
      destruct (proj1 (elem_of_cons _ _ _) (proj2 (Hmem it) (conj H1 H2))); done.
Qed.

(** [iter.Next()] of the top of the heap, and its new place. *)
Lemma advance_child_spec s D i tl cache w o k b l :
  heaped s D → runs_ok s → minHeap_ s = mkHeap (ITERATOR i :: tl) cache →
  children_ s !! i = Some w → range_tombstone_iters_ s !! i = Some o → points (iter_ w) = (k, b) :: l →
  (b = true → slot_starts o = []) →
  ∃ w' o' st h, let s' := set_heap (set_status (set_run s i w' o') st) h in
    advance_child s i = Ok s' ∧ heaped s' (λ x, D x ∧ (b = true → x ≠ DELETE_RANGE_START i)) ∧ runs_ok s' ∧
    points (iter_ w') = l ∧ (st = None → status_ s = None) ∧
    if b then slot_starts o' ++ pending (iter_ w') ≡ₚ pending (iter_ w) else o' = o ∧ pending (iter_ w') = pending (iter_ w).
Proof.
  intros Hh Hr Eh Hi Ho Hp Hb. destruct (Hr _ _ _ Hi Ho) as [Hw Hro]. pose proof (lookup_lt_Some _ _ _ Hi) as Hlt.
  destruct (wrapper_Next_spec w o k b l Hw Hro Hp Hb) as (w' & o' & Hnext & Hw' & Hro' & Hp' & Hpend).
  destruct (run_moved s D i tl cache w' o' b Hh Eh) as (Hnear & Hnd & HDi & Hmem1);
    [intros ->; simpl; rewrite Ho; simpl; by rewrite Hb|intros ->; by destruct Hpend as [-> _]|].
  set (s1 := set_run s i w' o') in *. assert (Hi1 : children_ s1 !! i = Some w') by by apply list_lookup_insert_eq.
  exists w', o'. unfold advance_child, child, slot. rewrite Hi, Ho. cbn [deref res_bind]. rewrite Hnext. cbn [res_bind].
  fold (set_run s i w' o'). fold s1. pose proof Hw' as (Hit' & Hval' & _).
  assert (Hlens : length (tombstone_str s) = length (<[i := w']> (children_ s)) ∧ length (<[i := o']> (range_tombstone_iters_ s)) = length (<[i := w']> (children_ s)))
    by (rewrite !length_insert; split; apply Hh).
  assert (Hruns : runs_ok s1) by (apply runs_ok_set_run; done). destruct l as [|[k' b'] l'].
  - assert (Hv : valid_ w' = false). { rewrite Hval'. destruct (it_valid (iter_ w')) eqn:E; [|done]. by apply valid_points in E. }
    rewrite Hv. set (st := it_status (iter_ w')).
    destruct (pop_root (considerStatus s1 st) (ITERATOR i) tl cache) as (h & Hpop & Hvh & Hperm);
      [unfold considerStatus; by destruct (_ && _)|unfold considerStatus; by destruct (_ && _)|].
    exists (status_ (considerStatus s1 st)), h. rewrite Hpop. unfold considerStatus in *.
    split; [by destruct (_ && _)|]. split_and!; try done.
    + split; [apply Hlens|apply Hlens|by destruct (_ && _)|cbn; rewrite Hperm; by apply NoDup_cons in Hnd as [_ ?]|].
      intros it. cbn [set_heap minHeap_]. rewrite Hperm, Hmem1. change (item_pk (set_heap _ h) it) with (item_pk s1 it).
      split; [tauto|]. intros [H1 H2]. split_and!; try tauto. intros ->. simpl in H1. rewrite list_lookup_insert_eq in H1 by done.
      simpl in H1. rewrite Hp' in H1. by destruct H1.
    + destruct (negb (status_ok st) && status_ok (status_ s1)) eqn:E; [|done]. cbn. intros Hst. by rewrite Hst in E.
  - destruct (live_child s1 i w' k' b' l' Hi1 Hw' Hp') as [Hlive Hv].
    rewrite Hv, (valid_status _ Hit') by (by rewrite <-Hval'). cbn [status_ok assert_ res_bind].
    destruct (replace_root s1 (ITERATOR i) tl cache Eh Hnear Hlive) as (h & -> & Hvh & Hperm).
    exists (status_ s), h. split; [done|]. split_and!; try done. split; [apply Hlens|apply Hlens|done|cbn; by rewrite Hperm|].
    intros it. cbn [set_heap minHeap_]. rewrite Hperm, elem_of_cons, Hmem1. change (item_pk (set_heap _ h) it) with (item_pk s1 it).
    split; [|intros [H1 H2]; destruct (decide (it = ITERATOR i)); tauto].
    intros [->|(H1 & H2 & H3)]; [|done]. destruct Hlive as (kk & Hkk & _). split; [by exists kk|done].
Qed.

Lemma heaped_iff s D D' : heaped s D → (∀ it, is_Some (item_pk s it) → D it ↔ D' it) → heaped s D'.
Proof. intros [H1 H2 H3 H4 H5] HD. split; try done. intros it. rewrite H5. specialize (HD it). tauto. Qed.

(** [s'] differs from [s] in the heap and the tombstone strings only. *)
Definition same_runs s s' : Prop :=
  children_ s' = children_ s ∧ range_tombstone_iters_ s' = range_tombstone_iters_ s ∧ current_ s' = current_ s ∧ status_ s' = status_ s.

Lemma heaped_set_str s D i k : heaped s D → ¬ D (DELETE_RANGE_START i) → heaped (set_str s i k) D.
Proof.
  intros [H1 H2 H3 H4 H5] HD.
  assert (Hlive : ∀ it, it ∈ data_ (minHeap_ s) → live s it → live (set_str s i k) it).
  { intros it [_ Hd]%H5 (kk & Hk1 & Hk2 & Hk3 & Hk4). exists kk. split_and!; try done. destruct it as [j|j]; [done|]. simpl in *.
    rewrite list_lookup_insert_ne; [done|]. by intros ->. }
  split; try done; [simpl; by rewrite length_insert|]. revert H3. apply valid_heap_mono; [done|]. intros a b _ _ Hab. exact Hab.
Qed.

Lemma live_tomb s i r k l :
  range_tombstone_iters_ s !! i = Some (Some r) → rd_ok r → starts r = k :: l → tombstone_str s !! i = Some (encoded k) →
  live s (DELETE_RANGE_START i).
Proof.
  intros Ho Hr Hs Hk. destruct (head_starts _ _ _ Hr Hs) as (_ & Hv & _). exists k. simpl. rewrite Ho, Hk. simpl. rewrite Hs.
  split_and!; try done. intros r' [= <-]. done.
Qed.

Lemma InsertRangeTombstone_spec s D i r :
  heaped s D → range_tombstone_iters_ s !! i = Some (Some r) → rd_ok r → ¬ D (DELETE_RANGE_START i) →
  ∃ s', InsertRangeTombstoneAtLevel s i = Ok s' ∧ heaped s' (λ x, D x ∨ x = DELETE_RANGE_START i) ∧ same_runs s s'.
Proof.
  intros Hh Ho Hr HD. unfold InsertRangeTombstoneAtLevel, slot. rewrite Ho. cbn [deref res_bind].
  destruct (starts r) as [|k l] eqn:Hs.
  - replace (rd_valid r) with false. { exists s. split_and!; try done. eapply heaped_iff; [exact Hh|]. intros it Hit. split; [tauto|].
      intros [?| ->]; [done|]. simpl in Hit. rewrite Ho in Hit. simpl in Hit. rewrite Hs in Hit. by destruct Hit. }
    destruct (rd_valid r) eqn:E; [|done]. by apply (proj1 (valid_starts r Hr)) in E.
  - rewrite (proj2 (valid_starts r Hr)) by (by rewrite Hs). destruct (head_starts _ _ _ Hr Hs) as (-> & Hv & _).
    unfold SetTombstoneForCompaction. rewrite append_encoded by done. cbn [app res_bind].
    assert (Hlt : (i < length (tombstone_str s))%nat) by (apply lookup_lt_Some in Ho; rewrite (hp_strs _ _ Hh), <-(hp_slots _ _ Hh); done).
    destruct (heap_push_spec (set_str s i (encoded k)) D (DELETE_RANGE_START i)) as (h & -> & Hh').
    + by apply heaped_set_str.
    + eapply live_tomb; [done|done|done|]. by apply list_lookup_insert_eq.
    + intros [_ Hd]%(hp_members _ _ Hh). done.
    + eexists. split_and!; done.
Qed.

(** ** What is left to give *)
(** An entry with its value, or the start of a range tombstone. *)
Definition tomb_start (k : ParsedInternalKey) : ParsedInternalKey * bytes * bool := (k, [], true).
Definition run_contents (run : C * option R) : list (ParsedInternalKey * bytes * bool) :=
  filter (λ p, p.2 = false) (points run.1) ++ (tomb_start <$> slot_starts run.2) ++ (tomb_start <$> pending run.1).
Definition runs s : list (C * option R) := zip_with (λ w o, (iter_ w, o)) (children_ s) (range_tombstone_iters_ s).
Definition contents s : list (ParsedInternalKey * bytes * bool) := concat (run_contents <$> runs s).
Definition npoints s : nat := sum_list_with (λ run, length (points run.1)) (runs s).

Lemma concat_insert {A B} (f : A → list B) l i a b x :
  l !! i = Some a → f a ≡ₚ x ++ f b → concat (f <$> l) ≡ₚ x ++ concat (f <$> <[i := b]> l).
Proof.
  intros Hi Hf. rewrite <-(take_drop_middle l i a Hi) at 1. rewrite (insert_take_drop l i b) by (by eapply lookup_lt_Some).
  rewrite !fmap_app, !concat_app, !fmap_cons. simpl. rewrite Hf, <-(app_assoc x).
  apply Permutation_app_swap_app.
Qed.
Lemma sum_insert {A} (f : A → nat) l i a b :
  l !! i = Some a → (sum_list_with f (<[i := b]> l) + f a = sum_list_with f l + f b)%nat.
Proof.
  intros Hi. rewrite <-(take_drop_middle l i a Hi) at 2. rewrite (insert_take_drop l i b) by (by eapply lookup_lt_Some).
  rewrite !sum_list_with_app. simpl. lia.
Qed.
Lemma runs_lookup s i w o : children_ s !! i = Some w → range_tombstone_iters_ s !! i = Some o → runs s !! i = Some (iter_ w, o).
Proof. intros Hi Ho. unfold runs. by rewrite lookup_zip_with, Hi, Ho. Qed.
Lemma runs_set_run s i w o : runs (set_run s i w o) = <[i := (iter_ w, o)]> (runs s).
Proof. unfold runs. simpl. by rewrite <-insert_zip_with. Qed.

Lemma same_runs_runs s s' : same_runs s s' → runs s' = runs s ∧ (runs_ok s → runs_ok s').
Proof. intros (H1 & H2 & _). unfold runs, runs_ok. by rewrite H1, H2. Qed.

Definition anyItem : HeapItem → Prop := λ _, True.
(** The top of the heap is not a file boundary. *)
Definition visible_top s : Prop :=
  ∀ i tl w, data_ (minHeap_ s) = ITERATOR i :: tl → children_ s !! i = Some w → it_sentinel (iter_ w) = false.

Lemma heap_top s D x tl cache : heaped s D → minHeap_ s = mkHeap (x :: tl) cache → live s x ∧ ∀ it, it ∈ x :: tl → before s x it.
Proof.
  intros Hh Eh. pose proof (hp_valid _ _ Hh) as Hv. rewrite Eh in Hv. destruct (top_spec (heap_cmp s) _ _ _ _ _ Hv) as [_ Hf].
  split; [by destruct Hv as (_ & _ & [? _]%Forall_cons)|]. by apply Forall_forall.
Qed.

Lemma member_child s i : live s (ITERATOR i) → ∃ w k b l, children_ s !! i = Some w ∧ points (iter_ w) = (k, b) :: l ∧ item_pk s (ITERATOR i) = Some k.1.
Proof.
  intros (k & Hk & _). simpl in Hk. destruct (children_ s !! i) as [w|] eqn:Hw; [|done]. simpl in Hk.
  destruct (points (iter_ w)) as [|[k' b] l] eqn:Hp; [done|]. injection Hk as <-. exists w, k', b, l. simpl. rewrite Hw. simpl. by rewrite Hp.
Qed.
Lemma slot_of s D i w : heaped s D → children_ s !! i = Some w → ∃ o, range_tombstone_iters_ s !! i = Some o.
Proof. intros Hh Hw%lookup_lt_Some. apply lookup_lt_is_Some_2. by rewrite (hp_slots _ _ Hh). Qed.

(** When a file boundary is at the top, the tombstones of the file are exhausted. *)
Lemma boundary_exhausted s i tl cache w o k l :
  heaped s anyItem → runs_ok s → minHeap_ s = mkHeap (ITERATOR i :: tl) cache → children_ s !! i = Some w →
  range_tombstone_iters_ s !! i = Some o → points (iter_ w) = (k, true) :: l → slot_starts o = [].
Proof.
  intros Hh Hr Eh Hw Ho Hp. destruct o as [r|]; [|done]. simpl. destruct (starts r) as [|s0 ls] eqn:Hs; [done|]. exfalso.
  destruct (heap_top _ _ _ _ _ Hh Eh) as [_ Hb]. assert (Hpk : item_pk s (DELETE_RANGE_START i) = Some s0) by (simpl; rewrite Ho; simpl; by rewrite Hs).
  assert (Hin : DELETE_RANGE_START i ∈ ITERATOR i :: tl).
  { pose proof (proj2 (hp_members _ _ Hh (DELETE_RANGE_START i))) as Hm. rewrite Eh in Hm. apply Hm. split; [by exists s0|done]. }
  assert (Hle : key_le k.1 s0). { apply (Hb _ Hin); [|done]. simpl. rewrite Hw. simpl. by rewrite Hp. }
  destruct (Hr _ _ _ Hw Ho) as [_ Hrun]. assert (Hlt : CompareParsed s0 k.1 < 0) by (eapply boundary; [done|done|rewrite Hs; by left]).
  pose proof (CompareParsed_opp s0 k.1). lia.
Qed.

Lemma runs_moved s i w o w' o' st h x :
  children_ s !! i = Some w → range_tombstone_iters_ s !! i = Some o →
  run_contents (iter_ w, o) ≡ₚ x ++ run_contents (iter_ w', o') →
  let s' := set_heap (set_status (set_run s i w' o') st) h in
  contents s ≡ₚ x ++ contents s' ∧ (npoints s' + length (points (iter_ w)) = npoints s + length (points (iter_ w')))%nat.
Proof.
  intros Hw Ho Hc s'. unfold contents, npoints. change (runs s') with (runs (set_run s i w' o')). rewrite runs_set_run.
  pose proof (runs_lookup _ _ _ _ Hw Ho) as Hl. split; [by apply (concat_insert _ _ _ (iter_ w, o))|].
  exact (sum_insert (λ run : C * option R, length (points run.1)) _ _ (iter_ w, o) (iter_ w', o') Hl).
Qed.

Lemma FindNextVisibleKey_spec fuel s :
  heaped s anyItem → runs_ok s → (npoints s < fuel)%nat →
  ∃ s', FindNextVisibleKey fuel s = Ok s' ∧ heaped s' anyItem ∧ runs_ok s' ∧ contents s ≡ₚ contents s' ∧ visible_top s' ∧
    (npoints s' ≤ npoints s)%nat ∧ (status_ s' = None → status_ s = None).
Proof.
  revert s. induction fuel as [|fuel IH]; intros s Hh Hr Hf; [lia|]. simpl. destruct (minHeap_ s) as [[|x tl] cache] eqn:Eh.
  { exists s. split_and!; try done. intros i tl w. by rewrite Eh. }
  change (empty _) with false. change (top _) with (Ok x). cbn [res_bind]. destruct (heap_top _ _ _ _ _ Hh Eh) as [Hlive Hb].
  destruct x as [i|i]; [|exists s; split_and!; try done; intros j tl' w; by rewrite Eh].
  destruct (member_child s i Hlive) as (w & k & b & l & Hw & Hp & _). unfold child at 1. rewrite Hw. cbn [deref res_bind].
  destruct (slot_of _ _ _ _ Hh Hw) as [o Ho]. destruct (Hr _ _ _ Hw Ho) as [Hwr Hrun].
  destruct (head_points _ _ _ _ (proj1 Hwr) Hp) as (_ & Hsent & _). rewrite Hsent. destruct b; cbn [negb].
  2: { exists s. split_and!; try done. intros j tl' w'. rewrite Eh. cbn [data_]. intros [= <- <-] Hj. by simplify_eq. }
  pose proof (boundary_exhausted _ _ _ _ _ _ _ _ Hh Hr Eh Hw Ho Hp) as Hex. unfold slot at 1. rewrite Ho. cbn [deref res_bind].
  replace (match o with Some r => negb (rd_valid r) | None => true end) with true.
  2: { destruct o as [r|]; [|done]. destruct (rd_valid r) eqn:E; [|done]. apply valid_starts in E; [by destruct E|]. by eapply run_rd_ok. }
  cbn [assert_ res_bind].
  destruct (advance_child_spec _ _ _ _ _ _ _ _ _ _ Hh Hr Eh Hw Ho Hp (λ _, Hex)) as (w' & o' & st & h & -> & Hh' & Hr' & Hp' & Hst & Hpend).
  cbn [res_bind]. set (s1 := set_heap _ h) in *. pose proof (lookup_lt_Some _ _ _ Ho) as Hlt.
  assert (Ho1 : range_tombstone_iters_ s1 !! i = Some o') by by apply list_lookup_insert_eq.
  assert (Hw1 : children_ s1 !! i = Some w') by (apply list_lookup_insert_eq; by eapply lookup_lt_Some).
  destruct (runs_moved s i w o w' o' st h [] Hw Ho) as [Hc Hn].
  { unfold run_contents. simpl. rewrite Hp, Hex, filter_cons_False by done. by rewrite Hp', <-Hpend, fmap_app. }
  fold s1 in Hc, Hn. rewrite Hp, Hp' in Hn. simpl in Hn. unfold slot. rewrite Ho1. cbn [deref res_bind].
  assert (Hins : ∃ s2, match o' with Some _ => InsertRangeTombstoneAtLevel s1 i | None => Ok s1 end = Ok s2 ∧ heaped s2 anyItem ∧ same_runs s1 s2).
  { destruct o' as [r'|].
    - destruct (InsertRangeTombstone_spec s1 _ i r' Hh' Ho1) as (s2 & H1 & H2 & H3); [eapply run_rd_ok; by eapply Hr'|by intros [_ []]|].
      exists s2. split_and!; try done. eapply heaped_iff; [exact H2|]. intros it _. unfold anyItem.
      destruct (decide (it = DELETE_RANGE_START i)); tauto.
    - exists s1. split_and!; try done. eapply heaped_iff; [exact Hh'|]. intros it Hit. split; [done|]. split; [done|]. intros _ ->.
      simpl in Hit. rewrite list_lookup_insert_eq in Hit by done. by destruct Hit. }
  destruct Hins as (s2 & -> & Hh2 & Hsame). cbn [res_bind]. destruct (same_runs_runs _ _ Hsame) as [Hruns Hrok].
  destruct (IH s2 Hh2 (Hrok Hr')) as (s' & -> & H1 & H2 & H3 & H4 & H5 & H6); [unfold npoints in *; rewrite Hruns; lia|].
  exists s'. split_and!; try done.
  - rewrite Hc. simpl. rewrite <-H3. unfold contents. by rewrite Hruns.
  - unfold npoints in *. rewrite Hruns in H5. lia.
  - intros Hs. apply Hst. destruct Hsame as (_ & _ & _ & Es). rewrite <-(H6 Hs). by rewrite Es.
Qed.

Lemma root_moved s s2 D x tl cache :
  heaped s D → minHeap_ s = mkHeap (x :: tl) cache →
  (∀ it, it ≠ x → item_pk s2 it = item_pk s it ∧ (live s it → live s2 it)) →
  near_heap (live s2) (before s2) (x :: tl) cache ∧ NoDup (x :: tl) ∧ D x ∧
  ∀ it, it ∈ tl ↔ is_Some (item_pk s2 it) ∧ D it ∧ it ≠ x.
Proof.
  intros Hh Eh Hsame. pose proof (hp_nodup _ _ Hh) as Hnd. rewrite Eh in Hnd. pose proof Hnd as [Hni _]%NoDup_cons.
  assert (Hmem : ∀ it, it ∈ x :: tl ↔ is_Some (item_pk s it) ∧ D it) by (intros it; by rewrite <-(hp_members _ _ Hh), Eh).
  split; [|split; [done|split; [apply (Hmem x); by left|]]].
  - eapply root_changed; [exact Hh|exact Eh|]. intros it Hit. apply Hsame. congruence.
  - intros it. split.
    + intros Hit. assert (it ≠ x) by congruence. rewrite (proj1 (Hsame it ltac:(done))).
      destruct (proj1 (Hmem it) (list_elem_of_further _ _ _ Hit)). done.
    + intros (H1 & H2 & H3). rewrite (proj1 (Hsame it H3)) in H1. destruct (proj1 (elem_of_cons _ _ _) (proj2 (Hmem it) (conj H1 H2))); done.
Qed.

Lemma set_slot_other s i o it :
  it ≠ DELETE_RANGE_START i → item_pk (set_slot s i o) it = item_pk s it ∧ (live s it → live (set_slot s i o) it) ∧
  ∀ k, live (set_slot s i o) it → live (set_str (set_slot s i o) i k) it.
Proof.
  intros Hne. assert (Ho : ∀ j, it = DELETE_RANGE_START j → <[i := o]> (range_tombstone_iters_ s) !! j = range_tombstone_iters_ s !! j)
    by (intros j ->; apply list_lookup_insert_ne; congruence).
  assert (Hpk : item_pk (set_slot s i o) it = item_pk s it) by (destruct it as [j|j]; [done|]; simpl; by rewrite (Ho j)).
  split_and!; [done| |].
  - intros (k & H1 & H2 & H3 & H4). exists k. rewrite Hpk. split_and!; try done. destruct it as [j|j]; [done|]. simpl in *. by rewrite (Ho j).
  - intros k (kk & H1 & H2 & H3 & H4). exists kk. split_and!; try done. destruct it as [j|j]; [done|]. simpl in *.
    rewrite list_lookup_insert_ne by congruence. done.
Qed.

(** The tombstone iterator at the top moves to its next start key. *)
Lemma advance_tomb_spec s i tl cache r k l :
  heaped s anyItem → runs_ok s → minHeap_ s = mkHeap (DELETE_RANGE_START i :: tl) cache →
  range_tombstone_iters_ s !! i = Some (Some r) → starts r = k :: l →
  ∃ s', advance_tomb s i = Ok s' ∧
    heaped s' anyItem ∧ runs_ok s' ∧ starts (rd_next r) = l ∧ children_ s' = children_ s ∧
    range_tombstone_iters_ s' = <[i := Some (rd_next r)]> (range_tombstone_iters_ s) ∧ status_ s' = status_ s.
Proof.
  intros Hh Hr Eh Ho Hs. pose proof (lookup_lt_Some _ _ _ Ho) as Hlt. rewrite (hp_slots _ _ Hh) in Hlt.
  unfold advance_tomb, slot. rewrite Ho. cbn [deref res_bind]. rewrite bool_decide_eq_true_2 by done. cbn [assert_ res_bind deref].
  destruct (lookup_lt_is_Some_2 _ _ Hlt) as [w Hw]. destruct (Hr _ _ _ Hw Ho) as [Hwok Hrun].
  destruct (tomb_next _ _ _ _ Hrun Hs) as [Hl Hrun']. pose proof (run_rd_ok _ _ Hrun') as Hrd. set (s1 := set_slot s i (Some (rd_next r))).
  assert (Hruns : runs_ok s1).
  { intros j w' o'. simpl. rewrite list_lookup_insert_Some. intros Hj [(-> & <- & _)|[? Hj']]; [|by eapply Hr]. by simplify_eq. }
  assert (Hlens : length (range_tombstone_iters_ s1) = length (children_ s)) by (simpl; rewrite length_insert; apply Hh).
  assert (Ho1 : range_tombstone_iters_ s1 !! i = Some (Some (rd_next r))) by (apply list_lookup_insert_eq; by rewrite (hp_slots _ _ Hh)).
  destruct l as [|k' l'].
  - replace (rd_valid (rd_next r)) with false by (symmetry; destruct (rd_valid _) eqn:E; [|done]; by apply valid_starts in E).
    destruct (root_moved s s1 _ _ _ _ Hh Eh) as (Hnear & Hnd & _ & Hmem); [intros it Hne; destruct (set_slot_other s i (Some (rd_next r)) it Hne); tauto|].
    destruct (pop_root s1 _ _ _ Eh Hnear) as (h & Hpop & Hv & Hperm). cbn zeta. rewrite Hpop. eexists. split; [done|]. split_and!; try done.
    split; [apply Hh|done|done|cbn; rewrite Hperm; by apply NoDup_cons in Hnd as [_ ?]|].
    intros it. cbn [set_heap minHeap_]. rewrite Hperm, Hmem. change (item_pk (set_heap _ h) it) with (item_pk s1 it). split; [tauto|].
    intros [H1 H2]. split_and!; try done. intros ->. simpl in Ho1, H1. rewrite Ho1 in H1. simpl in H1. rewrite Hl in H1. by destruct H1.
  - rewrite (proj2 (valid_starts _ Hrd)) by (by rewrite Hl). destruct (head_starts _ _ _ Hrd Hl) as (-> & Hvk & _).
    unfold SetTombstoneForCompaction. rewrite append_encoded by done. cbn [app res_bind]. set (s2 := set_str s1 i (encoded k')).
    destruct (root_moved s s2 _ _ _ _ Hh Eh) as (Hnear & Hnd & _ & Hmem); [intros it Hne; destruct (set_slot_other s i (Some (rd_next r)) it Hne) as (E1 & E2 & E3); split; [exact E1|intros Hli; exact (E3 _ (E2 Hli))]|].
    assert (Hlive : live s2 (DELETE_RANGE_START i)).
    { eapply live_tomb; [exact Ho1|done|done|]. apply list_lookup_insert_eq. simpl. by rewrite (hp_strs _ _ Hh). }
    destruct (replace_root s2 _ _ _ Eh Hnear Hlive) as (h & Hrep & Hv & Hperm). rewrite Hrep. eexists. split; [done|]. split_and!; try done.
    split; [simpl; rewrite length_insert; apply Hh|done|done|cbn; by rewrite Hperm|].
    intros it. cbn [set_heap minHeap_]. rewrite Hperm, elem_of_cons, Hmem. change (item_pk (set_heap _ h) it) with (item_pk s2 it).
    destruct Hlive as (kk & Hkk & _). split; [intros [->|?]; [split; [by exists kk|done]|tauto]|].
    intros [H1 H2]. destruct (decide (it = DELETE_RANGE_START i)); tauto.
Qed.

(** ** Reading the stream *)
(** Between operations: the heap is complete, its top is current and visible. *)
Definition ready s : Prop := heaped s anyItem ∧ runs_ok s ∧ visible_top s ∧ current_ s = head (data_ (minHeap_ s)).

Lemma finish_spec fuel s :
  heaped s anyItem → runs_ok s → (npoints s < fuel)%nat →
  ∃ s', finish fuel s = Ok s' ∧ ready s' ∧ contents s ≡ₚ contents s' ∧ (npoints s' ≤ npoints s)%nat ∧ (status_ s' = None → status_ s = None).
Proof.
  intros Hh Hr Hf. destruct (FindNextVisibleKey_spec fuel s Hh Hr Hf) as (s1 & Hfind & Hh1 & Hr1 & Hc & Hv & Hn & Hs).
  unfold finish. rewrite Hfind. cbn [res_bind].
  assert (Hcf : CurrentForward s1 = Ok (head (data_ (minHeap_ s1)))) by (unfold CurrentForward, empty, top; by destruct (minHeap_ s1) as [[|x tl] ?]).
  rewrite Hcf. cbn [res_bind]. eexists. split; [done|]. split; [|done]. by destruct Hh1.
Qed.

(** Every key left in a run is at or after the key of some item of the heap. *)
Lemma contents_covered s e :
  heaped s anyItem → runs_ok s → e ∈ contents s → ∃ it k, it ∈ data_ (minHeap_ s) ∧ item_pk s it = Some k ∧ key_le k e.1.1.
Proof.
  intros Hh Hr He. unfold contents in He. apply list_elem_of_In, in_concat in He as (l & Hl & He).
  apply list_elem_of_In, list_elem_of_fmap in Hl as ([c o] & -> & Hrun). apply list_elem_of_In in He.
  apply list_elem_of_lookup_1 in Hrun as (i & Hi). unfold runs in Hi. rewrite lookup_zip_with in Hi.
  destruct (children_ s !! i) as [w|] eqn:Hw; [|done]. destruct (range_tombstone_iters_ s !! i) as [o'|] eqn:Ho; [|done].
  simpl in Hi. injection Hi as <- ->. destruct (Hr _ _ _ Hw Ho) as [Hwok Hrun].
  assert (Hmem : ∀ it k, item_pk s it = Some k → it ∈ data_ (minHeap_ s)) by (intros it k Hk; apply (hp_members _ _ Hh); split; [by exists k|done]).
  assert (Hpoint : ∀ p, p ∈ points (iter_ w) → ∃ k, item_pk s (ITERATOR i) = Some k ∧ key_le k p.1.1).
  { intros p Hp. destruct (points (iter_ w)) as [|[k b] l] eqn:Hps; [by apply not_elem_of_nil in Hp|]. exists k.1. simpl. rewrite Hw. simpl. rewrite Hps.
    split; [done|]. apply elem_of_cons in Hp as [->|Hp]; [by rewrite CompareParsed_refl|].
    destruct (head_points _ _ _ _ (proj1 Hwok) Hps) as (_ & _ & _ & Hall). by apply (proj1 (Forall_forall _ _) Hall p). }
  unfold run_contents in He. simpl in He. rewrite !elem_of_app in He. destruct He as [He|[He|He]].
  - apply list_elem_of_filter in He as [_ Hp]. destruct (Hpoint e Hp) as (k & Hk & Hle). by exists (ITERATOR i), k; eauto.
  - apply list_elem_of_fmap in He as (e' & -> & He). cbn [tomb_start fst]. destruct o as [r|]; [|by apply not_elem_of_nil in He]. simpl in He. destruct (starts r) as [|k l] eqn:Hs; [by apply not_elem_of_nil in He|].
    assert (Hk : item_pk s (DELETE_RANGE_START i) = Some k) by (simpl; rewrite Ho; simpl; by rewrite Hs).
    exists (DELETE_RANGE_START i), k. split_and!; [by eapply Hmem|done|]. apply elem_of_cons in He as [->|He]; [by rewrite CompareParsed_refl|].
    destruct (head_starts _ _ _ (run_rd_ok _ _ Hrun) Hs) as (_ & _ & Hall). by apply (proj1 (Forall_forall _ _) Hall e').
  - apply list_elem_of_fmap in He as (e' & -> & He). cbn [tomb_start fst]. destruct (pending_bound _ _ _ Hrun He) as (p & Hp & Hle). destruct (Hpoint _ Hp) as (k & Hk & Hle'). exists (ITERATOR i), k.
    split_and!; [by eapply Hmem|done|]. by eapply CompareParsed_trans.
Qed.

Lemma heap_empty_contents s : heaped s anyItem → runs_ok s → data_ (minHeap_ s) = [] → contents s = [].
Proof.
  intros Hh Hr He. destruct (contents s) as [|e l] eqn:E; [done|].
  destruct (contents_covered s e Hh Hr) as (it & k & Hit & _); [rewrite E; by left|]. rewrite He in Hit. by apply not_elem_of_nil in Hit.
Qed.
Lemma top_min s x tl cache k :
  heaped s anyItem → runs_ok s → minHeap_ s = mkHeap (x :: tl) cache → item_pk s x = Some k → Forall (λ e, key_le k e.1.1) (contents s).
Proof.
  intros Hh Hr Eh Hk. apply Forall_forall. intros e He. destruct (contents_covered s e Hh Hr He) as (it & k' & Hit & Hk' & Hle).
  destruct (heap_top _ _ _ _ _ Hh Eh) as [_ Hb]. rewrite Eh in Hit. eapply CompareParsed_trans; [by eapply (Hb it)|done].
Qed.

(** What an item stands for in the stream. *)
Definition item_entry s it : option (ParsedInternalKey * bytes * bool) :=
  match it with
  | ITERATOR i => w ← children_ s !! i; head (points (iter_ w))
  | DELETE_RANGE_START i => o ← range_tombstone_iters_ s !! i; tomb_start <$> head (slot_starts o)
  end.
Lemma item_entry_pk s it k : item_pk s it = Some k → ∃ e, item_entry s it = Some e ∧ e.1.1 = k.
Proof.
  destruct it as [i|i]; simpl.
  - destruct (children_ s !! i) as [w|]; [|done]. simpl. destruct (head (points (iter_ w))) as [e|]; [|done]. intros [= <-]. by exists e.
  - destruct (range_tombstone_iters_ s !! i) as [o|]; [|done]. simpl. destruct (head (slot_starts o)) as [k'|]; [|done]. intros [= <-]. by eexists.
Qed.
(** The current item moves on: its entry leaves the contents. *)
Lemma advance_spec s x tl cache e :
  heaped s anyItem → runs_ok s → visible_top s → minHeap_ s = mkHeap (x :: tl) cache → item_entry s x = Some e →
  ∃ s1, advance s x = Ok s1 ∧ heaped s1 anyItem ∧ runs_ok s1 ∧ contents s ≡ₚ e :: contents s1 ∧ (npoints s1 ≤ npoints s)%nat ∧
    (status_ s1 = None → status_ s = None).
Proof.
  intros Hh Hr Hvis Eh Hk. destruct (heap_top _ _ _ _ _ Hh Eh) as [Hlive Hb]. destruct x as [i|i]; cbn [advance].
  - destruct (member_child s i Hlive) as (w & k & b & l & Hw & Hp & _). simpl in Hk. rewrite Hw in Hk. simpl in Hk. rewrite Hp in Hk. injection Hk as <-. destruct (slot_of _ _ _ _ Hh Hw) as [o Ho].
    destruct (Hr _ _ _ Hw Ho) as [[Hit _] _]. destruct (head_points _ _ _ _ Hit Hp) as (_ & Hsent & _).
    rewrite (Hvis i tl w) in Hsent; [|by rewrite Eh|done]. subst b.
    destruct (advance_child_spec _ _ _ _ _ _ _ _ _ _ Hh Hr Eh Hw Ho Hp ltac:(done)) as (w' & o' & st & h & -> & Hh' & Hr' & Hp' & Hst & -> & Hpe).
    destruct (runs_moved s i w o w' o st h [(k, false)] Hw Ho) as [Hc Hn]; [unfold run_contents; simpl; rewrite Hp, filter_cons_True by done; by rewrite Hp', Hpe|].
    eexists. split; [done|]. split_and!; try done; [|rewrite Hp, Hp' in Hn; simpl in Hn; lia].
    eapply heaped_iff; [exact Hh'|]. intros it _. by unfold anyItem.
  - simpl in Hk. destruct (range_tombstone_iters_ s !! i) as [[r|]|] eqn:Ho; [|done..]. simpl in Hk. destruct (starts r) as [|k l] eqn:Hs; [done|].
    injection Hk as <-. destruct (advance_tomb_spec _ _ _ _ _ _ _ Hh Hr Eh Ho Hs) as (s1 & -> & Hh1 & Hr1 & Hl & Hch & Hsl & Hst).
    destruct (lookup_lt_is_Some_2 (children_ s) i) as [w Hw]; [rewrite <-(hp_slots _ _ Hh); by eapply lookup_lt_Some|].
    assert (Hruns : runs s1 = <[i := (iter_ w, Some (rd_next r))]> (runs s)).
    { unfold runs. rewrite Hch, Hsl. rewrite <-(list_insert_id (children_ s) i w Hw) at 1. by rewrite <-insert_zip_with. }
    pose proof (runs_lookup _ _ _ _ Hw Ho) as Hrl. exists s1. split_and!; try done; [..|by rewrite Hst].
    + unfold contents. rewrite Hruns. apply (concat_insert _ _ _ (iter_ w, Some r) _ [tomb_start k]); [done|]. unfold run_contents. simpl. rewrite Hs, Hl.
      cbn [fmap list_fmap app]. symmetry. apply Permutation_middle.
    + unfold npoints. rewrite Hruns. pose proof (sum_insert (λ run : C * option R, length (points run.1)) _ _ _ (iter_ w, Some (rd_next r)) Hrl) as Hsum.
      simpl in Hsum. lia.
Qed.

Lemma item_value s x k : heaped s anyItem → runs_ok s → visible_top s → head (data_ (minHeap_ s)) = Some x → live s x → item_pk s x = Some k →
  ∃ e, item_entry s x = Some e ∧ e.1.1 = k ∧
    match x with ITERATOR i => let* w := child s i in wrapper_value w | DELETE_RANGE_START _ => Ok [] end = Ok e.1.2 ∧
    e.2 = match x with ITERATOR _ => false | DELETE_RANGE_START _ => true end.
Proof.
  intros Hh Hr Hvis Hx Hlive Hk. destruct (item_entry_pk s x k Hk) as (e & He & Hek). exists e. split; [done|]. split; [done|]. destruct x as [i|i].
  - destruct (member_child s i Hlive) as (w & k' & b & l & Hw & Hp & _). simpl in He. rewrite Hw in He. simpl in He. rewrite Hp in He. injection He as <-.
    destruct (slot_of _ _ _ _ Hh Hw) as [o Ho]. destruct (Hr _ _ _ Hw Ho) as [Hwok _]. destruct (head_points _ _ _ _ (proj1 Hwok) Hp) as (_ & Hsent & _).
    destruct (data_ (minHeap_ s)) as [|y tl] eqn:Ed; [done|]. injection Hx as ->. rewrite (Hvis i tl w Ed Hw) in Hsent. subst b.
    unfold child. rewrite Hw. cbn [deref res_bind]. unfold wrapper_value. rewrite (proj2 (live_child s i w k' false l Hw Hwok Hp)). cbn [assert_ res_bind].
    by rewrite (head_value _ _ _ (proj1 Hwok) Hp).
  - simpl in He. destruct (range_tombstone_iters_ s !! i) as [o|]; [|done]. simpl in He. destruct (head (slot_starts o)) as [k'|]; [|done]. by injection He as <-.
Qed.
Lemma Next_spec fuel s :
  ready s → Valid s = true → (npoints s < fuel)%nat →
  ∃ e s', key s = Ok (encoded e.1.1) ∧ value s = Ok e.1.2 ∧ IsDeleteRangeSentinelKey s = Ok e.2 ∧ valid_key e.1.1 ∧ Next fuel s = Ok s' ∧ ready s' ∧
    contents s ≡ₚ e :: contents s' ∧ Forall (λ e', key_le e.1.1 e'.1.1) (contents s) ∧ (npoints s' ≤ npoints s)%nat ∧ (status_ s' = None → status_ s = None).
Proof.
  intros (Hh & Hr & Hvis & Hcur) Hval Hf. destruct (minHeap_ s) as [[|x tl] cache] eqn:Eh; [unfold Valid in Hval; by rewrite Hcur in Hval|].
  destruct (heap_top _ _ _ _ _ Hh Eh) as [Hlive _]. pose proof Hlive as (k & Hk & Hkey & Hvk & _). simpl in Hcur.
  destruct (item_value s x k Hh Hr Hvis ltac:(by rewrite Eh) Hlive Hk) as (e & He & <- & Hvalue & Hsent). exists e.
  destruct (advance_spec _ _ _ _ _ Hh Hr Hvis Eh He) as (s1 & Hmove & Hh1 & Hr1 & Hc1 & Hn1 & Hs1).
  destruct (finish_spec fuel s1 Hh1 Hr1 ltac:(lia)) as (s' & Hfin & Hready & Hc & Hn & Hst).
  exists s'. split; [unfold key; rewrite Hval, Hcur; exact Hkey|]. split; [unfold value; rewrite Hval, Hcur; exact Hvalue|].
  split; [unfold IsDeleteRangeSentinelKey; rewrite Hval, Hcur; cbn [assert_ res_bind deref]; by rewrite Hsent|]. split; [done|]. split.
  { unfold Next. rewrite Hval. cbn [assert_ res_bind]. unfold CurrentForward, top, empty. rewrite Eh. cbn [data_ length Nat.eqb negb assert_ res_bind item lookup list_lookup].
    rewrite bool_decide_eq_true_2 by done. rewrite Hcur. cbn [assert_ res_bind deref]. rewrite Hmove. exact Hfin. }
  split_and!; try done; [by rewrite Hc1, Hc|by eapply top_min|lia|auto].
Qed.

(** The consumer: [for (; it.Valid(); it.Next()) use(it.key(), it.value())]. *)
Fixpoint read_all (n fuel : nat) s : res (list (bytes * bytes * bool) * CMI C R) :=
  match n with
  | O => Fail OutOfFuel
  | S n =>
      if Valid s then
        let* k := key s in
        let* v := value s in
        let* b := IsDeleteRangeSentinelKey s in
        let* s := Next fuel s in
        let* (l, s) := read_all n fuel s in
        Ok ((k, v, b) :: l, s)
      else Ok ([], s)
  end.
Definition raw (e : ParsedInternalKey * bytes * bool) : bytes * bytes * bool := (encoded e.1.1, e.1.2, e.2).

Lemma read_all_spec n fuel s :
  ready s → (npoints s < fuel)%nat → (length (contents s) < n)%nat →
  ∃ es s', read_all n fuel s = Ok (raw <$> es, s') ∧ StronglySorted (λ a b, key_le a.1.1 b.1.1) es ∧ contents s ≡ₚ es ++ contents s' ∧
    Forall (λ e, valid_key e.1.1) es ∧ (status_ s' = None → contents s' = []).
Proof.
  revert s. induction n as [|n IH]; intros s Hr Hf Hn; [lia|]. simpl. destruct (Valid s) eqn:Hv.
  - destruct (Next_spec fuel s Hr Hv Hf) as (e & s1 & -> & Hvalue & Hsent & Hvk & Hnext & Hr1 & Hc & Hmin & Hn1 & _). cbn [res_bind]. rewrite Hvalue, Hsent. cbn [res_bind]. rewrite Hnext. cbn [res_bind].
    destruct (IH s1 Hr1) as (es & s' & -> & Hsort & Hc' & Hall & Hst); [lia|rewrite Hc in Hn; simpl in Hn; lia|].
    exists (e :: es), s'. cbn [res_bind]. split_and!; try done; [|by rewrite Hc, Hc'|by constructor]. constructor; [done|].
    apply Forall_forall. intros e' He. apply (proj1 (Forall_forall _ _) Hmin). rewrite Hc, Hc'. right. apply elem_of_app. by left.
  - exists [], s. split_and!; try done; [by constructor|]. intros Hs. destruct Hr as (Hh & Hr & _ & Hcur).
    apply heap_empty_contents; [done|done|]. unfold Valid in Hv. rewrite Hs, Hcur in Hv. by destruct (data_ (minHeap_ s)).
Qed.

(** ** Seeking *)
Lemma heaped_set_run s D i w o :
  heaped s D → ¬ D (ITERATOR i) → ¬ D (DELETE_RANGE_START i) → heaped (set_run s i w o) D.
Proof.
  intros [H1 H2 H3 H4 H5] Hi Hd.
  assert (Hsame : ∀ it, D it → item_pk (set_run s i w o) it = item_pk s it ∧ (live s it → live (set_run s i w o) it)).
  { intros it Hit. destruct (set_run_other s i w o it) as (? & _ & ?); [by intros ->|by intros ->|done]. }
  split; simpl; rewrite ?length_insert; try done.
  - revert H3. apply valid_heap_mono; [intros it [_ Hit]%H5; by apply Hsame|].
    intros a b [_ Ha]%H5 [_ Hb]%H5 Hab ka kb. rewrite (proj1 (Hsame a Ha)), (proj1 (Hsame b Hb)). apply Hab.
  - intros it. rewrite H5. split; intros [? Hit]; (split; [|done]); [by rewrite (proj1 (Hsame it Hit))|by rewrite <-(proj1 (Hsame it Hit))].
Qed.
Lemma heaped_set_slot s D i o : heaped s D → ¬ D (DELETE_RANGE_START i) → heaped (set_slot s i o) D.
Proof.
  intros [H1 H2 H3 H4 H5] Hd.
  assert (Hsame : ∀ it, D it → item_pk (set_slot s i o) it = item_pk s it ∧ (live s it → live (set_slot s i o) it)).
  { intros it Hit. destruct (set_slot_other s i o it) as (? & ? & _); [by intros ->|done]. }
  split; simpl; rewrite ?length_insert; try done.
  - revert H3. apply valid_heap_mono; [intros it [_ Hit]%H5; by apply Hsame|].
    intros a b [_ Ha]%H5 [_ Hb]%H5 Hab ka kb. rewrite (proj1 (Hsame a Ha)), (proj1 (Hsame b Hb)). apply Hab.
  - intros it. rewrite H5. split; intros [? Hit]; (split; [|done]); [by rewrite (proj1 (Hsame it Hit))|by rewrite <-(proj1 (Hsame it Hit))].
Qed.

Section seek.
Variable f : C → option R → C * option R.
Hypothesis f_ok : ∀ c o, opened c o → it_ok (f c o).1.
Definition wrapper_f (w : IteratorWrapper C) (o : option R) : res (IteratorWrapper C * option R) :=
  let '(c, o) := f (iter_ w) o in let* w := Update (mkWrapper c (valid_ w) (result_ w)) in Ok (w, o).

Lemma wrapper_f_spec w o : opened (iter_ w) o → ∃ w', wrapper_f w o = Ok (w', (f (iter_ w) o).2) ∧ wrapper_ok w' ∧ iter_ w' = (f (iter_ w) o).1.
Proof.
  intros Hop. unfold wrapper_f. pose proof (f_ok (iter_ w) o Hop) as Hok. destruct (f (iter_ w) o) as [c o']. simpl in *. unfold Update. cbn [iter_].
  destruct (it_valid c) eqn:Hv.
  - rewrite (valid_status c Hok Hv). cbn [status_ok assert_ res_bind]. eexists. split; [done|]. done.
  - cbn [res_bind]. eexists. split; [done|]. done.
Qed.

Definition all_opened s : Prop :=
  ∀ j w o, children_ s !! j = Some w → range_tombstone_iters_ s !! j = Some o → opened (iter_ w) o.
Definition iter_below (n : nat) : HeapItem → Prop := λ it, ∃ j, (j < n)%nat ∧ it = ITERATOR j.
(** The children below [i] are at their new positions, the others untouched. *)
Definition sought s0 s (i : nat) : Prop :=
  heaped s (iter_below i) ∧ length (children_ s) = length (children_ s0) ∧
  ∀ j w0 o0, children_ s0 !! j = Some w0 → range_tombstone_iters_ s0 !! j = Some o0 →
    if (j <? i)%nat then ∃ w, children_ s !! j = Some w ∧ wrapper_ok w ∧ iter_ w = (f (iter_ w0) o0).1 ∧
                              range_tombstone_iters_ s !! j = Some (f (iter_ w0) o0).2
    else children_ s !! j = Some w0 ∧ range_tombstone_iters_ s !! j = Some o0.

Lemma AddToMinHeap_spec s i w :
  heaped s (iter_below i) → children_ s !! i = Some w → wrapper_ok w →
  ∃ s', AddToMinHeapOrCheckStatus s i = Ok s' ∧ heaped s' (iter_below (S i)) ∧
    children_ s' = children_ s ∧ range_tombstone_iters_ s' = range_tombstone_iters_ s.
Proof.
  intros Hh Hw Hok. unfold AddToMinHeapOrCheckStatus, child. rewrite Hw. cbn [deref res_bind]. pose proof Hok as (Hit & Hval & _).
  destruct (points (iter_ w)) as [|[k b] l] eqn:Hp.
  - replace (valid_ w) with false by (symmetry; rewrite Hval; destruct (it_valid _) eqn:E; [|done]; by apply valid_points in E).
    exists (considerStatus s (it_status (iter_ w))). split; [done|].
    assert (Hh' : heaped s (iter_below (S i))).
    { eapply heaped_iff; [exact Hh|]. intros it Hpk. split; intros (j & Hj & ->); (exists j; split; [|done]); [lia|].
      destruct (decide (j = i)) as [->|]; [|lia]. simpl in Hpk. rewrite Hw in Hpk. simpl in Hpk. rewrite Hp in Hpk. by destruct Hpk. }
    unfold considerStatus. destruct (_ && _); [|done]. split_and!; try done. by destruct Hh'.
  - destruct (live_child s i w k b l Hw Hok Hp) as [Hlive Hv]. rewrite Hv, (valid_status _ Hit) by (by rewrite <-Hval). cbn [status_ok assert_ res_bind].
    destruct (heap_push_spec s _ (ITERATOR i) Hh Hlive) as (h & -> & Hh'); [intros [_ (j & Hj & [= <-])]%(hp_members _ _ Hh); lia|].
    eexists. split; [done|]. split_and!; try done. eapply heaped_iff; [exact Hh'|]. intros it _. split.
    + intros [(j & Hj & ->)| ->]; [exists j; split; [lia|done]|exists i; split; [lia|done]].
    + intros (j & Hj & ->). destruct (decide (j = i)) as [->|]; [by right|left; exists j; split; [lia|done]].
Qed.

Lemma seek_child_spec s0 s i :
  sought s0 s i → all_opened s0 → (i < length (children_ s0))%nat → length (range_tombstone_iters_ s0) = length (children_ s0) →
  ∃ s', seek_child wrapper_f s i = Ok s' ∧ sought s0 s' (S i).
Proof.
  intros (Hh & Hlen & Hs) Hop Hi Hl0. destruct (lookup_lt_is_Some_2 _ _ Hi) as [w0 Hw0].
  destruct (lookup_lt_is_Some_2 (range_tombstone_iters_ s0) i) as [o0 Ho0]; [lia|].
  pose proof (Hs _ _ _ Hw0 Ho0) as Hi0. rewrite (proj2 (Nat.ltb_ge _ _)) in Hi0 by lia. destruct Hi0 as [Hw Ho].
  unfold seek_child, child, slot. rewrite Hw, Ho. cbn [deref res_bind]. destruct (wrapper_f_spec w0 o0 (Hop _ _ _ Hw0 Ho0)) as (w & -> & Hok & Hit). cbn [res_bind].
  fold (set_run s i w (f (iter_ w0) o0).2). set (s1 := set_run s i w _).
  assert (Hc1 : children_ s1 !! i = Some w) by (apply list_lookup_insert_eq; lia).
  assert (Ho1 : range_tombstone_iters_ s1 !! i = Some (f (iter_ w0) o0).2) by (apply list_lookup_insert_eq; simpl; rewrite (hp_slots _ _ Hh); lia).
  destruct (AddToMinHeap_spec s1 i w) as (s' & -> & Hh' & Hch & Hsl); [|done|done|].
  { apply heaped_set_run; [done|intros (j & ? & [= <-]); lia|by intros (j & _ & [=])]. }
  exists s'. split; [done|]. split; [done|]. rewrite Hch, Hsl. split; [simpl; by rewrite length_insert|].
  intros j w1 o1 Hw1 Ho1'. destruct (decide (j = i)) as [->|Hne].
  - rewrite (proj2 (Nat.ltb_lt _ _)) by lia. simplify_eq. by exists w.
  - pose proof (Hs _ _ _ Hw1 Ho1') as Hj. simpl. rewrite !list_lookup_insert_ne by done.
    destruct (Nat.ltb_spec j i); [rewrite (proj2 (Nat.ltb_lt _ _)) by lia; exact Hj|rewrite (proj2 (Nat.ltb_ge _ _)) by lia; exact Hj].
Qed.
Lemma seek_children_spec s0 s i n :
  sought s0 s i → all_opened s0 → (i + n = length (children_ s0))%nat → length (range_tombstone_iters_ s0) = length (children_ s0) →
  ∃ s', for_each (seek_child wrapper_f) (seq i n) s = Ok s' ∧ sought s0 s' (i + n)%nat.
Proof.
  revert s i. induction n as [|n IH]; intros s i Hs Hop Hn Hl; [exists s; by rewrite Nat.add_0_r|]. simpl.
  destruct (seek_child_spec s0 s i Hs Hop ltac:(lia) Hl) as (s1 & -> & Hs1). cbn [res_bind].
  destruct (IH s1 (S i) Hs1 Hop ltac:(lia) Hl) as (s' & -> & Hs'). exists s'. by rewrite Nat.add_succ_comm in Hs'.
Qed.

(** Then the tombstone iterators. *)
Variables (g : R → res R) (G : R → R).
Definition tombs_below (n : nat) : HeapItem → Prop := λ it, match it with ITERATOR _ => True | DELETE_RANGE_START j => (j < n)%nat end.
Definition tombed s1 s (i : nat) : Prop :=
  heaped s (tombs_below i) ∧ children_ s = children_ s1 ∧
  ∀ j o, range_tombstone_iters_ s1 !! j = Some o → range_tombstone_iters_ s !! j = Some (if (j <? i)%nat then G <$> o else o).

Lemma seek_tomb_spec s1 s i :
  tombed s1 s i → (i < length (range_tombstone_iters_ s1))%nat →
  (∀ r, range_tombstone_iters_ s1 !! i = Some (Some r) → g r = Ok (G r) ∧ rd_ok (G r)) →
  ∃ s', seek_tomb g s i = Ok s' ∧ tombed s1 s' (S i).
Proof.
  intros (Hh & Hch & Hs) Hi Hg. destruct (lookup_lt_is_Some_2 _ _ Hi) as [o Ho]. pose proof (Hs _ _ Ho) as Ho'.
  rewrite (proj2 (Nat.ltb_ge _ _)) in Ho' by lia. unfold seek_tomb, slot. rewrite Ho'. cbn [deref res_bind].
  assert (Hnot : ¬ tombs_below i (DELETE_RANGE_START i)) by (simpl; lia).
  assert (Hstep : ∀ sl : list (option R), (∀ j, j ≠ i → sl !! j = range_tombstone_iters_ s !! j) → sl !! i = Some (G <$> o) →
    ∀ j o, range_tombstone_iters_ s1 !! j = Some o → sl !! j = Some (if (j <? S i)%nat then G <$> o else o)).
  { intros sl Hne Heq j o1 Hj. destruct (decide (j = i)) as [->|]; [rewrite (proj2 (Nat.ltb_lt _ _)) by lia; congruence|].
    rewrite Hne by done. rewrite (Hs _ _ Hj). destruct (Nat.ltb_spec j i); [by rewrite (proj2 (Nat.ltb_lt _ _)) by lia|by rewrite (proj2 (Nat.ltb_ge _ _)) by lia]. }
  destruct o as [r|].
  - destruct (Hg r Ho) as [-> Hrd]. cbn [res_bind].
    assert (Hsl : range_tombstone_iters_ (set_slot s i (Some (G r))) !! i = Some (Some (G r))) by (apply list_lookup_insert_eq; by eapply lookup_lt_Some).
    destruct (InsertRangeTombstone_spec (set_slot s i (Some (G r))) (tombs_below i) i (G r)) as (s' & -> & Hh' & Hsame); [by apply heaped_set_slot|done|done|done|].
    exists s'. split; [done|]. destruct Hsame as (E1 & E2 & _). split; [|split; [by rewrite E1|]].
    + eapply heaped_iff; [exact Hh'|]. intros [j|j] _; simpl; [tauto|]. split; [intros [?|[= ->]]; lia|]. intros Hj.
      destruct (decide (j = i)) as [->|]; [by right|left; lia].
    + rewrite E2. apply Hstep; [intros j Hj; simpl; by rewrite list_lookup_insert_ne|done].
  - exists s. split; [done|]. split; [|split; [done|by apply Hstep]]. eapply heaped_iff; [exact Hh|]. intros [j|j] Hpk; simpl in *; [tauto|].
    split; [lia|]. intros Hj. destruct (decide (j = i)) as [->|]; [|lia]. rewrite Ho' in Hpk. by destruct Hpk.
Qed.
Lemma seek_tombs_spec s1 s i n :
  tombed s1 s i → (i + n = length (range_tombstone_iters_ s1))%nat →
  (∀ j r, range_tombstone_iters_ s1 !! j = Some (Some r) → g r = Ok (G r) ∧ rd_ok (G r)) →
  ∃ s', for_each (seek_tomb g) (seq i n) s = Ok s' ∧ tombed s1 s' (i + n)%nat.
Proof.
  revert s i. induction n as [|n IH]; intros s i Hs Hn Hg; [exists s; by rewrite Nat.add_0_r|]. simpl.
  destruct (seek_tomb_spec s1 s i Hs ltac:(lia) (Hg i)) as (s2 & -> & Hs2). cbn [res_bind].
  destruct (IH s2 (S i) Hs2 ltac:(lia) Hg) as (s' & -> & Hs'). exists s'. by rewrite Nat.add_succ_comm in Hs'.
Qed.

(** Both loops of a seek. *)
Definition sought_run (run : C * option R) : C * option R := ((f run.1 run.2).1, G <$> (f run.1 run.2).2).
Lemma seek_loops_spec s :
  length (tombstone_str s) = length (children_ s) → length (range_tombstone_iters_ s) = length (children_ s) →
  all_opened s → (∀ c o, (c, o) ∈ runs s → run_ok (f c o).1 (G <$> (f c o).2)) →
  (∀ c o r, (c, o) ∈ runs s → (f c o).2 = Some r → g r = Ok (G r)) →
  ∃ s1 s2, for_each (seek_child wrapper_f) (seq 0 (length (children_ (restart s)))) (restart s) = Ok s1 ∧
    for_each (seek_tomb g) (seq 0 (length (range_tombstone_iters_ s1))) s1 = Ok s2 ∧
    heaped s2 anyItem ∧ runs_ok s2 ∧ runs s2 = sought_run <$> runs s.
Proof.
  intros Hl1 Hl2 Hop Hrun Hg.
  assert (Hin : ∀ j w o, children_ s !! j = Some w → range_tombstone_iters_ s !! j = Some o → (iter_ w, o) ∈ runs s)
    by (intros j w o Hw Ho; eapply list_elem_of_lookup_2; by apply runs_lookup).
  assert (Hs0 : sought (restart s) (restart s) 0).
  { split; [|done]. split; [done|done|split; [|done]; by intros i ? x y ? Hy|by constructor|].
    intros it. split; [by intros ?%not_elem_of_nil|]. intros (_ & j & Hj & _). lia. }
  destruct (seek_children_spec _ _ 0 (length (children_ (restart s))) Hs0 Hop eq_refl Hl2) as (s1 & H1 & Hh1 & Hlen1 & Hs1). simpl in Hlen1, Hs1.
  assert (Hslots : length (range_tombstone_iters_ s1) = length (children_ s)) by (rewrite (hp_slots _ _ Hh1); done).
  assert (Hat : ∀ j w o, children_ s !! j = Some w → range_tombstone_iters_ s !! j = Some o → ∃ w', children_ s1 !! j = Some w' ∧ wrapper_ok w' ∧
    iter_ w' = (f (iter_ w) o).1 ∧ range_tombstone_iters_ s1 !! j = Some (f (iter_ w) o).2).
  { intros j w o Hw Ho. pose proof (Hs1 j w o Hw Ho) as Hj. rewrite (proj2 (Nat.ltb_lt _ _)) in Hj by (by eapply lookup_lt_Some). exact Hj. }
  assert (Ht0 : tombed s1 s1 0).
  { split; [|split; [done|by intros j o Ho]]. eapply heaped_iff; [exact Hh1|]. simpl. intros [j|j] Hpk; simpl; [|split; [by intros (? & _ & ?)|lia]].
    split; [done|]. intros _. exists j. split; [|done]. simpl in Hpk. destruct (children_ s1 !! j) eqn:E; [|by destruct Hpk].
    apply lookup_lt_Some in E. lia. }
  destruct (seek_tombs_spec s1 s1 0 (length (range_tombstone_iters_ s1)) Ht0 eq_refl) as (s2 & H2 & Hh2 & Hch & Hs2).
  { intros j r Hj. pose proof (lookup_lt_Some _ _ _ Hj) as Hlt. rewrite Hslots in Hlt. destruct (lookup_lt_is_Some_2 _ _ Hlt) as [w Hw].
    destruct (lookup_lt_is_Some_2 (range_tombstone_iters_ s) j) as [o Ho]; [lia|]. destruct (Hat j w o Hw Ho) as (w' & _ & _ & _ & Hsl).
    rewrite Hsl in Hj. injection Hj as Hj. split; [eapply Hg; [by eapply Hin|done]|]. pose proof (Hrun (iter_ w) o (Hin _ _ _ Hw Ho)) as Hr. rewrite Hj in Hr. by eapply run_rd_ok. }
  simpl in Hh2, Hs2. assert (Hat2 : ∀ j w o, children_ s !! j = Some w → range_tombstone_iters_ s !! j = Some o → ∃ w', children_ s2 !! j = Some w' ∧ wrapper_ok w' ∧
    iter_ w' = (f (iter_ w) o).1 ∧ range_tombstone_iters_ s2 !! j = Some (G <$> (f (iter_ w) o).2)).
  { intros j w o Hw Ho. destruct (Hat j w o Hw Ho) as (w' & H3 & H4 & H5 & H6). exists w'. rewrite Hch. split_and!; try done.
    rewrite (Hs2 _ _ H6), (proj2 (Nat.ltb_lt _ _)) by (by eapply lookup_lt_Some). done. }
  exists s1, s2. split; [done|]. split; [done|]. split; [|split].
  - eapply heaped_iff; [exact Hh2|]. intros [j|j] Hpk; [done|]. split; [done|]. intros _. simpl in *.
    destruct (range_tombstone_iters_ s2 !! j) eqn:E; [|by destruct Hpk]. apply lookup_lt_Some in E. rewrite (hp_slots _ _ Hh2), Hch in E. lia.
  - intros j w2 o2 Hw2 Ho2. pose proof (lookup_lt_Some _ _ _ Hw2) as Hlt. rewrite Hch, Hlen1 in Hlt. destruct (lookup_lt_is_Some_2 _ _ Hlt) as [w Hw].
    destruct (lookup_lt_is_Some_2 (range_tombstone_iters_ s) j) as [o Ho]; [lia|]. destruct (Hat2 j w o Hw Ho) as (w' & H3 & H4 & H5 & H6).
    rewrite Hw2 in H3. rewrite Ho2 in H6. injection H3 as <-. injection H6 as ->. split; [done|]. rewrite H5. apply Hrun. by eapply Hin.
  - apply list_eq. intros j. unfold runs. rewrite list_lookup_fmap, !lookup_zip_with. destruct (children_ s !! j) as [w|] eqn:Hw; simpl.
    + destruct (lookup_lt_is_Some_2 (range_tombstone_iters_ s) j) as [o Ho]; [rewrite Hl2; by eapply lookup_lt_Some|].
      destruct (Hat2 j w o Hw Ho) as (w' & H3 & _ & H5 & H6). rewrite H3, H6, Ho. simpl. by rewrite H5.
    + rewrite (proj2 (lookup_ge_None (children_ s2) j)); [done|]. rewrite Hch, Hlen1. by apply lookup_ge_None.
Qed.
End seek.

Lemma runs_opened s : (∀ run, run ∈ runs s → opened run.1 run.2) → all_opened s.
Proof. intros Hop j w o Hw Ho. apply (Hop (iter_ w, o)). eapply list_elem_of_lookup_2. by apply runs_lookup. Qed.



End Laws.

(** The whole stream from a seek to the first key. *)
Lemma merged_stream `{UC : Comparator} `{UL : !ComparatorLaws UC} {C R : Type} `{TO : !TombOps R} `{IO : !IterOps C R}
    `{RL : !RunLaws C R} (s : CMI C R) (fuel n : nat) :
  let first := sought_run it_seek_first rd_seek_first <$> runs s in
  let all := concat (run_contents <$> first) in
  length (tombstone_str s) = length (children_ s) → length (range_tombstone_iters_ s) = length (children_ s) →
  (∀ run, run ∈ runs s → opened run.1 run.2) →
  (sum_list_with (λ run, length (points run.1)) first < fuel)%nat → (length all < n)%nat →
  ∃ s0 ks s', SeekToFirst fuel s = Ok s0 ∧ read_all n fuel s0 = Ok (raw <$> ks, s') ∧
    StronglySorted (λ a b, CompareParsed a.1.1 b.1.1 ≤ 0) ks ∧ Forall (λ e, valid_key e.1.1) ks ∧ all ≡ₚ ks ++ contents s' ∧
    (status_ s' = None → all ≡ₚ ks).
Proof.
  intros first all Hl1 Hl2 Hop Hf Hn.
  destruct (seek_loops_spec it_seek_first) with (g := λ r : R, Ok (rd_seek_first r)) (G := @rd_seek_first R TO) (s := s) as (s1 & s2 & H1 & H2 & Hh & Hr & Hruns);
    [|done|done|by apply runs_opened| |done|].
  { intros c o Ho. pose proof (seek_first c o Ho) as Hs. destruct (it_seek_first c o). apply Hs. }
  { intros c o Ho. pose proof (seek_first c o (Hop _ Ho)) as Hs. destruct (it_seek_first c o). apply Hs. }
  fold first in Hruns. destruct (finish_spec fuel s2 Hh Hr) as (s0 & Hfin & Hready & Hc & Hnp & _); [unfold npoints; by rewrite Hruns|].
  assert (Hall : contents s2 = all) by (unfold contents; by rewrite Hruns). rewrite Hall in Hc.
  destruct (read_all_spec n fuel s0 Hready) as (ks & s' & Hread & Hsort & Hperm & Hvalid & Hst); [unfold npoints in Hnp at 2; rewrite Hruns in Hnp; lia|by rewrite <-Hc|].
  exists s0, ks, s'. split_and!; try done.
  - unfold SeekToFirst. change (wrapper_SeekToFirst) with (wrapper_f (R := R) (C := C) it_seek_first). rewrite H1. cbn [res_bind]. rewrite H2. exact Hfin.
  - by rewrite Hc.
  - intros Hs. rewrite Hc, Hperm, (Hst Hs). by rewrite app_nil_r.
Qed.

(** C23: the merging iterator gives every entry once, in order.  Seek to the first key
    of any number of runs, with file boundaries and range tombstones that appear
    as files are entered, and read until the iterator is not valid: no assertion
    fails, the keys read are sorted, together with what is left they are exactly
    the point keys with their values and the tombstone start keys, marked as such,
    of the runs, and nothing is left unless the iterator reports an error.  Fuel above the number of point keys
    is enough. *)
Theorem merge_gives_all_in_order `{UC : Comparator} `{UL : !ComparatorLaws UC} {C R : Type} `{TO : !TombOps R} `{IO : !IterOps C R}
    `{RL : !RunLaws C R} (s : CMI C R) (fuel n : nat) :
  let first := sought_run it_seek_first rd_seek_first <$> runs s in
  let all := concat (run_contents <$> first) in
  length (tombstone_str s) = length (children_ s) → length (range_tombstone_iters_ s) = length (children_ s) →
  (∀ run, run ∈ runs s → opened run.1 run.2) →
  (sum_list_with (λ run, length (points run.1)) first < fuel)%nat → (length all < n)%nat →
  ∃ s0 ks s', SeekToFirst fuel s = Ok s0 ∧ read_all n fuel s0 = Ok (raw <$> ks, s') ∧
    StronglySorted (λ a b, CompareParsed a.1.1 b.1.1 ≤ 0) ks ∧ Forall (λ e, valid_key e.1.1) ks ∧ all ≡ₚ ks ++ contents s' ∧
    (status_ s' = None → all ≡ₚ ks).
Proof. apply merged_stream. Qed.

