(* ===== verification/VectorIter.v ===== *)
(** * An iterator over a vector of keys (rocksdb [util/vector_iterator.h])

    [VectorIterator] with an internal-key comparator implements the interface the
    merging iterator is proved against.  [std::sort] is a parameter that returns a
    sorted permutation; [std::lower_bound] on a sorted range is the length of the
    prefix before the target. *)
From S2P Require Import Prelude Slice Coding Comparator DbFormat Heap MergeIter MergeIterThm.
Local Open Scope Z_scope.

Record VectorIterator := mkVec { keys_ : list bytes; values_ : list bytes; v_current_ : Z; indices_ : list nat }.

Section Vector.
Context (cmp : bytes → bytes → Z) (std_sort : (nat → nat → bool) → list nat → list nat).

Definition key_at (keys : list bytes) (i : nat) : bytes := default [] (keys !! i).
Definition mkVectorIterator (keys values : list bytes) : res VectorIterator :=
  let* _ := assert_ (length keys =? length values)%nat in
  let indices := std_sort (λ a b, cmp (key_at keys a) (key_at keys b) <? 0) (seq 0 (length keys)) in
  Ok (mkVec keys values (Z.of_nat (length keys)) indices).

Definition vec_Valid (v : VectorIterator) : bool :=
  negb (length (indices_ v) =? 0)%nat && (v_current_ v <? Z.of_nat (length (indices_ v))).
Definition at_position (v : VectorIterator) (p : Z) : VectorIterator := mkVec (keys_ v) (values_ v) p (indices_ v).
Definition vec_SeekToFirst (v : VectorIterator) : VectorIterator := at_position v 0.
Definition vec_SeekToLast (v : VectorIterator) : VectorIterator := at_position v (u64 (Z.of_nat (length (indices_ v)) - 1)).
Definition vec_Next (v : VectorIterator) : VectorIterator := at_position v (u64 (v_current_ v + 1)).
Definition vec_Prev (v : VectorIterator) : VectorIterator := at_position v (u64 (v_current_ v - 1)).

(** The number of leading elements that satisfy [p]. *)
Fixpoint prefix_length (p : nat → bool) (l : list nat) : nat :=
  match l with [] => 0 | i :: l => if p i then S (prefix_length p l) else 0 end.
Definition vec_Seek (target : bytes) (v : VectorIterator) : VectorIterator :=
  at_position v (Z.of_nat (prefix_length (λ i, cmp (key_at (keys_ v) i) target <? 0) (indices_ v))).
Definition vec_SeekForPrev (target : bytes) (v : VectorIterator) : VectorIterator :=
  let v := at_position v (Z.of_nat (prefix_length (λ i, negb (cmp target (key_at (keys_ v) i) <? 0)) (indices_ v))) in
  if negb (vec_Valid v) then vec_SeekToLast v else vec_Prev v.

Definition vec_index (v : VectorIterator) : nat := default O (indices_ v !! Z.to_nat (v_current_ v)).
Definition vec_key (v : VectorIterator) : bytes := key_at (keys_ v) (vec_index v).
Definition vec_value (v : VectorIterator) : bytes := key_at (values_ v) (vec_index v).
End Vector.

(** ** The interface *)
Section Instance.
Context `{UC : Comparator} `{UL : !ComparatorLaws UC}.

(** [InternalKeyComparator::Compare]; on keys of at least eight bytes it returns. *)
Definition icmp (a b : bytes) : Z := match CompareSlices a b with Ok r => r | Fail _ => 0 end.

(** A tombstone iterator over a list of start keys: all of them, and those left. *)
Record TombList := mkTombs { tombs_all : list ParsedInternalKey; tombs_left : list ParsedInternalKey }.
Definition no_key : ParsedInternalKey := mkParsed [] 0 0.
#[export] Instance tomb_ops : TombOps TombList := {|
  rd_valid r := negb (length (tombs_left r) =? 0)%nat;
  rd_start_key r := default no_key (head (tombs_left r));
  rd_next r := mkTombs (tombs_all r) (tail (tombs_left r));
  rd_seek_first r := mkTombs (tombs_all r) (tombs_all r);
  rd_seek _ r := mkTombs (tombs_all r) (tombs_all r) |}.
#[export] Instance vec_ops : IterOps VectorIterator TombList := {|
  it_valid := vec_Valid;
  it_key := vec_key;
  it_value := vec_value;
  it_status _ := None;
  it_sentinel _ := false;
  it_lower _ := true;
  it_next_result v o := let v := vec_Next v in (v, o, if vec_Valid v then Some (mkResult (vec_key v) kUnknown false) else None);
  it_seek_first v o := (vec_SeekToFirst v, o);
  it_seek t v o := (vec_Seek icmp t v, o) |}.

Definition parsed (b : bytes) : ParsedInternalKey := match ParseInternalKey b with Ok (Some k) => k | _ => no_key end.
Definition vec_points (v : VectorIterator) : list (ParsedInternalKey * bytes * bool) :=
  (λ i, (parsed (key_at (keys_ v) i), key_at (values_ v) i, false)) <$> drop (Z.to_nat (v_current_ v)) (indices_ v).

(** Encodings of point keys, in order, at a position that fits in [size_t]. *)
Definition vec_ok (v : VectorIterator) : Prop :=
  Forall (λ i, ∃ k, key_at (keys_ v) i = encoded k ∧ valid_key k ∧ IsValueType (type k) = true) (indices_ v) ∧
  StronglySorted (λ i j, key_le (parsed (key_at (keys_ v) i)) (parsed (key_at (keys_ v) j))) (indices_ v) ∧
  0 ≤ v_current_ v ∧ Z.of_nat (length (indices_ v)) < 2 ^ 63.
Definition tombs_ok (l : list ParsedInternalKey) : Prop :=
  StronglySorted (λ a b, key_le a b) l ∧ Forall (λ k, valid_key k ∧ type k = kTypeRangeDeletion) l.

Lemma parsed_encoded k : valid_key k → parsed (encoded k) = k.
Proof. intros Hk. unfold parsed. by rewrite parse_encoded. Qed.
Lemma vec_valid_points v : vec_ok v → vec_Valid v = true ↔ vec_points v ≠ [].
Proof.
  intros (_ & _ & Hc & _). unfold vec_Valid, vec_points. rewrite andb_true_iff, negb_true_iff, Nat.eqb_neq, Z.ltb_lt.
  rewrite <-length_zero_iff_nil, length_fmap, length_drop. lia.
Qed.
Lemma vec_current v p l : vec_ok v → vec_points v = p :: l →
  ∃ i k, indices_ v !! Z.to_nat (v_current_ v) = Some i ∧ vec_key v = encoded k ∧ p = (k, vec_value v, false) ∧ valid_key k ∧ IsValueType (type k) = true ∧
    l = (λ i, (parsed (key_at (keys_ v) i), key_at (values_ v) i, false)) <$> drop (S (Z.to_nat (v_current_ v))) (indices_ v) ∧ Forall (λ q, key_le k q.1.1) l.
Proof.
  intros (Hk & Hs & Hc & Hl) Hp. unfold vec_points in Hp. destruct (drop (Z.to_nat (v_current_ v)) (indices_ v)) as [|i rest] eqn:Hd; [done|].
  assert (Hi : indices_ v !! Z.to_nat (v_current_ v) = Some i).
  { rewrite <-(Nat.add_0_r (Z.to_nat (v_current_ v))), <-lookup_drop, Hd. done. }
  destruct (proj1 (Forall_lookup _ _) Hk _ _ Hi) as (k & Hkey & Hv & Ht). exists i, k. simpl in Hp. rewrite Hkey, parsed_encoded in Hp by done.
  injection Hp as <- <-. unfold vec_key, vec_value, vec_index. rewrite Hi. simpl. rewrite Hkey. split_and!; try done.
  - f_equal. by rewrite <-Nat.add_1_r, <-drop_drop, Hd.
  - assert (Hs2 : StronglySorted (λ i j, key_le (parsed (key_at (keys_ v) i)) (parsed (key_at (keys_ v) j))) (i :: rest)).
    { rewrite <-Hd. clear -Hs. revert Hs. generalize (Z.to_nat (v_current_ v)). induction (indices_ v) as [|x l IH]; intros [|n] Hs; simpl; try done.
      inversion Hs; subst. by apply IH. }
    apply StronglySorted_inv in Hs2 as [_ Hall]. rewrite Forall_fmap. eapply Forall_impl; [exact Hall|]. intros j Hj. simpl.
    by rewrite Hkey, parsed_encoded in Hj.
Qed.

Lemma in_drop {A} n (l : list A) x : x ∈ drop n l → x ∈ l.
Proof. intros Hx. rewrite <-(take_drop n l). apply elem_of_app. by right. Qed.
Lemma tombs_head k l : tombs_ok (k :: l) → valid_key k ∧ Forall (λ q, key_le k q) l ∧ tombs_ok l.
Proof.
  intros [Hs Hv]. apply StronglySorted_inv in Hs as [Hs Hall]. apply Forall_cons in Hv as [[Hk _] Hv]. done.
Qed.
Lemma vec_next_ok v p l : vec_ok v → vec_points v = p :: l → vec_ok (vec_Next v) ∧ vec_points (vec_Next v) = l.
Proof.
  intros Hv Hp. destruct (vec_current v p l Hv Hp) as (i & k & Hi & _ & _ & _ & _ & -> & _). apply lookup_lt_Some in Hi.
  destruct Hv as (Hk & Hs & Hc & Hl). assert (Hn : u64 (v_current_ v + 1) = v_current_ v + 1) by (apply u64_id; lia).
  unfold vec_Next, vec_points, vec_ok. cbn [keys_ indices_ v_current_ at_position]. rewrite Hn. split; [split_and!; try done; lia|].
  by replace (Z.to_nat (v_current_ v + 1)) with (S (Z.to_nat (v_current_ v))) by lia.
Qed.

(** Past the prefix before the target, every key is at or after it. *)
Lemma prefix_rest (P : nat → bool) (le : nat → nat → Prop) l :
  StronglySorted le l → (∀ i j, i ∈ l → j ∈ l → le i j → P i = false → P j = false) → Forall (λ i, P i = false) (drop (prefix_length P l) l).
Proof.
  intros Hs Hmono. induction Hs as [|i l Hs IH Hall]; [by constructor|]. simpl. destruct (P i) eqn:E.
  - simpl. apply IH. intros a b Ha Hb. apply Hmono; by right.
  - simpl. constructor; [done|]. apply Forall_forall. intros j Hj. apply (Hmono i j); [by left|by right| |done].
    by apply (proj1 (Forall_forall _ _) Hall).
Qed.
Lemma vec_seek_ok v t : vec_ok v → valid_key t →
  vec_ok (vec_Seek icmp (encoded t) v) ∧ Forall (λ p, key_le t p.1.1) (vec_points (vec_Seek icmp (encoded t) v)).
Proof.
  intros (Hk & Hs & Hc & Hl) Ht. unfold vec_Seek. split; [split_and!; try done; cbn; lia|].
  unfold vec_points. cbn [keys_ indices_ v_current_ at_position]. rewrite Nat2Z.id, Forall_fmap.
  rewrite Forall_forall in Hk. assert (Hcmp : ∀ i, i ∈ indices_ v → icmp (key_at (keys_ v) i) (encoded t) = CompareParsed (parsed (key_at (keys_ v) i)) t).
  { intros i Hi. destruct (Hk i Hi) as (k & -> & Hv & _). unfold icmp. by rewrite CompareSlices_encoded, parsed_encoded by done. }
  assert (Hrest := prefix_rest (λ i, icmp (key_at (keys_ v) i) (encoded t) <? 0) _ _ Hs).
  rewrite Forall_forall in Hrest |- *. intros i Hi. simpl.
  assert (Hin : i ∈ indices_ v) by (by eapply in_drop).
  assert (Hge : (icmp (key_at (keys_ v) i) (encoded t) <? 0) = false).
  { apply Hrest; [|done]. intros a b Ha Hb Hab. rewrite !Hcmp by done. rewrite !Z.ltb_ge. intros H0.
    pose proof (CompareParsed_opp (parsed (key_at (keys_ v) a)) t). pose proof (CompareParsed_opp (parsed (key_at (keys_ v) b)) t).
    pose proof (CompareParsed_trans t (parsed (key_at (keys_ v) a)) (parsed (key_at (keys_ v) b))). lia. }
  rewrite Hcmp, Z.ltb_ge in Hge by done. pose proof (CompareParsed_opp (parsed (key_at (keys_ v) i)) t). lia.
Qed.

(** The implementation keeps the contract. *)
#[export] Program Instance vector_laws : RunLaws VectorIterator TombList := {|
  points := vec_points;
  starts := tombs_left;
  pending _ := [];
  it_ok := vec_ok;
  rd_ok r := tombs_ok (tombs_left r);
  run_ok v o := vec_ok v ∧ ∀ r, o = Some r → tombs_ok (tombs_left r);
  opened v o := vec_ok v ∧ ∀ r, o = Some r → tombs_ok (tombs_all r) |}.
Next Obligation. by intros c o [? _]. Qed.
Next Obligation. intros c r [_ Hr]. by apply Hr. Qed.
Next Obligation. intros c. apply vec_valid_points. Qed.
Next Obligation. done. Qed.
Next Obligation.
  intros c k b l Hc Hp. destruct (vec_current c _ _ Hc Hp) as (i & k' & _ & Hkey & [= -> ->] & Hv & _ & _ & Hall). done.
Qed.
Next Obligation.
  intros c k l Hc Hp. destruct (vec_current c _ _ Hc Hp) as (i & k' & _ & _ & [= ->] & _). done.
Qed.
Next Obligation. intros r _. simpl. by destruct (tombs_left r). Qed.
Next Obligation. intros r k l Hr Hs. simpl in *. rewrite Hs in *. destruct (tombs_head _ _ Hr) as (? & ? & _). done. Qed.
Next Obligation.
  intros c r p k (Hc & _) [_ Hr] Hp Hk E. apply list_elem_of_fmap in Hp as (i & -> & Hi%in_drop).
  destruct (proj1 (Forall_forall _ _) Hc i Hi) as (k' & Hkey & Hv & Ht). simpl in E. rewrite Hkey, parsed_encoded in E by done.
  destruct (proj1 (Forall_forall _ _) Hr k Hk) as [_ Hty].
  pose proof (proj1 (CompareParsed_le k' k)) as H1. pose proof (proj1 (CompareParsed_le k k')) as H2. pose proof (CompareParsed_opp k' k).
  pose proof (Compare_opp (user_key k') (user_key k)). assert (Et : type k' = type k) by lia. rewrite Et, Hty in Ht. done.
Qed.
Next Obligation.
  intros c r k l s0 [Hc _] Hp _. destruct (vec_current c _ _ Hc Hp) as (i & k' & _ & _ & [=] & _).
Qed.
Next Obligation. intros c o s0 _ Hs. by apply not_elem_of_nil in Hs. Qed.
Next Obligation.
  intros c o k b l [Hc Hr] Hp _. destruct (vec_next_ok c _ _ Hc Hp) as [Hn Hl]. simpl.
  destruct (vec_current c _ _ Hc Hp) as (i & k' & _ & _ & [= -> ->] & _). split_and!; try done. by destruct (vec_Valid (vec_Next c)).
Qed.
Next Obligation.
  intros c r k l [Hc Hr] Hs. pose proof (Hr r eq_refl) as Ht. simpl in *. rewrite Hs in *. destruct (tombs_head _ _ Ht) as (_ & _ & Hl).
  split_and!; try done. by intros r' [= <-].
Qed.
Next Obligation.
  intros c o [(Hk & Hs & Hc & Hl) Hr]. assert (Hok : vec_ok (vec_SeekToFirst c)) by done. simpl. split_and!; try done.
  intros r. destruct o as [r0|]; [|done]. intros [= <-]. simpl. by apply Hr.
Qed.
Next Obligation.
  intros t c o [Hc Hr] Ht. simpl. destruct (vec_seek_ok c t Hc Ht) as [H1 H2]. split_and!; try done.
  intros r. destruct o as [r0|]; [|done]. intros [= <-]. simpl. by apply Hr.
Qed.
End Instance.

Section Open.
Context `{UC : Comparator} `{UL : !ComparatorLaws UC} (std_sort : (nat → nat → bool) → list nat → list nat).
(** What [std::sort] promises for a strict weak order. *)
Hypothesis std_sort_perm : ∀ lt l, std_sort lt l ≡ₚ l.
Hypothesis std_sort_sorted : ∀ lt l,
  (∀ a b c, a ∈ l → b ∈ l → c ∈ l → lt b a = false → lt c b = false → lt c a = false) → (∀ a b, a ∈ l → b ∈ l → lt a b = false ∨ lt b a = false) →
  StronglySorted (λ a b, lt b a = false) (std_sort lt l).

(** A new iterator over encoded point keys is ready to seek, whatever their order. *)
Lemma vector_opens (es : list (ParsedInternalKey * bytes)) :
  Forall (λ k, valid_key k ∧ IsValueType (type k) = true) es.*1 → Z.of_nat (length es) < 2 ^ 63 →
  ∃ v, mkVectorIterator icmp std_sort (encoded <$> es.*1) es.*2 = Ok v ∧ opened v None ∧ vec_points (vec_SeekToFirst v) ≡ₚ (λ e, (e, false)) <$> es.
Proof.
  intros Hks Hb. unfold mkVectorIterator. rewrite !length_fmap, Nat.eqb_refl. cbn [assert_ res_bind]. eexists. split; [done|]. set (ks := es.*1) in *.
  assert (Hlen : length ks = length es) by apply length_fmap. rewrite <- Hlen in *.
  set (lt := λ a b, _). assert (Hat : ∀ i, i ∈ seq 0 (length ks) → ∃ k, ks !! i = Some k ∧ key_at (encoded <$> ks) i = encoded k ∧ valid_key k ∧ IsValueType (type k) = true).
  { intros i Hi%elem_of_seq. destruct (lookup_lt_is_Some_2 ks i) as [k Hk]; [lia|]. exists k. unfold key_at. rewrite list_lookup_fmap, Hk. split; [done|]. split; [done|].
    by apply (proj1 (Forall_lookup _ _) Hks i k). }
  assert (Hcmp : ∀ i j, i ∈ seq 0 (length ks) → j ∈ seq 0 (length ks) →
    lt i j = (CompareParsed (parsed (key_at (encoded <$> ks) i)) (parsed (key_at (encoded <$> ks) j)) <? 0)).
  { intros i j Hi Hj. destruct (Hat i Hi) as (ki & _ & Ei & Hvi & _), (Hat j Hj) as (kj & _ & Ej & Hvj & _). unfold lt. rewrite Ei, Ej.
    unfold icmp. by rewrite CompareSlices_encoded, !parsed_encoded by done. }
  assert (Hin : ∀ i, i ∈ std_sort lt (seq 0 (length ks)) → i ∈ seq 0 (length ks)) by (intros i; by rewrite std_sort_perm).
  assert (Hs : StronglySorted (λ a b, lt b a = false) (std_sort lt (seq 0 (length ks)))).
  { apply std_sort_sorted.
    - intros a b c Ha Hb' Hc. rewrite !Hcmp by done. rewrite !Z.ltb_ge. set (k i := parsed (key_at (encoded <$> ks) i)). fold (k a) (k b) (k c).
      intros H1 H2. pose proof (CompareParsed_trans (k a) (k b) (k c)). pose proof (CompareParsed_opp (k b) (k a)). pose proof (CompareParsed_opp (k c) (k b)). pose proof (CompareParsed_opp (k c) (k a)). lia.
    - intros a b Ha Hb'. rewrite !Hcmp by done. set (k i := parsed (key_at (encoded <$> ks) i)). fold (k a) (k b). pose proof (CompareParsed_opp (k a) (k b)).
      destruct (Z.ltb_spec (CompareParsed (k a) (k b)) 0), (Z.ltb_spec (CompareParsed (k b) (k a)) 0); auto; lia. }
  split; [split; [split_and!|done]|].
  - apply Forall_forall. intros i Hi. destruct (Hat i (Hin i Hi)) as (k & _ & Hk). by exists k.
  - cbn [keys_ indices_]. revert Hs Hin. generalize (std_sort lt (seq 0 (length ks))). intros l Hs Hin. induction Hs as [|a l Hs IH Hall]; constructor.
    + apply IH. intros i Hi. apply Hin. by right.
    + apply Forall_forall. intros b Hb'. pose proof (proj1 (Forall_forall _ _) Hall b Hb') as Hlt. simpl in Hlt.
      rewrite Hcmp, Z.ltb_ge in Hlt by (apply Hin; (by left) || by right).
      pose proof (CompareParsed_opp (parsed (key_at (encoded <$> ks) b)) (parsed (key_at (encoded <$> ks) a))). lia.
  - cbn. lia.
  - cbn [indices_]. rewrite (Permutation_length (std_sort_perm lt _)), length_seq. done.
  - unfold vec_points. cbn [keys_ values_ indices_ v_current_ at_position vec_SeekToFirst]. change (Z.to_nat 0) with 0%nat. rewrite drop_0, std_sort_perm.
    match goal with |- ?a ≡ₚ ?b => assert (a = b) as -> end; [|done]. apply list_eq. intros i. rewrite !list_lookup_fmap. destruct (decide (i < length ks)%nat) as [Hi|Hi].
    + rewrite lookup_seq_lt by done. destruct (Hat i) as (k & Hk & He & Hv & _); [apply elem_of_seq; lia|]. simpl. rewrite He, parsed_encoded by done. unfold ks in Hk. rewrite list_lookup_fmap in Hk.
      unfold key_at. rewrite list_lookup_fmap. destruct (es !! i) as [[k' v]|]; [|done]. simpl in Hk |- *. by injection Hk as ->.
    + rewrite (proj2 (lookup_ge_None es i)) by lia. rewrite lookup_seq_ge by lia. done.
Qed.
End Open.

(** Two runs, the second with a range tombstone. *)
Definition point (u : byte) (seq : Z) : ParsedInternalKey := mkParsed [u] seq kTypeValue.
Definition example_vector (ks : list ParsedInternalKey) : VectorIterator :=
  mkVec (encoded <$> ks) ((λ _, []) <$> ks) (Z.of_nat (length ks)) (seq 0 (length ks)).
Definition example_state : CMI VectorIterator TombList :=
  mkCMI [mkWrapper (example_vector [point Byte.x61 7; point Byte.x63 3]) false no_result; mkWrapper (example_vector [point Byte.x62 5]) false no_result]
    [[]; []] [None; Some (mkTombs [mkParsed [Byte.x62] 9 kTypeRangeDeletion] [])] None None (mkHeap [] None).
Lemma example_opened : ∀ run, run ∈ runs example_state → opened (C := VectorIterator) (R := TombList) run.1 run.2.
Proof.
  assert (Hv : ∀ ks, ks = [point Byte.x61 7; point Byte.x63 3] ∨ ks = [point Byte.x62 5] → vec_ok (example_vector ks)).
  { intros ks [-> | ->]; (split; [|split; [|by vm_compute]]).
    - apply Forall_forall. intros i [->|[->|[]%not_elem_of_nil]%elem_of_cons]%elem_of_cons; eexists; (split; [reflexivity|]); by vm_compute.
    - repeat constructor; vm_compute; congruence.
    - apply Forall_forall. intros i [->|[]%not_elem_of_nil]%elem_of_cons; eexists; (split; [reflexivity|]); by vm_compute.
    - repeat constructor. }
  intros run Hrun. unfold runs, example_state in Hrun. cbn [children_ range_tombstone_iters_ zip_with iter_] in Hrun.
  apply elem_of_cons in Hrun as [->|[->|[]%not_elem_of_nil]%elem_of_cons]; (split; [by apply Hv; auto|]); [done|].
  intros r [= <-]. split; [repeat constructor|]. constructor; [by vm_compute|constructor].
Qed.
Lemma example_output :
  (let* s0 := SeekToFirst 9 example_state in let* (l, _) := read_all 9 9 s0 in Ok l) =
    Ok (raw <$> [(point Byte.x61 7, [], false); (mkParsed [Byte.x62] 9 kTypeRangeDeletion, [], true); (point Byte.x62 5, [], false); (point Byte.x63 3, [], false)]).
Proof. vm_compute. reflexivity. Qed.

Lemma merge_gives_all_in_order_witness :
  ∃ s0 ks s', SeekToFirst 9 example_state = Ok s0 ∧ read_all 9 9 s0 = Ok (raw <$> ks, s') ∧ StronglySorted (λ a b, CompareParsed a.1.1 b.1.1 ≤ 0) ks.
Proof.
  destruct (merge_gives_all_in_order example_state 9 9 eq_refl eq_refl example_opened ltac:(vm_compute; lia) ltac:(vm_compute; lia))
    as (s0 & ks & s' & H1 & H2 & H3 & _).
  exists s0, ks, s'. exact (conj H1 (conj H2 H3)).
Defined.
