(* ===== verification/IterKey.v ===== *)
(** * The key of an iterator and its buffers (rocksdb [IterKey] in [db/dbformat.h])

    A key is kept in a primary buffer, inline or on the heap, in a secondary one
    (for keys that get a timestamp while being decoded), or stays in memory the
    iterator does not own.  The buffers are byte strings of their capacity; a
    [memcpy] past the end of one fails with [BadPointer].  Slices passed in do not
    point into the buffers. *)
From S2P Require Import Prelude Bitfield Slice Coding Comparator DbFormat.
Local Open Scope Z_scope.

Definition kInlineBufferSize : nat := 39.

(** Where [key_] points; [Stale]: to a buffer that is no longer [buf_] or [secondary_buf_]. *)
Inductive KeyPtr := InBuf | InSecondary | Pinned (mem : bytes) | Stale.

(** [buf_ == space_] when [heap_buf] is [None], and likewise for the secondary buffer. *)
Record IterKey := mkIterKey {
  space_ : bytes; heap_buf : option bytes; buf_size_ : nat;
  space_for_secondary_buf_ : bytes; heap_secondary : option bytes; secondary_buf_size_ : nat;
  key_ : KeyPtr; key_size_ : nat; is_user_key_ : bool }.

Section IterKey.
(** [new char[n]]: the bytes are not initialised. *)
Context (fresh : nat → bytes) (fresh_length : ∀ n, length (fresh n) = n).

Definition newIterKey : IterKey :=
  mkIterKey (fresh kInlineBufferSize) None kInlineBufferSize (fresh kInlineBufferSize) None kInlineBufferSize InBuf 0 true.

(** [memcpy(buf + off, src, n)]. *)
Definition memcpy (buf : bytes) (off : nat) (src : bytes) : res bytes :=
  if (off + length src <=? length buf)%nat then Ok (take off buf ++ src ++ drop (off + length src) buf) else Fail BadPointer.
(** The [n] bytes at [mem]. *)
Definition read (mem : bytes) (n : nat) : res bytes := if (n <=? length mem)%nat then Ok (take n mem) else Fail BadPointer.

Definition buf_ (k : IterKey) : bytes := default (space_ k) (heap_buf k).
Definition secondary_buf_ (k : IterKey) : bytes := default (space_for_secondary_buf_ k) (heap_secondary k).
Definition set_key (k : IterKey) (p : KeyPtr) (n : nat) : IterKey :=
  mkIterKey (space_ k) (heap_buf k) (buf_size_ k) (space_for_secondary_buf_ k) (heap_secondary k) (secondary_buf_size_ k) p n (is_user_key_ k).
Definition set_user (k : IterKey) (b : bool) : IterKey :=
  mkIterKey (space_ k) (heap_buf k) (buf_size_ k) (space_for_secondary_buf_ k) (heap_secondary k) (secondary_buf_size_ k) (key_ k) (key_size_ k) b.
(** The bytes of [buf_] and of [secondary_buf_], wherever they are. *)
Definition set_buf (k : IterKey) (b : bytes) : IterKey :=
  match heap_buf k with
  | None => mkIterKey b None (buf_size_ k) (space_for_secondary_buf_ k) (heap_secondary k) (secondary_buf_size_ k) (key_ k) (key_size_ k) (is_user_key_ k)
  | Some _ => mkIterKey (space_ k) (Some b) (buf_size_ k) (space_for_secondary_buf_ k) (heap_secondary k) (secondary_buf_size_ k) (key_ k) (key_size_ k) (is_user_key_ k)
  end.
Definition set_secondary (k : IterKey) (b : bytes) : IterKey :=
  match heap_secondary k with
  | None => mkIterKey (space_ k) (heap_buf k) (buf_size_ k) b None (secondary_buf_size_ k) (key_ k) (key_size_ k) (is_user_key_ k)
  | Some _ => mkIterKey (space_ k) (heap_buf k) (buf_size_ k) (space_for_secondary_buf_ k) (Some b) (secondary_buf_size_ k) (key_ k) (key_size_ k) (is_user_key_ k)
  end.

(** ** Reading *)
Definition key_mem (k : IterKey) : res bytes :=
  match key_ k with InBuf => Ok (buf_ k) | InSecondary => Ok (secondary_buf_ k) | Pinned m => Ok m | Stale => Fail BadPointer end.
Definition SetIsUserKey (k : IterKey) (b : bool) : IterKey := set_user k b.
Definition IsUserKey (k : IterKey) : bool := is_user_key_ k.
Definition GetKey (k : IterKey) : res bytes := let* m := key_mem k in read m (key_size_ k).
Definition GetInternalKey (k : IterKey) : res bytes := let* _ := assert_ (negb (IsUserKey k)) in GetKey k.
Definition GetUserKey (k : IterKey) : res bytes :=
  if IsUserKey k then GetKey k
  else
    let* _ := assert_ (kNumInternalBytes <=? key_size_ k)%nat in
    let* m := key_mem k in read m (key_size_ k - kNumInternalBytes).
Definition Size (k : IterKey) : nat := key_size_ k.
Definition Clear (k : IterKey) : IterKey := set_key k (key_ k) 0.
Definition IsKeyPinned (k : IterKey) : bool := match key_ k with InBuf | InSecondary => false | _ => true end.

(** ** Buffers *)
Definition ResetBuffer (k : IterKey) : IterKey :=
  let '(p, n) := match key_ k with
                 | InBuf => (match heap_buf k with Some _ => Stale | None => InBuf end, 0%nat)
                 | p => (p, key_size_ k)
                 end in
  mkIterKey (space_ k) None kInlineBufferSize (space_for_secondary_buf_ k) (heap_secondary k) (secondary_buf_size_ k) p n (is_user_key_ k).
Definition ResetSecondaryBuffer (k : IterKey) : IterKey :=
  let '(p, n) := match key_ k with
                 | InSecondary => (match heap_secondary k with Some _ => Stale | None => InSecondary end, 0%nat)
                 | p => (p, key_size_ k)
                 end in
  mkIterKey (space_ k) (heap_buf k) (buf_size_ k) (space_for_secondary_buf_ k) None kInlineBufferSize p n (is_user_key_ k).
Definition EnlargeBuffer (k : IterKey) (key_size : nat) : res IterKey :=
  let* _ := assert_ (buf_size_ k <? key_size)%nat in
  let k := ResetBuffer k in
  let p := match key_ k with InBuf => Stale | p => p end in
  Ok (mkIterKey (space_ k) (Some (fresh key_size)) key_size (space_for_secondary_buf_ k) (heap_secondary k) (secondary_buf_size_ k) p (key_size_ k) (is_user_key_ k)).
Definition EnlargeBufferIfNeeded (k : IterKey) (key_size : nat) : res IterKey :=
  if (buf_size_ k <? key_size)%nat then EnlargeBuffer k key_size else Ok k.
Definition EnlargeSecondaryBufferIfNeeded (k : IterKey) (key_size : nat) : IterKey :=
  if (key_size <=? secondary_buf_size_ k)%nat then k
  else
    let k := ResetSecondaryBuffer k in
    let p := match key_ k with InSecondary => Stale | p => p end in
    mkIterKey (space_ k) (heap_buf k) (buf_size_ k) (space_for_secondary_buf_ k) (Some (fresh key_size)) key_size p (key_size_ k) (is_user_key_ k).

(** ** Setting the key *)
Definition SetKeyImpl (k : IterKey) (key : bytes) (copy : bool) : res IterKey :=
  let size := length key in
  if copy then
    let* k := EnlargeBufferIfNeeded k size in
    let* b := memcpy (buf_ k) 0 key in
    Ok (set_key (set_buf k b) InBuf size)
  else Ok (set_key k (Pinned key) size).
Definition SetKey := SetKeyImpl.
Definition SetUserKey (k : IterKey) (key : bytes) (copy : bool) : res IterKey := SetKeyImpl (set_user k true) key copy.
Definition SetInternalKeySlice (k : IterKey) (key : bytes) (copy : bool) : res IterKey := SetKeyImpl (set_user k false) key copy.
(** [SetInternalKey(key, ikey)]: the new user key of [ikey] refers to the copy. *)
Definition SetInternalKeyParsed (k : IterKey) (key : bytes) (ikey : ParsedInternalKey) : res (IterKey * ParsedInternalKey) :=
  let key_n := length key in
  let* _ := assert_ (kNumInternalBytes <=? key_n)%nat in
  let* k := SetInternalKeySlice k key true in
  let* m := key_mem k in
  let* u := read m (key_n - kNumInternalBytes) in
  Ok (k, mkParsed u (sequence ikey) (type ikey)).

(** The key in parts, copied to the buffer that does not hold the old key. *)
Definition SetKeySlices (k : IterKey) (slices : list bytes) (total_bytes : nat) : res IterKey :=
  let* _ := assert_ (length slices <=? 5)%nat in
  let* k :=
    match key_ k with
    | InBuf =>
        let k := EnlargeSecondaryBufferIfNeeded k total_bytes in
        let* b := memcpy (secondary_buf_ k) 0 (concat slices) in
        Ok (set_key (set_secondary k b) InSecondary (key_size_ k))
    | _ =>
        let* k := EnlargeBufferIfNeeded k total_bytes in
        let* b := memcpy (buf_ k) 0 (concat slices) in
        Ok (set_key (set_buf k b) InBuf (key_size_ k))
    end in
  let* _ := assert_ (length (concat slices) =? total_bytes)%nat in
  Ok (set_key k (key_ k) total_bytes).

Definition TrimAppend (k : IterKey) (shared_len : nat) (non_shared_data : bytes) : res IterKey :=
  let* _ := assert_ (shared_len <=? key_size_ k)%nat in
  let total_size := (shared_len + length non_shared_data)%nat in
  let* k :=
    if IsKeyPinned k then
      let* old := key_mem k in
      let* old := read old shared_len in
      let* k := EnlargeBufferIfNeeded k total_size in
      let* b := memcpy (buf_ k) 0 old in
      Ok (set_buf k b)
    else if (buf_size_ k <? total_size)%nat then
      let* old := key_mem k in
      let* old := read old shared_len in
      let* p := memcpy (fresh total_size) 0 old in
      Ok (mkIterKey (space_ k) (Some p) total_size (space_for_secondary_buf_ k) (heap_secondary k) (secondary_buf_size_ k) (key_ k) (key_size_ k) (is_user_key_ k))
    else Ok k in
  let* b := memcpy (buf_ k) shared_len non_shared_data in
  Ok (set_key (set_buf k b) InBuf total_size).

Definition UpdateInternalKeyIn (k : IterKey) (seq t : Z) (ts : option bytes) : res IterKey :=
  let* _ := assert_ (negb (IsKeyPinned k)) in
  let* _ := assert_ (kNumInternalBytes <=? key_size_ k)%nat in
  let* k :=
    match ts with
    | None => Ok k
    | Some ts =>
        let* _ := assert_ (kNumInternalBytes + length ts <=? key_size_ k)%nat in
        let* b := memcpy (buf_ k) (key_size_ k - kNumInternalBytes - length ts) ts in
        Ok (set_buf k b)
    end in
  let newval := EncodeFixed64 true (pack seq t) in
  match key_ k with
  | InBuf => let* b := memcpy (buf_ k) (key_size_ k - kNumInternalBytes) newval in Ok (set_buf k b)
  | InSecondary => let* b := memcpy (secondary_buf_ k) (key_size_ k - kNumInternalBytes) newval in Ok (set_secondary k b)
  | _ => Fail AssertFail
  end.

Definition SetInternalKey (k : IterKey) (key_prefix user_key : bytes) (s value_type : Z) (ts : option bytes) : res IterKey :=
  let psize := length key_prefix in
  let usize := length user_key in
  let ts_sz := match ts with Some ts => length ts | None => 0%nat end in
  let* k := EnlargeBufferIfNeeded k (psize + usize + 8 + ts_sz) in
  let* b := if (0 <? psize)%nat then memcpy (buf_ k) 0 key_prefix else Ok (buf_ k) in
  let* b := memcpy b psize user_key in
  let* b := match ts with Some ts => memcpy b (psize + usize) ts | None => Ok b end in
  let* p := PackSequenceAndType s value_type in
  let* b := memcpy b (usize + psize + ts_sz) (EncodeFixed64 true p) in
  Ok (set_user (set_key (set_buf k b) InBuf (psize + usize + 8 + ts_sz)) false).
Definition Reserve (k : IterKey) (size : nat) : res IterKey :=
  let* k := EnlargeBufferIfNeeded k size in Ok (set_key k (key_ k) size).
(** [key_size_] is left as it was. *)
Definition EncodeLengthPrefixedKey (k : IterKey) (key : bytes) : res IterKey :=
  let size := length key in
  let* vl := VarintLength (Z.of_nat size) in
  let* k := EnlargeBufferIfNeeded k (size + Z.to_nat vl) in
  let len := EncodeVarint32 (u32 (Z.of_nat size)) in
  let* b := memcpy (buf_ k) 0 len in
  let* b := memcpy b (length len) key in
  Ok (set_user (set_key (set_buf k b) InBuf (key_size_ k)) true).

(** ** Keys that get a timestamp *)
(** The slices so far, and whether the timestamp is among them. *)
Definition MaybeAddKeyPartsWithTimestamp (slice : bytes) (add_timestamp : bool) (left_sz : Z) (ts_sz : nat) (acc : list bytes * bool) :
    res (list bytes * bool) :=
  let '(slices, ts_added) := acc in
  let* acc :=
    if add_timestamp && negb ts_added then
      let* _ := assert_ (left_sz <=? Z.of_nat (length slice)) in
      Ok (slices ++ [take (Z.to_nat left_sz) slice; replicate ts_sz Byte.x00; drop (Z.to_nat left_sz) slice], true)
    else Ok (slices ++ [slice], ts_added) in
  let* _ := assert_ (length acc.1 <=? 5)%nat in
  Ok acc.
(** [n] bytes of the key from [off] on; an empty slice may have any address. *)
Definition key_part (k : IterKey) (off n : Z) : res bytes :=
  if n =? 0 then Ok []
  else let* m := key_mem k in
       if off + n <=? Z.of_nat (length m) then Ok (take (Z.to_nat n) (drop (Z.to_nat off) m)) else Fail BadPointer.

Definition TrimAppendWithTimestamp (k : IterKey) (shared_len : nat) (non_shared_data : bytes) (ts_sz : nat) : res IterKey :=
  let* _ := assert_ (ts_sz =? 8)%nat in
  let non_shared_len := length non_shared_data in
  let total := (shared_len + non_shared_len + ts_sz)%nat in
  let sl := Z.of_nat shared_len in
  let nl := Z.of_nat non_shared_len in
  if IsUserKey k then
    let* shared := key_part k 0 sl in
    SetKeySlices k [shared; non_shared_data; replicate ts_sz Byte.x00] total
  else
    let* _ := assert_ (kNumInternalBytes <=? shared_len + non_shared_len)%nat in
    let user_key_len := u64 (Z.of_nat (key_size_ k) - 8) in
    let sharable_user_key_len := u64 (user_key_len - Z.of_nat ts_sz) in
    let shared_user_key_len := Z.min sl sharable_user_key_len in
    let shared_internal_bytes_len := sl - shared_user_key_len in
    let* s1 := key_part k 0 shared_user_key_len in
    let* acc := MaybeAddKeyPartsWithTimestamp s1 (shared_internal_bytes_len + nl <? 8) (u64 (sl + nl - 8)) ts_sz ([], false) in
    let* s2 := key_part k user_key_len shared_internal_bytes_len in
    let* acc := MaybeAddKeyPartsWithTimestamp s2 (nl <? 8) (u64 (shared_internal_bytes_len + nl - 8)) ts_sz acc in
    let* (slices, ts_added) := MaybeAddKeyPartsWithTimestamp non_shared_data (8 <=? nl) (u64 (nl - 8)) ts_sz acc in
    let* _ := assert_ ts_added in
    SetKeySlices k slices total.

Definition SetKeyWithPaddedMinTimestamp (k : IterKey) (key : bytes) (ts_sz : nat) : res IterKey :=
  let* _ := assert_ (ts_sz =? 8)%nat in
  if is_user_key_ k then SetKeySlices k [key; replicate ts_sz Byte.x00] (length key + ts_sz)
  else
    let* _ := assert_ (kNumInternalBytes <=? length key)%nat in
    let user_key_size := (length key - kNumInternalBytes)%nat in
    SetKeySlices k [take user_key_size key; replicate ts_sz Byte.x00; drop user_key_size key] (length key + ts_sz).

(** ** Exchanging two keys *)
(** [memcpy(dst, src, n)] between two inline buffers. *)
Definition copy_inline (dst src : bytes) (n : nat) : res bytes :=
  let* s := read src n in memcpy dst 0 s.
(** The buffers of this and of the other key: inline bytes and heap block. *)
Definition swap_buffers (sp1 : bytes) (h1 : option bytes) (sp2 : bytes) (h2 : option bytes) (n_both n1 n2 : nat) :
    res (bytes * option bytes * (bytes * option bytes)) :=
  match h1, h2 with
  | None, None =>
      let* temp := read sp1 n_both in
      let* sp1' := copy_inline sp1 sp2 n_both in
      let* sp2' := memcpy sp2 0 temp in
      Ok ((sp1', None), (sp2', None))
  | None, Some b2 => let* sp2' := copy_inline sp2 sp1 n1 in Ok ((sp1, Some b2), (sp2', None))
  | Some b1, None => let* sp1' := copy_inline sp1 sp2 n2 in Ok ((sp1', None), (sp2, Some b1))
  | Some b1, Some b2 => Ok ((sp1, Some b2), (sp2, Some b1))
  end.
Definition Swap (k other : IterKey) : res (IterKey * IterKey) :=
  let max_sz := Nat.min (Nat.max (key_size_ k) (key_size_ other)) kInlineBufferSize in
  let* (a, b) := swap_buffers (space_ k) (heap_buf k) (space_ other) (heap_buf other) max_sz (key_size_ k) (key_size_ other) in
  let* (c, d) := swap_buffers (space_for_secondary_buf_ k) (heap_secondary k) (space_for_secondary_buf_ other) (heap_secondary other)
                   kInlineBufferSize (secondary_buf_size_ k) (secondary_buf_size_ other) in
  Ok (mkIterKey a.1 a.2 (buf_size_ other) c.1 c.2 (secondary_buf_size_ other) (key_ other) (key_size_ other) (is_user_key_ other),
      mkIterKey b.1 b.2 (buf_size_ k) d.1 d.2 (secondary_buf_size_ k) (key_ k) (key_size_ k) (is_user_key_ k)).

(** ** Invariant *)
(** The recorded sizes are those of the buffers, and the key is inside its memory. *)
Definition iterkey_ok (k : IterKey) : Prop :=
  length (space_ k) = kInlineBufferSize ∧ length (space_for_secondary_buf_ k) = kInlineBufferSize ∧
  length (buf_ k) = buf_size_ k ∧ length (secondary_buf_ k) = secondary_buf_size_ k ∧
  ∃ m, key_mem k = Ok m ∧ (key_size_ k ≤ length m)%nat.
(** A [Swap] copies the inline bytes of a key into the other one: they must hold it. *)
Definition swappable (k other : IterKey) : Prop :=
  (heap_buf k = None → is_Some (heap_buf other) → (key_size_ k ≤ kInlineBufferSize)%nat) ∧
  (heap_buf other = None → is_Some (heap_buf k) → (key_size_ other ≤ kInlineBufferSize)%nat).

(** ** Lemmas *)
Lemma memcpy_spec buf off src :
  (off + length src ≤ length buf)%nat →
  ∃ b, memcpy buf off src = Ok b ∧ length b = length buf ∧ take (off + length src) b = take off buf ++ src ∧
    drop (off + length src) b = drop (off + length src) buf.
Proof.
  intros Hl. unfold memcpy. rewrite (proj2 (Nat.leb_le _ _)) by done. eexists. split; [done|].
  assert (Ht : length (take off buf ++ src) = (off + length src)%nat) by (rewrite length_app, length_take; lia). split_and!.
  - rewrite app_assoc, length_app, Ht, length_drop. lia.
  - rewrite app_assoc. by apply take_app_exact.
  - rewrite app_assoc. by apply drop_app_exact.
Qed.
Lemma read_spec m n : (n ≤ length m)%nat → read m n = Ok (take n m).
Proof. intros Hn. unfold read. by rewrite (proj2 (Nat.leb_le _ _)). Qed.
Lemma getkey_ok k : iterkey_ok k → ∃ m, key_mem k = Ok m ∧ GetKey k = Ok (take (key_size_ k) m) ∧ length (take (key_size_ k) m) = key_size_ k.
Proof.
  intros (_ & _ & _ & _ & m & Hm & Hl). exists m. unfold GetKey. rewrite Hm. cbn [res_bind]. rewrite read_spec by done.
  split_and!; try done. rewrite length_take. lia.
Qed.

(** The buffer part of the invariant, kept by every change of the buffers. *)
Definition buffers_ok (k : IterKey) : Prop :=
  length (space_ k) = kInlineBufferSize ∧ length (space_for_secondary_buf_ k) = kInlineBufferSize ∧
  length (buf_ k) = buf_size_ k ∧ length (secondary_buf_ k) = secondary_buf_size_ k.
Lemma set_buf_ok k b : buffers_ok k → length b = length (buf_ k) →
  buffers_ok (set_buf k b) ∧ buf_ (set_buf k b) = b ∧ key_ (set_buf k b) = key_ k ∧ key_size_ (set_buf k b) = key_size_ k ∧
  secondary_buf_ (set_buf k b) = secondary_buf_ k ∧ is_user_key_ (set_buf k b) = is_user_key_ k.
Proof.
  intros (H1 & H2 & H3 & H4) Hb. unfold set_buf, buffers_ok, buf_, secondary_buf_ in *. destruct (heap_buf k) eqn:E; simpl in *; split_and!; congruence.
Qed.
Lemma set_secondary_ok k b : buffers_ok k → length b = length (secondary_buf_ k) →
  buffers_ok (set_secondary k b) ∧ secondary_buf_ (set_secondary k b) = b ∧ key_ (set_secondary k b) = key_ k ∧
  key_size_ (set_secondary k b) = key_size_ k ∧ is_user_key_ (set_secondary k b) = is_user_key_ k.
Proof.
  intros (H1 & H2 & H3 & H4) Hb. unfold set_secondary, buffers_ok, buf_, secondary_buf_ in *. destruct (heap_secondary k) eqn:E; simpl in *; split_and!; congruence.
Qed.
Lemma enlarge_ok k n : buffers_ok k →
  ∃ k', EnlargeBufferIfNeeded k n = Ok k' ∧ buffers_ok k' ∧ (n ≤ length (buf_ k'))%nat ∧ is_user_key_ k' = is_user_key_ k ∧
    secondary_buf_ k' = secondary_buf_ k ∧ (key_ k ≠ InBuf → key_ k' = key_ k ∧ key_size_ k' = key_size_ k).
Proof.
  intros (H1 & H2 & H3 & H4). unfold EnlargeBufferIfNeeded, EnlargeBuffer. destruct (Nat.ltb_spec (buf_size_ k) n) as [Hlt|Hge].
  - cbn [assert_ res_bind]. eexists. split; [done|]. unfold ResetBuffer, buffers_ok, buf_, secondary_buf_ in *.
    destruct (key_ k); simpl; rewrite ?fresh_length; split_and!; try done; try lia.
  - exists k. unfold buffers_ok. rewrite H3. split_and!; done.
Qed.
Lemma enlarge_secondary_ok k n : buffers_ok k →
  let k' := EnlargeSecondaryBufferIfNeeded k n in
  buffers_ok k' ∧ (n ≤ length (secondary_buf_ k'))%nat ∧ is_user_key_ k' = is_user_key_ k.
Proof.
  intros (H1 & H2 & H3 & H4). unfold EnlargeSecondaryBufferIfNeeded. destruct (Nat.leb_spec n (secondary_buf_size_ k)) as [Hge|Hlt].
  - unfold buffers_ok. rewrite H4. split_and!; done.
  - unfold ResetSecondaryBuffer, buffers_ok, buf_, secondary_buf_ in *. destruct (key_ k); simpl; rewrite ?fresh_length; split_and!; try done; try lia.
Qed.

(** A key that was just written to the front of a buffer. *)
Lemma in_buf_ok k key : buffers_ok k → take (length key) (buf_ k) = key → (length key ≤ length (buf_ k))%nat →
  iterkey_ok (set_key k InBuf (length key)) ∧ GetKey (set_key k InBuf (length key)) = Ok key.
Proof.
  intros (H1 & H2 & H3 & H4) Ht Hl. split; [split_and!; try done; by exists (buf_ k)|].
  change (read (buf_ k) (length key) = Ok key). rewrite read_spec by done. by rewrite Ht.
Qed.
Lemma in_secondary_ok k key : buffers_ok k → take (length key) (secondary_buf_ k) = key → (length key ≤ length (secondary_buf_ k))%nat →
  iterkey_ok (set_key k InSecondary (length key)) ∧ GetKey (set_key k InSecondary (length key)) = Ok key.
Proof.
  intros (H1 & H2 & H3 & H4) Ht Hl. split; [split_and!; try done; by exists (secondary_buf_ k)|].
  change (read (secondary_buf_ k) (length key) = Ok key). rewrite read_spec by done. by rewrite Ht.
Qed.

Lemma SetKeyImpl_spec k key copy : iterkey_ok k →
  ∃ k', SetKeyImpl k key copy = Ok k' ∧ iterkey_ok k' ∧ GetKey k' = Ok key ∧ is_user_key_ k' = is_user_key_ k.
Proof.
  intros (H1 & H2 & H3 & H4 & _). unfold SetKeyImpl. destruct copy.
  - destruct (enlarge_ok k (length key)) as (k1 & -> & Hb1 & Hn & Hu & _); [done|]. cbn [res_bind].
    destruct (memcpy_spec (buf_ k1) 0 key) as (b & -> & Hlb & Ht & _); [done|]. cbn [res_bind].
    destruct (set_buf_ok k1 b Hb1 Hlb) as (Hb2 & Heq & _ & _ & _ & Hu2). eexists. split; [done|].
    destruct (in_buf_ok (set_buf k1 b) key) as [H5 H6]; [done|by rewrite Heq|by rewrite Heq, Hlb|]. split_and!; try done. simpl. by rewrite Hu2.
  - eexists. split; [done|]. split; [split_and!; try done; by exists key|]. split; [|done]. unfold GetKey. cbn. rewrite read_spec by done. by rewrite firstn_all.
Qed.
Lemma SetKeySlices_spec k slices total : iterkey_ok k → (length slices ≤ 5)%nat → length (concat slices) = total →
  ∃ k', SetKeySlices k slices total = Ok k' ∧ iterkey_ok k' ∧ GetKey k' = Ok (concat slices) ∧ is_user_key_ k' = is_user_key_ k.
Proof.
  intros (H1 & H2 & H3 & H4 & m & Hm & _) H5 <-. unfold SetKeySlices. rewrite (proj2 (Nat.leb_le _ _)) by done. cbn [assert_ res_bind].
  assert (Hprim : ∃ k', (let* k1 := EnlargeBufferIfNeeded k (length (concat slices)) in let* b := memcpy (buf_ k1) 0 (concat slices) in
      Ok (set_key (set_buf k1 b) InBuf (key_size_ k1))) = Ok k' ∧ buffers_ok k' ∧ take (length (concat slices)) (buf_ k') = concat slices ∧
      (length (concat slices) ≤ length (buf_ k'))%nat ∧ key_ k' = InBuf ∧ is_user_key_ k' = is_user_key_ k).
  { destruct (enlarge_ok k (length (concat slices))) as (k1 & -> & Hb1 & Hn & Hu & _); [done|]. cbn [res_bind].
    destruct (memcpy_spec (buf_ k1) 0 (concat slices)) as (b & -> & Hlb & Ht & _); [done|]. cbn [res_bind].
    destruct (set_buf_ok k1 b Hb1 Hlb) as (Hb2 & Heq & _ & _ & _ & Hu2). eexists. split; [done|].
    change (buf_ (set_key ?x _ _)) with (buf_ x). rewrite Heq. split_and!; try done; [lia|]. simpl. by rewrite Hu2. }
  destruct (key_ k) eqn:Ek; [|destruct Hprim as (k' & -> & Hb & Ht & Hl & Hk & Hu); cbn [res_bind]; rewrite Nat.eqb_refl; cbn [assert_ res_bind];
    rewrite Hk; destruct (in_buf_ok k' (concat slices) Hb Ht Hl); eexists; (split; [done|]); done..].
  destruct (enlarge_secondary_ok k (length (concat slices))) as (Hb1 & Hn & Hu); [done|].
  set (k1 := EnlargeSecondaryBufferIfNeeded k (length (concat slices))) in *.
  destruct (memcpy_spec (secondary_buf_ k1) 0 (concat slices)) as (b & -> & Hlb & Ht & _); [done|]. cbn [res_bind].
  destruct (set_secondary_ok k1 b Hb1 Hlb) as (Hb2 & Heq & _ & _ & Hu2). rewrite Nat.eqb_refl. cbn [assert_ res_bind]. eexists. split; [done|].
  destruct (in_secondary_ok (set_secondary k1 b) (concat slices)) as [H6 H7]; [done|by rewrite Heq|rewrite Heq, Hlb; done|].
  split_and!; try done. simpl. by rewrite Hu2.
Qed.

Lemma TrimAppend_spec k shared ns old :
  iterkey_ok k → key_ k ≠ InSecondary → GetKey k = Ok old → (shared ≤ length old)%nat →
  ∃ k', TrimAppend k shared ns = Ok k' ∧ iterkey_ok k' ∧ GetKey k' = Ok (take shared old ++ ns) ∧ is_user_key_ k' = is_user_key_ k.
Proof.
  intros Hok Hsec Hold Hs. destruct (getkey_ok k Hok) as (m & Hm & Hg & Hlen). rewrite Hold in Hg. injection Hg as ->.
  rewrite Hlen in Hs. destruct Hok as (H1 & H2 & H3 & H4 & m' & Hm' & Hl). rewrite Hm in Hm'. injection Hm' as <-.
  unfold TrimAppend. rewrite (proj2 (Nat.leb_le _ _)) by done. cbn [assert_ res_bind]. set (total := (shared + length ns)%nat).
  rewrite take_take, Nat.min_l by lia.
  (* after the first step the shared bytes are at the front of a buffer that is large enough *)
  assert (Hstep : ∃ k1, (if IsKeyPinned k then let* old := key_mem k in let* old := read old shared in
        let* k := EnlargeBufferIfNeeded k total in let* b := memcpy (buf_ k) 0 old in Ok (set_buf k b)
      else if (buf_size_ k <? total)%nat then let* old := key_mem k in let* old := read old shared in let* p := memcpy (fresh total) 0 old in
        Ok (mkIterKey (space_ k) (Some p) total (space_for_secondary_buf_ k) (heap_secondary k) (secondary_buf_size_ k) (key_ k) (key_size_ k) (is_user_key_ k))
      else Ok k) = Ok k1 ∧ buffers_ok k1 ∧ take shared (buf_ k1) = take shared m ∧ (total ≤ length (buf_ k1))%nat ∧ is_user_key_ k1 = is_user_key_ k).
  { assert (Htk : length (take shared m) = shared) by (rewrite length_take; lia). rewrite Hm. cbn [res_bind]. rewrite read_spec by lia. cbn [res_bind].
    destruct (IsKeyPinned k) eqn:Ep; [|destruct (Nat.ltb_spec (buf_size_ k) total) as [Hlt|Hge]].
    - destruct (enlarge_ok k total) as (k1 & -> & Hb1 & Hn & Hu & _); [done|]. cbn [res_bind].
      destruct (memcpy_spec (buf_ k1) 0 (take shared m)) as (b & -> & Hlb & Ht & _); [lia|]. cbn [res_bind].
      destruct (set_buf_ok k1 b Hb1 Hlb) as (Hb2 & Heq & _ & _ & _ & Hu2). eexists. split; [done|]. rewrite Heq, Hlb.
      rewrite Htk in Ht. split_and!; try done; [by rewrite Hu2].
    - destruct (memcpy_spec (fresh total) 0 (take shared m)) as (b & -> & Hlb & Ht & _); [rewrite fresh_length; lia|]. rewrite fresh_length in Hlb.
      rewrite Htk in Ht. cbn [res_bind]. eexists. split; [done|]. unfold buffers_ok, buf_, secondary_buf_ in *. simpl. split_and!; try done; lia.
    - exists k. destruct (key_ k) eqn:Ek; try done; [|by unfold IsKeyPinned in Ep; rewrite Ek in Ep..].
      unfold key_mem in Hm. rewrite Ek in Hm. injection Hm as <-. rewrite H3. split_and!; done. }
  destruct Hstep as (k1 & -> & Hb1 & Hsh & Htot & Hu). cbn [res_bind].
  destruct (memcpy_spec (buf_ k1) shared ns) as (b & -> & Hlb & Ht & _); [done|]. cbn [res_bind]. rewrite Hsh in Ht.
  destruct (set_buf_ok k1 b Hb1 Hlb) as (Hb2 & Heq & _ & _ & _ & Hu2). eexists. split; [done|].
  assert (Hl' : length (take shared m ++ ns) = total) by (rewrite length_app, length_take; lia).
  destruct (in_buf_ok (set_buf k1 b) (take shared m ++ ns)) as [H5 H6]; [done|by rewrite Heq, Hl'|by rewrite Heq, Hlb, Hl'|].
  rewrite Hl' in H5, H6. split_and!; try done. simpl. by rewrite Hu2.
Qed.

(** Overwriting the last eight bytes of a key in one of the buffers. *)
Lemma overwrite_footer m n nv b :
  (8 ≤ n ≤ length m)%nat → length nv = 8%nat → memcpy m (n - 8) nv = Ok b → take n b = take (n - 8) (take n m) ++ nv.
Proof.
  intros Hn Hl Hb. destruct (memcpy_spec m (n - 8) nv) as (b' & Hb' & _ & Ht & _); [lia|]. rewrite Hb in Hb'. injection Hb' as ->.
  rewrite Hl in Ht. replace (n - 8 + 8)%nat with n in Ht by lia. rewrite Ht. by rewrite take_take, Nat.min_l by lia.
Qed.
Lemma UpdateInternalKeyIn_spec k seq t old :
  iterkey_ok k → IsKeyPinned k = false → GetKey k = Ok old → (8 ≤ length old)%nat →
  ∃ k' new, UpdateInternalKeyIn k seq t None = Ok k' ∧ iterkey_ok k' ∧ UpdateInternalKey old seq t = Ok new ∧ GetKey k' = Ok new ∧ key_ k' = key_ k.
Proof.
  intros Hok Hpin Hold Hl8. destruct (getkey_ok k Hok) as (m & Hm & Hg & Hlen). rewrite Hold in Hg. injection Hg as ->.
  rewrite Hlen in Hl8. destruct Hok as (H1 & H2 & H3 & H4 & m' & Hm' & Hl). rewrite Hm in Hm'. injection Hm' as <-.
  unfold UpdateInternalKeyIn, UpdateInternalKey. rewrite Hpin, Hlen, (proj2 (Nat.leb_le _ _)) by (unfold kNumInternalBytes; lia). cbn [assert_ res_bind].
  pose proof (fixed64_length (pack seq t)) as Hf. unfold key_mem in Hm. unfold kNumInternalBytes. destruct (key_ k) eqn:Ek; try (by unfold IsKeyPinned in Hpin; rewrite Ek in Hpin).
  - injection Hm as <-. destruct (memcpy_spec (buf_ k) (key_size_ k - 8) (EncodeFixed64 true (pack seq t))) as (b & Hb & Hlb & _); [lia|].
    rewrite Hb. cbn [res_bind]. destruct (set_buf_ok k b (conj H1 (conj H2 (conj H3 H4))) Hlb) as (Hb2 & Heq & Hk & Hn & _). eexists _, _. split; [done|].
    assert (Hmem : key_mem (set_buf k b) = Ok b) by (unfold key_mem; by rewrite Hk, Ek, Heq). split; [|split; [done|split]].
    + destruct Hb2 as (? & ? & ? & ?). split_and!; try done. exists b. rewrite Hn, Hlb. done.
    + unfold GetKey. rewrite Hmem. cbn [res_bind]. rewrite Hn, read_spec by lia. f_equal. apply (overwrite_footer _ _ _ _ (conj Hl8 Hl) Hf Hb).
    + by rewrite Hk.
  - injection Hm as <-. destruct (memcpy_spec (secondary_buf_ k) (key_size_ k - 8) (EncodeFixed64 true (pack seq t))) as (b & Hb & Hlb & _); [lia|].
    rewrite Hb. cbn [res_bind]. destruct (set_secondary_ok k b (conj H1 (conj H2 (conj H3 H4))) Hlb) as (Hb2 & Heq & Hk & Hn & _). eexists _, _. split; [done|].
    assert (Hmem : key_mem (set_secondary k b) = Ok b) by (unfold key_mem; by rewrite Hk, Ek, Heq). split; [|split; [done|split]].
    + destruct Hb2 as (? & ? & ? & ?). split_and!; try done. exists b. rewrite Hn, Hlb. done.
    + unfold GetKey. rewrite Hmem. cbn [res_bind]. rewrite Hn, read_spec by lia. f_equal. apply (overwrite_footer _ _ _ _ (conj Hl8 Hl) Hf Hb).
    + by rewrite Hk.
Qed.

Lemma memcpy_append b pre src :
  take (length pre) b = pre → (length pre + length src ≤ length b)%nat →
  ∃ b', memcpy b (length pre) src = Ok b' ∧ length b' = length b ∧ take (length (pre ++ src)) b' = pre ++ src.
Proof.
  intros Hp Hl. destruct (memcpy_spec b (length pre) src Hl) as (b' & -> & Hl' & Ht & _). exists b'. rewrite length_app, Ht, Hp. done.
Qed.
Lemma SetInternalKey_spec k prefix u s t ts :
  iterkey_ok k → valid_key (mkParsed u s t) →
  let full := prefix ++ u ++ default [] ts ++ EncodeFixed64 true (pack s t) in
  ∃ k', SetInternalKey k prefix u s t ts = Ok k' ∧ iterkey_ok k' ∧ GetInternalKey k' = Ok full.
Proof.
  intros (H1 & H2 & H3 & H4 & _) Hv full. destruct (valid_pack _ Hv) as (Hp & _). cbn [sequence type] in Hp. pose proof (fixed64_length (pack s t)) as Hf.
  unfold SetInternalKey. set (tsb := default [] ts). assert (Hts : match ts with Some ts => length ts | None => 0%nat end = length tsb) by by destruct ts.
  rewrite Hts. set (total := (length prefix + length u + 8 + length tsb)%nat).
  assert (Hlf : length full = total) by (unfold full, total; rewrite !length_app, Hf; fold tsb; lia).
  destruct (enlarge_ok k total) as (k1 & -> & Hb1 & Hn & Hu & _); [done|]. cbn [res_bind].
  assert (Hb0 : ∃ b, (if (0 <? length prefix)%nat then memcpy (buf_ k1) 0 prefix else Ok (buf_ k1)) = Ok b ∧ length b = length (buf_ k1) ∧ take (length prefix) b = prefix).
  { destruct prefix as [|x prefix]; [by exists (buf_ k1)|]. cbn [Nat.ltb Nat.leb length]. destruct (memcpy_append (buf_ k1) [] (x :: prefix)) as (b & Hb & ? & ?); [done|simpl in *; lia|]. by exists b. }
  destruct Hb0 as (b0 & -> & Hl0 & Ht0). cbn [res_bind].
  destruct (memcpy_append b0 prefix u Ht0) as (b1 & -> & Hl1 & Ht1); [lia|]. cbn [res_bind].
  assert (Hb2 : ∃ b, match ts with Some ts => memcpy b1 (length prefix + length u) ts | None => Ok b1 end = Ok b ∧ length b = length b1 ∧
    take (length ((prefix ++ u) ++ tsb)) b = (prefix ++ u) ++ tsb).
  { destruct ts as [ts|]; [|exists b1; subst tsb; simpl; rewrite app_nil_r; done].
    destruct (memcpy_append b1 (prefix ++ u) ts Ht1) as (b & Hb & ? & ?); [rewrite length_app; simpl in *; lia|]. rewrite length_app in Hb. by exists b. }
  destruct Hb2 as (b2 & -> & Hl2 & Ht2). cbn [res_bind]. rewrite Hp. cbn [res_bind].
  destruct (memcpy_append b2 ((prefix ++ u) ++ tsb) (EncodeFixed64 true (pack s t)) Ht2) as (b3 & Hb3 & Hl3 & Ht3); [rewrite !length_app, Hf; lia|].
  replace (length u + length prefix + length tsb)%nat with (length ((prefix ++ u) ++ tsb)) by (rewrite !length_app; lia). rewrite Hb3. cbn [res_bind].
  destruct (set_buf_ok k1 b3 Hb1 ltac:(lia)) as (Hbok & Heq & _). eexists. split; [done|].
  assert (Hfull : ((prefix ++ u) ++ tsb) ++ EncodeFixed64 true (pack s t) = full) by (unfold full; by rewrite <-!app_assoc). rewrite Hfull in Ht3.
  destruct (in_buf_ok (set_buf k1 b3) full) as [H5 H6]; [done|by rewrite Heq|rewrite Heq; lia|]. rewrite Hlf in H5, H6. split; [exact H5|exact H6].
Qed.

(** Three parts in which the timestamp goes before the last eight bytes. *)
Definition padded (x : bytes) : bytes := take (length x - 8) x ++ replicate 8 Byte.x00 ++ drop (length x - 8) x.
Lemma part_with_timestamp slice left slices :
  0 ≤ left ≤ Z.of_nat (length slice) → (length slices ≤ 2)%nat →
  MaybeAddKeyPartsWithTimestamp slice true left 8 (slices, false) =
    Ok (slices ++ [take (Z.to_nat left) slice; replicate 8 Byte.x00; drop (Z.to_nat left) slice], true).
Proof.
  intros Hl Hs. unfold MaybeAddKeyPartsWithTimestamp. cbn [andb negb]. rewrite (proj2 (Z.leb_le _ _)) by lia. cbn [assert_ res_bind fst].
  by rewrite (proj2 (Nat.leb_le _ _)) by (rewrite length_app; simpl; lia).
Qed.
Lemma part_without slice add left slices added :
  add && negb added = false → (length slices ≤ 4)%nat → MaybeAddKeyPartsWithTimestamp slice add left 8 (slices, added) = Ok (slices ++ [slice], added).
Proof.
  intros Ha Hs. unfold MaybeAddKeyPartsWithTimestamp. rewrite Ha. cbn [res_bind fst].
  by rewrite (proj2 (Nat.leb_le _ _)) by (rewrite length_app; simpl; lia).
Qed.
Lemma three_parts a b c :
  (8 ≤ length a + length b + length c)%nat → Z.of_nat (length a + length b + length c) < 2 ^ 64 →
  ∃ slices, (let* acc := MaybeAddKeyPartsWithTimestamp a (Z.of_nat (length b) + Z.of_nat (length c) <? 8)
                           (u64 (Z.of_nat (length a + length b) + Z.of_nat (length c) - 8)) 8 ([], false) in
             let* acc := MaybeAddKeyPartsWithTimestamp b (Z.of_nat (length c) <? 8) (u64 (Z.of_nat (length b) + Z.of_nat (length c) - 8)) 8 acc in
             MaybeAddKeyPartsWithTimestamp c (8 <=? Z.of_nat (length c)) (u64 (Z.of_nat (length c) - 8)) 8 acc) = Ok (slices, true) ∧
    (length slices ≤ 5)%nat ∧ concat slices = padded (a ++ b ++ c).
Proof.
  intros H8 Hb. unfold padded. assert (Hl : length (a ++ b ++ c) = (length a + length b + length c)%nat) by (rewrite !length_app; lia). rewrite Hl.
  destruct (Z.ltb_spec (Z.of_nat (length b) + Z.of_nat (length c)) 8) as [H1|H1].
  - rewrite u64_id, part_with_timestamp by (simpl; lia). cbn [res_bind]. rewrite part_without by (rewrite andb_false_r || simpl; (done || lia)). cbn [res_bind].
    rewrite part_without by (rewrite andb_false_r || simpl; (done || lia)). eexists. split; [done|]. split; [simpl; lia|].
    cbn [concat app]. rewrite app_nil_r. replace (Z.to_nat _) with (length a + length b + length c - 8)%nat by lia.
    rewrite take_app_le, drop_app_le by lia. by rewrite <-?app_assoc.
  - rewrite part_without by (done || simpl; lia). cbn [res_bind]. destruct (Z.ltb_spec (Z.of_nat (length c)) 8) as [H2|H2].
    + rewrite (u64_id (Z.of_nat (length b) + _ - 8)), part_with_timestamp by (simpl; lia). cbn [res_bind].
      rewrite part_without by (rewrite andb_false_r || simpl; (done || lia)). eexists. split; [done|]. split; [simpl; lia|]. cbn [concat app]. rewrite app_nil_r.
      replace (Z.to_nat _) with (length b + length c - 8)%nat by lia.
      rewrite take_app_ge, drop_app_ge by lia. replace (length a + length b + length c - 8 - length a)%nat with (length b + length c - 8)%nat by lia.
      rewrite take_app_le, drop_app_le by lia. by rewrite <-?app_assoc.
    + rewrite part_without by (done || simpl; lia). cbn [res_bind]. rewrite (proj2 (Z.leb_le 8 _)), (u64_id (Z.of_nat (length c) - 8)), part_with_timestamp by (simpl; lia).
      eexists. split; [done|]. split; [simpl; lia|]. cbn [concat app]. rewrite app_nil_r.
      replace (Z.to_nat _) with (length c - 8)%nat by lia. rewrite (app_assoc a b c), take_app_ge, drop_app_ge by (rewrite length_app; lia).
      rewrite length_app. replace (length a + length b + length c - 8 - (length a + length b))%nat with (length c - 8)%nat by lia. by rewrite <-?app_assoc.
Qed.

Lemma key_part_spec k off n m old :
  key_mem k = Ok m → take (key_size_ k) m = old → (key_size_ k ≤ length m)%nat → (off + n ≤ key_size_ k)%nat →
  key_part k (Z.of_nat off) (Z.of_nat n) = Ok (take n (drop off old)).
Proof.
  intros Hm <- Hl Hn. unfold key_part. destruct (Z.eqb_spec (Z.of_nat n) 0) as [E|E]; [by replace n with 0%nat by lia|].
  rewrite Hm. cbn [res_bind]. rewrite (proj2 (Z.leb_le _ _)) by lia. rewrite !Nat2Z.id. f_equal.
  rewrite skipn_firstn_comm, take_take, Nat.min_l by lia. done.
Qed.

(** The decoded key is the padding of what the block stores: the shared bytes of
    the previous key without its timestamp, then the new bytes. *)
Lemma TrimAppendWithTimestamp_spec k u ts f shared ns :
  iterkey_ok k → is_user_key_ k = false → length ts = 8%nat → length f = 8%nat → GetKey k = Ok (u ++ ts ++ f) →
  (shared ≤ length (u ++ f))%nat → (8 ≤ shared + length ns)%nat → Z.of_nat (length u + 16 + length ns) < 2 ^ 64 →
  ∃ k', TrimAppendWithTimestamp k shared ns 8 = Ok k' ∧ iterkey_ok k' ∧ GetKey k' = Ok (padded (take shared (u ++ f) ++ ns)) ∧ is_user_key_ k' = false.
Proof.
  intros Hok Hu Hts Hf Hold Hs H8 Hb. destruct (getkey_ok k Hok) as (m & Hm & Hg & Hlen). rewrite Hold in Hg. injection Hg as Hg.
  assert (Hsz : key_size_ k = (length u + 16)%nat) by (rewrite <-Hlen, <-Hg, !length_app; lia).
  assert (Hml : (key_size_ k ≤ length m)%nat) by (rewrite length_take in Hlen; lia). rewrite length_app in Hs.
  unfold TrimAppendWithTimestamp. cbn [Nat.eqb assert_ res_bind]. unfold IsUserKey. rewrite Hu. unfold kNumInternalBytes. rewrite (proj2 (Nat.leb_le _ _)) by done. cbn [assert_ res_bind].
  rewrite Hsz. rewrite (u64_id (Z.of_nat (length u + 16) - 8)) by lia. rewrite u64_id by lia.
  set (a := take (Nat.min shared (length u)) u). set (b := take (shared - length u) f).
  assert (Hla : length a = Nat.min shared (length u)) by (unfold a; rewrite length_take; lia).
  assert (Hlb : length b = (shared - length u)%nat) by (unfold b; rewrite length_take; lia).
  replace (Z.min (Z.of_nat shared) (Z.of_nat (length u + 16) - 8 - Z.of_nat 8)) with (Z.of_nat (length a)) by lia.
  replace (Z.of_nat shared - Z.of_nat (length a)) with (Z.of_nat (length b)) by lia.
  replace (Z.of_nat (length u + 16) - 8) with (Z.of_nat (length u + 8)) by lia.
  rewrite (key_part_spec k (length u + 8) (length b) m (u ++ ts ++ f)) by (done || lia).
  change 0 with (Z.of_nat 0). rewrite (key_part_spec k 0 (length a) m (u ++ ts ++ f)) by (done || lia). cbn [res_bind]. rewrite drop_0.
  replace (drop (length u + 8) (u ++ ts ++ f)) with f by (rewrite app_assoc; symmetry; apply drop_app_exact; rewrite length_app; lia).
  replace (take (length a) (u ++ ts ++ f)) with a by (rewrite take_app_le by lia; unfold a; rewrite length_take; f_equal; lia).
  replace (take (length b) f) with b by (by rewrite Hlb).
  replace (Z.of_nat shared + Z.of_nat (length ns) - 8) with (Z.of_nat (length a + length b) + Z.of_nat (length ns) - 8) by lia.
  destruct (three_parts a b ns) as (slices & Hsl & H5 & Hc); [lia|lia|].
  assert (Hab : a ++ b ++ ns = take shared (u ++ f) ++ ns).
  { rewrite app_assoc. f_equal. unfold a, b. rewrite take_app. f_equal. destruct (Nat.le_ge_cases shared (length u)); [by rewrite Nat.min_l|].
    by rewrite Nat.min_r, !take_ge by lia. }
  rewrite Hab in Hc. destruct (SetKeySlices_spec k slices (shared + length ns + 8) Hok H5) as (k' & Hk' & Hok' & Hg' & Hu').
  { rewrite Hc. unfold padded. rewrite !length_app, length_replicate, length_take, length_drop, !length_app, length_take, length_app. lia. }
  rewrite <-Hc, <-Hg'. exists k'. split; [|by rewrite Hu'].
  apply res_bind_ok in Hsl as (acc1 & E1 & Hsl). apply res_bind_ok in Hsl as (acc2 & E2 & E3). change (Z.of_nat 0) with 0. rewrite E1. cbn [res_bind]. rewrite E2. cbn [res_bind].
  rewrite E3. cbn [res_bind assert_]. exact Hk'.
Qed.

(** *** [Swap] *)
Lemma copy_inline_spec dst src n :
  (n ≤ length src)%nat → (n ≤ length dst)%nat →
  ∃ d, copy_inline dst src n = Ok d ∧ length d = length dst ∧ ∀ i, (i ≤ n)%nat → take i d = take i src.
Proof.
  intros Hs Hd. unfold copy_inline. rewrite read_spec by done. cbn [res_bind]. assert (Hl : length (take n src) = n) by (rewrite length_take; lia).
  destruct (memcpy_spec dst 0 (take n src)) as (d & -> & Hld & Ht & _); [lia|]. exists d. rewrite Hl in Ht. cbn [plus take app] in Ht. split_and!; try done.
  intros i Hi. rewrite <-(Nat.min_l i n Hi), <-!take_take. by rewrite Ht.
Qed.
Lemma swap_buffers_spec sp1 h1 sp2 h2 n_both n1 n2 :
  length sp1 = kInlineBufferSize → length sp2 = kInlineBufferSize → (n_both ≤ kInlineBufferSize)%nat →
  (h1 = None → is_Some h2 → (n1 ≤ kInlineBufferSize)%nat) → (h2 = None → is_Some h1 → (n2 ≤ kInlineBufferSize)%nat) →
  ∃ sp1' h1' sp2' h2', swap_buffers sp1 h1 sp2 h2 n_both n1 n2 = Ok ((sp1', h1'), (sp2', h2')) ∧
    length sp1' = kInlineBufferSize ∧ length sp2' = kInlineBufferSize ∧
    length (default sp1' h1') = length (default sp2 h2) ∧ length (default sp2' h2') = length (default sp1 h1) ∧
    (∀ n, (h2 = None → n ≤ n_both ∧ n ≤ n2)%nat → take n (default sp1' h1') = take n (default sp2 h2)) ∧
    (∀ n, (h1 = None → n ≤ n_both ∧ n ≤ n1)%nat → take n (default sp2' h2') = take n (default sp1 h1)).
Proof.
  intros L1 L2 Hn H1 H2. unfold swap_buffers. destruct h1 as [b1|], h2 as [b2|]; cbn [default].
  - eexists _, _, _, _. split; [done|]. split_and!; done.
  - destruct (copy_inline_spec sp1 sp2 n2) as (d & -> & Hl & Ht); [rewrite L2; by apply H2|rewrite L1; by apply H2|]. cbn [res_bind].
    eexists _, _, _, _. split; [done|]. cbn. split_and!; try done; try congruence. intros n [_ Hle]; [done|]. by apply Ht.
  - destruct (copy_inline_spec sp2 sp1 n1) as (d & -> & Hl & Ht); [rewrite L1; by apply H1|rewrite L2; by apply H1|]. cbn [res_bind].
    eexists _, _, _, _. split; [done|]. cbn. split_and!; try done; try congruence. intros n [_ Hle]; [done|]. by apply Ht.
  - rewrite read_spec by lia. cbn [res_bind]. destruct (copy_inline_spec sp1 sp2 n_both) as (d & -> & Hl & Ht); [lia|lia|]. cbn [res_bind].
    destruct (copy_inline_spec sp2 sp1 n_both) as (e & He & Hle & Hte); [lia|lia|]. unfold copy_inline in He. rewrite read_spec in He by lia. cbn [res_bind] in He.
    rewrite He. cbn [res_bind]. eexists _, _, _, _. split; [done|]. cbn. split_and!; try done; try congruence.
    + intros n [Hx _]; [done|]. by apply Ht.
    + intros n [Hx _]; [done|]. by apply Hte.
Qed.

(** [Swap] exchanges two keys, wherever each is held, when an inline primary
    buffer that meets a heap one is at least as long as its key. *)
Theorem swap_exchanges a b :
  iterkey_ok a → iterkey_ok b → swappable a b →
  ∃ a' b', Swap a b = Ok (a', b') ∧ iterkey_ok a' ∧ iterkey_ok b' ∧ GetKey a' = GetKey b ∧ GetKey b' = GetKey a ∧
    IsUserKey a' = IsUserKey b ∧ IsUserKey b' = IsUserKey a.
Proof.
  intros Ha Hb [Hs1 Hs2]. pose proof Ha as (A1 & A2 & A3 & A4 & ma & Am & Al). pose proof Hb as (B1 & B2 & B3 & B4 & mb & Bm & Bl).
  unfold Swap. set (mx := Nat.min _ _).
  destruct (swap_buffers_spec (space_ a) (heap_buf a) (space_ b) (heap_buf b) mx (key_size_ a) (key_size_ b)) as (p1 & g1 & p2 & g2 & -> & P1 & P2 & P3 & P4 & P5 & P6);
    [done|done|unfold mx; lia|done|done|]. cbn [res_bind].
  destruct (swap_buffers_spec (space_for_secondary_buf_ a) (heap_secondary a) (space_for_secondary_buf_ b) (heap_secondary b) kInlineBufferSize
    (secondary_buf_size_ a) (secondary_buf_size_ b)) as (q1 & e1 & q2 & e2 & -> & Q1 & Q2 & Q3 & Q4 & Q5 & Q6).
  { done. } { done. } { done. } { intros E _. unfold secondary_buf_ in A4. rewrite E in A4. simpl in A4. lia. }
  { intros E _. unfold secondary_buf_ in B4. rewrite E in B4. simpl in B4. lia. }
  cbn [res_bind fst snd]. eexists _, _. split; [done|].
  (* each key reads the same bytes from the buffer it has moved to *)
  assert (Hb' : ∃ m, key_mem (mkIterKey p1 g1 (buf_size_ b) q1 e1 (secondary_buf_size_ b) (key_ b) (key_size_ b) (is_user_key_ b)) = Ok m ∧
    (key_size_ b ≤ length m)%nat ∧ take (key_size_ b) m = take (key_size_ b) mb).
  { unfold key_mem in *. cbn [key_]. destruct (key_ b); try done.
    - exists (default p1 g1). injection Bm as <-. split; [done|]. split; [unfold buf_ in *; lia|]. apply P5. intros E.
      assert (buf_size_ b = kInlineBufferSize) by (unfold buf_ in B3; rewrite E in B3; simpl in B3; lia). unfold mx. lia.
    - exists (default q1 e1). injection Bm as <-. split; [done|]. split; [unfold secondary_buf_ in *; lia|]. apply Q5. intros E.
      unfold secondary_buf_ in *. rewrite E in *. simpl in *. lia.
    - injection Bm as <-. by exists mem. }
  assert (Ha' : ∃ m, key_mem (mkIterKey p2 g2 (buf_size_ a) q2 e2 (secondary_buf_size_ a) (key_ a) (key_size_ a) (is_user_key_ a)) = Ok m ∧
    (key_size_ a ≤ length m)%nat ∧ take (key_size_ a) m = take (key_size_ a) ma).
  { unfold key_mem in *. cbn [key_]. destruct (key_ a); try done.
    - exists (default p2 g2). injection Am as <-. split; [done|]. split; [unfold buf_ in *; lia|]. apply P6. intros E.
      assert (buf_size_ a = kInlineBufferSize) by (unfold buf_ in A3; rewrite E in A3; simpl in A3; lia). unfold mx. lia.
    - exists (default q2 e2). injection Am as <-. split; [done|]. split; [unfold secondary_buf_ in *; lia|]. apply Q6. intros E.
      unfold secondary_buf_ in *. rewrite E in *. simpl in *. lia.
    - injection Am as <-. by exists mem. }
  destruct Hb' as (m1 & M1 & L1 & T1), Ha' as (m2 & M2 & L2 & T2). unfold buf_, secondary_buf_ in *.
  split; [split_and!; cbn; [done|done|congruence|congruence|by exists m1]|]. split; [split_and!; cbn; [done|done|congruence|congruence|by exists m2]|].
  unfold GetKey. rewrite M1, M2, Am, Bm. cbn [res_bind key_size_]. by rewrite !read_spec, T1, T2 by done.
Qed.
End IterKey.

Lemma padded_is_pad x : (8 ≤ length x)%nat → PadInternalKeyWithMinTimestamp [] x 8 = Ok (padded x).
Proof.
  intros Hl. unfold PadInternalKeyWithMinTimestamp, PadInternalKeyWith, padded, kNumInternalBytes. change (0 <? 8)%nat with true. cbn [assert_ res_bind].
  rewrite (proj2 (Nat.leb_le _ _)) by done. cbn [assert_ res_bind app]. by rewrite (take_ge (drop _ _)) by (rewrite length_drop; lia).
Qed.

(** An iterator key holds what was put into it.  Starting from any sound
    state, whichever buffer holds the old key: setting a key, copied or pinned,
    appending to a shared prefix of the old key (not from the secondary buffer),
    building an internal key from its parts, and overwriting sequence number and
    type in place all succeed, stay inside the buffers, and the key reads back as
    expected. *)
Theorem iterkey_operations fresh k old :
  (∀ n, length (fresh n) = n) → iterkey_ok k → GetKey k = Ok old →
  (∀ key copy, ∃ k', SetKey fresh k key copy = Ok k' ∧ iterkey_ok k' ∧ GetKey k' = Ok key) ∧
  (∀ shared ns, key_ k ≠ InSecondary → (shared ≤ length old)%nat →
     ∃ k', TrimAppend fresh k shared ns = Ok k' ∧ iterkey_ok k' ∧ GetKey k' = Ok (take shared old ++ ns)) ∧
  (∀ prefix u s t ts, valid_key (mkParsed u s t) →
     ∃ k', SetInternalKey fresh k prefix u s t ts = Ok k' ∧ iterkey_ok k' ∧
       GetInternalKey k' = Ok (prefix ++ encoded (mkParsed (u ++ default [] ts) s t))) ∧
  (∀ seq t, IsKeyPinned k = false → (8 ≤ length old)%nat →
     ∃ k' new, UpdateInternalKeyIn k seq t None = Ok k' ∧ iterkey_ok k' ∧ UpdateInternalKey old seq t = Ok new ∧ GetKey k' = Ok new).
Proof.
  intros Hf Hok Hold. split_and!.
  - intros key copy. destruct (SetKeyImpl_spec fresh Hf k key copy Hok) as (k' & H1 & H2 & H3 & _). by exists k'.
  - intros shared ns Hn Hs. destruct (TrimAppend_spec fresh Hf k shared ns old Hok Hn Hold Hs) as (k' & H1 & H2 & H3 & _). by exists k'.
  - intros prefix u s t ts Hv. destruct (SetInternalKey_spec fresh Hf k prefix u s t ts Hok Hv) as (k' & H1 & H2 & H3). exists k'.
    unfold encoded. cbn [user_key sequence type]. by rewrite <-app_assoc.
  - intros seq t Hp H8. destruct (UpdateInternalKeyIn_spec k seq t old Hok Hp Hold H8) as (k' & new & H1 & H2 & H3 & H4 & _). by exists k', new.
Qed.

(** Decoding a block whose keys are stored without timestamps.  When the key
    before it, timestamp included, shares bytes with the next key of the block,
    [TrimAppendWithTimestamp] gives the internal key obtained by padding the
    stored key with the least timestamp, wherever the boundary of the shared
    bytes falls, footer included. *)
Theorem timestamp_inserted fresh k old stripped shared ns :
  (∀ n, length (fresh n) = n) → iterkey_ok k → is_user_key_ k = false → GetKey k = Ok old →
  StripTimestampFromInternalKey [] old 8 = Ok stripped → (shared ≤ length stripped)%nat → (8 ≤ shared + length ns)%nat →
  Z.of_nat (length old + length ns) < 2 ^ 64 →
  ∃ k' new, TrimAppendWithTimestamp fresh k shared ns 8 = Ok k' ∧ iterkey_ok k' ∧
    PadInternalKeyWithMinTimestamp [] (take shared stripped ++ ns) 8 = Ok new ∧ GetInternalKey k' = Ok new.
Proof.
  intros Hf Hok Hu Hold Hst Hs H8 Hb. unfold StripTimestampFromInternalKey, kNumInternalBytes in Hst. apply res_bind_ok in Hst as ([] & Ha & [= Hst]).
  apply assert_ok, Nat.leb_le in Ha. set (n := (length old - 16)%nat).
  assert (Hsplit : old = take n old ++ take 8 (drop n old) ++ drop (length old - 8) old).
  { rewrite <-(take_drop n old) at 1. f_equal. rewrite <-(take_drop 8 (drop n old)) at 1. f_equal. rewrite drop_drop. f_equal. unfold n. lia. }
  assert (Hn : (length old - 8 - 8)%nat = n) by (unfold n; lia). simpl in Hst. rewrite Hn in Hst. subst stripped.
  destruct (TrimAppendWithTimestamp_spec fresh Hf k (take n old) (take 8 (drop n old)) (drop (length old - 8) old) shared ns) as (k' & H1 & H2 & H3 & H4);
    rewrite ?length_take, ?length_drop; try done; [lia|lia|by rewrite <-Hsplit|lia|].
  exists k'. eexists. split; [exact H1|]. split; [done|]. split.
  - apply padded_is_pad. rewrite length_app, length_take. lia.
  - unfold GetInternalKey, IsUserKey. by rewrite H4.
Qed.

(** [Swap] overruns the inline buffer.  A pinned key longer than the inline
    buffer leaves that buffer in use; swapped with a key whose buffer is on the
    heap, [key_size_] bytes are copied between the two 39-byte arrays. *)
Theorem swap_overruns fresh a b pin copied :
  (∀ n, length (fresh n) = n) → (kInlineBufferSize < length pin)%nat → (kInlineBufferSize < length copied)%nat →
  SetUserKey fresh (newIterKey fresh) pin false = Ok a → SetUserKey fresh (newIterKey fresh) copied true = Ok b →
  iterkey_ok a ∧ iterkey_ok b ∧ Swap a b = Fail BadPointer ∧ Swap b a = Fail BadPointer.
Proof.
  intros Hf Hp Hc Ha Hb. assert (Hnew : iterkey_ok (set_user (newIterKey fresh) true)).
  { split_and!; cbn; rewrite ?Hf; try done. eexists. split; [done|]. cbn. lia. }
  destruct (SetKeyImpl_spec fresh Hf _ pin false Hnew) as (a' & Ha' & Hoka & _). destruct (SetKeyImpl_spec fresh Hf _ copied true Hnew) as (b' & Hb' & Hokb & _).
  unfold SetUserKey in Ha, Hb. rewrite Ha' in Ha. rewrite Hb' in Hb. simplify_eq. split; [done|]. split; [done|].
  assert (Hha : heap_buf a = None ∧ key_size_ a = length pin ∧ length (space_ a) = kInlineBufferSize) by (unfold SetKeyImpl in Ha'; injection Ha' as <-; cbn; by rewrite Hf).
  assert (Hhb : is_Some (heap_buf b) ∧ length (space_ b) = kInlineBufferSize).
  { unfold SetKeyImpl, EnlargeBufferIfNeeded, EnlargeBuffer in Hb'. cbn [buf_size_ set_user newIterKey] in Hb'. rewrite (proj2 (Nat.ltb_lt _ _) Hc) in Hb'.
    cbn [assert_ res_bind ResetBuffer key_ heap_buf] in Hb'. apply res_bind_ok in Hb' as (bb & _ & [= <-]). cbn. by rewrite Hf. }
  destruct Hha as (E1 & E2 & E3), Hhb as [[hb E4] E5].
  assert (Hread : ∀ sp, length sp = kInlineBufferSize → read sp (key_size_ a) = Fail BadPointer) by (intros sp Hsp; unfold read; rewrite (proj2 (Nat.leb_gt _ _)); [done|lia]).
  unfold Swap. rewrite E1, E4. cbn [swap_buffers]. unfold copy_inline. by rewrite !(Hread (space_ a) E3).
Qed.

Definition zeros (n : nat) : bytes := replicate n Byte.x00.
Lemma zeros_length n : length (zeros n) = n.
Proof. apply length_replicate. Qed.
Definition set_example (key : bytes) (copy : bool) : IterKey :=
  match SetInternalKeySlice zeros (newIterKey zeros) key copy with Ok k => k | Fail _ => newIterKey zeros end.
Lemma set_example_ok key copy : iterkey_ok (set_example key copy) ∧ GetKey (set_example key copy) = Ok key.
Proof.
  assert (Hnew : iterkey_ok (set_user (newIterKey zeros) false)) by (split_and!; try done; eexists; split; [done|]; cbn; lia).
  unfold set_example, SetInternalKeySlice. by destruct (SetKeyImpl_spec zeros zeros_length _ key copy Hnew) as (k & -> & H1 & H2 & _).
Qed.
Lemma iterkey_operations_witness : ∃ k', TrimAppend zeros (set_example (zeros 50) false) 10 [Byte.x61] = Ok k' ∧ GetKey k' = Ok (zeros 10 ++ [Byte.x61]).
Proof.
  destruct (set_example_ok (zeros 50) false) as [Hok Hk].
  destruct (iterkey_operations zeros _ _ zeros_length Hok Hk) as (_ & Ht & _). destruct (Ht 10%nat [Byte.x61]) as (k' & H1 & _ & H2); [by vm_compute|vm_compute; lia|].
  exists k'. exact (conj H1 H2).
Defined.
Lemma timestamp_inserted_witness :
  ∃ k' new, TrimAppendWithTimestamp zeros (set_example (zeros 20) true) 6 (replicate 5 Byte.x61) 8 = Ok k' ∧ GetInternalKey k' = Ok new ∧
    new = zeros 11 ++ zeros 3 ++ replicate 5 Byte.x61.
Proof.
  destruct (set_example_ok (zeros 20) true) as [Hok Hk].
  destruct (timestamp_inserted zeros _ (zeros 20) (zeros 12) 6 (replicate 5 Byte.x61) zeros_length Hok eq_refl Hk eq_refl) as (k' & new & H1 & _ & H2 & H3);
    [vm_compute; lia|vm_compute; lia|by vm_compute|].
  exists k', new. split; [exact H1|]. split; [exact H3|]. vm_compute in H2. injection H2 as <-. reflexivity.
Defined.
Lemma swap_exchanges_witness : ∃ a' b', Swap (set_example (zeros 10) true) (set_example (zeros 50) true) = Ok (a', b') ∧ GetKey a' = Ok (zeros 50).
Proof.
  destruct (set_example_ok (zeros 10) true) as [Ha _], (set_example_ok (zeros 50) true) as [Hb Hk].
  destruct (swap_exchanges _ _ Ha Hb) as (a' & b' & H1 & _ & _ & H2 & _).
  - split; [intros _ _; vm_compute; lia|intros Hn; vm_compute in Hn; discriminate Hn].
  - exists a', b'. rewrite Hk in H2. exact (conj H1 H2).
Defined.
Lemma swap_overruns_witness : ∃ a b, SetUserKey zeros (newIterKey zeros) (zeros 50) false = Ok a ∧ SetUserKey zeros (newIterKey zeros) (zeros 50) true = Ok b ∧ Swap a b = Fail BadPointer.
Proof.
  eexists _, _. split; [reflexivity|]. split; [reflexivity|].
  exact (proj1 (proj2 (proj2 (swap_overruns zeros _ _ (zeros 50) (zeros 50) zeros_length ltac:(vm_compute; lia) ltac:(vm_compute; lia) eq_refl eq_refl)))).
Defined.
