(* ===== verification/BlockBuilder.v ===== *)
(** * Building blocks (rocksdb [table/block_based/block_builder.cc], [data_block_footer.cc],
      [data_block_hash_index.cc], [block_util.h])

    A block is a sequence of prefix-compressed entries, then the restart array,
    an optional hash index and a footer.  With separated storage the values follow
    the keys.  The hash function of the hash index is an argument. *)
From S2P Require Import Prelude Float64 Bitfield Slice Coding DbFormat.
Local Open Scope Z_scope.

Definition slen (s : bytes) : Z := Z.of_nat (length s).

(** ** [DataBlockFooter] *)
Definition kMaxNumRestarts : Z := Z.shiftl 1 28 - 1.
Definition kHashIndexBit : Z := Z.shiftl 1 31.
Definition kUniformKeysBit : Z := Z.shiftl 1 29.
Definition kSeparatedKVBit : Z := Z.shiftl 1 28.

(** [f_hash]: the index type is [kDataBlockBinaryAndHash]. *)
Record DataBlockFooter := mkFooter {
  f_hash : bool; separated_kv : bool; values_section_offset : Z; f_num_restarts : Z; f_is_uniform : bool }.

Definition Footer_EncodeTo (f : DataBlockFooter) (dst : bytes) : res bytes :=
  let* _ := assert_ (f_num_restarts f <=? kMaxNumRestarts) in
  let dst := if separated_kv f then PutFixed32 dst (values_section_offset f) else dst in
  let packed := f_num_restarts f in
  let packed := if f_hash f then Z.lor packed kHashIndexBit else packed in
  let packed := if separated_kv f then Z.lor packed kSeparatedKVBit else packed in
  let packed := if f_is_uniform f then Z.lor packed kUniformKeysBit else packed in
  Ok (PutFixed32 dst packed).

(** [if (packed & bit) { packed &= ~bit; }]. *)
Definition take_bit (packed bit : Z) : bool * Z :=
  if negb (Z.land packed bit =? 0) then (true, Z.ldiff packed bit) else (false, packed).
(** The last four bytes of the input, which has as many. *)
Definition last32 (input : bytes) : Z * bytes :=
  (DecodeFixed32 true (drop (length input - 4) input), take (length input - 4) input).
(** The footer and the input without it; [None]: [Status::Corruption]. *)
Definition Footer_DecodeFrom (input : bytes) : option (DataBlockFooter * bytes) :=
  if (length input <? 4)%nat then None
  else
    let '(packed, rest) := last32 input in
    let '(hash, packed) := take_bit packed kHashIndexBit in
    let '(sep, packed) := take_bit packed kSeparatedKVBit in
    let '(uniform, packed) := take_bit packed kUniformKeysBit in
    if kMaxNumRestarts <? packed then None
    else if sep then
      if (length rest <? 4)%nat then None
      else let '(off, rest) := last32 rest in Some (mkFooter hash true off packed uniform, rest)
    else Some (mkFooter hash false 0 packed uniform, rest).

(** ** Decoding the header of an entry, [p] up to [limit]; [None]: [nullptr] *)
Definition opt_offset (value_offset : bool) (p : bytes) : option (Z * bytes) :=
  if value_offset then GetVarint32Ptr p else Some (0, p).
Definition DecodeEntry (p : bytes) (value_offset : bool) : res (option (Z * Z * Z * Z * bytes)) :=
  let* _ := assert_ (3 <=? length p)%nat in
  let shared := at_ p 0 in
  let non_shared := at_ p 1 in
  let value_length := at_ p 2 in
  Ok (let header :=
        if Z.lor (Z.lor shared non_shared) value_length <? 128 then Some (shared, non_shared, value_length, drop 3 p)
        else
          '(shared, p) ← GetVarint32Ptr p;
          '(non_shared, p) ← GetVarint32Ptr p;
          '(value_length, p) ← GetVarint32Ptr p;
          Some (shared, non_shared, value_length, p) in
      '(shared, non_shared, value_length, p) ← header;
      '(off, p) ← opt_offset value_offset p;
      Some (shared, non_shared, value_length, off, p)).
Definition DecodeKey (p : bytes) (value_offset : bool) : res (option (Z * Z * Z * bytes)) :=
  let* o := DecodeEntry p value_offset in
  Ok ('(shared, non_shared, _, off, p) ← o; Some (shared, non_shared, off, p)).
Definition DecodeKeyV4 (p : bytes) (value_offset : bool) : option (Z * Z * Z * bytes) :=
  if (length p <? 3)%nat then None
  else
    let shared := at_ p 0 in
    let non_shared := at_ p 1 in
    let header :=
      if Z.lor shared non_shared <? 128 then Some (shared, non_shared, drop 2 p)
      else
        '(shared, p) ← GetVarint32Ptr p;
        '(non_shared, p) ← GetVarint32Ptr p;
        Some (shared, non_shared, p) in
    '(shared, non_shared, p) ← header;
    '(off, p) ← opt_offset value_offset p;
    Some (shared, non_shared, off, p).
Definition DecodeEntryV4 (p : bytes) (value_offset : bool) : option (Z * Z * Z * Z * bytes) :=
  '(shared, non_shared, off, p) ← DecodeKeyV4 p value_offset; Some (shared, non_shared, 0, off, p).

(** On a little-endian host. *)
Definition ReadBe64FromKey (s : bytes) (is_user_key : bool) (offset : nat) : res Z :=
  let* s := if is_user_key then Ok s
            else let* _ := assert_ (kNumInternalBytes <=? length s)%nat in Ok (take (length s - kNumInternalBytes) s) in
  let offset := Nat.min offset (length s) in
  let remaining := (length s - offset)%nat in
  if (8 <=? remaining)%nat then Ok (le_combine (rev (take 8 (drop offset s))))
  else
    let val := fold_left (λ val b, Z.lor (u64 (Z.shiftl val 8)) (b2z b)) (drop offset s) 0 in
    Ok (if (0 <? remaining)%nat then u64 (Z.shiftl val ((8 - Z.of_nat remaining) * 8)) else val).

(** ** [UniformDataTracker] *)
Definition dsub : double → double → double := SFsub prec emax.
Definition ddiv : double → double → double := SFdiv prec emax.
Definition dsqrt : double → double := SFsqrt prec emax.
Definition dle0 (x : double) : bool := SFleb x (S754_zero false).
Definition dge0 (x : double) : bool := SFleb (S754_zero false) x.
Definition dminus1 : double := SFopp (of_u64 1).

Record UniformDataTracker := mkTracker { prev_key_value_ : Z; num_keys_ : Z; mean_ : double; m2_ : double }.
Definition newTracker : UniformDataTracker := mkTracker 0 0 (of_u64 0) (of_u64 0).
Definition AddKey (t : UniformDataTracker) (key_value : Z) : UniformDataTracker :=
  let '(mean, m2) :=
    if 0 <? num_keys_ t then
      let gap := of_u64 (u64 (key_value - prev_key_value_ t)) in
      let delta := dsub gap (mean_ t) in
      let mean := dadd (mean_ t) (ddiv delta (of_u64 (num_keys_ t))) in
      let delta2 := dsub gap mean in
      (mean, dadd (m2_ t) (dmul delta delta2))
    else (mean_ t, m2_ t) in
  mkTracker key_value (u64 (num_keys_ t + 1)) mean m2.
Definition GetCV (t : UniformDataTracker) : double :=
  let gap_count := if 0 <? num_keys_ t then num_keys_ t - 1 else 0 in
  if (gap_count <? 2) || dle0 (mean_ t) then dminus1
  else ddiv (dsqrt (ddiv (m2_ t) (of_u64 gap_count))) (mean_ t).

(** ** The hash index *)
Definition kNoEntry : Z := 255.
Definition kCollision : Z := 254.
Definition kMaxRestartSupportedByHashIndex : Z := 253.
Definition kMaxBlockSizeSupportedByHashIndex : Z := Z.shiftl 1 16.
(** 0.75 *)
Definition kDefaultUtilRatio : double := ddiv (of_u64 3) (of_u64 4).
Definition to_u16 (x : double) : res Z := let* v := to_u64 x in if v <? 2 ^ 16 then Ok v else Fail Undefined.

Record HashBuilder := mkHash {
  bucket_per_key_ : double; estimated_num_buckets_ : double; hi_valid_ : bool; hash_and_restart_pairs_ : list (Z * Z) }.
Definition newHashBuilder : HashBuilder := mkHash dminus1 (of_u64 0) false [].
Definition Hash_Initialize (h : HashBuilder) (util_ratio : double) : HashBuilder :=
  let util_ratio := if dle0 util_ratio then kDefaultUtilRatio else util_ratio in
  mkHash (ddiv (of_u64 1) util_ratio) (estimated_num_buckets_ h) true (hash_and_restart_pairs_ h).
Definition Hash_Valid (h : HashBuilder) : bool := hi_valid_ h && dgt0 (bucket_per_key_ h).
Definition EstimateSize (h : HashBuilder) : res Z :=
  let* n := to_u16 (estimated_num_buckets_ h) in Ok (2 + Z.lor n 1).
(** [DataBlockHashIndex::Initialize(data, size, &map_offset)]: the number of buckets and [map_offset]. *)
Definition HashIndex_Initialize (data : bytes) (size : Z) : res (Z * Z) :=
  let* _ := assert_ (2 <=? size) in
  let num_buckets := DecodeFixed16 true (drop (Z.to_nat (size - 2)) data) in
  let* _ := assert_ (0 <? num_buckets) in
  let* _ := assert_ (num_buckets <? size) in
  Ok (num_buckets, u16 (size - 2 - num_buckets)).
Definition Hash_Reset (h : HashBuilder) : HashBuilder := mkHash (bucket_per_key_ h) (of_u64 0) true [].

Section Builder.
Context (GetSliceHash : bytes → Z).

Definition Hash_Add (h : HashBuilder) (key : bytes) (restart_index : Z) : res HashBuilder :=
  let* _ := assert_ (Hash_Valid h) in
  if kMaxRestartSupportedByHashIndex <? restart_index then
    Ok (mkHash (bucket_per_key_ h) (estimated_num_buckets_ h) false (hash_and_restart_pairs_ h))
  else
    Ok (mkHash (bucket_per_key_ h) (dadd (estimated_num_buckets_ h) (bucket_per_key_ h)) (hi_valid_ h)
          (hash_and_restart_pairs_ h ++ [(GetSliceHash key, u8 restart_index)])).
(** One entry of [hash_and_restart_pairs_] goes to its bucket. *)
Definition fill_bucket (num_buckets : Z) (buckets : list Z) (entry : Z * Z) : list Z :=
  let buck_idx := Z.to_nat (u16 (entry.1 mod num_buckets)) in
  match buckets !! buck_idx with
  | Some b => if b =? kNoEntry then <[buck_idx := entry.2]> buckets
              else if b =? entry.2 then buckets else <[buck_idx := kCollision]> buckets
  | None => buckets
  end.
Definition Hash_Finish (h : HashBuilder) (buffer : bytes) : res bytes :=
  let* _ := assert_ (Hash_Valid h) in
  let* n := to_u16 (estimated_num_buckets_ h) in
  let num_buckets := Z.lor (if n =? 0 then 1 else n) 1 in
  let buckets := fold_left (fill_bucket num_buckets) (hash_and_restart_pairs_ h) (replicate (Z.to_nat num_buckets) kNoEntry) in
  let buffer := PutFixed16 (buffer ++ map z2b buckets) num_buckets in
  let* _ := assert_ (slen buffer <=? kMaxBlockSizeSupportedByHashIndex) in
  Ok buffer.
(** [DataBlockHashIndex::Lookup]; [num_buckets]: its [num_buckets_]. *)
Definition Hash_Lookup (num_buckets : Z) (data : bytes) (map_offset : Z) (key : bytes) : res Z :=
  if num_buckets =? 0 then Fail Undefined
  else
    let idx := u16 (GetSliceHash key mod num_buckets) in
    match data !! Z.to_nat (map_offset + idx) with Some b => Ok (b2z b) | None => Fail BadPointer end.

(** ** [BlockBuilder] *)
Record Options := mkOptions {
  block_restart_interval_ : Z; use_delta_encoding_ : bool; use_value_delta_encoding_ : bool; strip_ts_sz_ : nat;
  bb_is_user_key_ : bool; uniform_cv_threshold_ : double; use_separated_kv_storage_ : bool }.
Record BlockBuilder := mkBuilder {
  opts : Options; buffer_ : bytes; restarts_ : list Z; estimate_ : Z; counter_ : Z; finished_ : bool; bb_is_uniform_ : bool;
  last_key_ : bytes; data_block_hash_index_builder_ : HashBuilder; values_buffer_ : bytes; add_with_last_key_called_ : bool }.

Definition base_estimate (o : Options) : Z := 4 + 4 + if use_separated_kv_storage_ o then 4 else 0.
(** [hash]: the util ratio of [kDataBlockBinaryAndHash]. *)
Definition newBlockBuilder (o : Options) (hash : option double) : res BlockBuilder :=
  let h := match hash with Some ratio => Hash_Initialize newHashBuilder ratio | None => newHashBuilder end in
  let* _ := assert_ (1 <=? block_restart_interval_ o) in
  Ok (mkBuilder o [] [0] (base_estimate o) 0 false false [] h [] false).

Definition bb_Reset (b : BlockBuilder) : res BlockBuilder :=
  let restarts := take 1 (restarts_ b) in
  let* _ := assert_ (bool_decide (restarts = [0])) in
  let h := data_block_hash_index_builder_ b in
  Ok (mkBuilder (opts b) [] restarts (base_estimate (opts b)) 0 false false []
        (if Hash_Valid h then Hash_Reset h else h) [] false).
Definition SwapAndReset (b : BlockBuilder) (buffer : bytes) : res (BlockBuilder * bytes) :=
  let* b' := bb_Reset b in Ok (b', buffer_ b).

Definition CurrentSizeEstimate (b : BlockBuilder) : res Z :=
  let h := data_block_hash_index_builder_ b in
  let* e := if Hash_Valid h then EstimateSize h else Ok 0 in
  Ok (u64 (estimate_ b + e)).
Definition EstimateSizeAfterKV (b : BlockBuilder) (key value : bytes) : res Z :=
  let o := opts b in
  let restart := block_restart_interval_ o <=? counter_ b in
  let* estimate := CurrentSizeEstimate b in
  let estimate := estimate + slen key in
  let estimate := if (0 <? strip_ts_sz_ o)%nat then estimate - Z.of_nat (strip_ts_sz_ o) else estimate in
  let estimate := estimate + if negb (use_value_delta_encoding_ o) || restart then slen value else slen value / 2 in
  let estimate := if restart then estimate + 4 else estimate in
  let* v := VarintLength (slen (values_buffer_ b)) in
  let estimate := if use_separated_kv_storage_ o && ((counter_ b =? 0) || restart) then estimate + v else estimate in
  let estimate := estimate + 4 in
  let* k := VarintLength (slen key) in
  let estimate := estimate + k in
  let* v := VarintLength (slen value) in
  Ok (u64 (if negb (use_value_delta_encoding_ o) || restart then estimate + v else estimate)).

Definition MaybeStripTimestampFromKey (o : Options) (key : bytes) : res bytes :=
  let stripped_key := take (Z.to_nat (u32 (slen key))) key in
  if (0 <? strip_ts_sz_ o)%nat then
    if bb_is_user_key_ o then remove_suffix stripped_key (strip_ts_sz_ o)
    else StripTimestampFromInternalKey [] stripped_key (strip_ts_sz_ o)
  else Ok stripped_key.

Definition below4G (s : bytes) : bool := slen s <? Z.shiftl 1 32.
Definition AddWithLastKeyImpl (b : BlockBuilder) (key value last_key : bytes) (delta_value : option bytes)
    (skip_delta_encoding : bool) (buffer_size : Z) : res BlockBuilder :=
  let o := opts b in
  let* _ := assert_ (negb (finished_ b)) in
  let* _ := assert_ (counter_ b <=? block_restart_interval_ o) in
  let* _ := assert_ (below4G key) in
  let* _ := assert_ (below4G value) in
  let* _ := assert_ (below4G last_key) in
  let* _ := assert_ (match delta_value with None => true | Some d => below4G d end) in
  let* key_to_persist := MaybeStripTimestampFromKey o key in
  let* last_key_persisted := if (length last_key =? 0)%nat then Ok last_key else MaybeStripTimestampFromKey o last_key in
  let '(restarts, estimate, counter, shared) :=
    if block_restart_interval_ o <=? counter_ b then (restarts_ b ++ [u32 buffer_size], u64 (estimate_ b + 4), 0, 0)
    else if use_delta_encoding_ o && negb skip_delta_encoding then
      (restarts_ b, estimate_ b, counter_ b, u32 (Z.of_nat (difference_offset key_to_persist last_key_persisted)))
    else (restarts_ b, estimate_ b, counter_ b, 0) in
  let non_shared := u32 (u32 (slen key_to_persist) - shared) in
  let prev_values_size := slen (values_buffer_ b) in
  let value_size := u32 (slen value) in
  let sizes := if use_value_delta_encoding_ o then [shared; non_shared] else [shared; non_shared; value_size] in
  let offset := if use_separated_kv_storage_ o && (counter =? 0) then [u32 prev_values_size] else [] in
  let buffer := PutVarint32 (buffer_ b) (sizes ++ offset) in
  let buffer := buffer ++ take (Z.to_nat non_shared) (drop (Z.to_nat shared) key_to_persist) in
  let* v :=
    if negb (shared =? 0) && use_value_delta_encoding_ o then
      match delta_value with
      | None => Fail AssertFail
      | Some d => Ok (take (Z.to_nat (u32 (slen d))) d)
      end
    else Ok (take (Z.to_nat value_size) value) in
  let '(buffer, values) := if use_separated_kv_storage_ o then (buffer, values_buffer_ b ++ v) else (buffer ++ v, values_buffer_ b) in
  let h := data_block_hash_index_builder_ b in
  let* h := if Hash_Valid h then
              let* _ := assert_ (negb (bb_is_user_key_ o)) in
              let* u := ExtractUserKey key in
              Hash_Add h u (Z.of_nat (length restarts) - 1)
            else Ok h in
  Ok (mkBuilder o buffer restarts (u64 (estimate + (slen buffer - buffer_size + slen values - prev_values_size))) (counter + 1)
        (finished_ b) (bb_is_uniform_ b) (last_key_ b) h values (add_with_last_key_called_ b)).

Definition set_last_key (b : BlockBuilder) (k : bytes) : BlockBuilder :=
  mkBuilder (opts b) (buffer_ b) (restarts_ b) (estimate_ b) (counter_ b) (finished_ b) (bb_is_uniform_ b) k
    (data_block_hash_index_builder_ b) (values_buffer_ b) (add_with_last_key_called_ b).
Definition bb_Add (b : BlockBuilder) (key value : bytes) (delta_value : option bytes) (skip_delta_encoding : bool) : res BlockBuilder :=
  let* _ := assert_ (negb (add_with_last_key_called_ b)) in
  let* b := AddWithLastKeyImpl b key value (last_key_ b) delta_value skip_delta_encoding (slen (buffer_ b)) in
  Ok (if use_delta_encoding_ (opts b) then set_last_key b key else b).
(** The code resets [add_with_last_key_called_] here; it never sets it. *)
Definition AddWithLastKey (b : BlockBuilder) (key value last_key_param : bytes) (delta_value : option bytes) (skip_delta_encoding : bool) : res BlockBuilder :=
  let* _ := assert_ (length (last_key_ b) =? 0)%nat in
  let b := mkBuilder (opts b) (buffer_ b) (restarts_ b) (estimate_ b) (counter_ b) (finished_ b) (bb_is_uniform_ b) (last_key_ b)
             (data_block_hash_index_builder_ b) (values_buffer_ b) false in
  let buffer_size := slen (buffer_ b) in
  let last_key_size := slen last_key_param in
  let* _ := assert_ ((buffer_size =? 0) || (u64 (last_key_size - Z.of_nat (strip_ts_sz_ (opts b))) <=? buffer_size)) in
  let last_key := if 0 <? buffer_size then last_key_param else [] in
  AddWithLastKeyImpl b key value last_key delta_value skip_delta_encoding buffer_size.

(** ** [Finish] *)
Definition bb_GetRestartKey (b : BlockBuilder) (index : nat) : res bytes :=
  let* r := match restarts_ b !! index with Some r => Ok r | None => Fail AssertFail end in
  let p := drop (Z.to_nat r) (buffer_ b) in
  let* o := if use_value_delta_encoding_ (opts b) then Ok (DecodeKeyV4 p (use_separated_kv_storage_ (opts b)))
            else DecodeKey p (use_separated_kv_storage_ (opts b)) in
  match o with
  | None => Fail AssertFail
  | Some (shared, non_shared, _, p) =>
      let* _ := assert_ (shared =? 0) in
      if non_shared <=? slen p then Ok (take (Z.to_nat non_shared) p) else Fail BadPointer
  end.
(** The tracker after the restart keys from [i] on; [None]: a key is too short. *)
Fixpoint scan_loop (b : BlockBuilder) (prefix_len n i : nat) (t : UniformDataTracker) : res (option UniformDataTracker) :=
  match n with
  | O => Ok (Some t)
  | S n =>
      let* key := bb_GetRestartKey b i in
      if negb (bb_is_user_key_ (opts b)) && (length key <? kNumInternalBytes)%nat then Ok None
      else
        let* v := ReadBe64FromKey key (bb_is_user_key_ (opts b)) prefix_len in
        scan_loop b prefix_len n (S i) (AddKey t v)
  end.
Definition ScanForUniformity (b : BlockBuilder) : res bool :=
  if SFltb (uniform_cv_threshold_ (opts b)) (S754_zero false) || (length (restarts_ b) <? 3)%nat then Ok false
  else
    let* first_key := bb_GetRestartKey b 0 in
    let* last_key := bb_GetRestartKey b (length (restarts_ b) - 1) in
    if negb (bb_is_user_key_ (opts b)) && ((length first_key <? kNumInternalBytes)%nat || (length last_key <? kNumInternalBytes)%nat)
    then Ok false
    else
      let* t := scan_loop b (difference_offset first_key last_key) (length (restarts_ b)) 0 newTracker in
      Ok (match t with
          | None => false
          | Some t => dge0 (GetCV t) && SFltb (GetCV t) (uniform_cv_threshold_ (opts b))
          end).

Definition bb_Finish (b : BlockBuilder) : res (BlockBuilder * bytes) :=
  let* uniform := ScanForUniformity b in
  let values_buffer_offset := slen (buffer_ b) in
  let sep := use_separated_kv_storage_ (opts b) in
  let buffer := if sep then buffer_ b ++ values_buffer_ b else buffer_ b in
  let buffer := fold_left PutFixed32 (restarts_ b) buffer in
  let h := data_block_hash_index_builder_ b in
  let* e := CurrentSizeEstimate b in
  let hash := Hash_Valid h && (e <=? kMaxBlockSizeSupportedByHashIndex) in
  let* buffer := if hash then Hash_Finish h buffer else Ok buffer in
  let footer := mkFooter hash sep (if sep then u32 values_buffer_offset else 0) (u32 (Z.of_nat (length (restarts_ b)))) uniform in
  let* buffer := Footer_EncodeTo footer buffer in
  Ok (mkBuilder (opts b) buffer (restarts_ b) (estimate_ b) (counter_ b) true uniform (last_key_ b) h (values_buffer_ b)
        (add_with_last_key_called_ b), buffer).
End Builder.
