(* ===== verification/BlockHash.v ===== *)
(** * The hash index of a data block (rocksdb [data_block_hash_index.cc])

    A bucket holds the restart interval of the keys that fall into it, or says that
    there is none, or that there are several.  A lookup can therefore send a reader
    to the wrong interval only for a key that is not in the block. *)
From S2P Require Import Prelude Float64 Bitfield Slice Coding DbFormat BlockBuilder.
Local Open Scope Z_scope.

Section buckets.
Context (nb : Z) (Hnb : 0 < nb < 2 ^ 16).
Definition slot (h : Z) : nat := Z.to_nat (u16 (h mod nb)).
Lemma slot_spec h : slot h = Z.to_nat (h mod nb) ∧ (slot h < Z.to_nat nb)%nat.
Proof. pose proof (Z.mod_pos_bound h nb ltac:(lia)). unfold slot, u16. rewrite (Z.mod_small (h mod nb)) by lia. lia. Qed.

(** What a bucket says about the entries [ps], hash and restart interval. *)
Definition bucket_says (ps : list (Z * Z)) (i : nat) (x : Z) : Prop :=
  x = kCollision ∨ (x = kNoEntry ∧ ∀ p, p ∈ ps → slot p.1 ≠ i) ∨ (0 ≤ x ≤ kMaxRestartSupportedByHashIndex ∧ (∃ p, p ∈ ps ∧ p.2 = x) ∧ ∀ p, p ∈ ps → slot p.1 = i → p.2 = x).
Definition buckets_ok (ps : list (Z * Z)) (bs : list Z) : Prop := length bs = Z.to_nat nb ∧ ∀ i x, bs !! i = Some x → bucket_says ps i x.

Lemma says_other ps p i x : slot p.1 ≠ i → bucket_says ps i x → bucket_says (ps ++ [p]) i x.
Proof.
  intros Hne [->|[[-> H]|(Hx & (p' & Hp' & Ex) & H)]]; [by left|right; left|right; right]; (split; [done|]); [|split; [exists p'; split; [|done]; apply elem_of_app; by left|]];
    intros q [Hq| ->%list_elem_of_singleton]%elem_of_app; auto. done.
Qed.
Lemma fill_bucket_ok ps bs p : 0 ≤ p.2 ≤ kMaxRestartSupportedByHashIndex → buckets_ok ps bs → buckets_ok (ps ++ [p]) (fill_bucket nb bs p).
Proof.
  intros Hp [Hl Hok]. destruct (slot_spec p.1) as [_ Hs]. destruct (lookup_lt_is_Some_2 bs (slot p.1) ltac:(lia)) as [x Hx]. pose proof (Hok _ _ Hx) as Hsx.
  unfold fill_bucket. fold (slot p.1). rewrite Hx. unfold kMaxRestartSupportedByHashIndex in *.
  assert (Hset : ∀ y, bucket_says (ps ++ [p]) (slot p.1) y → buckets_ok (ps ++ [p]) (<[slot p.1:=y]> bs)).
  { intros y Hy. split; [by rewrite length_insert|]. intros i z Hz. destruct (decide (slot p.1 = i)) as [<-|Hne].
    - rewrite list_lookup_insert_eq in Hz by lia. by injection Hz as <-.
    - rewrite list_lookup_insert_ne in Hz by done. apply says_other; auto. }
  destruct (Z.eqb_spec x kNoEntry) as [->|Hn].
  - apply Hset. right; right. split; [done|]. split; [exists p; split; [apply elem_of_app; right; by apply list_elem_of_singleton|done]|]. intros q [Hq| ->%list_elem_of_singleton]%elem_of_app Hi; [|done].
    destruct Hsx as [E|[[_ H]|[Hr _]]]; [by unfold kNoEntry, kCollision in E|by destruct (H q Hq)|unfold kNoEntry, kMaxRestartSupportedByHashIndex in Hr; lia].
  - destruct (Z.eqb_spec x p.2) as [->|Hne]; [|apply Hset; by left]. rewrite <-(list_insert_id bs _ _ Hx). apply Hset.
    destruct Hsx as [E|[[E _]|(Hr & (p' & Hp' & Ex) & H)]]; [unfold kCollision in E; lia|done|]. right; right. split; [done|].
    split; [exists p'; split; [apply elem_of_app; by left|done]|].
    intros q [Hq| ->%list_elem_of_singleton]%elem_of_app Hi; auto.
Qed.
Lemma fill_all_ok ps : Forall (λ p, 0 ≤ p.2 ≤ kMaxRestartSupportedByHashIndex) ps →
  buckets_ok ps (fold_left (fill_bucket nb) ps (replicate (Z.to_nat nb) kNoEntry)).
Proof.
  induction ps as [|p ps IH] using rev_ind; intros Hps.
  - split; [apply length_replicate|]. intros i x [-> _]%lookup_replicate_1. right; left. split; [done|]. by intros p Hp%elem_of_nil.
  - apply Forall_app in Hps as [Hps Hp]. rewrite Forall_singleton in Hp. rewrite fold_left_app. apply fill_bucket_ok; [done|by apply IH].
Qed.

(** A lookup in a table at [pre]. *)
Lemma lookup_spec hash bs ps pre rest key : buckets_ok ps bs →
  ∃ x, Hash_Lookup hash nb (pre ++ map z2b bs ++ rest) (slen pre) key = Ok x ∧ bucket_says ps (slot (hash key)) x.
Proof.
  intros [Hl Hok]. destruct (slot_spec (hash key)) as [Es Hs]. destruct (lookup_lt_is_Some_2 bs (slot (hash key)) ltac:(lia)) as [x Hx]. exists x. pose proof (Hok _ _ Hx) as Hsx.
  split; [|done]. unfold Hash_Lookup. rewrite (proj2 (Z.eqb_neq _ _)) by lia. pose proof (Z.mod_pos_bound (hash key) nb ltac:(lia)).
  unfold u16. rewrite (Z.mod_small (hash key mod nb)) by lia. replace (Z.to_nat (slen pre + hash key mod nb)) with (length pre + slot (hash key))%nat by (unfold slen; lia).
  rewrite lookup_app_r by lia. replace (_ + _ - _)%nat with (slot (hash key)) by lia. rewrite lookup_app_l by (rewrite length_map; lia).
  rewrite list_lookup_fmap, Hx. cbn [fmap option_fmap option_map]. rewrite b2z_z2b; [done|].
  unfold bucket_says, kCollision, kNoEntry, kMaxRestartSupportedByHashIndex in Hsx. destruct Hsx as [->|[[-> _]|[Hr _]]]; lia.
Qed.
End buckets.

Lemma HashIndex_Initialize_spec pre bs t : let n := Z.of_nat (length bs) in
  0 < n → slen pre + n + 2 < 2 ^ 16 → HashIndex_Initialize (pre ++ map z2b bs ++ EncodeFixed16 true n ++ t) (slen pre + n + 2) = Ok (n, slen pre).
Proof.
  intros n Hn Hs. assert (Hp : 0 ≤ slen pre) by (unfold slen; lia). unfold HashIndex_Initialize. rewrite (proj2 (Z.leb_le _ _)) by lia. cbn [assert_ res_bind].
  replace (Z.to_nat (slen pre + n + 2 - 2)) with (length (pre ++ map z2b bs)) by (unfold slen, n; rewrite length_app, length_map; lia).
  rewrite (app_assoc pre), drop_app_length. assert (Hd : DecodeFixed16 true (EncodeFixed16 true n ++ t) = n).
  { unfold DecodeFixed16, EncodeFixed16. rewrite take_app_length' by (by rewrite length_le_split). apply le_roundtrip. simpl. lia. }
  rewrite Hd, !(proj2 (Z.ltb_lt _ _)) by lia. cbn [assert_ res_bind]. unfold u16. rewrite Z.mod_small by lia. do 2 f_equal. lia.
Qed.

(** The number of buckets that [Finish] uses for an estimate of [n]. *)
Definition buckets_for (n : Z) : Z := Z.lor n 1.
Lemma buckets_for_range n : in_u 16 n → 0 < buckets_for n < 2 ^ 16.
Proof.
  intros Hn. unfold buckets_for. pose proof (lor_range 16 n 1 ltac:(lia) Hn ltac:(lia)) as Hr. assert (Z.lor n 1 ≠ 0); [|lia].
  intros E. apply (f_equal (λ v, Z.testbit v 0)) in E. rewrite Z.lor_spec, Z.bits_0 in E. by rewrite orb_true_r in E.
Qed.
Lemma to_u16_range x n : to_u16 x = Ok n → in_u 16 n.
Proof.
  unfold to_u16. intros (v & Hv & H)%res_bind_ok. destruct (Z.ltb_spec v (2 ^ 16)); [|done]. injection H as <-. split; [|done].
  unfold to_u64 in Hv. destruct x as [| | |s m e]; try done; [by injection Hv as <-|].
  assert (0 ≤ trunc m e) by (unfold trunc; destruct (Z.leb_spec 0 e); [pose proof (Z.pow_nonneg 2 e); lia|apply Z.div_pos; [|apply Z.pow_pos_nonneg]; lia]).
  destruct s; [destruct (_ =? 0); [|done]|destruct (_ <? _); [|done]]; by injection Hv as <-.
Qed.
Lemma Hash_Finish_spec h buffer n :
  Hash_Valid h = true → to_u16 (estimated_num_buckets_ h) = Ok n → Forall (λ p, 0 ≤ p.2 ≤ kMaxRestartSupportedByHashIndex) (hash_and_restart_pairs_ h) →
  slen buffer + buckets_for n + 2 ≤ kMaxBlockSizeSupportedByHashIndex →
  ∃ bs, Hash_Finish h buffer = Ok (buffer ++ map z2b bs ++ EncodeFixed16 true (buckets_for n)) ∧ buckets_ok (buckets_for n) (hash_and_restart_pairs_ h) bs.
Proof.
  intros Hv Hn Hps Hs. unfold Hash_Finish. rewrite Hv, Hn. cbn [assert_ res_bind]. pose proof (to_u16_range _ _ Hn) as Hr. pose proof (buckets_for_range n Hr) as Hb.
  replace (Z.lor (if n =? 0 then 1 else n) 1) with (buckets_for n) by (unfold buckets_for; by destruct (Z.eqb_spec n 0) as [->|]).
  pose proof (fill_all_ok (buckets_for n) Hb _ Hps) as Hok. set (bs := fold_left _ _ _) in *. exists bs. split; [|done].
  unfold PutFixed16. rewrite (proj2 (Z.leb_le _ _)); [cbn [assert_ res_bind]; by rewrite <-app_assoc|].
  destruct Hok as [Hl _]. unfold slen in *. rewrite !length_app, length_map, Hl. unfold EncodeFixed16. rewrite length_le_split. lia.
Qed.
