(* ===== verification/BlockLayout.v ===== *)
(** * The layout of a block, and that the builder produces it

    A block is described by its entries: the stored key, how many of its bytes are
    shared with the key before, and the value.  [keys_part] is what the entries
    look like in the block; the builder's buffers are shown to be this layout
    after every [Add], and [Finish] to append the restart array and the footer. *)
From S2P Require Import Prelude Float64 Bitfield Slice Coding DbFormat BlockBuilder BlockHash.
Local Open Scope Z_scope.

Record ent := mkEnt { e_shared : nat; e_key : bytes; e_val : bytes }.

(** ** Headers *)
(** The first byte tells whether there are more. *)
Lemma EncodeVarint32_first v : in_u 32 v →
  ∃ b l, EncodeVarint32 v = b :: l ∧ if v <? 128 then b2z b = v ∧ l = [] else 128 ≤ b2z b.
Proof.
  intros Hv. pose proof (EncodeVarint32_loop v Hv) as He. cbn [encode_loop] in He.
  destruct (Z.leb_spec 128 v), (Z.ltb_spec v 128); try lia.
  - apply res_bind_ok in He as (l & _ & [= <-]). eexists _, _. split; [done|]. change (128 - 1) with 127. rewrite more_byte by lia.
    pose proof (Z.mod_pos_bound v 128). lia.
  - injection He as <-. eexists _, _. split; [done|]. split; [|done]. apply b2z_z2b. lia.
Qed.
Lemma lor_small a b : in_u 8 a → in_u 8 b → (Z.lor a b <? 128) = (a <? 128) && (b <? 128).
Proof.
  intros Ha Hb. assert (Hbit : ∀ x, in_u 8 x → (x <? 128) = negb (Z.testbit x 7)).
  { intros x Hx. rewrite Z.testbit_odd, Z.shiftr_div_pow2 by lia. change (2 ^ 7) with 128. destruct (Z.ltb_spec x 128).
    - by rewrite Z.div_small by lia.
    - replace (x / 128) with 1 by (apply Z.div_unique with (x - 128); lia). done. }
  rewrite !Hbit by (done || (apply lor_range; lia)). rewrite Z.lor_spec. by rewrite negb_orb.
Qed.

Definition varints (l : list Z) : bytes := concat (map EncodeVarint32 l).
Lemma varints_app l k : varints (l ++ k) = varints l ++ varints k.
Proof. unfold varints. by rewrite map_app, concat_app. Qed.
Lemma GetVarint32Ptr_encoded v rest : in_u 32 v → GetVarint32Ptr (EncodeVarint32 v ++ rest) = Some (v, rest).
Proof. apply GetVarint32_encoded. Qed.

Lemma PutVarint32_varints dst l : Forall (λ v, in_u 32 v) l → PutVarint32 dst l = dst ++ varints l.
Proof.
  intros Hl. unfold PutVarint32, varints. do 2 f_equal. apply map_ext_in. intros v Hv%list_elem_of_In.
  rewrite Forall_forall in Hl. by rewrite u32_id by auto.
Qed.

(** Both paths of [DecodeEntry] read the header back. *)
Lemma DecodeEntry_encoded shared non_shared vlen voff (off : bool) rest :
  in_u 32 shared → in_u 32 non_shared → in_u 32 vlen → (off = true → in_u 32 voff) →
  DecodeEntry (varints ([shared; non_shared; vlen] ++ if off then [voff] else []) ++ rest) off =
    Ok (Some (shared, non_shared, vlen, if off then voff else 0, rest)).
Proof.
  intros H1 H2 H3 H4. unfold varints. cbn [map app concat]. rewrite <-!app_assoc.
  set (tail := concat (map EncodeVarint32 (if off then [voff] else [])) ++ rest).
  assert (Hoff : opt_offset off tail = Some (if off then voff else 0, rest)).
  { unfold opt_offset, tail. destruct off; [|done]. cbn [map concat]. rewrite app_nil_r. apply GetVarint32Ptr_encoded. auto. }
  destruct (EncodeVarint32_first shared H1) as (a & la & Ea & Pa), (EncodeVarint32_first non_shared H2) as (b & lb & Eb & Pb),
    (EncodeVarint32_first vlen H3) as (c & lc & Ec & Pc).
  pose proof (GetVarint32Ptr_encoded shared (EncodeVarint32 non_shared ++ EncodeVarint32 vlen ++ tail) H1) as Ga.
  pose proof (GetVarint32Ptr_encoded non_shared (EncodeVarint32 vlen ++ tail) H2) as Gb.
  pose proof (GetVarint32Ptr_encoded vlen tail H3) as Gc.
  unfold DecodeEntry. rewrite (proj2 (Nat.leb_le _ _)) by (rewrite Ea, Eb, Ec; rewrite !length_app; simpl; lia). cbn [assert_ res_bind].
  set (P := EncodeVarint32 shared ++ _) in *. pose proof (b2z_range a) as Ra. pose proof (b2z_range b) as Rb. pose proof (b2z_range c) as Rc.
  assert (Hfast : (Z.lor (Z.lor (at_ P 0) (at_ P 1)) (at_ P 2) <? 128) = (shared <? 128) && (non_shared <? 128) && (vlen <? 128)).
  { assert (Hat : ∀ i, in_u 8 (at_ P i)) by (intros i; unfold at_; destruct (P !! i); [apply b2z_range|lia]).
    rewrite !lor_small by (apply Hat || (apply lor_range; [lia|apply Hat..])).
    replace (at_ P 0) with (b2z a) by (unfold P; by rewrite Ea).
    destruct (Z.ltb_spec shared 128) as [Ls|Ls]; [|by rewrite (proj2 (Z.ltb_ge (b2z a) 128))]. destruct Pa as [Va ->].
    rewrite (proj2 (Z.ltb_lt _ _)) by lia. replace (at_ P 1) with (b2z b) by (unfold P; by rewrite Ea, Eb).
    destruct (Z.ltb_spec non_shared 128) as [Ln|Ln]; [|by rewrite (proj2 (Z.ltb_ge (b2z b) 128))]. destruct Pb as [Vb ->].
    rewrite (proj2 (Z.ltb_lt _ _)) by lia. replace (at_ P 2) with (b2z c) by (unfold P; by rewrite Ea, Eb, Ec).
    destruct (Z.ltb_spec vlen 128) as [Lv|Lv]; [|by rewrite (proj2 (Z.ltb_ge (b2z c) 128))]. destruct Pc as [Vc ->].
    by rewrite (proj2 (Z.ltb_lt _ _)) by lia. }
  rewrite Hfast. destruct ((shared <? 128) && (non_shared <? 128) && (vlen <? 128)) eqn:E.
  - apply andb_true_iff in E as [[E1 E2]%andb_true_iff E3]. rewrite E1 in Pa. rewrite E2 in Pb. rewrite E3 in Pc.
    destruct Pa as [Va ->], Pb as [Vb ->], Pc as [Vc ->]. unfold P. rewrite Ea, Eb, Ec. cbn [app]. unfold at_. cbn [lookup list_lookup drop].
    rewrite Va, Vb, Vc, drop_0. cbn [mbind option_bind]. by rewrite Hoff.
  - rewrite Ga. cbn [mbind option_bind]. rewrite Gb. cbn [mbind option_bind]. rewrite Gc. cbn [mbind option_bind]. by rewrite Hoff.
Qed.
Lemma DecodeKey_encoded shared non_shared vlen voff (off : bool) rest :
  in_u 32 shared → in_u 32 non_shared → in_u 32 vlen → (off = true → in_u 32 voff) →
  DecodeKey (varints ([shared; non_shared; vlen] ++ if off then [voff] else []) ++ rest) off =
    Ok (Some (shared, non_shared, if off then voff else 0, rest)).
Proof. intros. unfold DecodeKey. by rewrite DecodeEntry_encoded. Qed.

(** ** Footers *)
Lemma take_bit_spec (b : bool) v k : 0 ≤ k → Z.testbit v k = false →
  take_bit (if b then Z.lor v (Z.shiftl 1 k) else v) (Z.shiftl 1 k) = (b, v).
Proof.
  intros Hk Hv. rewrite Z.shiftl_1_l. unfold take_bit.
  assert (Hl : ∀ x, Z.land x (2 ^ k) = if Z.testbit x k then 2 ^ k else 0).
  { intros x. apply Z.bits_inj'. intros i Hi. rewrite Z.land_spec. rewrite Z.pow2_bits_eqb by lia.
    destruct (Z.eqb_spec k i) as [<-|Hne].
    - rewrite andb_true_r. destruct (Z.testbit x k); [by rewrite Z.pow2_bits_true|by rewrite Z.bits_0].
    - rewrite andb_false_r. destruct (Z.testbit x k); [by rewrite Z.pow2_bits_false|by rewrite Z.bits_0]. }
  rewrite Hl. assert (2 ^ k ≠ 0) by (apply Z.pow_nonzero; lia). destruct b.
  - rewrite Z.lor_spec, Z.pow2_bits_true, orb_true_r by lia. rewrite (proj2 (Z.eqb_neq _ _)) by done. cbn [negb]. f_equal.
    apply Z.bits_inj'. intros i Hi. rewrite Z.ldiff_spec, Z.lor_spec, Z.pow2_bits_eqb by lia.
    destruct (Z.eqb_spec k i) as [<-|Hne]; [by rewrite Hv|]. by rewrite orb_false_r, andb_true_r.
  - by rewrite Hv.
Qed.
Lemma last32_app d v : in_u 32 v → last32 (PutFixed32 d v) = (v, d).
Proof.
  intros Hv. unfold last32, PutFixed32, EncodeFixed32, DecodeFixed32.
  rewrite !length_app, length_le_split. replace (length d + 4 - 4)%nat with (length d) by lia.
  rewrite drop_app_length, take_app_length. f_equal. rewrite take_ge by (by rewrite length_le_split). apply le_roundtrip. simpl. lia.
Qed.
Definition footer_ok (f : DataBlockFooter) : Prop :=
  0 ≤ f_num_restarts f ≤ kMaxNumRestarts ∧ in_u 32 (values_section_offset f) ∧ (separated_kv f = false → values_section_offset f = 0).
Lemma footer_decode f dst : footer_ok f →
  ∃ out, Footer_EncodeTo f dst = Ok out ∧ Footer_DecodeFrom out = Some (f, dst) ∧
    length out = (length dst + 4 + if separated_kv f then 4 else 0)%nat ∧ ∃ t, out = dst ++ t.
Proof.
  intros (Hn & Hv & Hz). unfold Footer_EncodeTo. rewrite (proj2 (Z.leb_le _ _)) by lia. cbn [assert_ res_bind].
  destruct f as [hash sep voff n uni]. cbn [f_hash separated_kv values_section_offset f_num_restarts f_is_uniform] in *.
  unfold kMaxNumRestarts in Hn. change (Z.shiftl 1 28 - 1) with (2 ^ 28 - 1) in Hn.
  assert (Hb : ∀ k, 28 ≤ k → Z.testbit n k = false) by (intros k Hk; apply (small_testbit n k 28); lia).
  set (p0 := if hash then _ else n). set (p1 := if sep then Z.lor p0 _ else p0). set (p2 := if uni then Z.lor p1 _ else p1).
  assert (Hp : in_u 32 p2) by (unfold p2, p1, p0, kHashIndexBit, kSeparatedKVBit, kUniformKeysBit; destruct hash, sep, uni; repeat (apply lor_range; [lia| |]); (lia || by vm_compute)).
  eexists. split; [done|]. unfold Footer_DecodeFrom. set (d' := if sep then PutFixed32 dst voff else dst).
  assert (Hlen : length d' = (length dst + if sep then 4 else 0)%nat)
    by (unfold d', PutFixed32, EncodeFixed32; destruct sep; rewrite ?length_app, ?length_le_split; lia).
  assert (Hl2 : length (PutFixed32 d' p2) = (length d' + 4)%nat) by (unfold PutFixed32, EncodeFixed32; by rewrite length_app, length_le_split).
  split; [|split; [destruct sep; lia|unfold d', PutFixed32; destruct sep; rewrite <-?app_assoc; by eexists]].
  rewrite (proj2 (Nat.ltb_ge _ _)) by lia. rewrite last32_app by done. cbn zeta beta iota.
  (* the three flags come off in an order that need not be the one they were set in *)
  assert (E1 : take_bit p2 kHashIndexBit = (hash, if uni then Z.lor (if sep then Z.lor n kSeparatedKVBit else n) kUniformKeysBit else if sep then Z.lor n kSeparatedKVBit else n)).
  { unfold kHashIndexBit. rewrite <-(take_bit_spec hash _ 31); [|lia|].
    - f_equal. unfold p2, p1, p0. destruct hash, sep, uni; rewrite <-?Z.lor_assoc; f_equal; by rewrite ?(Z.lor_comm kHashIndexBit), ?Z.lor_assoc.
    - unfold kSeparatedKVBit, kUniformKeysBit. destruct sep, uni; rewrite ?Z.lor_spec, Hb by lia; done. }
  rewrite E1. assert (E2 : take_bit (if uni then Z.lor (if sep then Z.lor n kSeparatedKVBit else n) kUniformKeysBit else if sep then Z.lor n kSeparatedKVBit else n) kSeparatedKVBit
    = (sep, if uni then Z.lor n kUniformKeysBit else n)).
  { unfold kSeparatedKVBit at 3. rewrite <-(take_bit_spec sep _ 28); [|lia|].
    - f_equal. destruct sep, uni; rewrite <-?Z.lor_assoc; f_equal; by rewrite ?(Z.lor_comm kSeparatedKVBit).
    - unfold kUniformKeysBit. destruct uni; rewrite ?Z.lor_spec, Hb by lia; done. }
  rewrite E2. unfold kUniformKeysBit at 1 2. rewrite take_bit_spec by (lia || apply Hb; lia). rewrite (proj2 (Z.ltb_ge _ _)) by (unfold kMaxNumRestarts; change (Z.shiftl 1 28 - 1) with (2 ^ 28 - 1); lia).
  destruct sep; unfold d'; [|by rewrite Hz]. rewrite (proj2 (Nat.ltb_ge _ _)) by (unfold d' in Hlen; lia). by rewrite last32_app.
Qed.

(** ** Entries *)
(** How many restart points [n] entries have, and [counter_] after them. *)
Definition num_restarts_of (iv n : nat) : nat := Nat.max 1 ((n + iv - 1) / iv).
Definition counter_of (iv n : nat) : nat := if (n =? 0)%nat then 0 else if (n mod iv =? 0)%nat then iv else n mod iv.

Section counting.
Context (iv : nat) (Hiv : (0 < iv)%nat).
Local Open Scope nat_scope.
Lemma divmod_unique n q r : n = q * iv + r → r < iv → n / iv = q ∧ n mod iv = r.
Proof. intros Hn Hr. split; symmetry; [apply (Nat.div_unique n iv q r)|apply (Nat.mod_unique n iv q r)]; lia. Qed.
Lemma divmod n : n = n / iv * iv + n mod iv ∧ n mod iv < iv.
Proof. pose proof (Nat.div_mod n iv ltac:(lia)). pose proof (Nat.mod_upper_bound n iv ltac:(lia)). lia. Qed.
Lemma num_restarts_0 : num_restarts_of iv 0 = 1.
Proof. unfold num_restarts_of. destruct (divmod_unique (0 + iv - 1) 0 (iv - 1)) as [-> _]; lia. Qed.
Lemma num_restarts_pos n : 0 < n → num_restarts_of iv n = (n - 1) / iv + 1.
Proof.
  intros Hn. destruct (divmod (n - 1)) as [Hd Hm]. unfold num_restarts_of.
  destruct (divmod_unique (n + iv - 1) ((n - 1) / iv + 1) ((n - 1) mod iv)) as [-> _]; lia.
Qed.
Lemma step_divmod n : 0 < n →
  if n mod iv =? 0 then n / iv = (n - 1) / iv + 1 else n / iv = (n - 1) / iv ∧ n mod iv = (n - 1) mod iv + 1.
Proof.
  intros Hn. destruct (divmod (n - 1)) as [Hd Hm]. destruct (Nat.eq_dec ((n - 1) mod iv) (iv - 1)) as [E|E].
  - by destruct (divmod_unique n ((n - 1) / iv + 1) 0) as [-> ->]; [lia..|].
  - destruct (divmod_unique n ((n - 1) / iv) ((n - 1) mod iv + 1)) as [-> ->]; [lia..|].
    by rewrite (proj2 (Nat.eqb_neq _ _)) by lia.
Qed.
Lemma num_restarts_S n :
  num_restarts_of iv (S n) = if (0 <? n) && (n mod iv =? 0) then S (num_restarts_of iv n) else num_restarts_of iv n.
Proof.
  rewrite (num_restarts_pos (S n)) by lia. replace (S n - 1) with n by lia. destruct (Nat.ltb_spec 0 n) as [Hn|Hn].
  - rewrite (num_restarts_pos n) by lia. pose proof (step_divmod n Hn) as Hs. cbn [andb]. destruct (n mod iv =? 0); lia.
  - replace n with 0 by lia. rewrite num_restarts_0, Nat.Div0.div_0_l. done.
Qed.
Lemma counter_S n : counter_of iv (S n) = n mod iv + 1.
Proof.
  unfold counter_of. cbn [Nat.eqb]. destruct (divmod n) as [Hd Hm]. destruct (Nat.eq_dec (n mod iv) (iv - 1)) as [E|E].
  - destruct (divmod_unique (S n) (n / iv + 1) 0) as [_ ->]; [lia..|]. simpl. lia.
  - destruct (divmod_unique (S n) (n / iv) (n mod iv + 1)) as [_ ->]; [lia..|]. by rewrite (proj2 (Nat.eqb_neq _ _)) by lia.
Qed.
(** The builder restarts exactly at the multiples of the interval. *)
Lemma counter_full n : iv ≤ counter_of iv n ↔ 0 < n ∧ n mod iv = 0.
Proof.
  unfold counter_of. destruct (divmod n). destruct (Nat.eqb_spec n 0) as [->|]; [lia|]. destruct (Nat.eqb_spec (n mod iv) 0); lia.
Qed.
Lemma counter_low n : counter_of iv n < iv → counter_of iv n = n mod iv.
Proof.
  unfold counter_of. destruct (Nat.eqb_spec n 0) as [->|]; [by rewrite Nat.Div0.mod_0_l|]. destruct (n mod iv =? 0); lia.
Qed.
Lemma counter_bound n : counter_of iv n ≤ iv.
Proof. unfold counter_of. destruct (divmod n). destruct (_ =? _); [lia|]. destruct (_ =? _); lia. Qed.
(** Restart point [r] exists when entry [r * iv] does. *)
Lemma restart_in r n : 0 < n → r < num_restarts_of iv n ↔ r * iv < n.
Proof.
  intros Hn. rewrite num_restarts_pos by done. destruct (divmod (n - 1)). split; intros Hr; [nia|].
  assert (r ≤ (n - 1) / iv) by (apply Nat.div_le_lower_bound; lia). lia.
Qed.
End counting.

Section layout.
Context (sep : bool) (iv : nat).

(** Entry [i]; [v]: the bytes of values before it. *)
Definition hdr (i v : nat) (e : ent) : bytes :=
  varints ([Z.of_nat (e_shared e); Z.of_nat (length (e_key e) - e_shared e); slen (e_val e)] ++
           if sep && (i mod iv =? 0)%nat then [Z.of_nat v] else []).
Definition enc (i v : nat) (e : ent) : bytes := hdr i v e ++ drop (e_shared e) (e_key e) ++ if sep then [] else e_val e.
Fixpoint keys_part (i v : nat) (es : list ent) : bytes :=
  match es with [] => [] | e :: es => enc i v e ++ keys_part (S i) (v + length (e_val e)) es end.
Definition vals (es : list ent) : bytes := concat (map e_val es).
Definition off (es : list ent) (j : nat) : nat := length (keys_part 0 0 (take j es)).
Definition voff (es : list ent) (j : nat) : nat := length (vals (take j es)).
Definition restart_list (es : list ent) : list Z :=
  map (λ r, Z.of_nat (off es (r * iv)))%nat (seq 0 (num_restarts_of iv (length es))).

Lemma keys_part_app i v es es' :
  keys_part i v (es ++ es') = keys_part i v es ++ keys_part (i + length es) (v + length (vals es)) es'.
Proof.
  revert i v. induction es as [|e es IH]; intros i v; simpl; [by rewrite !Nat.add_0_r|]. rewrite IH, <-app_assoc. do 3 f_equal; [lia|].
  unfold vals. simpl. rewrite length_app. lia.
Qed.
Lemma vals_app es es' : vals (es ++ es') = vals es ++ vals es'.
Proof. unfold vals. by rewrite map_app, concat_app. Qed.
Lemma keys_part_entry es j e : es !! j = Some e →
  keys_part 0 0 es = keys_part 0 0 (take j es) ++ enc j (voff es j) e ++ keys_part (S j) (voff es j + length (e_val e)) (drop (S j) es).
Proof.
  intros Hj. pose proof (lookup_lt_Some _ _ _ Hj). rewrite <-(take_drop_middle es j e Hj) at 1. rewrite keys_part_app. simpl.
  rewrite length_take, Nat.min_l by lia. done.
Qed.
Lemma off_S es j e : es !! j = Some e → off es (S j) = (off es j + length (enc j (voff es j) e))%nat.
Proof.
  intros Hj. pose proof (lookup_lt_Some _ _ _ Hj). unfold off. rewrite (take_S_r es j e Hj), keys_part_app, length_app. simpl.
  by rewrite app_nil_r, length_take, Nat.min_l by lia.
Qed.
Lemma voff_S es j e : es !! j = Some e → voff es (S j) = (voff es j + length (e_val e))%nat.
Proof. intros Hj. unfold voff. rewrite (take_S_r es j e Hj), vals_app, length_app. unfold vals at 2. simpl. by rewrite app_nil_r. Qed.
Lemma off_all es : off es (length es) = length (keys_part 0 0 es).
Proof. unfold off. by rewrite firstn_all. Qed.
Lemma off_mono es j k : (j ≤ k)%nat → (off es j ≤ off es k)%nat.
Proof.
  intros Hjk. unfold off. replace (take k es) with (take j es ++ take (k - j) (drop j es)).
  - rewrite keys_part_app, length_app. lia.
  - rewrite <-(take_drop j (take k es)). rewrite take_take, Nat.min_l, skipn_firstn_comm by lia. done.
Qed.
Lemma vals_entry es j e : es !! j = Some e → vals es = vals (take j es) ++ e_val e ++ vals (drop (S j) es).
Proof. intros Hj. rewrite <-(take_drop_middle es j e Hj) at 1. rewrite vals_app. unfold vals at 2. simpl. done. Qed.
Lemma voff_bound es j : (voff es j ≤ length (vals es))%nat.
Proof. unfold voff. rewrite <-(take_drop j es) at 2. rewrite vals_app, length_app. lia. Qed.
Lemma off_snoc es e j : (j ≤ length es)%nat → off (es ++ [e]) j = off es j.
Proof. intros Hj. unfold off. by rewrite take_app_le. Qed.

(** What an entry shares it shares with the entry before; nothing at a restart point. *)
Definition wf (es : list ent) : Prop := ∀ j e, es !! j = Some e →
  (e_shared e ≤ length (e_key e))%nat ∧ slen (e_key e) < 2 ^ 32 ∧ slen (e_val e) < 2 ^ 32 ∧ (j mod iv = 0 → e_shared e = 0)%nat ∧
  (e_shared e ≠ 0%nat → ∃ p, es !! (j - 1)%nat = Some p ∧ (0 < j)%nat ∧ (e_shared e ≤ length (e_key p))%nat ∧
     take (e_shared e) (e_key p) = take (e_shared e) (e_key e)).
Lemma EncodeVarint32_min v : (1 ≤ length (EncodeVarint32 v))%nat.
Proof. unfold EncodeVarint32. repeat destruct (_ <? _); simpl; lia. Qed.
Lemma hdr_min i v e : (3 ≤ length (hdr i v e))%nat.
Proof.
  unfold hdr, varints. cbn [app map concat]. rewrite !length_app. pose proof (EncodeVarint32_min (Z.of_nat (e_shared e))).
  pose proof (EncodeVarint32_min (Z.of_nat (length (e_key e) - e_shared e))). pose proof (EncodeVarint32_min (slen (e_val e))). lia.
Qed.
Lemma entry_grows es j e : es !! j = Some e → (off es j + 3 ≤ off es (S j))%nat.
Proof. intros Hj. rewrite (off_S es j e Hj). unfold enc. rewrite length_app. pose proof (hdr_min j (voff es j) e). lia. Qed.
End layout.

(** ** The builder *)
Section builder.
Context (GetSliceHash : bytes → Z) (o : Options).
Abbreviation sep := (use_separated_kv_storage_ o).
Abbreviation iv := (Z.to_nat (block_restart_interval_ o)).
Context (Hiv : 1 ≤ block_restart_interval_ o) (Hvd : use_value_delta_encoding_ o = false).

(** What the code takes for the last stored key. *)
Definition persisted (k : bytes) : res bytes := if (length k =? 0)%nat then Ok k else MaybeStripTimestampFromKey o k.
(** What the hash index has been told: the user key of every entry and its restart interval. *)
Definition user_part (k : bytes) : bytes := take (length k - 8) k.
Definition hash_pairs (es : list ent) : list (Z * Z) := imap (λ j e, (GetSliceHash (user_part (e_key e)), Z.of_nat (j / iv))) es.
Record hash_live (es : list ent) (h : HashBuilder) : Prop := {
  hl_user : bb_is_user_key_ o = false;
  hl_strip : strip_ts_sz_ o = 0%nat;
  hl_valid : Hash_Valid h = true;
  hl_pairs : hash_and_restart_pairs_ h = hash_pairs es;
  hl_range : Forall (λ p, 0 ≤ p.2 ≤ kMaxRestartSupportedByHashIndex) (hash_pairs es) }.
Definition hash_state (es : list ent) (h : HashBuilder) : Prop := Hash_Valid h = false ∨ hash_live es h.
Record built (es : list ent) (b : BlockBuilder) : Prop := {
  bt_opts : opts b = o;
  bt_buffer : buffer_ b = keys_part sep iv 0 0 es;
  bt_values : values_buffer_ b = if sep then vals es else [];
  bt_restarts : restarts_ b = restart_list sep iv es;
  bt_counter : counter_ b = Z.of_nat (counter_of iv (length es));
  bt_estimate : estimate_ b = base_estimate o + 4 * (Z.of_nat (length (restarts_ b)) - 1) + slen (buffer_ b) + slen (values_buffer_ b);
  bt_open : finished_ b = false;
  bt_hash : hash_state es (data_block_hash_index_builder_ b) }.
Definition last_stored (es : list ent) : bytes := match last es with Some e => e_key e | None => [] end.
(** The bytes of the block before the restart array. *)
Definition body (es : list ent) : bytes := keys_part sep iv 0 0 es ++ if sep then vals es else [].

Lemma restart_list_snoc es e :
  restart_list sep iv (es ++ [e]) =
    restart_list sep iv es ++ if (0 <? length es)%nat && (length es mod iv =? 0)%nat then [Z.of_nat (off sep iv es (length es))] else [].
Proof.
  assert (Hi : (0 < iv)%nat) by lia. unfold restart_list. rewrite length_app, Nat.add_1_r, (num_restarts_S iv Hi).
  assert (Hold : ∀ l, (∀ r, r ∈ l → (r * iv ≤ length es)%nat) → map (λ r, Z.of_nat (off sep iv (es ++ [e]) (r * iv))) l = map (λ r, Z.of_nat (off sep iv es (r * iv))) l).
  { intros l Hl. apply map_ext_in. intros r Hr%list_elem_of_In. by rewrite off_snoc by auto. }
  assert (Hseq : ∀ r, r ∈ seq 0 (num_restarts_of iv (length es)) → (r * iv ≤ length es)%nat).
  { intros r Hr%elem_of_seq. destruct (length es) as [|m]; [rewrite num_restarts_0 in Hr by lia; lia|].
    pose proof (restart_in iv Hi r (S m) ltac:(lia)). lia. }
  destruct ((0 <? length es)%nat && (length es mod iv =? 0)%nat) eqn:E; [|by rewrite app_nil_r, Hold].
  apply andb_true_iff in E as [E1%Nat.ltb_lt E2%Nat.eqb_eq]. rewrite seq_S, !map_app, Hold by done. f_equal. cbn [map plus]. do 2 f_equal.
  destruct (divmod iv Hi (length es)) as [Hd _]. rewrite E2 in Hd.
  assert (Hlast : (num_restarts_of iv (length es) * iv = length es)%nat).
  { rewrite num_restarts_pos by done. pose proof (step_divmod iv Hi _ E1) as Hs. rewrite E2 in Hs. cbn in Hs. rewrite <-Hs. lia. }
  rewrite Hlast. by apply off_snoc.
Qed.

Lemma strip_length k pk : MaybeStripTimestampFromKey o k = Ok pk → (length pk ≤ length k)%nat.
Proof.
  unfold MaybeStripTimestampFromKey, remove_suffix, StripTimestampFromInternalKey. set (t := take _ k).
  assert (length t ≤ length k)%nat by (unfold t; rewrite length_take; lia).
  destruct (0 <? strip_ts_sz_ o)%nat; [destruct (bb_is_user_key_ o)|by intros [= <-]]; intros (? & Ha & [= <-])%res_bind_ok.
  - rewrite length_take. lia.
  - apply assert_ok, Nat.leb_le in Ha. cbn [app]. rewrite length_app, length_take, length_drop. unfold kNumInternalBytes in *. lia.
Qed.

(** The bytes shared with the last key. *)
Lemma shared_prefix pk lk : let p := difference_offset pk lk in
  (p ≤ length pk)%nat ∧ (p ≤ length lk)%nat ∧ take p lk = take p pk.
Proof.
  destruct (difference_offset_spec pk lk) as (c & a & b & -> & -> & -> & _). cbn zeta. rewrite !length_app, !take_app_length. split_and!; [lia..|done].
Qed.

Lemma entries_bound i v es : (length es ≤ length (keys_part sep iv i v es))%nat.
Proof.
  revert i v. induction es as [|e es IH]; intros i v; simpl; [lia|]. rewrite length_app. specialize (IH (S i) (v + length (e_val e))%nat).
  unfold enc. rewrite length_app. pose proof (hdr_min sep iv i v e). lia.
Qed.
Lemma restarts_bound es : (length (restart_list sep iv es) ≤ S (length (keys_part sep iv 0 0 es)))%nat.
Proof.
  unfold restart_list. rewrite length_map, length_seq. pose proof (entries_bound 0 0 es). assert (Hi : (0 < iv)%nat) by lia.
  destruct es as [|e es']; [rewrite num_restarts_0 by done; lia|]. set (es := e :: es') in *. rewrite num_restarts_pos by (simpl; lia || done).
  assert ((length es - 1) / iv ≤ length es - 1)%nat by (apply Nat.Div0.div_le_upper_bound; nia). lia.
Qed.

Lemma wf_snoc es sh pk value :
  wf iv es → (sh ≤ length pk)%nat → slen pk < 2 ^ 32 → slen value < 2 ^ 32 → (length es mod iv = 0 → sh = 0)%nat →
  (sh ≠ 0%nat → (sh ≤ length (last_stored es))%nat ∧ take sh (last_stored es) = take sh pk) → wf iv (es ++ [mkEnt sh pk value]).
Proof.
  intros Hwf H1 H2 H3 H4 H5 j e Hj. apply lookup_app_Some in Hj as [Hj|[Hge Hj]].
  - destruct (Hwf j e Hj) as (A & B & C & D & E). split_and!; try done. intros Hs. destruct (E Hs) as (p & Hp & ?). exists p. split; [|done].
    rewrite lookup_app_l; [done|]. by eapply lookup_lt_Some.
  - apply list_lookup_singleton_Some in Hj as [Hj <-]. cbn [e_shared e_key e_val]. assert (j = length es) as -> by lia. split_and!; try done.
    intros Hs. destruct (H5 Hs) as [Hl Ht]. unfold last_stored in *. rewrite last_lookup in Hl, Ht. destruct es as [|x es']; [simpl in Hl; lia|].
    set (es := x :: es') in *. destruct (es !! pred (length es)) as [q|] eqn:Eq; [|simpl in Hl; lia]. exists q.
    replace (length es - 1)%nat with (pred (length es)) by lia. split; [|split; [simpl; lia|done]]. rewrite lookup_app_l; [done|]. by eapply lookup_lt_Some.
Qed.

(** How much the new entry shares. *)
Definition share (es : list ent) (skip : bool) (pk lp : bytes) : nat :=
  if (iv <=? counter_of iv (length es))%nat then 0 else if use_delta_encoding_ o && negb skip then difference_offset pk lp else 0.
Lemma share_le es skip pk lp : (share es skip pk lp ≤ length pk)%nat.
Proof. unfold share. destruct (shared_prefix pk lp) as (P & _). destruct (_ <=? _)%nat; [lia|]. destruct (use_delta_encoding_ o && negb skip); lia. Qed.
Lemma share_wf es skip pk lp value :
  wf iv es → slen pk < 2 ^ 32 → slen value < 2 ^ 32 → (use_delta_encoding_ o = true → lp = last_stored es) →
  wf iv (es ++ [mkEnt (share es skip pk lp) pk value]).
Proof.
  intros Hwf Hk Hv Hlp. assert (Hi : (0 < iv)%nat) by lia. destruct (shared_prefix pk lp) as (P1 & P2 & P3).
  apply wf_snoc; try done; [apply share_le|..].
  - intros Hm. unfold share. destruct (Nat.leb_spec iv (counter_of iv (length es))) as [|Hlt]; [done|].
    destruct es as [|e es']; [|exfalso; pose proof (counter_full iv Hi (length (e :: es'))); simpl in *; lia].
    destruct (use_delta_encoding_ o) eqn:Eu; [|done]. cbn [andb]. destruct skip; [done|]. cbn [negb]. rewrite (Hlp eq_refl) in *. simpl in P2. lia.
  - unfold share. destruct (_ <=? _)%nat; [done|]. destruct (use_delta_encoding_ o) eqn:Eu; [|done]. destruct skip; [done|]. cbn [andb negb].
    intros _. by rewrite <-(Hlp eq_refl).
Qed.

(** The restart decision for entry [n]. *)
Definition new_restart (n : nat) : bool := (0 <? n)%nat && (n mod iv =? 0)%nat.
Lemma restart_decision es b : built es b → let n := length es in
  (counter_ b <=? block_restart_interval_ o) = true ∧ (block_restart_interval_ o <=? counter_ b) = new_restart n ∧ (iv <=? counter_of iv n)%nat = new_restart n ∧
  (new_restart n = false → counter_of iv n = n mod iv)%nat.
Proof.
  intros Hb n. assert (Hi : (0 < iv)%nat) by lia. pose proof (counter_full iv Hi n) as Hf. pose proof (counter_low iv Hi n) as Hlow. pose proof (counter_bound iv Hi n).
  rewrite (bt_counter _ _ Hb). fold n. rewrite (proj2 (Z.leb_le (Z.of_nat _) _)) by lia. unfold new_restart.
  destruct (Nat.leb_spec iv (counter_of iv n)), (Z.leb_spec (block_restart_interval_ o) (Z.of_nat (counter_of iv n))); try lia;
    destruct (Nat.ltb_spec 0 n), (Nat.eqb_spec (n mod iv) 0); split_and!; (done || lia).
Qed.
Lemma restart_tuple es b (skip : bool) pk lp value : built es b → Z.of_nat (length pk) < 2 ^ 32 →
  Z.of_nat (length (keys_part sep iv 0 0 es)) + Z.of_nat (length (if sep then vals es else [])) < 2 ^ 32 →
  let n := length es in let sh := share es skip pk lp in
  (if block_restart_interval_ o <=? counter_ b then (restarts_ b ++ [u32 (slen (buffer_ b))], u64 (estimate_ b + 4), 0, 0)
   else if use_delta_encoding_ o && negb skip then (restarts_ b, estimate_ b, counter_ b, u32 (Z.of_nat (difference_offset pk lp)))
   else (restarts_ b, estimate_ b, counter_ b, 0)) =
  (restart_list sep iv (es ++ [mkEnt sh pk value]), estimate_ b + (if new_restart n then 4 else 0), Z.of_nat (n mod iv), Z.of_nat sh).
Proof.
  intros Hb Hpk Hsize n sh. destruct (restart_decision es b Hb) as (_ & HR1 & HR2 & HR3). fold n in HR1, HR2, HR3. pose proof (restarts_bound es) as Hrb.
  rewrite HR1, restart_list_snoc, (bt_estimate _ _ Hb), (bt_restarts _ _ Hb), (bt_values _ _ Hb). unfold sh, share. fold n. fold (new_restart n).
  rewrite HR2, off_all, (bt_buffer _ _ Hb), (bt_counter _ _ Hb). fold n. unfold slen, base_estimate. destruct (new_restart n) eqn:ER.
  - rewrite u32_id, u64_id by (destruct sep; lia). unfold new_restart in ER. by apply andb_true_iff in ER as [_ ->%Nat.eqb_eq].
  - rewrite app_nil_r, Z.add_0_r, <-HR3 by done. destruct (use_delta_encoding_ o && negb skip); [|done]. destruct (shared_prefix pk lp) as (P & _). by rewrite u32_id by lia.
Qed.
Lemma keys_snoc es e : keys_part sep iv 0 0 (es ++ [e]) = keys_part sep iv 0 0 es ++ enc sep iv (length es) (length (vals es)) e.
Proof. rewrite keys_part_app. cbn [keys_part]. by rewrite app_nil_r. Qed.
Lemma vals_snoc es e : vals (es ++ [e]) = vals es ++ e_val e.
Proof. rewrite vals_app. unfold vals at 2. simpl. by rewrite app_nil_r. Qed.
(** The buffers after the entry. *)
Lemma buffers_tuple es b sh pk value : built es b → (sh ≤ length pk)%nat → Z.of_nat (length pk) < 2 ^ 32 → Z.of_nat (length value) < 2 ^ 32 →
  (sep = true → Z.of_nat (length (vals es)) < 2 ^ 32) → let n := length es in let es' := es ++ [mkEnt sh pk value] in
  let B := PutVarint32 (buffer_ b) ([Z.of_nat sh; Z.of_nat (length pk - sh); Z.of_nat (length value)] ++
                                    if sep && (Z.of_nat (n mod iv) =? 0) then [u32 (slen (values_buffer_ b))] else []) ++ drop sh pk in
  (if sep then (B, values_buffer_ b ++ value) else (B ++ value, values_buffer_ b)) = (keys_part sep iv 0 0 es', if sep then vals es' else []).
Proof.
  intros Hb Hsh Hpk Hv Hvs n es' B. assert (HB : B ++ (if sep then [] else value) = keys_part sep iv 0 0 es').
  { unfold B, es'. rewrite keys_snoc, PutVarint32_varints, (bt_buffer _ _ Hb), <-!app_assoc.
    - unfold enc, hdr, slen. cbn [e_shared e_key e_val]. do 2 f_equal. f_equal. f_equal. rewrite (bt_values _ _ Hb). fold n. destruct sep eqn:Es; [|done]. cbn [andb].
      rewrite u32_id by (specialize (Hvs eq_refl); lia). destruct (Z.eqb_spec (Z.of_nat (n mod iv)) 0), (Nat.eqb_spec (n mod iv) 0); (done || lia).
    - cbn [app]. repeat (constructor; [lia|]). destruct (sep && (Z.of_nat (n mod iv) =? 0)); [apply Forall_singleton, u32_range|constructor]. }
  rewrite <-HB, (bt_values _ _ Hb). unfold es'. rewrite vals_snoc. destruct sep; by rewrite ?app_nil_r.
Qed.
(** The hash index is told about the entry, or given up. *)
Lemma hash_step es h key pk value sh : hash_state es h → MaybeStripTimestampFromKey o key = Ok pk → slen key < 2 ^ 32 → (bb_is_user_key_ o = false → 8 ≤ length key)%nat →
  ∃ h', (if Hash_Valid h then
           let* _ := assert_ (negb (bb_is_user_key_ o)) in
           let* u := ExtractUserKey key in
           Hash_Add GetSliceHash h u (Z.of_nat (length (restart_list sep iv (es ++ [mkEnt sh pk value]))) - 1)
         else Ok h) = Ok h' ∧ hash_state (es ++ [mkEnt sh pk value]) h'.
Proof.
  intros Hh Hpk Hlen H8. destruct Hh as [Hh|[Hu Hst Hv Hp Hr]]; [rewrite Hh; exists h; split; [done|by left]|]. assert (Hi : (0 < iv)%nat) by lia.
  unfold MaybeStripTimestampFromKey in Hpk. rewrite Hst, u32_id in Hpk by (unfold slen in *; lia). unfold slen in Hpk. rewrite Nat2Z.id, firstn_all in Hpk. injection Hpk as <-.
  rewrite Hv, Hu. cbn [negb assert_ res_bind]. unfold ExtractUserKey, kNumInternalBytes. rewrite (proj2 (Nat.leb_le _ _) (H8 Hu)). cbn [assert_ res_bind].
  assert (Hl : Z.of_nat (length (restart_list sep iv (es ++ [mkEnt sh key value]))) - 1 = Z.of_nat (length es / iv)).
  { unfold restart_list. rewrite length_map, length_seq, length_app. cbn [length]. rewrite num_restarts_pos by lia. rewrite Nat.add_sub. lia. }
  rewrite Hl. unfold Hash_Add. rewrite Hv. cbn [assert_ res_bind]. destruct (Z.ltb_spec kMaxRestartSupportedByHashIndex (Z.of_nat (length es / iv))) as [Hbig|Hok].
  - eexists. split; [done|]. left. done.
  - assert (Hsnoc : hash_pairs (es ++ [mkEnt sh key value]) = hash_pairs es ++ [(GetSliceHash (user_part key), Z.of_nat (length es / iv))]).
    { unfold hash_pairs. rewrite imap_app. cbn [imap]. by rewrite Nat.add_0_r. }
    eexists. split; [done|]. right. unfold kMaxRestartSupportedByHashIndex in Hok.
    split; cbn [Hash_Valid hash_and_restart_pairs_ hi_valid_ bucket_per_key_]; try done; [|rewrite Hsnoc; apply Forall_app; split; [done|apply Forall_singleton; cbn; unfold kMaxRestartSupportedByHashIndex; lia]].
    rewrite Hsnoc, Hp. unfold user_part, u8. by rewrite Z.mod_small by lia.
Qed.

Lemma add_impl es b key value lk dv skip pk lp :
  built es b → below4G key = true → below4G value = true → below4G lk = true → match dv with None => true | Some d => below4G d end = true →
  MaybeStripTimestampFromKey o key = Ok pk → persisted lk = Ok lp → (bb_is_user_key_ o = false → 8 ≤ length key)%nat →
  let es' := es ++ [mkEnt (share es skip pk lp) pk value] in
  slen (body es') < 2 ^ 32 →
  ∃ b', AddWithLastKeyImpl GetSliceHash b key value lk dv skip (slen (buffer_ b)) = Ok b' ∧ built es' b' ∧
    last_key_ b' = last_key_ b ∧ add_with_last_key_called_ b' = add_with_last_key_called_ b.
Proof.
  intros Hb Hk Hv Hl Hd Hpk Hlp H8 es' Hsize. assert (Hi : (0 < iv)%nat) by lia. pose proof (strip_length key pk Hpk) as Hpl. set (n := length es).
  assert (Hk' : slen key < 2 ^ 32) by (unfold below4G in Hk; by apply Z.ltb_lt in Hk). assert (Hv' : slen value < 2 ^ 32) by (unfold below4G in Hv; by apply Z.ltb_lt in Hv).
  set (sh := share es skip pk lp) in *. assert (Hsh : (sh ≤ length pk)%nat) by apply share_le.
  assert (Hsz : Z.of_nat (length (keys_part sep iv 0 0 es)) + Z.of_nat (length (enc sep iv n (length (vals es)) (mkEnt sh pk value))) +
                Z.of_nat (length (if sep then vals es else [])) + (if sep then slen value else 0) < 2 ^ 32).
  { revert Hsize. unfold body, es', slen. rewrite keys_snoc, vals_snoc. cbn [e_val]. fold n. destruct sep; rewrite !length_app; simpl; lia. }
  assert (Hvs : sep = true → Z.of_nat (length (vals es)) < 2 ^ 32) by (intros E; rewrite E in Hsz; unfold slen in Hsz; lia).
  destruct (restart_decision es b Hb) as (Hc & _). pose proof (hash_step es _ key pk value sh (bt_hash _ _ Hb) Hpk Hk' H8) as (h' & Hh & Hhs).
  unfold AddWithLastKeyImpl. rewrite (bt_opts _ _ Hb), (bt_open _ _ Hb), Hk, Hv, Hl, Hd, Hc. cbn [negb assert_ res_bind]. rewrite Hpk. cbn [res_bind]. fold (persisted lk).
  rewrite Hlp. cbn [res_bind]. rewrite (restart_tuple es b skip pk lp value) by (done || unfold slen in *; destruct sep; lia). fold n sh. fold es' in Hh |- *.
  rewrite Hvd. cbn zeta beta iota. rewrite andb_false_r. cbn [res_bind]. unfold slen in Hk', Hv'.
  change (slen pk) with (Z.of_nat (length pk)). change (slen value) with (Z.of_nat (length value)).
  rewrite (u32_id (Z.of_nat (length pk))), (u32_id (Z.of_nat (length pk) - Z.of_nat sh)), (u32_id (Z.of_nat (length value))) by lia.
  replace (Z.of_nat (length pk) - Z.of_nat sh) with (Z.of_nat (length pk - sh)) by lia. rewrite !Nat2Z.id, (take_ge (drop sh pk)), (take_ge value) by (rewrite ?length_drop; lia).
  pose proof (buffers_tuple es b sh pk value Hb Hsh ltac:(lia) Hv' Hvs) as Hbt. cbv zeta in Hbt. fold n es' in Hbt. rewrite Hbt. rewrite Hh. cbn [res_bind]. eexists. split; [reflexivity|]. split; [|done].
  assert (Hcnt : counter_of iv (length es') = S (n mod iv)) by (unfold es'; rewrite length_app; cbn [length]; rewrite Nat.add_1_r, (counter_S iv Hi); fold n; lia).
  assert (Hlr : Z.of_nat (length (restart_list sep iv es')) = Z.of_nat (length (restart_list sep iv es)) + if new_restart n then 1 else 0).
  { unfold es'. rewrite restart_list_snoc, length_app. fold n. fold (new_restart n). destruct (new_restart n); simpl; lia. }
  pose proof (restarts_bound es). constructor; cbn [opts buffer_ values_buffer_ restarts_ counter_ estimate_ finished_ data_block_hash_index_builder_]; try done; [rewrite Hcnt; lia|].
  rewrite (bt_estimate _ _ Hb), (bt_restarts _ _ Hb), Hlr, (bt_values _ _ Hb), (bt_buffer _ _ Hb). unfold es', base_estimate. rewrite keys_snoc, vals_snoc. cbn [e_val]. fold n.
  unfold slen in *. rewrite length_app. destruct sep; rewrite ?length_app in *; simpl in *; rewrite u64_id; destruct (new_restart n); lia.
Qed.

(** *** [Add] and [AddWithLastKey] *)
Definition ready (es : list ent) (b : BlockBuilder) : Prop :=
  built es b ∧ add_with_last_key_called_ b = false ∧ below4G (last_key_ b) = true ∧
  if use_delta_encoding_ o then persisted (last_key_ b) = Ok (last_stored es) else last_key_ b = [].
Lemma last_stored_snoc es e : last_stored (es ++ [e]) = e_key e.
Proof. unfold last_stored. by rewrite last_snoc. Qed.
(** A key that can be stored, as stored. *)
Lemma strip_persisted key pk : MaybeStripTimestampFromKey o key = Ok pk → persisted key = Ok pk.
Proof.
  intros Hk. unfold persisted. destruct (Nat.eqb_spec (length key) 0) as [E%nil_length_inv|]; [|done]. subst key.
  pose proof (strip_length _ _ Hk) as Hl. simpl in Hl. by rewrite (nil_length_inv pk) by lia.
Qed.
Lemma add_entry es b key value dv skip pk :
  ready es b → wf iv es → below4G key = true → below4G value = true → match dv with None => true | Some d => below4G d end = true →
  MaybeStripTimestampFromKey o key = Ok pk → (∀ sh, slen (body (es ++ [mkEnt sh pk value])) < 2 ^ 32) →
  (bb_is_user_key_ o = false → 8 ≤ length key)%nat →
  ∃ b' sh, bb_Add GetSliceHash b key value dv skip = Ok b' ∧ ready (es ++ [mkEnt sh pk value]) b' ∧ wf iv (es ++ [mkEnt sh pk value]).
Proof.
  intros (Hb & Hf & Hl & Hlast) Hwf Hk Hv Hd Hpk Hsize H8. set (lp := if use_delta_encoding_ o then last_stored es else []).
  assert (Hlp : persisted (last_key_ b) = Ok lp) by (unfold lp; destruct (use_delta_encoding_ o); [done|by rewrite Hlast]).
  destruct (add_impl es b key value (last_key_ b) dv skip pk lp Hb Hk Hv Hl Hd Hpk Hlp H8 (Hsize _)) as (b1 & Hadd & Hb1 & Hl1 & Hf1).
  unfold bb_Add. rewrite Hf. cbn [negb assert_ res_bind]. rewrite Hadd. cbn [res_bind]. rewrite (bt_opts _ _ Hb1).
  eexists _, (share es skip pk lp). split; [done|]. split.
  - unfold ready. rewrite last_stored_snoc. cbn [e_key]. destruct (use_delta_encoding_ o); [|rewrite Hl1, Hf1; auto].
    cbn [set_last_key last_key_ add_with_last_key_called_]. rewrite Hf1, Hf. split_and!; try done; [|by apply strip_persisted].
    destruct Hb1. by constructor.
  - pose proof (strip_length _ _ Hpk). unfold below4G, slen in Hk, Hv. apply Z.ltb_lt in Hk, Hv. change (Z.shiftl 1 32) with (2 ^ 32) in *.
    apply share_wf; try done; [unfold slen; lia..|]. intros E. unfold lp. by rewrite E.
Qed.
(** The caller passes the key it added before. *)
Lemma add_with_last_entry es b key value last_key dv skip pk :
  built es b → last_key_ b = [] → wf iv es → below4G key = true → below4G value = true → below4G last_key = true →
  match dv with None => true | Some d => below4G d end = true →
  MaybeStripTimestampFromKey o key = Ok pk → (es ≠ [] → MaybeStripTimestampFromKey o last_key = Ok (last_stored es)) →
  (es ≠ [] → u64 (slen last_key - Z.of_nat (strip_ts_sz_ o)) ≤ slen (buffer_ b)) →
  (∀ sh, slen (body (es ++ [mkEnt sh pk value])) < 2 ^ 32) →
  (bb_is_user_key_ o = false → 8 ≤ length key)%nat →
  ∃ b' sh, AddWithLastKey GetSliceHash b key value last_key dv skip = Ok b' ∧ built (es ++ [mkEnt sh pk value]) b' ∧
    last_key_ b' = [] ∧ wf iv (es ++ [mkEnt sh pk value]).
Proof.
  intros Hb Hnil Hwf Hk Hv Hl Hd Hpk Hlast Hbig Hsize H8. unfold AddWithLastKey. rewrite Hnil. cbn [length Nat.eqb assert_ res_bind].
  cbn [opts buffer_]. set (b0 := mkBuilder _ _ _ _ _ _ _ _ _ _ false). assert (Hb0 : built es b0) by (destruct Hb; by constructor).
  pose proof (entries_bound 0 0 es) as Hn. rewrite <-(bt_buffer _ _ Hb) in Hn.
  assert (Hz : (0 <? slen (buffer_ b)) = negb (length es =? 0)%nat).
  { unfold slen. destruct (Nat.eqb_spec (length es) 0) as [E%nil_length_inv|]; [|apply Z.ltb_lt; lia]. subst es. by rewrite (bt_buffer _ _ Hb). }
  assert (Has : (slen (buffer_ b) =? 0) || (u64 (slen last_key - Z.of_nat (strip_ts_sz_ (opts b))) <=? slen (buffer_ b)) = true).
  { rewrite (bt_opts _ _ Hb). apply orb_true_iff. destruct es as [|e es']; [left; by rewrite (bt_buffer _ _ Hb)|right]. apply Z.leb_le. by apply Hbig. }
  rewrite Has, Hz. cbn [assert_ res_bind]. set (lk := if negb _ then last_key else []).
  assert (Hlk : persisted lk = Ok (last_stored es) ∧ below4G lk = true).
  { unfold lk. destruct (Nat.eqb_spec (length es) 0) as [E%nil_length_inv|E]; [by subst es|]. split; [|done]. apply strip_persisted, Hlast. by intros ->. }
  destruct Hlk as [Hlp Hl4]. change (buffer_ b) with (buffer_ b0).
  destruct (add_impl es b0 key value lk dv skip pk _ Hb0 Hk Hv Hl4 Hd Hpk Hlp H8 (Hsize _)) as (b1 & Hadd & Hb1 & Hl1 & _).
  eexists _, _. split; [exact Hadd|]. split; [done|]. split; [by rewrite Hl1|].
  pose proof (strip_length _ _ Hpk). unfold below4G, slen in Hk, Hv. apply Z.ltb_lt in Hk, Hv. change (Z.shiftl 1 32) with (2 ^ 32) in *.
  apply share_wf; try done; unfold slen; lia.
Qed.

(** *** The sizes *)
Lemma EncodeVarint32_max v : (length (EncodeVarint32 v) ≤ 5)%nat.
Proof. unfold EncodeVarint32. repeat destruct (_ <? _); simpl; lia. Qed.
Definition room (k v : bytes) : nat := 20 + length k + length v.
Lemma body_room es : (length (body es) ≤ sum_list_with (λ e, room (e_key e) (e_val e)) es)%nat.
Proof.
  unfold body. assert (Hk : ∀ i v, (length (keys_part sep iv i v es) + length (if sep then vals es else []) ≤ sum_list_with (λ e, room (e_key e) (e_val e)) es)%nat).
  { induction es as [|e es IH]; intros i v; [by destruct sep|]. specialize (IH (S i) (v + length (e_val e))%nat). cbn [keys_part sum_list_with].
    unfold room at 1, enc, hdr, varints. cbn [app map concat]. rewrite !length_app, length_drop.
    pose proof (EncodeVarint32_max (Z.of_nat (e_shared e))). pose proof (EncodeVarint32_max (Z.of_nat (length (e_key e) - e_shared e))).
    pose proof (EncodeVarint32_max (slen (e_val e))). pose proof (EncodeVarint32_max (Z.of_nat v)).
    assert (length (concat (map EncodeVarint32 (if sep && (i mod iv =? 0)%nat then [Z.of_nat v] else []))) ≤ 5)%nat
      by (destruct (sep && (i mod iv =? 0)%nat); simpl; rewrite ?app_nil_r; lia).
    unfold vals in *. cbn [map concat]. destruct sep; rewrite ?length_app in *; simpl in *; lia. }
  rewrite length_app. apply Hk.
Qed.

(** *** A whole block *)
(** [hash]: the util ratio, when there is a hash index. *)
Lemma new_ready hash : (hash ≠ None → bb_is_user_key_ o = false ∧ strip_ts_sz_ o = 0%nat) → ∃ b, newBlockBuilder o hash = Ok b ∧ ready [] b ∧ wf iv [].
Proof.
  intros Hh. unfold newBlockBuilder. rewrite (proj2 (Z.leb_le _ _)) by lia. cbn [assert_ res_bind]. eexists. split; [done|]. split; [|by intros j e Hj].
  assert (Hi : (0 < iv)%nat) by lia.
  unfold ready. cbn [last_key_ add_with_last_key_called_]. split; [|by destruct (use_delta_encoding_ o)].
  constructor; cbn [opts buffer_ values_buffer_ restarts_ counter_ estimate_ finished_ data_block_hash_index_builder_]; try done.
  - by destruct sep.
  - unfold restart_list. cbn [length]. by rewrite num_restarts_0.
  - unfold slen. simpl. lia.
  - destruct hash as [ratio|]; [|by left]. destruct (Hh ltac:(done)) as [Hu Hs]. destruct (Hash_Valid (Hash_Initialize newHashBuilder ratio)) eqn:Ev; [right|by left].
    by split.
Qed.

Fixpoint add_all (b : BlockBuilder) (kvs : list (bytes * bytes)) : res BlockBuilder :=
  match kvs with [] => Ok b | (k, v) :: kvs => let* b := bb_Add GetSliceHash b k v None false in add_all b kvs end.
(** The key can be stored, as [pk]. *)
Definition storable (kv : bytes * bytes) (pk : bytes) : Prop :=
  MaybeStripTimestampFromKey o kv.1 = Ok pk ∧ below4G kv.1 = true ∧ below4G kv.2 = true ∧ (bb_is_user_key_ o = false → 8 ≤ length kv.1)%nat.
Definition content (es : list ent) : list (bytes * bytes) := map (λ e, (e_key e, e_val e)) es.

Lemma add_all_spec es b kvs pks :
  ready es b → wf iv es → Forall2 storable kvs pks →
  Z.of_nat (sum_list_with (λ e, room (e_key e) (e_val e)) es + sum_list_with (λ kv, room kv.1 kv.2) kvs) < 2 ^ 32 →
  ∃ b' es', add_all b kvs = Ok b' ∧ ready (es ++ es') b' ∧ wf iv (es ++ es') ∧ content es' = zip pks (map snd kvs) ∧
    Z.of_nat (sum_list_with (λ e, room (e_key e) (e_val e)) (es ++ es')) < 2 ^ 32.
Proof.
  intros Hb Hwf Hst. revert es b Hb Hwf. induction Hst as [|[k v] pk kvs pks (Hpk & Hk & Hv & H8) Hst IH]; intros es b Hb Hwf Hsum.
  - exists b, []. rewrite app_nil_r. simpl in *. split_and!; try done. lia.
  - cbn [fst snd sum_list_with] in *. pose proof (strip_length _ _ Hpk) as Hpl.
    assert (Hroom : ∀ sh, (sum_list_with (λ e, room (e_key e) (e_val e)) (es ++ [mkEnt sh pk v]) ≤ sum_list_with (λ e, room (e_key e) (e_val e)) es + room k v)%nat).
    { intros sh. rewrite sum_list_with_app. cbn [sum_list_with e_key e_val]. unfold room. lia. }
    destruct (add_entry es b k v None false pk) as (b1 & sh & Hadd & Hb1 & Hwf1); try done.
    { intros sh. pose proof (body_room (es ++ [mkEnt sh pk v])). specialize (Hroom sh). unfold slen. lia. }
    cbn [add_all]. rewrite Hadd. cbn [res_bind]. destruct (IH _ b1 Hb1 Hwf1) as (b2 & es' & -> & Hb2 & Hwf2 & Hc & Hs2); [specialize (Hroom sh); lia|].
    exists b2, (mkEnt sh pk v :: es'). rewrite <-app_assoc in Hb2, Hwf2, Hs2. split_and!; try done. cbn [content map zip_with e_key e_val]. by f_equal.
Qed.

(** The restart keys the builder reads back. *)
Lemma restart_lookup es r : (r < num_restarts_of iv (length es))%nat → restart_list sep iv es !! r = Some (Z.of_nat (off sep iv es (r * iv))).
Proof. intros Hr. unfold restart_list. rewrite list_lookup_fmap, (lookup_seq_lt 0) by done. done. Qed.
Lemma drop_entry es j e : es !! j = Some e → ∃ rest, drop (off sep iv es j) (keys_part sep iv 0 0 es) =
  hdr sep iv j (voff es j) e ++ drop (e_shared e) (e_key e) ++ rest.
Proof.
  intros Hj. rewrite (keys_part_entry sep iv es j e Hj). unfold off. rewrite drop_app_length. unfold enc. rewrite <-!app_assoc. by eexists.
Qed.
Lemma mod_mult r : (0 < iv)%nat → ((r * iv) mod iv = 0)%nat.
Proof. intros Hi. by destruct (divmod_unique iv Hi (r * iv) r 0) as [_ ->]; [lia..|]. Qed.
Lemma restart_key es b r : built es b → wf iv es → (0 < length es)%nat → slen (body es) < 2 ^ 32 →
  (r < num_restarts_of iv (length es))%nat → ∃ k, bb_GetRestartKey b r = Ok k.
Proof.
  intros Hb Hwf Hn Hs Hr. assert (Hi : (0 < iv)%nat) by lia. unfold bb_GetRestartKey. rewrite (bt_restarts _ _ Hb), (restart_lookup es r Hr). cbn [res_bind].
  apply (restart_in iv Hi r _ Hn) in Hr. destruct (lookup_lt_is_Some_2 es (r * iv) Hr) as [e He].
  rewrite Nat2Z.id, (bt_buffer _ _ Hb), (bt_opts _ _ Hb), Hvd. destruct (drop_entry es _ e He) as (rest & ->).
  destruct (Hwf _ e He) as (H1 & H2 & H3 & H4 & _). unfold hdr. rewrite mod_mult by done. cbn [Nat.eqb]. rewrite andb_true_r.
  specialize (H4 (mod_mult r Hi)). pose proof (voff_bound es (r * iv)) as Hvb. unfold slen in *.
  rewrite DecodeKey_encoded; [|lia..|].
  - rewrite H4. cbn [res_bind Z.of_nat Z.eqb assert_]. rewrite (proj2 (Z.leb_le _ _)) by (unfold slen; rewrite length_app, length_drop; lia). by eexists.
  - intros E. unfold body in Hs. rewrite E, length_app in Hs. lia.
Qed.
Lemma scan_total es b p n i t : built es b → wf iv es → (0 < length es)%nat → slen (body es) < 2 ^ 32 →
  (i + n ≤ num_restarts_of iv (length es))%nat → ∃ x, scan_loop b p n i t = Ok x.
Proof.
  intros Hb Hwf Hn Hs. revert i t. induction n as [|n IH]; intros i t Hi; cbn [scan_loop]; [by eexists|].
  destruct (restart_key es b i Hb Hwf Hn Hs) as [k ->]; [lia|]. cbn [res_bind].
  destruct (negb (bb_is_user_key_ (opts b)) && (length k <? kNumInternalBytes)%nat) eqn:E; [by eexists|].
  assert (Hv : ∃ v, ReadBe64FromKey k (bb_is_user_key_ (opts b)) p = Ok v).
  { unfold ReadBe64FromKey. destruct (bb_is_user_key_ (opts b)); cbn [res_bind].
    - destruct (8 <=? _)%nat; by eexists.
    - cbn [negb andb] in E. apply Nat.ltb_ge in E. rewrite (proj2 (Nat.leb_le _ _)) by done. cbn [assert_ res_bind].
      destruct (8 <=? _)%nat; by eexists. }
  destruct Hv as [v ->]. cbn [res_bind]. apply IH. lia.
Qed.
Lemma ScanForUniformity_total es b : built es b → wf iv es → slen (body es) < 2 ^ 32 → ∃ u, ScanForUniformity b = Ok u.
Proof.
  intros Hb Hwf Hs. unfold ScanForUniformity. destruct (_ || _) eqn:E; [by eexists|]. apply orb_false_iff in E as [_ E%Nat.ltb_ge].
  assert (Hl : length (restarts_ b) = num_restarts_of iv (length es)) by (rewrite (bt_restarts _ _ Hb); unfold restart_list; by rewrite length_map, length_seq).
  assert (Hn : (0 < length es)%nat) by (destruct es; [rewrite num_restarts_0 in Hl by lia|simpl]; lia).
  destruct (restart_key es b 0 Hb Hwf Hn Hs) as [k0 ->]; [lia|]. destruct (restart_key es b (length (restarts_ b) - 1) Hb Hwf Hn Hs) as [k1 ->]; [lia|].
  cbn [res_bind]. destruct (_ && _); [by eexists|].
  destruct (scan_total es b (difference_offset k0 k1) (length (restarts_ b)) 0 newTracker Hb Hwf Hn Hs) as [x ->]; [lia|]. cbn [res_bind]. by eexists.
Qed.

Definition restart_bytes (es : list ent) : bytes := concat (map (EncodeFixed32 true) (restart_list sep iv es)).
Lemma put_restarts l d : fold_left PutFixed32 l d = d ++ concat (map (EncodeFixed32 true) l).
Proof. revert d. induction l as [|v l IH]; intros d; simpl; [by rewrite app_nil_r|]. rewrite IH. unfold PutFixed32. by rewrite <-app_assoc. Qed.
Lemma fixed32_array_length l : length (concat (map (EncodeFixed32 true) l)) = (4 * length l)%nat.
Proof. induction l as [|v l IH]; [done|]. cbn [map concat]. rewrite length_app, IH. unfold EncodeFixed32. rewrite length_le_split. simpl. lia. Qed.

Abbreviation nr es := (num_restarts_of iv (length es)).
Definition footer_size : Z := if sep then 8 else 4.
Lemma estimate_size es b : built es b → estimate_ b = slen (body es) + 4 * Z.of_nat (nr es) + footer_size.
Proof.
  intros Hb. rewrite (bt_estimate _ _ Hb), (bt_restarts _ _ Hb), (bt_buffer _ _ Hb), (bt_values _ _ Hb). unfold restart_list, base_estimate, body, footer_size, slen.
  rewrite length_map, length_seq, length_app. unfold num_restarts_of. destruct sep; simpl; lia.
Qed.
Lemma restart_bytes_length es : slen (restart_bytes es) = 4 * Z.of_nat (nr es).
Proof. unfold slen, restart_bytes. rewrite fixed32_array_length. unfold restart_list. rewrite length_map, length_seq. lia. Qed.
(** The end of the block; [tail]: the hash index. *)
Definition footer_of (es : list ent) (hash u : bool) : DataBlockFooter :=
  mkFooter hash sep (if sep then slen (keys_part sep iv 0 0 es) else 0) (Z.of_nat (nr es)) u.
Lemma footer_written es hash u tail : slen (body es) < 2 ^ 32 → Z.of_nat (nr es) ≤ kMaxNumRestarts →
  ∃ out t, Footer_EncodeTo (footer_of es hash u) (body es ++ restart_bytes es ++ tail) = Ok out ∧
    Footer_DecodeFrom out = Some (footer_of es hash u, body es ++ restart_bytes es ++ tail) ∧ out = body es ++ restart_bytes es ++ tail ++ t ∧ slen t = footer_size.
Proof.
  intros Hs Hr. assert (Hks : slen (keys_part sep iv 0 0 es) < 2 ^ 32) by (unfold body, slen in *; rewrite length_app in Hs; lia).
  destruct (footer_decode (footer_of es hash u) (body es ++ restart_bytes es ++ tail)) as (out & He & Hd & Hl & t & Ht).
  { unfold footer_ok, footer_of. cbn [f_num_restarts values_section_offset separated_kv]. unfold slen in *. destruct sep; split_and!; (done || lia). }
  exists out, t. split_and!; try done; [by rewrite Ht, <-!app_assoc|]. rewrite Ht, length_app in Hl. unfold footer_of in Hl. cbn [separated_kv] in Hl. unfold slen, footer_size. destruct sep; lia.
Qed.

(** The bytes of a hash index with the buckets [bs]. *)
Definition hash_bytes (hx : option (list Z)) : bytes :=
  match hx with Some bs => map z2b bs ++ EncodeFixed16 true (Z.of_nat (length bs)) | None => [] end.
Definition hash_of (b : BlockBuilder) : HashBuilder := data_block_hash_index_builder_ b.
(** What [Finish] puts in the hash index; the estimate is exact unless the block is too large for its index. *)
Definition indexed (es : list ent) (b : BlockBuilder) (out : bytes) (hx : option (list Z)) : Prop :=
  match hx with
  | None => ∃ e, CurrentSizeEstimate b = Ok e ∧ if Hash_Valid (hash_of b) then kMaxBlockSizeSupportedByHashIndex < e else e = slen out
  | Some bs => CurrentSizeEstimate b = Ok (slen out) ∧ slen out ≤ kMaxBlockSizeSupportedByHashIndex ∧ 0 < Z.of_nat (length bs) < 2 ^ 16 ∧
      buckets_ok (Z.of_nat (length bs)) (hash_pairs es) bs ∧ Forall (λ p, 0 ≤ p.2 ≤ kMaxRestartSupportedByHashIndex) (hash_pairs es) ∧ bb_is_user_key_ o = false ∧ strip_ts_sz_ o = 0%nat
  end.
(** The hash index is appended when it fits. *)
Lemma hash_appended es b : built es b → slen (body es) < 2 ^ 32 → Z.of_nat (nr es) ≤ kMaxNumRestarts → is_ok (CurrentSizeEstimate b) = true →
  ∃ e hx, CurrentSizeEstimate b = Ok e ∧ (if Hash_Valid (hash_of b) && (e <=? kMaxBlockSizeSupportedByHashIndex) then Hash_Finish (hash_of b) (body es ++ restart_bytes es)
    else Ok (body es ++ restart_bytes es)) = Ok (body es ++ restart_bytes es ++ hash_bytes hx) ∧
    Hash_Valid (hash_of b) && (e <=? kMaxBlockSizeSupportedByHashIndex) = (if hx then true else false) ∧
    ∀ out, slen out = slen (body es) + 4 * Z.of_nat (nr es) + slen (hash_bytes hx) + footer_size → indexed es b out hx.
Proof.
  intros Hb Hs Hr Hok. pose proof (estimate_size es b Hb) as He. unfold indexed. assert (Hnr : Z.of_nat (nr es) < 2 ^ 28) by (unfold kMaxNumRestarts in Hr; change (Z.shiftl 1 28 - 1) with (2 ^ 28 - 1) in Hr; lia).
  assert (H0 : 0 ≤ slen (body es) ∧ 0 ≤ footer_size ≤ 8) by (unfold slen, footer_size; destruct sep; lia).
  unfold CurrentSizeEstimate in *. fold (hash_of b) in *. destruct (Hash_Valid (hash_of b)) eqn:Ev; cbn [andb res_bind] in *.
  2:{ rewrite Z.add_0_r, u64_id by lia. exists (estimate_ b), None. rewrite app_nil_r. split_and!; try done. intros out Hout. exists (estimate_ b). split; [done|]. change (slen (hash_bytes None)) with 0 in Hout. lia. }
  destruct (bt_hash _ _ Hb) as [Hf|[Hu Hst _ Hp Hpr]]; [unfold hash_of in Ev; congruence|]. fold (hash_of b) in Hp. unfold EstimateSize in *.
  destruct (to_u16 (estimated_num_buckets_ (hash_of b))) as [n|] eqn:En; [|done]. cbn [res_bind]. pose proof (to_u16_range _ _ En) as Hn. pose proof (buckets_for_range n Hn) as Hbr.
  fold (buckets_for n). rewrite u64_id by lia. exists (estimate_ b + (2 + buckets_for n)). destruct (Z.leb_spec (estimate_ b + (2 + buckets_for n)) kMaxBlockSizeSupportedByHashIndex) as [Hle|Hgt].
  2:{ exists None. rewrite app_nil_r. split_and!; try done. intros out _. eexists. by split. }
  destruct (Hash_Finish_spec (hash_of b) (body es ++ restart_bytes es) n Ev En) as (bs & Hfin & Hbk).
  { by rewrite Hp. }
  { pose proof (restart_bytes_length es) as Hrb. unfold slen in *. rewrite length_app. lia. }
  rewrite Hp in Hbk. pose proof Hbk as [Hl _]. assert (Hlb : Z.of_nat (length bs) = buckets_for n) by lia. exists (Some bs). cbn [hash_bytes]. rewrite Hlb. split_and!; try done.
  - by rewrite Hfin, <-app_assoc.
  - intros out Hout. assert (Ho : slen out = estimate_ b + (2 + buckets_for n)); [|rewrite Ho; split_and!; (done || lia)].
    assert (slen (map z2b bs ++ EncodeFixed16 true (buckets_for n)) = buckets_for n + 2) by (unfold slen, EncodeFixed16; rewrite length_app, length_map, length_le_split; lia). lia.
Qed.

(** [Finish] appends the restart array, the hash index and the footer. *)
Lemma block_finish_spec es b : built es b → wf iv es → slen (body es) < 2 ^ 32 → Z.of_nat (nr es) ≤ kMaxNumRestarts → is_ok (CurrentSizeEstimate b) = true →
  ∃ b' out u (hx : option (list Z)) t, bb_Finish b = Ok (b', out) ∧ Footer_DecodeFrom out = Some (footer_of es (if hx then true else false) u, body es ++ restart_bytes es ++ hash_bytes hx) ∧
    out = body es ++ restart_bytes es ++ hash_bytes hx ++ t ∧ slen t = footer_size ∧ indexed es b out hx.
Proof.
  intros Hb Hwf Hs Hr Hok. destruct (ScanForUniformity_total es b Hb Hwf Hs) as [u Hu]. destruct (hash_appended es b Hb Hs Hr Hok) as (e & hx & He & Hfin & Hflag & Hidx).
  unfold bb_Finish. rewrite Hu, He. cbn [res_bind]. fold (hash_of b). rewrite (bt_opts _ _ Hb), put_restarts, (bt_restarts _ _ Hb). fold (restart_bytes es).
  assert (Hbody : (if sep then buffer_ b ++ values_buffer_ b else buffer_ b) = body es).
  { unfold body. rewrite (bt_buffer _ _ Hb), (bt_values _ _ Hb). destruct sep; by rewrite ?app_nil_r. }
  assert (Hl : length (restart_list sep iv es) = nr es) by (unfold restart_list; by rewrite length_map, length_seq).
  rewrite Hbody, Hl, (bt_buffer _ _ Hb), Hfin, Hflag. cbn [res_bind].
  rewrite (u32_id (slen _)), (u32_id (Z.of_nat (num_restarts_of _ _))); [|unfold kMaxNumRestarts in Hr; change (Z.shiftl 1 28 - 1) with (2 ^ 28 - 1) in Hr; lia|unfold body, slen in *; rewrite length_app in Hs; lia].
  fold (footer_of es (if hx then true else false) u). destruct (footer_written es (if hx then true else false) u (hash_bytes hx) Hs Hr) as (out & t & -> & Hdec & Hout & Ht).
  cbn [res_bind]. eexists _, out, u, hx, t. split; [done|]. split; [done|]. split; [done|]. split; [done|]. apply Hidx. pose proof (restart_bytes_length es). rewrite Hout.
  unfold slen in *. rewrite !length_app. lia.
Qed.
End builder.
