(* ===== verification/BlockIter.v ===== *)
(** * Reading blocks (rocksdb [table/block_based/block.h], [block.cc])

    [Block] and the iterators over data blocks and meta blocks.  A pointer into the
    block is its offset; reading outside the block fails with [BadPointer].  The
    loops are bounded by the size of the block: every entry takes at least three
    bytes.  Index blocks and the read-amplification bitmap are left out; the hash
    functions of the hash index and of the per-entry checksums are arguments. *)
From S2P Require Import Prelude Bitfield Slice Coding Comparator DbFormat IterKey BlockBuilder.
Local Open Scope Z_scope.

Inductive IterStatus := OK | Corruption.
#[global] Instance IterStatus_eq_dec : EqDecision IterStatus.
Proof. solve_decision. Defined.

(** ** [Block] *)
(** [b_size = 0] marks a bad block.  [b_num_buckets]: [num_buckets_] of the hash index, [0] when there
    is none; [b_values]: the offset of [values_section_]. *)
Record Block := mkBlock {
  b_contents : bytes; b_size : Z; restart_offset_ : Z; b_num_restarts : Z; b_interval : Z; b_is_uniform : bool; b_num_buckets : Z; b_values : option Z }.

Definition newBlock (contents : bytes) (restart_interval : Z) : res Block :=
  let size := slen contents in
  match Footer_DecodeFrom contents with
  | None => Ok (mkBlock contents 0 (u32 size) 0 restart_interval false 0 None)
  | Some (footer, input) =>
      let n := f_num_restarts footer in
      let block size off nb v := mkBlock contents size off n restart_interval (f_is_uniform footer) nb v in
      let* hx :=
        if f_hash footer then
          if (length input <? 2)%nat then Ok None
          else
            let* (num_buckets, map_offset) := HashIndex_Initialize contents (u16 (slen input)) in
            let* input := remove_suffix input (Z.to_nat (slen input - map_offset)) in
            Ok (Some (num_buckets, input))
        else Ok (Some (0, input)) in
      match hx with
      | None => Ok (block 0 0 0 None)
      | Some (nb, input) =>
          if slen input <? n * 4 then Ok (block 0 0 nb None)
          else
            let restart_offset := u32 (u32 (slen input) - n * 4) in
            if separated_kv footer then
              if restart_offset <? values_section_offset footer then Ok (block 0 restart_offset nb None)
              else Ok (block size restart_offset nb (Some (values_section_offset footer)))
            else Ok (block size restart_offset nb None)
      end
  end.
(** Always some [Status::Corruption]; the last case is [DEBUG_FAIL]. *)
Definition GetCorruptionStatus (b : Block) : res unit :=
  let* _ := assert_ (b_size b =? 0) in
  if restart_offset_ b =? 0 then Ok tt
  else match Footer_DecodeFrom (take (Z.to_nat (restart_offset_ b)) (b_contents b)) with
       | None => Ok tt
       | Some _ => Fail AssertFail
       end.

(** ** The iterators *)
(** What does not change after initialisation.  [data_ = None]: [nullptr].  [data_block_hash_index_]:
    its [num_buckets_], [0] for [nullptr]. *)
Record Base := mkBase {
  data_ : option bytes; bi_restarts_ : Z; num_restarts_ : Z; values_section_ : option Z; global_seqno_ : Z; ts_sz_ : nat;
  pad_min_timestamp_ : bool; bi_interval_ : Z; protection_bytes_per_key_ : nat; kv_checksum_ : bytes;
  data_block_hash_index_ : Z }.
(** A slice of the block: offset and length; [None]: a slice of other memory.  An
    [is_user_key_] of [raw_key_] distinguishes meta blocks from data blocks. *)
Record BlockIter := mkIter {
  base : Base; entry_ : option (Z * Z); restart_index_ : Z; current_ : Z; raw_key_ : IterKey; key_buf_ : IterKey;
  value_ : option (Z * Z); status_ : IterStatus; bi_key_ : bytes; key_pinned_ : bool; cur_entry_idx_ : Z }.
Inductive Kind := Data | Meta.

Definition set_pos (s : BlockIter) (e : option (Z * Z)) (ri cur idx : Z) : BlockIter :=
  mkIter (base s) e ri cur (raw_key_ s) (key_buf_ s) (value_ s) (status_ s) (bi_key_ s) (key_pinned_ s) idx.
Definition set_raw (s : BlockIter) (k : IterKey) : BlockIter :=
  mkIter (base s) (entry_ s) (restart_index_ s) (current_ s) k (key_buf_ s) (value_ s) (status_ s) (bi_key_ s) (key_pinned_ s) (cur_entry_idx_ s).
Definition set_value (s : BlockIter) (v : option (Z * Z)) : BlockIter :=
  mkIter (base s) (entry_ s) (restart_index_ s) (current_ s) (raw_key_ s) (key_buf_ s) v (status_ s) (bi_key_ s) (key_pinned_ s) (cur_entry_idx_ s).
Definition set_shown (s : BlockIter) (buf : IterKey) (k : bytes) (pinned : bool) : BlockIter :=
  mkIter (base s) (entry_ s) (restart_index_ s) (current_ s) (raw_key_ s) buf (value_ s) (status_ s) k pinned (cur_entry_idx_ s).

(** [Slice(data_ + off, n)], to be read. *)
Definition slice_of (d : bytes) (off n : Z) : res bytes :=
  if (0 <=? off) && (off + n <=? slen d) then Ok (take (Z.to_nat n) (drop (Z.to_nat off) d)) else Fail BadPointer.

Definition GetKeysEndOffset (b : Base) : Z := match values_section_ b with Some v => u32 v | None => bi_restarts_ b end.
Definition bi_Valid (s : BlockIter) : res bool :=
  let key_end := GetKeysEndOffset (base s) in
  let* _ := assert_ (bool_decide (status_ s = OK) || (key_end <=? current_ s)) in
  Ok (current_ s <? key_end).
Definition NextEntryOffset (s : BlockIter) : res Z :=
  match entry_ s with Some (off, n) => Ok (u32 (off + n)) | None => Fail Undefined end.
Definition GetRestartPoint (b : Base) (index : Z) : res Z :=
  let* _ := assert_ (index <? num_restarts_ b) in
  let* d := deref (data_ b) in
  let* f := slice_of d (bi_restarts_ b + index * 4) 4 in
  let offset := DecodeFixed32 true f in
  let* _ := assert_ (match values_section_ b with None => true | Some v => offset <=? v end) in
  Ok offset.
(** A [uint32_t] converted to [int32_t]. *)
Definition s32 (z : Z) : Z := if u32 z <? 2 ^ 31 then u32 z else u32 z - 2 ^ 32.
Definition SeekToRestartPoint (s : BlockIter) (index : Z) : res BlockIter :=
  let s := set_raw s (Clear (raw_key_ s)) in
  let idx := s32 (index * bi_interval_ (base s)) - 1 in
  let* offset := GetRestartPoint (base s) index in
  Ok (set_pos s (Some (offset, 0)) index (current_ s) idx).
Definition CorruptionError (s : BlockIter) : BlockIter :=
  mkIter (base s) (entry_ s) (num_restarts_ (base s)) (GetKeysEndOffset (base s)) (Clear (raw_key_ s)) (key_buf_ s) None Corruption
    (bi_key_ s) (key_pinned_ s) (cur_entry_idx_ s).
Definition InvalidateIter (s : BlockIter) (st : IterStatus) : BlockIter :=
  let b := base s in
  mkIter (mkBase None (bi_restarts_ b) (num_restarts_ b) (values_section_ b) (global_seqno_ b) (ts_sz_ b) (pad_min_timestamp_ b)
            (bi_interval_ b) (protection_bytes_per_key_ b) (kv_checksum_ b) (data_block_hash_index_ b))
    (entry_ s) (restart_index_ s) (GetKeysEndOffset b) (raw_key_ s) (key_buf_ s) (value_ s) st (bi_key_ s) (key_pinned_ s) (cur_entry_idx_ s).

Section Iter.
Context `{UC : Comparator}.
Context (fresh : nat → bytes) (Verify : bytes → bytes → bytes → bool).

Definition InitializeBase (s : BlockIter) (b : Base) : res BlockIter :=
  let* _ := assert_ (match data_ (base s) with None => true | Some _ => false end) in
  let* _ := assert_ (0 <? num_restarts_ b) in
  Ok (mkIter b None (num_restarts_ b) (GetKeysEndOffset b) (raw_key_ s) (key_buf_ s) (value_ s) (status_ s) (bi_key_ s) (key_pinned_ s) (-1)).

Definition newIter : BlockIter :=
  mkIter (mkBase None 0 0 None 0 0 false 0 0 [] 0) None 0 0 (newIterKey fresh) (newIterKey fresh) None OK [] false 0.
(** A new iterator; no per-entry checksums. *)
Definition NewIterator (b : Block) (num_buckets : Z) (user : bool) (global_seqno : Z) (ts_sz : nat) (timestamps_persisted : bool) : res BlockIter :=
  let it := newIter in
  if b_size b <? 8 then let* _ := GetCorruptionStatus b in Ok (InvalidateIter it Corruption)
  else if b_num_restarts b =? 0 then Ok (InvalidateIter it OK)
  else
    let* it := InitializeBase it (mkBase (Some (b_contents b)) (restart_offset_ b) (b_num_restarts b) (b_values b) global_seqno ts_sz
                                    ((0 <? ts_sz)%nat && negb timestamps_persisted) (b_interval b) 0 [] num_buckets) in
    Ok (set_raw it (SetIsUserKey (raw_key_ it) user)).
(** [ts_sz]: the [timestamp_size()] of the comparator. *)
Definition NewDataIterator (b : Block) (global_seqno : Z) (ts_sz : nat) (timestamps_persisted : bool) : res BlockIter :=
  NewIterator b (b_num_buckets b) false global_seqno ts_sz timestamps_persisted.
Definition NewMetaIterator (b : Block) : res BlockIter := NewIterator b 0 true kDisableGlobalSequenceNumber 0 true.

Definition PadKey (s : BlockIter) (key : bytes) : res IterKey :=
  if pad_min_timestamp_ (base s) then SetKeyWithPaddedMinTimestamp fresh (raw_key_ s) key (ts_sz_ (base s))
  else SetKey fresh (raw_key_ s) key false.
Definition UpdateRawKeyAndMaybePadMinTimestamp (s : BlockIter) (key : bytes) : res BlockIter :=
  let* k := PadKey s key in Ok (set_raw s k).

(** *** Comparing *)
Definition CompareKey (s : BlockIter) (a b : bytes) : res Z :=
  if IsUserKey (raw_key_ s) then
    let* _ := assert_ (global_seqno_ (base s) =? kDisableGlobalSequenceNumber) in Ok (Compare a b)
  else if global_seqno_ (base s) =? kDisableGlobalSequenceNumber then CompareSlices a b
  else CompareGlobal a (global_seqno_ (base s)) b kDisableGlobalSequenceNumber.
Definition CompareCurrentKey (s : BlockIter) (other : bytes) : res Z :=
  let* k := if IsUserKey (raw_key_ s) then GetUserKey (raw_key_ s) else GetInternalKey (raw_key_ s) in
  CompareKey s k other.

(** *** The next entry *)
(** [restart_index_] moves on to the interval of [current_]. *)
Fixpoint advance_restart (fuel : nat) (b : Base) (cur ri : Z) : res Z :=
  match fuel with
  | O => Fail OutOfFuel
  | S fuel =>
      if ri + 1 <? num_restarts_ b then
        let* p := GetRestartPoint b (ri + 1) in
        if p <? cur then advance_restart fuel b cur (ri + 1) else Ok ri
      else Ok ri
  end.
(** Whether there is one, and whether its key shares bytes with the previous one. *)
Definition ParseNextKey (StrictCheck : bool) (s : BlockIter) : res (bool * bool * BlockIter) :=
  let b := base s in
  let* cur := NextEntryOffset s in
  let idx := cur_entry_idx_ s + 1 in
  let keys_end := GetKeysEndOffset b in
  let s := set_pos s (entry_ s) (restart_index_ s) cur idx in
  if keys_end <=? cur then Ok (false, false, set_pos s (entry_ s) (num_restarts_ b) keys_end idx)
  else
    let* d := deref (data_ b) in
    let* _ := assert_ (0 <=? idx) in
    let* _ := assert_ (match values_section_ b with None => true | Some _ => 0 <? bi_interval_ b end) in
    let value_offset_encoded := match values_section_ b with None => false | Some _ => idx mod bi_interval_ b =? 0 end in
    let* p_old := slice_of d cur (keys_end - cur) in
    let* o := DecodeEntry p_old value_offset_encoded in
    match o with
    | None => Ok (false, false, CorruptionError s)
    | Some (shared, non_shared, value_length, value_offset, p) =>
        let entry_length := u32 (non_shared + match values_section_ b with None => value_length | Some _ => 0 end) in
        if (Z.of_nat (Size (raw_key_ s)) <? shared) || (StrictCheck && (u32 (slen p) <? entry_length)) then
          Ok (false, false, CorruptionError s)
        else
          let* _ := assert_ (match values_section_ b with None => true | Some _ => negb (idx mod bi_interval_ b =? 0) || (shared =? 0) end) in
          let header := slen p_old - slen p in
          let entry := (cur, header + non_shared) in
          let* delta := slice_of d (cur + header) non_shared in
          let* k :=
            if shared =? 0 then PadKey s delta
            else if pad_min_timestamp_ b then TrimAppendWithTimestamp fresh (raw_key_ s) (Z.to_nat shared) delta (ts_sz_ b)
            else TrimAppend fresh (raw_key_ s) (Z.to_nat shared) delta in
          let* ri := if shared =? 0 then advance_restart (S (Z.to_nat (num_restarts_ b))) b cur (restart_index_ s) else Ok (restart_index_ s) in
          let is_shared := negb (shared =? 0) in
          let s := set_raw (set_pos s (Some entry) ri cur idx) k in
          match values_section_ b with
          | Some vs =>
              let* voff :=
                if value_offset_encoded then Ok (vs + value_offset)
                else match value_ s with
                     | None => Fail Undefined
                     | Some (vo, vn) => let* _ := assert_ (vs <=? vo) in Ok (vo + vn)
                     end in
              let s := set_value s (Some (voff, value_length)) in
              if StrictCheck && (bi_restarts_ b <? voff + value_length) then Ok (false, is_shared, CorruptionError s)
              else let* _ := assert_ (voff + value_length <=? bi_restarts_ b) in Ok (true, is_shared, s)
          | None =>
              let voff := entry.1 + entry.2 in
              let s := set_value s (Some (voff, value_length)) in
              let* _ := assert_ (voff + value_length <=? bi_restarts_ b) in
              Ok (true, is_shared, set_pos s (Some (entry.1, entry.2 + value_length)) ri cur idx)
          end
    end.

(** [ParseNextDataKey]: the keys of a file with a global sequence number have number 0. *)
Definition global_key_ok (s : BlockIter) : res unit :=
  if global_seqno_ (base s) =? kDisableGlobalSequenceNumber then Ok tt
  else
    let* k := GetKey (raw_key_ s) in
    let* packed := ExtractInternalKeyFooter k in
    let '(seqno, value_type) := UnPackSequenceAndType packed in
    let* _ := assert_ ((value_type =? kTypeValue) || (value_type =? kTypeMerge) || (value_type =? kTypeDeletion)
                       || (value_type =? kTypeDeletionWithTimestamp) || (value_type =? kTypeRangeDeletion)
                       || (value_type =? kTypeWideColumnEntity)) in
    assert_ (seqno =? 0).
Definition ParseKey (kd : Kind) (s : BlockIter) : res (bool * bool * BlockIter) :=
  match kd with
  | Meta => ParseNextKey true s
  | Data =>
      let* (ok, sh, s) := ParseNextKey false s in
      if ok : bool then let* _ := global_key_ok s in Ok (true, sh, s) else Ok (false, sh, s)
  end.
Definition NextImpl (kd : Kind) (s : BlockIter) : res BlockIter := let* (_, _, s) := ParseKey kd s in Ok s.

(** *** Exposing the key *)
Definition PerKVChecksumCorruptionError := CorruptionError.
Definition UpdateKey (s : BlockIter) : res BlockIter :=
  let buf := Clear (key_buf_ s) in
  let raw := raw_key_ s in
  let s := set_shown s buf (bi_key_ s) (key_pinned_ s) in
  let* v := bi_Valid s in
  if negb v then Ok s
  else
    let* s :=
      if IsUserKey raw then
        let* _ := assert_ (global_seqno_ (base s) =? kDisableGlobalSequenceNumber) in
        let* k := GetUserKey raw in Ok (set_shown s buf k (IsKeyPinned raw))
      else if global_seqno_ (base s) =? kDisableGlobalSequenceNumber then
        let* k := GetInternalKey raw in Ok (set_shown s buf k (IsKeyPinned raw))
      else
        let* u := GetUserKey raw in
        let* ik := GetInternalKey raw in
        let* t := ExtractValueType ik in
        let* buf := SetInternalKey fresh buf [] u (global_seqno_ (base s)) t None in
        let* k := GetInternalKey buf in
        Ok (set_shown s buf k false) in
    let n := protection_bytes_per_key_ (base s) in
    if (0 <? n)%nat then
      let* d := deref (data_ (base s)) in
      let* k := GetKey raw in
      let* (vo, vn) := deref (value_ s) in
      let* v := slice_of d vo vn in
      let* c := slice_of (kv_checksum_ (base s)) (Z.of_nat n * cur_entry_idx_ s) (Z.of_nat n) in
      Ok (if Verify k v c then s else PerKVChecksumCorruptionError s)
    else Ok s.

(** *** Moving *)
Definition loop_fuel (s : BlockIter) : nat := match data_ (base s) with Some d => S (length d) | None => 0 end.
Definition SeekToFirstImpl (kd : Kind) (s : BlockIter) : res BlockIter :=
  match data_ (base s) with
  | None => Ok s
  | Some _ => let* s := SeekToRestartPoint s 0 in NextImpl kd s
  end.
(** [while (ParseNextKey() && NextEntryOffset() < limit)]. *)
Fixpoint skip_to (fuel : nat) (kd : Kind) (limit : Z) (s : BlockIter) : res BlockIter :=
  match fuel with
  | O => Fail OutOfFuel
  | S fuel =>
      let* (ok, _, s) := ParseKey kd s in
      if ok : bool then let* e := NextEntryOffset s in if e <? limit then skip_to fuel kd limit s else Ok s
      else Ok s
  end.
Definition SeekToLastImpl (kd : Kind) (s : BlockIter) : res BlockIter :=
  match data_ (base s) with
  | None => Ok s
  | Some _ =>
      let* s := SeekToRestartPoint s (num_restarts_ (base s) - 1) in
      let* _ := match kd with Meta => assert_ (1 <=? num_restarts_ (base s)) | Data => Ok tt end in
      skip_to (loop_fuel s) kd (GetKeysEndOffset (base s)) s
  end.

(** *** Searching *)
(** [None]: the entry is corrupt. *)
Definition GetRestartKey (s : BlockIter) (index : Z) : res (option bytes * BlockIter) :=
  let* d := deref (data_ (base s)) in
  let* region_offset := GetRestartPoint (base s) index in
  let* p := slice_of d region_offset (bi_restarts_ (base s) - region_offset) in
  let* o := DecodeKey p (match values_section_ (base s) with Some _ => true | None => false end) in
  match o with
  | Some (shared, non_shared, _, p') =>
      if shared =? 0 then
        let* k := slice_of d (bi_restarts_ (base s) - slen p') non_shared in Ok (Some k, s)
      else Ok (None, CorruptionError s)
  | None => Ok (None, CorruptionError s)
  end.
(** The loop between [left] and [right]; [None]: an entry is corrupt. *)
Fixpoint binary_loop (fuel : nat) (target : bytes) (s : BlockIter) (left right : Z) (skip : bool) : res (option (Z * bool) * BlockIter) :=
  match fuel with
  | O => Fail OutOfFuel
  | S fuel =>
      if left =? right then Ok (Some (left, skip), s)
      else
        let mid := left + (right - left + 1) / 2 in
        let* _ := assert_ ((left <? mid) && (mid <=? right)) in
        let* (mid_key, s) := GetRestartKey s mid in
        match mid_key with
        | None => Ok (None, s)
        | Some mid_key =>
            let* s := UpdateRawKeyAndMaybePadMinTimestamp s mid_key in
            let* cmp := CompareCurrentKey s target in
            if cmp <? 0 then binary_loop fuel target s mid right skip
            else if 0 <? cmp then binary_loop fuel target s left (mid - 1) skip
            else binary_loop fuel target s mid mid true
        end
  end.
(** [index] and [skip_linear_scan]; [None]: [false]. *)
Definition BinarySeekRestartPointIndex (target : bytes) (s : BlockIter) : res (option (Z * bool) * BlockIter) :=
  if bi_restarts_ (base s) =? 0 then Ok (None, s)
  else
    let* (o, s) := binary_loop (S (S (Z.to_nat (num_restarts_ (base s))))) target s (-1) (num_restarts_ (base s) - 1) false in
    Ok (match o with
        | None => None
        | Some (l, skip) => Some (if l =? -1 then (0, true) else (l, skip))
        end, s).
Fixpoint linear_loop (fuel : nat) (kd : Kind) (target : bytes) (max_offset : Z) (s : BlockIter) : res BlockIter :=
  match fuel with
  | O => Fail OutOfFuel
  | S fuel =>
      let* s := NextImpl kd s in
      let* v := bi_Valid s in
      if negb v then Ok s
      else if current_ s =? max_offset then
        let* c := CompareCurrentKey s target in
        let* _ := assert_ (0 <? c) in Ok s
      else
        let* c := CompareCurrentKey s target in
        if 0 <=? c then Ok s else linear_loop fuel kd target max_offset s
  end.
Definition FindKeyAfterBinarySeek (kd : Kind) (target : bytes) (index : Z) (skip_linear_scan : bool) (s : BlockIter) : res BlockIter :=
  let* s := SeekToRestartPoint s index in
  let* s := NextImpl kd s in
  let* _ := assert_ (0 <=? cur_entry_idx_ s) in
  if skip_linear_scan then Ok s
  else
    let* max_offset := if index + 1 <? num_restarts_ (base s) then GetRestartPoint (base s) (index + 1) else Ok (2 ^ 32 - 1) in
    linear_loop (loop_fuel s) kd target max_offset s.
Definition SeekImpl (kd : Kind) (target : bytes) (s : BlockIter) : res BlockIter :=
  match data_ (base s) with
  | None => Ok s
  | Some _ =>
      let* (o, s) := BinarySeekRestartPointIndex target s in
      match o with
      | None => Ok s
      | Some (index, skip) => FindKeyAfterBinarySeek kd target index skip s
      end
  end.

Definition bi_SeekToFirst (kd : Kind) (s : BlockIter) : res BlockIter := let* s := SeekToFirstImpl kd s in UpdateKey s.
Definition bi_SeekToLast (kd : Kind) (s : BlockIter) : res BlockIter := let* s := SeekToLastImpl kd s in UpdateKey s.
Definition bi_Seek (kd : Kind) (target : bytes) (s : BlockIter) : res BlockIter := let* s := SeekImpl kd target s in UpdateKey s.
Definition bi_Next (kd : Kind) (s : BlockIter) : res BlockIter := let* s := NextImpl kd s in UpdateKey s.
Definition bi_key (s : BlockIter) : res bytes := let* v := bi_Valid s in let* _ := assert_ v in Ok (bi_key_ s).
Definition bi_value (s : BlockIter) : res bytes :=
  let* v := bi_Valid s in
  let* _ := assert_ v in
  let* d := deref (data_ (base s)) in
  let* (vo, vn) := deref (value_ s) in
  slice_of d vo vn.

(** *** Going back *)
(** [while (GetRestartPoint(restart_index_) >= original)]; [None]: there is no earlier entry. *)
Fixpoint back_restart (fuel : nat) (b : Base) (original ri : Z) : res (option Z) :=
  match fuel with
  | O => Fail OutOfFuel
  | S fuel =>
      let* p := GetRestartPoint b ri in
      if original <=? p then if ri =? 0 then Ok None else back_restart fuel b original (ri - 1) else Ok (Some ri)
  end.
Definition back_fuel (s : BlockIter) : nat := S (Z.to_nat (restart_index_ s)).
Definition set_idx (s : BlockIter) (idx : Z) : BlockIter := set_pos s (entry_ s) (restart_index_ s) (current_ s) idx.
(** [MetaBlockIter::PrevImpl]. *)
Definition MetaPrevImpl (s : BlockIter) : res BlockIter :=
  let* v := bi_Valid s in
  let* _ := assert_ v in
  let original := current_ s in
  let prev_entry_idx := cur_entry_idx_ s - 1 in
  let* o := back_restart (back_fuel s) (base s) original (restart_index_ s) in
  match o with
  | None => Ok (set_pos s (entry_ s) (num_restarts_ (base s)) (GetKeysEndOffset (base s)) (cur_entry_idx_ s))
  | Some ri =>
      let* s := SeekToRestartPoint s ri in
      let* s := skip_to (loop_fuel s) Meta original s in
      Ok (set_idx s prev_entry_idx)
  end.

(** [DataBlockIter]: the entries since a restart point are kept.  [pe_key_ptr]: the key
    itself, in the block, when it is not delta encoded. *)
Record CachedPrevEntry := mkPrev {
  pe_offset : Z; pe_entry_size : Z; pe_key_ptr : option bytes; pe_key_offset : nat; pe_key_size : nat; pe_value : option (Z * Z) }.
Record DataBlockIter := mkData {
  d_it : BlockIter; prev_entries_keys_buff_ : bytes; prev_entries_ : list CachedPrevEntry; prev_entries_idx_ : Z }.
Definition newDataBlockIter (s : BlockIter) : DataBlockIter := mkData s [] [] (-1).
(** The base class moves the iterator and leaves the cache. *)
Definition on_base (f : BlockIter → res BlockIter) (t : DataBlockIter) : res DataBlockIter :=
  let* s := f (d_it t) in Ok (mkData s (prev_entries_keys_buff_ t) (prev_entries_ t) (prev_entries_idx_ t)).

(** One entry into the cache. *)
Definition cache_entry (s : BlockIter) (buff : bytes) : res (CachedPrevEntry * bytes) :=
  let* current_key := GetKey (raw_key_ s) in
  let* v := bi_Valid s in
  let* _ := assert_ v in
  let* (_, size) := deref (entry_ s) in
  if IsKeyPinned (raw_key_ s) then Ok (mkPrev (current_ s) (u32 size) (Some current_key) 0 (length current_key) (value_ s), buff)
  else Ok (mkPrev (current_ s) (u32 size) None (length buff) (length current_key) (value_ s), buff ++ current_key).
Fixpoint fill_cache (fuel : nat) (original : Z) (s : BlockIter) (buff : bytes) (l : list CachedPrevEntry) :
    res (BlockIter * bytes * list CachedPrevEntry) :=
  match fuel with
  | O => Fail OutOfFuel
  | S fuel =>
      let* (ok, _, s) := ParseKey Data s in
      if ok : bool then
        let* (e, buff) := cache_entry s buff in
        let* next := NextEntryOffset s in
        if next <? original then fill_cache fuel original s buff (l ++ [e]) else Ok (s, buff, l ++ [e])
      else Ok (s, buff, l)
  end.
(** The cached entry before the current one. *)
Definition cached_prev (t : DataBlockIter) : option CachedPrevEntry :=
  if 0 <? prev_entries_idx_ t then
    match prev_entries_ t !! Z.to_nat (prev_entries_idx_ t) with
    | Some e => if pe_offset e =? current_ (d_it t) then prev_entries_ t !! Z.to_nat (prev_entries_idx_ t - 1) else None
    | None => None
    end
  else None.
Definition DataPrevImpl (t : DataBlockIter) : res DataBlockIter :=
  let s := d_it t in
  let* v := bi_Valid s in
  let* _ := assert_ v in
  let prev_entry_idx := cur_entry_idx_ s - 1 in
  let* _ := assert_ ((prev_entries_idx_ t =? -1) || ((0 <=? prev_entries_idx_ t) && (prev_entries_idx_ t <? Z.of_nat (length (prev_entries_ t))))) in
  match cached_prev t with
  | Some e =>
      let* (current_key, raw_key_cached) :=
        match pe_key_ptr e with
        | Some m => let* k := read m (pe_key_size e) in Ok (k, false)
        | None => let* k := read (drop (pe_key_offset e) (prev_entries_keys_buff_ t)) (pe_key_size e) in Ok (k, true)
        end in
      let* k := SetKey fresh (raw_key_ s) current_key raw_key_cached in
      let s := set_value (set_raw s k) (pe_value e) in
      Ok (mkData (set_pos s (Some (pe_offset e, pe_entry_size e)) (restart_index_ s) (pe_offset e) prev_entry_idx)
            (prev_entries_keys_buff_ t) (prev_entries_ t) (prev_entries_idx_ t - 1))
  | None =>
      let original := current_ s in
      let* o := back_restart (back_fuel s) (base s) original (restart_index_ s) in
      match o with
      | None => Ok (mkData (set_pos s (entry_ s) (num_restarts_ (base s)) (GetKeysEndOffset (base s)) prev_entry_idx) [] [] (-1))
      | Some ri =>
          let* s := SeekToRestartPoint s ri in
          let* (s, buff, l) := fill_cache (loop_fuel s) original s [] [] in
          Ok (mkData (set_idx s prev_entry_idx) buff l (Z.of_nat (length l) - 1))
      end
  end.

(** A meta block iterator has no cache. *)
Definition PrevImpl (kd : Kind) (t : DataBlockIter) : res DataBlockIter :=
  match kd with Data => DataPrevImpl t | Meta => on_base MetaPrevImpl t end.

(** [while (Valid() && CompareCurrentKey(seek_key) > 0) PrevImpl();] *)
Fixpoint back_while (fuel : nat) (kd : Kind) (target : bytes) (t : DataBlockIter) : res DataBlockIter :=
  match fuel with
  | O => Fail OutOfFuel
  | S fuel =>
      let* v := bi_Valid (d_it t) in
      if negb v then Ok t
      else
        let* c := CompareCurrentKey (d_it t) target in
        if 0 <? c then let* t := PrevImpl kd t in back_while fuel kd target t else Ok t
  end.
Definition SeekForPrevImpl (kd : Kind) (target : bytes) (t : DataBlockIter) : res DataBlockIter :=
  match data_ (base (d_it t)) with
  | None => Ok t
  | Some _ =>
      let* (o, s) := BinarySeekRestartPointIndex target (d_it t) in
      let t := mkData s (prev_entries_keys_buff_ t) (prev_entries_ t) (prev_entries_idx_ t) in
      match o with
      | None => Ok t
      | Some (index, skip) =>
          let* t := on_base (FindKeyAfterBinarySeek kd target index skip) t in
          let* v := bi_Valid (d_it t) in
          if negb v then
            if bool_decide (status_ (d_it t) = OK) then on_base (SeekToLastImpl kd) t else Ok t
          else back_while (loop_fuel (d_it t)) kd target t
      end
  end.
Definition bi_Prev (kd : Kind) (t : DataBlockIter) : res DataBlockIter := let* t := PrevImpl kd t in on_base UpdateKey t.
Definition bi_SeekForPrev (kd : Kind) (target : bytes) (t : DataBlockIter) : res DataBlockIter :=
  let* t := SeekForPrevImpl kd target t in on_base UpdateKey t.

(** *** Counting *)
Fixpoint count_while (fuel : nat) (kd : Kind) (limit : Z) (s : BlockIter) (count : Z) : res (Z * BlockIter) :=
  match fuel with
  | O => Fail OutOfFuel
  | S fuel =>
      let* e := NextEntryOffset s in
      if (e <? limit) && bool_decide (status_ s = OK) then
        let* s := NextImpl kd s in count_while fuel kd limit s (u32 (count + 1))
      else Ok (count, s)
  end.
Definition NumberOfKeys (kd : Kind) (block_restart_interval : Z) (s : BlockIter) : res (Z * BlockIter) :=
  match kd with
  | Meta => Ok (num_restarts_ (base s), s)
  | Data =>
      match data_ (base s) with
      | None => Ok (0, s)
      | Some _ =>
          if num_restarts_ (base s) =? 0 then Ok (0, s)
          else
            let count := u32 ((num_restarts_ (base s) - 1) * block_restart_interval) in
            let* s := SeekToRestartPoint s (num_restarts_ (base s) - 1) in
            count_while (loop_fuel s) kd (GetKeysEndOffset (base s)) s count
      end
  end.
Fixpoint count_to (fuel : nat) (kd : Kind) (end_index : Z) (s : BlockIter) (count : Z) : res (Z * BlockIter) :=
  match fuel with
  | O => Fail OutOfFuel
  | S fuel =>
      let* e := NextEntryOffset s in
      if (e <? end_index) && bool_decide (status_ s = OK) then
        let* v := bi_Valid s in
        let* _ := assert_ v in
        let* s := NextImpl kd s in count_to fuel kd end_index s (u32 (count + 1))
      else Ok (count, s)
  end.
Definition GetRestartInterval (kd : Kind) (s : BlockIter) : res (Z * BlockIter) :=
  match kd with
  | Meta => Ok (1, s)
  | Data =>
      match data_ (base s) with
      | None => Ok (0, s)
      | Some _ =>
          if num_restarts_ (base s) <=? 1 then Ok (0, s)
          else
            let* s := SeekToFirstImpl kd s in
            let* end_index := GetRestartPoint (base s) 1 in
            count_to (loop_fuel s) kd end_index s 1
      end
  end.

(** *** Point lookups through the hash index *)
Context (GetSliceHash : bytes → Z).
(** [while (current_ < limit)] inside a restart interval. *)
Fixpoint get_loop (fuel : nat) (target : bytes) (limit : Z) (s : BlockIter) : res BlockIter :=
  match fuel with
  | O => Fail OutOfFuel
  | S fuel =>
      if current_ s <? limit then
        let* (ok, _, s) := ParseKey Data s in
        if ok : bool then
          let* c := CompareCurrentKey s target in
          if 0 <=? c then Ok s else get_loop fuel target limit s
        else Ok s
      else Ok s
  end.
Definition get_type (t : Z) : bool :=
  (t =? kTypeValue) || (t =? kTypeDeletion) || (t =? kTypeMerge) || (t =? kTypeSingleDeletion) || (t =? kTypeBlobIndex)
  || (t =? kTypeWideColumnEntity) || (t =? kTypeValuePreferredSeqno).
Definition SeekForGetImpl (target : bytes) (s : BlockIter) : res (bool * BlockIter) :=
  let b := base s in
  let* target_user_key := ExtractUserKey target in
  let map_offset := u32 (bi_restarts_ b + num_restarts_ b * 4) in
  let* d := deref (data_ b) in
  let* entry := Hash_Lookup GetSliceHash (data_block_hash_index_ b) d map_offset target_user_key in
  if entry =? kCollision then let* s := SeekImpl Data target s in Ok (true, s)
  else
    let restart_index := if entry =? kNoEntry then u8 (num_restarts_ b - 1) else entry in
    let* _ := assert_ (restart_index <? num_restarts_ b) in
    let* s := SeekToRestartPoint s restart_index in
    let* cur := GetRestartPoint b restart_index in
    let s := set_pos s (entry_ s) (restart_index_ s) cur (cur_entry_idx_ s) in
    let* limit := if restart_index + 1 <? num_restarts_ b then GetRestartPoint b (restart_index + 1) else Ok (GetKeysEndOffset b) in
    let* s := get_loop (loop_fuel s) target limit s in
    if current_ s =? bi_restarts_ b then Ok (true, s)
    else
      let* u := GetUserKey (raw_key_ s) in
      if negb (Compare u target_user_key =? 0) then Ok (false, s)
      else
        let* k := GetInternalKey (raw_key_ s) in
        let* value_type := ExtractValueType k in
        if get_type value_type then Ok (true, s) else let* s := SeekImpl Data target s in Ok (true, s).
(** Whether [target] may exist. *)
Definition SeekForGet (target : bytes) (s : BlockIter) : res (bool * BlockIter) :=
  if data_block_hash_index_ (base s) =? 0 then
    let* s := SeekImpl Data target s in
    let* s := UpdateKey s in Ok (true, s)
  else
    let* (r, s) := SeekForGetImpl target s in
    let* s := UpdateKey s in Ok (r, s).
End Iter.
