(* ===== verification/BlockThm.v ===== *)
(** * Blocks read back what was put into them

    An iterator over a block with the layout of [BlockLayout.v]: every position it can
    take, forward and backward iteration, and search.  Together with the builder's
    lemmas this gives the round trip from [Add] to [Next], [Prev] and [Seek]. *)
From S2P Require Import Prelude Float64 Bitfield Slice Coding Comparator DbFormat IterKey BlockBuilder BlockLayout BlockIter.
Local Open Scope Z_scope.

Lemma slice_of_app p m r n : n = slen m → slice_of (p ++ m ++ r) (slen p) n = Ok m.
Proof.
  intros ->. unfold slice_of, slen. rewrite !length_app. rewrite (proj2 (Z.leb_le _ _)), (proj2 (Z.leb_le _ _)) by lia. cbn [andb].
  by rewrite !Nat2Z.id, drop_app_length, take_app_length.
Qed.

Lemma slice_of_length d o n x : slice_of d o n = Ok x → 0 ≤ n → slen x = n.
Proof.
  unfold slice_of, slen. destruct (_ && _) eqn:E; [|done]. apply andb_true_iff in E as [E1%Z.leb_le E2%Z.leb_le].
  intros [= <-] Hn. rewrite length_take, length_drop. lia.
Qed.
Lemma mod_of_nat j k : (0 < k)%nat → (Z.of_nat j mod Z.of_nat k =? 0) = (j mod k =? 0)%nat.
Proof. intros Hk. rewrite <-Nat2Z.inj_mod. destruct (Z.eqb_spec (Z.of_nat (j mod k)) 0), (Nat.eqb_spec (j mod k) 0); (done || lia). Qed.

Section reading.
Context `{UC : Comparator} (fresh : nat → bytes) (fresh_length : ∀ n, length (fresh n) = n) (Verify : bytes → bytes → bytes → bool).
Context (kd : Kind) (sep : bool) (iv : nat) (es : list ent) (b : Base) (d : bytes).

Abbreviation keys := (keys_part sep iv 0 0 es).
Abbreviation values := (if sep then vals es else []).
Abbreviation K := (slen keys).
Abbreviation nr := (num_restarts_of iv (length es)).
Abbreviation off := (off sep iv es).
Abbreviation voff := (voff es).

(** The iterator is initialised on a block of this layout. *)
Record opened : Prop := {
  op_iv : (0 < iv)%nat;
  op_wf : wf iv es;
  op_data : data_ b = Some d;
  op_layout : ∃ t, d = keys ++ values ++ concat (map (EncodeFixed32 true) (restart_list sep iv es)) ++ t;
  op_restarts : bi_restarts_ b = slen keys + slen values;
  op_num : num_restarts_ b = Z.of_nat nr;
  op_values : values_section_ b = if sep then Some K else None;
  op_interval : bi_interval_ b = Z.of_nat iv ∨ sep = false ∧ nr = 1%nat;
  op_size : slen d < 2 ^ 32;
  op_global : global_seqno_ b = kDisableGlobalSequenceNumber;
  op_checksum : protection_bytes_per_key_ b = 0%nat;
  op_pad : pad_min_timestamp_ b = true → kd = Data ∧ ts_sz_ b = 8%nat;
  op_keys : kd = Data → Forall (λ e, 8 ≤ length (e_key e))%nat es }.

(** The key as the iterator shows it. *)
Definition expose (k : bytes) : bytes := if pad_min_timestamp_ b then padded k else k.
Definition is_meta : bool := match kd with Meta => true | Data => false end.
Definition raw_ok (k : IterKey) : Prop :=
  iterkey_ok k ∧ is_user_key_ k = is_meta ∧ (pad_min_timestamp_ b = false → key_ k ≠ InSecondary).
Definition good (s : BlockIter) : Prop := base s = b ∧ status_ s = OK ∧ raw_ok (raw_key_ s) ∧ 0 ≤ restart_index_ s.
Definition value_at (j : nat) (e : ent) : Z :=
  if sep then K + Z.of_nat (voff j) else Z.of_nat (off j + length (hdr sep iv j (voff j) e) + (length (e_key e) - e_shared e)).
(** The next entry to be parsed is [j]. *)
Definition before (s : BlockIter) (j : nat) : Prop :=
  good s ∧ restart_index_ s < Z.of_nat nr ∧ cur_entry_idx_ s = Z.of_nat j - 1 ∧
  (∃ eo en, entry_ s = Some (eo, en) ∧ eo + en = Z.of_nat (off j)) ∧
  ((j mod iv)%nat ≠ 0%nat → ∃ p, es !! (j - 1)%nat = Some p ∧ GetKey (raw_key_ s) = Ok (expose (e_key p)) ∧
     (sep = true → value_ s = Some (K + Z.of_nat (voff (j - 1)), slen (e_val p)))).
(** The iterator is on entry [j]. *)
Definition at_entry (s : BlockIter) (j : nat) (e : ent) : Prop :=
  es !! j = Some e ∧ good s ∧ restart_index_ s < Z.of_nat nr ∧ cur_entry_idx_ s = Z.of_nat j ∧
  GetKey (raw_key_ s) = Ok (expose (e_key e)) ∧ entry_ s = Some (Z.of_nat (off j), Z.of_nat (off (S j)) - Z.of_nat (off j)) ∧
  current_ s = Z.of_nat (off j) ∧ value_ s = Some (value_at j e, slen (e_val e)).
(** The iterator is past the last entry, or before the first. *)
Definition finished (s : BlockIter) : Prop := good s ∧ current_ s = K.

Context (Hop : opened).

Lemma keys_end : GetKeysEndOffset b = K ∧ 0 ≤ K < 2 ^ 32 ∧ bi_restarts_ b = slen (keys ++ values) ∧ slen (keys ++ values) ≤ slen d.
Proof.
  destruct (op_layout Hop) as [t Hd]. pose proof (op_size Hop) as Hs. unfold GetKeysEndOffset. rewrite (op_values Hop), (op_restarts Hop).
  unfold slen in *. rewrite Hd, !length_app in *. destruct sep; [rewrite u32_id by lia|simpl in *]; lia.
Qed.
Lemma off_le_keys j : Z.of_nat (off j) ≤ K.
Proof.
  unfold slen. destruct (Nat.le_ge_cases j (length es)).
  - rewrite <-off_all. apply inj_le, off_mono. done.
  - unfold BlockLayout.off. rewrite take_ge by lia. lia.
Qed.
Lemma vals_small : sep = true → Z.of_nat (length (vals es)) < 2 ^ 32.
Proof.
  intros E. destruct (op_layout Hop) as [t Hd]. pose proof (op_size Hop) as Hs. rewrite Hd, E in Hs. unfold slen in Hs. rewrite !length_app in Hs. lia.
Qed.
Lemma off_lt_keys j : (j < length es)%nat → Z.of_nat (off j) < K.
Proof. intros Hj. destruct (lookup_lt_is_Some_2 es j Hj) as [e He]. pose proof (entry_grows sep iv es j e He). pose proof (off_le_keys (S j)). lia. Qed.

Lemma restart_point r : (r < nr)%nat → GetRestartPoint b (Z.of_nat r) = Ok (Z.of_nat (off (r * iv))).
Proof.
  intros Hr. unfold GetRestartPoint. rewrite (op_num Hop), (proj2 (Z.ltb_lt _ _)) by lia. cbn [assert_ res_bind]. rewrite (op_data Hop). cbn [deref res_bind].
  destruct (op_layout Hop) as [t Hd]. destruct keys_end as (_ & HK & Hrs & _). rewrite Hrs.
  set (l := restart_list sep iv es) in *. assert (Hl : l !! r = Some (Z.of_nat (off (r * iv)))).
  { unfold l, restart_list. rewrite list_lookup_fmap, (lookup_seq_lt 0) by done. done. }
  set (F := λ l : list Z, concat (map (EncodeFixed32 true) l)).
  assert (Hsplit : d = (keys ++ values ++ F (take r l)) ++ EncodeFixed32 true (Z.of_nat (off (r * iv))) ++ F (drop (S r) l) ++ t).
  { rewrite Hd. fold l. unfold F. rewrite <-(take_drop_middle l r _ Hl) at 1. rewrite map_app, concat_app. cbn [map concat]. by rewrite <-!app_assoc. }
  assert (Hp : slen (keys ++ values) + Z.of_nat r * 4 = slen (keys ++ values ++ F (take r l))).
  { unfold slen, F. rewrite !length_app, fixed32_array_length, length_take. apply lookup_lt_Some in Hl. lia. }
  rewrite Hp, Hsplit, slice_of_app by done. cbn [res_bind]. pose proof (off_le_keys (r * iv)).
  assert (Hdec : DecodeFixed32 true (EncodeFixed32 true (Z.of_nat (off (r * iv)))) = Z.of_nat (off (r * iv))).
  { unfold DecodeFixed32, EncodeFixed32. rewrite take_ge by (by rewrite length_le_split). apply le_roundtrip. simpl. lia. }
  rewrite Hdec, (op_values Hop). destruct sep; [|done]. by rewrite (proj2 (Z.leb_le _ _)) by lia.
Qed.

(** *** One entry *)
Lemma entry_bytes j e : es !! j = Some e → ∃ rest,
  slice_of d (Z.of_nat (off j)) (K - Z.of_nat (off j)) = Ok (hdr sep iv j (voff j) e ++ drop (e_shared e) (e_key e) ++ rest) ∧
  slice_of d (Z.of_nat (off j + length (hdr sep iv j (voff j) e))) (Z.of_nat (length (e_key e) - e_shared e)) = Ok (drop (e_shared e) (e_key e)) ∧
  slice_of d (value_at j e) (slen (e_val e)) = Ok (e_val e) ∧
  value_at j e + slen (e_val e) ≤ slen (keys ++ values) ∧
  (sep = false → value_at j e + slen (e_val e) = Z.of_nat (off (S j))) ∧
  (sep = true → Z.of_nat (off j + length (hdr sep iv j (voff j) e) + (length (e_key e) - e_shared e)) = Z.of_nat (off (S j))).
Proof.
  intros Hj. destruct (op_layout Hop) as [t Hd]. pose proof (keys_part_entry sep iv es j e Hj) as Hk. unfold enc in Hk. rewrite <-!app_assoc in Hk.
  destruct (op_wf Hop j e Hj) as (Hsh & _). pose proof (off_S sep iv es j e Hj) as HS. unfold enc in HS. rewrite !length_app, length_drop in HS.
  set (R := concat _ ++ t) in Hd. set (P := keys_part sep iv 0 0 (take j es)) in *. set (H := hdr sep iv j (voff j) e) in *. set (D := drop (e_shared e) (e_key e)) in *.
  set (N := keys_part sep iv (S j) _ _) in Hk. assert (HP : Z.of_nat (off j) = slen P) by done.
  exists ((if sep then [] else e_val e) ++ N). split_and!.
  - rewrite HP, Hd. rewrite Hk at 1. rewrite <-!app_assoc. rewrite (app_assoc _ D), (app_assoc _ (if sep then [] else e_val e)), (app_assoc _ N).
    rewrite <-!app_assoc. rewrite (app_assoc H D), (app_assoc (H ++ D)), (app_assoc _ N). rewrite slice_of_app; [by rewrite <-!app_assoc|].
    unfold slen. rewrite Hk, !length_app. lia.
  - replace (Z.of_nat (off j + length H)) with (slen (P ++ H)) by (unfold slen in *; rewrite length_app; lia).
    rewrite Hd. rewrite Hk at 1. rewrite <-!app_assoc. rewrite (app_assoc P H). apply slice_of_app. unfold slen, D. by rewrite length_drop.
  - unfold value_at. destruct sep.
    + pose proof (vals_entry es j e Hj) as Hv. rewrite Hd, Hv.
      replace (slen _ + Z.of_nat (voff j)) with (slen (keys_part true iv 0 0 es ++ vals (take j es))) by (unfold slen, BlockLayout.voff; rewrite length_app; lia).
      rewrite <-!app_assoc. rewrite (app_assoc _ (vals (take j es))). by apply slice_of_app.
    + fold H. replace (Z.of_nat _) with (slen (P ++ H ++ D)) by (unfold slen, D in *; rewrite !length_app, length_drop; lia).
      rewrite Hd. rewrite Hk at 1. rewrite <-!app_assoc. rewrite (app_assoc H D), (app_assoc P). by apply slice_of_app.
  - unfold value_at. unfold slen. rewrite length_app. pose proof (off_le_keys (S j)) as Hle. unfold slen in Hle. destruct sep.
    + pose proof (f_equal length (vals_entry es j e Hj)) as Hv. rewrite !length_app in Hv. unfold BlockLayout.voff. lia.
    + fold H. simpl in *. lia.
  - unfold value_at. destruct sep; [done|]. intros _. fold H. unfold slen. lia.
  - destruct sep; [|done]. intros _. fold H. simpl in HS. lia.
Qed.

(** *** The key of the next entry *)
Lemma TrimAppend_in_buf k n ns k' : TrimAppend fresh k n ns = Ok k' → key_ k' = InBuf.
Proof. unfold TrimAppend. intros H. resolve H as _. resolve H as _. resolve H as _. by injection H as <-. Qed.
Lemma SetKeyImpl_ptr k key copy k' : SetKeyImpl fresh k key copy = Ok k' → key_ k' ≠ InSecondary.
Proof. unfold SetKeyImpl. destruct copy; intros H; [resolve H as _; resolve H as _|]; by injection H as <-. Qed.
Lemma set_key_raw s k key : raw_ok k → (kd = Data → 8 ≤ length key)%nat → raw_key_ s = k → base s = b →
  ∃ k', PadKey fresh s key = Ok k' ∧ raw_ok k' ∧ GetKey k' = Ok (expose key).
Proof.
  intros (Hk & Hu & Hsec) H8 Hr Hb. unfold PadKey, expose. rewrite Hb, Hr. destruct (pad_min_timestamp_ b) eqn:Ep.
  - destruct (op_pad Hop Ep) as [HD Hts]. unfold SetKeyWithPaddedMinTimestamp. rewrite Hts, Hu. unfold is_meta. rewrite HD. cbn [Nat.eqb assert_ res_bind].
    unfold kNumInternalBytes. rewrite (proj2 (Nat.leb_le _ _) (H8 HD)). cbn [assert_ res_bind].
    destruct (SetKeySlices_spec fresh fresh_length k [take (length key - 8) key; replicate 8 Byte.x00; drop (length key - 8) key] (length key + 8) Hk) as (k' & -> & Hk' & Hg & Hu').
    + simpl. lia.
    + cbn [concat]. rewrite !length_app, length_take, length_drop, length_replicate. specialize (H8 HD). simpl. lia.
    + exists k'. split; [done|]. split; [split_and!; [done|rewrite Hu', Hu; unfold is_meta; by rewrite HD|congruence]|].
      rewrite Hg. cbn [concat]. by rewrite app_nil_r.
  - destruct (SetKeyImpl_spec fresh fresh_length k key false Hk) as (k' & Hs & Hk' & Hg & Hu'). exists k'. split; [done|]. split; [|done].
    split_and!; [done|by rewrite Hu'|]. intros _. unfold SetKeyImpl in Hs. injection Hs as <-. done.
Qed.
Lemma expose_length k : (length k ≤ length (expose k))%nat.
Proof. unfold expose, padded. destruct (pad_min_timestamp_ b); [|done]. rewrite !length_app, length_take, length_drop. lia. Qed.

Lemma key_step s j e : before s j → es !! j = Some e →
  (e_shared e ≤ Size (raw_key_ s))%nat ∧
  ∃ k, (if Z.of_nat (e_shared e) =? 0 then PadKey fresh s (drop (e_shared e) (e_key e))
        else if pad_min_timestamp_ b then TrimAppendWithTimestamp fresh (raw_key_ s) (e_shared e) (drop (e_shared e) (e_key e)) (ts_sz_ b)
        else TrimAppend fresh (raw_key_ s) (e_shared e) (drop (e_shared e) (e_key e))) = Ok k ∧ raw_ok k ∧ GetKey k = Ok (expose (e_key e)).
Proof.
  intros ((Hb & Hst & (Hk & Hu & Hsec) & Hri) & _ & _ & _ & Hprev) Hj. destruct (op_wf Hop j e Hj) as (Hle & Hkl & _ & H0 & Hsh).
  assert (H8 : (kd = Data → 8 ≤ length (e_key e))%nat).
  { intros HD. pose proof (op_keys Hop HD) as HF. rewrite Forall_forall in HF. by eapply HF, list_elem_of_lookup_2. }
  destruct (Z.eqb_spec (Z.of_nat (e_shared e)) 0) as [E|E].
  - split; [lia|]. replace (e_shared e) with 0%nat by lia. rewrite drop_0. by apply (set_key_raw s (raw_key_ s)).
  - destruct (Hsh ltac:(lia)) as (p & Hp & Hj0 & Hlp & Htk). destruct (Hprev ltac:(intros Hm; apply H0 in Hm; lia)) as (p' & Hp' & Hg & _).
    rewrite Hp in Hp'. injection Hp' as <-. destruct (getkey_ok _ Hk) as (m & _ & Hg' & Hlm). rewrite Hg in Hg'. injection Hg' as Hg'.
    rewrite <-Hg' in Hlm. pose proof (expose_length (e_key p)) as Hel. unfold Size. split; [lia|].
    assert (Hjoin : take (e_shared e) (e_key p) ++ drop (e_shared e) (e_key e) = e_key e) by (rewrite Htk; apply take_drop).
    destruct (pad_min_timestamp_ b) eqn:Ep.
    + destruct (op_pad Hop Ep) as [HD Hts]. rewrite Hts. assert (H8p : (8 ≤ length (e_key p))%nat).
      { pose proof (op_keys Hop HD) as HF. rewrite Forall_forall in HF. by eapply HF, list_elem_of_lookup_2. }
      unfold expose in Hg. rewrite Ep in Hg. unfold padded in Hg. destruct (op_wf Hop _ p Hp) as (_ & Hpl & _). unfold slen in Hkl, Hpl.
      destruct (TrimAppendWithTimestamp_spec fresh fresh_length (raw_key_ s) (take (length (e_key p) - 8) (e_key p)) (replicate 8 Byte.x00)
        (drop (length (e_key p) - 8) (e_key p)) (e_shared e) (drop (e_shared e) (e_key e))) as (k & Ht & Hk' & Hg2 & Hu2); try done.
      * rewrite Hu. unfold is_meta. by rewrite HD.
      * rewrite length_drop. lia.
      * rewrite take_drop. done.
      * rewrite length_drop. specialize (H8 HD). lia.
      * rewrite length_take, length_drop. lia.
      * exists k. split; [done|]. rewrite take_drop, Hjoin in Hg2. split; [|unfold expose; by rewrite Ep].
        split_and!; [done|unfold is_meta; by rewrite HD|congruence].
    + unfold expose in Hg. rewrite Ep in Hg. destruct (TrimAppend_spec fresh fresh_length (raw_key_ s) (e_shared e) (drop (e_shared e) (e_key e)) (e_key p) Hk
        (Hsec eq_refl) Hg Hlp) as (k & Ht & Hk' & Hg2 & Hu2).
      exists k. split; [done|]. rewrite Hjoin in Hg2. split; [|unfold expose; by rewrite Ep]. split_and!; [done|by rewrite Hu2|].
      intros _. by rewrite (TrimAppend_in_buf _ _ _ _ Ht).
Qed.

(** *** Parsing *)
Lemma advance_restart_spec fuel cur ri : 0 ≤ ri < Z.of_nat nr → Z.of_nat nr - ri ≤ Z.of_nat fuel →
  ∃ ri', advance_restart fuel b cur ri = Ok ri' ∧ 0 ≤ ri' < Z.of_nat nr.
Proof.
  revert ri. induction fuel as [|fuel IH]; intros ri Hri Hf; [lia|]. cbn [advance_restart]. rewrite (op_num Hop).
  destruct (Z.ltb_spec (ri + 1) (Z.of_nat nr)) as [Hlt|Hge]; [|by exists ri].
  replace (ri + 1) with (Z.of_nat (Z.to_nat (ri + 1))) by lia. rewrite restart_point by lia. cbn [res_bind].
  destruct (_ <? cur); [|by exists ri]. apply IH; lia.
Qed.
Lemma next_offset s j : before s j → NextEntryOffset s = Ok (Z.of_nat (off j)).
Proof.
  intros (_ & _ & _ & (eo & en & He & Hsum) & _). unfold NextEntryOffset. rewrite He, Hsum. pose proof (off_le_keys j). destruct keys_end as (_ & HK & _).
  by rewrite u32_id by lia.
Qed.

Lemma at_entry_intro s j e n :
  es !! j = Some e → base s = b → status_ s = OK → raw_ok (raw_key_ s) → GetKey (raw_key_ s) = Ok (expose (e_key e)) → 0 ≤ restart_index_ s < Z.of_nat nr →
  cur_entry_idx_ s = Z.of_nat j → current_ s = Z.of_nat (off j) → value_ s = Some (value_at j e, slen (e_val e)) →
  entry_ s = Some (Z.of_nat (off j), n) → Z.of_nat (off j) + n = Z.of_nat (off (S j)) → at_entry s j e.
Proof. intros Hj Hb Hst Hraw Hk [Hr1 Hr2] Hi Hc Hv He Hn. unfold at_entry, good. rewrite He. replace n with (Z.of_nat (off (S j)) - Z.of_nat (off j)) by lia. auto 12. Qed.

(** The first entry of a restart interval of a block with separate values carries its value's offset. *)
Abbreviation vs := (if sep then Some K else None).
Definition first_in (j : nat) : bool := sep && (j mod iv =? 0)%nat.
Lemma first_flag (j : nat) :
  match vs with None => false | Some _ => Z.of_nat j mod bi_interval_ b =? 0 end = first_in j ∧
  match vs with None => true | Some _ => 0 <? bi_interval_ b end = true.
Proof.
  pose proof (op_iv Hop) as Hi. unfold first_in. destruct sep eqn:Es; [|done]. destruct (op_interval Hop) as [->|[? _]]; [|congruence].
  split; [by apply mod_of_nat|apply Z.ltb_lt; lia].
Qed.
Lemma entry_header j e rest : es !! j = Some e →
  DecodeEntry (hdr sep iv j (voff j) e ++ drop (e_shared e) (e_key e) ++ rest) (first_in j) =
  Ok (Some (Z.of_nat (e_shared e), Z.of_nat (length (e_key e) - e_shared e), slen (e_val e), if first_in j then Z.of_nat (voff j) else 0, drop (e_shared e) (e_key e) ++ rest)).
Proof.
  intros Hj. destruct (op_wf Hop j e Hj) as (Hsh & Hkl & Hvl & _). unfold hdr. fold (first_in j). apply DecodeEntry_encoded; unfold slen in *; try lia.
  intros Hf. unfold first_in in Hf. apply andb_true_iff in Hf as [Es _]. pose proof (vals_small Es). pose proof (voff_bound es j). lia.
Qed.
Lemma entry_end j e : es !! j = Some e →
  Z.of_nat (off (S j)) = Z.of_nat (off j) + slen (hdr sep iv j (voff j) e) + Z.of_nat (length (e_key e) - e_shared e) + match vs with Some _ => 0 | None => slen (e_val e) end.
Proof.
  intros Hj. pose proof (off_S sep iv es j e Hj) as HS. unfold enc in HS. rewrite !length_app, length_drop in HS. unfold slen. destruct sep; simpl in HS; lia.
Qed.
Lemma next_value s j e : before s j → sep = true →
  (if first_in j then Ok (K + (if first_in j then Z.of_nat (voff j) else 0))
   else match value_ s with None => Fail Undefined | Some (vo, vn) => let* _ := assert_ (K <=? vo) in Ok (vo + vn) end) = Ok (value_at j e).
Proof.
  intros (_ & _ & _ & _ & Hprev) Es. unfold value_at, first_in. rewrite Es. cbn [andb]. destruct (Nat.eqb_spec (j mod iv) 0) as [|Em]; [done|].
  destruct (Hprev Em) as (p & Hp & _ & Hv). rewrite (Hv Es), Es. rewrite (proj2 (Z.leb_le _ _)) by lia. cbn [assert_ res_bind]. f_equal.
  pose proof (voff_S es _ p Hp) as HS. replace (S (j - 1)) with j in HS by (destruct j; [by rewrite Nat.Div0.mod_0_l in Em|lia]). unfold slen. lia.
Qed.
Lemma next_restart cur ri (zero : bool) : 0 ≤ ri < Z.of_nat nr →
  ∃ ri', (if zero then advance_restart (S (Z.to_nat (num_restarts_ b))) b cur ri else Ok ri) = Ok ri' ∧ 0 ≤ ri' < Z.of_nat nr.
Proof. intros Hri. destruct zero; [|by eexists]. apply advance_restart_spec; [done|]. rewrite (op_num Hop). lia. Qed.

Lemma ParseNextKey_entry strict s j e : before s j → es !! j = Some e →
  ∃ sh s', ParseNextKey fresh strict s = Ok (true, sh, s') ∧ at_entry s' j e.
Proof.
  intros Hbef Hj. destruct (key_step s j e Hbef Hj) as (Hsz & k & Hk & Hrk & Hgk). pose proof Hbef as ((Hb & Hst & Hraw & Hri) & Hrn & Hidx & _).
  destruct keys_end as (HE & HK & Hrs & _). pose proof (off_lt_keys j (lookup_lt_Some _ _ _ Hj)) as Hlt. pose proof (off_le_keys (S j)) as HleS.
  destruct (entry_bytes j e Hj) as (rest & Hs1 & Hs2 & _ & Hs4 & _). destruct (op_wf Hop j e Hj) as (Hsh & _ & _ & H0 & _). destruct (first_flag j) as [Hfirst Hivok].
  unfold ParseNextKey. rewrite (next_offset s j Hbef). cbn [res_bind]. rewrite Hb, HE, Hidx. rewrite (proj2 (Z.leb_gt _ _)) by lia. rewrite (op_data Hop). cbn [deref res_bind].
  replace (Z.of_nat j - 1 + 1) with (Z.of_nat j) by lia. rewrite (proj2 (Z.leb_le 0 _)) by lia. cbn [assert_ res_bind]. rewrite (op_values Hop), Hivok, Hfirst.
  cbn [assert_ res_bind]. rewrite Hs1. cbn [res_bind]. rewrite (entry_header j e rest Hj). cbn [res_bind]. pose proof (entry_end j e Hj) as HS.
  pose proof (slice_of_length _ _ _ _ Hs1 ltac:(lia)) as Hl1. pose proof (next_value s j e Hbef) as Hnv. unfold first_in in *.
  set (H := hdr sep iv j (voff j) e) in *. set (D := drop (e_shared e) (e_key e)) in *.
  assert (HlD : slen D = Z.of_nat (length (e_key e) - e_shared e)) by (unfold slen, D; by rewrite length_drop).
  assert (Hl2 : slen (H ++ D ++ rest) = slen H + slen (D ++ rest)) by (unfold slen; rewrite length_app; lia).
  assert (Hv0 : 0 ≤ match vs with Some _ => 0 | None => slen (e_val e) end) by (destruct sep; unfold slen; lia).
  change (raw_key_ (set_pos _ _ _ _ _)) with (raw_key_ s). change (restart_index_ (set_pos _ _ _ _ _)) with (restart_index_ s).
  change (PadKey fresh (set_pos _ _ _ _ _)) with (PadKey fresh s). rewrite <-!HlD in *. rewrite (proj2 (Z.ltb_ge (Z.of_nat (Size _)) _)) by lia. cbn [orb].
  rewrite (u32_id (slen (D ++ rest))), (u32_id (slen D + _)) by (unfold slen in *; lia). rewrite (proj2 (Z.ltb_ge (slen (D ++ rest)) _)), andb_false_r by lia.
  assert (Hz : match vs with Some _ => negb (Z.of_nat j mod bi_interval_ b =? 0) || (Z.of_nat (e_shared e) =? 0) | None => true end = true).
  { destruct sep; [|done]. rewrite Hfirst. cbn [andb]. destruct (Nat.eqb_spec (j mod iv) 0) as [Em|]; [|done]. by rewrite (H0 Em). }
  rewrite Hz. cbn [assert_ res_bind]. replace (slen (H ++ D ++ rest) - slen (D ++ rest)) with (slen H) by lia.
  replace (Z.of_nat (off j) + slen H) with (Z.of_nat (off j + length H)) by (unfold slen; lia). rewrite Hs2. cbn [res_bind]. rewrite Nat2Z.id, Hk. cbn [res_bind].
  destruct (next_restart (Z.of_nat (off j)) (restart_index_ s) (Z.of_nat (e_shared e) =? 0) (conj Hri Hrn)) as (ri & -> & Hri'). cbn [res_bind].
  change (value_ (set_raw _ _)) with (value_ s). set (w := vs) in *. destruct (bool_dec sep true) as [Es|Es%not_true_is_false].
  - assert (Ew : w = Some K) by (unfold w; by rewrite Es). rewrite Ew in *. rewrite (Hnv Es). cbn [res_bind]. rewrite Hrs, (proj2 (Z.ltb_ge _ _)), andb_false_r by done.
    rewrite (proj2 (Z.leb_le _ _)) by done. cbn [assert_ res_bind]. eexists _, _. split; [done|]. eapply at_entry_intro; try done. lia.
  - assert (Ew : w = None) by (unfold w; by rewrite Es). rewrite Ew in *. cbn [fst snd]. assert (Hva : Z.of_nat (off j) + (slen H + slen D) = value_at j e) by (unfold value_at; fold H; rewrite Es; unfold slen in *; lia).
    rewrite Hva, Hrs, (proj2 (Z.leb_le _ _)) by done. cbn [assert_ res_bind]. eexists _, _. split; [done|]. eapply at_entry_intro; try done. lia.
Qed.

Lemma ParseKey_entry s j e : before s j → es !! j = Some e → ∃ sh s', ParseKey fresh kd s = Ok (true, sh, s') ∧ at_entry s' j e.
Proof.
  intros Hb Hj. destruct kd eqn:Ek; cbn [ParseKey]; [|by apply ParseNextKey_entry].
  destruct (ParseNextKey_entry false s j e Hb Hj) as (sh & s' & -> & Hat). cbn [res_bind]. unfold global_key_ok.
  pose proof Hat as (_ & (Hbase & _) & _). rewrite Hbase, (op_global Hop), Z.eqb_refl. cbn [res_bind]. by eexists _, _.
Qed.
Lemma ParseKey_end s : before s (length es) → ∃ s', ParseKey fresh kd s = Ok (false, false, s') ∧ finished s' ∧ raw_key_ s' = raw_key_ s.
Proof.
  intros Hbef. pose proof (next_offset s _ Hbef) as Hno. destruct Hbef as ((Hb & Hst & Hraw & Hri) & _). destruct keys_end as (HE & HK & _).
  assert (Hp : ∀ strict, ∃ s', ParseNextKey fresh strict s = Ok (false, false, s') ∧ finished s' ∧ raw_key_ s' = raw_key_ s).
  { intros strict. unfold ParseNextKey. rewrite Hno. cbn [res_bind]. rewrite off_all, Hb, HE. rewrite (proj2 (Z.leb_le _ _)) by (unfold slen; lia).
    eexists. split; [done|]. split; [|done]. split; [|done]. split_and!; try done. cbn. rewrite (op_num Hop). lia. }
  destruct kd; cbn [ParseKey]; [|apply Hp]. destruct (Hp false) as (s' & -> & Hf). by eexists.
Qed.
Lemma at_before s j e : at_entry s j e → before s (S j).
Proof.
  intros (Hj & Hg & Hr & Hi & Hk & He & Hc & Hv). split_and!; try done; [lia| |].
  - eexists _, _. split; [exact He|]. lia.
  - intros _. exists e. replace (S j - 1)%nat with j by lia. split_and!; try done. intros E. rewrite Hv. unfold value_at. by rewrite E.
Qed.

Lemma off_ge j : (j ≤ length es)%nat → (3 * j ≤ off j)%nat.
Proof.
  induction j as [|j IH]; intros Hj; [lia|]. destruct (lookup_lt_is_Some_2 es j ltac:(lia)) as [e He].
  pose proof (entry_grows sep iv es j e He). specialize (IH ltac:(lia)). lia.
Qed.
Lemma restart_entry r : (r < nr)%nat → (r * iv ≤ length es)%nat ∧ (0 < length es → r * iv < length es)%nat.
Proof.
  intros Hr. pose proof (op_iv Hop) as Hi. destruct (length es) as [|n]; [rewrite num_restarts_0 in Hr by done; lia|].
  apply (restart_in iv Hi r (S n)) in Hr; lia.
Qed.
Lemma raw_clear k : raw_ok k → raw_ok (Clear k).
Proof.
  intros ((H1 & H2 & H3 & H4 & m & Hm & Hl) & Hu & Hs). split_and!; try done. split_and!; try done. exists m. split; [done|]. simpl. lia.
Qed.
Lemma seek_restart s r : good s → (r < nr)%nat →
  ∃ s', SeekToRestartPoint s (Z.of_nat r) = Ok s' ∧ before s' (r * iv) ∧ restart_index_ s' = Z.of_nat r.
Proof.
  intros (Hb & Hst & Hraw & Hri) Hr. unfold SeekToRestartPoint. change (base (set_raw s _)) with (base s). rewrite Hb, restart_point by done. cbn [res_bind].
  eexists. split; [done|]. split; [|done]. pose proof (op_iv Hop) as Hi. destruct (restart_entry r Hr) as [Hle _]. pose proof (off_ge _ Hle).
  pose proof (off_le_keys (r * iv)). destruct keys_end as (_ & HK & _).
  assert (Hs32 : s32 (Z.of_nat r * bi_interval_ b) = Z.of_nat (r * iv)).
  { destruct (op_interval Hop) as [->|[_ H1]]; [|replace r with 0%nat by lia; done]. unfold s32. rewrite u32_id by lia. rewrite (proj2 (Z.ltb_lt _ _)) by lia. lia. }
  split_and!; try done; cbn [restart_index_ set_pos set_raw cur_entry_idx_ entry_ raw_key_ base]; try lia.
  - split_and!; [done|done|by apply raw_clear|cbn; lia].
  - eexists _, _. split; [done|]. lia.
  - intros Hm. exfalso. apply Hm. by destruct (divmod_unique iv Hi (r * iv) r 0) as [_ ->]; [lia..|].
Qed.

(** *** What the user sees *)
Definition shown (s : BlockIter) (j : nat) (e : ent) : Prop :=
  at_entry s j e ∧ bi_Valid s = Ok true ∧ bi_key s = Ok (expose (e_key e)) ∧ bi_value s = Ok (e_val e).
Definition done_ (s : BlockIter) : Prop := finished s ∧ bi_Valid s = Ok false ∧ status_ s = OK.
Lemma valid_entry s j e : at_entry s j e → bi_Valid s = Ok true.
Proof.
  intros (Hj & (Hb & Hst & _) & _ & _ & _ & _ & Hc & _). unfold bi_Valid. rewrite Hst, Hb, Hc. destruct keys_end as (-> & _).
  cbn. by rewrite (proj2 (Z.ltb_lt _ _)) by (by apply off_lt_keys, lookup_lt_is_Some_1).
Qed.
Lemma valid_finished s : finished s → bi_Valid s = Ok false.
Proof. intros ((Hb & Hst & _) & Hc). unfold bi_Valid. rewrite Hst, Hb, Hc. destruct keys_end as (-> & _). cbn. by rewrite Z.ltb_irrefl. Qed.
Lemma update_entry s j e : at_entry s j e → ∃ s', UpdateKey fresh Verify s = Ok s' ∧ shown s' j e.
Proof.
  intros Hat. pose proof (valid_entry s j e Hat) as Hv. pose proof Hat as (Hj & (Hb & Hst & (Hk & Hu & _) & _) & _ & _ & Hg & _ & _ & Hval).
  destruct (entry_bytes j e Hj) as (_ & _ & _ & Hs & _). unfold UpdateKey. change (bi_Valid (set_shown s _ _ _)) with (bi_Valid s). rewrite Hv. cbn [res_bind negb].
  change (base (set_shown s _ _ _)) with (base s). rewrite Hb, (op_global Hop), Z.eqb_refl. cbn [assert_ res_bind].
  assert (Hkey : GetUserKey (raw_key_ s) = Ok (expose (e_key e)) ∧ IsUserKey (raw_key_ s) = true ∨
                 GetInternalKey (raw_key_ s) = Ok (expose (e_key e)) ∧ IsUserKey (raw_key_ s) = false).
  { unfold GetUserKey, GetInternalKey, IsUserKey. destruct (is_user_key_ (raw_key_ s)); cbn [negb assert_ res_bind]; auto. }
  assert (Hsee : ∀ buf p, shown (set_shown s buf (expose (e_key e)) p) j e).
  { intros buf p. split; [done|]. unfold bi_key, bi_value. change (bi_Valid (set_shown s _ _ _)) with (bi_Valid s). rewrite Hv. cbn [res_bind assert_].
    change (base (set_shown s _ _ _)) with (base s). change (value_ (set_shown s _ _ _)) with (value_ s). rewrite Hb, (op_data Hop), Hval. cbn [deref res_bind].
    by rewrite Hs. }
  destruct Hkey as [[Hkey ->]|[Hkey ->]]; rewrite Hkey; cbn [res_bind];
    cbn [base set_shown]; rewrite Hb, (op_checksum Hop); eexists; (split; [done|]); apply Hsee.
Qed.
Lemma update_finished s : finished s → ∃ s', UpdateKey fresh Verify s = Ok s' ∧ done_ s'.
Proof.
  intros Hf. pose proof (valid_finished s Hf) as Hv. unfold UpdateKey. change (bi_Valid (set_shown s _ _ _)) with (bi_Valid s). rewrite Hv. cbn [res_bind negb].
  eexists. split; [done|]. split; [done|]. split; [done|]. by destruct Hf as ((_ & ? & _) & _).
Qed.

(** *** Positions: on entry [j], or past the last entry *)
Definition pos (s : BlockIter) (j : nat) : Prop := match es !! j with Some e => at_entry s j e | None => finished s end.
Definition shown_pos (s : BlockIter) (j : nat) : Prop := match es !! j with Some e => shown s j e | None => done_ s end.
Lemma parse_pos s j : before s j → (j ≤ length es)%nat → ∃ sh s', ParseKey fresh kd s = Ok (bool_decide (j < length es)%nat, sh, s') ∧ pos s' j.
Proof.
  intros Hb Hj. unfold pos. destruct (es !! j) as [e|] eqn:E.
  - rewrite bool_decide_true by (by eapply lookup_lt_Some). by apply ParseKey_entry.
  - apply lookup_ge_None in E. assert (j = length es) as -> by lia. rewrite bool_decide_false by lia. destruct (ParseKey_end s Hb) as (s' & ? & ? & _). eauto.
Qed.
Lemma next_pos s j : before s j → (j ≤ length es)%nat → ∃ s', NextImpl fresh kd s = Ok s' ∧ pos s' j.
Proof. intros Hb Hj. unfold NextImpl. destruct (parse_pos s j Hb Hj) as (sh & s' & -> & Hp). cbn [res_bind]. eauto. Qed.
Lemma update_pos s j : pos s j → ∃ s', UpdateKey fresh Verify s = Ok s' ∧ shown_pos s' j.
Proof. unfold pos, shown_pos. destruct (es !! j); [apply update_entry|apply update_finished]. Qed.
Lemma valid_pos s j : pos s j → (j ≤ length es)%nat → bi_Valid s = Ok (bool_decide (j < length es)%nat).
Proof.
  unfold pos. intros Hp Hj. destruct (es !! j) eqn:E.
  - rewrite bool_decide_true by (by eapply lookup_lt_Some). by eapply valid_entry.
  - apply lookup_ge_None in E. rewrite bool_decide_false by lia. by apply valid_finished.
Qed.
Lemma pos_good s j : pos s j → good s.
Proof. unfold pos. destruct (es !! j); [by intros (_ & ? & _)|by intros [? _]]. Qed.
Lemma nr_pos : (0 < nr)%nat.
Proof. unfold num_restarts_of. lia. Qed.

(** *** Forward *)
Lemma first_spec s : good s → ∃ s', bi_SeekToFirst fresh Verify kd s = Ok s' ∧ shown_pos s' 0.
Proof.
  intros Hg. unfold bi_SeekToFirst, SeekToFirstImpl. destruct Hg as (Hb & Hg). rewrite Hb, (op_data Hop).
  destruct (seek_restart s 0 (conj Hb Hg) nr_pos) as (s1 & Hs1 & Hb1 & _). change 0 with (Z.of_nat 0). rewrite Hs1. cbn [res_bind].
  destruct (next_pos s1 0 Hb1) as (s2 & -> & Hp); [lia|]. cbn [res_bind]. by apply update_pos.
Qed.
Lemma next_spec s j e : shown s j e → ∃ s', bi_Next fresh Verify kd s = Ok s' ∧ shown_pos s' (S j).
Proof.
  intros [Hat _]. pose proof (at_before s j e Hat) as Hb. destruct Hat as (Hj & _). unfold bi_Next.
  destruct (next_pos s (S j) Hb) as (s2 & -> & Hp); [by apply lookup_lt_Some in Hj|]. cbn [res_bind]. by apply update_pos.
Qed.

(** [for (; it->Valid(); it->Next()) out.push_back({it->key(), it->value()});] *)
Fixpoint scan (fuel : nat) (s : BlockIter) : res (list (bytes * bytes) * BlockIter) :=
  match fuel with
  | O => Fail OutOfFuel
  | S fuel =>
      let* v := bi_Valid s in
      if negb v then Ok ([], s)
      else
        let* k := bi_key s in
        let* v := bi_value s in
        let* s := bi_Next fresh Verify kd s in
        let* (l, s) := scan fuel s in
        Ok ((k, v) :: l, s)
  end.
Definition exposed (l : list ent) : list (bytes * bytes) := map (λ e, (expose (e_key e), e_val e)) l.
Lemma scan_spec fuel s j : shown_pos s j → (j ≤ length es)%nat → (length es - j < fuel)%nat →
  ∃ s', scan fuel s = Ok (exposed (drop j es), s') ∧ done_ s'.
Proof.
  revert s j. induction fuel as [|fuel IH]; intros s j Hs Hj Hf; [lia|]. cbn [scan]. unfold shown_pos in Hs. destruct (es !! j) as [e|] eqn:E.
  - destruct (next_spec s j e Hs) as (s1 & Hn & Hs1). destruct Hs as (_ & -> & -> & ->). cbn [res_bind negb]. rewrite Hn. cbn [res_bind].
    pose proof (lookup_lt_Some _ _ _ E). destruct (IH s1 (S j) Hs1) as (s2 & -> & Hd); [lia..|]. cbn [res_bind]. exists s2. split; [|done].
    by rewrite (drop_S _ _ _ E).
  - destruct Hs as (Hfin & -> & Hst). cbn [res_bind negb]. exists s. apply lookup_ge_None in E. rewrite (drop_ge es) by lia. split; [done|].
    split; [done|]. split; [by apply valid_finished|done].
Qed.

Lemma off_strict i j : (i < j)%nat → (j ≤ length es)%nat → (off i < off j)%nat.
Proof.
  intros Hij Hj. destruct (lookup_lt_is_Some_2 es i ltac:(lia)) as [e He]. pose proof (entry_grows sep iv es i e He).
  pose proof (off_mono sep iv es (S i) j ltac:(lia)). lia.
Qed.
Lemma fuel_enough s : base s = b → (length es < loop_fuel s)%nat.
Proof.
  intros Hb. unfold loop_fuel. rewrite Hb, (op_data Hop). pose proof (off_ge (length es) ltac:(lia)) as H3. rewrite off_all in H3. destruct (op_layout Hop) as [tl Hd].
  pose proof (f_equal length Hd) as Hl. rewrite length_app in Hl. lia.
Qed.

(** *** Counting *)
Lemma count_spec fuel s j c : before s j → (j ≤ length es)%nat → (length es - j < fuel)%nat → 0 ≤ c → c + Z.of_nat (length es - j) < 2 ^ 32 →
  ∃ s', count_while fresh fuel kd K s c = Ok (c + Z.of_nat (length es - j), s').
Proof.
  revert s j c. induction fuel as [|fuel IH]; intros s j c Hb Hj Hf Hc Hmax; [lia|]. cbn [count_while]. rewrite (next_offset s j Hb). cbn [res_bind].
  destruct Hb as ((Hbb & Hst & Hg) & Hb'). rewrite bool_decide_true, andb_true_r by done. destruct (Nat.eq_dec j (length es)) as [->|Hne].
  - rewrite off_all. unfold slen. rewrite Z.ltb_irrefl, Nat.sub_diag, Z.add_0_r. by exists s.
  - rewrite (proj2 (Z.ltb_lt _ _)) by (apply off_lt_keys; lia). destruct (next_pos s j) as (s1 & -> & Hp); [done..|]. cbn [res_bind].
    destruct (lookup_lt_is_Some_2 es j ltac:(lia)) as [e He]. unfold pos in Hp. rewrite He in Hp. rewrite u32_id by lia.
    destruct (IH s1 (S j) (c + 1) (at_before _ _ _ Hp)) as (s2 & ->); [lia..|exists s2; do 2 f_equal; lia].
Qed.
Lemma number_spec s : kd = Data → good s → ∃ s', NumberOfKeys fresh kd (Z.of_nat iv) s = Ok (Z.of_nat (length es), s').
Proof.
  intros HD Hg. pose proof Hg as (Hb & _). unfold NumberOfKeys. rewrite HD. rewrite Hb, (op_data Hop), (op_num Hop). pose proof nr_pos as Hn.
  rewrite (proj2 (Z.eqb_neq _ _)) by lia. replace (Z.of_nat nr - 1) with (Z.of_nat (nr - 1)) by lia.
  destruct (seek_restart s (nr - 1) Hg ltac:(lia)) as (s1 & -> & Hb1 & _). cbn [res_bind]. destruct (restart_entry (nr - 1) ltac:(lia)) as [Hle _].
  pose proof Hb1 as ((Hbb & _) & _). rewrite Hbb. destruct keys_end as (-> & HK & _). pose proof (fuel_enough s1 Hbb). pose proof (off_ge (length es) ltac:(lia)) as H3.
  rewrite off_all in H3. unfold slen in HK. replace (Z.of_nat (nr - 1) * Z.of_nat iv) with (Z.of_nat ((nr - 1) * iv)) by lia.
  generalize dependent ((nr - 1) * iv)%nat. intros x Hb1 Hle. rewrite u32_id by lia.
  destruct (count_spec (loop_fuel s1) s1 x (Z.of_nat x) Hb1) as (s2 & Hc); [lia..|]. rewrite HD in Hc. rewrite Hc. exists s2. do 2 f_equal. lia.
Qed.

Lemma count_to_spec fuel s j e m : at_entry s j e → (j < m ≤ length es)%nat → (m - j ≤ fuel)%nat → Z.of_nat (length es) < 2 ^ 32 →
  ∃ s', count_to fresh fuel kd (Z.of_nat (off m)) s (Z.of_nat (S j)) = Ok (Z.of_nat m, s').
Proof.
  revert s j e. induction fuel as [|fuel IH]; intros s j e Hat Hj Hf Hmax; [lia|]. cbn [count_to]. pose proof (at_before s j e Hat) as Hb. rewrite (next_offset s _ Hb). cbn [res_bind].
  pose proof (valid_entry s j e Hat) as Hv. pose proof Hat as (_ & (_ & Hst & _) & _). rewrite bool_decide_true, andb_true_r by done. destruct (Nat.eq_dec (S j) m) as [<-|Hne].
  - rewrite Z.ltb_irrefl. by exists s.
  - pose proof (off_strict (S j) m ltac:(lia) ltac:(lia)). rewrite (proj2 (Z.ltb_lt _ _)) by lia. rewrite Hv. cbn [res_bind assert_].
    destruct (next_pos s (S j) Hb ltac:(lia)) as (s1 & -> & Hp). cbn [res_bind]. destruct (lookup_lt_is_Some_2 es (S j) ltac:(lia)) as [e1 He]. unfold pos in Hp. rewrite He in Hp.
    rewrite u32_id by lia. replace (Z.of_nat (S j) + 1) with (Z.of_nat (S (S j))) by lia. apply (IH s1 (S j) e1 Hp); lia.
Qed.
Lemma restart_interval_spec s : kd = Data → good s → ∃ s', GetRestartInterval fresh kd s = Ok (if (nr <=? 1)%nat then 0 else Z.of_nat iv, s').
Proof.
  intros HD Hg. pose proof Hg as (Hb & _). unfold GetRestartInterval. rewrite HD, Hb, (op_data Hop), (op_num Hop). destruct (Nat.leb_spec nr 1) as [H1|H1].
  { rewrite (proj2 (Z.leb_le _ _)) by lia. by exists s. }
  rewrite (proj2 (Z.leb_gt _ _)) by lia. pose proof (op_iv Hop) as Hiv. destruct (restart_entry 1 H1) as [Hle _]. rewrite Nat.mul_1_l in Hle.
  unfold SeekToFirstImpl. rewrite Hb, (op_data Hop). destruct (seek_restart s 0 Hg nr_pos) as (s1 & Hs1 & Hb1 & _). change (Z.of_nat 0) with 0 in Hs1. rewrite Hs1. cbn [res_bind].
  destruct (next_pos s1 (0 * iv) Hb1 ltac:(lia)) as (s2 & Hs2 & Hp). rewrite HD in Hs2. rewrite Hs2. cbn [res_bind]. cbn [Nat.mul] in Hp.
  pose proof (pos_good s2 0 Hp) as (Hb2 & _). rewrite Hb2. change 1 with (Z.of_nat 1). rewrite (restart_point 1 H1). cbn [res_bind]. rewrite Nat.mul_1_l.
  destruct (lookup_lt_is_Some_2 es 0 ltac:(lia)) as [e He]. unfold pos in Hp. rewrite He in Hp. pose proof (fuel_enough s2 Hb2) as Hf. pose proof (off_ge (length es) ltac:(lia)) as H3.
  rewrite off_all in H3. destruct keys_end as (_ & HK & _). unfold slen in HK. destruct (count_to_spec (loop_fuel s2) s2 0 e iv Hp) as (s3 & Hc); [lia..|]. rewrite HD in Hc. eauto.
Qed.

(** *** Backward *)
Lemma skip_spec fuel s j m : before s j → (j < m ≤ length es)%nat → (m - j ≤ fuel)%nat →
  ∃ s' e, skip_to fresh fuel kd (Z.of_nat (off m)) s = Ok s' ∧ at_entry s' (m - 1) e.
Proof.
  revert s j. induction fuel as [|fuel IH]; intros s j Hb Hj Hf; [lia|]. cbn [skip_to]. destruct (lookup_lt_is_Some_2 es j ltac:(lia)) as [e He].
  destruct (ParseKey_entry s j e Hb He) as (sh & s1 & -> & Hat). cbn [res_bind]. pose proof (at_before s1 j e Hat) as Hb1. rewrite (next_offset s1 _ Hb1). cbn [res_bind].
  destruct (Nat.eq_dec (S j) m) as [<-|Hne].
  - rewrite Z.ltb_irrefl. exists s1, e. split; [done|]. by replace (S j - 1)%nat with j by lia.
  - pose proof (off_strict (S j) m ltac:(lia) ltac:(lia)). rewrite (proj2 (Z.ltb_lt _ _)) by lia. apply (IH s1 (S j) Hb1); lia.
Qed.
Lemma last_pos s : good s → ∃ s', SeekToLastImpl fresh kd s = Ok s' ∧ pos s' (length es - 1).
Proof.
  intros Hg. pose proof Hg as (Hb & _). unfold SeekToLastImpl. rewrite Hb, (op_data Hop), (op_num Hop). pose proof nr_pos as Hn.
  replace (Z.of_nat nr - 1) with (Z.of_nat (nr - 1)) by lia. destruct (seek_restart s (nr - 1) Hg ltac:(lia)) as (s1 & -> & Hb1 & _). cbn [res_bind].
  pose proof Hb1 as ((Hbb & _) & _). rewrite Hbb, (op_num Hop). destruct keys_end as (-> & _). pose proof (fuel_enough s1 Hbb) as Hf.
  assert (Has : match kd with Meta => assert_ (1 <=? Z.of_nat nr) | Data => Ok tt end = Ok tt) by (destruct kd; [done|]; by rewrite (proj2 (Z.leb_le _ _)) by lia).
  rewrite Has. cbn [res_bind]. destruct (restart_entry (nr - 1) ltac:(lia)) as [Hle Hlt]. replace (slen keys) with (Z.of_nat (off (length es))) by (by rewrite off_all).
  destruct (Nat.eq_dec (length es) 0%nat) as [E|E].
  - destruct (loop_fuel s1) as [|fuel]; [lia|]. cbn [skip_to]. 
    assert (Hb0 : before s1 (length es)) by (rewrite E; rewrite E in Hle; apply Nat.le_0_r in Hle; by rewrite E, Hle in Hb1).
    destruct (ParseKey_end s1 Hb0) as (s2 & -> & Hfin & _). cbn [res_bind]. exists s2. split; [done|]. unfold pos. by rewrite lookup_ge_None_2 by lia.
  - specialize (Hlt ltac:(lia)). generalize dependent ((nr - 1) * iv)%nat. intros x Hb1 Hle Hlt. destruct (skip_spec (loop_fuel s1) s1 _ (length es) Hb1) as (s2 & e & -> & Hat); [lia..|]. exists s2. split; [done|]. unfold pos.
    pose proof Hat as (-> & _). done.
Qed.
Lemma last_spec s : good s → ∃ s', bi_SeekToLast fresh Verify kd s = Ok s' ∧ shown_pos s' (length es - 1).
Proof. intros Hg. unfold bi_SeekToLast. destruct (last_pos s Hg) as (s1 & -> & Hp). cbn [res_bind]. by apply update_pos. Qed.

Lemma back_spec fuel j ri : (j < length es)%nat → (ri < nr)%nat → (ri < fuel)%nat →
  ∃ o, back_restart fuel b (Z.of_nat (off j)) (Z.of_nat ri) = Ok o ∧
    match o with None => j = 0%nat | Some r => ∃ r', r = Z.of_nat r' ∧ (r' < nr ∧ r' * iv < j)%nat end.
Proof.
  intros Hj. revert ri. induction fuel as [|fuel IH]; intros ri Hri Hf; [lia|]. cbn [back_restart]. rewrite restart_point by done. cbn [res_bind].
  destruct (restart_entry ri Hri) as [Hle _]. destruct (Z.leb_spec (Z.of_nat (off j)) (Z.of_nat (off (ri * iv)))) as [Hge|Hlt].
  - destruct (Z.eqb_spec (Z.of_nat ri) 0) as [E|E].
    + eexists. split; [done|]. replace (ri * iv)%nat with 0%nat in Hge by nia. destruct j as [|j]; [done|]. pose proof (off_strict 0 (S j) ltac:(lia) ltac:(lia)). lia.
    + replace (Z.of_nat ri - 1) with (Z.of_nat (ri - 1)) by lia. apply IH; lia.
  - eexists. split; [done|]. exists ri. split; [done|]. split; [done|]. destruct (Nat.lt_ge_cases (ri * iv) j) as [|Hge]; [done|].
    pose proof (off_mono sep iv es j (ri * iv) Hge). lia.
Qed.
(** The position before entry [j]. *)
Definition prev_pos (s : BlockIter) (j : nat) : Prop := match j with O => finished s | S i => pos s i end.
Lemma rewound s j e idx : at_entry s j e → prev_pos (set_pos s (entry_ s) (num_restarts_ (base s)) (GetKeysEndOffset (base s)) idx) 0.
Proof.
  intros (_ & (Hb & Hst & Hraw & Hri) & _). destruct keys_end as (HE & _). split; [|cbn; by rewrite Hb]. split_and!; try done. cbn. rewrite Hb, (op_num Hop). lia.
Qed.
Lemma back_fuel_enough s : 0 ≤ restart_index_ s → ∃ ri, restart_index_ s = Z.of_nat ri ∧ (ri < back_fuel s)%nat.
Proof. intros H. exists (Z.to_nat (restart_index_ s)). unfold back_fuel. lia. Qed.
Lemma at_idx s j e : at_entry s j e → set_idx s (Z.of_nat j) = s.
Proof. intros (_ & _ & _ & Hi & _). unfold set_idx. rewrite <-Hi. by destruct s. Qed.
Lemma MetaPrevImpl_spec s j e : kd = Meta → at_entry s j e → ∃ s', MetaPrevImpl fresh s = Ok s' ∧ prev_pos s' j.
Proof.
  intros HM Hat. pose proof Hat as (Hj & Hg & Hrn & Hidx & _ & _ & Hc & _). pose proof Hg as (Hb & _ & _ & Hri). unfold MetaPrevImpl. rewrite (valid_entry s j e Hat). cbn [res_bind assert_].
  apply lookup_lt_Some in Hj. destruct (back_fuel_enough s Hri) as (ri & Er & Hf). rewrite Er in Hrn. rewrite Er, Hb, Hc.
  destruct (back_spec (back_fuel s) j ri Hj ltac:(lia) Hf) as (o & -> & Ho). cbn [res_bind]. destruct o as [r|].
  - destruct Ho as (r' & -> & Hr & Hlt). destruct (seek_restart s r' Hg Hr) as (s1 & -> & Hb1 & _). cbn [res_bind].
    pose proof Hb1 as ((Hbb & _) & _). pose proof (fuel_enough s1 Hbb). rewrite <-HM. destruct (skip_spec (loop_fuel s1) s1 _ j Hb1) as (s2 & e2 & -> & Hat2); [lia..|].
    cbn [res_bind]. exists s2. destruct j as [|i]; [lia|]. simpl in Hat2. rewrite Nat.sub_0_r in Hat2. pose proof Hat2 as (He2 & _).
    replace (cur_entry_idx_ s - 1) with (Z.of_nat i) by lia. rewrite (at_idx _ _ _ Hat2). split; [done|]. unfold prev_pos, pos. by rewrite He2.
  - eexists. split; [done|]. subst j. rewrite <-Hb. by apply (rewound s 0 e).
Qed.

(** The cached entries are consecutive entries of the block, from [lo] on. *)
Definition entry_cached (buff : bytes) (c : CachedPrevEntry) (i : nat) (e : ent) : Prop :=
  pe_offset c = Z.of_nat (off i) ∧ pe_entry_size c = Z.of_nat (off (S i)) - Z.of_nat (off i) ∧ pe_value c = Some (value_at i e, slen (e_val e)) ∧
  pe_key_size c = length (expose (e_key e)) ∧
  match pe_key_ptr c with Some m => m = expose (e_key e) | None => ∃ x y, buff = x ++ expose (e_key e) ++ y ∧ pe_key_offset c = length x end.
Definition cache_list (buff : bytes) (l : list CachedPrevEntry) (lo : nat) : Prop :=
  ∀ x c, l !! x = Some c → ∃ e, es !! (lo + x)%nat = Some e ∧ entry_cached buff c (lo + x) e.
Definition cache_ok (t : DataBlockIter) : Prop :=
  prev_entries_idx_ t = -1 ∨ 0 ≤ prev_entries_idx_ t < Z.of_nat (length (prev_entries_ t)) ∧ ∃ lo, cache_list (prev_entries_keys_buff_ t) (prev_entries_ t) lo.

Lemma cache_entry_spec s j e buff l lo : at_entry s j e → cache_list buff l lo → j = (lo + length l)%nat →
  ∃ c buff', cache_entry s buff = Ok (c, buff') ∧ cache_list buff' (l ++ [c]) lo.
Proof.
  intros Hat Hl Hjl. pose proof Hat as (Hj & Hg & _ & _ & Hk & He & Hc & Hv). unfold cache_entry. rewrite Hk, (valid_entry s j e Hat), He. cbn [res_bind assert_ deref].
  pose proof (off_le_keys (S j)). destruct keys_end as (_ & HK & _). pose proof (entry_grows sep iv es j e Hj). rewrite u32_id by lia.
  assert (Hcase : ∃ c buff' y, (if IsKeyPinned (raw_key_ s)
      then Ok (mkPrev (current_ s) (Z.of_nat (off (S j)) - Z.of_nat (off j)) (Some (expose (e_key e))) 0 (length (expose (e_key e))) (value_ s), buff)
      else Ok (mkPrev (current_ s) (Z.of_nat (off (S j)) - Z.of_nat (off j)) None (length buff) (length (expose (e_key e))) (value_ s), buff ++ expose (e_key e))) = Ok (c, buff')
    ∧ buff' = buff ++ y ∧ entry_cached buff' c j e).
  { destruct (IsKeyPinned _); [eexists _, _, []|eexists _, _, (expose (e_key e))]; (split; [done|]); (split; [by rewrite ?app_nil_r|]); split_and!; try done.
    exists buff, []. by rewrite app_nil_r. }
  destruct Hcase as (c & buff' & y & -> & -> & Hec). exists c, (buff ++ y). split; [done|]. intros x c' Hx.
  apply lookup_app_Some in Hx as [Hx|[Hge Hx]].
  - destruct (Hl x c' Hx) as (e' & He' & H1 & H2 & H3 & H4 & H5). exists e'. split; [done|]. split_and!; try done. destruct (pe_key_ptr c'); [done|].
    destruct H5 as (u & v & -> & Hu). exists u, (v ++ y). by rewrite <-!app_assoc.
  - apply list_lookup_singleton_Some in Hx as [Hx <-]. replace x with (length l) by lia. exists e. by rewrite <-Hjl.
Qed.
Lemma fill_spec fuel s buff l lo m : kd = Data → before s (lo + length l) → cache_list buff l lo → (lo + length l < m ≤ length es)%nat → (m - (lo + length l) ≤ fuel)%nat →
  ∃ s' buff' l' e, fill_cache fresh fuel (Z.of_nat (off m)) s buff l = Ok (s', buff', l') ∧ at_entry s' (m - 1) e ∧ cache_list buff' l' lo ∧ (lo + length l' = m)%nat.
Proof.
  intros HD. revert s buff l. induction fuel as [|fuel IH]; intros s buff l Hb Hl Hj Hf; [lia|]. cbn [fill_cache]. set (j := (lo + length l)%nat) in *.
  destruct (lookup_lt_is_Some_2 es j ltac:(lia)) as [e He]. destruct (ParseKey_entry s j e Hb He) as (sh & s1 & Hp & Hat). rewrite HD in Hp. rewrite Hp. cbn [res_bind].
  destruct (cache_entry_spec s1 j e buff l lo Hat Hl eq_refl) as (c & buff' & -> & Hl'). cbn [res_bind]. pose proof (at_before s1 j e Hat) as Hb1.
  rewrite (next_offset s1 _ Hb1). cbn [res_bind]. assert (Hlen : (lo + length (l ++ [c]))%nat = S j) by (rewrite length_app; simpl; lia).
  destruct (Nat.eq_dec (S j) m) as [<-|Hne].
  - rewrite Z.ltb_irrefl. eexists _, _, _, e. split; [done|]. replace (S j - 1)%nat with j by lia. done.
  - pose proof (off_strict (S j) m ltac:(lia) ltac:(lia)). rewrite (proj2 (Z.ltb_lt _ _)) by lia. apply IH; rewrite ?Hlen; try done; lia.
Qed.

Lemma cached_key t c i e : entry_cached (prev_entries_keys_buff_ t) c i e → ∃ copy,
  match pe_key_ptr c with
  | Some m => let* k := read m (pe_key_size c) in Ok (k, false)
  | None => let* k := read (drop (pe_key_offset c) (prev_entries_keys_buff_ t)) (pe_key_size c) in Ok (k, true)
  end = Ok (expose (e_key e), copy).
Proof.
  intros (_ & _ & _ & -> & Hk). destruct (pe_key_ptr c) as [m|].
  - subst m. rewrite read_spec by done. rewrite take_ge by done. by eexists.
  - destruct Hk as (x & y & -> & ->). rewrite drop_app_length, read_spec by (rewrite length_app; lia). rewrite take_app_length. by eexists.
Qed.
(** The cached entry before entry [j] is entry [j - 1]. *)
Lemma cached_prev_spec t j e c : cache_ok t → at_entry (d_it t) j e → cached_prev t = Some c →
  ∃ i e', j = S i ∧ es !! i = Some e' ∧ entry_cached (prev_entries_keys_buff_ t) c i e' ∧ 0 < prev_entries_idx_ t.
Proof.
  intros Hok (Hj & _ & _ & _ & _ & _ & Hc & _). unfold cached_prev. destruct (Z.ltb_spec 0 (prev_entries_idx_ t)) as [Hpos|]; [|done].
  destruct Hok as [?|[Hr (lo & Hl)]]; [lia|]. destruct (prev_entries_ t !! Z.to_nat (prev_entries_idx_ t)) as [c0|] eqn:E0; [|done].
  destruct (Z.eqb_spec (pe_offset c0) (current_ (d_it t))) as [Eo|]; [|done]. intros Hp. destruct (Hl _ _ E0) as (e0 & He0 & Ho & _). destruct (Hl _ _ Hp) as (e1 & He1 & Hec).
  rewrite Hc, Ho in Eo. set (x := (lo + Z.to_nat (prev_entries_idx_ t))%nat) in *. apply lookup_lt_Some in Hj, He0.
  assert (x = j) by (destruct (Nat.lt_trichotomy x j) as [Hlt|[|Hlt]]; [pose proof (off_strict _ _ Hlt ltac:(lia)); lia|done|pose proof (off_strict _ _ Hlt ltac:(lia)); lia]).
  exists (lo + Z.to_nat (prev_entries_idx_ t - 1))%nat, e1. split_and!; try done. lia.
Qed.
Lemma DataPrevImpl_spec t j e : kd = Data → cache_ok t → at_entry (d_it t) j e → ∃ t', DataPrevImpl fresh t = Ok t' ∧ cache_ok t' ∧ prev_pos (d_it t') j.
Proof.
  intros HD Hok Hat. pose proof Hat as (Hj & Hg & Hrn & Hidx & _ & _ & Hc & _). pose proof Hg as (Hb & Hst & Hraw & Hri). unfold DataPrevImpl.
  rewrite (valid_entry _ j e Hat). cbn [res_bind assert_].
  assert (Has : (prev_entries_idx_ t =? -1) || ((0 <=? prev_entries_idx_ t) && (prev_entries_idx_ t <? Z.of_nat (length (prev_entries_ t)))) = true).
  { destruct Hok as [->|[Hr _]]; [done|]. rewrite (proj2 (Z.leb_le _ _)), (proj2 (Z.ltb_lt _ _)) by lia. apply orb_true_r. }
  rewrite Has. cbn [assert_ res_bind]. destruct (cached_prev t) as [c|] eqn:Ecp.
  - destruct (cached_prev_spec t j e c Hok Hat Ecp) as (i & e' & -> & He' & Hec & Hpos). destruct (cached_key t c i e' Hec) as (copy & ->). cbn [res_bind].
    destruct Hraw as (Hrk & Hu & Hsec). destruct (SetKeyImpl_spec fresh fresh_length (raw_key_ (d_it t)) (expose (e_key e')) copy Hrk) as (k & Hk & Hk1 & Hk2 & Hk3).
    unfold SetKey. rewrite Hk. cbn [res_bind]. eexists. split; [done|]. destruct Hec as (Ho & Hes & Hv & _). split.
    + right. destruct Hok as [?|[Hr Hl]]; [lia|]. cbn. split; [lia|done].
    + unfold prev_pos, pos. rewrite He'. eapply at_entry_intro; try done; cbn; [|lia|by rewrite Ho|lia].
      split_and!; [done|congruence|]. intros _. by apply (SetKeyImpl_ptr _ _ _ _ Hk).
  - apply lookup_lt_Some in Hj. destruct (back_fuel_enough _ Hri) as (ri & Er & Hf). rewrite Er in Hrn. rewrite Er, Hb, Hc.
    destruct (back_spec (back_fuel (d_it t)) j ri Hj ltac:(lia) Hf) as (o & -> & Ho). cbn [res_bind]. destruct o as [r|].
    + destruct Ho as (r' & -> & Hr & Hlt). destruct (seek_restart _ r' Hg Hr) as (s1 & -> & Hb1 & _). cbn [res_bind]. pose proof Hb1 as ((Hbb & _) & _).
      pose proof (fuel_enough s1 Hbb). destruct (fill_spec (loop_fuel s1) s1 [] [] (r' * iv) j HD) as (s2 & buff & l & e2 & -> & Hat2 & Hl & Hlen); simpl; rewrite ?Nat.add_0_r; try done; try lia.
      cbn [res_bind]. eexists. split; [done|]. split; [right; cbn; split; [lia|by eexists]|]. destruct j as [|i]; [lia|]. simpl in Hat2. rewrite Nat.sub_0_r in Hat2.
      cbn [d_it]. replace (cur_entry_idx_ (d_it t) - 1) with (Z.of_nat i) by lia. rewrite (at_idx _ _ _ Hat2). unfold prev_pos, pos. by pose proof Hat2 as (-> & _).
    + eexists. split; [done|]. split; [by left|]. subst j. cbn [d_it]. rewrite <-Hb. by apply (rewound _ 0 e).
Qed.

Lemma PrevImpl_spec t j e : cache_ok t → at_entry (d_it t) j e → ∃ t', PrevImpl fresh kd t = Ok t' ∧ cache_ok t' ∧ prev_pos (d_it t') j.
Proof.
  intros Hok Hat. unfold PrevImpl. destruct kd eqn:Ek; [by apply (DataPrevImpl_spec t j e)|]. unfold on_base.
  destruct (MetaPrevImpl_spec (d_it t) j e Ek Hat) as (s & -> & Hp). by eexists.
Qed.

(** *** Searching *)
Definition key_cmp (a t : bytes) : Z :=
  match kd with Meta => Compare a t | Data => match CompareSlices a t with Ok r => r | Fail _ => 0 end end.
Lemma compare_spec s k t : base s = b → raw_ok (raw_key_ s) → GetKey (raw_key_ s) = Ok k → (kd = Data → 8 ≤ length k ∧ 8 ≤ length t)%nat →
  CompareCurrentKey s t = Ok (key_cmp k t).
Proof.
  intros Hb (Hk & Hu & _) Hg H8. unfold CompareCurrentKey, CompareKey, GetUserKey, GetInternalKey, IsUserKey, key_cmp. rewrite Hu, Hb, (op_global Hop), Z.eqb_refl.
  unfold is_meta. destruct kd; cbn [negb assert_ res_bind]; rewrite Hg; cbn [res_bind]; [|done]. destruct (H8 eq_refl) as [H1 H2].
  unfold CompareSlices, ExtractUserKey, kNumInternalBytes. by rewrite (proj2 (Nat.leb_le _ _) H1), (proj2 (Nat.leb_le _ _) H2).
Qed.
Lemma exposed_long j e : es !! j = Some e → kd = Data → (8 ≤ length (expose (e_key e)))%nat.
Proof.
  intros Hj HD. pose proof (op_keys Hop HD) as HF. rewrite Forall_forall in HF. pose proof (HF e (list_elem_of_lookup_2 _ _ _ Hj)).
  pose proof (expose_length (e_key e)). lia.
Qed.

Section seek.
(** The keys below the target are those before entry [T]; at most entry [T] equals it. *)
Context (t : bytes) (T : nat) (Ht : (kd = Data → 8 ≤ length t)%nat) (Hne : (0 < length es)%nat) (HT : (T ≤ length es)%nat).
Definition cmp_at (e : ent) : Z := key_cmp (expose (e_key e)) t.
Context (Hlow : ∀ j e, es !! j = Some e → (j < T)%nat → cmp_at e < 0).
Context (Hhigh : ∀ j e, es !! j = Some e → (T ≤ j)%nat → 0 ≤ cmp_at e).
Context (Habove : ∀ j e, es !! j = Some e → (T < j)%nat → 0 < cmp_at e).

Lemma restart_lookup_entry r : (r < nr)%nat → ∃ e, es !! (r * iv)%nat = Some e ∧ e_shared e = 0%nat.
Proof.
  intros Hr. destruct (restart_entry r Hr) as [_ Hlt]. destruct (lookup_lt_is_Some_2 es (r * iv) (Hlt Hne)) as [e He]. exists e. split; [done|].
  destruct (op_wf Hop _ e He) as (_ & _ & _ & H0 & _). apply H0. by destruct (divmod_unique iv (op_iv Hop) (r * iv) r 0) as [_ ->]; [pose proof (op_iv Hop); lia..|].
Qed.
Lemma GetRestartKey_spec s r e : good s → (r < nr)%nat → es !! (r * iv)%nat = Some e → e_shared e = 0%nat →
  GetRestartKey s (Z.of_nat r) = Ok (Some (e_key e), s).
Proof.
  intros (Hb & _) Hr He H0. pose proof (op_iv Hop) as Hi. unfold GetRestartKey. rewrite Hb, (op_data Hop), restart_point by done. cbn [deref res_bind].
  set (j := (r * iv)%nat) in *. destruct (entry_bytes j e He) as (_ & _ & Hs2 & _). destruct (op_layout Hop) as [tl Hd]. destruct keys_end as (_ & HK & Hrs & _).
  rewrite H0, drop_0, Nat.sub_0_r in Hs2. destruct (op_wf Hop j e He) as (_ & Hkl & Hvl & _).
  assert (Hm : (j mod iv =? 0)%nat = true) by (apply Nat.eqb_eq; by destruct (divmod_unique iv Hi j r 0) as [_ ->]; [lia..|]).
  pose proof (keys_part_entry sep iv es j e He) as Hk. unfold enc in Hk. rewrite H0, drop_0 in Hk. set (H := hdr sep iv j (voff j) e) in *.
  set (N := keys_part sep iv (S j) _ _) in Hk. set (P := keys_part sep iv 0 0 (take j es)) in *.
  assert (Hp : slice_of d (Z.of_nat (off j)) (bi_restarts_ b - Z.of_nat (off j)) = Ok (H ++ e_key e ++ (if sep then [] else e_val e) ++ N ++ values)).
  { change (Z.of_nat (off j)) with (slen P). rewrite Hrs, Hd, Hk, <-!app_assoc.
    rewrite (app_assoc H), (app_assoc (H ++ _)), (app_assoc ((H ++ _) ++ _)), (app_assoc (((H ++ _) ++ _) ++ _)).
    rewrite slice_of_app; [by rewrite <-!app_assoc|]. unfold slen. rewrite !length_app. lia. }
  rewrite Hp. cbn [res_bind]. rewrite (op_values Hop). replace (match (if sep then Some K else None) with Some _ => true | None => false end) with sep by (by destruct sep).
  unfold H, hdr. rewrite Hm, andb_true_r, H0, Nat.sub_0_r. rewrite DecodeKey_encoded; [|unfold slen in *; lia..|].
  - cbn [res_bind Z.of_nat Z.eqb]. apply slice_of_length in Hp; [|rewrite Hrs; unfold slen; rewrite length_app; pose proof (off_le_keys j); unfold slen in *; lia].
    match goal with |- context [slen ?x] => set (rest := x) end. replace (bi_restarts_ b - slen rest) with (Z.of_nat (off j + length H)); [by rewrite Hs2|].
    unfold slen in *. rewrite length_app in Hp. fold rest in Hp. lia.
  - intros Es. pose proof (vals_small Es). pose proof (voff_bound es j). lia.
Qed.
(** Reading a restart key and comparing it. *)
Lemma probe s r : good s → (r < nr)%nat → ∃ e s1, es !! (r * iv)%nat = Some e ∧ GetRestartKey s (Z.of_nat r) = Ok (Some (e_key e), s) ∧
  UpdateRawKeyAndMaybePadMinTimestamp fresh s (e_key e) = Ok s1 ∧ good s1 ∧ CompareCurrentKey s1 t = Ok (cmp_at e).
Proof.
  intros Hg Hr. destruct (restart_lookup_entry r Hr) as (e & He & H0). pose proof Hg as (Hb & Hst & Hraw & Hri).
  destruct (set_key_raw s (raw_key_ s) (e_key e) Hraw) as (k & Hk & Hrk & Hgk); [|done|done|].
  { intros HD. pose proof (op_keys Hop HD) as HF. rewrite Forall_forall in HF. by eapply HF, list_elem_of_lookup_2. }
  exists e, (set_raw s k). split; [done|]. split; [by apply GetRestartKey_spec|]. unfold UpdateRawKeyAndMaybePadMinTimestamp. rewrite Hk. split; [done|].
  split; [done|]. apply compare_spec; try done. intros HD. split; [by apply (exposed_long (r * iv))|by apply Ht].
Qed.

(** Entry [q * iv] is above the target for every [q] right of [hi]. *)
Definition right_of (hi : Z) : Prop := ∀ q e, hi < Z.of_nat q → (q < nr)%nat → es !! (q * iv)%nat = Some e → 0 < cmp_at e.
Definition left_ok (lo : Z) : Prop := lo = -1 ∨ ∃ e, es !! (Z.to_nat lo * iv)%nat = Some e ∧ cmp_at e < 0.
Lemma right_mono r e : es !! (r * iv)%nat = Some e → 0 < cmp_at e → right_of (Z.of_nat r - 1).
Proof.
  intros He Hc q e' Hq Hqn He'. destruct (Nat.eq_dec q r) as [->|]; [congruence|]. apply (Habove (q * iv) e' He').
  pose proof (op_iv Hop). assert (T ≤ r * iv)%nat; [|nia]. destruct (Nat.lt_ge_cases (r * iv) T) as [Hlt|]; [|done]. pose proof (Hlow _ e He Hlt). lia.
Qed.
Lemma binary_spec fuel s lo hi :
  good s → -1 ≤ lo ≤ hi → hi < Z.of_nat nr → left_ok lo → right_of hi → hi - lo < Z.of_nat fuel →
  ∃ l skip s', binary_loop fresh fuel t s lo hi false = Ok (Some (l, skip), s') ∧ good s' ∧ -1 ≤ l < Z.of_nat nr ∧
    (skip = true ∧ 0 ≤ l ∧ (∃ e, es !! (Z.to_nat l * iv)%nat = Some e ∧ cmp_at e = 0) ∨ skip = false ∧ left_ok l ∧ right_of l).
Proof.
  revert s lo hi. induction fuel as [|fuel IH]; intros s lo hi Hg Hlh Hhi Hl Hr Hf; [lia|]. cbn [binary_loop].
  destruct (Z.eqb_spec lo hi) as [->|Hne']; [eexists _, _, _; split; [done|]; split; [done|]; split; [lia|by right]|].
  set (mid := lo + (hi - lo + 1) / 2). assert (Hmid : lo < mid ≤ hi).
  { unfold mid. assert (1 ≤ (hi - lo + 1) / 2) by (apply Z.div_le_lower_bound; lia). assert ((hi - lo + 1) / 2 ≤ hi - lo) by (apply Z.div_le_upper_bound; lia). lia. }
  rewrite (proj2 (Z.ltb_lt _ _)), (proj2 (Z.leb_le _ _)) by lia. cbn [andb assert_ res_bind].
  destruct (probe s (Z.to_nat mid) Hg) as (e & s1 & He & HG & HU & Hg1 & HC); [lia|]. rewrite Z2Nat.id in HG by lia. rewrite HG. cbn [res_bind]. rewrite HU. cbn [res_bind].
  rewrite HC. cbn [res_bind]. destruct (Z.ltb_spec (cmp_at e) 0) as [Hneg|Hnn].
  - apply IH; try done; [lia| |lia]. right. by exists e.
  - destruct (Z.ltb_spec 0 (cmp_at e)) as [Hpos|Hz].
    + apply IH; try done; [lia..| |lia]. replace (mid - 1) with (Z.of_nat (Z.to_nat mid) - 1) by lia. by apply (right_mono _ e).
    + destruct fuel as [|fuel]; [lia|]. cbn [binary_loop]. rewrite Z.eqb_refl. eexists _, _, _. split; [done|]. split; [done|]. split; [lia|].
      left. split; [done|]. split; [lia|]. exists e. split; [done|lia].
Qed.

(** The linear scan from entry [j] of restart interval [r]. *)
Lemma linear_spec fuel s j e r mx :
  at_entry s j e → (j < T)%nat → (j < S r * iv)%nat → right_of (Z.of_nat r) →
  mx = (if (S r <? nr)%nat then Z.of_nat (off (S r * iv)) else 2 ^ 32 - 1) → (length es - j < fuel)%nat →
  ∃ s', linear_loop fresh fuel kd t mx s = Ok s' ∧ pos s' T.
Proof.
  intros Hat HjT Hjr Hright Hmx. revert s j e Hat HjT Hjr. induction fuel as [|fuel IH]; intros s j e Hat HjT Hjr Hf; [lia|]. cbn [linear_loop].
  destruct (next_pos s (S j) (at_before s j e Hat)) as (s1 & -> & Hp); [lia|]. cbn [res_bind]. rewrite (valid_pos s1 (S j) Hp) by lia. cbn [res_bind].
  destruct (bool_decide_reflect (S j < length es)%nat) as [Hlt|Hge]; cbn [negb].
  2:{ exists s1. split; [done|]. by replace T with (S j) by lia. }
  destruct (lookup_lt_is_Some_2 es (S j) Hlt) as [e1 He1]. pose proof Hp as Hp1. unfold pos in Hp1. rewrite He1 in Hp1.
  pose proof Hp1 as (_ & (Hb & _ & Hraw & _) & _ & _ & Hg & _ & Hc & _).
  assert (Hcmp : CompareCurrentKey s1 t = Ok (cmp_at e1)).
  { apply compare_spec; try done. intros HD. split; [by apply (exposed_long (S j))|by apply Ht]. }
  rewrite Hc, Hcmp. cbn [res_bind].
  assert (Hdone : 0 ≤ cmp_at e1 → pos s1 T).
  { intros Hnn. replace T with (S j); [done|]. destruct (Nat.lt_ge_cases (S j) T) as [Hl|]; [|lia]. pose proof (Hlow _ e1 He1 Hl). lia. }
  destruct (Z.eqb_spec (Z.of_nat (off (S j))) mx) as [Emx|Emx].
  - pose proof (off_lt_keys _ Hlt). destruct keys_end as (_ & HK & _). subst mx. destruct (Nat.ltb_spec (S r) nr) as [Hrn|]; [|lia].
    destruct (restart_entry _ Hrn) as [_ Hle2]. specialize (Hle2 Hne).
    assert (Heq : S j = (S r * iv)%nat).
    { destruct (Nat.lt_trichotomy (S j) (S r * iv)) as [Hl|[|Hl]]; [|done|lia]. pose proof (off_strict _ _ Hl ltac:(lia)). lia. }
    rewrite Heq in He1. pose proof (Hright (S r) e1 ltac:(lia) Hrn He1). rewrite (proj2 (Z.ltb_lt _ _)) by done. cbn [assert_ res_bind].
    exists s1. split; [done|]. apply Hdone. lia.
  - destruct (Z.leb_spec 0 (cmp_at e1)) as [Hnn|Hneg]; [eauto|]. apply (IH s1 (S j) e1 Hp1); [| |lia].
    + destruct (Nat.lt_ge_cases (S j) T) as [|Hge]; [done|]. pose proof (Hhigh _ e1 He1 Hge). lia.
    + destruct (Nat.lt_ge_cases (S j) (S r * iv)) as [|Hge]; [done|]. exfalso. assert (Heq : S j = (S r * iv)%nat) by lia.
      destruct (Nat.ltb_spec (S r) nr) as [Hrn|Hrn]; [subst mx; rewrite Heq in Emx; done|].
      pose proof (restart_in iv (op_iv Hop) (S r) (length es) Hne). lia.
Qed.
Lemma find_after_spec s r (skip : bool) :
  good s → (r < nr)%nat → (if skip then T = r * iv else r * iv < T ∧ right_of (Z.of_nat r))%nat →
  ∃ s', FindKeyAfterBinarySeek fresh kd t (Z.of_nat r) skip s = Ok s' ∧ pos s' T.
Proof.
  intros Hg Hr Hpos. unfold FindKeyAfterBinarySeek. destruct (seek_restart s r Hg Hr) as (s1 & -> & Hb1 & _). cbn [res_bind].
  destruct (restart_entry r Hr) as [Hle Hlt]. specialize (Hlt Hne). destruct (next_pos s1 (r * iv) Hb1 Hle) as (s2 & -> & Hp). cbn [res_bind].
  destruct (restart_lookup_entry r Hr) as (e & He & _). pose proof Hp as Hat. unfold pos in Hat. rewrite He in Hat.
  pose proof Hat as (_ & (Hb & _) & _ & Hidx & _). rewrite (proj2 (Z.leb_le _ _)) by lia. cbn [assert_ res_bind].
  destruct skip; [exists s2; by rewrite Hpos|]. destruct Hpos as [HrT Hright]. rewrite Hb, (op_num Hop).
  assert (Hmx : (if Z.of_nat r + 1 <? Z.of_nat nr then GetRestartPoint b (Z.of_nat r + 1) else Ok (2 ^ 32 - 1)) =
    Ok (if (S r <? nr)%nat then Z.of_nat (off (S r * iv)) else 2 ^ 32 - 1)).
  { destruct (Z.ltb_spec (Z.of_nat r + 1) (Z.of_nat nr)), (Nat.ltb_spec (S r) nr); try lia; [|done].
    replace (Z.of_nat r + 1) with (Z.of_nat (S r)) by lia. by apply restart_point. }
  rewrite Hmx. cbn [res_bind]. apply (linear_spec _ s2 (r * iv) e r); try done; [pose proof (op_iv Hop); lia|].
  pose proof (fuel_enough s2 Hb). lia.
Qed.
Lemma search s : good s → ∃ i skip s1 s2, BinarySeekRestartPointIndex fresh t s = Ok (Some (i, skip), s1) ∧ FindKeyAfterBinarySeek fresh kd t i skip s1 = Ok s2 ∧ pos s2 T.
Proof.
  intros Hg. pose proof Hg as (Hb & _). unfold BinarySeekRestartPointIndex. rewrite Hb. destruct keys_end as (_ & HK & Hrs & _).
  pose proof (off_lt_keys 0 Hne). rewrite Hrs, (proj2 (Z.eqb_neq _ _)) by (unfold slen in *; rewrite length_app; lia). rewrite (op_num Hop).
  pose proof nr_pos. destruct (binary_spec (S (S (Z.to_nat (Z.of_nat nr)))) s (-1) (Z.of_nat nr - 1) Hg) as (l & skip & s1 & -> & Hg1 & Hl & Hcase); [lia|lia|by left|intros q e Hq Hqn _; lia|lia|].
  cbn [res_bind]. enough (Hfind : ∃ s2, FindKeyAfterBinarySeek fresh kd t (if l =? -1 then (0, true) else (l, skip)).1 (if l =? -1 then (0, true) else (l, skip)).2 s1 = Ok s2 ∧ pos s2 T).
  { destruct Hfind as (s2 & Hf & Hp). destruct (if l =? -1 then (0, true) else (l, skip)) as [i sk]. by exists i, sk, s1, s2. }
  destruct Hcase as [(-> & Hl0 & e & He & Hc)|(-> & [->|(e & He & Hc)] & Hright)].
  - rewrite (proj2 (Z.eqb_neq _ _)) by lia. cbn [fst snd]. rewrite <-(Z2Nat.id l) by lia. apply find_after_spec; [done|lia|].
    destruct (Nat.lt_trichotomy T (Z.to_nat l * iv)) as [Hlt|[|Hlt]]; [|done|]; [pose proof (Habove _ e He Hlt)|pose proof (Hlow _ e He Hlt)]; lia.
  - cbn [Z.eqb fst snd]. change 0 with (Z.of_nat 0). apply find_after_spec; [done|lia|]. destruct (restart_lookup_entry 0 nr_pos) as (e & He & _).
    pose proof (Hright 0%nat e ltac:(lia) nr_pos He). destruct T as [|T']; [done|]. pose proof (Hlow _ e He ltac:(simpl; lia)). lia.
  - destruct (Z.eqb_spec l (-1)) as [->|Hl1].
    + pose proof (Hright 0%nat e ltac:(lia) nr_pos He). lia.
    + cbn [fst snd]. rewrite <-(Z2Nat.id l) by lia. apply find_after_spec; [done|lia|]. rewrite Z2Nat.id by lia. split; [|done].
      destruct (Nat.lt_ge_cases (Z.to_nat l * iv) T) as [|Hge]; [done|]. pose proof (Hhigh _ e He Hge). lia.
Qed.
Lemma seek_impl_spec s : good s → ∃ s', SeekImpl fresh kd t s = Ok s' ∧ pos s' T.
Proof.
  intros Hg. pose proof Hg as (Hb & _). unfold SeekImpl. rewrite Hb, (op_data Hop). destruct (search s Hg) as (i & skip & s1 & s2 & -> & Hf & Hp). by exists s2.
Qed.
Lemma seek_spec s : good s → ∃ s', bi_Seek fresh Verify kd t s = Ok s' ∧ shown_pos s' T.
Proof. intros Hg. unfold bi_Seek. destruct (seek_impl_spec s Hg) as (s1 & -> & Hp). by apply update_pos. Qed.

(** [SeekForPrev]: the last entry that is not above the target. *)
Lemma compare_entry s j e : at_entry s j e → CompareCurrentKey s t = Ok (cmp_at e).
Proof.
  intros (Hj & (Hb & _ & Hraw & _) & _ & _ & Hg & _). apply compare_spec; try done. intros HD. split; [by apply (exposed_long j)|by apply Ht].
Qed.
Definition not_above (j : nat) : Prop := ∃ e, es !! j = Some e ∧ cmp_at e ≤ 0.
Lemma back_while_spec fuel u : cache_ok u → pos (d_it u) T → (T < length es)%nat → (1 < fuel)%nat →
  ∃ u', back_while fresh fuel kd t u = Ok u' ∧ cache_ok u' ∧ (not_above T → pos (d_it u') T) ∧ (~ not_above T → prev_pos (d_it u') T).
Proof.
  intros Hok Hp HTl Hf. destruct fuel as [|[|fuel]]; [lia..|]. destruct (lookup_lt_is_Some_2 es T HTl) as [e He]. pose proof Hp as Hat. unfold pos in Hat. rewrite He in Hat.
  cbn [back_while]. rewrite (valid_entry _ _ _ Hat), (compare_entry _ _ _ Hat). cbn [res_bind negb]. destruct (Z.ltb_spec 0 (cmp_at e)) as [Hpos|Hnp].
  - destruct (PrevImpl_spec u T e Hok Hat) as (u1 & -> & Hok1 & Hp1). cbn [res_bind]. assert (Hno : ~ not_above T) by (intros (e' & He' & Hc); simplify_eq; lia).
    destruct T as [|i] eqn:ET.
    + cbn [prev_pos] in Hp1. rewrite (valid_finished _ Hp1). cbn [res_bind negb]. by exists u1.
    + cbn [prev_pos] in Hp1. destruct (lookup_lt_is_Some_2 es i ltac:(lia)) as [e1 He1]. pose proof Hp1 as Hat1. unfold pos in Hat1. rewrite He1 in Hat1.
      rewrite (valid_entry _ _ _ Hat1), (compare_entry _ _ _ Hat1). cbn [res_bind negb]. pose proof (Hlow i e1 He1 ltac:(lia)). rewrite (proj2 (Z.ltb_ge _ _)) by lia. by exists u1.
  - exists u. split_and!; try done. intros Hno. exfalso. apply Hno. by exists e.
Qed.
Lemma seek_for_prev_spec u : cache_ok u → good (d_it u) →
  ∃ u', SeekForPrevImpl fresh kd t u = Ok u' ∧ cache_ok u' ∧ (not_above T → pos (d_it u') T) ∧ (~ not_above T → prev_pos (d_it u') T).
Proof.
  intros Hok Hg. pose proof Hg as (Hb & _). unfold SeekForPrevImpl. rewrite Hb, (op_data Hop). destruct (search (d_it u) Hg) as (i & skip & s1 & s2 & -> & Hf & Hp).
  cbn [res_bind]. unfold on_base. cbn [d_it]. rewrite Hf. cbn [res_bind d_it]. rewrite (valid_pos s2 T Hp HT). cbn [res_bind].
  destruct (bool_decide_reflect (T < length es)%nat) as [Hlt|Hge]; cbn [negb].
  - apply back_while_spec; try done. cbn [d_it]. destruct (pos_good _ _ Hp) as (Hb2 & _). pose proof (fuel_enough s2 Hb2). lia.
  - pose proof (pos_good _ _ Hp) as Hg2. pose proof Hg2 as (_ & Hst & _). rewrite bool_decide_true by done. destruct (last_pos s2 Hg2) as (s3 & -> & Hl).
    cbn [res_bind]. eexists. split; [done|]. split; [done|]. cbn [d_it]. replace T with (length es) by lia. split.
    + intros (e & He & _). apply lookup_lt_Some in He. lia.
    + intros _. destruct (length es) as [|n]; [lia|]. simpl in *. by rewrite Nat.sub_0_r in Hl.
Qed.
End seek.
End reading.
