(* ===== verification/BlockRefine.v ===== *)
(** * A block is a sorted list with a cursor

    The contract of [BlockBuilder] and of the block iterators together: writing the
    entries of a list and opening the result gives a cursor over that list.  The
    contract is executable; every sequence of calls that it allows returns the same
    keys and values on the bytes of the block. *)
From S2P Require Import Prelude Float64 Bitfield Slice Coding Comparator DbFormat IterKey BlockBuilder BlockHash BlockLayout BlockIter BlockThm.
Local Open Scope Z_scope.

(** ** The contract *)
Inductive Op := OFirst | OLast | ONext | OPrev | OSeek (target : bytes) | OSeekForPrev (target : bytes).
Abbreviation observation := (option (bytes * bytes)).

(** The first and the last position whose element satisfies [f]. *)
Fixpoint find_first {A} (f : A → bool) (l : list A) : option nat :=
  match l with [] => None | x :: l => if f x then Some O else S <$> find_first f l end.
Fixpoint find_last {A} (f : A → bool) (l : list A) : option nat :=
  match l with [] => None | x :: l => match find_last f l with Some i => Some (S i) | None => if f x then Some O else None end end.

Section spec.
Context (cmp : bytes → bytes → Z) (legal : bytes → bool) (kvs : list (bytes * bytes)).
(** [None]: the call is not allowed; a position [None]: the iterator is not valid. *)
Definition spec_op (op : Op) (p : option nat) : option (option nat) :=
  match op, p with
  | OFirst, _ => Some (if (0 <? length kvs)%nat then Some O else None)
  | OLast, _ => Some (if (0 <? length kvs)%nat then Some (length kvs - 1)%nat else None)
  | ONext, Some j => Some (if (S j <? length kvs)%nat then Some (S j) else None)
  | OPrev, Some O => Some None
  | OPrev, Some (S i) => Some (Some i)
  | OSeek t, _ => if legal t then Some (find_first (λ kv, 0 <=? cmp kv.1 t) kvs) else None
  | OSeekForPrev t, _ => if legal t then Some (find_last (λ kv, cmp kv.1 t <=? 0) kvs) else None
  | _, None => None
  end.
(** What the user reads after each call. *)
Fixpoint spec_run (ops : list Op) (p : option nat) : option (list observation) :=
  match ops with
  | [] => Some []
  | op :: ops =>
      match spec_op op p with
      | None => None
      | Some p => match spec_run ops p with Some l => Some ((match p with Some j => kvs !! j | None => None end) :: l) | None => None end
      end
  end.
End spec.

(** ** The code *)
Section code.
Context `{UC : Comparator} (fresh : nat → bytes) (Verify : bytes → bytes → bytes → bool) (GetSliceHash : bytes → Z) (kd : Kind).
Definition step (op : Op) (t : DataBlockIter) : res DataBlockIter :=
  match op with
  | OFirst => on_base (bi_SeekToFirst fresh Verify kd) t
  | OLast => on_base (bi_SeekToLast fresh Verify kd) t
  | ONext => on_base (bi_Next fresh Verify kd) t
  | OPrev => bi_Prev fresh Verify kd t
  | OSeek target => on_base (bi_Seek fresh Verify kd target) t
  | OSeekForPrev target => bi_SeekForPrev fresh Verify kd target t
  end.
Definition observe (t : DataBlockIter) : res observation :=
  let* v := bi_Valid (d_it t) in
  if v : bool then let* k := bi_key (d_it t) in let* v := bi_value (d_it t) in Ok (Some (k, v)) else Ok None.
Fixpoint run (ops : list Op) (t : DataBlockIter) : res (list observation) :=
  match ops with
  | [] => Ok []
  | op :: ops => let* t := step op t in let* o := observe t in let* l := run ops t in Ok (o :: l)
  end.

(** A block with the entries [kvs]; [hash]: the util ratio of its hash index, if any. *)
Definition fill_block (o : Options) (hash : option double) (kvs : list (bytes * bytes)) : res BlockBuilder :=
  let* b := newBlockBuilder o hash in add_all GetSliceHash b kvs.
Definition write_block (o : Options) (hash : option double) (kvs : list (bytes * bytes)) : res bytes :=
  let* b := fill_block o hash kvs in
  let* (_, out) := bb_Finish b in
  Ok out.
(** [Block block(contents, interval)] and its iterator. *)
Definition open_block (contents : bytes) (interval : Z) (ts_sz : nat) (persisted : bool) : res DataBlockIter :=
  let* blk := newBlock contents interval in
  let* it := match kd with Data => NewDataIterator fresh blk kDisableGlobalSequenceNumber ts_sz persisted | Meta => NewMetaIterator fresh blk end in
  Ok (newDataBlockIter it).
End code.

(** ** Positions found by the contract *)
Lemma find_first_spec {A} (f : A → bool) l :
  match find_first f l with
  | Some i => (∃ x, l !! i = Some x ∧ f x = true) ∧ ∀ j x, l !! j = Some x → (j < i)%nat → f x = false
  | None => ∀ j x, l !! j = Some x → f x = false
  end.
Proof.
  induction l as [|a l IH]; [done|]. cbn [find_first]. destruct (f a) eqn:E; [split; [by exists a|intros; lia]|].
  destruct (find_first f l) as [i|]; cbn [fmap option_fmap option_map].
  - destruct IH as [H1 H2]. split; [done|]. intros [|j] x Hj Hlt; [by simplify_eq/=|]. apply (H2 j x Hj). lia.
  - intros [|j] x Hj; [by simplify_eq/=|]. by apply (IH j).
Qed.
Lemma find_last_none {A} (f : A → bool) l : (∀ j x, l !! j = Some x → f x = false) → find_last f l = None.
Proof.
  induction l as [|a l IH]; intros H; [done|]. cbn [find_last]. rewrite IH by (intros j x Hj; by apply (H (S j))). by rewrite (H 0%nat a).
Qed.
Lemma find_last_some {A} (f : A → bool) l i x :
  l !! i = Some x → f x = true → (∀ j y, l !! j = Some y → (i < j)%nat → f y = false) → find_last f l = Some i.
Proof.
  revert i. induction l as [|a l IH]; intros i Hi Hx Hup; [done|]. cbn [find_last]. destruct i as [|i].
  - simplify_eq/=. rewrite find_last_none by (intros j y Hj; apply (Hup (S j) y Hj); lia). by rewrite Hx.
  - rewrite (IH i Hi Hx); [done|]. intros j y Hj Hlt. apply (Hup (S j) y Hj). lia.
Qed.

(** ** The simulation *)
Section simulation.
Context `{UL : ComparatorLaws} (fresh : nat → bytes) (fresh_length : ∀ n, length (fresh n) = n) (Verify : bytes → bytes → bytes → bool).
Context (kd : Kind) (sep : bool) (iv : nat) (es : list ent) (b : Base) (d : bytes) (Hop : opened kd sep iv es b d).
Abbreviation expose := (expose b).
Abbreviation kvs := (exposed b es).
Abbreviation kcmp := (key_cmp kd).
Definition legal (t : bytes) : bool := match kd with Data => (8 <=? length t)%nat | Meta => true end.
Definition increasing (l : list (bytes * bytes)) : Prop :=
  ∀ i j x y, l !! i = Some x → l !! j = Some y → (i < j)%nat → kcmp x.1 y.1 < 0.
Context (Hinc : increasing kvs).

Lemma kcmp_above a c t : (kd = Data → 8 ≤ length a ∧ 8 ≤ length c ∧ 8 ≤ length t)%nat → 0 ≤ kcmp a t → kcmp a c < 0 → 0 < kcmp c t.
Proof.
  unfold key_cmp. destruct kd.
  - intros H8 H1 H2. destruct (H8 eq_refl) as (Ha & Hc & Ht). unfold CompareSlices, ExtractUserKey, kNumInternalBytes in *.
    rewrite (proj2 (Nat.leb_le _ _) Ha) in H1, H2. rewrite (proj2 (Nat.leb_le _ _) Ht) in *. rewrite (proj2 (Nat.leb_le _ _) Hc) in *. cbn [assert_ res_bind] in *.
    set (ua := take _ a) in *. set (uc := take _ c) in *. set (ut := take _ t) in *. unfold by_footer in *.
    pose proof (Compare_opp ut ua). pose proof (Compare_opp ut uc). pose proof (Compare_opp ua uc).
    pose proof (Compare_lt_trans ut ua uc) as Hlt. pose proof (Compare_zero_trans ut ua uc) as Hz.
    destruct (Z.eqb_spec (Compare ua ut) 0), (Z.eqb_spec (Compare ua uc) 0), (Z.eqb_spec (Compare uc ut) 0); try lia;
      destruct (Z.ltb_spec (footer t) (footer a)), (Z.ltb_spec (footer a) (footer t)), (Z.ltb_spec (footer c) (footer a)),
        (Z.ltb_spec (footer a) (footer c)), (Z.ltb_spec (footer t) (footer c)), (Z.ltb_spec (footer c) (footer t)); lia.
  - intros _ H1 H2. pose proof (Compare_opp t a). pose proof (Compare_opp t c). pose proof (Compare_lt_trans t a c) as Hlt. lia.
Qed.

Definition sim (t : DataBlockIter) (p : option nat) : Prop :=
  cache_ok sep iv es b t ∧ match p with Some j => ∃ e, shown kd sep iv es b (d_it t) j e | None => done_ kd sep iv es b (d_it t) end.
Lemma kvs_lookup j : kvs !! j = (λ e, (expose (e_key e), e_val e)) <$> es !! j.
Proof. apply list_lookup_fmap. Qed.
Lemma kvs_length : length kvs = length es.
Proof. apply length_map. Qed.
Lemma sim_good t p : sim t p → good kd b (d_it t).
Proof. intros [_ H]. destruct p as [j|]; [destruct H as (e & (_ & ? & _) & _)|destruct H as [[? _] _]]; done. Qed.
Definition at_pos (j : nat) : option nat := if (j <? length kvs)%nat then Some j else None.
Lemma sim_shown t j : cache_ok sep iv es b t → shown_pos kd sep iv es b (d_it t) j → sim t (at_pos j).
Proof.
  intros Hok Hs. split; [done|]. unfold at_pos, shown_pos in *. rewrite kvs_length. destruct (es !! j) as [e|] eqn:E.
  - rewrite (proj2 (Nat.ltb_lt _ _)) by (by eapply lookup_lt_Some). by exists e.
  - apply lookup_ge_None in E. by rewrite (proj2 (Nat.ltb_ge _ _)) by lia.
Qed.
Lemma base_step f t j : cache_ok sep iv es b t → (∃ s, f (d_it t) = Ok s ∧ shown_pos kd sep iv es b s j) → ∃ t', on_base f t = Ok t' ∧ sim t' (at_pos j).
Proof. intros Hok (s & Hf & Hs). unfold on_base. rewrite Hf. cbn [res_bind]. eexists. split; [done|]. by apply sim_shown. Qed.
(** After a step that ends before the first entry, or on an entry. *)
Lemma update_prev t j : cache_ok sep iv es b t → prev_pos kd sep iv es b (d_it t) j → (j ≤ length es)%nat →
  ∃ t', on_base (UpdateKey fresh Verify) t = Ok t' ∧ sim t' (match j with O => None | S i => Some i end).
Proof.
  intros Hok Hp Hj. unfold on_base. destruct j as [|i]; cbn [prev_pos] in Hp.
  - destruct (update_finished fresh Verify kd sep iv es b d Hop _ Hp) as (s & -> & Hd). by eexists.
  - destruct (update_pos fresh Verify kd sep iv es b d Hop _ i Hp) as (s & -> & Hs). eexists. split; [done|].
    replace (Some i) with (at_pos i) by (unfold at_pos; by rewrite kvs_length, (proj2 (Nat.ltb_lt _ _)) by lia). by apply sim_shown.
Qed.

(** Where [Seek] must end. *)
Definition target_pos (t : bytes) : nat := default (length es) (find_first (λ kv, 0 <=? kcmp kv.1 t) kvs).
Lemma legal_long t : legal t = true → kd = Data → (8 ≤ length t)%nat.
Proof. unfold legal. intros Hl ->. by apply Nat.leb_le. Qed.
Lemma target_spec t : legal t = true →
  (target_pos t ≤ length es)%nat ∧
  (∀ j e, es !! j = Some e → (j < target_pos t)%nat → cmp_at kd b t e < 0) ∧
  (∀ j e, es !! j = Some e → (target_pos t < j)%nat → 0 < cmp_at kd b t e) ∧
  (∀ j e, es !! j = Some e → (target_pos t ≤ j)%nat → 0 ≤ cmp_at kd b t e) ∧
  find_first (λ kv, 0 <=? kcmp kv.1 t) kvs = at_pos (target_pos t).
Proof.
  intros Hl. assert (Hkv : ∀ j e, es !! j = Some e → kvs !! j = Some (expose (e_key e), e_val e)) by (intros j e He; by rewrite kvs_lookup, He).
  pose proof (find_first_spec (λ kv, 0 <=? kcmp kv.1 t) kvs) as Hf. unfold target_pos, at_pos. rewrite kvs_length. destruct (find_first _ kvs) as [i|]; cbn [from_option]; unfold id in *.
  - destruct Hf as [(x & Hx & Hge) Hlow]. apply Z.leb_le in Hge. rewrite kvs_lookup in Hx. destruct (es !! i) as [ei|] eqn:Ei; [|done]. injection Hx as <-.
    pose proof (lookup_lt_Some _ _ _ Ei) as Hi. rewrite (proj2 (Nat.ltb_lt _ _)) by done.
    assert (Habove : ∀ j e, es !! j = Some e → (i < j)%nat → 0 < cmp_at kd b t e).
    { intros j e He Hlt. apply (kcmp_above (expose (e_key ei))); [|done|by apply (Hinc i j _ _ (Hkv _ _ Ei) (Hkv _ _ He))].
      intros HD. split_and!; [by eapply exposed_long|by eapply exposed_long|by apply legal_long]. }
    split_and!; try done; [lia| |].
    + intros j e He Hlt. pose proof (Hlow j _ (Hkv j e He) Hlt) as Hn. by apply Z.leb_gt in Hn.
    + intros j e He Hle. destruct (Nat.eq_dec j i) as [->|]; [by simplify_eq|]. pose proof (Habove j e He ltac:(lia)). lia.
  - rewrite Nat.ltb_irrefl. split_and!; try done; intros j e He Hlt; pose proof (lookup_lt_Some _ _ _ He); try lia.
    pose proof (Hf j _ (Hkv j e He)) as Hn. by apply Z.leb_gt in Hn.
Qed.
Lemma search_empty t s : es = [] → base s = b → BinarySeekRestartPointIndex fresh t s = Ok (None, s).
Proof.
  intros He Hb. unfold BinarySeekRestartPointIndex. pose proof (op_restarts _ _ _ _ _ _ Hop) as Hr. rewrite Hb, Hr, He. by destruct sep.
Qed.
Lemma seek_step t u p : legal t = true → sim u p →
  ∃ u', on_base (bi_Seek fresh Verify kd t) u = Ok u' ∧ sim u' (find_first (λ kv, 0 <=? kcmp kv.1 t) kvs).
Proof.
  intros Hl Hs. destruct (target_spec t Hl) as (HT & Hlow & Habove & Hhigh & ->). pose proof (sim_good u p Hs) as Hg. destruct (decide (es = [])) as [He|He].
  - apply base_step; [by destruct Hs|]. destruct Hg as (Hb & _). unfold bi_Seek, SeekImpl. rewrite Hb, (op_data _ _ _ _ _ _ Hop), search_empty by done. cbn [res_bind].
    destruct Hs as [_ Hp]. destruct p as [j|].
    + destruct Hp as (e & (Hj & _) & _). by rewrite He in Hj.
    + destruct Hp as [Hf _]. destruct (update_finished fresh Verify kd sep iv es b d Hop _ Hf) as (s & -> & Hd). exists s. split; [done|].
      unfold shown_pos. assert (E : es !! target_pos t = None) by (by rewrite He). by rewrite E.
  - apply base_step; [by destruct Hs|]. apply (seek_spec fresh fresh_length Verify kd sep iv es b d Hop t (target_pos t)); try done.
    + by apply legal_long.
    + destruct es; [done|simpl; lia].
Qed.
Lemma last_target t : legal t = true →
  (not_above kd es b t (target_pos t) → find_last (λ kv, kcmp kv.1 t <=? 0) kvs = Some (target_pos t)) ∧
  (~ not_above kd es b t (target_pos t) → find_last (λ kv, kcmp kv.1 t <=? 0) kvs = match target_pos t with O => None | S i => Some i end).
Proof.
  intros Hl. destruct (target_spec t Hl) as (HT & Hlow & Habove & _). assert (Hkv : ∀ j y, kvs !! j = Some y → ∃ e, es !! j = Some e ∧ kcmp y.1 t = cmp_at kd b t e).
  { intros j y Hj. rewrite kvs_lookup in Hj. destruct (es !! j) as [e|]; [|done]. injection Hj as <-. by exists e. }
  split.
  - intros (e & He & Hc). apply (find_last_some _ kvs _ (expose (e_key e), e_val e)); [by rewrite kvs_lookup, He|by apply Z.leb_le|].
    intros j y Hj Hlt. destruct (Hkv j y Hj) as (e' & He' & Hy). apply Z.leb_gt. rewrite Hy. by apply (Habove j e').
  - intros Hno. assert (Hup : ∀ j y, kvs !! j = Some y → (target_pos t ≤ j)%nat → (kcmp y.1 t <=? 0) = false).
    { intros j y Hj Hle. destruct (Hkv j y Hj) as (e' & He' & Hy). apply Z.leb_gt. rewrite Hy. destruct (Nat.eq_dec j (target_pos t)) as [->|]; [|apply (Habove j e' He'); lia].
      destruct (Z.lt_ge_cases 0 (cmp_at kd b t e')) as [|Hge]; [done|]. exfalso. apply Hno. by exists e'. }
    destruct (target_pos t) as [|i]; [apply find_last_none; intros j y Hj; apply (Hup j y Hj); lia|]. destruct (lookup_lt_is_Some_2 es i ltac:(lia)) as [e He].
    apply (find_last_some _ kvs i (expose (e_key e), e_val e)); [by rewrite kvs_lookup, He| |intros j y Hj Hlt; apply (Hup j y Hj); lia].
    apply Z.leb_le. pose proof (Hlow i e He ltac:(lia)). unfold cmp_at in *. cbn [fst]. lia.
Qed.
Lemma seek_for_prev_step t u p : legal t = true → sim u p →
  ∃ u', bi_SeekForPrev fresh Verify kd t u = Ok u' ∧ sim u' (find_last (λ kv, kcmp kv.1 t <=? 0) kvs).
Proof.
  intros Hl Hs. destruct (target_spec t Hl) as (HT & Hlow & Habove & Hhigh & _). pose proof (sim_good u p Hs) as Hg. unfold bi_SeekForPrev.
  destruct (decide (es = [])) as [He|He].
  - destruct Hg as (Hb & _). unfold SeekForPrevImpl. rewrite Hb, (op_data _ _ _ _ _ _ Hop), search_empty by done. cbn [res_bind].
    destruct Hs as [Hok Hp]. destruct p as [j|]; [destruct Hp as (e & (Hj & _) & _); by rewrite He in Hj|]. destruct Hp as [Hf _].
    replace (mkData _ _ _ _) with u by (by destruct u). assert (E : find_last (λ kv, kcmp kv.1 t <=? 0) kvs = None) by (by rewrite He). rewrite E. apply (update_prev u 0 Hok Hf). lia.
  - assert (Hne : (0 < length es)%nat) by (destruct es; [done|simpl; lia]).
    destruct (seek_for_prev_spec fresh fresh_length kd sep iv es b d Hop t (target_pos t) (legal_long t Hl) Hne HT Hlow Hhigh Habove u) as (u1 & -> & Hok & Hyes & Hno); [by destruct Hs|done|].
    cbn [res_bind]. destruct (last_target t Hl) as [H1 H2]. destruct (es !! target_pos t) as [e|] eqn:E; [destruct (Z.leb_spec (cmp_at kd b t e) 0) as [Hle|Hgt]|].
    + assert (Hat : not_above kd es b t (target_pos t)) by (by exists e). rewrite (H1 Hat). pose proof (lookup_lt_Some _ _ _ E).
      apply (update_prev u1 (S (target_pos t)) Hok); [|lia]. by apply Hyes.
    + assert (Hat : ~ not_above kd es b t (target_pos t)) by (intros (e' & He' & Hc); simplify_eq; lia). rewrite (H2 Hat). apply (update_prev u1 _ Hok); [|done]. by apply Hno.
    + assert (Hat : ~ not_above kd es b t (target_pos t)) by (intros (e' & He' & Hc); by simplify_eq). rewrite (H2 Hat). apply (update_prev u1 _ Hok); [|done]. by apply Hno.
Qed.
Lemma step_refines op p p' t : sim t p → spec_op kcmp legal kvs op p = Some p' → ∃ t', step fresh Verify kd op t = Ok t' ∧ sim t' p'.
Proof.
  intros Hs Hop'. pose proof (sim_good t p Hs) as Hg. pose proof Hs as [Hok Hp]. unfold spec_op in Hop'. destruct op; cbn [step].
  - injection Hop' as <-. apply base_step; [done|]. by apply (first_spec fresh fresh_length Verify kd sep iv es b d Hop).
  - injection Hop' as <-. destruct (base_step (bi_SeekToLast fresh Verify kd) t (length es - 1) Hok) as (t' & Ht & Hs'); [by apply (last_spec fresh fresh_length Verify kd sep iv es b d Hop)|].
    exists t'. split; [done|]. unfold at_pos in Hs'. rewrite kvs_length in *. destruct (Nat.ltb_spec 0 (length es)), (Nat.ltb_spec (length es - 1) (length es)); (done || lia).
  - destruct p as [j|]; [|done]. injection Hop' as <-. destruct Hp as [e He]. apply base_step; [done|]. by apply (next_spec fresh fresh_length Verify kd sep iv es b d Hop _ j e).
  - destruct p as [j|]; [|done]. destruct Hp as [e [He _]]. pose proof He as (Hj & _). apply lookup_lt_Some in Hj. unfold bi_Prev.
    destruct (PrevImpl_spec fresh fresh_length kd sep iv es b d Hop t j e Hok He) as (t1 & -> & Hok1 & Hp1). cbn [res_bind].
    destruct (update_prev t1 j Hok1 Hp1 ltac:(lia)) as (t2 & Ht2 & Hs2). exists t2. split; [done|]. destruct j; by injection Hop' as <-.
  - destruct (legal target) eqn:Hl; [|by destruct p]. assert (p' = find_first (λ kv, 0 <=? kcmp kv.1 target) kvs) as -> by (destruct p; by injection Hop'). by apply (seek_step target t p).
  - destruct (legal target) eqn:Hl; [|by destruct p]. assert (p' = find_last (λ kv, kcmp kv.1 target <=? 0) kvs) as -> by (destruct p; by injection Hop'). by apply (seek_for_prev_step target t p).
Qed.
Lemma observe_refines t p : sim t p → observe t = Ok (match p with Some j => kvs !! j | None => None end).
Proof.
  intros [_ Hp]. unfold observe. destruct p as [j|].
  - destruct Hp as (e & (He & _) & -> & -> & ->). cbn [res_bind]. by rewrite kvs_lookup, He.
  - destruct Hp as (_ & -> & _). done.
Qed.
Lemma run_refines ops p t obs : sim t p → spec_run kcmp legal kvs ops p = Some obs → run fresh Verify kd ops t = Ok obs.
Proof.
  revert p t obs. induction ops as [|op ops IH]; intros p t obs Hs Hr; cbn [spec_run run] in *; [by simplify_eq|].
  destruct (spec_op kcmp legal kvs op p) as [p'|] eqn:E; [|done]. destruct (step_refines op p p' t Hs E) as (t' & -> & Hs'). cbn [res_bind].
  rewrite (observe_refines t' p' Hs'). cbn [res_bind]. destruct (spec_run _ _ kvs ops p') as [l|] eqn:El; [|done]. injection Hr as <-. by rewrite (IH p' t' l Hs' El).
Qed.
End simulation.

(** A builder without a hash index keeps none. *)
Lemma impl_unindexed GetSliceHash b k v lk dv sk sz b' : AddWithLastKeyImpl GetSliceHash b k v lk dv sk sz = Ok b' →
  Hash_Valid (hash_of b) = false → hash_of b' = hash_of b.
Proof.
  intros H Hv. unfold hash_of in *. unfold AddWithLastKeyImpl in H. rewrite Hv in H. do 8 resolve H as _.
  destruct (if block_restart_interval_ (opts b) <=? counter_ b then _ else _) as [[[rs e] c] sh]. resolve H as _.
  destruct (if use_separated_kv_storage_ (opts b) then _ else _) as [bf vs]. cbn [res_bind] in H. by injection H as <-.
Qed.
Lemma all_unindexed GetSliceHash kvs b b' : add_all GetSliceHash b kvs = Ok b' → Hash_Valid (hash_of b) = false → Hash_Valid (hash_of b') = false.
Proof.
  revert b. induction kvs as [|[k v] kvs IH]; intros b H Hv; cbn [add_all] in H; [by injection H as <-|]. resolve H as Hadd. apply (IH _ H).
  unfold bb_Add in Hadd. resolve Hadd as _. resolve Hadd as Hi. apply impl_unindexed in Hi; [|done]. injection Hadd as <-.
  destruct (use_delta_encoding_ _); cbn; unfold hash_of in *; by rewrite Hi.
Qed.
Lemma restarts_room iv es : (0 < iv)%nat → (20 * num_restarts_of iv (length es) ≤ 20 + sum_list_with (λ e, room (e_key e) (e_val e)) es)%nat.
Proof.
  intros Hiv. assert (Hlen : (20 * length es ≤ sum_list_with (λ e, room (e_key e) (e_val e)) es)%nat).
  { clear. induction es as [|e es IH]; cbn [length sum_list_with]; [lia|]. unfold room at 1. lia. }
  destruct (length es) as [|n] eqn:El; [rewrite num_restarts_0 by done; lia|]. rewrite num_restarts_pos by lia. pose proof (Nat.Div0.div_le_upper_bound (S n - 1) iv (S n) ltac:(nia)). lia.
Qed.

(** ** From the builder to the cursor *)
Section whole.
Context `{UL : ComparatorLaws} (fresh : nat → bytes) (fresh_length : ∀ n, length (fresh n) = n) (Verify : bytes → bytes → bytes → bool).
Context (GetSliceHash : bytes → Z) (kd : Kind) (o : Options) (hash : option double) (ts_sz : nat) (persisted : bool) (kvs : list (bytes * bytes)).
(** The reader puts back a timestamp that the builder removes. *)
Definition pads : bool := match kd with Data => (0 <? ts_sz)%nat && negb persisted | Meta => false end.
Record config : Prop := {
  cf_interval : 1 ≤ block_restart_interval_ o;
  cf_values : use_value_delta_encoding_ o = false;
  cf_user : bb_is_user_key_ o = is_meta kd;
  cf_strip : strip_ts_sz_ o = (if pads then 8 else 0)%nat;
  cf_ts : pads = true → ts_sz = 8%nat;
  cf_keys : kd = Data → Forall (λ kv, 8 + strip_ts_sz_ o ≤ length kv.1)%nat kvs;
  cf_size : Z.of_nat (sum_list_with (λ kv, room kv.1 kv.2) kvs) < 2 ^ 31;
  cf_hash : hash ≠ None → kd = Data ∧ pads = false ∧ ∀ b, fill_block GetSliceHash o hash kvs = Ok b → is_ok (CurrentSizeEstimate b) = true }.
Definition stored (k : bytes) : bytes := if pads then take (length k - 16) k ++ drop (length k - 8) k else k.
(** What is read: the key, with the smallest timestamp when timestamps are not persisted. *)
Definition read_key (k : bytes) : bytes := if pads then take (length k - 16) k ++ replicate 8 Byte.x00 ++ drop (length k - 8) k else k.
Definition read_back : list (bytes * bytes) := map (λ kv, (read_key kv.1, kv.2)) kvs.

Context (Hcf : config).
Lemma kv_small kv : kv ∈ kvs → (room kv.1 kv.2 ≤ sum_list_with (λ kv, room kv.1 kv.2) kvs)%nat.
Proof. intros Hin. pose proof (sum_list_with_in kv (λ kv, room kv.1 kv.2) kvs Hin). lia. Qed.
Lemma pads_data : pads = true → kd = Data.
Proof. unfold pads. by destruct kd. Qed.
Lemma kv_storable kv : kv ∈ kvs → storable o kv (stored kv.1).
Proof.
  intros Hin. pose proof (kv_small kv Hin) as Hr. pose proof (cf_size Hcf) as Hs. unfold room in Hr at 1. unfold storable, below4G, slen.
  change (Z.shiftl 1 32) with (2 ^ 32). rewrite !(proj2 (Z.ltb_lt _ _)) by lia.
  assert (H8 : (bb_is_user_key_ o = false → 8 ≤ length kv.1)%nat).
  { rewrite (cf_user Hcf). unfold is_meta. intros Hm. assert (HD : kd = Data) by (by destruct kd). pose proof (cf_keys Hcf HD) as Hk. rewrite Forall_forall in Hk.
    specialize (Hk kv Hin). lia. }
  split; [|done]. unfold MaybeStripTimestampFromKey, slen. rewrite u32_id by lia.
  rewrite Nat2Z.id, firstn_all, (cf_strip Hcf). unfold stored. destruct pads eqn:Ep; [|done]. pose proof (pads_data Ep) as HD. cbn [Nat.ltb Nat.leb].
  rewrite (cf_user Hcf). unfold is_meta. rewrite HD. pose proof (cf_keys Hcf HD) as Hk. rewrite Forall_forall in Hk. specialize (Hk kv Hin). rewrite (cf_strip Hcf), Ep in Hk.
  unfold StripTimestampFromInternalKey, kNumInternalBytes. rewrite (proj2 (Nat.leb_le _ _)) by lia. cbn [assert_ res_bind app]. by replace (length kv.1 - 8 - 8)%nat with (length kv.1 - 16)%nat by lia.
Qed.
Lemma kvs_storable : Forall2 (storable o) kvs (map (λ kv, stored kv.1) kvs).
Proof. apply Forall2_fmap_r, Forall_Forall2_diag, Forall_forall. exact kv_storable. Qed.
Lemma padded_stored k : pads = true → (16 ≤ length k)%nat → padded (stored k) = read_key k.
Proof.
  intros Ep Hk. unfold padded, stored, read_key. rewrite Ep. set (u := take _ k). set (f := drop _ k).
  assert (Hf : length f = 8%nat) by (unfold f; rewrite length_drop; lia). replace (length (u ++ f) - 8)%nat with (length u) by (rewrite length_app; lia).
  by rewrite take_app_length, drop_app_length.
Qed.

Abbreviation sep := (use_separated_kv_storage_ o).
Abbreviation iv := (Z.to_nat (block_restart_interval_ o)).
Lemma iv_pos : (0 < iv)%nat.
Proof. pose proof (cf_interval Hcf). lia. Qed.
Lemma zip_stored : zip (map (λ kv, stored kv.1) kvs) (map snd kvs) = map (λ kv, (stored kv.1, kv.2)) kvs.
Proof. clear Hcf. induction kvs as [|kv l IH]; [done|]. cbn. f_equal. done. Qed.
Lemma stored_length k : (length (stored k) ≤ length k)%nat.
Proof. unfold stored. destruct pads; [|done]. rewrite length_app, length_take, length_drop. lia. Qed.
Lemma content_room es : content es = map (λ kv, (stored kv.1, kv.2)) kvs →
  (sum_list_with (λ e, room (e_key e) (e_val e)) es ≤ sum_list_with (λ kv, room kv.1 kv.2) kvs)%nat.
Proof.
  clear Hcf. revert es. induction kvs as [|kv l IH]; intros [|e es] He; try done. cbn in He. injection He as Hk Hv He.
  cbn [sum_list_with]. specialize (IH es He). unfold room in *. rewrite Hk, Hv. pose proof (stored_length kv.1). lia.
Qed.
(** The bytes of the block. *)
Definition laid_out (es : list ent) (u : bool) (hx : option (list Z)) (t out : bytes) : Prop :=
  wf iv es ∧ content es = map (λ kv, (stored kv.1, kv.2)) kvs ∧
  Footer_DecodeFrom out = Some (footer_of o es (if hx then true else false) u, body o es ++ restart_bytes o es ++ hash_bytes hx) ∧
  out = body o es ++ restart_bytes o es ++ hash_bytes hx ++ t ∧ slen t = footer_size o ∧ slen (body o es) < 2 ^ 31 ∧ Z.of_nat (num_restarts_of iv (length es)) ≤ 2 ^ 27.
Lemma written : ∃ out es t u hx b,
  write_block GetSliceHash o hash kvs = Ok out ∧ laid_out es u hx t out ∧ fill_block GetSliceHash o hash kvs = Ok b ∧
  indexed GetSliceHash o es b out hx ∧ (hash = None → Hash_Valid (hash_of b) = false).
Proof.
  pose proof (cf_interval Hcf) as Hi. pose proof (cf_values Hcf) as Hvd. pose proof (cf_size Hcf) as Hsz. pose proof iv_pos as Hivp.
  destruct (new_ready GetSliceHash o Hi hash) as (b0 & Hnew & Hready & Hwf0).
  { intros Hh. destruct (cf_hash Hcf Hh) as (HD & Hp & _). rewrite (cf_user Hcf), (cf_strip Hcf), Hp. unfold is_meta. by rewrite HD. }
  destruct (add_all_spec GetSliceHash o Hi Hvd [] b0 kvs _ Hready Hwf0 kvs_storable) as (b & es & Hadd & [Hb _] & Hwf & Hc & _); [simpl; lia|]. cbn [app] in *.
  rewrite zip_stored in Hc. pose proof (content_room es Hc) as Hroom. pose proof (body_room o es) as Hbody.
  assert (Hfill : fill_block GetSliceHash o hash kvs = Ok b) by (unfold fill_block; by rewrite Hnew).
  assert (Hinv : hash = None → Hash_Valid (hash_of b) = false).
  { intros ->. apply (all_unindexed GetSliceHash kvs b0); [done|]. unfold newBlockBuilder in Hnew. resolve Hnew as _. by injection Hnew as <-. }
  assert (Hest : is_ok (CurrentSizeEstimate b) = true).
  { assert (hash = None ∨ hash ≠ None) as [Eh|Eh] by (clear; destruct hash; [by right|by left]); [|by apply (cf_hash Hcf)]. unfold CurrentSizeEstimate. fold (hash_of b). by rewrite (Hinv Eh). }
  assert (Hn : Z.of_nat (num_restarts_of iv (length es)) ≤ 2 ^ 27) by (pose proof (restarts_room iv es Hivp); lia).
  destruct (block_finish_spec GetSliceHash o Hi Hvd es b Hb Hwf) as (b' & out & u & hx & t & Hfin & Hdec & Hout & Ht & Hidx); [unfold slen; lia|unfold kMaxNumRestarts; change (Z.shiftl 1 28 - 1) with (2 ^ 28 - 1); lia|done|].
  exists out, es, t, u, hx, b. split; [unfold write_block; rewrite Hfill; cbn [res_bind]; by rewrite Hfin|]. split; [|done].
  unfold laid_out. do 5 (split; [done|]). unfold slen. lia.
Qed.
(** The iterator that is opened over the block. *)
Definition buckets_of (hx : option (list Z)) : Z := match kd, hx with Data, Some bs => Z.of_nat (length bs) | _, _ => 0 end.
Definition base_of (out : bytes) (es : list ent) (hx : option (list Z)) : Base :=
  mkBase (Some out) (slen (body o es)) (Z.of_nat (num_restarts_of iv (length es))) (if sep then Some (slen (keys_part sep iv 0 0 es)) else None)
    kDisableGlobalSequenceNumber (match kd with Data => ts_sz | Meta => 0 end) pads (block_restart_interval_ o) 0 [] (buckets_of hx).
Lemma block_opened out es u hx t b : laid_out es u hx t out → indexed GetSliceHash o es b out hx → newBlock out (block_restart_interval_ o) =
  Ok (mkBlock out (slen out) (slen (body o es)) (Z.of_nat (num_restarts_of iv (length es))) (block_restart_interval_ o) u
        (match hx with Some bs => Z.of_nat (length bs) | None => 0 end) (if sep then Some (slen (keys_part sep iv 0 0 es)) else None)).
Proof.
  intros (Hwf & _ & Hdec & Hout & Ht & Hs & Hn) Hidx. unfold newBlock. rewrite Hdec. cbn [footer_of f_num_restarts f_hash f_is_uniform separated_kv values_section_offset].
  set (n := Z.of_nat (num_restarts_of iv (length es))) in *. pose proof (restart_bytes_length o es) as Hrb. fold n in Hrb.
  assert (H0 : 0 ≤ slen (body o es)) by (unfold slen; lia). assert (Hl : slen (body o es ++ restart_bytes o es) = slen (body o es) + n * 4) by (unfold slen in *; rewrite length_app; lia).
  assert (Hhx : (if (if hx then true else false) then
      if (length (body o es ++ restart_bytes o es ++ hash_bytes hx) <? 2)%nat then Ok None
      else let* (num_buckets, map_offset) := HashIndex_Initialize out (u16 (slen (body o es ++ restart_bytes o es ++ hash_bytes hx))) in
        let* input := remove_suffix (body o es ++ restart_bytes o es ++ hash_bytes hx) (Z.to_nat (slen (body o es ++ restart_bytes o es ++ hash_bytes hx) - map_offset)) in
        Ok (Some (num_buckets, input))
    else Ok (Some (0, body o es ++ restart_bytes o es ++ hash_bytes hx))) =
    Ok (Some (match hx with Some bs => Z.of_nat (length bs) | None => 0 end, body o es ++ restart_bytes o es))).
  { destruct hx as [bs|]; cbn [hash_bytes]; [|by rewrite app_nil_r]. destruct Hidx as (_ & Hmax & Hbs & _).
    rewrite app_assoc. set (pre := body o es ++ restart_bytes o es) in *. set (E := EncodeFixed16 true (Z.of_nat (length bs))) in *.
    assert (HE : length E = 2%nat) by (unfold E, EncodeFixed16; by rewrite length_le_split).
    assert (Hin : slen (pre ++ map z2b bs ++ E) = slen pre + Z.of_nat (length bs) + 2) by (unfold slen; rewrite !length_app, length_map; lia).
    assert (Ho : out = pre ++ map z2b bs ++ E ++ t) by (rewrite Hout; unfold pre; cbn [hash_bytes]; by rewrite <-!app_assoc).
    assert (Hsm : slen pre + Z.of_nat (length bs) + 2 < 2 ^ 16).
    { rewrite <-Hin. unfold kMaxBlockSizeSupportedByHashIndex in Hmax. change (Z.shiftl 1 16) with (2 ^ 16) in Hmax. rewrite Ho in Hmax. unfold slen, footer_size in *.
      rewrite !length_app in *. destruct sep; lia. }
    rewrite (proj2 (Nat.ltb_ge _ _)) by (rewrite !length_app; lia). rewrite Hin. unfold u16. rewrite Z.mod_small by (unfold slen in *; lia).
    rewrite Ho at 1. unfold E. rewrite HashIndex_Initialize_spec by lia. fold E. cbn [res_bind]. unfold remove_suffix.
    rewrite (proj2 (Nat.leb_le _ _)) by (unfold slen in *; rewrite !length_app, length_map; lia). cbn [assert_ res_bind]. do 3 f_equal.
    apply take_app_length'. unfold slen. rewrite !length_app, length_map. lia. }
  rewrite Hhx. cbn [res_bind]. rewrite Hl, (proj2 (Z.ltb_ge _ _)) by lia.
  rewrite (u32_id (_ + _)), u32_id by lia. replace (slen (body o es) + n * 4 - n * 4) with (slen (body o es)) by lia.
  destruct sep eqn:Es; [|done]. rewrite (proj2 (Z.ltb_ge _ _)); [done|]. unfold body, slen. rewrite Es, length_app. lia.
Qed.
Lemma opening out es u hx t b : laid_out es u hx t out → indexed GetSliceHash o es b out hx →
  ∃ it, open_block fresh kd out (block_restart_interval_ o) ts_sz persisted = Ok (newDataBlockIter it) ∧ base it = base_of out es hx ∧ status_ it = OK ∧
    raw_key_ it = SetIsUserKey (newIterKey fresh) (is_meta kd) ∧ restart_index_ it = Z.of_nat (num_restarts_of iv (length es)) ∧ current_ it = GetKeysEndOffset (base_of out es hx).
Proof.
  intros Hlo Hidx. unfold open_block. rewrite (block_opened out es u hx t b Hlo Hidx). cbn [res_bind]. destruct Hlo as (_ & _ & _ & Hout & Ht & _).
  assert (Hr1 : 1 ≤ Z.of_nat (num_restarts_of iv (length es))) by (unfold num_restarts_of; lia). pose proof (restart_bytes_length o es) as Hrb.
  assert (Hsize : (slen out <? 8) = false) by (apply Z.ltb_ge; rewrite Hout; unfold slen, footer_size in *; rewrite !length_app; destruct sep; lia).
  unfold base_of, buckets_of, pads. destruct kd; unfold NewDataIterator, NewMetaIterator, NewIterator; cbn [b_size b_num_restarts]; rewrite Hsize, (proj2 (Z.eqb_neq _ _)) by lia.
  all: unfold InitializeBase; cbn [data_ newIter base assert_ res_bind num_restarts_ b_contents b_interval b_values restart_offset_ b_num_restarts b_num_buckets]; rewrite (proj2 (Z.ltb_lt _ _)) by lia.
  all: cbn [assert_ res_bind]; eexists; (split; [done|]); done.
Qed.
Lemma content_lookup es j e : content es = map (λ kv, (stored kv.1, kv.2)) kvs → es !! j = Some e → ∃ kv, kv ∈ kvs ∧ e_key e = stored kv.1.
Proof.
  intros Hc He. assert (Hl : content es !! j = Some (e_key e, e_val e)) by (unfold content; by rewrite list_lookup_fmap, He).
  rewrite Hc, list_lookup_fmap in Hl. destruct (kvs !! j) as [kv|] eqn:E; [|done]. injection Hl as Hk _. exists kv. split; [by eapply list_elem_of_lookup_2|done].
Qed.
Lemma long_key kv : kv ∈ kvs → kd = Data → (8 ≤ length (stored kv.1))%nat ∧ (pads = true → 16 ≤ length kv.1)%nat.
Proof.
  intros Hin HD. pose proof (cf_keys Hcf HD) as Hk. rewrite Forall_forall in Hk. specialize (Hk kv Hin). rewrite (cf_strip Hcf) in Hk. unfold stored.
  destruct pads; [rewrite length_app, length_take, length_drop|]; split; lia || done.
Qed.
Lemma opened_written out es u hx t b : laid_out es u hx t out → indexed GetSliceHash o es b out hx → opened kd sep iv es (base_of out es hx) out.
Proof.
  intros (Hwf & Hc & _ & Hout & Ht & Hs & Hn) Hidx. constructor; cbn [base_of data_ bi_restarts_ num_restarts_ values_section_ bi_interval_ global_seqno_ protection_bytes_per_key_ pad_min_timestamp_ ts_sz_]; try done.
  - apply iv_pos.
  - exists (hash_bytes hx ++ t). rewrite Hout. unfold body, restart_bytes. by rewrite <-!app_assoc.
  - unfold body, slen. rewrite length_app. lia.
  - left. pose proof (cf_interval Hcf). lia.
  - pose proof (restart_bytes_length o es) as Hrb. assert (Hh : slen (hash_bytes hx) ≤ 2 ^ 17).
    { destruct hx as [bs|]; [|done]. destruct Hidx as (_ & _ & Hbs & _). unfold hash_bytes, EncodeFixed16, slen. rewrite length_app, length_map, length_le_split. lia. }
    rewrite Hout. unfold slen, footer_size in *. rewrite !length_app. destruct sep; lia.
  - intros Hp. split; [by apply pads_data|]. rewrite (pads_data Hp). by apply (cf_ts Hcf).
  - intros HD. apply Forall_forall. intros e [j He]%list_elem_of_lookup_1. destruct (content_lookup es j e Hc He) as (kv & Hin & ->). by apply long_key.
Qed.
Lemma exposed_written out es hx : content es = map (λ kv, (stored kv.1, kv.2)) kvs → exposed (base_of out es hx) es = read_back.
Proof.
  intros Hc. transitivity (map (λ p, (expose (base_of out es hx) p.1, p.2)) (content es)); [unfold exposed, content; by rewrite map_map|].
  rewrite Hc, map_map. apply map_ext_in. intros kv Hin%list_elem_of_In. cbn [fst snd]. f_equal. unfold expose. cbn [base_of pad_min_timestamp_].
  destruct pads eqn:Ep; [apply padded_stored; [done|]; by apply long_key; [|apply pads_data|]|]. unfold stored, read_key. by rewrite Ep.
Qed.
(** The opened iterator is not on an entry, as the contract says. *)
Lemma opened_sim out es hx it : opened kd sep iv es (base_of out es hx) out → base it = base_of out es hx → status_ it = OK →
  raw_key_ it = SetIsUserKey (newIterKey fresh) (is_meta kd) → restart_index_ it = Z.of_nat (num_restarts_of iv (length es)) → current_ it = GetKeysEndOffset (base_of out es hx) →
  sim kd sep iv es (base_of out es hx) (newDataBlockIter it) None.
Proof.
  intros Hop Hb Hst Hraw Hri Hcur. split; [by left|]. cbn [d_it newDataBlockIter]. destruct (keys_end _ _ _ _ _ _ Hop) as (HE & _).
  assert (Hf : finished kd sep iv es (base_of out es hx) it).
  { split; [|by rewrite Hcur]. split_and!; try done; [|rewrite Hri; lia]. rewrite Hraw.
    split_and!; try done. split_and!; cbn; rewrite ?fresh_length; try done. eexists. split; [done|]. cbn. lia. }
  split; [done|]. split; [by apply (valid_finished _ _ _ _ _ _ Hop)|done].
Qed.

Lemma estimate_written es b out hx : indexed GetSliceHash o es b out hx → (hash = None → Hash_Valid (hash_of b) = false) →
  ∃ e, CurrentSizeEstimate b = Ok e ∧ (e = slen out ∨ hash ≠ None ∧ kMaxBlockSizeSupportedByHashIndex < e).
Proof.
  intros Hidx Hnone. destruct hx as [bs|]; [destruct Hidx as [He _]; eauto|]. destruct Hidx as (e & He & Hc). exists e. split; [done|].
  destruct (Hash_Valid (hash_of b)); [|by left]. right. split; [|done]. intros Hn. by specialize (Hnone Hn).
Qed.

(** C20: a block read is the block written.  For every builder configuration (any
    restart interval, delta encoding or not, with a hash index or without, keys and values together or apart,
    timestamps kept or stripped) and every list of entries with increasing keys, the
    entries can be added, the block can be finished and opened, and from then on
    every sequence of calls to [SeekToFirst], [SeekToLast], [Next], [Prev], [Seek]
    and [SeekForPrev] that the contract allows shows exactly the keys and values of
    the list at the positions of the contract: no assertion fails, no byte outside
    the block is read, no entry is lost, duplicated or reported corrupt, and the
    entries that [Prev] remembers never go stale. *)
Theorem block_cursor_refines : increasing kd read_back →
  ∃ out it, write_block GetSliceHash o hash kvs = Ok out ∧ open_block fresh kd out (block_restart_interval_ o) ts_sz persisted = Ok it ∧
    ∀ ops obs, spec_run (key_cmp kd) (legal kd) read_back ops None = Some obs → run fresh Verify kd ops it = Ok obs.
Proof.
  intros Hinc. destruct written as (out & es & t & u & hx & b & Hw & Hlo & _ & Hidx & _).
  destruct (opening out es u hx t b Hlo Hidx) as (it & Hit & Hb & Hst & Hraw & Hri & Hcur).
  exists out, (newDataBlockIter it). split; [done|]. split; [done|]. intros ops obs Hrun.
  assert (Hop : opened kd sep iv es (base_of out es hx) out) by (by apply (opened_written out es u hx t b)).
  apply (run_refines fresh fresh_length Verify kd sep iv es (base_of out es hx) out Hop) with (p := None); rewrite ?exposed_written by apply Hlo; [done| |done].
  by apply opened_sim.
Qed.

(** The builder knows how large the block is and the reader how many entries it
    has.  [CurrentSizeEstimate] before [Finish] is the exact size of the block, or is
    above the 64 KiB limit of the hash index, which the block then lacks;
    [NumberOfKeys] of the iterator over a data block is the number of entries added,
    and [GetRestartInterval] finds the interval of the builder when there is more
    than one restart point. *)
Theorem block_size_and_count :
  ∃ b out, fill_block GetSliceHash o hash kvs = Ok b ∧ write_block GetSliceHash o hash kvs = Ok out ∧ (∃ e, CurrentSizeEstimate b = Ok e ∧ (e = slen out ∨ hash ≠ None ∧ kMaxBlockSizeSupportedByHashIndex < e)) ∧
    (kd = Data → ∃ t n s, open_block fresh kd out (block_restart_interval_ o) ts_sz persisted = Ok t ∧
       NumberOfKeys fresh kd (block_restart_interval_ o) (d_it t) = Ok (n, s) ∧ n = Z.of_nat (length kvs) ∧
       ∃ s', GetRestartInterval fresh kd (d_it t) = Ok (if (num_restarts_of iv (length kvs) <=? 1)%nat then 0 else block_restart_interval_ o, s')).
Proof.
  destruct written as (out & es & t & u & hx & b & Hw & Hlo & Hfill & Hidx & Hnone). exists b, out.
  split; [done|]. split; [done|]. split; [apply (estimate_written es b out hx Hidx Hnone)|]. intros HD.
  destruct (opening out es u hx t b Hlo Hidx) as (it & Hit & Hb & Hst & Hraw & Hri & Hcur).
  assert (Hop : opened kd sep iv es (base_of out es hx) out) by (by apply (opened_written out es u hx t b)).
  pose proof (opened_sim out es hx it Hop Hb Hst Hraw Hri Hcur) as Hsim. apply sim_good in Hsim.
  destruct (number_spec fresh fresh_length kd sep iv es (base_of out es hx) out Hop _ HD Hsim) as (s' & Hnum). rewrite Z2Nat.id in Hnum by (pose proof (cf_interval Hcf); lia).
  destruct (restart_interval_spec fresh fresh_length kd sep iv es (base_of out es hx) out Hop _ HD Hsim) as (s2 & Hint). rewrite Z2Nat.id in Hint by (pose proof (cf_interval Hcf); lia).
  assert (Hl : length es = length kvs) by (destruct Hlo as (_ & Hc & _); apply (f_equal length) in Hc; unfold content in Hc; by rewrite !length_map in Hc).
  rewrite Hl in *. eexists _, _, s'. split; [done|]. split; [done|]. split; [done|]. by exists s2.
Qed.
End whole.

(** ** Examples *)
Definition example_key (u : bytes) (s : Z) : bytes := encoded (mkParsed u s kTypeValue).
Definition example_options (strip : nat) : Options := mkOptions 2 true false strip false (S754_zero true) true.
Definition example_kvs : list (bytes * bytes) :=
  [(example_key [Byte.x61] 9, [Byte.x31]); (example_key [Byte.x61] 4, []); (example_key [Byte.x61; Byte.x62] 7, [Byte.x32; Byte.x33]);
   (example_key [Byte.x61; Byte.x62; Byte.x63] 1, [Byte.x34]); (example_key [Byte.x62] 3, [Byte.x35])].
Lemma example_config : config (λ _, 0) Data (example_options 0) None 0 true example_kvs.
Proof. constructor; try done. intros _. repeat constructor; vm_compute; lia. Qed.
Lemma example_increasing : increasing (C := BytewiseComparator) Data (read_back Data 0 true example_kvs).
Proof.
  intros i j x y Hi Hj Hlt. pose proof (lookup_lt_Some _ _ _ Hi) as H1. pose proof (lookup_lt_Some _ _ _ Hj) as H2. change (length _) with 5%nat in H1, H2.
  do 5 (destruct i as [|i]; [do 5 (destruct j as [|j]; [first [exfalso; lia|vm_compute in Hi, Hj; injection Hi as <-; injection Hj as <-; vm_compute; done]|]); exfalso; lia|]). exfalso; lia.
Qed.
Lemma block_cursor_refines_witness : ∃ out it,
  write_block (λ _, 0) (example_options 0) None example_kvs = Ok out ∧ open_block zeros Data out 2 0 true = Ok it ∧
  run (UC := BytewiseComparator) zeros (λ _ _ _, true) Data [OSeek (example_key [Byte.x61] 5); OPrev; OPrev; OLast; OPrev; OSeekForPrev (example_key [Byte.x61; Byte.x62] 8); ONext] it =
    Ok [example_kvs !! 1%nat; example_kvs !! 0%nat; None; example_kvs !! 4%nat; example_kvs !! 3%nat; example_kvs !! 1%nat; example_kvs !! 2%nat].
Proof.
  destruct (block_cursor_refines zeros zeros_length (λ _ _ _, true) (λ _, 0) Data (example_options 0) None 0 true example_kvs example_config example_increasing) as (out & it & H1 & H2 & H3).
  exists out, it. split; [exact H1|]. split; [exact H2|]. apply H3. vm_compute. reflexivity.
Defined.
Lemma block_size_and_count_witness : ∃ b out,
  fill_block (λ _, 0) (example_options 0) None example_kvs = Ok b ∧ write_block (λ _, 0) (example_options 0) None example_kvs = Ok out ∧ CurrentSizeEstimate b = Ok (slen out) ∧ slen out = 87 ∧
  ∃ t s, open_block zeros Data out 2 0 true = Ok t ∧ GetRestartInterval zeros Data (d_it t) = Ok (2, s).
Proof.
  destruct (block_size_and_count zeros zeros_length (λ _, 0) Data (example_options 0) None 0 true example_kvs example_config) as (b & out & H1 & H2 & (e & H3 & [->|[[] _]]) & H4); [|done].
  exists b, out. split; [exact H1|]. split; [exact H2|]. split; [exact H3|].
  destruct (H4 eq_refl) as (t & n & s & H5 & _ & _ & s' & H6). split; [vm_compute in H2; injection H2 as <-; reflexivity|]. exists t, s'. exact (conj H5 H6).
Defined.

(** ** Blocks that are not what the builder writes *)
(** A corrupt meta block is not always reported as such.  The strict check adds
    two 32-bit lengths before it compares them with the space that is left; an entry
    whose lengths add up to [2^32] passes it, and the key is then read from memory
    behind the block.  A block of four bytes, or one whose value section starts
    behind its restart array, fails an assertion while its corruption status is
    built, although the constructor marked it as corrupt. *)
Theorem corrupt_block_not_contained :
  let wrapping := [Byte.x00; Byte.xff; Byte.xff; Byte.xff; Byte.xff; Byte.x0f; Byte.x01] ++ EncodeFixed32 true 0 ++ EncodeFixed32 true 1 in
  let tiny := EncodeFixed32 true 0 in
  let misplaced := EncodeFixed32 true 0 ++ EncodeFixed32 true 100 ++ EncodeFixed32 true kSeparatedKVBit in
  (∃ it, open_block zeros Meta wrapping 1 0 true = Ok it ∧ step (UC := BytewiseComparator) zeros (λ _ _ _, true) Meta OFirst it = Fail BadPointer) ∧
  open_block zeros Meta tiny 1 0 true = Fail AssertFail ∧ open_block zeros Meta misplaced 1 0 true = Fail AssertFail.
Proof. split; [eexists; split; [vm_compute; reflexivity|vm_compute; reflexivity]|]. split; vm_compute; reflexivity. Qed.
(** The index of the current entry.  When the restart interval of a file is not
    known it is taken to be 0, and the index starts again at every restart point;
    [Prev] takes it below zero, and the next [Next] fails an assertion, on a block
    that reads correctly when the interval is known. *)
Theorem unknown_interval_asserts :
  let ops := [OSeek (example_key [Byte.x61; Byte.x62] 7); OPrev; OPrev; ONext] in
  let o := mkOptions 2 true false 0 false (S754_zero true) false in
  ∃ out t, write_block (λ _, 0) o None example_kvs = Ok out ∧ open_block zeros Data out 0 0 true = Ok t ∧
    run (UC := BytewiseComparator) zeros (λ _ _ _, true) Data ops t = Fail AssertFail ∧
    is_ok (let* t := open_block zeros Data out 2 0 true in run (UC := BytewiseComparator) zeros (λ _ _ _, true) Data ops t) = true.
Proof. eexists _, _. split; [vm_compute; reflexivity|]. split; [vm_compute; reflexivity|]. split; vm_compute; reflexivity. Qed.
