(* ===== verification/BlockGet.v ===== *)
(** * Point lookups in a data block (rocksdb [block.cc], [DataBlockIter::SeekForGet])

    With a hash index a lookup reads one restart interval instead of searching for
    it.  What it finds is what [Seek] finds, and when it says that the key is not in
    the block it is not; what its comment promises of the last key of the block then
    does not hold. *)
From S2P Require Import Prelude Float64 Bitfield Slice Coding Comparator DbFormat IterKey BlockBuilder BlockHash BlockLayout BlockIter BlockThm BlockRefine.
Local Open Scope Z_scope.

(** ** The contract *)
(** What a lookup may answer: [None], or what the iterator shows. *)
Definition answer_ok `{UC : Comparator} (kvs : list (bytes * bytes)) (t : bytes) (a : option observation) : Prop :=
  match a with
  | Some o => o = match find_first (λ kv, 0 <=? key_cmp Data kv.1 t) kvs with Some j => kvs !! j | None => None end
  | None => ∀ kv, kv ∈ kvs → 0 ≤ key_cmp Data kv.1 t → user_part kv.1 ≠ user_part t
  end.
(** Lookups one after the other on one iterator. *)
Fixpoint gets `{UC : Comparator} (fresh : nat → bytes) (Verify : bytes → bytes → bytes → bool) (GetSliceHash : bytes → Z) (targets : list bytes) (s : BlockIter) :
    res (list (option observation)) :=
  match targets with
  | [] => Ok []
  | t :: targets =>
      let* (r, s) := SeekForGet fresh Verify GetSliceHash t s in
      let* a := if r : bool then let* o := observe (newDataBlockIter s) in Ok (Some o) else Ok None in
      let* l := gets fresh Verify GetSliceHash targets s in
      Ok (a :: l)
  end.

(** User keys of internal keys. *)
Lemma GetUserKey_part k key : iterkey_ok k → is_user_key_ k = false → GetKey k = Ok key → (8 ≤ length key)%nat → GetUserKey k = Ok (user_part key) ∧ GetInternalKey k = Ok key.
Proof.
  intros Hk Hu Hg H8. destruct (getkey_ok k Hk) as (m & Hm & Hg' & Hl). rewrite Hg in Hg'. injection Hg' as ->.
  unfold GetUserKey, GetInternalKey, IsUserKey, kNumInternalBytes, user_part. rewrite Hu, Hg, Hm, Hl. rewrite Hl in H8. rewrite (proj2 (Nat.leb_le _ _) H8). cbn [negb assert_ res_bind].
  split; [|done]. rewrite read_spec by (rewrite length_take in Hl; lia). by rewrite take_take, Nat.min_l by lia.
Qed.
Lemma extract_user k : (8 ≤ length k)%nat → ExtractUserKey k = Ok (user_part k).
Proof. intros H8. unfold ExtractUserKey, kNumInternalBytes. by rewrite (proj2 (Nat.leb_le _ _) H8). Qed.
Lemma key_cmp_user `{UC : Comparator} a c : (8 ≤ length a)%nat → (8 ≤ length c)%nat →
  key_cmp Data a c = if Compare (user_part a) (user_part c) =? 0 then by_footer (footer a) (footer c) else Compare (user_part a) (user_part c).
Proof. intros Ha Hc. unfold key_cmp, CompareSlices. by rewrite !extract_user. Qed.

Section lookup.
Context `{UL : ComparatorLaws} (fresh : nat → bytes) (fresh_length : ∀ n, length (fresh n) = n) (Verify : bytes → bytes → bytes → bool) (GetSliceHash : bytes → Z).
(** Keys that compare equal have the same bytes; without it the builder writes no hash index. *)
Context (bytewise : ∀ x y, Compare x y = 0 → x = y).
Context (sep : bool) (iv : nat) (es : list ent) (b : Base) (d : bytes) (Hop : opened Data sep iv es b d) (Hpad : pad_min_timestamp_ b = false).
Abbreviation n := (length es).
Abbreviation nr := (num_restarts_of iv n).
Abbreviation off := (off sep iv es).
Context (Hne : (0 < n)%nat).

(** The target; [T]: where [Seek] goes. *)
Section target.
Context (t : bytes) (T : nat) (Ht : (8 ≤ length t)%nat) (HT : (T ≤ n)%nat).
Abbreviation cmp_at := (cmp_at Data b t).
Context (Hlow : ∀ j e, es !! j = Some e → (j < T)%nat → cmp_at e < 0).
Context (Hhigh : ∀ j e, es !! j = Some e → (T ≤ j)%nat → 0 ≤ cmp_at e).
Context (Habove : ∀ j e, es !! j = Some e → (T < j)%nat → 0 < cmp_at e).

Lemma below j e : es !! j = Some e → cmp_at e < 0 → (j < T)%nat.
Proof. intros He Hc. destruct (Nat.lt_ge_cases j T) as [|Hge]; [done|]. pose proof (Hhigh j e He Hge). lia. Qed.
Lemma not_below j e : es !! j = Some e → 0 ≤ cmp_at e → (T ≤ j)%nat.
Proof. intros He Hc. destruct (Nat.lt_ge_cases j T) as [Hlt|]; [|done]. pose proof (Hlow j e He Hlt). lia. Qed.

(** The loop over an interval: it stops at [q], the first entry from [lo] on that is not below the target, or the first behind the interval. *)
Definition stopped (lo lim : nat) (s : BlockIter) : Prop :=
  ∃ q, (lo ≤ q ≤ lim)%nat ∧ (q < lim → T ≤ q)%nat ∧ (lo < q → q ≤ T)%nat ∧ pos Data sep iv es b s q ∧
    (q = n → ∃ e, es !! (n - 1)%nat = Some e ∧ GetKey (raw_key_ s) = Ok (e_key e)).
Lemma get_loop_spec lo lim fuel s j c : (lo < lim ≤ n)%nat → (lo ≤ c ≤ lim)%nat → before Data sep iv es b s j → current_ s = Z.of_nat (off c) →
  (j = c ∧ c = lo ∨ j = S c ∧ ∃ e, at_entry Data sep iv es b s c e ∧ cmp_at e < 0) → (n - j < fuel)%nat →
  ∃ s', get_loop fresh fuel t (Z.of_nat (off lim)) s = Ok s' ∧ stopped lo lim s'.
Proof.
  intros Hlim. revert s j c. induction fuel as [|fuel IH]; intros s j c Hc Hbef Hcur Hcase Hfuel; [lia|]. cbn [get_loop]. rewrite Hcur.
  destruct (decide (c < lim)%nat) as [Hlt|Hge].
  2:{ rewrite (proj2 (Z.ltb_ge _ _)) by (replace c with lim by lia; lia). destruct Hcase as [[_ ->]|[-> (e & Hat & Hn)]]; [lia|]. pose proof Hat as (He & _).
      exists s. split; [done|]. exists c. pose proof (below c e He Hn). pose proof (lookup_lt_Some _ _ _ He). unfold pos. rewrite He. split_and!; (done || lia). }
  pose proof (off_strict sep iv es c lim Hlt ltac:(lia)). rewrite (proj2 (Z.ltb_lt _ _)) by lia.
  destruct (es !! j) as [e|] eqn:Ej.
  - destruct (ParseKey_entry fresh fresh_length Data sep iv es b d Hop s j e Hbef Ej) as (sh & s1 & -> & Hat). cbn [res_bind].
    rewrite (compare_entry Data sep iv es b d Hop t (λ _, Ht) s1 j e Hat). cbn [res_bind]. destruct (Z.leb_spec 0 (cmp_at e)) as [Hle|Hgt].
    + exists s1. split; [done|]. exists j. pose proof (not_below j e Ej Hle). pose proof (lookup_lt_Some _ _ _ Ej). unfold pos. rewrite Ej. split_and!; try (done || lia); [destruct Hcase; lia..|].
      destruct Hcase as [[-> ->]|[-> (e' & (He' & _) & Hn)]]; [lia|]. intros _. by apply (below c e').
    + apply (IH s1 (S j) j); [lia|by apply (at_before Data sep iv es b s1 j e)|by apply Hat|right; eauto|apply lookup_lt_Some in Ej; lia].
  - apply lookup_ge_None in Ej. destruct Hcase as [[-> ->]|[-> (e & Hat & Hn)]]; [lia|]. assert (S c = n) as Hn' by lia. rewrite Hn' in Hbef.
    destruct (ParseKey_end fresh Data sep iv es b d Hop s Hbef) as (s1 & -> & Hf & Hraw). cbn [res_bind]. exists s1. split; [done|]. exists n. pose proof Hat as (He & _ & _ & _ & Hk & _).
    pose proof (below c e He Hn). unfold pos. rewrite (proj2 (lookup_ge_None _ _)) by lia. split_and!; try (done || lia). intros _. exists e. rewrite Hraw, Hk. unfold expose. rewrite Hpad.
    by replace (n - 1)%nat with c by lia.
Qed.

(** An entry that the lookup is for. *)
Definition wanted (j : nat) : Prop := ∃ e, es !! j = Some e ∧ (T ≤ j)%nat ∧ user_part (e_key e) = user_part t.
Definition found (res : bool) (s : BlockIter) : Prop := ∃ q, pos Data sep iv es b s q ∧ if res then q = T else ∀ j, ~ wanted j.
Lemma tail_spec s q k : pos Data sep iv es b s q → GetKey (raw_key_ s) = Ok k → (8 ≤ length k)%nat →
  (user_part k = user_part t → q = T) → (∀ j, wanted j → user_part k = user_part t) →
  ∃ res s', (let* u := GetUserKey (raw_key_ s) in
    if negb (Compare u (user_part t) =? 0) then Ok (false, s)
    else let* k := GetInternalKey (raw_key_ s) in let* value_type := ExtractValueType k in
      if get_type value_type then Ok (true, s) else let* s := SeekImpl fresh Data t s in Ok (true, s)) = Ok (res, s') ∧ found res s'.
Proof.
  intros Hp Hk H8 Hq Hw. pose proof (pos_good Data sep iv es b s q Hp) as Hg. pose proof Hg as (_ & _ & (Hok & Hu & _) & _).
  destruct (GetUserKey_part _ k Hok Hu Hk H8) as [-> ->]. cbn [res_bind]. destruct (Z.eqb_spec (Compare (user_part k) (user_part t)) 0) as [Hc|Hc]; cbn [negb].
  - specialize (Hq (bytewise _ _ Hc)). subst q. unfold ExtractValueType, ExtractInternalKeyFooter, kNumInternalBytes. rewrite (proj2 (Nat.leb_le _ _) H8). cbn [assert_ res_bind].
    destruct (get_type _); [eexists _, _; split; [done|]; by exists T|].
    destruct (seek_impl_spec fresh fresh_length Data sep iv es b d Hop t T (λ _, Ht) Hne HT Hlow Hhigh Habove s Hg) as (s' & -> & Hp'). eexists _, _. split; [done|]. by exists T.
  - eexists _, _. split; [done|]. exists q. split; [done|]. intros j Hj. apply Hc. rewrite (Hw j Hj). apply Compare_eq.
Qed.

(** All the entries with the user key of the target are in interval [r]. *)
Definition advises (u : bytes) (r : nat) : Prop := (r < nr)%nat ∧ ∀ j e, es !! j = Some e → user_part (e_key e) = u → (j / iv = r)%nat.
Context (Hinc : increasing Data (exposed b es)).
Lemma entry_long j e : es !! j = Some e → (8 ≤ length (e_key e))%nat.
Proof. intros He. pose proof (op_keys _ _ _ _ _ _ Hop eq_refl) as HF. rewrite Forall_forall in HF. apply HF. by eapply list_elem_of_lookup_2. Qed.
Lemma wanted_first j : wanted j → wanted T.
Proof.
  intros (e' & He' & Hle & Hu). pose proof (lookup_lt_Some _ _ _ He') as Hj. destruct (lookup_lt_is_Some_2 es T ltac:(lia)) as [e He]. exists e. split_and!; [done..|].
  destruct (Nat.eq_dec T j) as [->|Hn]; [by simplify_eq|]. pose proof (entry_long _ _ He) as H8. pose proof (entry_long _ _ He') as H8'. pose proof (Hhigh T e He ltac:(lia)) as Hge.
  assert (Hkv : ∀ i x, es !! i = Some x → exposed b es !! i = Some (e_key x, e_val x)) by (intros i x Hx; unfold exposed, expose; by rewrite list_lookup_fmap, Hx, Hpad).
  pose proof (Hinc T j _ _ (Hkv _ _ He) (Hkv _ _ He') ltac:(lia)) as Hlt. cbn [fst] in Hlt. unfold BlockThm.cmp_at, expose in Hge. rewrite Hpad in Hge. rewrite key_cmp_user in Hge, Hlt by done.
  rewrite Hu in Hlt. apply bytewise. destruct (Z.eqb_spec (Compare (user_part (e_key e)) (user_part t)) 0); lia.
Qed.
Abbreviation limit r := (if (S r <? nr)%nat then (S r * iv)%nat else n).
Lemma limit_spec r : (r < nr)%nat → (r * iv < limit r ≤ n)%nat ∧ ∀ j, (j < n)%nat → (j / iv = r)%nat ↔ (r * iv ≤ j < limit r)%nat.
Proof.
  intros Hr. pose proof (op_iv _ _ _ _ _ _ Hop) as Hiv. destruct (restart_entry Data sep iv es b d Hop r Hr) as [_ H1]. specialize (H1 Hne).
  assert (Hd : ∀ j, (j / iv = r ↔ r * iv ≤ j < S r * iv)%nat).
  { intros j. pose proof (divmod iv Hiv j) as [Ej Hm]. split; [intros <-; nia|]. intros Hj. assert (j / iv < S r)%nat by nia. assert (r < S (j / iv))%nat by nia. lia. }
  destruct (Nat.ltb_spec (S r) nr) as [Hs|Hs].
  - destruct (restart_entry Data sep iv es b d Hop (S r) Hs) as [_ H2]. specialize (H2 Hne). split; [nia|]. intros j _. apply Hd.
  - split; [lia|]. intros j Hj. rewrite Hd. assert (Hn : (n ≤ S r * iv)%nat); [|lia]. destruct (Nat.lt_ge_cases (S r * iv) n) as [Hlt|]; [|done].
    apply (restart_in iv Hiv (S r) n) in Hlt; lia.
Qed.
Lemma decide_spec r s : advises (user_part t) r → stopped (r * iv) (limit r) s →
  ∃ res s', (if current_ s =? bi_restarts_ b then Ok (true, s)
    else let* u := GetUserKey (raw_key_ s) in
      if negb (Compare u (user_part t) =? 0) then Ok (false, s)
      else let* k := GetInternalKey (raw_key_ s) in let* value_type := ExtractValueType k in
        if get_type value_type then Ok (true, s) else let* s := SeekImpl fresh Data t s in Ok (true, s)) = Ok (res, s') ∧ found res s'.
Proof.
  intros [Hr Hadv] (q & Hq & Hstop & Hback & Hp & Hend). destruct (limit_spec r Hr) as [Hlim Hin].
  assert (Hfirst : ∀ j, wanted j → wanted T ∧ (r * iv ≤ T < limit r)%nat ∧ q = T).
  { intros j Hj%wanted_first. split; [done|]. destruct Hj as (e & He & _ & Hu). pose proof (lookup_lt_Some _ _ _ He) as HTn. pose proof (proj1 (Hin T HTn) (Hadv T e He Hu)). lia. }
  destruct (keys_end Data sep iv es b d Hop) as (_ & _ & Hrs & _). destruct (es !! q) as [e|] eqn:Eq.
  - pose proof Hp as Hat. unfold pos in Hat. rewrite Eq in Hat. pose proof Hat as (_ & _ & _ & _ & Hk & _ & Hcur & _). unfold expose in Hk. rewrite Hpad in Hk.
    pose proof (lookup_lt_Some _ _ _ Eq) as Hqn. pose proof (off_lt_keys sep iv es q Hqn) as Hoff. rewrite Hcur, Hrs, (proj2 (Z.eqb_neq _ _)) by (unfold slen in *; rewrite length_app; lia).
    apply (tail_spec s q (e_key e)); try done; [by eapply entry_long| |].
    + intros Hu. pose proof (proj1 (Hin q Hqn) (Hadv q e Eq Hu)) as Hqr. assert (HTq : (T ≤ q)%nat) by lia. assert (Hw : wanted q) by (by exists e). destruct (Hfirst q Hw) as (_ & _ & ->). done.
    + intros j Hj. destruct (Hfirst j Hj) as ((e' & He' & _ & Hu) & _ & ->). by simplify_eq.
  - apply lookup_ge_None in Eq. assert (q = n) as -> by lia. assert (HTn : T = n) by lia. destruct (Z.eqb_spec (current_ s) (bi_restarts_ b)) as [|_]; [eexists _, _; split; [done|]; by exists n|].
    destruct (Hend eq_refl) as (e & He & Hk). apply (tail_spec s n (e_key e)); try done; [by eapply entry_long|]. intros j (e' & He' & Hle & _). apply lookup_lt_Some in He'. lia.
Qed.

(** What the hash index says. *)
Definition index_ok : Prop := ∀ u, ∃ x, Hash_Lookup GetSliceHash (data_block_hash_index_ b) d (u32 (bi_restarts_ b + num_restarts_ b * 4)) u = Ok x ∧
  (x = kCollision ∨ ∃ r, (if x =? kNoEntry then u8 (num_restarts_ b - 1) else x) = Z.of_nat r ∧ advises u r).
Lemma SeekForGetImpl_spec s : index_ok → good Data b s → ∃ res s', SeekForGetImpl fresh GetSliceHash t s = Ok (res, s') ∧ found res s'.
Proof.
  intros Hidx Hg. pose proof Hg as (Hb & _). unfold SeekForGetImpl. rewrite Hb, (op_data _ _ _ _ _ _ Hop), (extract_user t Ht). cbn [res_bind deref].
  destruct (Hidx (user_part t)) as (x & -> & Hx). cbn [res_bind]. destruct (Z.eqb_spec x kCollision) as [_|Hn].
  { destruct (seek_impl_spec fresh fresh_length Data sep iv es b d Hop t T (λ _, Ht) Hne HT Hlow Hhigh Habove s Hg) as (s' & -> & Hp'). eexists _, _. split; [done|]. by exists T. }
  destruct Hx as [|(r & -> & Hadv)]; [done|]. pose proof Hadv as [Hr _]. rewrite (op_num _ _ _ _ _ _ Hop), (proj2 (Z.ltb_lt _ _)) by lia. cbn [assert_ res_bind].
  destruct (seek_restart Data sep iv es b d Hop s r Hg Hr) as (s1 & -> & Hbef & _). cbn [res_bind]. rewrite (restart_point Data sep iv es b d Hop r Hr). cbn [res_bind].
  destruct (limit_spec r Hr) as [Hlim _]. assert (Hl : (if Z.of_nat r + 1 <? Z.of_nat nr then GetRestartPoint b (Z.of_nat r + 1) else Ok (GetKeysEndOffset b)) = Ok (Z.of_nat (off (limit r)))).
  { destruct (Nat.ltb_spec (S r) nr) as [Hs|Hs].
    - rewrite (proj2 (Z.ltb_lt _ _)) by lia. replace (Z.of_nat r + 1) with (Z.of_nat (S r)) by lia. by apply (restart_point Data sep iv es b d Hop).
    - rewrite (proj2 (Z.ltb_ge _ _)) by lia. destruct (keys_end Data sep iv es b d Hop) as (-> & _). unfold slen. by rewrite off_all. }
  rewrite Hl. cbn [res_bind]. set (s2 := set_pos s1 _ _ _ _). assert (Hb2 : before Data sep iv es b s2 (r * iv)) by exact Hbef.
  assert (Hfuel : (n < loop_fuel s2)%nat) by (apply (fuel_enough Data sep iv es b d Hop); by destruct Hb2 as ((? & _) & _)).
  destruct (get_loop_spec (r * iv) (limit r) (loop_fuel s2) s2 (r * iv) (r * iv)) as (s3 & -> & Hst); [done|lia|done|done|by left|lia|]. cbn [res_bind].
  by apply decide_spec with (r := r).
Qed.
(** [SeekForGet] gives the position of [Seek], or the key is not there. *)
Lemma SeekForGet_spec s : (data_block_hash_index_ b ≠ 0 → index_ok) → good Data b s →
  ∃ res s' q, SeekForGet fresh Verify GetSliceHash t s = Ok (res, s') ∧ shown_pos Data sep iv es b s' q ∧ if res then q = T else ∀ j, ~ wanted j.
Proof.
  intros Hidx Hg. pose proof Hg as (Hb & _). unfold SeekForGet. rewrite Hb. destruct (Z.eqb_spec (data_block_hash_index_ b) 0) as [_|Hn].
  - destruct (seek_impl_spec fresh fresh_length Data sep iv es b d Hop t T (λ _, Ht) Hne HT Hlow Hhigh Habove s Hg) as (s1 & -> & Hp). cbn [res_bind].
    destruct (update_pos fresh Verify Data sep iv es b d Hop s1 T Hp) as (s2 & -> & Hs). by exists true, s2, T.
  - destruct (SeekForGetImpl_spec s (Hidx Hn) Hg) as (res & s1 & -> & q & Hp & Hres). cbn [res_bind].
    destruct (update_pos fresh Verify Data sep iv es b d Hop s1 q Hp) as (s2 & -> & Hs). by exists res, s2, q.
Qed.
End target.

Lemma gets_spec targets s : increasing Data (exposed b es) → (data_block_hash_index_ b ≠ 0 → index_ok) → Forall (λ t, 8 ≤ length t)%nat targets → good Data b s →
  ∃ l, gets fresh Verify GetSliceHash targets s = Ok l ∧ Forall2 (answer_ok (exposed b es)) targets l.
Proof.
  intros Hinc Hidx Hts. revert s. induction Hts as [|t ts Ht Hts IH]; intros s Hg; [by exists []|]. cbn [gets].
  destruct (target_spec Data sep iv es b d Hop Hinc t ltac:(by apply Nat.leb_le)) as (HT & Hlow & Habove & Hhigh & Hfind).
  destruct (SeekForGet_spec t _ Ht HT Hlow Hhigh Habove Hinc s Hidx Hg) as (res & s1 & q & -> & Hs & Hres). cbn [res_bind].
  assert (Hsim : sim Data sep iv es b (newDataBlockIter s1) (at_pos es b q)) by (apply sim_shown; [by left|done]).
  pose proof (observe_refines _ _ _ _ _ _ _ Hsim) as Ho. apply sim_good in Hsim. destruct (IH s1 Hsim) as (l & Hl & HF). destruct res.
  - rewrite Ho. cbn [res_bind]. rewrite Hl. eexists. split; [done|]. constructor; [|done]. unfold answer_ok. by rewrite Hfind, Hres.
  - cbn [res_bind]. rewrite Hl. eexists. split; [done|]. constructor; [|done]. intros kv Hkv Hge Hu. apply list_elem_of_lookup_1 in Hkv as [j Hj]. unfold exposed in Hj.
    rewrite list_lookup_fmap in Hj. destruct (es !! j) as [e|] eqn:Ej; [|done]. injection Hj as <-. cbn [fst] in *. apply (Hres j). exists e.
    split_and!; [done|by eapply not_below|]. unfold expose in Hu. by rewrite Hpad in Hu.
Qed.
End lookup.

(** ** The index of a written block *)
Lemma pair_in GetSliceHash o es j e : es !! j = Some e →
  (GetSliceHash (user_part (e_key e)), Z.of_nat (j / Z.to_nat (block_restart_interval_ o))) ∈ hash_pairs GetSliceHash o es.
Proof. intros He. apply list_elem_of_lookup. exists j. unfold hash_pairs. by rewrite list_lookup_imap, He. Qed.
Lemma index_written GetSliceHash o (ts_sz : nat) persisted kvs out es u bs t b :
  (0 < length es)%nat → 1 ≤ block_restart_interval_ o → laid_out Data o ts_sz persisted kvs es u (Some bs) t out → indexed GetSliceHash o es b out (Some bs) →
  index_ok GetSliceHash (Z.to_nat (block_restart_interval_ o)) es (base_of Data o ts_sz persisted out es (Some bs)) out.
Proof.
  intros Hne Hi (_ & _ & _ & Hout & _ & Hs & Hn) (_ & _ & Hbs & Hbk & Hrng & _) k. set (iv := Z.to_nat (block_restart_interval_ o)) in *. assert (Hiv : (0 < iv)%nat) by lia.
  cbn [base_of buckets_of data_block_hash_index_ bi_restarts_ num_restarts_]. fold iv. pose proof (restart_bytes_length o es) as Hrb. fold iv in Hrb.
  destruct (lookup_spec _ Hbs GetSliceHash bs _ (body o es ++ restart_bytes o es) (EncodeFixed16 true (Z.of_nat (length bs)) ++ t) k Hbk) as (x & Hx & Hsay). exists x.
  rewrite u32_id by (unfold slen in *; lia). replace (slen (body o es) + _ * 4) with (slen (body o es ++ restart_bytes o es)) by (unfold slen in *; rewrite length_app; lia).
  split; [rewrite <-Hx; f_equal; rewrite Hout; cbn [hash_bytes]; by rewrite <-!app_assoc|].
  assert (Hr : ∀ j e, es !! j = Some e → (j / iv < num_restarts_of iv (length es))%nat).
  { intros j e He%lookup_lt_Some. apply (restart_in iv Hiv); [done|]. destruct (divmod iv Hiv j). lia. }
  destruct Hsay as [->|[[-> Hno]|(Hxr & (p & Hp & Ex) & Hall)]]; [by left|right..].
  - exists (num_restarts_of iv (length es) - 1)%nat. rewrite Z.eqb_refl. destruct (lookup_lt_is_Some_2 es (length es - 1) ltac:(lia)) as [e He].
    rewrite Forall_forall in Hrng. pose proof (Hrng _ (pair_in GetSliceHash o es _ e He)) as Hmax. cbn [snd] in Hmax. fold iv in Hmax. rewrite num_restarts_pos in * by lia. unfold kMaxRestartSupportedByHashIndex in Hmax.
    split; [unfold u8; rewrite Z.mod_small by lia; lia|]. split; [rewrite num_restarts_pos by lia; lia|]. intros j e' He' Hu. destruct (Hno _ (pair_in GetSliceHash o es j e' He')). cbn [fst]. by rewrite Hu.
  - unfold hash_pairs in Hp. apply list_elem_of_lookup_1 in Hp as [j Hj]. rewrite list_lookup_imap in Hj. destruct (es !! j) as [e|] eqn:Ej; [|done]. injection Hj as <-. cbn [snd] in Ex. fold iv in Ex.
    exists (j / iv)%nat. rewrite (proj2 (Z.eqb_neq _ _)) by (unfold kNoEntry, kMaxRestartSupportedByHashIndex in *; lia). split; [done|]. split; [by apply (Hr j e)|].
    intros j' e' He' Hu. pose proof (Hall _ (pair_in GetSliceHash o es j' e' He') ltac:(cbn [fst]; by rewrite Hu)) as E. cbn [snd] in E. fold iv in E. lia.
Qed.

(** C22: point lookups.  In a block that was written to have a hash index, and that has
    entries, any sequence of [SeekForGet] calls on one iterator answers correctly
    for any hash function: a call that returns [true] leaves the iterator where
    [Seek] goes, and shows that key and value, or nothing when all the keys are
    smaller; a call that returns [false] is for a user key that no entry at or behind
    the target has.  No lookup fails an assertion, whether the index was written
    or left out, and whatever the hash collisions are. *)
Theorem point_lookups_correct `{UL : ComparatorLaws} fresh (fresh_length : ∀ n, length (fresh n) = n) Verify GetSliceHash o ratio ts_sz persisted kvs :
  (∀ x y, Compare x y = 0 → x = y) → config GetSliceHash Data o (Some ratio) ts_sz persisted kvs → increasing Data kvs → kvs ≠ [] →
  ∃ out it, write_block GetSliceHash o (Some ratio) kvs = Ok out ∧ open_block fresh Data out (block_restart_interval_ o) ts_sz persisted = Ok it ∧
    ∀ targets, Forall (λ t, 8 ≤ length t)%nat targets →
      ∃ answers, gets fresh Verify GetSliceHash targets (d_it it) = Ok answers ∧ Forall2 (answer_ok kvs) targets answers.
Proof.
  intros Hby Hcf Hinc Hne. destruct (cf_hash _ _ _ _ _ _ _ Hcf ltac:(done)) as (_ & Hpads & _).
  destruct (written _ _ _ _ _ _ _ Hcf) as (out & es & t & u & hx & b & Hw & Hlo & _ & Hidx & _). destruct (opening fresh _ _ _ _ _ _ _ _ _ _ _ _ Hlo Hidx) as (it & Hit & Hb & Hst & Hraw & Hri & Hcur).
  exists out, (newDataBlockIter it). split; [done|]. split; [done|]. intros targets Hts. pose proof (opened_written _ _ _ _ _ _ _ Hcf _ _ _ _ _ _ Hlo Hidx) as Hop.
  pose proof (opened_sim fresh fresh_length _ _ _ _ _ _ _ _ Hop Hb Hst Hraw Hri Hcur) as Hsim. apply sim_good in Hsim. pose proof Hlo as (_ & Hc & _).
  assert (Hex : exposed (base_of Data o ts_sz persisted out es hx) es = kvs).
  { rewrite (exposed_written _ _ _ _ _ _ _ Hcf out es hx Hc). unfold read_back, read_key. rewrite Hpads. by rewrite <-(map_id kvs) at 2; apply map_ext; intros []. }
  assert (Hes : (0 < length es)%nat) by (apply (f_equal length) in Hc; unfold content in Hc; rewrite !length_map in Hc; destruct kvs; [done|simpl in Hc; lia]).
  rewrite <-Hex in Hinc |- *. apply (gets_spec fresh fresh_length Verify GetSliceHash Hby _ _ _ _ _ Hop); try done.
  cbn [base_of data_block_hash_index_ buckets_of]. destruct hx as [bs|]; [|done]. intros _. by apply (index_written _ _ _ _ kvs _ _ u bs t b); [|apply (cf_interval _ _ _ _ _ _ _ Hcf)|..].
Qed.

(** ** Examples *)
Definition example_hash (k : bytes) : Z := Z.of_nat (length k).
Definition plain_options (sep : bool) : Options := mkOptions 2 true false 0 false (S754_zero true) sep.
Lemma hash_config : config example_hash Data (plain_options true) (Some kDefaultUtilRatio) 0 true example_kvs.
Proof.
  constructor; [done..|intros _; repeat constructor; vm_compute; lia|done|]. intros _. split; [reflexivity|]. split; [reflexivity|]. intros b Hb.
  assert (E : match fill_block example_hash (plain_options true) (Some kDefaultUtilRatio) example_kvs with Ok b => is_ok (CurrentSizeEstimate b) | Fail _ => true end = true) by (vm_compute; reflexivity).
  rewrite Hb in E. exact E.
Qed.
Lemma point_lookups_correct_witness : ∃ out it,
  write_block example_hash (plain_options true) (Some kDefaultUtilRatio) example_kvs = Ok out ∧ open_block zeros Data out 2 0 true = Ok it ∧
  ∃ answers, gets (UC := BytewiseComparator) zeros (λ _ _ _, true) example_hash [example_key [Byte.x61; Byte.x62; Byte.x63] 4; example_key [Byte.x62; Byte.x62] 4] (d_it it) = Ok answers ∧
    answers = [Some (example_kvs !! 3%nat); None].
Proof.
  destruct (point_lookups_correct (UL := bytewise_laws) zeros zeros_length (λ _ _ _, true) example_hash (plain_options true) kDefaultUtilRatio 0 true example_kvs) as (out & it & H1 & H2 & H3).
  - intros x y. change (slice_compare x y = 0 → x = y). rewrite slice_compare_lex. apply lex_eq.
  - exact hash_config.
  - exact example_increasing.
  - discriminate.
  - exists out, it. split; [exact H1|]. split; [exact H2|].
    destruct (H3 [example_key [Byte.x61; Byte.x62; Byte.x63] 4; example_key [Byte.x62; Byte.x62] 4] ltac:(repeat constructor; vm_compute; lia)) as (l & H4 & H5).
    exists l. split; [exact H4|]. clear H5. vm_compute in H1. injection H1 as <-. vm_compute in H2. injection H2 as <-. vm_compute in H4. injection H4 as <-. reflexivity.
Defined.

(** What the comment above [SeekForGetImpl] promises for [false] does not hold.  It
    says that the last key of the block then has a greater user key, so that the key
    cannot be in the next block either.  Here all the user keys are smaller than
    the target.  The lookup is nevertheless [false] when the hash of the target is
    that of a key in an interval that is not the last, and for every absent key
    when the values are stored apart, because the end of the keys is compared with
    the end of the values; with the values in place the answer is [true]. *)
Theorem false_without_greater_key :
  let ask sep target :=
    let* out := write_block example_hash (plain_options sep) (Some kDefaultUtilRatio) example_kvs in
    let* it := open_block zeros Data out 2 0 true in
    gets (UC := BytewiseComparator) zeros (λ _ _ _, true) example_hash [target] (d_it it) in
  let cc := [Byte.x63; Byte.x63] in
  let cccc := cc ++ cc in
  Forall (λ kv, Compare (Comparator := BytewiseComparator) (user_part kv.1) cc < 0) example_kvs ∧
  ask false (example_key cc 9) = Ok [None] ∧ ask true (example_key cccc 9) = Ok [None] ∧ ask false (example_key cccc 9) = Ok [Some None].
Proof. split; [repeat constructor; by vm_compute|]. split_and!; vm_compute; reflexivity. Qed.
