(* ===== verification/CompactionIter.v ===== *)
(** * The compaction iterator (rocksdb [db/compaction/compaction_iterator.h], [.cc], [db/snapshot_checker.h])

    Reads the merged input of a compaction and decides which records to keep.
    [input_] is the rest of the merged stream.  [key_] is [None] while it points into
    [current_key_], so a change of [current_key_] shows in it; [current_user_key_] is
    always the user key in [current_key_].  The merge helper, the range tombstones,
    the user's compaction filter and the blob files are arguments; [polls] counts
    the reads of the two flags that other threads set. *)
From S2P Require Import Prelude Bitfield Slice Coding Comparator DbFormat.
Local Open Scope Z_scope.

(** ** Interfaces *)
(** The part of [rocksdb/comparator.h] that knows about timestamps. *)
Class TsComparator (UC : Comparator) := {
  timestamp_size : nat;
  uc_CompareTimestamp : bytes → bytes → res Z;
  uc_CompareWithoutTimestamp : bytes → bytes → res Z }.
Definition EqualWithoutTimestamp `{TsComparator} (a b : bytes) : res bool :=
  let* c := uc_CompareWithoutTimestamp a b in Ok (c =? 0).
(** The byte-wise comparator has no timestamps. *)
#[export] Instance no_ts : TsComparator BytewiseComparator :=
  {| timestamp_size := 0; uc_CompareTimestamp _ _ := Ok 0; uc_CompareWithoutTimestamp a b := Ok (Compare a b) |}.

Inductive SnapshotCheckerResult := kInSnapshot | kNotInSnapshot | kSnapshotReleased.
#[export] Instance SnapshotCheckerResult_eq : EqDecision SnapshotCheckerResult.
Proof. solve_decision. Defined.

Inductive Status := OK | Corruption | InvalidArgument | NotSupported | IOError | ShutdownInProgress | ManualCompactionPaused.
#[export] Instance Status_eq : EqDecision Status.
Proof. solve_decision. Defined.

Inductive FilterDecision :=
  | kKeep | kRemove | kChangeValue | kRemoveAndSkipUntil | kChangeBlobIndex | kIOError | kPurge | kChangeWideColumnEntity | kUndetermined.
#[export] Instance FilterDecision_eq : EqDecision FilterDecision.
Proof. solve_decision. Defined.
(** What the user's filter answers, with the value and the user key it set. *)
Inductive FilterAnswer := FilterFailed (s : Status) | FilterSays (d : FilterDecision) (value skip_until : bytes).

(** [CompactionIterator::CompactionProxy]. *)
Record CompactionProxy := mkProxy {
  bottommost_level : bool; allow_ingest_behind : bool; number_levels : nat;
  KeyNotExistsBeyondOutputLevel : bytes → list nat → res (bool * list nat) }.

Record Entry := mkEntry { i_key : bytes; i_value : bytes; i_sentinel : bool }.
(** What [MergeHelper::MergeUntil] leaves: its status ([None]: [MergeInProgress]), its
    output, the input behind what it consumed, how many entries that was. *)
Record MergeAnswer := mkMerge {
  m_status : option Status; m_out : list (bytes * bytes); m_rest : list Entry; m_itered : Z; m_filtered_until : option bytes }.

Record Settings := mkSettings {
  snapshots_ : list Z; earliest_snapshot_ : Z; earliest_write_conflict_snapshot_ : Z; job_snapshot_ : Z;
  snapshot_checker_ : option (Z → Z → SnapshotCheckerResult);
  compaction_ : option CompactionProxy;
  compaction_filter_ : option (ParsedInternalKey → bytes → FilterAnswer);
  stacked_blob_filter : bool;
  blob_file_builder_ : option (bytes → bytes → Status * bytes);
  enforce_single_del_contracts_ : bool; full_history_ts_low_ : option bytes; preserve_seqno_after_ : Z; need_count_entries_ : bool }.
Definition bottommost_level_ (c : Settings) : bool :=
  match compaction_ c with Some p => bottommost_level p && negb (allow_ingest_behind p) | None => false end.
Definition visible_at_tip_ (c : Settings) : bool := match snapshots_ c with [] => true | _ => false end.
Definition ingest_behind (c : Settings) : bool := match compaction_ c with Some p => allow_ingest_behind p | None => false end.

(** ** State *)
Inductive ValidContext :=
  | kMerge1 | kMerge2 | kParseKeyError | kCurrentKeyUncommitted | kKeepSDAndClearPut | kKeepTsHistory | kKeepSDForConflictCheck
  | kKeepSDForSnapshot | kKeepSD | kKeepDel | kNewUserKey | kRangeDeletion | kSwapPreferredSeqno.
(** [CompactionIterationStats]. *)
Inductive Counter :=
  | num_record_drop_user | num_record_drop_hidden | num_record_drop_obsolete | num_record_drop_range_del
  | num_range_del_drop_obsolete | num_optimized_del_drop_obsolete
  | num_input_records | num_input_deletion_records | num_input_corrupt_records | total_input_raw_key_bytes | total_input_raw_value_bytes
  | num_single_del_fallthru | num_single_del_mismatch | num_input_timed_put_records | num_timed_put_swap_preferred_seqno.
#[export] Instance Counter_eq : EqDecision Counter.
Proof. solve_decision. Defined.

Record CompactionIterator := mkCI {
  input_ : list Entry; num_itered_ : Z; has_num_itered_ : bool; released_snapshots_ : list Z; validity_info_ : option ValidContext;
  key_ : option bytes; value_ : bytes; status_ : Status; ikey_ : ParsedInternalKey; has_current_user_key_ : bool; at_next_ : bool;
  current_key_ : bytes; curr_ts_ : bytes; current_user_key_sequence_ : Z; current_user_key_snapshot_ : Z; has_outputted_key_ : bool;
  clear_and_output_next_key_ : bool; merge_out_iter_ : list (bytes * bytes); merge_in_progress : bool; level_ptrs_ : list nat;
  iter_stats_ : Counter → Z; current_key_committed_ : bool; cmp_with_history_ts_low_ : Z; last_key_seq_zeroed_ : bool;
  is_range_del_ : bool; polls : nat }.
#[export] Instance CompactionIterator_eta : Settable CompactionIterator := λ s,
  mkCI (input_ s) (num_itered_ s) (has_num_itered_ s) (released_snapshots_ s) (validity_info_ s) (key_ s) (value_ s) (status_ s)
    (ikey_ s) (has_current_user_key_ s) (at_next_ s) (current_key_ s) (curr_ts_ s) (current_user_key_sequence_ s)
    (current_user_key_snapshot_ s) (has_outputted_key_ s) (clear_and_output_next_key_ s) (merge_out_iter_ s)
    (merge_in_progress s) (level_ptrs_ s) (iter_stats_ s) (current_key_committed_ s) (cmp_with_history_ts_low_ s)
    (last_key_seq_zeroed_ s) (is_range_del_ s) (polls s).
Definition Valid (s : CompactionIterator) : bool := match validity_info_ s with Some _ => true | None => false end.
Definition SetValid (x : ValidContext) (s : CompactionIterator) : CompactionIterator := s <| validity_info_ := Some x |>.
Definition Invalidate (s : CompactionIterator) : CompactionIterator := s <| validity_info_ := None |>.
Definition current_user_key_ (s : CompactionIterator) : bytes := take (length (current_key_ s) - kNumInternalBytes) (current_key_ s).
Definition key (s : CompactionIterator) : bytes := default (current_key_ s) (key_ s).
Definition count_by (x : Counter) (n : Z) (s : CompactionIterator) : CompactionIterator :=
  s <| iter_stats_ := λ y, if bool_decide (y = x) then iter_stats_ s y + n else iter_stats_ s y |>.
Definition count (x : Counter) : CompactionIterator → CompactionIterator := count_by x 1.
Definition ResetRecordCounts (s : CompactionIterator) : CompactionIterator :=
  s <| iter_stats_ := λ y, match y with
    | num_record_drop_user | num_record_drop_hidden | num_record_drop_obsolete | num_record_drop_range_del
    | num_range_del_drop_obsolete | num_optimized_del_drop_obsolete => 0
    | _ => iter_stats_ s y
    end |>.

(** ** [SequenceIterWrapper] *)
Definition AdvanceInputIter (s : CompactionIterator) : res CompactionIterator :=
  match input_ s with
  | [] => Fail AssertFail
  | e :: l => Ok (s <| num_itered_ := num_itered_ s + (if i_sentinel e then 0 else 1) |> <| input_ := l |>)
  end.

Section Iter.
Context {UC : Comparator} {TC : TsComparator UC} (c : Settings).
Context (ShouldDelete : bytes → bool) (HasOperator : bool) (MergeUntil : list Entry → Z → bool → MergeAnswer).
(** Relocation of the blobs that a blob index or an entity refers to. *)
Context (blob_gc : ParsedInternalKey → bytes → Status * (Z * bytes)).
Context (manual_compaction_canceled_ shutting_down_ : nat → bool) (input_status : Status).

Definition IsPausingManualCompaction (s : CompactionIterator) : bool * CompactionIterator :=
  (manual_compaction_canceled_ (polls s), s <| polls := S (polls s) |>).
Definition IsShuttingDown (s : CompactionIterator) : bool * CompactionIterator :=
  (shutting_down_ (polls s), s <| polls := S (polls s) |>).

(** [while (Valid() && Compare(key(), target) < 0) Next()]; the seek of the merged
    input, which only moves forward, ends at the same entry. *)
Fixpoint skip_less (target : bytes) (l : list Entry) (n : Z) : res (list Entry * Z) :=
  match l with
  | [] => Ok ([], n)
  | e :: l' =>
      let* r := CompareSlices (i_key e) target in
      if r <? 0 then skip_less target l' (n + if i_sentinel e then 0 else 1) else Ok (l, n)
  end.
Definition SkipUntil (target : bytes) (s : CompactionIterator) : res CompactionIterator :=
  let* (l, n) := skip_less target (input_ s) (num_itered_ s) in
  Ok (if need_count_entries_ c then s <| input_ := l |> <| num_itered_ := n |>
      else s <| input_ := l |> <| has_num_itered_ := false |>).

(** ** Snapshots *)
Definition DefinitelyInSnapshot (seqno snapshot : Z) : bool :=
  (seqno <=? snapshot) && match snapshot_checker_ c with None => true | Some check => bool_decide (check seqno snapshot = kInSnapshot) end.
Definition DefinitelyNotInSnapshot (seqno snapshot : Z) : bool :=
  (snapshot <? seqno) || match snapshot_checker_ c with None => false | Some check => bool_decide (check seqno snapshot = kNotInSnapshot) end.
Definition KeyCommitted (seqno : Z) : bool :=
  match snapshot_checker_ c with None => true | Some check => bool_decide (check seqno (job_snapshot_ c) = kInSnapshot) end.
(** [std::lower_bound] on an increasing list. *)
Fixpoint lower_bound (x : Z) (l : list Z) : nat := match l with [] => 0 | y :: l => if y <? x then S (lower_bound x l) else 0 end.
(** The loop over the later snapshots: the snapshot, [prev_snapshot], [released_snapshots_]. *)
Fixpoint scan_snapshots (check : Z → Z → SnapshotCheckerResult) (has_released : bool) (x : Z) (l : list Z) (prev : Z) (released : list Z) :
    res (Z * Z * list Z) :=
  match l with
  | [] => Ok (kMaxSequenceNumber, prev, released)
  | cur :: l =>
      let* _ := assert_ (x <=? cur) in
      if has_released && bool_decide (cur ∈ released) then scan_snapshots check has_released x l prev released
      else match check x cur with
           | kInSnapshot => Ok (cur, prev, released)
           | kSnapshotReleased => scan_snapshots check has_released x l cur (cur :: released)
           | kNotInSnapshot => scan_snapshots check has_released x l cur released
           end
  end.
Definition findEarliestVisibleSnapshot (x : Z) (s : CompactionIterator) : res (Z * Z * CompactionIterator) :=
  let l := snapshots_ c in
  let* _ := assert_ (negb (visible_at_tip_ c)) in
  let i := lower_bound x l in
  let prev := match i with O => 0 | S j => default 0 (l !! j) end in
  let* _ := assert_ (match i with O => true | S _ => prev <? x end) in
  match snapshot_checker_ c with
  | None => Ok (default kMaxSequenceNumber (l !! i), prev, s)
  | Some check =>
      let* (r, prev, released) :=
        scan_snapshots check (negb (bool_decide (released_snapshots_ s = []))) x (drop i l) prev (released_snapshots_ s) in
      Ok (r, prev, s <| released_snapshots_ := released |>)
  end.

(** ** Keys *)
Definition update_current (seq t : Z) (s : CompactionIterator) : res CompactionIterator :=
  let* k := UpdateInternalKey (current_key_ s) seq t in Ok (s <| current_key_ := k |>).
(** With a timestamp, which is written before the sequence number and the type. *)
Definition update_current_ts (seq t : Z) (ts : bytes) (s : CompactionIterator) : res CompactionIterator :=
  let n := length (current_key_ s) in
  let* _ := assert_ (kNumInternalBytes + length ts <=? n)%nat in
  update_current seq t (s <| current_key_ := take (n - kNumInternalBytes - length ts) (current_key_ s) ++ ts ++ drop (n - kNumInternalBytes) (current_key_ s) |>).
Definition with_type (k : ParsedInternalKey) (t : Z) : ParsedInternalKey := mkParsed (user_key k) (sequence k) t.
Definition change_type (t : Z) (s : CompactionIterator) : res CompactionIterator :=
  update_current (sequence (ikey_ s)) t (s <| ikey_ := with_type (ikey_ s) t |>).
Definition UpdateTimestampAndCompareWithFullHistoryLow (s : CompactionIterator) : res CompactionIterator :=
  if (timestamp_size =? 0)%nat then Ok s
  else
    let* ts := ExtractTimestampFromUserKey (user_key (ikey_ s)) timestamp_size in
    let s := s <| curr_ts_ := ts |> in
    match full_history_ts_low_ c with
    | None => Ok s
    | Some low => let* r := uc_CompareTimestamp ts low in Ok (s <| cmp_with_history_ts_low_ := r |>)
    end.
Definition key_gone (s : CompactionIterator) : res (bool * CompactionIterator) :=
  match compaction_ c with
  | None => Fail BadPointer
  | Some p =>
      let* (b, ptrs) := KeyNotExistsBeyondOutputLevel p (user_key (ikey_ s)) (level_ptrs_ s) in
      Ok (b, s <| level_ptrs_ := ptrs |>)
  end.
(** The entry at the input, when it can be parsed and has the user key of [ikey_]. *)
Definition same_user_next (s : CompactionIterator) : res (option ParsedInternalKey) :=
  match input_ s with
  | [] => Ok None
  | e :: _ =>
      let* o := ParseInternalKey (i_key e) in
      match o with
      | None => Ok None
      | Some k => let* same := EqualWithoutTimestamp (user_key (ikey_ s)) (user_key k) in Ok (if same then Some k else None)
      end
  end.

(** ** The compaction filter *)
(** The user key to skip to, when the filter asks for it; [None]: the call failed and
    the status is set. *)
Definition filter_fails (x : Status) (s : CompactionIterator) : res (option (option bytes) * CompactionIterator) :=
  Ok (None, Invalidate (s <| status_ := x |>)).
Definition apply_decision (d : FilterDecision) (value skip_until : bytes) (s : CompactionIterator) : res (option (option bytes) * CompactionIterator) :=
  let t := type (ikey_ s) in
  match d with
  | kUndetermined => filter_fails NotSupported s
  | kKeep => Ok (Some None, s)
  | kRemove => let* s := change_type kTypeDeletion s in Ok (Some None, count num_record_drop_user (s <| value_ := [] |>))
  | kPurge => let* s := change_type kTypeSingleDeletion s in Ok (Some None, count num_record_drop_user (s <| value_ := [] |>))
  | kChangeValue => let* s := if t =? kTypeValue then Ok s else change_type kTypeValue s in Ok (Some None, s <| value_ := value |>)
  | kRemoveAndSkipUntil => let* k := AppendInternalKey [] (mkParsed skip_until kMaxSequenceNumber kValueTypeForSeek) in Ok (Some (Some k), s)
  | kChangeBlobIndex =>
      if negb (stacked_blob_filter c) then filter_fails NotSupported s
      else let* s := if t =? kTypeBlobIndex then Ok s else change_type kTypeBlobIndex s in Ok (Some None, s <| value_ := value |>)
  | kIOError => filter_fails (if stacked_blob_filter c then IOError else NotSupported) s
  | kChangeWideColumnEntity =>
      let* s := if t =? kTypeWideColumnEntity then Ok s else change_type kTypeWideColumnEntity s in Ok (Some None, s <| value_ := value |>)
  end.
Definition InvokeFilterIfNeeded (s : CompactionIterator) : res (option (option bytes) * CompactionIterator) :=
  let t := type (ikey_ s) in
  match compaction_filter_ c with
  | None => Ok (Some None, s)
  | Some filter =>
      if negb (t =? kTypeValue) && negb (t =? kTypeBlobIndex) && negb (t =? kTypeWideColumnEntity) then Ok (Some None, s)
      else match filter (ikey_ s) (value_ s) with
           | FilterFailed x => filter_fails x s
           | FilterSays d value skip_until =>
               let d := if bool_decide (d = kRemoveAndSkipUntil) && (Compare skip_until (user_key (ikey_ s)) <=? 0) then kKeep else d in
               let* (r, s) := apply_decision d value skip_until s in
               match r with
               | None => Ok (None, s)
               | Some _ => if 2 ^ 32 - 1 <? Z.of_nat (length value) then filter_fails Corruption s else Ok (r, s)
               end
           end
  end.

(** ** [NextFromInput] *)
(** How an iteration of the loop ends; [Return] skips the checks behind the loop. *)
Inductive Flow := Continue | Break | Return.

(** A user key that differs from the last one (or a version to be treated so). *)
Definition first_occurrence (equal_without_ts : bool) (s : CompactionIterator) : res (option (option bytes) * CompactionIterator) :=
  let* _ := assert_ (kNumInternalBytes <=? length (key s))%nat in
  let s := s <| current_key_ := key s |> <| key_ := None |> in
  let* prev_cmp := match full_history_ts_low_ c with
                   | None => Ok 0
                   | Some low => if (length (curr_ts_ s) =? 0)%nat then Ok 0 else uc_CompareTimestamp (curr_ts_ s) low
                   end in
  let* s := UpdateTimestampAndCompareWithFullHistoryLow s in
  let s :=
    if negb (has_current_user_key_ s) || (timestamp_size =? 0)%nat || match full_history_ts_low_ c with None => true | Some _ => false end
       || negb equal_without_ts || (0 <=? cmp_with_history_ts_low_ s) || (0 <=? prev_cmp)
    then s <| current_user_key_sequence_ := kMaxSequenceNumber |> <| current_user_key_snapshot_ := 0 |> <| has_current_user_key_ := true |>
    else s in
  let s := s <| has_outputted_key_ := false |> <| last_key_seq_zeroed_ := false |>
             <| current_key_committed_ := KeyCommitted (sequence (ikey_ s)) |> in
  if current_key_committed_ s then InvokeFilterIfNeeded s else Ok (Some None, s).
(** An older version of the user key. *)
Definition next_version (s : CompactionIterator) : res (option (option bytes) * CompactionIterator) :=
  let* s := update_current (sequence (ikey_ s)) (type (ikey_ s)) s in
  let s := s <| key_ := None |> in
  let s := s <| ikey_ := mkParsed (current_user_key_ s) (sequence (ikey_ s)) (type (ikey_ s)) |> in
  if current_key_committed_ s then Ok (Some None, s)
  else
    let* _ := assert_ (match snapshot_checker_ c with Some _ => true | None => false end) in
    let s := s <| current_key_committed_ := KeyCommitted (sequence (ikey_ s)) |> in
    if current_key_committed_ s then InvokeFilterIfNeeded s else Ok (Some None, s).

Definition is_put (t : Z) : bool :=
  (t =? kTypeValue) || (t =? kTypeBlobIndex) || (t =? kTypeWideColumnEntity) || (t =? kTypeValuePreferredSeqno).
(** The value behind a single deletion that was kept for conflict checking. *)
Definition clear_and_output (last_snapshot : Z) (s : CompactionIterator) : res CompactionIterator :=
  let t := type (ikey_ s) in
  let* _ := assert_ (is_put t) in
  let* _ := assert_ (last_snapshot <=? current_user_key_snapshot_ s) in
  let* s := if (t =? kTypeBlobIndex) || (t =? kTypeWideColumnEntity) || (t =? kTypeValuePreferredSeqno) then change_type kTypeValue s else Ok s in
  Ok (SetValid kKeepSDAndClearPut (s <| value_ := [] |>) <| clear_and_output_next_key_ := false |>).

(** Range tombstone start keys with the same user key. *)
Fixpoint skip_sentinels (user : bytes) (l : list Entry) : res (list Entry) :=
  match l with
  | [] => Ok []
  | e :: l' =>
      if i_sentinel e then
        let* o := ParseInternalKey (i_key e) in
        match o with
        | None => Ok l
        | Some k => let* same := EqualWithoutTimestamp user (user_key k) in if same : bool then skip_sentinels user l' else Ok l
        end
      else Ok l
  end.
(** The next entry [next] has the user key of the single deletion. *)
Definition single_delete_pair (gc : bool) (prev_snapshot : Z) (next : ParsedInternalKey) (s : CompactionIterator) : res (Flow * CompactionIterator) :=
  let seq := sequence (ikey_ s) in
  let drop_both s := AdvanceInputIter (count num_record_drop_obsolete (count num_record_drop_hidden s)) in
  if last_key_seq_zeroed_ s then
    let* _ := assert_ (bottommost_level_ c) in
    let* s := drop_both s in Ok (Continue, s)
  else if (prev_snapshot =? 0) || DefinitelyNotInSnapshot (sequence next) prev_snapshot then
    if type next =? kTypeSingleDeletion then Ok (Continue, count num_single_del_mismatch (count num_record_drop_obsolete s))
    else if type next =? kTypeDeletion then
      let s := count num_single_del_mismatch (count num_record_drop_obsolete s) in
      if enforce_single_del_contracts_ c then Ok (Return, Invalidate s <| status_ := Corruption |>) else Ok (Continue, s)
    else if negb gc then Ok (Continue, SetValid kKeepTsHistory s)
    else if has_outputted_key_ s || DefinitelyInSnapshot seq (earliest_write_conflict_snapshot_ c)
            || ((earliest_snapshot_ c <? earliest_write_conflict_snapshot_ c) && DefinitelyInSnapshot seq (earliest_snapshot_ c)) then
      let s := if is_put (type next) then s else count num_single_del_mismatch s in
      let* s := drop_both s in Ok (Continue, s)
    else Ok (Continue, SetValid kKeepSDForConflictCheck s <| clear_and_output_next_key_ := true |>)
  else Ok (Continue, SetValid kKeepSDForSnapshot s).
(** There is no next entry, or it has another user key. *)
Definition single_delete_alone (gc : bool) (s : CompactionIterator) : res CompactionIterator :=
  let s := s <| has_current_user_key_ := false |> in
  let* (gone, s) :=
    if match compaction_ c with Some p => negb (allow_ingest_behind p) | None => false end && DefinitelyInSnapshot (sequence (ikey_ s)) (earliest_snapshot_ c)
    then key_gone s else Ok (false, s) in
  if gone && gc then
    let s := count num_single_del_fallthru (count num_record_drop_obsolete s) in
    Ok (if bottommost_level_ c then s else count num_optimized_del_drop_obsolete s)
  else if last_key_seq_zeroed_ s then
    let* _ := assert_ (negb (ingest_behind c) && bottommost_level_ c) in
    Ok (count num_record_drop_obsolete (count num_record_drop_hidden s))
  else Ok (SetValid kKeepSD s).
Definition single_delete (prev_snapshot : Z) (s : CompactionIterator) : res (Flow * CompactionIterator) :=
  let gc := (timestamp_size =? 0)%nat || (match full_history_ts_low_ c with Some _ => true | None => false end && (cmp_with_history_ts_low_ s <? 0)) in
  let* s := AdvanceInputIter s in
  let* l := skip_sentinels (user_key (ikey_ s)) (input_ s) in
  let s := s <| input_ := l |> in
  let* o := same_user_next s in
  let* (flow, s) :=
    match o with
    | Some next =>
        let* _ := assert_ (match l with e :: _ => negb (i_sentinel e) | [] => false end) in
        single_delete_pair gc prev_snapshot next s
    | None => let* s := single_delete_alone gc s in Ok (Continue, s)
    end in
  Ok (flow, if Valid s then s <| at_next_ := true |> else s).

(** Versions in the snapshot range of a deletion at the bottommost level. *)
Fixpoint skip_covered (prev_snapshot : Z) (l : list Entry) (s : CompactionIterator) : res CompactionIterator :=
  let (paused, s) := IsPausingManualCompaction s in
  if paused : bool then Ok (s <| input_ := l |>)
  else
    let (down, s) := IsShuttingDown s in
    if down : bool then Ok (s <| input_ := l |>)
    else match l with
         | [] => Ok (s <| input_ := [] |>)
         | e :: l' =>
             let s := s <| input_ := l |> in
             let* o := same_user_next s in
             match o with
             | None => Ok s
             | Some next =>
                 if (prev_snapshot =? 0) || i_sentinel e || DefinitelyNotInSnapshot (sequence next) prev_snapshot then
                   let* s := AdvanceInputIter s in skip_covered prev_snapshot l' s
                 else Ok s
             end
         end.
Definition bottommost_delete (prev_snapshot : Z) (s : CompactionIterator) : res CompactionIterator :=
  let* _ := assert_ (match compaction_ c with Some p => negb (allow_ingest_behind p) | None => false end) in
  let* (gone, s) := key_gone s in
  let* _ := assert_ gone in
  let* s := AdvanceInputIter s in
  let* s := skip_covered prev_snapshot (input_ s) s in
  let* o := same_user_next s in
  Ok (match o with Some _ => SetValid kKeepDel s <| at_next_ := true |> | None => s end).

(** [ParsePackedValueWithSeqno]: a value with a preferred sequence number behind it. *)
Definition ParsePackedValueWithSeqno (value : bytes) : res (bytes * Z) :=
  let* _ := assert_ (8 <=? length value)%nat in
  Ok (take (length value - 8) value, DecodeFixed64 true (drop (length value - 8) value)).
Definition drop_range_deleted (s : CompactionIterator) : res CompactionIterator :=
  AdvanceInputIter (count num_record_drop_range_del (count num_record_drop_hidden s)).
Definition swap_preferred_seqno (s : CompactionIterator) : res CompactionIterator :=
  let seq := sequence (ikey_ s) in
  let* (unpacked_value, preferred_seqno) := ParsePackedValueWithSeqno (value_ s) in
  let* _ := assert_ ((preferred_seqno <? seq) || (seq =? 0)) in
  if ShouldDelete (key s) then drop_range_deleted s
  else
    let* after_swap := AppendInternalKey [] (mkParsed (user_key (ikey_ s)) (Z.min preferred_seqno seq) kTypeValue) in
    if ShouldDelete after_swap then Ok (SetValid kNewUserKey s)
    else
      let s := if seq =? 0 then s else count num_timed_put_swap_preferred_seqno s in
      let seq := if seq =? 0 then 0 else preferred_seqno in
      let* s := update_current seq kTypeValue s in
      Ok (SetValid kSwapPreferredSeqno (s <| key_ := None |> <| ikey_ := mkParsed (current_user_key_ s) seq kTypeValue |> <| value_ := unpacked_value |>)).

(** The output of the merge helper becomes the current entry. *)
Definition take_merged (x : ValidContext) (k v : bytes) (s : CompactionIterator) : res CompactionIterator :=
  let* o := ParseInternalKey k in
  match o with
  | None => Fail AssertFail
  | Some ik =>
      let* s := if match x with kMerge1 => negb (timestamp_size =? 0)%nat | _ => false end
                then let* ts := GetTimestamp ik timestamp_size in update_current_ts (sequence ik) (type ik) ts s
                else update_current (sequence ik) (type ik) s in
      Ok (SetValid x (s <| value_ := v |> <| key_ := None |> <| ikey_ := mkParsed (current_user_key_ s) (sequence ik) (type ik) |>))
  end.
(** The key to skip to. *)
Definition merge (prev_snapshot : Z) (s : CompactionIterator) : res (Flow * option bytes * CompactionIterator) :=
  if negb HasOperator then Ok (Return, None, s <| status_ := InvalidArgument |>)
  else
    let m := MergeUntil (input_ s) prev_snapshot (bottommost_level_ c) in
    let s := s <| input_ := m_rest m |> <| num_itered_ := num_itered_ s + m_itered m |> <| merge_out_iter_ := m_out m |>
               <| merge_in_progress := bool_decide (m_status m = None) |> in
    match m_status m with
    | Some x =>
        if bool_decide (x = OK) then
          match m_out m with
          | (k, v) :: _ => let* s := take_merged kMerge2 k v s in Ok (Continue, None, s)
          | [] => Ok (Continue, m_filtered_until m, s <| has_current_user_key_ := false |>)
          end
        else Ok (Return, None, s <| status_ := x |>)
    | None =>
        match m_out m with
        | (k, v) :: _ => let* s := take_merged kMerge2 k v s in Ok (Continue, None, s)
        | [] => Ok (Continue, m_filtered_until m, s <| has_current_user_key_ := false |>)
        end
    end.
(** A key that is not hidden and not a deletion to be dropped. *)
Definition output_record (s : CompactionIterator) : res CompactionIterator :=
  if ((timestamp_size =? 0)%nat || (cmp_with_history_ts_low_ s <? 0)) && ShouldDelete (key s) then drop_range_deleted s
  else Ok (SetValid kNewUserKey s).

Definition deletion_for_gc (s : CompactionIterator) : bool :=
  let t := type (ikey_ s) in (t =? kTypeDeletion) || ((t =? kTypeDeletionWithTimestamp) && (cmp_with_history_ts_low_ s <? 0)).
(** A deletion that nothing below the output level needs. *)
Definition obsolete_delete (s : CompactionIterator) : res (bool * CompactionIterator) :=
  if match compaction_ c with Some p => negb (allow_ingest_behind p) | None => false end && deletion_for_gc s
     && DefinitelyInSnapshot (sequence (ikey_ s)) (earliest_snapshot_ c)
  then key_gone s else Ok (false, s).
Definition may_swap_seqno (s : CompactionIterator) : res (bool * CompactionIterator) :=
  if (type (ikey_ s) =? kTypeValuePreferredSeqno) && DefinitelyInSnapshot (sequence (ikey_ s)) (earliest_snapshot_ c) then
    if bottommost_level_ c then Ok (true, s)
    else match compaction_ c with Some _ => key_gone s | None => Ok (false, s) end
  else Ok (false, s).
(** The rules, for a committed record: what is kept, what is dropped. *)
Definition apply_rules (last_sequence last_snapshot prev_snapshot : Z) (s : CompactionIterator) : res (Flow * option bytes * CompactionIterator) :=
  let go (m : res CompactionIterator) : res (Flow * option bytes * CompactionIterator) := let* s := m in Ok (Continue, None, s) in
  if clear_and_output_next_key_ s then go (clear_and_output last_snapshot s)
  else if type (ikey_ s) =? kTypeSingleDeletion then let* (flow, s) := single_delete prev_snapshot s in Ok (flow, None, s)
  else if negb (last_sequence =? kMaxSequenceNumber) && (last_snapshot <=? current_user_key_snapshot_ s) then
    let* _ := assert_ (current_user_key_sequence_ s <=? last_sequence) in
    go (AdvanceInputIter (count num_record_drop_hidden s))
  else
    let* (obsolete, s) := obsolete_delete s in
    if obsolete : bool then
      let s := count num_record_drop_obsolete s in
      go (AdvanceInputIter (if bottommost_level_ c then s else count num_optimized_del_drop_obsolete s))
    else if deletion_for_gc s && bottommost_level_ c then go (bottommost_delete prev_snapshot s)
    else
      let* (swap, s) := may_swap_seqno s in
      if swap : bool then go (swap_preferred_seqno s)
      else if type (ikey_ s) =? kTypeMerge then merge prev_snapshot s
      else go (output_record s).

(** The counters of a record, and what is remembered of it. *)
Definition load_record (e : Entry) (s : CompactionIterator) : CompactionIterator :=
  count num_input_records (s <| key_ := Some (i_key e) |> <| value_ := i_value e |>) <| is_range_del_ := i_sentinel e |>.
Definition count_input (e : Entry) (t : Z) (s : CompactionIterator) : CompactionIterator :=
  let s := if (t =? kTypeDeletion) || (t =? kTypeSingleDeletion) || (t =? kTypeDeletionWithTimestamp) then count num_input_deletion_records s
           else if t =? kTypeValuePreferredSeqno then count num_input_timed_put_records s else s in
  count_by total_input_raw_value_bytes (Z.of_nat (length (i_value e))) (count_by total_input_raw_key_bytes (Z.of_nat (length (i_key e))) s).
(** The user key and the timestamp against those of the last record. *)
Definition compare_with_last (user : bytes) (s : CompactionIterator) : res (bool * Z) :=
  if has_current_user_key_ s then
    let* same := EqualWithoutTimestamp user (current_user_key_ s) in
    let* r := if (timestamp_size =? 0)%nat then Ok 0
              else let* ts := ExtractTimestampFromUserKey user timestamp_size in uc_CompareTimestamp ts (curr_ts_ s) in
    Ok (same, r)
  else Ok (false, 0).
Definition finish_record (r : res (Flow * option bytes * CompactionIterator)) : res (Flow * CompactionIterator) :=
  let* (flow, skip, s) := r in
  match flow, skip with
  | Continue, Some target => let* s := SkipUntil target s in Ok (Continue, s)
  | _, _ => Ok (flow, s)
  end.
(** The record is [ikey_] now; [skip]: where the filter wants to go. *)
Definition decide_record (skip : option bytes) (s : CompactionIterator) : res (Flow * CompactionIterator) :=
  if negb (current_key_committed_ s) then
    let* _ := assert_ (match snapshot_checker_ c with Some _ => true | None => false end) in
    Ok (Break, SetValid kCurrentKeyUncommitted s)
  else
    let last_sequence := current_user_key_sequence_ s in
    let last_snapshot := current_user_key_snapshot_ s in
    let seq := sequence (ikey_ s) in
    let s := s <| current_user_key_sequence_ := seq |> in
    let* (snapshot, prev_snapshot, s) :=
      if visible_at_tip_ c then Ok (earliest_snapshot_ c, 0, s) else findEarliestVisibleSnapshot seq s in
    let s := s <| current_user_key_snapshot_ := snapshot |> in
    finish_record (match skip with
                   | Some target => Ok (Continue, Some target, s)
                   | None => apply_rules last_sequence last_snapshot prev_snapshot s
                   end).
(** One record of the input. *)
Definition process_record (e : Entry) (s : CompactionIterator) : res (Flow * CompactionIterator) :=
  let s := load_record e s in
  let* o := ParseInternalKey (i_key e) in
  match o with
  | None => Ok (Return, count num_input_corrupt_records s <| status_ := Corruption |>)
  | Some ik =>
      let s := s <| ikey_ := ik |> in
      if i_sentinel e then Ok (Break, SetValid kRangeDeletion s)
      else
        let s := count_input e (type ik) s in
        let* (equal_without_ts, cmp_ts) := compare_with_last (user_key ik) s in
        let* (r, s) :=
          if negb (has_current_user_key_ s) || negb equal_without_ts || negb (cmp_ts =? 0) then first_occurrence equal_without_ts s
          else next_version s in
        match r with None => Ok (Break, s) | Some skip => decide_record skip s end
  end.
(** The loop; [true]: it ended by a return. *)
Fixpoint next_loop (fuel : nat) (s : CompactionIterator) : res (bool * CompactionIterator) :=
  match fuel with
  | O => Fail OutOfFuel
  | S fuel =>
      if Valid s then Ok (false, s)
      else match input_ s with
           | [] => Ok (false, s)
           | e :: _ =>
               let (paused, s) := IsPausingManualCompaction s in
               if paused : bool then Ok (false, s)
               else
                 let (down, s) := IsShuttingDown s in
                 if down : bool then Ok (false, s)
                 else
                   let* (flow, s) := process_record e s in
                   match flow with
                   | Continue => next_loop fuel s
                   | Break => Ok (false, s)
                   | Return => Ok (true, s)
                   end
           end
  end.
Definition NextFromInput (s : CompactionIterator) : res CompactionIterator :=
  let s := Invalidate (s <| at_next_ := false |>) in
  let* (returned, s) := next_loop (2 + length (input_ s)) s in
  if (returned : bool) || negb (bool_decide (status_ s = OK)) then Ok s
  else
    let (down, s) := if Valid s then (false, s) else IsShuttingDown s in
    if down : bool then Ok (s <| status_ := ShutdownInProgress |>)
    else
      let (paused, s) := IsPausingManualCompaction s in
      if paused : bool then Ok (s <| status_ := ManualCompactionPaused |>)
      else if bool_decide (input_ s = []) && bool_decide (input_status = Corruption) then Ok (s <| status_ := Corruption |>)
      else Ok s.

(** ** Output *)
Definition ci_user_key (s : CompactionIterator) : bytes := if is_range_del_ s then user_key (ikey_ s) else current_user_key_ s.
Definition ExtractLargeValueIfNeeded (s : CompactionIterator) : res CompactionIterator :=
  match blob_file_builder_ c with
  | None => Ok s
  | Some add =>
      let (x, blob_index) := add (ci_user_key s) (value_ s) in
      if negb (bool_decide (x = OK)) then Ok (Invalidate (s <| status_ := x |>))
      else if (length blob_index =? 0)%nat then Ok s
      else change_type kTypeBlobIndex (s <| value_ := blob_index |>)
  end.
Definition relocate (s : CompactionIterator) : res CompactionIterator :=
  let '(x, (t, v)) := blob_gc (ikey_ s) (value_ s) in
  if negb (bool_decide (x = OK)) then Ok (Invalidate (s <| status_ := x |>))
  else let* s := if t =? type (ikey_ s) then Ok s else change_type t s in Ok (s <| value_ := v |>).
Definition zero_seqno (s : CompactionIterator) : res CompactionIterator :=
  let t := type (ikey_ s) in
  let* _ := assert_ (match compaction_ c with Some p => negb (allow_ingest_behind p) | None => false end) in
  let* _ := assert_ (negb ((t =? kTypeDeletion) || ((t =? kTypeSingleDeletion) && (timestamp_size =? 0)%nat))) in
  if (timestamp_size =? 0)%nat then
    let* s := update_current 0 t s in
    Ok (s <| ikey_ := mkParsed (user_key (ikey_ s)) 0 t |> <| last_key_seq_zeroed_ := true |>)
  else if match full_history_ts_low_ c with Some _ => true | None => false end && (cmp_with_history_ts_low_ s <? 0) then
    let ts := replicate timestamp_size Byte.x00 in
    let* k := SetTimestamp (ikey_ s) ts in
    let* s := update_current_ts 0 t ts s in
    Ok (s <| ikey_ := mkParsed (user_key k) 0 t |> <| last_key_seq_zeroed_ := true |>)
  else Ok s.
Definition PrepareOutput (s : CompactionIterator) : res CompactionIterator :=
  if negb (Valid s) then Ok s
  else
    let t := type (ikey_ s) in
    let* s := if is_range_del_ s then Ok s
              else if t =? kTypeValue then ExtractLargeValueIfNeeded s
              else if (t =? kTypeBlobIndex) || (t =? kTypeWideColumnEntity) then relocate s else Ok s in
    if Valid s && bottommost_level_ c && DefinitelyInSnapshot (sequence (ikey_ s)) (earliest_snapshot_ c) && negb (type (ikey_ s) =? kTypeMerge)
       && current_key_committed_ s && (sequence (ikey_ s) <=? preserve_seqno_after_ c) && negb (is_range_del_ s)
    then zero_seqno s else Ok s.

Definition SeekToFirst (s : CompactionIterator) : res CompactionIterator := let* s := NextFromInput s in PrepareOutput s.
Definition Next (s : CompactionIterator) : res CompactionIterator :=
  let* s :=
    match merge_out_iter_ s with
    | _ :: rest =>
        let s := s <| merge_out_iter_ := rest |> in
        match rest with
        | (k, v) :: _ => take_merged kMerge1 k v s
        | [] => NextFromInput (if merge_in_progress s then s <| has_current_user_key_ := false |> else s)
        end
    | [] => let* s := if at_next_ s then Ok s else AdvanceInputIter s in NextFromInput s
    end in
  PrepareOutput (if Valid s then s <| has_outputted_key_ := true |> else s).

(** A new iterator over [input]. *)
Definition newCompactionIterator (input : list Entry) : res CompactionIterator :=
  let* _ := assert_ (preserve_seqno_after_ c <=? earliest_snapshot_ c) in
  let* _ := assert_ (bool_decide (Sorted Z.lt (snapshots_ c))) in
  let* _ := assert_ (match full_history_ts_low_ c with Some low => (timestamp_size =? 0)%nat || (timestamp_size =? length low)%nat | None => true end) in
  let levels := match compaction_ c with Some p => number_levels p | None => 0%nat end in
  Ok (mkCI input 0 true [] None (Some []) [] OK (mkParsed [] 0 0) false false [] [] 0 0 false false [] false (replicate levels 0%nat) (λ _, 0) false 0 false false 0).
(** The loop of the job: the records that are written, and the final state. *)
Fixpoint collect (fuel : nat) (s : CompactionIterator) : res (list (bytes * bytes) * CompactionIterator) :=
  match fuel with
  | O => Fail OutOfFuel
  | S fuel =>
      if Valid s then
        let* s' := Next s in
        let* (l, s') := collect fuel s' in
        Ok ((key s, value_ s) :: l, s')
      else Ok ([], s)
  end.
End Iter.
