(* ===== verification/CompactionRef.v ===== *)
(** * What compaction keeps: a reference algorithm, and that readers see no difference

    The rules of the compaction iterator without its buffers, look-ahead flags and
    counters: a function from the merged records to the records that are written.
    A reader looks for the newest version of a key that its snapshot sees, first in
    the records of the compaction, then in what is below them in the tree.  Every
    snapshot that is alive reads the same before and after. *)
From S2P Require Import Prelude Bitfield Slice Coding Comparator DbFormat CompactionIter.
Local Open Scope Z_scope.

Abbreviation kv := (ParsedInternalKey * bytes)%type.
Definition seq_of (e : kv) : Z := sequence e.1.
Definition user_of (e : kv) : bytes := user_key e.1.
Definition type_of (e : kv) : Z := type e.1.
Definition is_sd (e : kv) : bool := type_of e =? kTypeSingleDeletion.
Definition is_del (e : kv) : bool := type_of e =? kTypeDeletion.
(** A value, in one of its representations. *)
Definition is_value (e : kv) : bool := (type_of e =? kTypeValue) || (type_of e =? kTypeBlobIndex) || (type_of e =? kTypeWideColumnEntity).
Definition same `{UC : Comparator} (u : bytes) (e : kv) : bool := Compare u (user_of e) =? 0.

(** ** Reading *)
Section reading.
Context `{UC : Comparator}.
Definition sees (s : Z) (u : bytes) (e : kv) : bool := same u e && (seq_of e <=? s).
(** The value of [u] in snapshot [s]. *)
Fixpoint read_at (s : Z) (u : bytes) (l : list kv) : option (Z * bytes) :=
  match l with
  | [] => None
  | e :: l => if sees s u e then if is_value e then Some (type_of e, e.2) else None else read_at s u l
  end.
End reading.

(** ** The snapshot stripes *)
Section stripes.
Context (snaps : list Z).
(** The earliest snapshot that sees a sequence number, and the latest that does not. *)
Definition stripe (q : Z) : Z := default kMaxSequenceNumber (snaps !! lower_bound q snaps).
Definition prev_snap (q : Z) : Z := match lower_bound q snaps with O => 0 | S j => default 0 (snaps !! j) end.
Context (Hsorted : StronglySorted Z.lt snaps) (Hrange : Forall (λ x, 0 < x < kMaxSequenceNumber) snaps).

Lemma lower_bound_spec q (l : list Z) : StronglySorted Z.lt l →
  (∀ i x, l !! i = Some x → (i < lower_bound q l)%nat → x < q) ∧ (∀ i x, l !! i = Some x → (lower_bound q l ≤ i)%nat → q ≤ x) ∧ (lower_bound q l ≤ length l)%nat.
Proof.
  clear. induction l as [|y l IH]; intros Hs; [done|]. apply StronglySorted_inv in Hs as [Hs Hy]. cbn [lower_bound length]. destruct (IH Hs) as (H1 & H2 & H3).
  destruct (Z.ltb_spec y q) as [Hlt|Hge].
  - split_and!; [|..|lia]; intros [|i] x Hx Hi; simplify_eq/=; try lia; [eapply H1|eapply H2]; try done; lia.
  - split_and!; [intros; lia| |lia]. intros [|i] x Hx _; simplify_eq/=; [done|]. rewrite Forall_forall in Hy. specialize (Hy x (list_elem_of_lookup_2 _ _ _ Hx)). lia.
Qed.
Lemma stripe_spec q : (∃ i, snaps !! i = Some (stripe q) ∧ q ≤ stripe q ∧ ∀ x, x ∈ snaps → q ≤ x → stripe q ≤ x) ∨
  (stripe q = kMaxSequenceNumber ∧ ∀ x, x ∈ snaps → x < q).
Proof.
  destruct (lower_bound_spec q snaps Hsorted) as (H1 & H2 & H3). unfold stripe. destruct (snaps !! lower_bound q snaps) as [x|] eqn:E; cbn [default].
  - left. exists (lower_bound q snaps). split; [done|]. unfold id. split; [by eapply H2|]. intros y [j Hj]%list_elem_of_lookup_1 Hq.
    destruct (Nat.lt_ge_cases j (lower_bound q snaps)) as [Hlt|Hge]; [pose proof (H1 j y Hj Hlt); lia|].
    destruct (Nat.eq_dec j (lower_bound q snaps)) as [->|Hne]; [by simplify_eq|]. pose proof (sorted_lookup _ _ _ _ _ _ Hsorted E Hj ltac:(lia)). lia.
  - right. split; [done|]. apply lookup_ge_None in E. intros y [j Hj]%list_elem_of_lookup_1. apply (H1 j); [done|]. apply lookup_lt_Some in Hj. lia.
Qed.
Lemma stripe_mono q q' : q ≤ q' → stripe q ≤ stripe q'.
Proof.
  intros Hq. destruct (stripe_spec q) as [(i & Hi & H1 & H2)|[-> H]], (stripe_spec q') as [(i' & Hi' & H1' & H2')|[-> H']].
  - apply H2; [by eapply list_elem_of_lookup_2|lia].
  - rewrite Forall_lookup in Hrange. specialize (Hrange _ _ Hi). cbn in Hrange. lia.
  - specialize (H _ (list_elem_of_lookup_2 _ _ _ Hi')). lia.
  - done.
Qed.
Lemma prev_spec q : (prev_snap q = 0 ∧ ∀ x, x ∈ snaps → q ≤ x) ∨ (0 < prev_snap q < q ∧ prev_snap q ∈ snaps ∧ ∀ x, x ∈ snaps → x < q → x ≤ prev_snap q).
Proof.
  destruct (lower_bound_spec q snaps Hsorted) as (H1 & H2 & H3). unfold prev_snap. destruct (lower_bound q snaps) as [|j] eqn:E.
  - left. split; [done|]. intros x [i Hi]%list_elem_of_lookup_1. apply (H2 i); [done|lia].
  - right. destruct (lookup_lt_is_Some_2 snaps j ltac:(lia)) as [y Hy]. rewrite Hy. cbn [default]. unfold id. split; [|split; [by eapply list_elem_of_lookup_2|]].
    + rewrite Forall_lookup in Hrange. specialize (Hrange _ _ Hy). cbn in Hrange. specialize (H1 j y Hy ltac:(lia)). lia.
    + intros x [i Hi]%list_elem_of_lookup_1 Hx. destruct (Nat.lt_trichotomy i j) as [Hlt|[->|Hgt]]; [|by simplify_eq|].
      * pose proof (sorted_lookup _ _ _ _ _ _ Hsorted Hi Hy Hlt). lia.
      * pose proof (H2 i x Hi ltac:(lia)). lia.
Qed.
Lemma same_stripe q q' : q' ≤ q → prev_snap q = 0 ∨ prev_snap q < q' → stripe q' = stripe q.
Proof.
  intros Hq Hp. apply Z.le_antisymm; [by apply stripe_mono|]. destruct (stripe_spec q) as [(i & Hi & H1 & H2)|[-> H]], (stripe_spec q') as [(i' & Hi' & H1' & H2')|[-> H']]; try lia.
  - apply H2; [by eapply list_elem_of_lookup_2|]. destruct (Z.le_gt_cases q (stripe q')) as [|Hgt]; [done|]. pose proof (list_elem_of_lookup_2 _ _ _ Hi') as Hin.
    destruct (prev_spec q) as [[E H]|(? & _ & H)]; [by apply H|]. specialize (H _ Hin Hgt). lia.
  - rewrite Forall_lookup in Hrange. specialize (Hrange _ _ Hi). cbn in Hrange. lia.
  - pose proof (list_elem_of_lookup_2 _ _ _ Hi') as Hin. specialize (H _ Hin). destruct (prev_spec q) as [[E H']|(? & _ & H')]; [specialize (H' _ Hin)|specialize (H' _ Hin H)]; lia.
Qed.
Lemma older_stripe q q' : 0 < prev_snap q → q' ≤ prev_snap q → stripe q' < stripe q.
Proof.
  intros Hp Hq. destruct (prev_spec q) as [[E _]|(Hpq & Hin & _)]; [lia|]. destruct (stripe_spec q') as [(i' & Hi' & _ & H2)|[_ H]]; [|specialize (H _ Hin); lia].
  specialize (H2 _ Hin Hq). destruct (stripe_spec q) as [(i & _ & H1 & _)|[-> _]]; [lia|]. rewrite Forall_lookup in Hrange. specialize (Hrange _ _ Hi'). cbn in Hrange. lia.
Qed.

(** The readers: the snapshots, and whoever reads the newest state. *)
Context (top : Z) (Htop : top < kMaxSequenceNumber).
Definition live (s : Z) : Prop := s ∈ snaps ∨ top ≤ s.
Definition earliest : Z := default kMaxSequenceNumber (head snaps).
Lemma stripe_sees s q q' : live s → q' ≤ top → stripe q = stripe q' → q ≤ s → q' ≤ s.
Proof.
  intros [Hs|Hs] Ht E Hq; [|lia]. destruct (stripe_spec q) as [(i & Hi & H1 & H2)|[_ H]]; [|specialize (H _ Hs); lia]. specialize (H2 _ Hs Hq).
  destruct (stripe_spec q') as [(i' & _ & H1' & _)|[E' _]]; [lia|]. rewrite Forall_lookup in Hrange. specialize (Hrange _ _ Hi). cbn in Hrange. lia.
Qed.
Lemma earliest_least x : x ∈ snaps → earliest ≤ x.
Proof.
  unfold earliest. destruct snaps as [|y l]; [by intros ?%elem_of_nil|]. cbn [head default]. unfold id. intros [->|Hx]%elem_of_cons; [done|].
  apply StronglySorted_inv in Hsorted as [_ H]. rewrite Forall_forall in H. specialize (H x Hx). lia.
Qed.
Lemma live_early s q : live s → q ≤ top → q ≤ earliest → q ≤ s.
Proof. intros [Hs|Hs] Ht Hq; [|lia]. pose proof (earliest_least s Hs). lia. Qed.
Lemma early_stripe q : q ≤ earliest → stripe q = earliest ∧ prev_snap q = 0.
Proof.
  intros Hq. assert (E : lower_bound q snaps = 0%nat).
  { unfold earliest in Hq. destruct snaps as [|y l]; [done|]. cbn [head default lower_bound] in *. unfold id in Hq. by rewrite (proj2 (Z.ltb_ge _ _)). }
  unfold stripe, prev_snap, earliest. rewrite E. by destruct snaps.
Qed.
Lemma late_prev q : earliest < q → q ≤ top → 0 < prev_snap q ∧ earliest ≤ prev_snap q.
Proof.
  intros Hq Ht. assert (Hin : earliest ∈ snaps).
  { unfold earliest in *. destruct snaps as [|y l]; cbn [head default] in *; [lia|]. apply elem_of_cons. by left. }
  destruct (prev_spec q) as [[_ H]|(H0 & _ & H)]; specialize (H _ Hin); lia.
Qed.
End stripes.

(** ** The rules *)
(** What is known of the user key that is being compacted: the stripe of its last
    version, whether a record of it was written (by a [Next]), whether the last one
    was written with sequence number zero, whether the next value has to be cleared. *)
Record Ctx := mkCtx { cu : bytes; last : option Z; outputted : bool; zeroed : bool; clear : bool }.
Definition fresh (u : bytes) : Ctx := mkCtx u None false false false.

Section rules.
Context `{UC : Comparator} (snaps : list Z) (ewc preserve : Z) (bottom : bool) (gone : bytes → bool).
Notation stripe := (stripe snaps). Notation prev_snap := (prev_snap snaps). Notation earliest := (earliest snaps).

Definition enter (x0 : option Ctx) (e : kv) : Ctx :=
  match x0 with Some x => if same (cu x) e then x else fresh (user_of e) | None => fresh (user_of e) end.
Definition in_stripe (x : Ctx) (t : Z) : Ctx := mkCtx (cu x) (Some t) (outputted x) (zeroed x) false.
Definition next_same (u : bytes) (l : list kv) : option kv := match l with n :: _ => if same u n then Some n else None | [] => None end.
(** No transaction can conflict with a write of this age. *)
Definition no_conflict (q : Z) : bool := (q <=? ewc) || ((earliest <? ewc) && (q <=? earliest)).
Definition zeroable (e : kv) : bool := bottom && (seq_of e <=? earliest) && (seq_of e <=? preserve).
Definition written (u : bytes) (e : kv) : kv := (mkParsed u (if zeroable e then 0 else seq_of e) (type_of e), e.2).
Definition cleared (e : kv) : kv := (mkParsed (user_of e) (seq_of e) kTypeValue, []).
Definition write (started : bool) (x : Ctx) (e : kv) : list kv * option Ctx :=
  ([written (cu x) e], Some (mkCtx (cu x) (last x) started (zeroed x || zeroable e) (clear x))).
Definition hides (u : bytes) (prev : Z) (e : kv) : bool := same u e && ((prev =? 0) || (prev <? seq_of e)).
Fixpoint skip_versions (u : bytes) (prev : Z) (l : list kv) : list kv :=
  match l with e :: l' => if hides u prev e then skip_versions u prev l' else l | [] => [] end.

(** A single deletion: what is written, what is known then, the rest of the input. *)
Definition sd_step (started : bool) (x x1 : Ctx) (e : kv) (l : list kv) : list kv * option Ctx * list kv :=
  let prev := prev_snap (seq_of e) in
  match next_same (cu x) l with
  | Some n =>
      if zeroed x then ([], Some x1, tail l)
      else if (prev =? 0) || (prev <? seq_of n) then
        if is_sd n || is_del n then ([], Some x1, l)
        else if outputted x || no_conflict (seq_of e) then ([], Some x1, tail l)
        else (write started (mkCtx (cu x1) (last x1) (outputted x1) (zeroed x1) true) e, l)
      else (write started x1 e, l)
  | None => if (seq_of e <=? earliest) && gone (cu x) || zeroed x then ([], None, l) else ([written (cu x) e], None, l)
  end.
Definition step (started : bool) (x0 : option Ctx) (e : kv) (l : list kv) : list kv * option Ctx * list kv :=
  let x := enter x0 e in
  let t := stripe (seq_of e) in
  let x1 := in_stripe x t in
  if clear x then (write started x1 (cleared e), l)
  else if is_sd e then sd_step started x x1 e l
  else if match last x with Some t' => t' <=? t | None => false end then ([], Some x1, l)
  else if is_del e && (seq_of e <=? earliest) && gone (cu x) then ([], Some x1, l)
  else if is_del e && bottom then
    let l' := skip_versions (cu x) (prev_snap (seq_of e)) l in
    match next_same (cu x) l' with Some _ => (write started x1 e, l') | None => ([], Some x1, l') end
  else (write started x1 e, l).
Fixpoint compact (fuel : nat) (started : bool) (x : option Ctx) (l : list kv) : list kv :=
  match fuel, l with
  | S fuel, e :: l =>
      let '(o, x, l) := step started x e l in o ++ compact fuel (started || match o with [] => false | _ => true end) x l
  | _, _ => []
  end.
Definition compaction (l : list kv) : list kv := compact (length l) false None l.
End rules.

(** ** Single deletion contracts *)
Section contract.
Context `{UC : Comparator}.
Definition versions (u : bytes) (l : list kv) : list kv := List.filter (same u) l.
Fixpoint alternates (l : list kv) : bool :=
  match l with
  | a :: l' => (is_sd a || is_value a) && match l' with b :: _ => xorb (is_sd a) (is_sd b) | [] => true end && alternates l'
  | [] => true
  end.
(** A key is never deleted by single deletions, or single deletions and values alternate. *)
Definition sd_contract (sd_key : bytes → bool) (l : list kv) : Prop :=
  ∀ u, if sd_key u then alternates (versions u l) = true else Forall (λ e, is_sd e = false) (versions u l).
End contract.
(** Newer versions come first. *)
Definition newer `{UC : Comparator} (a b : kv) : Prop := Compare (user_of a) (user_of b) = 0 → seq_of b < seq_of a.
Definition user_le `{UC : Comparator} (a b : kv) : Prop := Compare (user_of a) (user_of b) ≤ 0.
Definition plain (e : kv) : bool := is_value e || is_del e || is_sd e.

Section preserve.
Context `{UL : ComparatorLaws} (snaps : list Z) (ewc preserve : Z) (bottom : bool) (gone : bytes → bool).
Context (Hsorted : StronglySorted Z.lt snaps) (Hrange : Forall (λ x, 0 < x < kMaxSequenceNumber) snaps).
Context (top : Z) (Htop : top < kMaxSequenceNumber) (sd_key : bytes → bool) (below : list kv).
Context (Hgone : ∀ u, gone u = true → versions u below = []) (Hbottom : bottom = true → ∀ u, gone u = true).
Context (Hsd : ∀ u u', Compare u u' = 0 → sd_key u = sd_key u').
Notation stripe := (stripe snaps). Notation prev_snap := (prev_snap snaps). Notation earliest := (earliest snaps).
Notation step := (step snaps ewc preserve bottom gone). Notation compact := (compact snaps ewc preserve bottom gone).
Notation written := (written snaps preserve bottom).

Lemma early_same q : q ≤ earliest → stripe q = earliest.
Proof. intros H. by apply early_stripe. Qed.
Lemma same_refl e : same (user_of e) e = true.
Proof. unfold same. rewrite Compare_eq. done. Qed.
Lemma Compare_zero_sym a b : Compare a b = 0 → Compare b a = 0.
Proof. intros H. pose proof (Compare_opp a b). rewrite H in H0. cbn in H0. by apply Z.sgn_null_iff. Qed.
Lemma same_iff u e : same u e = true ↔ Compare u (user_of e) = 0.
Proof. unfold same. apply Z.eqb_eq. Qed.
Lemma same_compat u u' e : Compare u u' = 0 → same u e = same u' e.
Proof.
  intros H. apply eq_true_iff_eq. rewrite !same_iff. split; intros H'; eapply Compare_zero_trans; try done. by apply Compare_zero_sym.
Qed.
Lemma versions_compat u u' l : Compare u u' = 0 → versions u l = versions u' l.
Proof. intros H. unfold versions. induction l as [|e l IH]; [done|]. cbn [List.filter]. by rewrite (same_compat _ _ _ H), IH. Qed.
Lemma versions_app u l l' : versions u (l ++ l') = versions u l ++ versions u l'.
Proof. apply List.filter_app. Qed.

(** *** Reading *)
Lemma read_versions s u l : read_at s u l = read_at s u (versions u l).
Proof.
  unfold versions. induction l as [|e l IH]; [done|]. cbn [read_at List.filter]. unfold sees. destruct (same u e) eqn:E; cbn [andb read_at]; [|done].
  unfold sees. by rewrite E, IH.
Qed.
Lemma read_app_congr s u o l l' : read_at s u l = read_at s u l' → read_at s u (o ++ l) = read_at s u (o ++ l').
Proof. intros H. induction o as [|e o IH]; [done|]. cbn [app read_at]. by rewrite IH. Qed.
(** Entries that the reader does not see may be left out. *)
Lemma read_filter s u (keep : kv → bool) l l' : (∀ e, e ∈ l → keep e = false → sees s u e = false) →
  read_at s u (List.filter keep l ++ l') = read_at s u (l ++ l').
Proof.
  induction l as [|e l IH]; intros H; [done|]. cbn [List.filter]. pose proof (H e ltac:(by apply elem_of_cons; left)) as He.
  assert (IH' := IH ltac:(intros y Hy; apply H; apply elem_of_cons; by right)). destruct (keep e); cbn [app read_at].
  - by rewrite IH'.
  - by rewrite He, IH'.
Qed.

(** The data: what is still to be compacted, with what is below. *)
Record data_ok (l : list kv) : Prop := {
  data_order : StronglySorted user_le l; data_newer : StronglySorted newer (l ++ below);
  data_range : Forall (λ e, 0 ≤ seq_of e ≤ top) l; data_plain : Forall (λ e, plain e = true) l;
  data_contract : sd_contract sd_key (l ++ below) }.
Lemma alternates_tail a l : alternates (a :: l) = true → alternates l = true.
Proof. cbn [alternates]. intros H. apply andb_true_iff in H as [_ H]. done. Qed.
Lemma contract_tail e l : sd_contract sd_key (e :: l) → sd_contract sd_key l.
Proof.
  intros H u. specialize (H u). unfold versions in *. cbn [List.filter] in H. destruct (same u e); [|done]. destruct (sd_key u).
  - by eapply alternates_tail.
  - by apply Forall_inv_tail in H.
Qed.
Lemma data_tail e l : data_ok (e :: l) → data_ok l.
Proof.
  intros [H1 H2 H3 H4 H5]. constructor.
  - by apply StronglySorted_inv in H1 as [? _].
  - by apply StronglySorted_inv in H2 as [? _].
  - by apply Forall_inv_tail in H3.
  - by apply Forall_inv_tail in H4.
  - by eapply contract_tail.
Qed.

(** What is left to read when the rules know [x]. *)
Definition covered (x : Ctx) (e : kv) : bool :=
  negb (sd_key (cu x)) && same (cu x) e && match last x with Some t => t <=? stripe (seq_of e) | None => false end.
Definition prune (x : Ctx) (l : list kv) : list kv :=
  if clear x then match l with n :: l' => cleared n :: l' | [] => [] end else List.filter (λ e, negb (covered x e)) l.
Record ctx_ok (x : Ctx) (l : list kv) : Prop := {
  ctx_users : Forall (λ e, Compare (cu x) (user_of e) ≤ 0) l;
  ctx_last : ∀ t, last x = Some t → ∃ q, t = stripe q ∧ q ≤ top ∧ (zeroed x = true → q ≤ earliest) ∧ Forall (λ e, same (cu x) e = true → seq_of e < q) l;
  ctx_zeroed : zeroed x = true → bottom = true ∧ is_Some (last x);
  ctx_clear : clear x = true → sd_key (cu x) = true ∧ ∃ n l', l = n :: l' ∧ same (cu x) n = true ∧ is_value n = true;
  ctx_sd : sd_key (cu x) = true → clear x = false → ∀ t n l', last x = Some t → l = n :: l' → same (cu x) n = true → is_sd n = false → stripe (seq_of n) < t }.
Definition known (x0 : option Ctx) (l : list kv) : Prop := match x0 with Some x => ctx_ok x l | None => True end.
Definition left (x0 : option Ctx) (l : list kv) : list kv := match x0 with Some x => prune x l | None => l end.

Lemma prune_id x l : clear x = false → (∀ y, y ∈ l → covered x y = false) → prune x l = l.
Proof.
  intros Hc H. unfold prune. rewrite Hc. clear Hc. induction l as [|e l IH]; [done|]. cbn [List.filter]. rewrite H by (apply elem_of_cons; by left). cbn [negb].
  by rewrite IH by (intros y Hy; apply H, elem_of_cons; by right).
Qed.
Lemma fresh_ok e l : data_ok (e :: l) → ctx_ok (fresh (user_of e)) (e :: l).
Proof.
  intros H. constructor; cbn [fresh cu last zeroed clear]; try done. destruct (StronglySorted_inv (data_order _ H)) as [_ H']. constructor; [by rewrite Compare_eq|done].
Qed.
Lemma enter_ok x0 e l : data_ok (e :: l) → known x0 (e :: l) →
  ctx_ok (enter x0 e) (e :: l) ∧ same (cu (enter x0 e)) e = true ∧ left x0 (e :: l) = prune (enter x0 e) (e :: l).
Proof.
  intros Hd Hx. assert (Hfresh : prune (fresh (user_of e)) (e :: l) = e :: l).
  { apply prune_id; [done|]. intros y _. unfold covered. cbn [fresh last]. by rewrite andb_false_r. }
  destruct x0 as [x|]; cbn [enter known left] in *.
  - destruct (same (cu x) e) eqn:Es; [done|]. split; [by apply fresh_ok|]. split; [apply same_refl|]. rewrite Hfresh. apply prune_id.
    + destruct (clear x) eqn:Ec; [|done]. destruct (ctx_clear _ _ Hx Ec) as (_ & n & l' & [= <- <-] & ? & _). congruence.
    + intros y Hy. unfold covered. assert (same (cu x) y = false) as ->; [|by rewrite andb_false_r].
      pose proof (Forall_inv (ctx_users _ _ Hx)) as Hle. cbn in Hle. assert (Hne : Compare (cu x) (user_of e) ≠ 0) by (intros E; apply same_iff in E; congruence).
      assert (Hlt : Compare (cu x) (user_of y) < 0).
      { apply elem_of_cons in Hy as [->|Hy]; [lia|]. apply (Compare_lt_trans _ (user_of e)). left. split; [lia|].
        destruct (StronglySorted_inv (data_order _ Hd)) as [_ H']. rewrite Forall_forall in H'. by apply H'. }
      apply Z.eqb_neq. lia.
  - split; [by apply fresh_ok|]. split; [apply same_refl|]. by rewrite Hfresh.
Qed.

Lemma written_reads s u u0 e l : live snaps top s → same u0 e = true → 0 ≤ seq_of e ≤ top → read_at s u (written u0 e :: l) = read_at s u (e :: l).
Proof.
  intros Hlive Hs He. cbn [read_at]. assert (sees s u (written u0 e) = sees s u e) as ->; [|done]. unfold sees. assert (same u (written u0 e) = same u e) as ->.
  { unfold same at 1. cbn [written user_of fst user_key]. apply same_iff in Hs. apply eq_true_iff_eq. rewrite same_iff, Z.eqb_eq. split; intros H.
    - by eapply Compare_zero_trans.
    - eapply Compare_zero_trans; [done|]. by apply Compare_zero_sym. }
  unfold seq_of at 1. cbn [written fst sequence]. destruct (zeroable snaps preserve bottom e) eqn:Ez; [|done]. apply andb_true_iff in Ez as [[_ Ez%Z.leb_le]%andb_true_iff _].
  pose proof (live_early snaps Hsorted Hrange top s (seq_of e) Hlive ltac:(lia) Ez). by rewrite !(proj2 (Z.leb_le _ _)) by lia.
Qed.
Lemma sd_prune x l : sd_key (cu x) = true → clear x = false → prune x l = l.
Proof. intros H Hc. apply prune_id; [done|]. intros y _. unfold covered. by rewrite H. Qed.

(** *** What one record does *)
Section record.
Context (x : Ctx) (e : kv) (l : list kv) (Hd : data_ok (e :: l)) (Hx : ctx_ok x (e :: l)) (Hs : same (cu x) e = true).
Notation t := (stripe (seq_of e)).

Lemma older y : y ∈ l ++ below → same (cu x) y = true → seq_of y < seq_of e.
Proof.
  intros Hy Hsame. destruct (StronglySorted_inv (data_newer _ Hd)) as [_ H]. rewrite Forall_forall in H. apply (H y Hy). pose proof Hs as Hs'. apply same_iff in Hs', Hsame.
  eapply Compare_zero_trans; [by apply Compare_zero_sym|done].
Qed.
Lemma older_stripes y : y ∈ l → same (cu x) y = true → stripe (seq_of y) ≤ t.
Proof. intros Hy Hsame. apply stripe_mono; [done..|]. pose proof (older y ltac:(set_solver) Hsame). lia. Qed.
Lemma e_range : 0 ≤ seq_of e ≤ top.
Proof. exact (Forall_inv (data_range _ Hd)). Qed.
Lemma last_stripe t' : last x = Some t' → t ≤ t'.
Proof.
  intros H. destruct (ctx_last _ _ Hx _ H) as (q & -> & Hq & _ & Hall). apply stripe_mono; [done..|]. apply Forall_inv in Hall. specialize (Hall Hs). lia.
Qed.
Lemma uncovered : clear x = false → sd_key (cu x) = true ∨ (match last x with Some t' => t' <=? t | None => false end = false) → prune x (e :: l) = e :: l.
Proof.
  intros Hc H. apply prune_id; [done|]. intros y Hy. unfold covered. destruct H as [->|H]; [done|]. destruct (last x) as [t'|]; [|by rewrite andb_false_r].
  destruct (same (cu x) y) eqn:Ey; [|by rewrite andb_false_r]. apply Z.leb_gt in H. rewrite (proj2 (Z.leb_gt _ _)); [by rewrite andb_false_r|].
  apply elem_of_cons in Hy as [->|Hy]; [done|]. pose proof (older_stripes y Hy Ey). lia.
Qed.
Lemma next_ctx x' l' : l' `suffix_of` l → cu x' = cu x → last x' = Some t → (zeroed x' = true → zeroed x = true ∨ zeroable snaps preserve bottom e = true) →
  (clear x' = true → sd_key (cu x) = true ∧ ∃ n l2, l' = n :: l2 ∧ same (cu x) n = true ∧ is_value n = true) →
  (sd_key (cu x) = true → clear x' = false → ∀ n l2, l' = n :: l2 → same (cu x) n = true → is_sd n = false → stripe (seq_of n) < t) → ctx_ok x' l'.
Proof.
  intros [pre Hpre] Hcu Hlast Hz Hc Hk. assert (Hz' : zeroed x' = true → bottom = true ∧ seq_of e ≤ earliest).
  { intros [H|H]%Hz.
    - destruct (ctx_zeroed _ _ Hx H) as [Hb [t' Ht']]. destruct (ctx_last _ _ Hx _ Ht') as (q & _ & _ & Hq & Hall). apply Forall_inv in Hall. specialize (Hall Hs). specialize (Hq H).
      split; [done|lia].
    - apply andb_true_iff in H as [[H1 H%Z.leb_le]%andb_true_iff _]. done. }
  constructor; rewrite ?Hcu.
  - pose proof (Forall_inv_tail (ctx_users _ _ Hx)) as H. rewrite Hpre in H. by apply Forall_app in H as [_ H].
  - rewrite Hlast. intros t' [= <-]. exists (seq_of e). split; [done|]. split; [apply e_range|]. split; [by intros [_ ?]%Hz'|]. apply Forall_forall. intros y Hy Hsame.
    apply older; [|done]. rewrite Hpre. set_solver.
  - intros [H _]%Hz'. rewrite Hlast. eauto.
  - done.
  - intros H1 H2 t' n l2. rewrite Hlast. intros [= <-] -> ? ?. by eapply Hk.
Qed.

Lemma versions_here : versions (cu x) (e :: l ++ below) = e :: versions (cu x) (l ++ below).
Proof. unfold versions. cbn [List.filter]. by rewrite Hs. Qed.
Lemma alternating : sd_key (cu x) = true → alternates (e :: versions (cu x) (l ++ below)) = true.
Proof. intros H. pose proof (data_contract _ Hd (cu x)) as Hc. rewrite H in Hc. cbn [app] in Hc. by rewrite versions_here in Hc. Qed.
Lemma is_sd_key : is_sd e = true → sd_key (cu x) = true.
Proof.
  intros H. pose proof (data_contract _ Hd (cu x)) as Hc. destruct (sd_key (cu x)); [done|]. cbn [app] in Hc. rewrite versions_here in Hc. apply Forall_inv in Hc. congruence.
Qed.
Lemma sd_next n l2 : sd_key (cu x) = true → l = n :: l2 → same (cu x) n = true → is_sd n = negb (is_sd e) ∧ (is_sd n = false → is_value n = true).
Proof.
  intros Hk E Hn. pose proof (alternating Hk) as Ha. rewrite E in Ha. cbn [app] in Ha. unfold versions in Ha. cbn [List.filter] in Ha. rewrite Hn in Ha. cbn [alternates] in Ha.
  apply andb_true_iff in Ha as [[_ Ha]%andb_true_iff [[Hb _]%andb_true_iff _]%andb_true_iff]. split; [by destruct (is_sd e), (is_sd n)|]. intros En. by rewrite En in Hb.
Qed.
Lemma none_left l' : l' `suffix_of` l → next_same (cu x) l' = None → versions (cu x) l' = [].
Proof.
  intros [pre E] H. pose proof (StronglySorted_inv (data_order _ Hd)) as [Ho _]. pose proof (Forall_inv_tail (ctx_users _ _ Hx)) as Hu.
  rewrite E in Ho, Hu. apply StronglySorted_app_1_r in Ho. apply Forall_app in Hu as [_ Hu]. destruct l' as [|n l2]; [done|].
  cbn [next_same] in H. destruct (same (cu x) n) eqn:En; [done|]. apply Forall_inv in Hu. cbn in Hu. apply Z.eqb_neq in En. apply StronglySorted_inv in Ho as [_ Ho]. rewrite Forall_forall in Ho.
  assert (Hall : ∀ y, y ∈ n :: l2 → same (cu x) y = false).
  { intros y Hy. apply Z.eqb_neq. apply elem_of_cons in Hy as [->|Hy]; [done|]. pose proof (Compare_lt_trans (cu x) (user_of n) (user_of y) ltac:(left; split; [lia|by apply Ho])). lia. }
  clear -Hall. unfold versions. induction (n :: l2) as [|y k IH]; [done|]. cbn [List.filter]. rewrite Hall by set_solver. apply IH. intros; apply Hall; set_solver.
Qed.

(** A reader: [u] in snapshot [s]. *)
Section reader.
Context (s : Z) (u : bytes) (Hlive : live snaps top s).
Notation rd l := (read_at s u (l ++ below)).
Lemma sees_older y : same (cu x) y = true → stripe (seq_of y) = t → sees s u y = true → sees s u e = true.
Proof.
  intros Hy Ht H. pose proof e_range as He. pose proof Hs as Hs'. unfold sees in H |- *. apply andb_true_iff in H as [H1%same_iff H2%Z.leb_le]. apply andb_true_iff. apply same_iff in Hy, Hs'. split.
  - apply same_iff. eapply Compare_zero_trans; [done|]. eapply Compare_zero_trans; [|done]. by apply Compare_zero_sym.
  - apply Z.leb_le. by apply (stripe_sees snaps Hsorted Hrange top s (seq_of y)); [|lia|..].
Qed.
Lemma unseen_pruned x' : cu x' = cu x → last x' = Some t → clear x' = false → sees s u e = false → rd (prune x' l) = rd l.
Proof.
  intros Hcu Hl Hc He. unfold prune. rewrite Hc. apply read_filter. intros y Hy Hcov%negb_false_iff. unfold covered in Hcov. rewrite Hcu, Hl in Hcov.
  apply andb_true_iff in Hcov as [[_ Hsame]%andb_true_iff Hle%Z.leb_le]. destruct (sees s u y) eqn:E; [|done]. apply sees_older in E; [congruence|done|].
  pose proof (older_stripes y Hy Hsame). lia.
Qed.
Lemma kept_reads x' : cu x' = cu x → last x' = Some t → clear x' = false → rd (written (cu x) e :: prune x' l) = rd (e :: l).
Proof.
  intros. cbn [app]. rewrite written_reads by (done || apply e_range). cbn [read_at]. destruct (sees s u e) eqn:E; [done|]. by apply unseen_pruned.
Qed.
Lemma same_reader y : same (cu x) y = true → same u y = true → Compare u (cu x) = 0.
Proof. intros H%same_iff H'%same_iff. eapply Compare_zero_trans; [done|]. by apply Compare_zero_sym. Qed.
Lemma pair_dropped n l2 : is_sd e = true → l = n :: l2 → same (cu x) n = true → stripe (seq_of n) = t → rd l2 = rd (e :: l).
Proof.
  intros Hsd' E Hn Ht. pose proof (is_sd_key Hsd') as Hk. destruct (sd_next n l2 Hk E Hn) as [Hv _]. rewrite Hsd' in Hv. cbn [negb] in Hv.
  assert (Ha := alternating Hk). pose proof older as Hold. rewrite E in Ha, Hold |- *. cbn [app] in Ha |- *. cbn [read_at].
  destruct (sees s u e) eqn:Ee; [|destruct (sees s u n) eqn:En; [apply sees_older in En; congruence|done]].
  assert (is_value e = false) as ->. { unfold is_sd in Hsd'. unfold is_value. apply Z.eqb_eq in Hsd'. by rewrite Hsd'. }
  apply andb_true_iff in Ee as [Eu Es%Z.leb_le]. rewrite read_versions. rewrite (versions_compat u (cu x)) by (by apply (same_reader e)).
  unfold versions in Ha. cbn [List.filter] in Ha. rewrite Hn in Ha. fold (versions (cu x) (l2 ++ below)) in Ha.
  destruct (versions (cu x) (l2 ++ below)) as [|b k] eqn:Ev; [done|]. assert (Hb : b ∈ versions (cu x) (l2 ++ below)) by (rewrite Ev; set_solver).
  unfold versions in Hb. apply list_elem_of_In, List.filter_In in Hb as [Hin Hb]. apply list_elem_of_In in Hin. cbn [alternates] in Ha.
  apply andb_true_iff in Ha as [_ [[_ Ha]%andb_true_iff _]%andb_true_iff]. rewrite Hv in Ha. cbn [xorb] in Ha. cbn [read_at]. unfold sees.
  rewrite (same_compat u (cu x)), Hb by (by apply (same_reader e)). rewrite (proj2 (Z.leb_le _ _)).
  - cbn [andb]. unfold is_sd in Ha. unfold is_value. apply Z.eqb_eq in Ha. by rewrite Ha.
  - specialize (Hold b ltac:(cbn; set_solver) Hb). lia.
Qed.
Lemma obsolete_dropped k : is_value e = false → gone (cu x) = true → versions (cu x) k = [] → (sees s u e = false → rd k = rd l) → rd k = rd (e :: l).
Proof.
  intros Hv Hg Hk Hun. cbn [app read_at]. destruct (sees s u e) eqn:Ee; [|by apply Hun]. rewrite Hv, read_versions. apply andb_true_iff in Ee as [Eu _].
  rewrite (versions_compat u (cu x)) by (by apply (same_reader e)). by rewrite versions_app, Hk, Hgone.
Qed.
End reader.

Definition good (r : list kv * option Ctx * list kv) : Prop :=
  let '(o, x', l') := r in
  known x' l' ∧ l' `suffix_of` l ∧ ∀ s u, live snaps top s → read_at s u ((o ++ left x' l') ++ below) = read_at s u (prune x (e :: l) ++ below).
Notation x1 := (in_stripe x t).
Lemma stripe_ctx l' : l' `suffix_of` l → (sd_key (cu x) = true → ∀ n l2, l' = n :: l2 → same (cu x) n = true → is_sd n = false → stripe (seq_of n) < t) → ctx_ok x1 l'.
Proof. intros Hsuf Hk. apply next_ctx; try done; [by left|]. intros H _. by apply Hk. Qed.
(** A value of a key with single deletions is followed by a single deletion. *)
Lemma after_value : is_sd e = false → sd_key (cu x) = true → ∀ n l2, l = n :: l2 → same (cu x) n = true → is_sd n = false → stripe (seq_of n) < t.
Proof. intros He Hk n l2 E Hn Hsn. destruct (sd_next n l2 Hk E Hn) as [H _]. rewrite He in H. cbn in H. congruence. Qed.
Lemma write_ctx started y : seq_of y = seq_of e → (is_sd e = false ∨ ∀ n l2, l = n :: l2 → same (cu x) n = true → stripe (seq_of n) < t) →
  known (write snaps preserve bottom started x1 y).2 l.
Proof.
  intros Ey He. cbn [write snd known]. apply next_ctx; try done; cbn [zeroed clear in_stripe].
  - intros [H|H]%orb_true_iff; [by left|right]. unfold zeroable in *. by rewrite Ey in H.
  - intros Hk _ n l2 E Hn Hsn. destruct He as [He|He]; [by eapply after_value|by eapply He].
Qed.

Lemma good_clear started : clear x = true → good (write snaps preserve bottom started x1 (cleared e), l).
Proof.
  intros Hc. destruct (ctx_clear _ _ Hx Hc) as (Hk & n & l' & [= <- <-] & _ & Hv). assert (is_sd e = false) as Hsd'.
  { destruct (is_sd e) eqn:E; [|done]. unfold is_sd in E. apply Z.eqb_eq in E. unfold is_value in Hv. by rewrite E in Hv. }
  split; [apply write_ctx; [done|by left]|]. split; [done|]. intros s u Hl. cbn [left write fst app cu in_stripe]. rewrite sd_prune by done.
  rewrite (written_reads s u _ (cleared e)) by (done || apply e_range). unfold prune. by rewrite Hc.
Qed.
Lemma good_value started : clear x = false → is_sd e = false → match last x with Some t' => t' <=? t | None => false end = false →
  good (write snaps preserve bottom started x1 e, l).
Proof.
  intros Hc Hsd' Hl. split; [apply write_ctx; [done|by left]|]. split; [done|]. intros s u Hlive. rewrite uncovered by auto. by apply kept_reads.
Qed.
Lemma good_hidden : clear x = false → is_sd e = false → match last x with Some t' => t' <=? t | None => false end = true → good ([], Some x1, l).
Proof.
  intros Hc Hsd' Hl. destruct (last x) as [t'|] eqn:El; [|done]. apply Z.leb_le in Hl. pose proof (last_stripe _ El) as Hle. assert (sd_key (cu x) = false) as Hk.
  { destruct (sd_key (cu x)) eqn:Hk; [|done]. pose proof (ctx_sd _ _ Hx Hk Hc _ _ _ El eq_refl Hs Hsd'). lia. }
  split; [apply stripe_ctx; [done|congruence]|]. split; [done|]. intros s u _. cbn [app left]. assert (prune x (e :: l) = prune x1 l) as ->; [|done].
  unfold prune. rewrite Hc. cbn [List.filter clear in_stripe]. unfold covered. cbn [cu last in_stripe]. rewrite El, Hs, Hk, (proj2 (Z.leb_le _ _)) by done. cbn [negb andb].
  by replace t' with t by lia.
Qed.
Lemma good_obsolete : clear x = false → is_del e = true → match last x with Some t' => t' <=? t | None => false end = false → seq_of e ≤ earliest → gone (cu x) = true →
  good ([], Some x1, l).
Proof.
  intros Hc Hdel Hl He Hg. assert (is_sd e = false ∧ is_value e = false) as [Hns Hv] by (unfold is_del, is_sd, is_value in *; apply Z.eqb_eq in Hdel; by rewrite Hdel).
  split; [apply stripe_ctx; [done|by apply after_value]|]. split; [done|]. intros s u Hlive. rewrite uncovered by auto. cbn [app left]. apply obsolete_dropped; try done.
  - assert (Hall : ∀ y, y ∈ l → same (cu x) y = true → covered x1 y = true).
    { intros y Hy Hsame. unfold covered. cbn [cu last in_stripe]. rewrite Hsame. assert (sd_key (cu x) = false) as ->.
      { destruct (sd_key (cu x)) eqn:Hk; [|done]. pose proof (alternating Hk) as Ha. cbn [alternates] in Ha. by rewrite Hns, Hv in Ha. }
      cbn [negb andb]. apply Z.leb_le. pose proof (older y ltac:(set_solver) Hsame). by rewrite !early_same by lia. }
    unfold prune. cbn [clear in_stripe]. clear -Hall. unfold versions. induction l as [|y k IH]; [done|]. cbn [List.filter]. pose proof (Hall y ltac:(set_solver)) as Hy.
    assert (IH' := IH ltac:(intros; apply Hall; set_solver)). destruct (covered _ y) eqn:Ec; cbn [negb List.filter]; [done|]. destruct (same _ y) eqn:Es; [|done].
    by discriminate (Hy eq_refl).
  - intros. by apply unseen_pruned.
Qed.
Lemma skip_suffix u prev k : skip_versions u prev k `suffix_of` k.
Proof. induction k as [|y k IH]; [done|]. cbn [skip_versions]. destruct (hides u prev y); [by apply suffix_cons_r|done]. Qed.
Lemma skip_filter u prev (keep : kv → bool) k : (∀ y, y ∈ k → hides u prev y = true → keep y = false) → List.filter keep (skip_versions u prev k) = List.filter keep k.
Proof.
  induction k as [|y k IH]; intros H; [done|]. cbn [skip_versions]. destruct (hides u prev y) eqn:E; [|done]. cbn [List.filter]. rewrite (H y) by set_solver.
  apply IH. intros; apply H; set_solver.
Qed.
Lemma filter_versions u (keep : kv → bool) k : versions u k = [] → versions u (List.filter keep k) = [].
Proof.
  unfold versions. induction k as [|y k IH]; [done|]. cbn [List.filter]. destruct (same u y) eqn:E; [done|]. intros H. destruct (keep y); cbn [List.filter]; [rewrite E|]; by apply IH.
Qed.
Lemma del_facts : is_del e = true → is_sd e = false ∧ is_value e = false ∧ sd_key (cu x) = false.
Proof.
  intros Hdel. assert (is_sd e = false ∧ is_value e = false) as [Hns Hv] by (unfold is_del, is_sd, is_value in *; apply Z.eqb_eq in Hdel; by rewrite Hdel).
  split; [done|]. split; [done|]. destruct (sd_key (cu x)) eqn:Hk; [|done]. pose proof (alternating Hk) as Ha. cbn [alternates] in Ha. by rewrite Hns, Hv in Ha.
Qed.
Lemma good_bottom started : clear x = false → is_del e = true → match last x with Some t' => t' <=? t | None => false end = false → bottom = true →
  let l' := skip_versions (cu x) (prev_snap (seq_of e)) l in
  good (match next_same (cu x) l' with Some _ => (write snaps preserve bottom started x1 e, l') | None => ([], Some x1, l') end).
Proof.
  intros Hc Hdel Hl Hb l'. destruct (del_facts Hdel) as (Hns & Hv & Hk). assert (Hsuf : l' `suffix_of` l) by apply skip_suffix.
  assert (Hp : prune x1 l' = prune x1 l).
  { unfold prune. cbn [clear in_stripe]. apply skip_filter. intros y Hy [Hsame Hh]%andb_true_iff. unfold covered. cbn [cu last in_stripe]. rewrite Hsame, Hk. cbn [negb andb].
    apply negb_false_iff, Z.leb_le. rewrite (same_stripe snaps Hsorted Hrange (seq_of e) (seq_of y)); [done| |].
    - pose proof (older y ltac:(set_solver) Hsame). lia.
    - apply orb_true_iff in Hh as [?%Z.eqb_eq|?%Z.ltb_lt]; auto. }
  destruct (next_same (cu x) l') eqn:En.
  - split; [|split; [done|]].
    + cbn [write snd known]. apply next_ctx; try done; [|congruence]. by intros [H|H]%orb_true_iff; [left|right].
    + intros s u Hlive. rewrite uncovered by auto. change (left _ l') with (prune x1 l'). rewrite Hp. by apply kept_reads.
  - split; [|split; [done|]]; [apply stripe_ctx; [done|congruence]|]. intros s u Hlive. rewrite uncovered by auto. cbn [app left]. apply obsolete_dropped; try done.
    + by apply Hbottom.
    + apply filter_versions. by apply none_left.
    + intros He. rewrite Hp. by apply unseen_pruned.
Qed.
Lemma sd_next_value n l2 : is_sd e = true → l = n :: l2 → same (cu x) n = true → is_sd n = false ∧ is_del n = false ∧ is_value n = true.
Proof.
  intros Hsd' E Hn. destruct (sd_next n l2 (is_sd_key Hsd') E Hn) as [H1 H2]. rewrite Hsd' in H1. specialize (H2 H1). split; [done|]. split; [|done].
  unfold is_value, is_del in *. destruct (Z.eqb_spec (type_of n) kTypeDeletion) as [H|]; [|done]. by rewrite H in H2.
Qed.
Lemma good_pair n l2 : clear x = false → is_sd e = true → l = n :: l2 → same (cu x) n = true → stripe (seq_of n) = t → good ([], Some x1, l2).
Proof.
  intros Hc Hsd' E Hn Ht. pose proof (is_sd_key Hsd') as Hk. assert (Hsuf : l2 `suffix_of` l) by (rewrite E; by apply suffix_cons_r).
  destruct (sd_next_value n l2 Hsd' E Hn) as (Hns & _ & _). split; [|split; [done|]].
  - apply stripe_ctx; [done|]. intros _ b l3 E3 Hb Hsb. pose proof (alternating Hk) as Ha. rewrite E, E3 in Ha. unfold versions in Ha. cbn [app List.filter] in Ha. rewrite Hn, Hb in Ha.
    cbn [alternates] in Ha. rewrite Hsd', Hns, Hsb in Ha. cbn in Ha. by rewrite andb_false_r in Ha.
  - intros s u Hlive. cbn [app left]. rewrite !sd_prune by done. by eapply pair_dropped.
Qed.
Lemma good_sd started : clear x = false → is_sd e = true → good (sd_step snaps ewc preserve bottom gone started x x1 e l).
Proof.
  intros Hc Hsd'. pose proof (is_sd_key Hsd') as Hk. assert (Hv : is_value e = false) by (unfold is_sd, is_value in *; apply Z.eqb_eq in Hsd'; by rewrite Hsd').
  unfold sd_step. destruct (next_same (cu x) l) as [n|] eqn:En.
  - assert (∃ l2, l = n :: l2 ∧ same (cu x) n = true) as (l2 & E & Hn).
    { clear -En. destruct l as [|m l2]; [done|]. cbn [next_same] in En. destruct (same (cu x) m) eqn:Em; [|done]. injection En as ->. eauto. }
    assert (Htl : tail l = l2) by (by rewrite E). destruct (sd_next_value n l2 Hsd' E Hn) as (-> & -> & Hvn). cbn [orb].
    pose proof (older n ltac:(rewrite E; set_solver) Hn) as Hlt. destruct (zeroed x) eqn:Ez; [|destruct (_ || _) eqn:Ep].
    + rewrite Htl. apply (good_pair n); try done. destruct (ctx_zeroed _ _ Hx Ez) as [_ [t' Ht']]. destruct (ctx_last _ _ Hx _ Ht') as (q & _ & _ & Hq & Hall).
      apply Forall_inv in Hall. specialize (Hall Hs). specialize (Hq Ez). by rewrite !early_same by lia.
    + assert (Ht : stripe (seq_of n) = t).
      { apply (same_stripe snaps Hsorted Hrange (seq_of e)); [lia|]. apply orb_true_iff in Ep as [?%Z.eqb_eq|?%Z.ltb_lt]; auto. }
      destruct (outputted x || no_conflict snaps ewc (seq_of e)); [rewrite Htl; by apply (good_pair n)|]. split; [|split; [done|]].
      * cbn [write snd known]. apply next_ctx; try done; cbn [cu last zeroed clear in_stripe].
        -- by intros [H|H]%orb_true_iff; [left|right].
        -- intros _. split; [done|]. by exists n, l2.
      * intros s u Hlive. rewrite uncovered by auto. cbn [write left cu app in_stripe prune clear]. rewrite E. cbn [app]. rewrite written_reads by (done || apply e_range).
        cbn [read_at]. destruct (sees s u e) eqn:Ee; [done|]. change (sees s u (cleared n)) with (sees s u n). destruct (sees s u n) eqn:Esn; [|done].
        apply sees_older in Esn; [congruence|done..].
    + split; [apply write_ctx; [done|right]|split; [done|]].
      * intros n' l2' E' _. rewrite E' in E. injection E as -> ->. apply orb_false_iff in Ep as [Ep1%Z.eqb_neq Ep2%Z.ltb_ge].
        apply older_stripe; try done. destruct (prev_spec snaps Hsorted Hrange (seq_of e)) as [[? _]|[? _]]; lia.
      * intros s u Hlive. rewrite uncovered by auto. by apply kept_reads.
  - destruct (_ || _) eqn:Ed.
    + split; [done|]. split; [done|]. intros s u Hlive. rewrite uncovered by auto. cbn [app left]. apply obsolete_dropped; try done.
      * apply orb_true_iff in Ed as [[_ ?]%andb_true_iff|Ez]; [done|]. apply Hbottom. by destruct (ctx_zeroed _ _ Hx Ez).
      * by apply none_left.
    + split; [done|]. split; [done|]. intros s u Hlive. rewrite uncovered by auto. cbn [app left]. by rewrite written_reads by (done || apply e_range).
Qed.
Lemma good_step started x0 : x = enter x0 e → good (step started x0 e l).
Proof.
  intros E. unfold CompactionRef.step. rewrite <- E. destruct (clear x) eqn:Hc; [by apply good_clear|]. destruct (is_sd e) eqn:Hns; [by apply good_sd|].
  destruct (match last x with Some _ => _ | None => _ end) eqn:El; [by apply good_hidden|].
  destruct (is_del e) eqn:Hdel; cbn [andb]; [|by apply good_value]. destruct (seq_of e <=? earliest) eqn:He; cbn [andb].
  - destruct (gone (cu x)) eqn:Hg; [apply good_obsolete; try done; by apply Z.leb_le|]. apply if_both; intros Hb; [by apply good_bottom|by apply good_value].
  - apply if_both; intros Hb; [by apply good_bottom|by apply good_value].
Qed.
End record.

Lemma data_suffix l l' : data_ok l → l' `suffix_of` l → data_ok l'.
Proof. intros H [pre ->]. induction pre as [|y pre IH]; [done|]. apply IH. by eapply data_tail. Qed.
Lemma compact_reads n started x0 l s u : live snaps top s → (length l ≤ n)%nat → data_ok l → known x0 l →
  read_at s u (compact n started x0 l ++ below) = read_at s u (left x0 l ++ below).
Proof.
  intros Hlive. revert started x0 l. induction n as [|n IH]; intros started x0 l Hn Hd Hx; (destruct l as [|e l]; [destruct x0 as [x|]; [|done]; cbn [left]; unfold prune; by destruct (clear x)|]).
  { cbn in Hn. lia. }
  destruct (enter_ok x0 e l Hd Hx) as (Hx' & Hs & ->). pose proof (good_step _ e l Hd Hx' Hs started x0 eq_refl) as Hg. cbn [CompactionRef.compact].
  destruct (step started x0 e l) as [[o x'] l'] eqn:Es. destruct Hg as (Hk & Hsuf & Hr). rewrite <- (Hr s u Hlive), <- !app_assoc. apply read_app_congr.
  apply IH; [|by eapply data_suffix, Hsuf; eapply data_tail|done]. apply suffix_length in Hsuf. cbn in Hn. lia.
Qed.
End preserve.

(** ** The order of the output *)
Section order.
Context `{UL : ComparatorLaws} (snaps : list Z) (ewc preserve : Z) (bottom : bool) (gone : bytes → bool).
Context (Hsorted : StronglySorted Z.lt snaps) (Hrange : Forall (λ x, 0 < x < kMaxSequenceNumber) snaps).
Context (top : Z) (Htop : top < kMaxSequenceNumber).
Context (Hewc : earliest snaps ≤ ewc) (Hbottom : bottom = true → ∀ u, gone u = true).
Notation stripe := (stripe snaps). Notation prev_snap := (prev_snap snaps). Notation earliest := (earliest snaps).
Notation step := (step snaps ewc preserve bottom gone). Notation compact := (compact snaps ewc preserve bottom gone).
Notation written := (written snaps preserve bottom). Notation zeroable := (zeroable snaps preserve bottom).

Record ordered (l : list kv) : Prop := {
  ord_users : StronglySorted user_le l; ord_newer : StronglySorted newer l;
  ord_range : Forall (λ e, 0 ≤ seq_of e ≤ top) l; ord_plain : Forall (λ e, plain e = true) l }.
Record tracked (x : Ctx) (l : list kv) : Prop := {
  tr_users : Forall (λ e, Compare (cu x) (user_of e) ≤ 0) l;
  tr_last : ∀ t, last x = Some t → ∃ q, t = stripe q ∧ (zeroed x = true → q ≤ earliest) ∧ Forall (λ e, same (cu x) e = true → seq_of e < q) l;
  tr_zeroed : zeroed x = true → bottom = true ∧ is_Some (last x);
  tr_clear : clear x = true → zeroed x = false ∧ ∃ n l', l = n :: l' ∧ same (cu x) n = true ∧ is_value n = true ∧ last x = Some (stripe (seq_of n)) }.
Definition trackedo (x0 : option Ctx) (l : list kv) : Prop := match x0 with Some x => tracked x l | None => True end.

Lemma ordered_suffix l l' : ordered l → l' `suffix_of` l → ordered l'.
Proof.
  intros [H1 H2 H3 H4] [pre ->]. constructor; [by eapply StronglySorted_app_1_r|by eapply StronglySorted_app_1_r|by apply Forall_app in H3 as [_ ?]|by apply Forall_app in H4 as [_ ?]].
Qed.
Lemma users_none u l : StronglySorted user_le l → Forall (λ e, Compare u (user_of e) ≤ 0) l → next_same u l = None → ∀ y, y ∈ l → same u y = false.
Proof.
  intros Ho Hu H y Hy. destruct l as [|n l2]; [by apply elem_of_nil in Hy|]. cbn [next_same] in H. destruct (same u n) eqn:En; [done|]. apply Forall_inv in Hu. cbn in Hu.
  apply Z.eqb_neq in En. apply StronglySorted_inv in Ho as [_ Ho]. rewrite Forall_forall in Ho. apply Z.eqb_neq. apply elem_of_cons in Hy as [->|Hy]; [done|].
  pose proof (Compare_lt_trans u (user_of n) (user_of y) ltac:(left; split; [lia|by apply Ho])). lia.
Qed.
Lemma enter_tracked x0 e l : ordered (e :: l) → trackedo x0 (e :: l) → tracked (enter x0 e) (e :: l) ∧ same (cu (enter x0 e)) e = true.
Proof.
  intros Hd Hx. assert (Hf : tracked (fresh (user_of e)) (e :: l)).
  { constructor; cbn [fresh cu last zeroed clear]; try done. destruct (StronglySorted_inv (ord_users _ Hd)) as [_ H']. constructor; [by rewrite Compare_eq|done]. }
  destruct x0 as [x|]; cbn [enter trackedo] in *; [destruct (same (cu x) e) eqn:E; [done|]|]; (split; [done|apply same_refl]).
Qed.

Section record.
Context (x : Ctx) (e : kv) (l : list kv) (Hd : ordered (e :: l)) (Hx : tracked x (e :: l)) (Hs : same (cu x) e = true).
Notation t := (stripe (seq_of e)). Notation x1 := (in_stripe x t).
Lemma ord_older y : y ∈ l → same (cu x) y = true → seq_of y < seq_of e.
Proof.
  intros Hy Hsame. destruct (StronglySorted_inv (ord_newer _ Hd)) as [_ H]. rewrite Forall_forall in H. apply (H y Hy). pose proof Hs as Hs'. apply same_iff in Hs', Hsame.
  eapply Compare_zero_trans; [by apply Compare_zero_sym|done].
Qed.
Lemma zeroed_early : zeroed x = true → bottom = true ∧ seq_of e ≤ earliest ∧ match last x with Some t' => t' <=? t | None => false end = true ∧ clear x = false.
Proof.
  intros H. destruct (tr_zeroed _ _ Hx H) as [Hb [t' Ht']]. destruct (tr_last _ _ Hx _ Ht') as (q & E & Hq & Hall). apply Forall_inv in Hall. specialize (Hall Hs). specialize (Hq H).
  split; [done|]. split; [lia|]. split.
  - rewrite Ht', E. apply Z.leb_le. rewrite !early_same; try done; lia.
  - destruct (clear x) eqn:Hc; [|done]. destruct (tr_clear _ _ Hx Hc) as [? _]. congruence.
Qed.
Lemma tracked_next x' l' : l' `suffix_of` l → cu x' = cu x → last x' = Some t → (zeroed x' = true → zeroed x = true ∨ zeroable e = true) →
  (clear x' = true → zeroed x' = false ∧ ∃ n l2, l' = n :: l2 ∧ same (cu x) n = true ∧ is_value n = true ∧ stripe (seq_of n) = t) → tracked x' l'.
Proof.
  intros [pre Hpre] Hcu Hlast Hz Hc. assert (Hz' : zeroed x' = true → bottom = true ∧ seq_of e ≤ earliest).
  { intros [H|H]%Hz; [by destruct (zeroed_early H) as (? & ? & _)|]. by apply andb_true_iff in H as [[? ?%Z.leb_le]%andb_true_iff _]. }
  constructor; rewrite ?Hcu.
  - pose proof (Forall_inv_tail (tr_users _ _ Hx)) as H. rewrite Hpre in H. by apply Forall_app in H as [_ H].
  - rewrite Hlast. intros t' [= <-]. exists (seq_of e). split; [done|]. split; [by intros [_ ?]%Hz'|]. apply Forall_forall. intros y Hy Hsame.
    apply ord_older; [|done]. rewrite Hpre. set_solver.
  - intros [H _]%Hz'. rewrite Hlast. eauto.
  - intros H. destruct (Hc H) as (? & n & l2 & ? & ? & ? & E). rewrite Hlast, <- E. eauto 8.
Qed.

(** What a record leads to. *)
Definition outcome (r : list kv * option Ctx * list kv) : Prop :=
  let '(o, x', l') := r in
  trackedo x' l' ∧ l' `suffix_of` l ∧
  match x' with Some x2 => cu x2 = cu x ∧ (zeroed x = true → zeroed x2 = true) | None => ∀ y, y ∈ l' → same (cu x) y = false end ∧
  (o = [] ∨ zeroed x = false ∧ ∃ y, o = [written (cu x) y] ∧ (y = e ∨ y = cleared e) ∧
     (zeroable y = true → is_value y = true ∧ ∃ x2, x' = Some x2 ∧ zeroed x2 = true)).
Lemma drop_outcome l' : l' `suffix_of` l → outcome ([], Some x1, l').
Proof. intros H. split; [by apply tracked_next; try done; left|]. split; [done|]. split; [done|]. by left. Qed.
Lemma write_outcome started y b l' : l' `suffix_of` l → zeroed x = false → (y = e ∨ y = cleared e) → (zeroable y = true → is_value y = true) →
  (b = true → zeroable y = false ∧ ∃ n l2, l' = n :: l2 ∧ same (cu x) n = true ∧ is_value n = true ∧ stripe (seq_of n) = t) →
  outcome (write snaps preserve bottom started (mkCtx (cu x) (Some t) (outputted x) (zeroed x) b) y, l').
Proof.
  intros Hsuf Hz Hy Hv Hb. assert (Ey : zeroable y = zeroable e) by (by destruct Hy as [->| ->]). split; [|split; [done|split]].
  - cbn [write trackedo]. apply tracked_next; try done; cbn [zeroed clear]; rewrite Hz; cbn [orb]; [rewrite Ey; by right|done].
  - cbn [write cu zeroed]. split; [done|]. congruence.
  - right. split; [done|]. exists y. split; [done|]. split; [done|]. intros H. split; [by apply Hv|]. cbn [write]. eexists. split; [done|]. cbn [zeroed]. by rewrite H, orb_true_r.
Qed.
Lemma none_same : next_same (cu x) l = None → ∀ y, y ∈ l → same (cu x) y = false.
Proof. apply users_none; [by destruct (StronglySorted_inv (ord_users _ Hd))|exact (Forall_inv_tail (tr_users _ _ Hx))]. Qed.
Lemma next_same_inv n : next_same (cu x) l = Some n → ∃ l2, l = n :: l2 ∧ same (cu x) n = true.
Proof. clear. destruct l as [|m l2]; [done|]. cbn [next_same]. destruct (same (cu x) m) eqn:Em; [|done]. intros [= ->]. eauto. Qed.
Lemma plain_value y : y ∈ e :: l → is_sd y = false → is_del y = false → is_value y = true.
Proof.
  intros Hy H1 H2. pose proof (ord_plain _ Hd) as H. rewrite Forall_forall in H. specialize (H y Hy). unfold plain in H. rewrite H1, H2 in H. by destruct (is_value y).
Qed.
(** Single deletions and deletions are not written with sequence number zero. *)
Lemma zeroable_early : zeroable e = true → bottom = true ∧ seq_of e ≤ earliest ∧ gone (cu x) = true.
Proof. intros [[Hb H%Z.leb_le]%andb_true_iff _]%andb_true_iff. split; [done|]. split; [done|]. by apply Hbottom. Qed.
Lemma sd_outcome started : clear x = false → is_sd e = true → outcome (sd_step snaps ewc preserve bottom gone started x x1 e l).
Proof.
  intros Hc Hsd'. unfold sd_step. destruct (next_same (cu x) l) as [n|] eqn:En.
  - destruct (next_same_inv n En) as (l2 & E & Hn). assert (Htl : tail l `suffix_of` l) by (rewrite E; by apply suffix_cons_r).
    destruct (zeroed x) eqn:Ez; [by apply drop_outcome|]. destruct ((prev_snap (seq_of e) =? 0) || (prev_snap (seq_of e) <? seq_of n)) eqn:Ep.
    + destruct (is_sd n || is_del n) eqn:Et; [by apply drop_outcome|]. apply orb_false_iff in Et as [Et1 Et2].
      destruct (outputted x || no_conflict snaps ewc (seq_of e)) eqn:Ec; [by apply drop_outcome|].
      assert (zeroable e = false) as Hze.
      { destruct (zeroable e) eqn:Hze; [|done]. destruct (zeroable_early Hze) as (_ & He & _). apply orb_false_iff in Ec as [_ [Ec%Z.leb_gt _]%orb_false_iff]. lia. }
      apply write_outcome; try done; [by left|congruence|]. intros _. split; [done|]. exists n, l2. split; [done|]. split; [done|]. split; [apply plain_value; [|done..]; rewrite E; set_solver|].
      apply same_stripe; [done..| |].
      * pose proof (ord_older n ltac:(rewrite E; set_solver) Hn). lia.
      * apply orb_true_iff in Ep as [?%Z.eqb_eq|?%Z.ltb_lt]; auto.
    + apply write_outcome; try done; [by left|]. intros Hze. destruct (zeroable_early Hze) as (_ & He & _). destruct (early_stripe snaps Hsorted Hrange _ He) as [_ Hp].
      rewrite Hp in Ep. done.
  - destruct ((seq_of e <=? earliest) && gone (cu x) || zeroed x) eqn:Ed.
    + split; [done|]. split; [done|]. split; [by apply none_same|]. by left.
    + apply orb_false_iff in Ed as [Ed Hz]. split; [done|]. split; [done|]. split; [by apply none_same|]. right. split; [done|]. exists e. split; [done|]. split; [by left|].
      intros Hze. destruct (zeroable_early Hze) as (_ & He & Hg). rewrite Hg, (proj2 (Z.leb_le _ _) He) in Ed. done.
Qed.
Lemma step_outcome started x0 : x = enter x0 e → outcome (step started x0 e l).
Proof.
  intros E. unfold CompactionRef.step. rewrite <- E. destruct (clear x) eqn:Hc.
  { destruct (tr_clear _ _ Hx Hc) as (Hz & _). apply write_outcome; try done. by right. }
  destruct (is_sd e) eqn:Hns; [by apply sd_outcome|]. destruct (match last x with Some _ => _ | None => _ end) eqn:El; [by apply drop_outcome|].
  assert (Hz : zeroed x = false). { destruct (zeroed x) eqn:Hz; [|done]. destruct (zeroed_early Hz) as (_ & _ & H & _). congruence. }
  destruct (is_del e) eqn:Hdel; cbn [andb].
  - destruct ((seq_of e <=? earliest) && gone (cu x)) eqn:Eg; [by apply drop_outcome|]. assert (Hze : zeroable e = true → is_value e = true).
    { intros Hze. destruct (zeroable_early Hze) as (_ & He & Hg). rewrite Hg, (proj2 (Z.leb_le _ _) He) in Eg. done. }
    apply if_both; intros Hb; [|apply write_outcome; try done; by left]. destruct (next_same _ _); [apply write_outcome; try done; [apply skip_suffix|by left]|apply drop_outcome, skip_suffix].
  - apply write_outcome; try done; [by left|]. intros _. apply plain_value; [set_solver|done..].
Qed.
End record.

Definition before (a b : kv) : Prop := Compare (user_of a) (user_of b) < 0 ∨ Compare (user_of a) (user_of b) = 0 ∧ seq_of b < seq_of a.
Lemma written_before e (l l' : list kv) u y0 y : ordered (e :: l) → Forall (λ e, Compare u (user_of e) ≤ 0) (e :: l) → same u e = true → (∀ e', e' ∈ l' → e' ∈ l) →
  seq_of y0 = seq_of e → (∃ e', e' ∈ l' ∧ same (user_of y) e' = true ∧ seq_of y ≤ seq_of e') → (zeroable y0 = true → same u y = false) → before (written u y0) y.
Proof.
  intros Hd Hu Hs Hsub Hseq (e' & He' & Hsame & Hle) Hz. apply Forall_inv_tail in Hu. rewrite Forall_forall in Hu. specialize (Hu e' (Hsub _ He')). cbn in Hu.
  apply same_iff in Hsame. pose proof (Compare_zero_sym _ _ Hsame) as Hsame'. unfold before. cbn [written user_of fst user_key]. fold (user_of y).
  destruct (Z.eq_dec (Compare u (user_of e')) 0) as [E|E].
  - right. pose proof (Compare_zero_trans _ _ _ E Hsame') as Ey. split; [done|]. unfold seq_of at 2. cbn [written fst sequence]. apply same_iff in Ey.
    destruct (zeroable y0); [by rewrite Hz in Ey|]. apply same_iff in E. pose proof (ord_older (mkCtx u None false false false) e l Hd Hs e' (Hsub _ He') E). lia.
  - left. apply (Compare_lt_trans _ (user_of e')). left. lia.
Qed.
Lemma compact_output n started x0 l : ordered l → trackedo x0 l →
  StronglySorted before (compact n started x0 l) ∧
  ∀ y, y ∈ compact n started x0 l → (∃ e, e ∈ l ∧ same (user_of y) e = true ∧ seq_of y ≤ seq_of e) ∧ (∀ x, x0 = Some x → zeroed x = true → same (cu x) y = false) ∧
    (bottom = true → seq_of y ≤ Z.min earliest preserve → is_value y = true ∧ seq_of y = 0).
Proof.
  revert started x0 l. induction n as [|n IH]; intros started x0 l Hd Hx; (destruct l as [|e l]; [split; [constructor|by intros y ?%elem_of_nil]|]).
  { split; [constructor|by intros y ?%elem_of_nil]. }
  destruct (enter_tracked x0 e l Hd Hx) as [Hx' Hs]. pose proof (step_outcome _ e l Hd Hx' Hs started x0 eq_refl) as Ho. cbn [CompactionRef.compact].
  destruct (step started x0 e l) as [[o x'] l'] eqn:Es. destruct Ho as (Ht & Hsuf & Hz & Ho). assert (Hd' : ordered l') by (eapply ordered_suffix; [exact Hd|]; by apply suffix_cons_r).
  destruct (IH (started || match o with [] => false | _ => true end) x' l' Hd' Ht) as [HS HR]. clear IH Es.
  set (x := enter x0 e) in *. set (R := compact n _ x' l') in *. assert (Hin : ∀ y, y ∈ R → ∃ e', e' ∈ l' ∧ same (user_of y) e' = true ∧ seq_of y ≤ seq_of e') by (intros y Hy; by apply HR).
  assert (Hsub : ∀ e', e' ∈ l' → e' ∈ l) by (destruct Hsuf as [pre ->]; set_solver).
  assert (HzR : ∀ y, y ∈ R → zeroed x = true ∨ (∃ x2, x' = Some x2 ∧ zeroed x2 = true) → same (cu x) y = false).
  { intros y Hy H. destruct x' as [x2|].
    - destruct Hz as [E Hz2], (HR y Hy) as (_ & Hx2 & _). rewrite <- E. apply Hx2; [done|]. destruct H as [H|(? & [= <-] & H)]; auto.
    - destruct (Hin y Hy) as (e' & He' & Hsame & _). specialize (Hz e' He'). destruct (same (cu x) y) eqn:E; [|done]. apply same_iff in E, Hsame.
      pose proof (Compare_zero_trans _ _ _ E Hsame) as E'. apply same_iff in E'. congruence. }
  assert (Hz0 : ∀ y x3, x0 = Some x3 → zeroed x3 = true → same (cu x3) e = false → (∃ e', e' ∈ e :: l ∧ same (user_of y) e' = true) → same (cu x3) y = false).
  { intros y x3 -> _ Hne (e' & He' & Hsame). destruct (same (cu x3) y) eqn:E; [|done]. apply same_iff in E, Hsame. pose proof (Compare_zero_trans _ _ _ E Hsame) as E'. apply same_iff in E'.
    rewrite (users_none (cu x3) (e :: l)) in E'; [done|apply Hd|apply Hx|cbn; by rewrite Hne|done]. }
  assert (HR' : ∀ y, y ∈ R → (∃ e0, e0 ∈ e :: l ∧ same (user_of y) e0 = true ∧ seq_of y ≤ seq_of e0) ∧ (∀ x3, x0 = Some x3 → zeroed x3 = true → same (cu x3) y = false) ∧
      (bottom = true → seq_of y ≤ Z.min earliest preserve → is_value y = true ∧ seq_of y = 0)).
  { intros y Hy. destruct (Hin y Hy) as (e' & He' & Hsame & Hle). split; [exists e'; set_solver|]. split; [|by apply HR]. intros x3 E H3. destruct (same (cu x3) e) eqn:E3.
    - assert (x = x3) as <- by (unfold x; rewrite E; cbn; by rewrite E3). apply HzR; auto.
    - eapply Hz0; try done. exists e'. set_solver. }
  destruct Ho as [->|(Hzx & y0 & -> & Hy0 & Hze)]; [done|]. cbn [app]. pose proof (Forall_inv (ord_range _ Hd)) as He. cbn in He.
  assert (Hseq : seq_of y0 = seq_of e) by (by destruct Hy0 as [->| ->]). split.
  - constructor; [done|]. apply Forall_forall. intros y Hy. apply (written_before e l l'); [done|apply Hx'|done..|by apply Hin|].
    intros H. apply HzR; [done|]. right. by destruct (Hze H).
  - intros y [->|Hy]%elem_of_cons; [|by apply HR']. split; [|split].
    + exists e. split; [set_solver|]. split; [by cbn|]. unfold seq_of at 1. cbn [written fst sequence]. destruct (zeroable y0); lia.
    + intros x3 E H3. destruct (same (cu x3) e) eqn:E3.
      * assert (x = x3) as <- by (unfold x; rewrite E; cbn; by rewrite E3). congruence.
      * eapply Hz0; try done. exists e. split; [set_solver|]. by cbn.
    + intros Hb. unfold seq_of at 1 2. cbn [written fst sequence]. destruct (zeroable y0) eqn:Ez.
      * intros _. by destruct (Hze eq_refl).
      * intros H. unfold CompactionRef.zeroable in Ez. rewrite Hb, !(proj2 (Z.leb_le _ _)) in Ez by lia. done.
Qed.
End order.
