(* ===== verification/CompactionSim.v ===== *)
(** * The compaction iterator writes what the rules say

    A simulation: with the snapshots, the boundaries and the proxy that the job sets
    up, without merges, filter, timestamps, range tombstones and blob files, the
    iterator of [CompactionIter] writes exactly the records of [CompactionRef], no
    assertion fails, and it ends with status OK. *)
From S2P Require Import Prelude Bitfield Slice Coding Comparator DbFormat CompactionIter CompactionRef.
Local Open Scope Z_scope.

(** What the iterator relies on: the keys are asked for in increasing order. *)
Record proxy_ok `{UC : Comparator} (p : CompactionProxy) (not_below : bytes → bool) (ptrs_for : bytes → list nat → Prop) : Prop := {
  ptrs_start u : ptrs_for u (replicate (number_levels p) 0%nat);
  ptrs_mono u u' ptrs : Compare u u' ≤ 0 → ptrs_for u ptrs → ptrs_for u' ptrs;
  beyond_level u ptrs : ptrs_for u ptrs → ∃ ptrs', KeyNotExistsBeyondOutputLevel p u ptrs = Ok (not_below u, ptrs') ∧ ptrs_for u ptrs';
  bottommost_below u : bottommost_level p = true → not_below u = true }.

Definition enc (e : kv) : Entry := mkEntry (encoded e.1) e.2 false.
Definition wire (e : kv) : bytes * bytes := (encoded e.1, e.2).
(** A single deletion above a deletion breaks the contract. *)
Fixpoint sd_over_del `{UC : Comparator} (l : list kv) : bool :=
  match l with
  | e :: l' => match l' with n :: _ => same (user_of e) n && is_sd e && is_del n | [] => false end || sd_over_del l'
  | [] => false
  end.

Lemma update_encoded u q t k : (8 ≤ length k)%nat → take (length k - 8) k = u → UpdateInternalKey k q t = Ok (encoded (mkParsed u q t)).
Proof. intros H <-. unfold UpdateInternalKey, kNumInternalBytes. rewrite (proj2 (Nat.leb_le _ _)) by done. done. Qed.
Lemma encoded_length k : (8 ≤ length (encoded k))%nat.
Proof. unfold encoded. rewrite length_app, fixed64_length. lia. Qed.
Lemma encoded_user k : take (length (encoded k) - 8) (encoded k) = user_key k.
Proof. unfold encoded. apply (split_footer (user_key k)). Qed.

Ltac fields := cbv beta iota delta [set_field input_ num_itered_ has_num_itered_ released_snapshots_ validity_info_ key_ value_ status_ ikey_ has_current_user_key_ at_next_
  current_key_ curr_ts_ current_user_key_sequence_ current_user_key_snapshot_ has_outputted_key_ clear_and_output_next_key_ merge_out_iter_
  merge_in_progress level_ptrs_ iter_stats_ current_key_committed_ cmp_with_history_ts_low_ last_key_seq_zeroed_ is_range_del_ polls
  SetValid Invalidate count count_by].

Section sim.
Context `{UL : ComparatorLaws} {TC : TsComparator C} (c : Settings) (not_below : bytes → bool) (ptrs_for : bytes → list nat → Prop) (top : Z).
Context (ShouldDelete : bytes → bool) (HasOperator : bool) (MergeUntil : list Entry → Z → bool → MergeAnswer).
Context (blob_gc : ParsedInternalKey → bytes → Status * (Z * bytes)) (manual_compaction_canceled_ shutting_down_ : nat → bool) (input_status : Status).

(** The job's settings, and which parts are not in use. *)
Record settings_ok : Prop := {
  ok_sorted : StronglySorted Z.lt (snapshots_ c); ok_range : Forall (λ x, 0 < x < kMaxSequenceNumber) (snapshots_ c);
  ok_earliest : earliest_snapshot_ c = earliest (snapshots_ c); ok_conflict : earliest_snapshot_ c ≤ earliest_write_conflict_snapshot_ c;
  ok_preserve : preserve_seqno_after_ c ≤ earliest_snapshot_ c; ok_top : top < kMaxSequenceNumber;
  no_checker : snapshot_checker_ c = None; no_filter : compaction_filter_ c = None; no_blobs : blob_file_builder_ c = None;
  no_timestamps : timestamp_size = 0%nat; no_history : full_history_ts_low_ c = None;
  user_compare a b : uc_CompareWithoutTimestamp a b = Ok (Compare a b);
  no_relocation k v : blob_gc k v = (OK, (type k, v)); no_tombstones k : ShouldDelete k = false;
  not_paused n : manual_compaction_canceled_ n = false; not_down n : shutting_down_ n = false; input_fine : input_status ≠ Corruption }.
(** The proxy, where there is one, keeps its promises. *)
Definition proxy_fits : Prop := ∀ p, compaction_ c = Some p → proxy_ok p not_below ptrs_for.
Context (Hok : settings_ok) (Hproxy : proxy_fits).
Notation snaps := (snapshots_ c). Notation bottom := (bottommost_level_ c).
Definition gone (u : bytes) : bool := match compaction_ c with Some p => negb (allow_ingest_behind p) && not_below u | None => false end.
Notation stripe := (stripe snaps). Notation prev_snap := (prev_snap snaps).
Notation step := (step snaps (earliest_write_conflict_snapshot_ c) (preserve_seqno_after_ c) bottom gone).
Notation compact := (compact snaps (earliest_write_conflict_snapshot_ c) (preserve_seqno_after_ c) bottom gone).
Notation written := (written snaps (preserve_seqno_after_ c) bottom). Notation zeroable := (zeroable snaps (preserve_seqno_after_ c) bottom).
Notation process_record := (process_record c ShouldDelete HasOperator MergeUntil manual_compaction_canceled_ shutting_down_).
Notation apply_rules := (apply_rules c ShouldDelete HasOperator MergeUntil manual_compaction_canceled_ shutting_down_).

(** What the state knows, before a record is read. *)
Record knows (x : Ctx) (s : CompactionIterator) : Prop := {
  k_has : has_current_user_key_ s = true; k_user : current_user_key_ s = cu x; k_long : (8 ≤ length (current_key_ s))%nat;
  k_last : last x = Some (current_user_key_snapshot_ s); k_seq : current_user_key_sequence_ s < kMaxSequenceNumber;
  k_outputted : has_outputted_key_ s = outputted x; k_zeroed : last_key_seq_zeroed_ s = zeroed x; k_clear : clear_and_output_next_key_ s = clear x;
  k_committed : current_key_committed_ s = true }.
Definition ctx_rel (x0 : option Ctx) (l : list kv) (s : CompactionIterator) : Prop :=
  match x0 with
  | Some x => knows x s ∧ Forall (λ e, same (cu x) e = true → seq_of e < current_user_key_sequence_ s) l
  | None => has_current_user_key_ s = false ∧ clear_and_output_next_key_ s = false
  end.
Definition ptrs_ok (l : list kv) (ptrs : list nat) : Prop := is_Some (compaction_ c) → Forall (λ e, ptrs_for (user_of e) ptrs) l.
Record rel (x0 : option Ctx) (l : list kv) (s : CompactionIterator) : Prop := {
  r_input : input_ s = enc <$> l; r_status : status_ s = OK; r_merged : merge_out_iter_ s = []; r_ptrs : ptrs_ok l (level_ptrs_ s);
  r_ctx : ctx_rel x0 l s }.
(** The state in which the rules are applied to a record, and what is left open in it. *)
Record Rest := mkRest { o_itered : Z; o_has : bool; o_released : list Z; o_ts : bytes; o_progress : bool; o_ptrs : list nat; o_stats : Counter → Z; o_cmp : Z; o_polls : nat }.
Definition entered (x : Ctx) (e : kv) (l : list kv) (o : Rest) : CompactionIterator :=
  let k := mkParsed (cu x) (seq_of e) (type_of e) in
  mkCI (enc <$> e :: l) (o_itered o) (o_has o) (o_released o) None None e.2 OK k true false (encoded k) (o_ts o) (seq_of e) (stripe (seq_of e)) (outputted x)
    (clear x) [] (o_progress o) (o_ptrs o) (o_stats o) true (o_cmp o) (zeroed x) false (o_polls o).
Definition lasts (x : Ctx) (e : kv) (last_sequence last_snapshot : Z) : Prop :=
  last x = None ∧ last_sequence = kMaxSequenceNumber ∨ last x = Some last_snapshot ∧ seq_of e < last_sequence < kMaxSequenceNumber.

Lemma plain_valid e : 0 ≤ seq_of e ≤ top → plain e = true → valid_key e.1.
Proof.
  intros H Hp. pose proof (ok_top Hok). unfold valid_key. unfold seq_of in H. split; [lia|]. unfold plain, is_value, is_del, is_sd, type_of in Hp.
  repeat (apply orb_true_iff in Hp as [Hp|Hp]); apply Z.eqb_eq in Hp; rewrite Hp; split; done || vm_compute; done.
Qed.
Lemma snapshot_of q s : (if visible_at_tip_ c then Ok (earliest_snapshot_ c, 0, s) else findEarliestVisibleSnapshot c q s) = Ok (stripe q, prev_snap q, s).
Proof.
  unfold findEarliestVisibleSnapshot, visible_at_tip_. pose proof (ok_earliest Hok) as He. destruct snaps as [|y l] eqn:E; [by rewrite He|]. cbn [negb assert_ res_bind].
  rewrite (no_checker Hok), <- E. unfold CompactionRef.stripe, CompactionRef.prev_snap. destruct (lower_bound _ _) as [|j] eqn:Ej; cbn [assert_ res_bind]; [done|].
  destruct (lower_bound_spec q snaps (ok_sorted Hok)) as (H1 & _ & H3). destruct (lookup_lt_is_Some_2 snaps j ltac:(lia)) as [z Hz]. rewrite Hz. cbn [default]. unfold id.
  rewrite (proj2 (Z.ltb_lt _ _)); [done|]. apply (H1 j); [done|lia].
Qed.

Notation ordered := (ordered top). Notation trackedo := (trackedo snaps bottom). Notation tracked := (tracked snaps bottom).
(** The record is counted, and [ikey_] and [value_] are set. *)
Definition loaded (e : kv) (st : Counter → Z) (s : CompactionIterator) : CompactionIterator :=
  s <| key_ := Some (encoded e.1) |> <| value_ := e.2 |> <| is_range_del_ := false |> <| ikey_ := e.1 |> <| iter_stats_ := st |>.
Lemma loads e s : ∃ st, count_input (enc e) (type_of e) ((load_record (enc e) s) <| ikey_ := e.1 |>) = loaded e st s.
Proof.
  destruct s. unfold count_input, load_record, loaded. destruct (_ || _); [|destruct (_ =? _)]; fields; eexists; reflexivity.
Qed.
(** The first record of a user key, and a later one. *)
Definition opened (e : kv) (st : Counter → Z) (s : CompactionIterator) : CompactionIterator :=
  (loaded e st s) <| current_key_ := encoded e.1 |> <| key_ := None |> <| current_user_key_sequence_ := kMaxSequenceNumber |> <| current_user_key_snapshot_ := 0 |>
    <| has_current_user_key_ := true |> <| has_outputted_key_ := false |> <| last_key_seq_zeroed_ := false |> <| current_key_committed_ := true |>.
Definition continued (u : bytes) (e : kv) (st : Counter → Z) (s : CompactionIterator) : CompactionIterator :=
  (loaded e st s) <| current_key_ := encoded (mkParsed u (seq_of e) (type_of e)) |> <| key_ := None |> <| ikey_ := mkParsed u (seq_of e) (type_of e) |>.
Lemma first_occurrence_spec b e st s : first_occurrence c b (loaded e st s) = Ok (Some None, opened e st s).
Proof.
  unfold first_occurrence. assert (Hl := encoded_length e.1). destruct s. unfold loaded, opened, key, UpdateTimestampAndCompareWithFullHistoryLow. fields.
  cbn [default]. unfold id. rewrite (proj2 (Nat.leb_le _ _)) by done. cbn [assert_ res_bind]. rewrite (no_history Hok), (no_timestamps Hok). cbn [Nat.eqb res_bind]. fields.
  unfold KeyCommitted. rewrite (no_checker Hok), orb_true_r. cbn [orb Nat.eqb]. fields. unfold InvokeFilterIfNeeded. rewrite (no_filter Hok). done.
Qed.
Lemma next_version_spec e st s u : (8 ≤ length (current_key_ s))%nat → current_user_key_ s = u → current_key_committed_ s = true →
  next_version c (loaded e st s) = Ok (Some None, continued u e st s).
Proof.
  intros Hl Hu Hc. unfold next_version, update_current, loaded, continued. destruct s. unfold current_user_key_ in Hu. cbn in Hl, Hu, Hc. fields.
  rewrite (update_encoded u) by done. cbn [res_bind]. fields. rewrite Hc. unfold current_user_key_, kNumInternalBytes. fields. by rewrite encoded_user.
Qed.
Definition finish_record := (finish_record c).
Definition placed (q : Z) (s : CompactionIterator) : CompactionIterator := s <| current_user_key_sequence_ := q |> <| current_user_key_snapshot_ := stripe q |>.
Lemma decided_entry s : current_key_committed_ s = true →
  decide_record c ShouldDelete HasOperator MergeUntil manual_compaction_canceled_ shutting_down_ None s =
  finish_record (apply_rules (current_user_key_sequence_ s) (current_user_key_snapshot_ s) (prev_snap (sequence (ikey_ s))) (placed (sequence (ikey_ s)) s)).
Proof. intros H. unfold decide_record. rewrite H. cbn [negb]. rewrite snapshot_of. done. Qed.
Lemma compared_with_last e st s : compare_with_last (user_of e) (loaded e st s) =
  Ok (if has_current_user_key_ s then Compare (user_of e) (current_user_key_ s) =? 0 else false, 0).
Proof.
  unfold compare_with_last. change (has_current_user_key_ (loaded e st s)) with (has_current_user_key_ s). destruct (has_current_user_key_ s); [|done].
  unfold EqualWithoutTimestamp. rewrite (user_compare Hok), (no_timestamps Hok). done.
Qed.
Lemma entered_opened e l st s : rel None (e :: l) (s <| has_current_user_key_ := false |>) → validity_info_ s = None → at_next_ s = false →
  ∃ o, placed (seq_of e) (opened e st s) = entered (fresh (user_of e)) e l o ∧ ptrs_ok (e :: l) (o_ptrs o).
Proof.
  intros [Hin Hst Hm Hp [_ Hc]] Hv Hat. destruct s. cbn in Hin, Hst, Hm, Hp, Hc, Hv, Hat. subst. destruct e as [[u q t] v]. unfold placed, opened, loaded, entered. fields.
  eexists (mkRest _ _ _ _ _ _ _ _ _). split; [reflexivity|done].
Qed.
Lemma entered_continued x e l st s : same (cu x) e = true → rel (Some x) (e :: l) s → validity_info_ s = None → at_next_ s = false → 
  (∃ o, placed (seq_of e) (continued (cu x) e st s) = entered x e l o ∧ ptrs_ok (e :: l) (o_ptrs o)) ∧ lasts x e (current_user_key_sequence_ s) (current_user_key_snapshot_ s).
Proof.
  intros Hs [Hin Hst Hm Hp [[K1 K2 K3 K4 K5 K6 K7 K8 K9] Ha]] Hv Hat. apply Forall_inv in Ha. specialize (Ha Hs). split; [|right; done].
  destruct s. cbn in Hin, Hst, Hm, Hp, Hv, Hat, K1, K3, K4, K5, K6, K7, K8, K9, Ha. subst. unfold placed, continued, loaded, entered. fields.
  eexists (mkRest _ _ _ _ _ _ _ _ _). split; [reflexivity|done].
Qed.
Lemma front x0 e l s : ordered (e :: l) → trackedo x0 (e :: l) → rel x0 (e :: l) s → validity_info_ s = None → at_next_ s = false →
  ∃ o ls lsn, ptrs_ok (e :: l) (o_ptrs o) ∧ lasts (enter x0 e) e ls lsn ∧
    process_record (enc e) s = finish_record (apply_rules ls lsn (prev_snap (seq_of e)) (entered (enter x0 e) e l o)).
Proof.
  intros Hd Hx Hrel Hv Hat. destruct (loads e s) as [st E]. pose proof (Forall_inv (ord_range _ _ Hd)) as Hr. cbn in Hr. pose proof (ok_top Hok) as Htop.
  assert (Hk : valid_key e.1) by (apply plain_valid; [done|by apply (Forall_inv (ord_plain _ _ Hd))]).
  unfold CompactionIter.process_record. change (i_key (enc e)) with (encoded e.1). rewrite parse_encoded by done. cbn [res_bind]. change (i_sentinel (enc e)) with false. cbv iota.
  change (type e.1) with (type_of e). rewrite E. change (user_key e.1) with (user_of e). rewrite compared_with_last. cbn [res_bind].
  change (has_current_user_key_ (loaded e st s)) with (has_current_user_key_ s). change (0 =? 0) with true. cbn [negb]. rewrite orb_false_r.
  assert (Hfresh : clear_and_output_next_key_ s = false → ∃ o ls lsn, ptrs_ok (e :: l) (o_ptrs o) ∧ lasts (fresh (user_of e)) e ls lsn ∧
    decide_record c ShouldDelete HasOperator MergeUntil manual_compaction_canceled_ shutting_down_ None (opened e st s) =
      finish_record (apply_rules ls lsn (prev_snap (seq_of e)) (entered (fresh (user_of e)) e l o))).
  { intros Hcl. destruct (entered_opened e l st s ltac:(by destruct Hrel) Hv Hat) as (o & Eo & Hp). exists o, kMaxSequenceNumber, 0. split; [done|]. split; [by left|]. rewrite <- Eo.
    apply (decided_entry (opened e st s) eq_refl). }
  destruct x0 as [x|]; cbn [enter].
  - destruct (r_ctx _ _ _ Hrel) as [K _]. rewrite (k_has _ _ K), (k_user _ _ K). cbn [negb orb].  destruct (same (cu x) e) eqn:Es.
    + assert (Compare (user_of e) (cu x) =? 0 = true) as -> by (apply Z.eqb_eq, Compare_zero_sym; by apply same_iff). cbn [negb].
      rewrite (next_version_spec _ _ _ (cu x)) by (by destruct K). cbn [res_bind]. destruct (entered_continued x e l st s Es Hrel Hv Hat) as [(o & Eo & Hp) H2].
      eexists o, _, _. split; [done|]. split; [exact H2|]. rewrite <- Eo. apply (decided_entry (continued (cu x) e st s)). by destruct K.
    + assert (Compare (user_of e) (cu x) =? 0 = false) as ->.
      { apply Z.eqb_neq. intros H%Compare_zero_sym. apply same_iff in H. congruence. }
      cbn [negb]. rewrite first_occurrence_spec. cbn [res_bind]. apply Hfresh. rewrite (k_clear _ _ K). destruct (clear x) eqn:Ec; [|done].
      destruct (tr_clear _ _ _ _ Hx Ec) as (_ & n & l' & [= <- <-] & ? & _). congruence.
  - destruct (r_ctx _ _ _ Hrel) as [-> Hcl]. cbn [negb orb]. rewrite first_occurrence_spec. cbn [res_bind]. by apply Hfresh.
Qed.

(** ** Look-ahead *)
Lemma same_user_next_spec l s u : ordered l → input_ s = enc <$> l → user_key (ikey_ s) = u → same_user_next s = Ok (fst <$> next_same u l).
Proof.
  intros Hd Hin Hu. unfold same_user_next. rewrite Hin. destruct l as [|n l]; [done|]. cbn [fmap list_fmap]. change (i_key (enc n)) with (encoded n.1).
  rewrite parse_encoded by (apply plain_valid; [exact (Forall_inv (ord_range _ _ Hd))|exact (Forall_inv (ord_plain _ _ Hd))]). cbn [res_bind].
  unfold EqualWithoutTimestamp. rewrite (user_compare Hok), Hu. cbn [res_bind next_same]. unfold same. change (user_key n.1) with (user_of n). by destruct (_ =? 0).
Qed.
Lemma skip_covered_spec prev l s u : ordered l → user_key (ikey_ s) = u →
  ∃ n p, skip_covered c manual_compaction_canceled_ shutting_down_ prev (enc <$> l) s = Ok (s <| input_ := enc <$> skip_versions u prev l |> <| num_itered_ := n |> <| polls := p |>).
Proof.
  revert s. induction l as [|e l IH]; intros s Hd Hu; cbn [fmap list_fmap skip_covered skip_versions]; unfold IsPausingManualCompaction, IsShuttingDown; rewrite (not_paused Hok), (not_down Hok).
  { destruct s. fields. eauto. }
  set (s1 := (_ <| input_ := enc e :: (enc <$> l) |>)). assert (Hd' : ordered l) by (eapply ordered_suffix; [done|by apply suffix_cons_r]).
  rewrite (same_user_next_spec (e :: l) s1 u); [|done..]. cbn [next_same]. unfold hides. destruct (same u e); cbn [fmap option_fmap option_map res_bind andb].
  - change (i_sentinel (enc e)) with false. rewrite orb_false_r. unfold DefinitelyNotInSnapshot. rewrite (no_checker Hok), orb_false_r. change (sequence e.1) with (seq_of e).
    destruct (_ || _).
    + unfold AdvanceInputIter. change (input_ s1) with (enc e :: (enc <$> l)). cbv iota. cbn [res_bind].
      edestruct (IH (s1 <| num_itered_ := num_itered_ s1 + (if i_sentinel (enc e) then 0 else 1) |> <| input_ := enc <$> l |>)) as (n & p & ->); [done|done|].
      exists n, p. unfold s1. destruct s. fields. done.
    + exists (num_itered_ s1), (polls s1). unfold s1. destruct s. fields. done.
  - exists (num_itered_ s1), (polls s1). unfold s1. destruct s. fields. done.
Qed.

(** ** The rules *)
(** The iterator has a record [y] to return. *)
Record staged (y : kv) (u : bytes) (x0 : option Ctx) (l : list kv) (s : CompactionIterator) : Prop := {
  st_valid : Valid s = true; st_key : key_ s = None; st_value : value_ s = y.2; st_ikey : ikey_ s = mkParsed u (seq_of y) (type_of y);
  st_current : current_key_ s = encoded (ikey_ s); st_range_del : is_range_del_ s = false; st_status : status_ s = OK; st_merged : merge_out_iter_ s = [];
  st_ptrs : ptrs_ok l (level_ptrs_ s); st_ctx : ctx_rel x0 l s; st_committed : current_key_committed_ s = true;
  st_input : if at_next_ s then input_ s = enc <$> l else ∃ e, input_ s = enc <$> e :: l }.
Definition after_write (started : bool) (y : kv) (x : Ctx) : Ctx := mkCtx (cu x) (last x) started (zeroed x || zeroable y) (clear x).
Definition result (started : bool) (x : Ctx) (e : kv) (r : list kv * option Ctx * list kv) (m : res (Flow * CompactionIterator)) : Prop :=
  let '(o, x', l') := r in
  ∃ s2, m = Ok (Continue, s2) ∧
    (o = [] ∧ rel x' l' s2 ∧ validity_info_ s2 = None ∧ at_next_ s2 = false ∧ (∀ x2, x' = Some x2 → outputted x2 = outputted x) ∨
     ∃ y x1, (y = e ∨ y = cleared e) ∧ o = [written (cu x) y] ∧ staged y (cu x) x1 l' s2 ∧ x' = after_write started y <$> x1 ∧ (∀ x2, x1 = Some x2 → outputted x2 = outputted x)).

Section rules.
Context (x : Ctx) (e : kv) (l : list kv) (Hd : ordered (e :: l)) (Hx : tracked x (e :: l)) (Hs : same (cu x) e = true).
Notation x1 := (in_stripe x (stripe (seq_of e))).
Lemma seq_bound : seq_of e < kMaxSequenceNumber.
Proof. pose proof (ok_top Hok) as Ht. pose proof (Forall_inv (ord_range _ _ Hd)) as Hr. cbn in Hr. lia. Qed.
Lemma older_seqs l' : l' `suffix_of` l → Forall (λ y, same (cu x) y = true → seq_of y < seq_of e) l'.
Proof. intros [pre E]. apply Forall_forall. intros y Hy Hsame. eapply (ord_older _ x e l); try done. rewrite E. set_solver. Qed.
Lemma ptrs_suffix l' ptrs : l' `suffix_of` l → ptrs_ok (e :: l) ptrs → ptrs_ok l' ptrs.
Proof. intros [pre E] H Hc. specialize (H Hc). apply Forall_inv_tail in H. rewrite E in H. by apply Forall_app in H as [_ H]. Qed.
(** What is known after the record. *)
Lemma ctx_after x' l' s k : l' `suffix_of` l → has_current_user_key_ s = true → current_key_ s = encoded k → user_key k = cu x → cu x' = cu x → last x' = Some (current_user_key_snapshot_ s) →
  current_user_key_sequence_ s = seq_of e → has_outputted_key_ s = outputted x' → last_key_seq_zeroed_ s = zeroed x' → clear_and_output_next_key_ s = clear x' →
  current_key_committed_ s = true → ctx_rel (Some x') l' s.
Proof.
  intros Hsuf H1 H2 Hk Hcu H3 H4 H5 H6 H7 H8. split; [constructor; try done|].
  - unfold current_user_key_, kNumInternalBytes. by rewrite H2, encoded_user, Hcu.
  - rewrite H2. apply encoded_length.
  - rewrite H4. apply seq_bound.
  - rewrite Hcu, H4. by apply older_seqs.
Qed.
Lemma hidden_result started o ls lsn : clear x = false → is_sd e = false → lasts x e ls lsn →
  match last x with Some t' => t' <=? stripe (seq_of e) | None => false end = true → ptrs_ok (e :: l) (o_ptrs o) →
  result started x e ([], Some x1, l) (finish_record (apply_rules ls lsn (prev_snap (seq_of e)) (entered x e l o))).
Proof.
  intros Hc Hsd Hl Ht Hp. destruct Hl as [[E _]|[E Hls]]; rewrite E in Ht; [done|]. unfold CompactionIter.apply_rules, entered. rewrite Hc. fields.
  change (type (mkParsed _ _ _) =? _) with (is_sd e). rewrite Hsd. rewrite (proj2 (Z.eqb_neq ls _)), Ht by lia. cbn [negb andb]. rewrite (proj2 (Z.leb_le (seq_of e) ls)) by lia.
  cbn [assert_ res_bind]. eexists. split; [reflexivity|]. left. split; [done|]. split; [|split; [done|split; [done|by intros ? [= <-]]]]. fields.
  constructor; try done; [by eapply ptrs_suffix|]. by eapply ctx_after.
Qed.
Lemma e_plain : plain e = true.
Proof. exact (Forall_inv (ord_plain _ _ Hd)). Qed.
(** The record itself is returned, from the input or from behind it. *)
Lemma staged_intro y x' l' s : l' `suffix_of` l → Valid s = true → key_ s = None → value_ s = y.2 → ikey_ s = mkParsed (cu x) (seq_of y) (type_of y) → current_key_ s = encoded (ikey_ s) →
  is_range_del_ s = false → status_ s = OK → merge_out_iter_ s = [] → ptrs_ok (e :: l) (level_ptrs_ s) → current_key_committed_ s = true →
  (if at_next_ s then input_ s = enc <$> l' else ∃ e, input_ s = enc <$> e :: l') → ctx_rel x' l' s → staged y (cu x) x' l' s.
Proof. intros. constructor; try done. by eapply ptrs_suffix. Qed.
Lemma clear_result started o ls lsn : clear x = true → lasts x e ls lsn → ptrs_ok (e :: l) (o_ptrs o) →
  result started x e (write snaps (preserve_seqno_after_ c) bottom started x1 (cleared e), l) (finish_record (apply_rules ls lsn (prev_snap (seq_of e)) (entered x e l o))).
Proof.
  intros Hc Hl Hp. destruct (tr_clear _ _ _ _ Hx Hc) as (_ & n & l' & [= <- <-] & _ & Hv & E). destruct Hl as [[E' _]|[E' _]]; rewrite E in E'; [done|]. injection E' as <-.
  unfold CompactionIter.apply_rules, entered. rewrite Hc. fields. unfold clear_and_output, change_type, update_current. fields. cbn [type].
  assert (is_put (type_of e) = true) as ->. { unfold is_put. unfold is_value in Hv. by rewrite Hv. }
  rewrite Z.leb_refl. cbn [assert_ res_bind]. unfold is_value in Hv.
  destruct ((type_of e =? kTypeBlobIndex) || (type_of e =? kTypeWideColumnEntity) || (type_of e =? kTypeValuePreferredSeqno)) eqn:Et.
  - rewrite (update_encoded (cu x)) by (apply encoded_length || apply encoded_user). cbn [res_bind]. fields. eexists. split; [reflexivity|]. right.
    exists (cleared e), (Some x1). split; [by right|]. split; [done|]. split; [|split; [done|by intros ? [= <-]]]. apply staged_intro; try done; [by exists e|]. by eapply ctx_after.
  - assert (Ht : type_of e = kTypeValue).
    { apply orb_false_iff in Et as [[Et1 Et2]%orb_false_iff _]. rewrite Et1, Et2, !orb_false_r in Hv. by apply Z.eqb_eq. }
    rewrite Ht. cbn [res_bind]. fields. eexists. split; [reflexivity|]. right.
    exists (cleared e), (Some x1). split; [by right|]. split; [done|]. split; [|split; [done|by intros ? [= <-]]]. apply staged_intro; try done; [by exists e|]. by eapply ctx_after.
Qed.
Lemma not_timestamped : type_of e =? kTypeDeletionWithTimestamp = false ∧ type_of e =? kTypeValuePreferredSeqno = false ∧ type_of e =? kTypeMerge = false.
Proof.
  pose proof e_plain as H. unfold plain, is_value, is_del, is_sd in H. repeat (apply orb_true_iff in H as [H|H]); apply Z.eqb_eq in H; rewrite H; done.
Qed.
(** The proxy is asked for the current key. *)
Lemma key_gone_spec p s : compaction_ c = Some p → user_key (ikey_ s) = cu x → ptrs_ok (e :: l) (level_ptrs_ s) →
  ∃ ptrs, key_gone c s = Ok (not_below (cu x), s <| level_ptrs_ := ptrs |>) ∧ ptrs_ok (e :: l) ptrs.
Proof.
  intros Hp Hu Hptrs. pose proof (Hproxy p Hp) as HP. pose proof Hs as Hs'. apply same_iff in Hs'. assert (H0 : ptrs_for (cu x) (level_ptrs_ s)).
  { eapply (ptrs_mono p); [done| |exact (Forall_inv (Hptrs ltac:(eauto)))]. by rewrite Compare_zero_sym. }
  unfold key_gone. rewrite Hp, Hu. destruct (beyond_level p _ _ HP _ _ H0) as (ptrs & -> & H1). cbn [res_bind]. exists ptrs. split; [done|].
  intros _. apply Forall_forall. intros y Hy. eapply (ptrs_mono p); [done| |exact H1]. pose proof (tr_users _ _ _ _ Hx) as Hall. rewrite Forall_forall in Hall. by apply Hall.
Qed.
Lemma entered_ptrs o ptrs : (entered x e l o) <| level_ptrs_ := ptrs |> = entered x e l (mkRest (o_itered o) (o_has o) (o_released o) (o_ts o) (o_progress o) ptrs (o_stats o) (o_cmp o) (o_polls o)).
Proof. done. Qed.
Lemma early_spec q : DefinitelyInSnapshot c q (earliest_snapshot_ c) = (q <=? earliest snaps).
Proof. unfold DefinitelyInSnapshot. by rewrite (no_checker Hok), (ok_earliest Hok), andb_true_r. Qed.
Lemma deletion_for_gc_spec o : deletion_for_gc (entered x e l o) = is_del e.
Proof. unfold deletion_for_gc, entered. fields. cbn [type]. destruct not_timestamped as [-> _]. by rewrite orb_false_r. Qed.
Lemma obsolete_spec o : ptrs_ok (e :: l) (o_ptrs o) →
  ∃ o', obsolete_delete c (entered x e l o) = Ok (is_del e && (seq_of e <=? earliest snaps) && gone (cu x), entered x e l o') ∧ ptrs_ok (e :: l) (o_ptrs o').
Proof.
  intros Hp. unfold obsolete_delete. rewrite deletion_for_gc_spec.
  change (sequence (ikey_ (entered x e l o))) with (seq_of e). rewrite early_spec. unfold gone. destruct (compaction_ c) as [p|] eqn:Ep; [|cbn; rewrite andb_false_r; eauto].
  destruct (allow_ingest_behind p); cbn [negb andb]; [rewrite andb_false_r; eauto|]. destruct (is_del e && (seq_of e <=? earliest snaps)); cbn [andb]; [|eauto].
  destruct (key_gone_spec p (entered x e l o) Ep eq_refl Hp) as (ptrs & -> & H). rewrite entered_ptrs. eexists. split; [done|]. done.
Qed.
Lemma not_hidden o ls lsn : clear x = false → is_sd e = false → lasts x e ls lsn →
  match last x with Some t' => t' <=? stripe (seq_of e) | None => false end = false →
  negb (ls =? kMaxSequenceNumber) && (lsn <=? current_user_key_snapshot_ (entered x e l o)) = false.
Proof.
  intros Hc Hsd [[E ->]|[E Hls]] Ht; [done|]. rewrite E in Ht. unfold entered. fields. by rewrite Ht, andb_false_r.
Qed.
Lemma obsolete_result started o ls lsn : clear x = false → is_sd e = false → lasts x e ls lsn →
  match last x with Some t' => t' <=? stripe (seq_of e) | None => false end = false → ptrs_ok (e :: l) (o_ptrs o) → is_del e && (seq_of e <=? earliest snaps) && gone (cu x) = true →
  result started x e ([], Some x1, l) (finish_record (apply_rules ls lsn (prev_snap (seq_of e)) (entered x e l o))).
Proof.
  intros Hc Hsd Hl Ht Hp Hdel. unfold CompactionIter.apply_rules. change (clear_and_output_next_key_ (entered x e l o)) with (clear x). rewrite Hc.
  change (type (ikey_ (entered x e l o)) =? kTypeSingleDeletion) with (is_sd e). rewrite Hsd, not_hidden by done. destruct (obsolete_spec o Hp) as (o' & -> & Hp'). cbn [res_bind].
  rewrite Hdel. assert (∃ o2, (if bottom then count num_record_drop_obsolete (entered x e l o') else count num_optimized_del_drop_obsolete (count num_record_drop_obsolete (entered x e l o'))) =
    entered x e l o2 ∧ o_ptrs o2 = o_ptrs o') as (o2 & -> & E2).
  { destruct bottom; unfold entered; fields; eexists (mkRest _ _ _ _ _ _ _ _ _); split; reflexivity. }
  unfold entered. eexists. split; [reflexivity|]. left. split; [done|]. split; [|split; [done|split; [done|by intros ? [= <-]]]]. fields.
  constructor; try done; [eapply ptrs_suffix; [done|]; by rewrite E2|]. by eapply ctx_after.
Qed.
Lemma kept_result started o ls lsn : clear x = false → is_sd e = false → lasts x e ls lsn →
  match last x with Some t' => t' <=? stripe (seq_of e) | None => false end = false → ptrs_ok (e :: l) (o_ptrs o) → is_del e && (seq_of e <=? earliest snaps) && gone (cu x) = false →
  is_del e && bottom = false →
  result started x e (write snaps (preserve_seqno_after_ c) bottom started x1 e, l) (finish_record (apply_rules ls lsn (prev_snap (seq_of e)) (entered x e l o))).
Proof.
  intros Hc Hsd Hl Ht Hp Hdel Hb. unfold CompactionIter.apply_rules. change (clear_and_output_next_key_ (entered x e l o)) with (clear x). rewrite Hc.
  change (type (ikey_ (entered x e l o)) =? kTypeSingleDeletion) with (is_sd e). rewrite Hsd, not_hidden by done. destruct (obsolete_spec o Hp) as (o' & -> & Hp'). cbn [res_bind].
  rewrite Hdel, deletion_for_gc_spec, Hb. unfold may_swap_seqno. change (type (ikey_ (entered x e l o'))) with (type_of e). destruct not_timestamped as (_ & -> & Hm). cbn [andb res_bind].
  change (type (ikey_ (entered x e l o'))) with (type_of e). rewrite Hm. unfold output_record. rewrite (no_tombstones Hok), andb_false_r. cbn [res_bind]. unfold entered. fields.
  eexists. split; [reflexivity|]. right. exists e, (Some x1). split; [by left|]. split; [done|]. split; [|split; [done|by intros ? [= <-]]].
  apply staged_intro; try done; [by exists e|]. rewrite <- Hc. by eapply ctx_after.
Qed.
Lemma bottom_inv : bottom = true → ∃ p, compaction_ c = Some p ∧ bottommost_level p = true ∧ allow_ingest_behind p = false.
Proof. unfold bottommost_level_. destruct (compaction_ c) as [p|]; [|done]. intros [H1 H2%negb_true_iff]%andb_true_iff. eauto. Qed.
Lemma bottom_gone u : bottom = true → gone u = true.
Proof. intros (p & Ep & Hb & Hi)%bottom_inv. unfold gone. rewrite Ep, Hi. by apply (bottommost_below p _ _ (Hproxy p Ep)). Qed.
Lemma l_ordered : ordered l.
Proof. eapply ordered_suffix; [exact Hd|]. by apply suffix_cons_r. Qed.
Lemma bottom_result started o ls lsn : clear x = false → is_del e = true → is_sd e = false → lasts x e ls lsn →
  match last x with Some t' => t' <=? stripe (seq_of e) | None => false end = false → ptrs_ok (e :: l) (o_ptrs o) → is_del e && (seq_of e <=? earliest snaps) && gone (cu x) = false → bottom = true →
  let l' := skip_versions (cu x) (prev_snap (seq_of e)) l in
  result started x e (match next_same (cu x) l' with Some _ => (write snaps (preserve_seqno_after_ c) bottom started x1 e, l') | None => ([], Some x1, l') end)
    (finish_record (apply_rules ls lsn (prev_snap (seq_of e)) (entered x e l o))).
Proof.
  intros Hc Hdel Hsd Hl Ht Hp Hobs Hb l'. destruct (bottom_inv Hb) as (p & Ep & Hbp & Hi). unfold CompactionIter.apply_rules.
  change (clear_and_output_next_key_ (entered x e l o)) with (clear x). rewrite Hc.
  change (type (ikey_ (entered x e l o)) =? kTypeSingleDeletion) with (is_sd e). rewrite Hsd, not_hidden by done. destruct (obsolete_spec o Hp) as (o' & -> & Hp'). cbn [res_bind].
  rewrite Hobs, deletion_for_gc_spec. assert (is_del e && bottom = true) as -> by (by rewrite Hdel, Hb). unfold bottommost_delete. rewrite Ep, Hi. cbn [negb assert_ res_bind].
  destruct (key_gone_spec p (entered x e l o') Ep eq_refl Hp') as (ptrs & -> & H2). rewrite (bottommost_below p _ _ (Hproxy p Ep) _ Hbp), entered_ptrs. cbn [assert_ res_bind].
  set (o2 := mkRest _ _ _ _ _ _ _ _ _). unfold AdvanceInputIter. change (input_ (entered x e l o2)) with (enc e :: (enc <$> l)). cbv iota. cbn [res_bind].
  assert (Hsuf : l' `suffix_of` l) by apply skip_suffix. pose proof l_ordered as Hlo.
  set (s1 := (entered x e l o2) <| num_itered_ := _ |> <| input_ := _ |>). change (input_ s1) with (enc <$> l).
  destruct (skip_covered_spec (prev_snap (seq_of e)) l s1 (cu x) Hlo eq_refl) as (n & po & ->). cbn [res_bind]. fold l'.
  rewrite (same_user_next_spec l' _ (cu x)) by (done || by eapply ordered_suffix). cbn [res_bind]. unfold s1, entered. destruct (next_same (cu x) l') as [m|]; cbn [fmap option_fmap option_map]; fields.
  - eexists. split; [reflexivity|]. right. exists e, (Some x1). split; [by left|]. split; [done|]. split; [|split; [done|by intros ? [= <-]]]. apply staged_intro; try done. by eapply ctx_after.
  - eexists. split; [reflexivity|]. left. split; [done|]. split; [|split; [done|split; [done|by intros ? [= <-]]]]. constructor; try done; [by eapply ptrs_suffix|]. by eapply ctx_after.
Qed.
(** The input is behind the single deletion. *)
Definition behind (o : Rest) : CompactionIterator := (entered x e l o) <| input_ := enc <$> l |>.
Lemma skip_sentinels_spec u k : skip_sentinels u (enc <$> k) = Ok (enc <$> k).
Proof. by destruct k. Qed.
Definition settle (r : res (Flow * CompactionIterator)) : res (Flow * CompactionIterator) :=
  finish_record (let* (flow, s) := let* (flow, s) := r in Ok (flow, if Valid s then s <| at_next_ := true |> else s) in Ok (flow, None, s)).
Lemma sd_front o ls lsn : clear x = false → is_sd e = true → ∃ o', o_ptrs o' = o_ptrs o ∧
  finish_record (apply_rules ls lsn (prev_snap (seq_of e)) (entered x e l o)) =
  settle (match next_same (cu x) l with
          | Some n => single_delete_pair c true (prev_snap (seq_of e)) n.1 (behind o')
          | None => let* s := single_delete_alone c true (behind o') in Ok (Continue, s)
          end).
Proof.
  intros Hc Hsd. unfold CompactionIter.apply_rules. change (clear_and_output_next_key_ (entered x e l o)) with (clear x). rewrite Hc.
  change (type (ikey_ (entered x e l o)) =? kTypeSingleDeletion) with (is_sd e). rewrite Hsd. unfold single_delete. rewrite (no_timestamps Hok). cbn [Nat.eqb orb].
  unfold AdvanceInputIter. change (input_ (entered x e l o)) with (enc e :: (enc <$> l)). cbv iota. cbn [res_bind].
  exists (mkRest (o_itered o + 1) (o_has o) (o_released o) (o_ts o) (o_progress o) (o_ptrs o) (o_stats o) (o_cmp o) (o_polls o)). split; [done|].
  set (s1 := (entered x e l o) <| num_itered_ := _ |> <| input_ := _ |>). change (input_ s1) with (enc <$> l). change (user_key (ikey_ s1)) with (cu x). rewrite skip_sentinels_spec. cbn [res_bind].
  rewrite (same_user_next_spec l _ (cu x)) by (done || apply l_ordered). cbn [res_bind]. unfold settle.
  set (b := behind _). assert (s1 <| input_ := enc <$> l |> = b) as -> by (unfold b, behind, s1, entered; fields; reflexivity). clearbody b. clear.
  destruct l as [|n l2]; [done|]. cbn [next_same]. destruct (same (cu x) n); done.
Qed.
(** The single deletion is dropped, alone or with the value. *)
Lemma sd_dropped started o l' s : l' `suffix_of` l → ptrs_ok (e :: l) (o_ptrs o) → clear x = false →
  (∃ n st, s = (behind o) <| iter_stats_ := st |> <| num_itered_ := n |> <| input_ := enc <$> l' |>) → result started x e ([], Some x1, l') (settle (Ok (Continue, s))).
Proof.
  intros Hsuf Hp Hc (n & st & ->). unfold behind, entered. fields. eexists. split; [reflexivity|]. left. split; [done|]. split; [|split; [done|split; [done|by intros ? [= <-]]]].
  constructor; try done; [by eapply ptrs_suffix|]. by eapply ctx_after.
Qed.
(** It is kept. *)
Lemma sd_kept started o b ctx s : ptrs_ok (e :: l) (o_ptrs o) → clear x = false →
  s = SetValid ctx ((behind o) <| clear_and_output_next_key_ := b |>) →
  result started x e (write snaps (preserve_seqno_after_ c) bottom started (mkCtx (cu x) (Some (stripe (seq_of e))) (outputted x) (zeroed x) b) e, l) (settle (Ok (Continue, s))).
Proof.
  intros Hp Hc ->. unfold behind, entered. fields. eexists. split; [reflexivity|]. right.
  exists e, (Some (mkCtx (cu x) (Some (stripe (seq_of e))) (outputted x) (zeroed x) b)). split; [by left|]. split; [done|]. split; [|split; [done|by intros ? [= <-]]].
  apply staged_intro; try done. by eapply ctx_after.
Qed.
(** Only the counters differ. *)
Definition counted (o : Rest) (s : CompactionIterator) : Prop := ∃ st, s = (behind o) <| iter_stats_ := st |>.
Lemma counted_refl o : counted o (behind o).
Proof. exists (o_stats o). unfold behind, entered. fields. done. Qed.
Lemma counted_count o k s : counted o s → counted o (count k s).
Proof. intros [st ->]. unfold behind, entered. fields. eexists. unfold behind, entered. fields. reflexivity. Qed.
Lemma counted_drop started o s : counted o s → ptrs_ok (e :: l) (o_ptrs o) → clear x = false → result started x e ([], Some x1, l) (settle (Ok (Continue, s))).
Proof. intros [st ->] Hp Hc. apply (sd_dropped _ o); try done. exists (o_itered o), st. unfold behind, entered. fields. done. Qed.
Lemma counted_advance started o n l2 s : l = n :: l2 → counted o s → ptrs_ok (e :: l) (o_ptrs o) → clear x = false →
  result started x e ([], Some x1, tail l) (settle (let* s := AdvanceInputIter s in Ok (Continue, s))).
Proof.
  intros El [st ->] Hp Hc. unfold AdvanceInputIter. change (input_ ((behind o) <| iter_stats_ := st |>)) with (enc <$> l). rewrite El at 2. cbn [fmap list_fmap res_bind].
  apply (sd_dropped _ o); try done; [rewrite El; by apply suffix_cons_r|]. rewrite El. cbn [tail]. eexists _, st. unfold behind, entered. fields. reflexivity.
Qed.
Lemma no_conflict_spec q : DefinitelyInSnapshot c q (earliest_write_conflict_snapshot_ c) ||
    ((earliest_snapshot_ c <? earliest_write_conflict_snapshot_ c) && DefinitelyInSnapshot c q (earliest_snapshot_ c)) = no_conflict snaps (earliest_write_conflict_snapshot_ c) q.
Proof. unfold DefinitelyInSnapshot, no_conflict. by rewrite (no_checker Hok), (ok_earliest Hok), !andb_true_r. Qed.
Hint Resolve counted_refl counted_count : core.
Lemma pair_result started o n l2 : clear x = false → ptrs_ok (e :: l) (o_ptrs o) → l = n :: l2 → same (cu x) n = true → (enforce_single_del_contracts_ c = true → is_del n = false) →
  result started x e (sd_step snaps (earliest_write_conflict_snapshot_ c) (preserve_seqno_after_ c) bottom gone started x x1 e l)
    (settle (single_delete_pair c true (prev_snap (seq_of e)) n.1 (behind o))).
Proof.
  intros Hc Hp El Hn Hcon. unfold sd_step. assert (next_same (cu x) l = Some n) as -> by (rewrite El; cbn; by rewrite Hn).
  unfold single_delete_pair. change (last_key_seq_zeroed_ (behind o)) with (zeroed x). destruct (zeroed x) eqn:Ez.
  - destruct (tr_zeroed _ _ _ _ Hx Ez) as [-> _]. cbn [assert_ res_bind]. eapply counted_advance; eauto.
  - unfold DefinitelyNotInSnapshot. rewrite (no_checker Hok), orb_false_r. change (sequence n.1) with (seq_of n). destruct ((prev_snap (seq_of e) =? 0) || (prev_snap (seq_of e) <? seq_of n)).
    + change (type n.1 =? kTypeSingleDeletion) with (is_sd n). change (type n.1 =? kTypeDeletion) with (is_del n). destruct (is_sd n); cbn [orb]; [eapply counted_drop; eauto|].
      destruct (is_del n).
      * destruct (enforce_single_del_contracts_ c); [discriminate Hcon; done|]. eapply counted_drop; eauto.
      * cbn [negb]. change (has_outputted_key_ (behind o)) with (outputted x). change (sequence (ikey_ (behind o))) with (seq_of e). rewrite <- orb_assoc, no_conflict_spec.
        destruct (outputted x || no_conflict _ _ _).
        -- eapply counted_advance; eauto. destruct (is_put _); eauto.
        -- eapply sd_kept; try done.
    + apply (sd_kept _ o false kKeepSDForSnapshot); try done. unfold behind, entered. fields. by rewrite Hc.
Qed.
(** Nothing of the key follows in the input. *)
Definition alone (o : Rest) : CompactionIterator := (behind o) <| has_current_user_key_ := false |>.
Lemma alone_gone o : ptrs_ok (e :: l) (o_ptrs o) → ∃ o', ptrs_ok (e :: l) (o_ptrs o') ∧
  (if match compaction_ c with Some p => negb (allow_ingest_behind p) | None => false end && DefinitelyInSnapshot c (sequence (ikey_ (alone o))) (earliest_snapshot_ c)
   then key_gone c (alone o) else Ok (false, alone o)) = Ok ((seq_of e <=? earliest snaps) && gone (cu x), alone o').
Proof.
  intros Hp. change (sequence (ikey_ (alone o))) with (seq_of e). rewrite early_spec. unfold gone. destruct (compaction_ c) as [p|] eqn:Ep; [|rewrite andb_false_r; eauto].
  destruct (allow_ingest_behind p); cbn [negb andb]; [rewrite andb_false_r; eauto|]. destruct (seq_of e <=? earliest snaps); cbn [andb]; [|eauto].
  destruct (key_gone_spec p (alone o) Ep eq_refl Hp) as (ptrs & -> & H).
  exists (mkRest (o_itered o) (o_has o) (o_released o) (o_ts o) (o_progress o) ptrs (o_stats o) (o_cmp o) (o_polls o)). split; [done|].
  unfold alone, behind, entered. fields. done.
Qed.
Lemma alone_dropped started o s : clear x = false → ptrs_ok (e :: l) (o_ptrs o) → (∃ st, s = (alone o) <| iter_stats_ := st |>) →
  result started x e ([], None, l) (settle (Ok (Continue, s))).
Proof.
  intros Hc Hp [st ->]. unfold alone, behind, entered. fields. eexists. split; [reflexivity|]. left. split; [done|]. split; [|done].
  constructor; try done. by eapply ptrs_suffix.
Qed.
Lemma alone_result started o : clear x = false → ptrs_ok (e :: l) (o_ptrs o) → next_same (cu x) l = None →
  result started x e (sd_step snaps (earliest_write_conflict_snapshot_ c) (preserve_seqno_after_ c) bottom gone started x x1 e l)
    (settle (let* s := single_delete_alone c true (behind o) in Ok (Continue, s))).
Proof.
  intros Hc Hp Hn. unfold sd_step. rewrite Hn. unfold single_delete_alone. change ((behind o) <| has_current_user_key_ := false |>) with (alone o).
  destruct (alone_gone o Hp) as (o' & Hp' & ->). cbn [res_bind]. rewrite andb_true_r. destruct ((seq_of e <=? earliest snaps) && gone (cu x)); cbn [orb res_bind].
  - apply (alone_dropped _ o'); try done. destruct bottom; unfold alone, behind, entered; fields; eexists; unfold alone, behind, entered; fields; reflexivity.
  - change (last_key_seq_zeroed_ (alone o')) with (zeroed x). destruct (zeroed x) eqn:Ez.
    + destruct (tr_zeroed _ _ _ _ Hx Ez) as [Hb _]. destruct (bottom_inv Hb) as (p & Ep & _ & Hi). rewrite Hb. unfold ingest_behind. rewrite Ep, Hi. cbn [negb andb assert_ res_bind].
      apply (alone_dropped _ o'); try done. unfold alone, behind, entered. fields. eexists. unfold alone, behind, entered. fields. reflexivity.
    + cbn [res_bind]. unfold alone, behind, entered. fields. eexists. split; [reflexivity|]. right. exists e, None. split; [by left|]. split; [done|]. split; [|done]. by apply staged_intro.
Qed.
Definition contract (k : list kv) : Prop := enforce_single_del_contracts_ c = true → sd_over_del k = false.
Lemma record_result started x0 o ls lsn : x = enter x0 e → lasts x e ls lsn → ptrs_ok (e :: l) (o_ptrs o) → contract (e :: l) →
  result started x e (step started x0 e l) (finish_record (apply_rules ls lsn (prev_snap (seq_of e)) (entered x e l o))).
Proof.
  intros Ex Hl Hp Hcon. unfold CompactionRef.step. rewrite <- Ex. destruct (clear x) eqn:Hc; [by apply clear_result|]. destruct (is_sd e) eqn:Hsd.
  { destruct (sd_front o ls lsn Hc Hsd) as (o' & Eo & ->). rewrite <- Eo in Hp. destruct (next_same (cu x) l) as [n|] eqn:En; [|by apply alone_result].
    destruct (next_same_inv x l n En) as (l2 & El & Hn). apply (pair_result _ _ n l2); try done. intros Hen. specialize (Hcon Hen). rewrite El in Hcon. cbn [sd_over_del] in Hcon.
    apply orb_false_iff in Hcon as [Hcon _]. assert (same (user_of e) n = true) as E. { rewrite <- (same_compat (cu x)); [done|]. by apply same_iff. }
    by rewrite E, Hsd in Hcon. }
  destruct (match last x with Some _ => _ | None => _ end) eqn:El; [by apply hidden_result|].
  destruct (is_del e && (seq_of e <=? earliest snaps) && gone (cu x)) eqn:Eg; [by apply obsolete_result|].
  destruct (is_del e && bottom) eqn:Eb; [|by apply kept_result]. apply andb_true_iff in Eb as [Hdel Hb]. by apply bottom_result.
Qed.
End rules.
Lemma record_processed started x0 e l s : ordered (e :: l) → trackedo x0 (e :: l) → rel x0 (e :: l) s → validity_info_ s = None → at_next_ s = false → contract (e :: l) →
  result started (enter x0 e) e (step started x0 e l) (process_record (enc e) s).
Proof.
  intros Hd Hx Hr Hv Hat Hcon. destruct (front x0 e l s Hd Hx Hr Hv Hat) as (o & ls & lsn & Hp & Hl & ->). destruct (enter_tracked _ _ _ x0 e l Hd Hx) as [Hx' Hs].
  by apply record_result.
Qed.

(** ** The output *)
Record positioned (x0 : option Ctx) (l : list kv) (s : CompactionIterator) : Prop := {
  p_valid : Valid s = true; p_status : status_ s = OK; p_merged : merge_out_iter_ s = []; p_ptrs : ptrs_ok l (level_ptrs_ s); p_ctx : ctx_rel x0 l s;
  p_input : if at_next_ s then input_ s = enc <$> l else ∃ e, input_ s = enc <$> e :: l }.
Notation PrepareOutput := (PrepareOutput c blob_gc).
(** The blob files are not touched. *)
Lemma prepare_value s : Valid s = true → is_range_del_ s = false →
  (if is_range_del_ s then Ok s else if type (ikey_ s) =? kTypeValue then ExtractLargeValueIfNeeded c s
   else if (type (ikey_ s) =? kTypeBlobIndex) || (type (ikey_ s) =? kTypeWideColumnEntity) then relocate blob_gc s else Ok s) = Ok s.
Proof.
  intros Hv ->. unfold ExtractLargeValueIfNeeded, relocate. rewrite (no_blobs Hok), (no_relocation Hok). cbn [negb]. rewrite Z.eqb_refl. cbn [res_bind].
  destruct (_ =? _); [done|]. destruct (_ || _); [|done]. by destruct s.
Qed.
Lemma zeroable_spec y u x0 l s : plain y = true → staged y u x0 l s →
  Valid s && bottom && DefinitelyInSnapshot c (sequence (ikey_ s)) (earliest_snapshot_ c) && negb (type (ikey_ s) =? kTypeMerge)
       && current_key_committed_ s && (sequence (ikey_ s) <=? preserve_seqno_after_ c) && negb (is_range_del_ s) = zeroable y.
Proof.
  intros Hp [H1 _ _ H4 _ H6 _ _ _ _ H11 _]. rewrite H1, H4, H6, H11. cbn [sequence type]. unfold DefinitelyInSnapshot. rewrite (no_checker Hok), (ok_earliest Hok), !andb_true_r. cbn [andb negb].
  assert (type_of y =? kTypeMerge = false) as ->; [|by rewrite andb_true_r]. unfold plain, is_value, is_del, is_sd in Hp.
  repeat (apply orb_true_iff in Hp as [Hp|Hp]); apply Z.eqb_eq in Hp; rewrite Hp; done.
Qed.
Definition outputs (started : bool) (x : Ctx) : Ctx := mkCtx (cu x) (last x) (started || outputted x) (zeroed x) (clear x).
Definition zeroes (b : bool) (x : Ctx) : Ctx := mkCtx (cu x) (last x) (outputted x) (zeroed x || b) (clear x).
Lemma staged_outputs y u x0 l s : staged y u x0 l s → staged y u (outputs true <$> x0) l (s <| has_outputted_key_ := true |>).
Proof.
  intros [H1 H2 H3 H4 H5 H6 H7 H8 H9 H10 H11 H12]. destruct s. constructor; try done. destruct x0 as [x|]; [|done]. destruct H10 as [[] H]. split; [|done]. by constructor.
Qed.
Lemma prepare_spec y u x0 l s : plain y = true → (zeroable y = true → is_value y = true) → staged y u x0 l s →
  ∃ s', PrepareOutput s = Ok s' ∧ key s' = encoded (written u y).1 ∧ value_ s' = y.2 ∧ positioned (zeroes (zeroable y) <$> x0) l s'.
Proof.
  intros Hp Hz Hst. unfold CompactionIter.PrepareOutput. pose proof (zeroable_spec y u x0 l s Hp Hst) as Hzs. destruct Hst as [H1 H2 H3 H4 H5 H6 H7 H8 H9 H10 H11 H12].
  rewrite H1. cbn [negb]. rewrite prepare_value by done. cbn [res_bind]. rewrite Hzs. unfold CompactionRef.written. cbn [fst]. destruct (zeroable y) eqn:Ez.
  - specialize (Hz eq_refl). assert (Hb : bottom = true) by (by apply andb_true_iff in Ez as [[? _]%andb_true_iff _]). destruct (bottom_inv Hb) as (p & Ep & _ & Hi).
    unfold zero_seqno. rewrite Ep, Hi. cbn [negb assert_ res_bind]. rewrite (no_timestamps Hok), H4. cbn [type Nat.eqb]. rewrite andb_true_r.
    assert ((type_of y =? kTypeDeletion) || (type_of y =? kTypeSingleDeletion) = false) as ->.
    { unfold is_value in Hz. repeat (apply orb_true_iff in Hz as [Hz|Hz]); apply Z.eqb_eq in Hz; rewrite Hz; done. }
    cbn [negb assert_ res_bind]. unfold update_current. rewrite H5, H4, (update_encoded u) by (apply encoded_length || apply encoded_user). cbn [res_bind].
    assert (Hcu : ∀ x, ctx_rel (Some x) l s → u = cu x).
    { intros x [K _]. rewrite <- (k_user _ _ K). unfold current_user_key_, kNumInternalBytes. by rewrite H5, H4, encoded_user. }
    destruct s. cbn in H2, H3, H4, H5, H6, H7, H8, H9, H11, H12, H1. subst. fields. eexists. split; [reflexivity|]. split; [done|]. split; [done|]. constructor; try done.
    destruct x0 as [x|]; [|done]. specialize (Hcu x H10). destruct H10 as [[] HF]. split; [|done]. constructor; try done; [|apply encoded_length|cbn; by rewrite orb_true_r].
    unfold current_user_key_. fields. by rewrite encoded_user.
  - exists s. split; [done|]. split; [unfold key; rewrite H2, H5, H4; done|]. split; [done|]. constructor; try done. destruct x0 as [x|]; [|done]. destruct H10 as [K HF]. split; [|done].
    destruct K. constructor; try done. cbn. by rewrite orb_false_r.
Qed.

(** ** The loops *)
Notation next_loop := (next_loop c ShouldDelete HasOperator MergeUntil manual_compaction_canceled_ shutting_down_).
(** Before the first record is returned, none has been. *)
Definition quiet (started : bool) (x0 : option Ctx) : Prop := started = false → ∀ x, x0 = Some x → outputted x = false.
(** There is a record to return, and the rest will be as the rules say. *)
Definition emits (started : bool) (l out : list kv) (s : CompactionIterator) : Prop :=
  ∃ y u x1 l' f, plain y = true ∧ (zeroable y = true → is_value y = true) ∧ staged y u x1 l' s ∧ (length l' < length l)%nat ∧ ordered l' ∧ trackedo (after_write started y <$> x1) l' ∧
    contract l' ∧ quiet started x1 ∧ (length l' ≤ f)%nat ∧ out = written u y :: compact f true (after_write started y <$> x1) l'.
Lemma rel_polls x0 l s p : rel x0 l s → rel x0 l (s <| polls := p |>).
Proof. intros [H1 H2 H3 H4 H5]. destruct s. constructor; try done. destruct x0 as [x|]; [|done]. destruct H5 as [[] H]. split; [|done]. by constructor. Qed.
Lemma contract_suffix l l' : contract l → l' `suffix_of` l → contract l'.
Proof.
  intros H [pre ->] Hen. specialize (H Hen). induction pre as [|e pre IH]; [done|]. apply IH. cbn [app sd_over_del] in H. by apply orb_false_iff in H as [_ H].
Qed.
Lemma outcome_of started x0 e l : ordered (e :: l) → trackedo x0 (e :: l) →
  outcome snaps (preserve_seqno_after_ c) bottom (enter x0 e) e l (step started x0 e l).
Proof.
  intros Hd Hx. destruct (enter_tracked _ _ _ x0 e l Hd Hx) as [Hx' Hs]. eapply step_outcome; try done; try apply Hok.
  - rewrite <- (ok_earliest Hok). apply Hok.
  - intros Hb u. by apply bottom_gone.
Qed.
Lemma plain_out e y : plain e = true → (y = e ∨ y = cleared e) → plain y = true.
Proof. by intros Hp [->| ->]. Qed.
Lemma enter_quiet started x0 e : quiet started x0 → started = false → outputted (enter x0 e) = false.
Proof. intros H Hs. destruct x0 as [x|]; [|done]. cbn [enter]. destruct (same (cu x) e); [by apply H|done]. Qed.
Lemma loop_spec started l : ∀ n x0 s f, (length l < n)%nat → (length l ≤ f)%nat → ordered l → trackedo x0 l → rel x0 l s → validity_info_ s = None → at_next_ s = false → contract l → quiet started x0 →
  ∃ s', next_loop n s = Ok (false, s') ∧
    (compact f started x0 l = [] ∧ Valid s' = false ∧ status_ s' = OK ∧ input_ s' = [] ∨ emits started l (compact f started x0 l) s').
Proof.
  induction l as [l IH] using (induction_ltof1 _ (@length kv)). intros n x0 s f Hn Hf Hd Hx Hr Hv Hat Hcon Hq. destruct n as [|n]; [lia|]. cbn [CompactionIter.next_loop].
  assert (Valid s = false) as Hval by (unfold Valid; by rewrite Hv). rewrite Hval, (r_input _ _ _ Hr).
  destruct l as [|e l]; cbn [fmap list_fmap]. { exists s. split; [done|]. left. split; [by destruct f|]. split; [done|]. split; [apply Hr|apply Hr]. }
  destruct f as [|f]; [cbn in Hf; lia|]. unfold IsPausingManualCompaction, IsShuttingDown. rewrite (not_paused Hok), (not_down Hok).
  set (s1 := s <| polls := _ |> <| polls := _ |>). assert (Hr1 : rel x0 (e :: l) s1) by (by apply rel_polls, rel_polls).
  pose proof (record_processed started x0 e l s1 Hd Hx Hr1 Hv Hat Hcon) as Hres. pose proof (outcome_of started x0 e l Hd Hx) as Ho. cbn [CompactionRef.compact].
  destruct (step started x0 e l) as [[o x'] l'] eqn:Es. destruct Hres as (s2 & -> & Hres). destruct Ho as (Ht & Hsuf & _ & Ho). cbn [res_bind].
  assert (Hsuf' : l' `suffix_of` e :: l) by (by apply suffix_cons_r). pose proof (suffix_length _ _ Hsuf) as Hlen. cbn [length] in Hn, Hf.
  destruct Hres as [(-> & Hrel & Hv2 & Hat2 & Hq2)|(y & x1 & Hy & -> & Hst & -> & Hq2)].
  - cbn [app]. rewrite orb_false_r. destruct (IH l' ltac:(unfold ltof; cbn; lia) n x' s2 f ltac:(lia) ltac:(lia)) as (s' & E & H); try done.
    + by eapply ordered_suffix.
    + by eapply contract_suffix.
    + intros Hs x2 E2. rewrite (Hq2 x2 E2). by apply (enter_quiet started).
    + exists s'. split; [done|]. destruct H as [H|H]; [by left|right]. destruct H as (y & u & x2 & l3 & f3 & ? & ? & ? & ? & H). exists y, u, x2, l3, f3. cbn [length]. split_and!; try apply H; try done. lia.
  - destruct n as [|n]; [lia|]. cbn [CompactionIter.next_loop]. rewrite (st_valid _ _ _ _ _ Hst). exists s2. split; [done|]. right.
    exists y, (cu (enter x0 e)), x1, l', f. cbn [length app]. rewrite orb_true_r. split_and!; try done; try lia.
    + eapply plain_out; [|done]. exact (Forall_inv (ord_plain _ _ Hd)).
    + destruct Ho as [?|(_ & y' & E & Hy' & Hz)]; [done|]. injection E as E1 E2 E3. intros Hzy. assert (zeroable y' = true) as Hzy'.
      { rewrite <- Hzy. by destruct Hy as [->| ->], Hy' as [->| ->]. }
      destruct (Hz Hzy') as [Hv' _]. unfold is_value in *. by rewrite E2.
    + by eapply ordered_suffix.
    + by eapply contract_suffix.
    + intros Hs x2 E2. rewrite (Hq2 x2 E2). by apply (enter_quiet started).
Qed.
Notation NextFromInput := (NextFromInput c ShouldDelete HasOperator MergeUntil manual_compaction_canceled_ shutting_down_ input_status).
Notation Next := (Next c ShouldDelete HasOperator MergeUntil blob_gc manual_compaction_canceled_ shutting_down_ input_status).
Notation SeekToFirst := (SeekToFirst c ShouldDelete HasOperator MergeUntil blob_gc manual_compaction_canceled_ shutting_down_ input_status).
Notation collect := (collect c ShouldDelete HasOperator MergeUntil blob_gc manual_compaction_canceled_ shutting_down_ input_status).
Definition finished (s : CompactionIterator) : Prop := Valid s = false ∧ status_ s = OK ∧ input_ s = [].
Lemma staged_polls y u x0 l s p : staged y u x0 l s → staged y u x0 l (s <| polls := p |>).
Proof.
  intros [H1 H2 H3 H4 H5 H6 H7 H8 H9 H10 H11 H12]. destruct s. constructor; try done. destruct x0 as [x|]; [|done]. destruct H10 as [[] H]. split; [|done]. by constructor.
Qed.
Lemma NextFromInput_spec started x0 l s f : (length l ≤ f)%nat → ordered l → trackedo x0 l → rel x0 l s → contract l → quiet started x0 →
  ∃ s', NextFromInput s = Ok s' ∧ (compact f started x0 l = [] ∧ finished s' ∨ emits started l (compact f started x0 l) s').
Proof.
  intros Hf Hd Hx Hr Hcon Hq. unfold CompactionIter.NextFromInput. set (s1 := Invalidate _). assert (Hr1 : rel x0 l s1).
  { destruct Hr as [H1 H2 H3 H4 H5]. destruct s. constructor; try done. destruct x0 as [x|]; [|done]. destruct H5 as [[] H]. split; [|done]. by constructor. }
  destruct (loop_spec started l (2 + length (input_ s1)) x0 s1 f) as (s2 & -> & H); try done. { rewrite (r_input _ _ _ Hr1), length_fmap. lia. }
  cbn [res_bind orb]. destruct H as [(E & Hv & Hst & Hin)|H].
  - rewrite Hst, bool_decide_true by done. cbn [negb]. rewrite Hv. unfold IsShuttingDown, IsPausingManualCompaction. rewrite (not_down Hok), (not_paused Hok).
    rewrite (bool_decide_false (input_status = Corruption)) by apply Hok. rewrite andb_false_r. eexists. split; [done|]. left. split; [done|]. by destruct s2.
  - destruct H as (y & u & x1 & l' & f' & H1 & H2 & Hst & H3). rewrite (st_status _ _ _ _ _ Hst), bool_decide_true by done. cbn [negb]. rewrite (st_valid _ _ _ _ _ Hst).
    unfold IsPausingManualCompaction. rewrite (not_paused Hok), (bool_decide_false (input_status = Corruption)), andb_false_r by apply Hok. eexists. split; [done|]. right.
    exists y, u, x1, l', f'. split_and!; try apply H3; try done. by apply staged_polls.
Qed.

(** What is still to come: nothing, or the record at hand and what the rules make of the rest. *)
Definition pending (out : list kv) (s : CompactionIterator) : Prop :=
  out = [] ∧ finished s ∨
  ∃ y u x0 l f, out = written u y :: compact f true x0 l ∧ key s = encoded (written u y).1 ∧ value_ s = y.2 ∧ positioned x0 l s ∧ ordered l ∧ trackedo x0 l ∧ contract l ∧ (length l ≤ f)%nat.
Lemma prepared started l out s : emits started l out s →
  ∃ s', PrepareOutput (if started then s <| has_outputted_key_ := true |> else s) = Ok s' ∧ pending out s'.
Proof.
  intros (y & u & x1 & l' & f & Hp & Hz & Hst & _ & Hd & Ht & Hcon & Hq & Hf & ->).
  assert (staged y u (outputs started <$> x1) l' (if started then s <| has_outputted_key_ := true |> else s)) as Hst'.
  { destruct started; [by apply staged_outputs|]. destruct x1 as [[]|]; exact Hst. }
  destruct (prepare_spec _ _ _ _ _ Hp Hz Hst') as (s' & -> & Hk & Hv & Hpos). exists s'. split; [done|]. right. exists y, u, (after_write started y <$> x1), l', f.
  assert (zeroes (zeroable y) <$> (outputs started <$> x1) = after_write started y <$> x1) as E.
  { destruct x1 as [x|]; [|done]. cbn. unfold zeroes, outputs, after_write. cbn. destruct started; [done|]. by rewrite (Hq eq_refl x eq_refl). }
  rewrite E in Hpos. done.
Qed.
Lemma finished_output s : finished s → PrepareOutput s = Ok s.
Proof. intros [H _]. unfold CompactionIter.PrepareOutput. by rewrite H. Qed.
Lemma positioned_advance x0 l s : positioned x0 l s → ∃ s', (if at_next_ s then Ok s else AdvanceInputIter s) = Ok s' ∧ rel x0 l s'.
Proof.
  intros [H1 H2 H3 H4 H5 H6]. destruct (at_next_ s); [exists s; split; [done|]; by constructor|]. destruct H6 as [e H6]. unfold AdvanceInputIter. rewrite H6. cbn [fmap list_fmap].
  eexists. split; [done|]. destruct s. constructor; try done. destruct x0 as [x|]; [|done]. destruct H5 as [[] H]. split; [|done]. by constructor.
Qed.
Lemma next_pending x0 l s f : positioned x0 l s → ordered l → trackedo x0 l → contract l → (length l ≤ f)%nat → ∃ s', Next s = Ok s' ∧ pending (compact f true x0 l) s'.
Proof.
  intros Hpos Hd Hx Hcon Hf. unfold CompactionIter.Next. rewrite (p_merged _ _ _ Hpos). destruct (positioned_advance _ _ _ Hpos) as (s1 & -> & Hr). cbn [res_bind].
  destruct (NextFromInput_spec true x0 l s1 f) as (s2 & -> & [[-> Hfin]|Hem]); try done; cbn [res_bind].
  - rewrite (proj1 Hfin). exists s2. split; [by apply finished_output|by left].
  - assert (Valid s2 = true) as ->. { destruct Hem as (? & ? & ? & ? & ? & _ & _ & Hst & _). apply Hst. }
    by apply (prepared true l).
Qed.
Lemma collect_spec n : ∀ out s, (length out < n)%nat → pending out s → ∃ s', collect n s = Ok (wire <$> out, s') ∧ finished s'.
Proof.
  induction n as [|n IH]; intros out s Hn Hp; [lia|]. cbn [CompactionIter.collect]. destruct Hp as [[-> Hf]|(y & u & x0 & l & f & -> & Hk & Hv & Hpos & Hd & Hx & Hcon & Hf)].
  - rewrite (proj1 Hf). eauto.
  - rewrite (p_valid _ _ _ Hpos). destruct (next_pending x0 l s f Hpos Hd Hx Hcon Hf) as (s1 & -> & Hp1). cbn [res_bind length] in *.
    destruct (IH (compact f true x0 l) s1 ltac:(lia) Hp1) as (s' & -> & Hfin). cbn [res_bind]. exists s'. split; [|done]. by rewrite Hk, Hv.
Qed.
Lemma compact_length n started x0 l : (length (compact n started x0 l) ≤ n)%nat.
Proof.
  revert started x0 l. induction n as [|n IH]; intros started x0 [|e l]; cbn [CompactionRef.compact]; cbn [length]; try lia. destruct (step started x0 e l) as [[o x'] l'] eqn:E.
  rewrite length_app. specialize (IH (started || match o with [] => false | _ => true end) x' l'). assert (length o ≤ 1)%nat; [|lia].
  revert E. clear. unfold CompactionRef.step, sd_step, write. repeat case_match; intros; simplify_eq; cbn; lia.
Qed.
Lemma run_spec l : ordered l → contract l → ∃ s0 s1 s2, newCompactionIterator c (enc <$> l) = Ok s0 ∧ SeekToFirst s0 = Ok s1 ∧
  collect (S (length l)) s1 = Ok (wire <$> compaction snaps (earliest_write_conflict_snapshot_ c) (preserve_seqno_after_ c) bottom gone l, s2) ∧ finished s2.
Proof.
  intros Hd Hcon. unfold newCompactionIterator. rewrite (proj2 (Z.leb_le _ _)) by apply Hok. rewrite bool_decide_true by (apply StronglySorted_Sorted, Hok). rewrite (no_history Hok).
  cbn [assert_ res_bind]. set (s0 := mkCI _ _ _ _ _ _ _ _ _ _ _ _ _ _ _ _ _ _ _ _ _ _ _ _ _ _). exists s0. assert (Hr : rel None l s0).
  { constructor; try done. unfold s0. fields. intros [p Ep]. rewrite Ep. apply Forall_forall. intros e _. exact (ptrs_start _ _ _ (Hproxy p Ep) _). }
  destruct (NextFromInput_spec false None l s0 (length l)) as (s1 & E1 & H1); try done.
  assert (∃ s2, SeekToFirst s0 = Ok s2 ∧ pending (compact (length l) false None l) s2) as (s2 & E2 & Hp).
  { unfold CompactionIter.SeekToFirst. rewrite E1. cbn [res_bind]. destruct H1 as [[-> Hf]|He]; [|by apply (prepared false l)]. exists s1. split; [by apply finished_output|by left]. }
  destruct (collect_spec (S (length l)) (compact (length l) false None l) s2 ltac:(pose proof (compact_length (length l) false None l); lia) Hp) as (s3 & E3 & Hf). by exists s2, s3.
Qed.
End sim.
