(* ===== verification/CompactionThm.v ===== *)
(** * What a compaction run guarantees

    The theorems about whole runs of the compaction iterator, from its construction
    over the merged input to the end of the job's loop: it follows the rules, no
    reader sees a difference, and what it writes is in order. *)
From S2P Require Import Prelude Bitfield Slice Coding Comparator DbFormat CompactionIter CompactionRef CompactionSim.
Local Open Scope Z_scope.

(** The records of the compaction, newest version first, above the records [below];
    single deletions are used as documented: a key that is single-deleted is written
    once before each single deletion, and not deleted otherwise. *)
Record history `{UC : Comparator} (top : Z) (l below : list kv) : Prop := {
  h_ordered : ordered top l; h_newer : StronglySorted newer (l ++ below);
  h_contract : ∀ u, existsb is_sd (versions u (l ++ below)) = true → alternates (versions u (l ++ below)) = true }.

Section facts.
Context `{UL : ComparatorLaws}.
Lemma history_data top l below : history top l below → data_ok top (λ u, existsb is_sd (versions u (l ++ below))) below l.
Proof.
  intros [[H1 H2 H3 H4] Hn Hc]. constructor; try done. intros u. specialize (Hc u). destruct (existsb is_sd (versions u (l ++ below))) eqn:E; [by apply Hc|].
  clear Hc. induction (versions u (l ++ below)) as [|e k IH]; [constructor|]. cbn [existsb] in E. apply orb_false_iff in E as [E1 E2]. constructor; [done|by apply IH].
Qed.
Lemma alternates_no_del l n : alternates l = true → n ∈ l → is_del n = true → False.
Proof.
  induction l as [|a l IH]; intros Ha Hn Hd; [by apply elem_of_nil in Hn|]. pose proof (alternates_tail _ _ Ha) as Ht. apply elem_of_cons in Hn as [->|Hn]; [|by apply IH].
  cbn [alternates] in Ha. apply andb_true_iff in Ha as [[Ha _]%andb_true_iff _]. unfold is_sd, is_value, is_del in *. apply Z.eqb_eq in Hd. rewrite Hd in Ha. done.
Qed.
Lemma history_contract top l below : history top l below → sd_over_del l = false.
Proof.
  intros [Hd Hn Hc]. assert (Hall : ∀ e n k, e :: n :: k `suffix_of` l → same (user_of e) n = true → is_sd e = true → is_del n = true → False).
  { intros e n k [pre ->] Hs He Hdn. specialize (Hc (user_of e)). set (v := versions (user_of e) _) in *. assert (Hin : e ∈ v ∧ n ∈ v).
    { unfold v, versions. rewrite !list_elem_of_In, !List.filter_In, <- !list_elem_of_In. split; (split; [set_solver|]); [apply same_refl|done]. }
    apply (alternates_no_del v n); [|apply Hin|done]. apply Hc. apply existsb_exists. exists e. split; [apply list_elem_of_In, Hin|done]. }
  clear Hc Hn Hd. induction l as [|e l IH]; [done|]. cbn [sd_over_del]. rewrite IH by (intros; eapply Hall; try done; by apply suffix_cons_r). rewrite orb_false_r.
  destruct l as [|n l]; [done|]. destruct (same (user_of e) n) eqn:E1, (is_sd e) eqn:E2, (is_del n) eqn:E3; try done. by destruct (Hall e n l).
Qed.
(** Of what is below, only the keys of the compaction matter. *)
Definition relevant (l : list kv) (below : list kv) : list kv := List.filter (λ b, existsb (same (user_of b)) l) below.
Lemma versions_of l u : existsb (same u) l = false → versions u l = [].
Proof.
  intros H. destruct (versions u l) as [|e v] eqn:E; [done|]. assert (He : In e (versions u l)) by (rewrite E; by left). unfold versions in He. apply List.filter_In in He as [H1 H2].
  assert (existsb (same u) l = true) by (apply existsb_exists; eauto). congruence.
Qed.
Lemma versions_relevant l below u : versions u (relevant l below) = if existsb (same u) l then versions u below else [].
Proof.
  induction below as [|b below IH]; [by destruct (existsb _ _)|]. unfold relevant, versions in *. cbn [List.filter]. destruct (same u b) eqn:E.
  - assert (existsb (same (user_of b)) l = existsb (same u) l) as ->.
    { apply eq_true_iff_eq. rewrite !existsb_exists. apply same_iff in E. setoid_rewrite (same_compat u (user_of b)); [done|done]. }
    destruct (existsb (same u) l); [|done]. cbn [List.filter]. by rewrite E, IH.
  - destruct (existsb (same (user_of b)) l); [|done]. cbn [List.filter]. by rewrite E, IH.
Qed.
Lemma filter_sorted {A} (R : A → A → Prop) P l : StronglySorted R l → StronglySorted R (List.filter P l).
Proof.
  induction 1 as [|a l _ IH Ha]; [constructor|]. cbn [List.filter]. destruct (P a); [|done]. constructor; [done|]. rewrite Forall_forall in *. intros y Hy. apply Ha.
  by apply list_elem_of_In, List.filter_In in Hy as [Hy%list_elem_of_In _].
Qed.
Lemma history_relevant top l below : history top l below → history top l (relevant l below).
Proof.
  intros [Ho Hn Hc]. constructor; [done| |].
  - apply StronglySorted_app in Hn as (H1 & H2 & H3). apply StronglySorted_app. split; [|split; [done|by apply filter_sorted]].
    intros x y Hx Hy. apply H1; [done|]. by apply list_elem_of_In, List.filter_In in Hy as [Hy%list_elem_of_In _].
  - intros u. rewrite versions_app, versions_relevant. specialize (Hc u). rewrite versions_app in Hc. destruct (existsb (same u) l) eqn:E; [done|]. by rewrite versions_of.
Qed.
Lemma reads_relevant q u l out below : (∀ y, y ∈ out → ∃ e, e ∈ l ∧ same (user_of y) e = true) →
  read_at q u (out ++ relevant l below) = read_at q u (l ++ relevant l below) → read_at q u (out ++ below) = read_at q u (l ++ below).
Proof.
  intros Hout H. rewrite (read_versions q u (out ++ below)), (read_versions q u (l ++ below)). rewrite (read_versions q u (out ++ relevant l below)), (read_versions q u (l ++ relevant l below)) in H.
  rewrite !versions_app in *. rewrite versions_relevant in H. destruct (existsb (same u) l) eqn:E; [done|]. rewrite (versions_of l u E), (versions_of out u); [done|].
  apply not_true_iff_false. intros (y & Hy & Hs)%existsb_exists. apply list_elem_of_In in Hy. destruct (Hout y Hy) as (e & He & Hs'). apply same_iff in Hs.
  assert (existsb (same u) l = true); [|congruence]. apply existsb_exists. exists e. split; [by apply list_elem_of_In|]. by rewrite (same_compat u (user_of y)).
Qed.
End facts.

Section runs.
Context `{UL : ComparatorLaws} {TC : TsComparator C} (c : Settings) (not_below : bytes → bool) (ptrs_for : bytes → list nat → Prop) (top : Z).
Context (ShouldDelete : bytes → bool) (HasOperator : bool) (MergeUntil : list Entry → Z → bool → MergeAnswer).
Context (blob_gc : ParsedInternalKey → bytes → Status * (Z * bytes)) (canceled down : nat → bool) (input_status : Status).
(** The job: construct, seek, and read until the end. *)
Definition run (l : list kv) : res (list (bytes * bytes) * CompactionIterator) :=
  let* s := newCompactionIterator c (enc <$> l) in
  let* s := SeekToFirst c ShouldDelete HasOperator MergeUntil blob_gc canceled down input_status s in
  collect c ShouldDelete HasOperator MergeUntil blob_gc canceled down input_status (S (length l)) s.
Context (Hok : settings_ok c top ShouldDelete blob_gc canceled down input_status) (Hproxy : proxy_fits c not_below ptrs_for).
Definition rules (l : list kv) : list kv :=
  compaction (snapshots_ c) (earliest_write_conflict_snapshot_ c) (preserve_seqno_after_ c) (bottommost_level_ c) (gone c not_below) l.
Lemma run_rules l : ordered top l → contract c l → ∃ s, run l = Ok (wire <$> rules l, s) ∧ finished s.
Proof.
  intros Hd Hc. destruct (run_spec c not_below ptrs_for top ShouldDelete HasOperator MergeUntil blob_gc canceled down input_status Hok Hproxy l Hd Hc) as (s0 & s1 & s2 & E0 & E1 & E2 & Hf).
  exists s2. unfold run. rewrite E0. cbn [res_bind]. rewrite E1. done.
Qed.
Lemma early_bottom : bottommost_level_ c = true → ∀ u, gone c not_below u = true.
Proof. intros Hb u. by eapply bottom_gone. Qed.
Lemma rules_output l : ordered top l → StronglySorted before (rules l) ∧
  ∀ y, y ∈ rules l → (∃ e, e ∈ l ∧ same (user_of y) e = true ∧ seq_of y ≤ seq_of e) ∧
    (bottommost_level_ c = true → seq_of y ≤ earliest_snapshot_ c → seq_of y ≤ preserve_seqno_after_ c → is_value y = true ∧ seq_of y = 0).
Proof.
  intros Hd. pose proof (ok_earliest _ _ _ _ _ _ _ Hok) as He.
  destruct (compact_output (snapshots_ c) (earliest_write_conflict_snapshot_ c) (preserve_seqno_after_ c) (bottommost_level_ c) (gone c not_below)
    (ok_sorted _ _ _ _ _ _ _ Hok) (ok_range _ _ _ _ _ _ _ Hok) top (ok_top _ _ _ _ _ _ _ Hok) ltac:(rewrite <- He; apply Hok) early_bottom (length l) false None l Hd I) as [HS HR].
  split; [done|]. intros y Hy. destruct (HR y Hy) as ((e & H1 & H2 & H3) & _ & H4). split; [by exists e|]. intros Hbot Hle Hp. apply H4; [done|]. rewrite <- He. lia.
Qed.
Lemma run_reads l below : history top l below → (∀ e u, e ∈ l → same u e = true → gone c not_below u = true → versions u below = []) →
  ∃ out s, run l = Ok (wire <$> out, s) ∧ status_ s = OK ∧ ∀ q u, live (snapshots_ c) top q → read_at q u (out ++ below) = read_at q u (l ++ below).
Proof.
  intros Hh Hg. pose proof (history_relevant _ _ _ Hh) as Hr. exists (rules l). destruct (run_rules l) as (s & E & Hf); [apply Hh|intros _; by eapply history_contract|].
  exists s. split; [done|]. split; [apply Hf|]. intros q u Hq. apply reads_relevant.
  { intros y Hy. destruct (proj2 (rules_output l (h_ordered _ _ _ Hh)) y Hy) as ((e & H1 & H2 & _) & _). eauto. }
  pose proof early_bottom as Hb. eapply (compact_reads (snapshots_ c) (earliest_write_conflict_snapshot_ c) (preserve_seqno_after_ c) (bottommost_level_ c) (gone c not_below)) with (x0 := None)
    (sd_key := λ u, existsb is_sd (versions u (l ++ relevant l below))); try done; try apply Hok; [| |by apply history_data].
  2: { intros v v' Hv. by rewrite (versions_compat v v'). }
  intros v Hv. rewrite versions_relevant. destruct (existsb (same v) l) eqn:Ev; [|done]. apply existsb_exists in Ev as (e & He & Hs). eapply Hg; [by apply list_elem_of_In|done|done].
Qed.
End runs.

(** C7: the iterator implements the rules.  Under the settings of a compaction job
    without user merges, filter, timestamps, range tombstones and blob files, for
    records in order and, where the contract is enforced, no single deletion above
    a deletion, the loop of the job ends without a failed assertion, with status OK
    and the input consumed, and has written exactly the records that the rules of
    [CompactionRef] keep, byte for byte. *)
Theorem iterator_follows_rules `{UL : ComparatorLaws} {TC : TsComparator C} c not_below ptrs_for top ShouldDelete HasOperator MergeUntil blob_gc canceled down input_status l :
  settings_ok c top ShouldDelete blob_gc canceled down input_status → proxy_fits c not_below ptrs_for → ordered top l → contract c l →
  ∃ s, run c ShouldDelete HasOperator MergeUntil blob_gc canceled down input_status l = Ok (wire <$> rules c not_below l, s) ∧
    Valid s = false ∧ status_ s = OK ∧ input_ s = [].
Proof. intros Hok Hproxy Hd Hc. by eapply run_rules. Qed.

(** No reader notices a compaction.  The records are the newest versions first,
    above what is stored below, the single deletions keep their contract, and a key
    that the proxy reports as absent beyond the output level has no version below.
    Then the run ends with status OK, and every live reader, a registered snapshot
    or one at least as new as all records, reads for every key from the written
    records and what is below the value it reads from the input and what is below. *)
Theorem compaction_preserves_reads `{UL : ComparatorLaws} {TC : TsComparator C} c not_below ptrs_for top ShouldDelete HasOperator MergeUntil blob_gc canceled down input_status l below :
  settings_ok c top ShouldDelete blob_gc canceled down input_status → proxy_fits c not_below ptrs_for → history top l below →
  (∀ e u, e ∈ l → same u e = true → gone c not_below u = true → versions u below = []) →
  ∃ out s, run c ShouldDelete HasOperator MergeUntil blob_gc canceled down input_status l = Ok (wire <$> out, s) ∧ status_ s = OK ∧
    ∀ q u, live (snapshots_ c) top q → read_at q u (out ++ below) = read_at q u (l ++ below).
Proof. intros Hok Hproxy Hh Hg. by eapply run_reads. Qed.

(** C18: the output of a compaction can be written to a table file: its keys strictly
    increase, each written record stems from a record of the input with the same
    user key and a sequence number at least as large, and at the bottommost level a
    record that every snapshot sees (and that need not keep its sequence number) is
    a value with sequence number zero, never a deletion. *)
Theorem compaction_output_in_order `{UL : ComparatorLaws} {TC : TsComparator C} c not_below ptrs_for top ShouldDelete HasOperator MergeUntil blob_gc canceled down input_status l :
  settings_ok c top ShouldDelete blob_gc canceled down input_status → proxy_fits c not_below ptrs_for → ordered top l → contract c l →
  ∃ out s, run c ShouldDelete HasOperator MergeUntil blob_gc canceled down input_status l = Ok (wire <$> out, s) ∧ status_ s = OK ∧
    StronglySorted before out ∧
    ∀ y, y ∈ out → (∃ e, e ∈ l ∧ Compare (user_of y) (user_of e) = 0 ∧ seq_of y ≤ seq_of e) ∧
      (bottommost_level_ c = true → seq_of y ≤ earliest_snapshot_ c → seq_of y ≤ preserve_seqno_after_ c → is_value y = true ∧ seq_of y = 0).
Proof.
  intros Hok Hproxy Hd Hc. exists (rules c not_below l). destruct (run_rules c not_below ptrs_for top ShouldDelete HasOperator MergeUntil blob_gc canceled down input_status Hok Hproxy l Hd Hc) as (s & E & Hf).
  exists s. split; [done|]. split; [apply Hf|]. destruct (rules_output c not_below ptrs_for top _ _ _ _ _ Hok Hproxy l Hd) as [HS HR]. split; [done|].
  intros y Hy. destruct (HR y Hy) as ((e & H1 & H2%same_iff & H3) & H4). eauto.
Qed.

(** ** An example *)
Definition upper_proxy : CompactionProxy := mkProxy false false 2 (λ _ ptrs, Ok (false, ptrs)).
Definition one_snapshot : Settings := mkSettings [5] 5 20 20 None (Some upper_proxy) None false None true None 0 false.
Definition rec (b : byte) (seq t : Z) (v : bytes) : kv := (mkParsed [b] seq t, v).
(** A single deletion with its value, an overwritten value, a deletion, a single deletion of what is below. *)
Definition sample : list kv :=
  [rec Byte.x61 9 kTypeSingleDeletion []; rec Byte.x61 8 kTypeValue [Byte.x01];
   rec Byte.x62 7 kTypeValue [Byte.x02]; rec Byte.x62 4 kTypeValue [Byte.x03]; rec Byte.x62 3 kTypeValue [Byte.x04];
   rec Byte.x63 6 kTypeDeletion []; rec Byte.x63 2 kTypeValue [Byte.x05]; rec Byte.x64 10 kTypeSingleDeletion []].
Definition sample_below : list kv := [rec Byte.x64 1 kTypeValue [Byte.x06]].
Lemma sample_proxy : proxy_fits one_snapshot (λ _, false) (λ _ _, True).
Proof. intros p [= <-]. constructor; try done. eauto. Qed.
Lemma sample_settings : settings_ok one_snapshot 10 (λ _, false) (λ k v, (OK, (type k, v))) (λ _, false) (λ _, false) OK.
Proof.
  constructor; try done; cbn.
  - repeat constructor.
  - repeat constructor.
Qed.
Lemma sample_ordered : ordered 10 sample.
Proof.
  constructor; [| |by repeat constructor|by repeat constructor]; repeat constructor; unfold user_le, newer; vm_compute; done || (intros; discriminate).
Qed.
Lemma sample_contract : contract one_snapshot sample.
Proof. intros _. vm_compute. reflexivity. Qed.
Lemma sample_history : history 10 sample sample_below.
Proof.
  constructor; [apply sample_ordered| |].
  - repeat constructor; unfold newer; vm_compute; done || (intros; discriminate).
  - intros u H. apply existsb_exists in H as (e & He%list_elem_of_In & Hsd). assert (Hs : same u e = true).
    { unfold versions in He. by apply list_elem_of_In, List.filter_In in He as [_ He]. }
    apply same_iff in Hs. rewrite (versions_compat _ _ _ Hs). unfold versions in He. apply list_elem_of_In, List.filter_In in He as [He _].
    repeat (destruct He as [<-|He]; [revert Hsd; vm_compute; done|]). done.
Qed.
Abbreviation sample_run := (run one_snapshot (λ _, false) false (λ _ _ _, mkMerge None [] [] 0 None) (λ k v, (OK, (type k, v))) (λ _, false) (λ _, false) OK sample).
Lemma iterator_follows_rules_witness : ∃ s, sample_run = Ok (wire <$> rules one_snapshot (λ _, false) sample, s) ∧ length (rules one_snapshot (λ _, false) sample) = 5%nat ∧ status_ s = OK.
Proof.
  destruct (iterator_follows_rules one_snapshot (λ _, false) (λ _ _, True) 10 (λ _, false) false (λ _ _ _, mkMerge None [] [] 0 None) (λ k v, (OK, (type k, v)))
    (λ _, false) (λ _, false) OK sample sample_settings sample_proxy sample_ordered sample_contract) as (s & E & _ & Hs & _).
  exists s. split; [exact E|]. split; [vm_compute; reflexivity|exact Hs].
Defined.
Lemma compaction_preserves_reads_witness : ∃ out s, sample_run = Ok (wire <$> out, s) ∧ read_at 5 [Byte.x62] (out ++ sample_below) = Some (kTypeValue, [Byte.x03]).
Proof.
  destruct (compaction_preserves_reads one_snapshot (λ _, false) (λ _ _, True) 10 (λ _, false) false (λ _ _ _, mkMerge None [] [] 0 None) (λ k v, (OK, (type k, v)))
    (λ _, false) (λ _, false) OK sample sample_below sample_settings sample_proxy sample_history ltac:(done)) as (out & s & E & _ & H).
  exists out, s. split; [exact E|]. rewrite H; [vm_compute; reflexivity|]. left. apply elem_of_cons. left. reflexivity.
Defined.
Lemma compaction_output_in_order_witness : ∃ out s, sample_run = Ok (wire <$> out, s) ∧ StronglySorted before out.
Proof.
  destruct (compaction_output_in_order one_snapshot (λ _, false) (λ _ _, True) 10 (λ _, false) false (λ _ _ _, mkMerge None [] [] 0 None) (λ k v, (OK, (type k, v)))
    (λ _, false) (λ _, false) OK sample sample_settings sample_proxy sample_ordered sample_contract) as (out & s & E & _ & H & _).
  exists out, s. split; [exact E|exact H].
Defined.
