(* ===== verification/LevelFiles.v ===== *)
(** * The files of a level (rocksdb [db/version_edit.h], [db/version_set.cc], [db/compaction/compaction.cc])

    Which files of a level overlap a range of keys: by a scan on level 0, by binary
    search on the other levels.  A file is known by its number; [LevelFilesBrief] is
    the copy of the boundary keys that the searches run on. *)
From S2P Require Import Prelude Bitfield Slice Coding Comparator DbFormat CompactionIter.
Local Open Scope Z_scope.

Record FileMetaData := mkFile {
  number : Z; file_size : Z; smallest_seqno : Z; largest_seqno : Z; smallest : bytes; largest : bytes;
  num_entries : Z; num_range_deletions : Z; path_id : Z; oldest_blob_file_number : Z; epoch_number : Z }.
Record FdWithKeyRange := mkFd { file_metadata : FileMetaData; smallest_key : bytes; largest_key : bytes }.
(** All elements, or the first failure. *)
Fixpoint map_res {A B} (f : A → res B) (l : list A) : res (list B) :=
  match l with [] => Ok [] | a :: l => let* b := f a in let* l := map_res f l in Ok (b :: l) end.
Definition DoGenerateLevelFilesBrief (files : list FileMetaData) : res (list FdWithKeyRange) :=
  map_res (λ f, let* s := Encode (smallest f) in let* l := Encode (largest f) in Ok (mkFd f s l)) files.

Definition FileIsStandAloneRangeTombstone (f : FileMetaData) : res bool :=
  let r := (num_range_deletions f =? 1) && (num_entries f =? num_range_deletions f) in
  let* _ := assert_ (negb r || (smallest_seqno f =? largest_seqno f)) in Ok r.
(** [std::lower_bound]: the first index in [first, first + len) that [before] rejects. *)
Fixpoint search_loop (fuel : nat) (before : nat → res bool) (first len : nat) : res nat :=
  match fuel, len with
  | _, O => Ok first
  | O, S _ => Fail OutOfFuel
  | S fuel, S _ =>
      let half := Nat.div2 len in
      let* b := before (first + half)%nat in
      if b : bool then search_loop fuel before (first + half + 1) (len - half - 1) else search_loop fuel before first half
  end.
Definition partition_point (before : nat → res bool) (first last : nat) : res nat := search_loop (last - first) before first (last - first).

Definition kRangeTombstoneSentinel : Z := pack kMaxSequenceNumber kTypeRangeDeletion.

Section Overlap.
Context {UC : Comparator} {TC : TsComparator UC}.
(** Boundaries that are not extended by a range tombstone compare by user key. *)
Definition sstableKeyCompare (a b : bytes) : res Z :=
  let* ua := ExtractUserKey a in
  let* ub := ExtractUserKey b in
  let* r := uc_CompareWithoutTimestamp ua ub in
  if negb (r =? 0) then Ok r
  else
    let* a_footer := ExtractInternalKeyFooter a in
    let* b_footer := ExtractInternalKeyFooter b in
    Ok (if a_footer =? kRangeTombstoneSentinel then if negb (b_footer =? kRangeTombstoneSentinel) then -1 else 0
        else if b_footer =? kRangeTombstoneSentinel then 1 else 0).

Definition FindFileInRange (files : list FdWithKeyRange) (key : bytes) (left right : nat) : res nat :=
  partition_point (λ i, let* f := deref (files !! i) in let* r := CompareSlices (largest_key f) key in Ok (r <? 0)) left right.
Definition FindFile (files : list FdWithKeyRange) (key : bytes) : res nat := FindFileInRange files key 0 (length files).
(** [None]: no bound. *)
Definition AfterFile (user_key : option bytes) (f : FdWithKeyRange) : res bool :=
  match user_key with
  | None => Ok false
  | Some u => let* l := ExtractUserKey (largest_key f) in let* r := uc_CompareWithoutTimestamp u l in Ok (0 <? r)
  end.
Definition BeforeFile (user_key : option bytes) (f : FdWithKeyRange) : res bool :=
  match user_key with
  | None => Ok false
  | Some u => let* s := ExtractUserKey (smallest_key f) in let* r := uc_CompareWithoutTimestamp u s in Ok (r <? 0)
  end.
Fixpoint some_overlap (smallest_user_key largest_user_key : option bytes) (files : list FdWithKeyRange) : res bool :=
  match files with
  | [] => Ok false
  | f :: files =>
      let* a := AfterFile smallest_user_key f in
      if a : bool then some_overlap smallest_user_key largest_user_key files
      else let* b := BeforeFile largest_user_key f in
           if b : bool then some_overlap smallest_user_key largest_user_key files else Ok true
  end.
Definition SomeFileOverlapsRange (disjoint_sorted_files : bool) (files : list FdWithKeyRange) (smallest_user_key largest_user_key : option bytes) : res bool :=
  if negb disjoint_sorted_files then some_overlap smallest_user_key largest_user_key files
  else
    let* index := match smallest_user_key with
                  | None => Ok 0%nat
                  | Some u => let* small := SetMinPossibleForUserKey [] u in let* small := Encode small in FindFile files small
                  end in
    if (length files <=? index)%nat then Ok false
    else let* f := deref (files !! index) in let* b := BeforeFile largest_user_key f in Ok (negb b).

(** ** [VersionStorageInfo] *)
(** Steps over files that share a boundary key: forward from the start, back from the end. *)
Fixpoint clean_start (fuel : nat) (files : list FdWithKeyRange) (start_index : nat) : res nat :=
  match fuel with
  | O => Fail OutOfFuel
  | S fuel =>
      if (start_index <? length files)%nat then
        let* pre := deref (files !! (start_index - 1)%nat) in
        let* cur := deref (files !! start_index) in
        let* r := sstableKeyCompare (largest (file_metadata pre)) (smallest (file_metadata cur)) in
        if r =? 0 then clean_start fuel files (start_index + 1) else Ok start_index
      else Ok start_index
  end.
Fixpoint clean_end (fuel : nat) (files : list FdWithKeyRange) (start_index end_index : nat) : res nat :=
  match fuel with
  | O => Fail OutOfFuel
  | S fuel =>
      if (start_index <? end_index)%nat then
        let* next := deref (files !! end_index) in
        let* cur := deref (files !! (end_index - 1)%nat) in
        let* r := sstableKeyCompare (largest (file_metadata cur)) (smallest (file_metadata next)) in
        if r =? 0 then clean_end fuel files start_index (end_index - 1) else Ok end_index
      else Ok end_index
  end.
Record Overlapping := mkOverlapping { inputs : list FileMetaData; file_index : option nat; next_smallest : option bytes }.
Definition GetOverlappingInputsRangeBinarySearch (files : list FdWithKeyRange) (begin_ end_ : option bytes) (hint_index : option nat) (within_interval : bool) : res Overlapping :=
  let num_files := length files in
  let meta i := let* f := deref (files !! i) in Ok (file_metadata f) in
  let* start_index :=
    match begin_ with
    | None => Ok 0%nat
    | Some k =>
        let* i := partition_point (λ i, let* m := meta i in
                                        let* r := sstableKeyCompare (if within_interval then smallest m else largest m) k in Ok (r <? 0))
                    0 (default num_files hint_index) in
        if (0 <? i)%nat && within_interval then clean_start (S num_files) files i else Ok i
    end in
  let* end_index :=
    match end_ with
    | None => Ok num_files
    | Some k =>
        let* i := partition_point (λ i, let* m := meta i in
                                        let* r := sstableKeyCompare k (if within_interval then largest m else smallest m) in Ok (negb (r <? 0)))
                    start_index num_files in
        if (i <? num_files)%nat && within_interval then clean_end (S num_files) files start_index i else Ok i
    end in
  let* _ := assert_ (start_index <=? end_index)%nat in
  if (start_index =? end_index)%nat then Ok (mkOverlapping [] None None)
  else Ok (mkOverlapping (file_metadata <$> take (end_index - start_index) (drop start_index files)) (Some start_index)
             (smallest <$> (file_metadata <$> files !! end_index))).

(** A round over the files of level 0 that are left: the range, the files that overlap it
    and those that do not; with [expand_range] the range grows as files are found. *)
Definition skips (user_begin user_end : option bytes) (f : FdWithKeyRange) : res bool :=
  let* file_start := ExtractUserKey (smallest_key f) in
  let* file_limit := ExtractUserKey (largest_key f) in
  let* before := match user_begin with None => Ok false | Some b => let* r := uc_CompareWithoutTimestamp file_limit b in Ok (r <? 0) end in
  if before : bool then Ok true
  else match user_end with None => Ok false | Some e => let* r := uc_CompareWithoutTimestamp file_start e in Ok (0 <? r) end.
Definition widen (expand_range : bool) (user_begin user_end : option bytes) (f : FdWithKeyRange) : res (option bytes * option bytes) :=
  if negb expand_range then Ok (user_begin, user_end)
  else
    let* file_start := ExtractUserKey (smallest_key f) in
    let* file_limit := ExtractUserKey (largest_key f) in
    let* user_begin := match user_begin with None => Ok None | Some b => let* r := uc_CompareWithoutTimestamp file_start b in Ok (Some (if r <? 0 then file_start else b)) end in
    let* user_end := match user_end with None => Ok None | Some e => let* r := uc_CompareWithoutTimestamp file_limit e in Ok (Some (if 0 <? r then file_limit else e)) end in
    Ok (user_begin, user_end).
Fixpoint level0_round (expand_range : bool) (user_begin user_end : option bytes) (index : list (nat * FdWithKeyRange)) :
    res (option bytes * option bytes * list (nat * FdWithKeyRange) * list (nat * FdWithKeyRange)) :=
  match index with
  | [] => Ok (user_begin, user_end, [], [])
  | (i, f) :: index =>
      let* skip := skips user_begin user_end f in
      if skip : bool then
        let* (user_begin, user_end, found, rest) := level0_round expand_range user_begin user_end index in
        Ok (user_begin, user_end, found, (i, f) :: rest)
      else
        let* (user_begin, user_end) := widen expand_range user_begin user_end f in
        let* (user_begin, user_end, found, rest) := level0_round expand_range user_begin user_end index in
        Ok (user_begin, user_end, (i, f) :: found, rest)
  end.
Fixpoint level0_rounds (fuel : nat) (expand_range : bool) (user_begin user_end : option bytes) (index : list (nat * FdWithKeyRange)) : res (list (nat * FdWithKeyRange)) :=
  match fuel, index with
  | _, [] => Ok []
  | O, _ => Fail OutOfFuel
  | S fuel, _ =>
      let* (user_begin, user_end, found, rest) := level0_round expand_range user_begin user_end index in
      match found with [] => Ok [] | _ => let* more := level0_rounds fuel expand_range user_begin user_end rest in Ok (found ++ more) end
  end.

Record VersionStorageInfo := mkStorage {
  num_levels_ : nat; num_non_empty_levels_ : nat; files_ : list (list FileMetaData); level_files_brief_ : list (list FdWithKeyRange) }.
Definition LevelFiles (v : VersionStorageInfo) (level : nat) : list FileMetaData := default [] (files_ v !! level).
Definition LevelBrief (v : VersionStorageInfo) (level : nat) : list FdWithKeyRange := default [] (level_files_brief_ v !! level).
Definition OverlapInLevel (v : VersionStorageInfo) (level : nat) (smallest_user_key largest_user_key : option bytes) : res bool :=
  if (num_non_empty_levels_ v <=? level)%nat then Ok false
  else SomeFileOverlapsRange (0 <? level)%nat (LevelBrief v level) smallest_user_key largest_user_key.
(** [None]: the level is empty and the arguments are left as they are. *)
Definition GetOverlappingInputs (v : VersionStorageInfo) (level : nat) (begin_ end_ : option bytes) (hint_index : option nat) (expand_range : bool)
    (starting_l0_file : option FileMetaData) : res (option Overlapping) :=
  let brief := LevelBrief v level in
  if (num_non_empty_levels_ v <=? level)%nat then Ok None
  else if (0 <? level)%nat then let* o := GetOverlappingInputsRangeBinarySearch brief begin_ end_ hint_index false in Ok (Some o)
  else
    let user_key k := match k with None => Ok None | Some k => let* u := ExtractUserKey k in Ok (Some u) end in
    let* user_begin := user_key begin_ in
    let* user_end := user_key end_ in
    let start_index := match starting_l0_file with
                       | None => 0%nat
                       | Some f => default 0%nat (fst <$> list_find (λ g, number (file_metadata g) = number f) brief)
                       end in
    let* _ := assert_ (match starting_l0_file with None => true | Some _ => (start_index <? length brief)%nat end) in
    let index := drop start_index (imap pair brief) in
    let* found := level0_rounds (S (length index)) expand_range user_begin user_end index in
    Ok (Some (mkOverlapping (file_metadata ∘ snd <$> found) (fst <$> head found) None)).
Definition GetCleanInputsWithinInterval (v : VersionStorageInfo) (level : nat) (begin_ end_ : option bytes) (hint_index : option nat) : res Overlapping :=
  if (num_non_empty_levels_ v <=? level)%nat || (level =? 0)%nat || (length (LevelBrief v level) =? 0)%nat then Ok (mkOverlapping [] None None)
  else GetOverlappingInputsRangeBinarySearch (LevelBrief v level) begin_ end_ hint_index true.
(** The levels below [last_level]. *)
Fixpoint range_below (fuel : nat) (v : VersionStorageInfo) (smallest_user_key largest_user_key : bytes) (last_level level : nat) : res bool :=
  match fuel with
  | O => Fail OutOfFuel
  | S fuel =>
      if (level <? num_levels_ v)%nat then
        let* hit := if (0 <? length (LevelFiles v level))%nat
                    then if (last_level =? 0)%nat then Ok true else OverlapInLevel v level (Some smallest_user_key) (Some largest_user_key)
                    else Ok false in
        if hit : bool then Ok true else range_below fuel v smallest_user_key largest_user_key last_level (S level)
      else Ok false
  end.
Definition RangeMightExistAfterSortedRun (v : VersionStorageInfo) (smallest_user_key largest_user_key : bytes) (last_level : nat) (last_l0_idx : Z) : res bool :=
  let* _ := assert_ (bool_decide ((last_l0_idx ≠ -1) ↔ (last_level = 0%nat))) in
  if (last_level =? 0)%nat && negb (last_l0_idx =? Z.of_nat (length (LevelFiles v 0)) - 1) then Ok true
  else range_below (S (num_levels_ v)) v smallest_user_key largest_user_key last_level (S last_level).
End Overlap.
