(* ===== verification/LevelFilesThm.v ===== *)
(** * What the searches for overlapping files find

    On a level whose files are sorted and disjoint, binary search finds what a scan
    finds; the clean inputs within an interval are the largest ones; the expansion on
    level 0 ends at the least range that no file straddles. *)
From S2P Require Import Prelude Bitfield Slice Coding Comparator DbFormat CompactionIter LevelFiles.
Local Open Scope Z_scope.

(** ** Binary search *)
Lemma search_loop_spec fuel before k first len : (len ≤ fuel)%nat → (first ≤ k ≤ first + len)%nat → (∀ i, (first ≤ i < first + len)%nat → before i = Ok (i <? k)%nat) →
  search_loop fuel before first len = Ok k.
Proof.
  revert first len. induction fuel as [|fuel IH]; intros first len Hf Hk Hb; destruct len as [|len]; cbn [search_loop]; try (replace k with first by lia; done); [lia|].
  pose proof (Nat.div2_decr (S len) len (le_n _)) as Hd. set (h := Nat.div2 (S len)) in *. clearbody h. rewrite Hb by lia. cbn [res_bind]. destruct (Nat.ltb_spec (first + h) k).
  - apply IH; [lia..|]. intros i Hi. apply Hb. lia.
  - apply IH; [lia..|]. intros i Hi. apply Hb. lia.
Qed.
Lemma partition_point_spec before k first last : (first ≤ k ≤ last)%nat → (∀ i, (first ≤ i < last)%nat → before i = Ok (i <? k)%nat) → partition_point before first last = Ok k.
Proof. intros Hk Hb. apply search_loop_spec; [lia..|]. intros i Hi. apply Hb. lia. Qed.
(** How many elements satisfy a predicate, when those come first. *)
Fixpoint cut {A} (P : A → bool) (l : list A) : nat := match l with a :: l => if P a then S (cut P l) else 0%nat | [] => 0%nat end.
Lemma cut_le {A} (P : A → bool) l : (cut P l ≤ length l)%nat.
Proof. induction l as [|a l IH]; cbn; [done|]. destruct (P a); lia. Qed.
Lemma cut_spec {A} (P : A → bool) l i x : StronglySorted (λ x y, P y = true → P x = true) l → l !! i = Some x → P x = (i <? cut P l)%nat.
Proof.
  intros Hs. revert i. induction Hs as [|a l Hs IH Ha]; intros i Hi; [done|]. cbn [cut]. destruct i as [|i]; cbn [lookup list_lookup] in Hi.
  - injection Hi as ->. by destruct (P x).
  - destruct (P a) eqn:E; [exact (IH i Hi)|]. destruct (P x) eqn:Ex; [|done]. rewrite Forall_forall in Ha.
    by discriminate (Ha x (list_elem_of_lookup_2 _ _ _ Hi) Ex).
Qed.

(** ** Boundary keys *)
Definition ukey (k : bytes) : bytes := take (length k - 8) k.
Lemma extract_ukey k : (8 ≤ length k)%nat → ExtractUserKey k = Ok (ukey k).
Proof. intros H. unfold ExtractUserKey, kNumInternalBytes. by rewrite (proj2 (Nat.leb_le _ _)). Qed.
Definition lo (f : FdWithKeyRange) : bytes := ukey (smallest_key f).
Definition hi (f : FdWithKeyRange) : bytes := ukey (largest_key f).
(** [sstableKeyCompare]: by user key, a boundary that a range tombstone extended first. *)
Definition sentinel (k : bytes) : bool := footer k =? kRangeTombstoneSentinel.
Definition sst `{UC : Comparator} (a b : bytes) : Z :=
  let r := Compare (ukey a) (ukey b) in
  if r =? 0 then if sentinel a then if sentinel b then 0 else -1 else if sentinel b then 1 else 0 else r.
Record file_ok `{UC : Comparator} (f : FdWithKeyRange) : Prop := {
  f_small : (8 ≤ length (smallest_key f))%nat; f_large : (8 ≤ length (largest_key f))%nat;
  f_smallest : smallest_key f = smallest (file_metadata f); f_largest : largest_key f = largest (file_metadata f);
  f_footer : footer (largest_key f) ≤ pack kMaxSequenceNumber kValueTypeForSeek; f_range : sst (smallest_key f) (largest_key f) ≤ 0 }.
Definition precedes `{UC : Comparator} (f g : FdWithKeyRange) : Prop := sst (largest_key f) (smallest_key g) ≤ 0.
(** A level below 0: the files are in order, and at most share a boundary key. *)
Record level_ok `{UC : Comparator} (files : list FdWithKeyRange) : Prop := { lv_files : Forall file_ok files; lv_sorted : StronglySorted precedes files }.

Section overlap.
Context `{UL : ComparatorLaws} {TC : TsComparator C} (Hts : ∀ a b, uc_CompareWithoutTimestamp a b = Ok (Compare a b)).
Definition after (u : option bytes) (f : FdWithKeyRange) : bool := match u with Some u => 0 <? Compare u (hi f) | None => false end.
Definition before (u : option bytes) (f : FdWithKeyRange) : bool := match u with Some u => Compare u (lo f) <? 0 | None => false end.
Definition overlaps (a b : option bytes) (f : FdWithKeyRange) : bool := negb (after a f) && negb (before b f).
Lemma AfterFile_spec u f : file_ok f → AfterFile u f = Ok (after u f).
Proof. intros Hf. destruct u as [u|]; [|done]. unfold AfterFile. rewrite extract_ukey by apply Hf. cbn [res_bind]. by rewrite Hts. Qed.
Lemma BeforeFile_spec u f : file_ok f → BeforeFile u f = Ok (before u f).
Proof. intros Hf. destruct u as [u|]; [|done]. unfold BeforeFile. rewrite extract_ukey by apply Hf. cbn [res_bind]. by rewrite Hts. Qed.
Lemma some_overlap_spec a b files : Forall file_ok files → some_overlap a b files = Ok (existsb (overlaps a b) files).
Proof.
  induction 1 as [|f files Hf _ IH]; [done|]. cbn [some_overlap existsb]. rewrite AfterFile_spec, BeforeFile_spec by done. cbn [res_bind]. unfold overlaps at 1.
  destruct (after a f); [done|]. destruct (before b f); done.
Qed.
Lemma Compare_sign a b : (Compare a b ≤ 0 ↔ 0 ≤ Compare b a) ∧ (Compare a b < 0 ↔ 0 < Compare b a).
Proof. pose proof (Compare_opp a b). split; lia. Qed.
Lemma Compare_flip a b : Compare a b ≤ 0 → Compare b a ≤ 0 → Compare a b = 0.
Proof. pose proof (Compare_opp a b). lia. Qed.
Lemma sst_user a b : sst a b ≤ 0 → Compare (ukey a) (ukey b) ≤ 0.
Proof. unfold sst. destruct (Z.eqb_spec (Compare (ukey a) (ukey b)) 0) as [->|]; [done|]. done. Qed.
Lemma sst_opp a b : Z.sgn (sst b a) = - Z.sgn (sst a b).
Proof.
  unfold sst. pose proof (Compare_opp (ukey a) (ukey b)) as H. destruct (Z.eqb_spec (Compare (ukey a) (ukey b)) 0) as [E|E], (Z.eqb_spec (Compare (ukey b) (ukey a)) 0) as [E'|E']; try lia.
  by destruct (sentinel a), (sentinel b).
Qed.
Lemma sst_trans a b c : sst a b ≤ 0 → sst b c ≤ 0 → sst a c ≤ 0.
Proof.
  intros H1 H2. pose proof (sst_user _ _ H1) as U1. pose proof (sst_user _ _ H2) as U2. pose proof (Compare_trans _ _ _ U1 U2) as U3. unfold sst in *.
  destruct (Z.eqb_spec (Compare (ukey a) (ukey c)) 0) as [E|]; [|done].
  assert (Compare (ukey a) (ukey b) = 0) as E1.
  { apply Compare_flip; [done|]. eapply Compare_trans; [exact U2|]. pose proof (Compare_opp (ukey a) (ukey c)). lia. }
  assert (Compare (ukey b) (ukey c) = 0) as E2.
  { apply Compare_flip; [done|]. eapply Compare_trans; [|exact U1]. pose proof (Compare_opp (ukey a) (ukey c)). lia. }
  rewrite E1 in H1. rewrite E2 in H2. cbn in H1, H2. destruct (sentinel a), (sentinel b), (sentinel c); lia.
Qed.
Lemma sst_lt_trans a b c : (sst a b < 0 ∧ sst b c ≤ 0) ∨ (sst a b ≤ 0 ∧ sst b c < 0) → sst a c < 0.
Proof.
  intros H. destruct (Z.lt_ge_cases (sst a c) 0) as [|Hge]; [done|]. assert (sst c a ≤ 0) as Hca by (pose proof (sst_opp a c); lia).
  pose proof (sst_opp a b) as O1. pose proof (sst_opp b c) as O2. destruct H as [[H1 H2]|[H1 H2]].
  - pose proof (sst_trans _ _ _ H2 Hca). lia.
  - pose proof (sst_trans _ _ _ Hca H1). lia.
Qed.
Lemma sst_spec a b : (8 ≤ length a)%nat → (8 ≤ length b)%nat → sstableKeyCompare a b = Ok (sst a b).
Proof.
  intros Ha Hb. unfold sstableKeyCompare. rewrite !extract_ukey by done. cbn [res_bind]. rewrite Hts. cbn [res_bind]. unfold sst. destruct (Z.eqb_spec (Compare (ukey a) (ukey b)) 0); cbn [negb]; [|done].
  unfold ExtractInternalKeyFooter, kNumInternalBytes. rewrite !(proj2 (Nat.leb_le _ _)) by done. cbn [assert_ res_bind]. unfold sentinel. by destruct (_ =? _), (_ =? _).
Qed.
Lemma hi_sorted files : level_ok files → StronglySorted (λ f g, Compare (hi f) (hi g) ≤ 0) files.
Proof.
  intros [Hf Hs]. induction Hs as [|f files Hs IH Hp]; constructor; [apply IH; by apply Forall_inv_tail in Hf|]. apply Forall_inv_tail in Hf. rewrite Forall_forall in *. intros g Hg.
  eapply Compare_trans; [by apply sst_user, Hp|]. by apply sst_user, Hf.
Qed.
Lemma lo_sorted files : level_ok files → StronglySorted (λ f g, Compare (lo f) (lo g) ≤ 0) files.
Proof.
  intros [Hf Hs]. induction Hs as [|f files Hs IH Hp]; constructor; [apply IH; by apply Forall_inv_tail in Hf|]. apply Forall_inv in Hf. rewrite Forall_forall in *. intros g Hg.
  eapply Compare_trans; [|by apply sst_user, Hp]. by apply sst_user, Hf.
Qed.
Lemma sorted_mono {A} (R R' : A → A → Prop) l : (∀ x y, R x y → R' x y) → StronglySorted R l → StronglySorted R' l.
Proof. intros H Hs. induction Hs as [|a l Hs IH Ha]; constructor; [done|]. eapply Forall_impl; [done|]. intros. by apply H. Qed.
(** The smallest internal key of a user key. *)
Definition min_key (u : bytes) : bytes := encoded (mkParsed u kMaxSequenceNumber kValueTypeForSeek).
Lemma min_possible u : SetMinPossibleForUserKey [] u = Ok (min_key u) ∧ Encode (min_key u) = Ok (min_key u).
Proof.
  assert (Hv : valid_key (mkParsed u kMaxSequenceNumber kValueTypeForSeek)) by (unfold valid_key; cbn [sequence type]; rewrite max_seqno; unfold kValueTypeForSeek, kTypeValuePreferredSeqno; split; [lia|]; split; [lia|done]).
  unfold SetMinPossibleForUserKey. rewrite append_encoded by done. split; [done|]. unfold Encode, min_key. rewrite (proj2 (Nat.ltb_lt _ _)); [done|].
  unfold encoded. rewrite length_app, fixed64_length. lia.
Qed.
Lemma compare_min f u : file_ok f → CompareSlices (largest_key f) (min_key u) = Ok (if Compare (hi f) u =? 0 then by_footer (footer (largest_key f)) (pack kMaxSequenceNumber kValueTypeForSeek) else Compare (hi f) u).
Proof.
  intros Hf. unfold CompareSlices. rewrite extract_ukey by apply Hf. unfold min_key, encoded. rewrite extract_app, footer_app by (by vm_compute). done.
Qed.
Lemma below_min f u : file_ok f → ∃ r, CompareSlices (largest_key f) (min_key u) = Ok r ∧ (r <? 0) = (Compare (hi f) u <? 0).
Proof.
  intros Hf. eexists. split; [by apply compare_min|]. destruct (Z.eqb_spec (Compare (hi f) u) 0) as [->|]; [|done]. pose proof (f_footer _ Hf). unfold by_footer.
  rewrite (proj2 (Z.ltb_ge (pack _ _) _)) by done. by destruct (footer (largest_key f) <? _).
Qed.
Lemma FindFile_min files u : level_ok files → FindFile files (min_key u) = Ok (cut (λ f, Compare (hi f) u <? 0) files).
Proof.
  intros Hl. apply partition_point_spec; [pose proof (cut_le (λ f, Compare (hi f) u <? 0) files); lia|]. intros i Hi. destruct (lookup_lt_is_Some_2 files i ltac:(lia)) as [f Ef]. rewrite Ef. cbn [deref res_bind].
  pose proof (lv_files _ Hl) as Hf. rewrite Forall_lookup in Hf. destruct (below_min f u (Hf _ _ Ef)) as (r & -> & Hr). cbn [res_bind]. rewrite Hr. f_equal.
  apply (cut_spec (λ f, Compare (hi f) u <? 0)); [|done]. eapply sorted_mono; [|apply (hi_sorted files Hl)]. intros x y Hxy Hy%Z.ltb_lt. apply Z.ltb_lt, (Compare_lt_trans _ (hi y)). auto.
Qed.
Lemma existsb_false {A} (P : A → bool) l : (∀ i x, l !! i = Some x → P x = false) → existsb P l = false.
Proof. induction l as [|a l IH]; intros H; [done|]. cbn [existsb]. rewrite (H 0%nat a eq_refl), IH; [done|]. intros i x Hi. by apply (H (S i)). Qed.
Lemma existsb_true {A} (P : A → bool) l i x : l !! i = Some x → P x = true → existsb P l = true.
Proof. intros Hi Hx. apply existsb_exists. exists x. split; [|done]. by apply list_elem_of_In, (list_elem_of_lookup_2 _ i). Qed.
Lemma overlap_from files a b k f : level_ok files → files !! k = Some f → after a f = false → (∀ i g, files !! i = Some g → (i < k)%nat → after a g = true) →
  existsb (overlaps a b) files = negb (before b f).
Proof.
  intros Hl Ef Ha Hb. destruct (before b f) eqn:E; cbn [negb].
  - apply existsb_false. intros i g Eg. unfold overlaps. destruct (Nat.lt_ge_cases i k) as [Hi|Hi]; [by rewrite (Hb i g)|].
    assert (before b g = true) as ->; [|by rewrite andb_false_r]. destruct b as [b|]; [|done]. cbn in *. apply Z.ltb_lt in E. apply Z.ltb_lt.
    destruct (Nat.eq_dec i k) as [->|]; [by simplify_eq|]. pose proof (sorted_lookup _ _ _ _ _ _ (lo_sorted files Hl) Ef Eg ltac:(lia)) as Hs. cbn in Hs.
    apply (Compare_lt_trans _ (lo f)). auto.
  - eapply existsb_true; [done|]. unfold overlaps. by rewrite Ha, E.
Qed.
Lemma overlap_search files a b : level_ok files → SomeFileOverlapsRange true files a b = Ok (existsb (overlaps a b) files).
Proof.
  intros Hl. unfold SomeFileOverlapsRange. cbn [negb]. pose proof (lv_files _ Hl) as Hf. rewrite Forall_lookup in Hf.
  assert (∃ k, match a with None => Ok 0%nat | Some u => let* small := SetMinPossibleForUserKey [] u in let* small := Encode small in FindFile files small end = Ok k ∧ (k ≤ length files)%nat ∧
    ∀ i f, files !! i = Some f → after a f = (i <? k)%nat) as (k & -> & Hk & Ha).
  { destruct a as [u|]; [|exists 0%nat; split; [done|]; split; [lia|done]]. destruct (min_possible u) as [-> E]. cbn [res_bind]. rewrite E. cbn [res_bind]. rewrite FindFile_min by done.
    eexists. split; [done|]. split; [apply cut_le|]. intros i f Ei. rewrite <- (cut_spec (λ f, Compare (hi f) u <? 0) files i f).
    - cbn. apply eq_true_iff_eq. rewrite !Z.ltb_lt. symmetry. apply Compare_sign.
    - eapply sorted_mono; [|apply (hi_sorted files Hl)]. intros x y Hxy Hy%Z.ltb_lt. apply Z.ltb_lt, (Compare_lt_trans _ (hi y)). auto.
    - done. }
  cbn [res_bind]. destruct (Nat.leb_spec (length files) k) as [Hge|Hlt].
  - f_equal. symmetry. apply existsb_false. intros i f Ei. unfold overlaps. rewrite (Ha i f Ei), (proj2 (Nat.ltb_lt i k)); [done|]. apply lookup_lt_Some in Ei. lia.
  - destruct (lookup_lt_is_Some_2 files k Hlt) as [f Ef]. rewrite Ef. cbn [deref res_bind]. rewrite BeforeFile_spec by (by eapply Hf). cbn [res_bind]. f_equal. symmetry.
    apply (overlap_from files a b k); try done.
    + rewrite (Ha k f Ef). apply Nat.ltb_irrefl.
    + intros i g Eg Hi. rewrite (Ha i g Eg). by apply Nat.ltb_lt.
Qed.

(** ** The files that touch a range of internal keys *)
Definition ends_before (b : option bytes) (f : FdWithKeyRange) : bool := match b with Some b => sst (largest_key f) b <? 0 | None => false end.
Definition starts_by (e : option bytes) (f : FdWithKeyRange) : bool := match e with Some e => negb (sst e (smallest_key f) <? 0) | None => true end.
Definition touches (b e : option bytes) (f : FdWithKeyRange) : bool := negb (ends_before b f) && starts_by e f.
Definition bound_ok (b : option bytes) : Prop := match b with Some b => (8 ≤ length b)%nat | None => True end.
Lemma files_sorted files : level_ok files →
  StronglySorted (λ f g, sst (smallest_key f) (smallest_key g) ≤ 0 ∧ sst (largest_key f) (largest_key g) ≤ 0 ∧ sst (largest_key f) (smallest_key g) ≤ 0) files.
Proof.
  intros [Hf Hs]. induction Hs as [|f files Hs IH Hp]; constructor; [apply IH; by apply Forall_inv_tail in Hf|]. pose proof (Forall_inv Hf) as Hf0. apply Forall_inv_tail in Hf.
  rewrite Forall_forall in *. intros g Hg. specialize (Hp g Hg). unfold precedes in Hp. split; [|split; [|done]].
  - eapply sst_trans; [|done]. apply Hf0.
  - eapply sst_trans; [done|]. by apply Hf.
Qed.
Lemma ends_before_sorted b files : level_ok files → StronglySorted (λ f g, ends_before b g = true → ends_before b f = true) files.
Proof.
  intros Hl. eapply sorted_mono; [|by apply files_sorted]. intros f g (_ & H & _). destruct b as [b|]; [|done]. cbn. rewrite !Z.ltb_lt. intros Hg. apply (sst_lt_trans _ (largest_key g)). auto.
Qed.
Lemma starts_by_sorted e files : level_ok files → StronglySorted (λ f g, starts_by e g = true → starts_by e f = true) files.
Proof.
  intros Hl. eapply sorted_mono; [|by apply files_sorted]. intros f g (H & _). destruct e as [e|]; [|done]. cbn. rewrite !negb_true_iff, !Z.ltb_ge. intros Hg.
  destruct (Z.lt_ge_cases (sst e (smallest_key f)) 0) as [Hlt|]; [|done]. pose proof (sst_lt_trans e (smallest_key f) (smallest_key g)). lia.
Qed.
Lemma filter_cut {A} (P Q : A → bool) l : StronglySorted (λ x y, P y = true → P x = true) l → StronglySorted (λ x y, Q y = true → Q x = true) l →
  List.filter (λ x, negb (P x) && Q x) l = take (Nat.max (cut P l) (cut Q l) - cut P l) (drop (cut P l) l).
Proof.
  intros HP HQ. induction l as [|a l IH]; [done|]. apply StronglySorted_inv in HP as [HP Pa]. apply StronglySorted_inv in HQ as [HQ Qa]. specialize (IH HP HQ). cbn [List.filter cut].
  assert (Hnone : ∀ R : A → bool, Forall (λ y, R y = true → R a = true) l → R a = false → cut R l = 0%nat).
  { intros R HR E. destruct l as [|y k]; [done|]. cbn. apply Forall_inv in HR. destruct (R y); [|done]. rewrite HR in E; done. }
  pose proof (Hnone P Pa) as P0. pose proof (Hnone Q Qa) as Q0. clear Hnone Pa Qa.
  destruct (P a) eqn:EP; cbn [negb andb].
  - rewrite IH. cbn [drop]. destruct (Q a) eqn:EQ; [f_equal; lia|]. rewrite (Q0 eq_refl). f_equal. lia.
  - rewrite (P0 eq_refl) in IH. cbn [drop] in IH |- *. rewrite Nat.sub_0_r in IH. rewrite !Nat.max_0_l, Nat.sub_0_r in *. destruct (Q a) eqn:EQ; cbn [take]; [by rewrite IH|].
    rewrite IH, (Q0 eq_refl). done.
Qed.
Lemma start_search files b n : level_ok files → bound_ok b → n = length files →
  match b with None => Ok 0%nat | Some k => partition_point (λ i, let* m := let* f := deref (files !! i) in Ok (file_metadata f) in
    let* r := sstableKeyCompare (largest m) k in Ok (r <? 0)) 0 n end = Ok (cut (ends_before b) files).
Proof.
  intros Hl Hb ->. pose proof (lv_files _ Hl) as Hf. rewrite Forall_lookup in Hf. pose proof (cut_le (ends_before b) files). destruct b as [b|]; [|by destruct files].
  apply partition_point_spec; [lia|]. intros i Hi. destruct (lookup_lt_is_Some_2 files i ltac:(lia)) as [f Ef]. rewrite Ef. cbn [deref res_bind]. specialize (Hf _ _ Ef).
  rewrite <- (f_largest _ Hf), sst_spec by (done || apply Hf). cbn [res_bind]. f_equal. apply (cut_spec (ends_before (Some b))); [by apply ends_before_sorted|done].
Qed.
Lemma end_search files e start : level_ok files → bound_ok e → (start ≤ length files)%nat →
  match e with None => Ok (length files) | Some k => partition_point (λ i, let* m := let* f := deref (files !! i) in Ok (file_metadata f) in
    let* r := sstableKeyCompare k (smallest m) in Ok (negb (r <? 0))) start (length files) end = Ok (Nat.max start (cut (starts_by e) files)).
Proof.
  intros Hl He Hs. pose proof (lv_files _ Hl) as Hf. rewrite Forall_lookup in Hf. pose proof (cut_le (starts_by e) files). destruct e as [e|].
  - apply partition_point_spec; [lia|]. intros i Hi. destruct (lookup_lt_is_Some_2 files i ltac:(lia)) as [f Ef]. rewrite Ef. cbn [deref res_bind]. specialize (Hf _ _ Ef).
    rewrite <- (f_smallest _ Hf), sst_spec by (done || apply Hf). cbn [res_bind]. f_equal. pose proof (cut_spec (starts_by (Some e)) files i f (starts_by_sorted _ _ Hl) Ef) as Hc.
    change (negb (sst e (smallest_key f) <? 0)) with (starts_by (Some e) f). rewrite Hc.
    apply eq_true_iff_eq. rewrite !Nat.ltb_lt. lia.
  - f_equal. assert (cut (starts_by None) files = length files) as ->; [|lia]. clear. induction files; cbn; [done|]. by f_equal.
Qed.
Lemma overlapping_exact files b e : level_ok files → bound_ok b → bound_ok e → ∃ o, GetOverlappingInputsRangeBinarySearch files b e None false = Ok o ∧
  inputs o = file_metadata <$> List.filter (touches b e) files ∧
  (∀ i, file_index o = Some i → next_smallest o = smallest <$> (file_metadata <$> files !! (i + length (inputs o))%nat)) ∧ (file_index o = None ↔ inputs o = []).
Proof.
  intros Hl Hb He. unfold GetOverlappingInputsRangeBinarySearch. cbn [default]. unfold id.
  set (m1 := match b with None => _ | Some _ => _ end). assert (m1 = Ok (cut (ends_before b) files)) as ->.
  { unfold m1. rewrite <- (start_search files b (length files)) by done. destruct b as [b|]; [|done]. destruct (partition_point _ _ _) as [i|]; [|done]. cbn [res_bind]. by rewrite andb_false_r. }
  cbn [res_bind]. set (st := cut (ends_before b) files). pose proof (cut_le (ends_before b) files) as Hst. fold st in Hst.
  set (m2 := match e with None => _ | Some _ => _ end). assert (m2 = Ok (Nat.max st (cut (starts_by e) files))) as ->.
  { unfold m2. rewrite <- (end_search files e st) by done. destruct e as [e|]; [|done]. destruct (partition_point _ _ _) as [i|]; [|done]. cbn [res_bind]. by rewrite andb_false_r. }
  cbn [res_bind]. rewrite (proj2 (Nat.leb_le _ _)) by lia. cbn [assert_ res_bind]. pose proof (cut_le (starts_by e) files) as Hen. unfold touches.
  rewrite (filter_cut _ _ _ (ends_before_sorted b files Hl) (starts_by_sorted e files Hl)). fold st. destruct (Nat.eqb_spec st (Nat.max st (cut (starts_by e) files))) as [E|E].
  - eexists. split; [done|]. cbn [inputs file_index]. replace (Nat.max st (cut (starts_by e) files) - st)%nat with 0%nat by lia. done.
  - eexists. split; [done|]. cbn [inputs file_index next_smallest]. split; [done|]. rewrite length_fmap, length_take, length_drop. split.
    + intros i [= <-]. do 3 f_equal. lia.
    + split; [done|]. intros H%(f_equal length). rewrite length_fmap, length_take, length_drop in H. cbn in H. lia.
Qed.

(** ** Clean inputs *)
Definition starts_before (b : option bytes) (f : FdWithKeyRange) : bool := match b with Some b => sst (smallest_key f) b <? 0 | None => false end.
Definition ends_by (e : option bytes) (f : FdWithKeyRange) : bool := match e with Some e => negb (sst e (largest_key f) <? 0) | None => true end.
Definition within (b e : option bytes) (f : FdWithKeyRange) : bool := negb (starts_before b f) && ends_by e f.
(** The files around index [j] have the same boundary key. *)
Definition shared (files : list FdWithKeyRange) (j : nat) : Prop :=
  (0 < j)%nat ∧ ∃ p c, files !! (j - 1)%nat = Some p ∧ files !! j = Some c ∧ sst (largest_key p) (smallest_key c) = 0.
Lemma starts_before_sorted b files : level_ok files → StronglySorted (λ f g, starts_before b g = true → starts_before b f = true) files.
Proof.
  intros Hl. eapply sorted_mono; [|by apply files_sorted]. intros f g (H & _). destruct b as [b|]; [|done]. cbn. rewrite !Z.ltb_lt. intros Hg. apply (sst_lt_trans _ (smallest_key g)). auto.
Qed.
Lemma ends_by_sorted e files : level_ok files → StronglySorted (λ f g, ends_by e g = true → ends_by e f = true) files.
Proof.
  intros Hl. eapply sorted_mono; [|by apply files_sorted]. intros f g (_ & H & _). destruct e as [e|]; [|done]. cbn. rewrite !negb_true_iff, !Z.ltb_ge. intros Hg.
  destruct (Z.lt_ge_cases (sst e (largest_key f)) 0) as [Hlt|]; [|done]. pose proof (sst_lt_trans e (largest_key f) (largest_key g)). lia.
Qed.
Lemma shared_test files j : level_ok files → (0 < j < length files)%nat →
  ∃ p c r, files !! (j - 1)%nat = Some p ∧ files !! j = Some c ∧ sstableKeyCompare (largest (file_metadata p)) (smallest (file_metadata c)) = Ok r ∧ (r = 0 ↔ shared files j).
Proof.
  intros Hl Hj. destruct (lookup_lt_is_Some_2 files (j - 1) ltac:(lia)) as [p Ep], (lookup_lt_is_Some_2 files j ltac:(lia)) as [q Eq]. pose proof (lv_files _ Hl) as Hf. rewrite Forall_lookup in Hf.
  exists p, q, (sst (largest_key p) (smallest_key q)). split; [done|]. split; [done|]. pose proof (Hf _ _ Ep) as Fp. pose proof (Hf _ _ Eq) as Fq.
  rewrite <- (f_largest _ Fp), <- (f_smallest _ Fq). split; [apply sst_spec; [apply Fp|apply Fq]|]. split.
  - intros E. split; [lia|]. by exists p, q.
  - intros (_ & p' & q' & Ep' & Eq' & E). by simplify_eq.
Qed.
Lemma clean_start_spec fuel files i : level_ok files → (0 < i ≤ length files)%nat → (length files < fuel + i)%nat →
  ∃ s, clean_start fuel files i = Ok s ∧ (i ≤ s ≤ length files)%nat ∧ (∀ j, (i ≤ j < s)%nat → shared files j) ∧ (s = length files ∨ ¬ shared files s).
Proof.
  intros Hl. revert i. induction fuel as [|fuel IH]; intros i Hi Hf; [lia|]. cbn [clean_start]. destruct (Nat.ltb_spec i (length files)) as [Hlt|Hge].
  - destruct (shared_test files i Hl ltac:(lia)) as (p & q & r & -> & -> & E & Hr). cbn [deref res_bind]. rewrite E. cbn [res_bind]. destruct (Z.eqb_spec r 0) as [Hr0|Hr0].
    + destruct (IH (i + 1)%nat ltac:(lia) ltac:(lia)) as (s & -> & Hs & Hall & Hend). exists s. split; [done|]. split; [lia|]. split; [|done]. intros j Hj.
      destruct (Nat.eq_dec j i) as [->|]; [by apply Hr|apply Hall; lia].
    + exists i. split; [done|]. split; [lia|]. split; [lia|]. right. intros H%Hr. done.
  - exists i. split; [done|]. split; [lia|]. split; [lia|]. left. lia.
Qed.
Lemma clean_end_spec fuel files start i : level_ok files → (start ≤ i < length files)%nat → (i < fuel + start)%nat →
  ∃ r, clean_end fuel files start i = Ok r ∧ (start ≤ r ≤ i)%nat ∧ (∀ j, (r < j ≤ i)%nat → shared files j) ∧ (r = start ∨ ¬ shared files r).
Proof.
  intros Hl. revert i. induction fuel as [|fuel IH]; intros i Hi Hf; [lia|]. cbn [clean_end]. destruct (Nat.ltb_spec start i) as [Hlt|Hge].
  - destruct (shared_test files i Hl ltac:(lia)) as (p & q & r & -> & -> & E & Hr). cbn [deref res_bind]. rewrite E. cbn [res_bind]. destruct (Z.eqb_spec r 0) as [Hr0|Hr0].
    + destruct (IH (i - 1)%nat ltac:(lia) ltac:(lia)) as (s & -> & Hs & Hall & Hend). exists s. split; [done|]. split; [lia|]. split; [|done]. intros j Hj.
      destruct (Nat.eq_dec j i) as [->|]; [by apply Hr|apply Hall; lia].
    + exists i. split; [done|]. split; [lia|]. split; [lia|]. right. intros H%Hr. done.
  - exists i. split; [done|]. split; [lia|]. split; [lia|]. left. lia.
Qed.
Lemma within_start files b : level_ok files → bound_ok b →
  ∃ s, match b with
       | None => Ok 0%nat
       | Some k => let* i := partition_point (λ i, let* m := let* f := deref (files !! i) in Ok (file_metadata f) in
                               let* r := sstableKeyCompare (smallest m) k in Ok (r <? 0)) 0 (length files) in
                   if (0 <? i)%nat && true then clean_start (S (length files)) files i else Ok i
       end = Ok s ∧ (cut (starts_before b) files ≤ s ≤ length files)%nat ∧ (∀ j, (cut (starts_before b) files ≤ j < s)%nat → shared files j) ∧ (s = length files ∨ ¬ shared files s).
Proof.
  intros Hl Hb. pose proof (lv_files _ Hl) as Hf. rewrite Forall_lookup in Hf. pose proof (cut_le (starts_before b) files) as Hc. destruct b as [b|].
  - erewrite partition_point_spec with (k := cut (starts_before (Some b)) files); [| |intros i Hi]; [|lia|].
    + cbn [res_bind]. rewrite andb_true_r. destruct (Nat.ltb_spec 0 (cut (starts_before (Some b)) files)) as [Hlt|Hge]; [apply clean_start_spec; [done|lia..]|].
      exists (cut (starts_before (Some b)) files). split; [done|]. split; [lia|]. split; [lia|]. right. intros [? _]. lia.
    + destruct (lookup_lt_is_Some_2 files i ltac:(lia)) as [f Ef]. rewrite Ef. cbn [deref res_bind]. specialize (Hf _ _ Ef).
      rewrite <- (f_smallest _ Hf), sst_spec by (done || apply Hf). cbn [res_bind]. f_equal. apply (cut_spec (starts_before (Some b))); [by apply starts_before_sorted|done].
  - assert (cut (starts_before None) files = 0%nat) as -> by (by destruct files). exists 0%nat. split; [done|]. split; [lia|]. split; [lia|]. right. intros [? _]. lia.
Qed.
Lemma within_end files e start : level_ok files → bound_ok e → (start ≤ length files)%nat →
  let k := Nat.max start (cut (ends_by e) files) in
  ∃ r, match e with
       | None => Ok (length files)
       | Some k => let* i := partition_point (λ i, let* m := let* f := deref (files !! i) in Ok (file_metadata f) in
                               let* r := sstableKeyCompare k (largest m) in Ok (negb (r <? 0))) start (length files) in
                   if (i <? length files)%nat && true then clean_end (S (length files)) files start i else Ok i
       end = Ok r ∧ (start ≤ r ≤ k)%nat ∧ (∀ j, (r < j ≤ k)%nat → shared files j) ∧ (r = start ∨ r = length files ∨ ¬ shared files r).
Proof.
  intros Hl He Hs k. pose proof (lv_files _ Hl) as Hf. rewrite Forall_lookup in Hf. pose proof (cut_le (ends_by e) files) as Hc. destruct e as [e|].
  - erewrite partition_point_spec with (k := k); [| |intros i Hi]; [|lia|].
    + cbn [res_bind]. rewrite andb_true_r. destruct (Nat.ltb_spec k (length files)) as [Hlt|Hge].
      * destruct (clean_end_spec (S (length files)) files start k Hl ltac:(lia) ltac:(lia)) as (r & -> & H1 & H2 & H3). exists r. split; [done|]. split; [done|]. split; [done|]. tauto.
      * exists k. split; [done|]. split; [lia|]. split; [lia|]. right. left. lia.
    + destruct (lookup_lt_is_Some_2 files i ltac:(lia)) as [f Ef]. rewrite Ef. cbn [deref res_bind]. specialize (Hf _ _ Ef).
      rewrite <- (f_largest _ Hf), sst_spec by (done || apply Hf). cbn [res_bind]. f_equal. pose proof (cut_spec (ends_by (Some e)) files i f (ends_by_sorted _ _ Hl) Ef) as Hcs.
      change (negb (sst e (largest_key f) <? 0)) with (ends_by (Some e) f). rewrite Hcs. apply eq_true_iff_eq. rewrite !Nat.ltb_lt. lia.
  - assert (cut (ends_by None) files = length files) as E by (clear; induction files; cbn; [done|]; by f_equal). exists (length files). split; [done|]. unfold k. rewrite E.
    split; [lia|]. split; [lia|]. auto.
Qed.
(** A block of files within the interval that shares no boundary key with its neighbours. *)
Definition clean_block (files : list FdWithKeyRange) (b e : option bytes) (i j : nat) : Prop :=
  (i < j ≤ length files)%nat ∧ ¬ shared files i ∧ ¬ shared files j ∧ ∀ n f, (i ≤ n < j)%nat → files !! n = Some f → within b e f = true.
Lemma shared_inside files j : shared files j → (0 < j < length files)%nat.
Proof. intros (H & _ & f & _ & Hf & _). apply lookup_lt_Some in Hf. lia. Qed.
Lemma clean_block_bounds files b e i j : level_ok files → clean_block files b e i j → (cut (starts_before b) files ≤ i)%nat ∧ (j ≤ cut (ends_by e) files)%nat.
Proof.
  intros Hl (Hij & _ & _ & Hw). split.
  - destruct (lookup_lt_is_Some_2 files i ltac:(lia)) as [f Ef]. specialize (Hw i f ltac:(lia) Ef). apply andb_true_iff in Hw as [Hw%negb_true_iff _].
    rewrite (cut_spec _ _ _ _ (starts_before_sorted b files Hl) Ef) in Hw. by apply Nat.ltb_ge.
  - destruct (lookup_lt_is_Some_2 files (j - 1) ltac:(lia)) as [f Ef]. specialize (Hw (j - 1)%nat f ltac:(lia) Ef). apply andb_true_iff in Hw as [_ Hw].
    rewrite (cut_spec _ _ _ _ (ends_by_sorted e files Hl) Ef) in Hw. apply Nat.ltb_lt in Hw. lia.
Qed.
Lemma clean_exact files b e : level_ok files → bound_ok b → bound_ok e → ∃ o s r, GetOverlappingInputsRangeBinarySearch files b e None true = Ok o ∧
  inputs o = file_metadata <$> take (r - s) (drop s files) ∧ (s = r ∨ clean_block files b e s r) ∧ ∀ i j, clean_block files b e i j → (s ≤ i ∧ j ≤ r)%nat.
Proof.
  intros Hl Hb He. unfold GetOverlappingInputsRangeBinarySearch. cbn [default]. unfold id. destruct (within_start files b Hl Hb) as (s & -> & Hs & Hs1 & Hs2). cbn [res_bind].
  destruct (within_end files e s Hl He ltac:(lia)) as (r & -> & Hr & Hr1 & Hr2). cbn [res_bind]. rewrite (proj2 (Nat.leb_le _ _)) by lia. cbn [assert_ res_bind].
  assert (Hmax : ∀ i j, clean_block files b e i j → (s ≤ i ∧ j ≤ r)%nat).
  { intros i j Hc. destruct (clean_block_bounds _ _ _ _ _ Hl Hc) as [Hi Hj]. destruct Hc as (Hij & Hci & Hcj & _). split.
    - destruct (Nat.lt_ge_cases i s) as [Hlt|]; [|done]. destruct Hci. apply Hs1. lia.
    - destruct (Nat.lt_ge_cases r j) as [Hlt|]; [|done]. destruct Hcj. apply Hr1. lia. }
  pose proof (cut_le (ends_by e) files) as Hle. destruct (Nat.eqb_spec s r) as [->|Hne].
  - eexists _, r, r. split; [done|]. rewrite Nat.sub_diag. cbn [inputs take]. auto.
  - eexists _, s, r. split; [done|]. split; [done|]. split; [|done]. right. split; [lia|]. split; [destruct Hs2 as [?|?]; [lia|done]|]. split.
    + destruct Hr2 as [?|[->|?]]; [lia| |done]. intros H%shared_inside. lia.
    + intros n f Hn Ef. unfold within. rewrite (cut_spec _ _ _ _ (starts_before_sorted b files Hl) Ef), (cut_spec _ _ _ _ (ends_by_sorted e files Hl) Ef).
      rewrite (proj2 (Nat.ltb_ge _ _)), (proj2 (Nat.ltb_lt _ _)) by lia. done.
Qed.

(** ** Level 0 *)
Definition inside (b e : option bytes) (f : FdWithKeyRange) : Prop :=
  match b with Some b => Compare b (lo f) ≤ 0 | None => True end ∧ match e with Some e => Compare (hi f) e ≤ 0 | None => True end.
(** [None] is no bound, and stays so. *)
Definition wider (b e b' e' : option bytes) : Prop :=
  match b, b' with Some b, Some b' => Compare b' b ≤ 0 | None, None => True | _, _ => False end ∧
  match e, e' with Some e, Some e' => Compare e e' ≤ 0 | None, None => True | _, _ => False end.
(** No file of [index] straddles the range. *)
Definition closed (index : list (nat * FdWithKeyRange)) (b e : option bytes) : Prop := ∀ x, x ∈ index → overlaps b e x.2 = true → inside b e x.2.
Lemma wider_refl b e : wider b e b e.
Proof. split; [destruct b|destruct e]; try done; by rewrite Compare_eq. Qed.
Lemma wider_trans b e b' e' b'' e'' : wider b e b' e' → wider b' e' b'' e'' → wider b e b'' e''.
Proof.
  intros [H1 H2] [H3 H4]. split; [destruct b, b', b''|destruct e, e', e'']; try done; by eapply Compare_trans.
Qed.
Lemma overlaps_iff b e f : overlaps b e f = true ↔
  match b with Some b => Compare b (hi f) ≤ 0 | None => True end ∧ match e with Some e => Compare (lo f) e ≤ 0 | None => True end.
Proof.
  unfold overlaps. rewrite andb_true_iff, !negb_true_iff. destruct b as [b|], e as [e|]; cbn; rewrite ?Z.ltb_ge; try (destruct (Compare_sign (lo f) e)); intuition lia.
Qed.
Lemma overlaps_wider b e b' e' f : wider b e b' e' → overlaps b e f = true → overlaps b' e' f = true.
Proof.
  rewrite !overlaps_iff. intros [H1 H2] [H3 H4]. split; [destruct b, b'|destruct e, e']; try done; by eapply Compare_trans.
Qed.
Lemma inside_wider b e b' e' f : wider b e b' e' → inside b e f → inside b' e' f.
Proof. intros [H1 H2] [H3 H4]. split; [destruct b, b'|destruct e, e']; try done; by eapply Compare_trans. Qed.
Lemma file_range f : file_ok f → Compare (lo f) (hi f) ≤ 0.
Proof. intros H. apply sst_user, H. Qed.
Lemma inside_overlaps b e f : file_ok f → inside b e f → overlaps b e f = true.
Proof.
  intros Hf [H1 H2]. pose proof (file_range f Hf). apply overlaps_iff. split; [destruct b|destruct e]; try done; by eapply Compare_trans.
Qed.
Lemma skips_spec b e f : file_ok f → skips b e f = Ok (negb (overlaps b e f)).
Proof.
  intros Hf. unfold skips. rewrite !extract_ukey by apply Hf. cbn [res_bind]. fold (lo f) (hi f). unfold overlaps. rewrite negb_andb, !negb_involutive. destruct b as [b|]; cbn [after].
  - rewrite Hts. cbn [res_bind]. assert ((Compare (hi f) b <? 0) = (0 <? Compare b (hi f))) as ->.
    { apply eq_true_iff_eq. rewrite !Z.ltb_lt. apply Compare_sign. }
    destruct (0 <? Compare b (hi f)); [done|]. destruct e as [e|]; [|done]. rewrite Hts. cbn [res_bind before orb]. f_equal. apply eq_true_iff_eq. rewrite !Z.ltb_lt. symmetry. apply Compare_sign.
  - cbn [res_bind orb]. destruct e as [e|]; [|done]. rewrite Hts. cbn [res_bind before]. f_equal. apply eq_true_iff_eq. rewrite !Z.ltb_lt. symmetry. apply Compare_sign.
Qed.
Lemma widen_spec b e f : file_ok f → ∃ b' e', widen true b e f = Ok (b', e') ∧ wider b e b' e' ∧ inside b' e' f ∧ ∀ B E, wider b e B E → inside B E f → wider b' e' B E.
Proof.
  intros Hf. unfold widen. cbn [negb]. rewrite !extract_ukey by apply Hf. cbn [res_bind]. fold (lo f) (hi f).
  assert (∃ b', match b with None => Ok None | Some b => let* r := uc_CompareWithoutTimestamp (lo f) b in Ok (Some (if r <? 0 then lo f else b)) end = Ok b' ∧
    match b, b' with Some b, Some b' => Compare b' b ≤ 0 ∧ Compare b' (lo f) ≤ 0 ∧ (b' = b ∨ b' = lo f) | None, None => True | _, _ => False end) as (b' & -> & Hb).
  { destruct b as [b|]; [|by exists None]. rewrite Hts. cbn [res_bind]. eexists. split; [done|]. cbn. destruct (Z.ltb_spec (Compare (lo f) b) 0); rewrite Compare_eq.
    - split; [lia|]. split; [done|auto].
    - split; [done|]. split; [|auto]. by apply Compare_sign. }
  cbn [res_bind]. assert (∃ e', match e with None => Ok None | Some e => let* r := uc_CompareWithoutTimestamp (hi f) e in Ok (Some (if 0 <? r then hi f else e)) end = Ok e' ∧
    match e, e' with Some e, Some e' => Compare e e' ≤ 0 ∧ Compare (hi f) e' ≤ 0 ∧ (e' = e ∨ e' = hi f) | None, None => True | _, _ => False end) as (e' & -> & He).
  { destruct e as [e|]; [|by exists None]. rewrite Hts. cbn [res_bind]. eexists. split; [done|]. cbn. destruct (Z.ltb_spec 0 (Compare (hi f) e)); rewrite Compare_eq.
    - split; [apply Compare_sign; lia|]. split; [done|auto].
    - split; [done|]. split; [lia|auto]. }
  cbn [res_bind]. exists b', e'. split; [done|]. split; [|split]; [split; [destruct b, b'|destruct e, e']; tauto|split; [destruct b, b'|destruct e, e']; tauto|].
  intros B E [W1 W2] [I1 I2]. split; [destruct b, b', B|destruct e, e', E]; try done.
  - destruct Hb as (_ & _ & [->| ->]); done.
  - destruct He as (_ & _ & [->| ->]); done.
Qed.
Lemma round_spec index : ∀ b e, Forall (λ x, file_ok x.2) index → ∃ b' e' found rest, level0_round true b e index = Ok (b', e', found, rest) ∧
  wider b e b' e' ∧ found ++ rest ≡ₚ index ∧ Forall (λ x, inside b' e' x.2) found ∧ (found = [] → b' = b ∧ e' = e ∧ Forall (λ x, overlaps b e x.2 = false) rest) ∧
  ∀ B E, wider b e B E → closed index B E → wider b' e' B E.
Proof.
  induction index as [|[i f] index IH]; intros b e Hf; cbn [level0_round].
  { exists b, e, [], []. split; [done|]. split; [apply wider_refl|]. by split_and!. }
  pose proof (Forall_inv Hf) as Hf0. cbn in Hf0. apply Forall_inv_tail in Hf. rewrite skips_spec by done. cbn [res_bind]. destruct (overlaps b e f) eqn:Eo; cbn [negb].
  - destruct (widen_spec b e f Hf0) as (b1 & e1 & -> & W1 & I1 & L1). cbn [res_bind]. destruct (IH b1 e1 Hf) as (b2 & e2 & found & rest & -> & W2 & P2 & I2 & _ & L2). cbn [res_bind].
    exists b2, e2, ((i, f) :: found), rest. split; [done|]. split; [by eapply wider_trans|]. split; [cbn; by rewrite P2|]. split; [constructor; [by eapply inside_wider|done]|]. split; [done|].
    intros B E HW Hc. apply L2; [|intros x Hx; apply Hc; set_solver]. apply L1; [done|]. apply (Hc (i, f)); [set_solver|]. by eapply overlaps_wider.
  - destruct (IH b e Hf) as (b2 & e2 & found & rest & -> & W2 & P2 & I2 & N2 & L2). cbn [res_bind]. exists b2, e2, found, ((i, f) :: rest). split; [done|]. split; [done|]. split.
    { by rewrite <- Permutation_middle, P2. }
    split; [done|]. split; [|intros B E HW Hc; apply L2; [done|]; intros x Hx; apply Hc; set_solver].
    intros Hn. destruct (N2 Hn) as (-> & -> & HN). split; [done|]. split; [done|]. by constructor.
Qed.
Lemma rounds_spec fuel : ∀ b e index, (length index < fuel)%nat → Forall (λ x, file_ok x.2) index → ∃ B E found rest, level0_rounds fuel true b e index = Ok found ∧
  wider b e B E ∧ found ++ rest ≡ₚ index ∧ Forall (λ x, inside B E x.2) found ∧ Forall (λ x, overlaps B E x.2 = false) rest ∧
  ∀ B' E', wider b e B' E' → closed index B' E' → wider B E B' E'.
Proof.
  induction fuel as [|fuel IH]; intros b e index Hlen Hf; [lia|]. destruct index as [|x index]; cbn [level0_rounds].
  { exists b, e, [], []. split; [done|]. split; [apply wider_refl|]. by split_and!. }
  destruct (round_spec (x :: index) b e Hf) as (b1 & e1 & found & rest & -> & W1 & P1 & I1 & N1 & L1). cbn [res_bind]. destruct found as [|y found].
  - destruct (N1 eq_refl) as (-> & -> & HN). exists b, e, [], rest. by split_and!.
  - assert (Hf1 : Forall (λ x, file_ok x.2) rest) by (rewrite <- P1 in Hf; by apply Forall_app in Hf as [_ Hf]).
    assert (Hl1 : (length rest < fuel)%nat). { apply Permutation_length in P1. rewrite length_app in P1. cbn in P1, Hlen. lia. }
    destruct (IH b1 e1 rest Hl1 Hf1) as (B & E & more & left & -> & W2 & P2 & I2 & N2 & L2). cbn [res_bind]. exists B, E, ((y :: found) ++ more), left. split; [done|].
    split; [by eapply wider_trans|]. split; [by rewrite <- app_assoc, P2|]. split.
    { apply Forall_app. split; [|done]. eapply Forall_impl; [exact I1|]. intros z Hz. by eapply inside_wider. }
    split; [done|]. intros B' E' HW Hc. apply L2; [by apply L1|]. intros z Hz. apply Hc. rewrite <- P1. set_solver.
Qed.
(** Without expansion the first round finds all. *)
Lemma plain_round b e index : Forall (λ x, file_ok x.2) index →
  level0_round false b e index = Ok (b, e, List.filter (λ x, overlaps b e x.2) index, List.filter (λ x, negb (overlaps b e x.2)) index).
Proof.
  induction index as [|[i f] index IH]; intros Hf; [done|]. pose proof (Forall_inv Hf) as Hf0. cbn in Hf0. apply Forall_inv_tail in Hf. cbn [level0_round List.filter snd].
  rewrite skips_spec by done. cbn [res_bind]. destruct (overlaps b e f); cbn [negb]; [unfold widen; cbn [negb res_bind]|]; by rewrite IH.
Qed.
Lemma plain_rounds b e index : Forall (λ x, file_ok x.2) index → level0_rounds (S (length index)) false b e index = Ok (List.filter (λ x, overlaps b e x.2) index).
Proof.
  intros Hf. destruct index as [|x index]; [done|]. cbn [level0_rounds]. rewrite plain_round by done. cbn [res_bind]. set (l := x :: index) in *. destruct (List.filter _ l) as [|y found] eqn:E; [done|].
  assert (Hf2 : Forall (λ x, file_ok x.2) (List.filter (λ x, negb (overlaps b e x.2)) l)).
  { apply Forall_forall. intros z Hz. apply list_elem_of_In, List.filter_In in Hz as [Hz _]. rewrite Forall_forall in Hf. by apply Hf, list_elem_of_In. }
  assert (level0_rounds (length l) false b e (List.filter (λ x, negb (overlaps b e x.2)) l) = Ok []) as ->; [|cbn [res_bind]; by rewrite app_nil_r].
  assert (Hk : ∀ k : list (nat * FdWithKeyRange), List.filter (λ x, overlaps b e x.2) (List.filter (λ x, negb (overlaps b e x.2)) k) = []).
  { clear. induction k as [|a k IH]; [done|]. cbn [List.filter]. destruct (overlaps b e a.2) eqn:E; cbn [negb List.filter]; [done|]. by rewrite E. }
  specialize (Hk l). revert Hk Hf2. generalize (List.filter (λ x, negb (overlaps b e x.2)) l) as rest. intros [|z rest] Hk Hf2; [done|]. unfold l. cbn [length level0_rounds].
  rewrite plain_round by done. cbn [res_bind]. by rewrite Hk.
Qed.
End overlap.

(** ** What a level answers *)
Definition user_bound (k : option bytes) : option bytes := ukey <$> k.
(** C37: below level 0 the binary searches agree with a scan.  [OverlapInLevel] is true
    iff some file of the level meets the range of user keys, and [GetOverlappingInputs]
    returns exactly the files that touch the range of internal keys (where boundaries
    that a range tombstone extended count as exclusive), in order, with the smallest
    key of the file that follows them; no assertion fails. *)
Theorem level_search_equals_scan `{UL : ComparatorLaws} {TC : TsComparator C} v level begin_ end_ expand_range :
  (∀ a b, uc_CompareWithoutTimestamp a b = Ok (Compare a b)) → (0 < level < num_non_empty_levels_ v)%nat → level_ok (LevelBrief v level) → bound_ok begin_ → bound_ok end_ →
  (∀ a b, OverlapInLevel v level a b = Ok (existsb (overlaps a b) (LevelBrief v level))) ∧
  ∃ o, GetOverlappingInputs v level begin_ end_ None expand_range None = Ok (Some o) ∧ inputs o = file_metadata <$> List.filter (touches begin_ end_) (LevelBrief v level) ∧
    (∀ i, file_index o = Some i → next_smallest o = smallest <$> (file_metadata <$> LevelBrief v level !! (i + length (inputs o))%nat)) ∧ (file_index o = None ↔ inputs o = []).
Proof.
  intros Hts Hlv Hl Hb He. split.
  - intros a b. unfold OverlapInLevel. rewrite (proj2 (Nat.leb_gt _ _)), (proj2 (Nat.ltb_lt _ _)) by lia. by apply overlap_search.
  - unfold GetOverlappingInputs. rewrite (proj2 (Nat.leb_gt _ _)), (proj2 (Nat.ltb_lt _ _)) by lia. destruct (overlapping_exact Hts _ _ _ Hl Hb He) as (o & -> & H). cbn [res_bind]. eauto.
Qed.

(** [GetCleanInputsWithinInterval] returns the largest clean block of files: they all
    lie within the interval, the block does not split files that share a boundary key,
    and every other such block is part of it. *)
Theorem clean_inputs_largest `{UL : ComparatorLaws} {TC : TsComparator C} v level begin_ end_ :
  (∀ a b, uc_CompareWithoutTimestamp a b = Ok (Compare a b)) → (0 < level < num_non_empty_levels_ v)%nat → level_ok (LevelBrief v level) → bound_ok begin_ → bound_ok end_ →
  ∃ o s r, GetCleanInputsWithinInterval v level begin_ end_ None = Ok o ∧ inputs o = file_metadata <$> take (r - s) (drop s (LevelBrief v level)) ∧
    (inputs o = [] ∨ clean_block (LevelBrief v level) begin_ end_ s r) ∧
    ∀ i j, clean_block (LevelBrief v level) begin_ end_ i j → (s ≤ i ∧ j ≤ r)%nat.
Proof.
  intros Hts Hlv Hl Hb He. unfold GetCleanInputsWithinInterval. rewrite (proj2 (Nat.leb_gt _ _)), (proj2 (Nat.eqb_neq level 0)) by lia. cbn [orb]. destruct (Nat.eqb_spec (length (LevelBrief v level)) 0) as [E|E].
  - apply nil_length_inv in E. exists (mkOverlapping [] None None), 0%nat, 0%nat. rewrite E. split; [done|]. split; [done|]. split; [by left|]. intros i j (H & _). cbn in H. lia.
  - destruct (clean_exact Hts _ _ _ Hl Hb He) as (o & s & r & E1 & E2 & Hc & Hmax). exists o, s, r. split; [done|]. split; [done|]. split; [|done].
    destruct Hc as [->|Hc]; [left; by rewrite E2, Nat.sub_diag|by right].
Qed.

(** C38: on level 0 the search with [expand_range] ends with the least range that contains
    the given one and that no file straddles: it returns the files that lie in it, and the
    other files do not meet it.  Without [expand_range] it returns the files
    that meet the given range. *)
Theorem level0_inputs_closed `{UL : ComparatorLaws} {TC : TsComparator C} v begin_ end_ :
  (∀ a b, uc_CompareWithoutTimestamp a b = Ok (Compare a b)) → (0 < num_non_empty_levels_ v)%nat → Forall file_ok (LevelBrief v 0) → bound_ok begin_ → bound_ok end_ →
  (∃ B E o found rest, GetOverlappingInputs v 0 begin_ end_ None true None = Ok (Some o) ∧ inputs o = file_metadata <$> found ∧ found ++ rest ≡ₚ LevelBrief v 0 ∧
     wider (user_bound begin_) (user_bound end_) B E ∧ Forall (inside B E) found ∧ Forall (λ f, overlaps B E f = false) rest ∧
     ∀ B' E', wider (user_bound begin_) (user_bound end_) B' E' → (∀ f, f ∈ LevelBrief v 0 → overlaps B' E' f = true → inside B' E' f) → wider B E B' E') ∧
  ∃ o, GetOverlappingInputs v 0 begin_ end_ None false None = Ok (Some o) ∧
    inputs o = file_metadata <$> List.filter (overlaps (user_bound begin_) (user_bound end_)) (LevelBrief v 0).
Proof.
  intros Hts Hlv Hf Hb He. unfold GetOverlappingInputs. rewrite (proj2 (Nat.leb_gt _ _)) by lia. cbn [Nat.ltb Nat.leb].
  assert (Hu : ∀ k, bound_ok k → match k with None => Ok None | Some k => let* u := ExtractUserKey k in Ok (Some u) end = Ok (user_bound k)) by (intros [k|] Hk; [cbn; by rewrite extract_ukey|done]).
  rewrite !Hu by done. cbn [res_bind assert_]. rewrite drop_0. assert (Hi : Forall (λ x, file_ok x.2) (imap pair (LevelBrief v 0))).
  { apply Forall_lookup. intros i x. rewrite list_lookup_imap. intros (f & Ef & ->)%fmap_Some. rewrite Forall_lookup in Hf. by eapply Hf. }
  assert (Hsnd : snd <$> imap pair (LevelBrief v 0) = LevelBrief v 0).
  { apply list_eq. intros i. rewrite list_lookup_fmap, list_lookup_imap. by destruct (_ !! i). }
  split.
  - destruct (rounds_spec Hts (S (length (imap pair (LevelBrief v 0)))) (user_bound begin_) (user_bound end_) (imap pair (LevelBrief v 0)) ltac:(lia) Hi) as (B & E & found & rest & -> & Hw & Hp & Hin & Hout & Hleast).
    cbn [res_bind]. eexists B, E, _, (snd <$> found), (snd <$> rest). split; [done|]. cbn [inputs]. rewrite <- Hsnd, <- fmap_app, Hp, !Forall_fmap, list_fmap_compose. split; [done|]. split; [done|].
    split; [done|]. split; [done|]. split; [done|]. intros B' E' Hw' Hc. apply Hleast; [done|]. intros x Hx. apply Hc. rewrite Hsnd at 1. rewrite <- Hsnd. by apply list_elem_of_fmap_2.
  - rewrite plain_rounds by done. cbn [res_bind]. eexists. split; [done|]. cbn [inputs]. rewrite <- Hsnd at 2. rewrite list_fmap_compose. f_equal. clear. induction (imap pair (LevelBrief v 0)) as [|[i f] l IH]; [done|]. cbn.
    destruct (overlaps _ _ f); cbn; by rewrite IH.
Qed.

(** An example: level 0 has a chain of files and one apart, level 1 two files that share a boundary key. *)
Definition sample_range (n : Z) (a z : byte) : FdWithKeyRange :=
  let s := encoded (mkParsed [a] 9 kTypeValue) in let l := encoded (mkParsed [z] 3 kTypeValue) in mkFd (mkFile n 100 3 9 s l 4 0 0 0 1) s l.
Definition sample_level0 : list FdWithKeyRange := [sample_range 1 Byte.x61 Byte.x63; sample_range 2 Byte.x62 Byte.x65; sample_range 3 Byte.x6b Byte.x6d].
Definition sample_level1 : list FdWithKeyRange := [sample_range 4 Byte.x61 Byte.x62; sample_range 5 Byte.x63 Byte.x64; sample_range 6 Byte.x64 Byte.x66].
Definition sample_levels : VersionStorageInfo := mkStorage 2 2 [file_metadata <$> sample_level0; file_metadata <$> sample_level1] [sample_level0; sample_level1].
Definition sample_key (a : byte) : option bytes := Some (encoded (mkParsed [a] 5 kTypeValue)).
Lemma sample_range_ok n a z : Compare [a] [z] <= 0 → file_ok (sample_range n a z).
Proof.
  intros H. constructor.
  1,2: cbn [sample_range smallest_key largest_key]; unfold encoded; rewrite length_app, fixed64_length; lia.
  1,2: done.
  - cbn [sample_range largest_key]. unfold encoded. rewrite footer_app by (vm_compute; split; discriminate || reflexivity). vm_compute. discriminate.
  - cbn [sample_range smallest_key largest_key]. unfold sst, sentinel, ukey, encoded. rewrite !footer_app by (vm_compute; split; discriminate || reflexivity).
    rewrite !(proj1 (proj2 (split_footer _ _))). cbn [user_key]. destruct (Compare [a] [z] =? 0); [|done]. vm_compute. discriminate.
Qed.
Lemma sample_level1_ok : level_ok sample_level1.
Proof. constructor; [repeat constructor; apply sample_range_ok; vm_compute; discriminate|]. repeat constructor; vm_compute; discriminate. Qed.
Lemma level_search_equals_scan_witness : OverlapInLevel sample_levels 1 (Some [Byte.x67]) None = Ok false ∧
  ∃ o, GetOverlappingInputs sample_levels 1 (sample_key Byte.x63) (sample_key Byte.x64) None false None = Ok (Some o) ∧ number <$> inputs o = [5; 6].
Proof.
  destruct (level_search_equals_scan (C := BytewiseComparator) (TC := no_ts) sample_levels 1 (sample_key Byte.x63) (sample_key Byte.x64) false (λ _ _, eq_refl)) as [H1 (o & H2 & H3 & _)];
    [cbn; lia|apply sample_level1_ok|vm_compute; lia|vm_compute; lia|].
  split; [rewrite H1; vm_compute; reflexivity|]. exists o. split; [exact H2|]. rewrite H3. vm_compute. reflexivity.
Defined.
Lemma clean_inputs_largest_witness : ∃ o, GetCleanInputsWithinInterval sample_levels 1 (sample_key Byte.x61) (sample_key Byte.x65) None = Ok o ∧ (length (inputs o) ≤ 3)%nat.
Proof.
  destruct (clean_inputs_largest (C := BytewiseComparator) (TC := no_ts) sample_levels 1 (sample_key Byte.x61) (sample_key Byte.x65) (λ _ _, eq_refl)) as (o & s & r & H1 & H2 & _);
    [cbn; lia|apply sample_level1_ok|vm_compute; lia|vm_compute; lia|].
  exists o. split; [exact H1|]. rewrite H2, length_fmap, length_take, length_drop. cbn. lia.
Defined.
Lemma level0_inputs_closed_witness : (∃ o, GetOverlappingInputs sample_levels 0 (sample_key Byte.x61) (sample_key Byte.x61) None true None = Ok (Some o) ∧ number <$> inputs o = [1; 2]) ∧
  ∃ o, GetOverlappingInputs sample_levels 0 (sample_key Byte.x61) (sample_key Byte.x61) None false None = Ok (Some o) ∧ number <$> inputs o = [1].
Proof.
  destruct (level0_inputs_closed (C := BytewiseComparator) (TC := no_ts) sample_levels (sample_key Byte.x61) (sample_key Byte.x61) (λ _ _, eq_refl)) as [(B & E & o & found & rest & H1 & _) (o' & H2 & H3)];
    [cbn; lia|repeat constructor; apply sample_range_ok; vm_compute; discriminate|vm_compute; lia|vm_compute; lia|].
  split; [exists o; split; [exact H1|]; vm_compute in H1; injection H1 as <-; reflexivity|]. exists o'. split; [exact H2|]. rewrite H3. vm_compute. reflexivity.
Defined.

