(* ===== verification/Compaction.v ===== *)
(** * A compaction (rocksdb [db/compaction/compaction.h], [.cc])

    Which files go in, whether the output level is the bottommost one for them, and
    what the compaction iterator asks about the levels below.  [kInvalidLevel] is
    [None].  The files that are marked as being compacted are a set of numbers that
    all compactions share. *)
From S2P Require Import Prelude Bitfield Slice Coding Comparator DbFormat CompactionIter LevelFiles.
From stdpp Require Import gmap.
Local Open Scope Z_scope.

Inductive CompactionStyle := kCompactionStyleLevel | kCompactionStyleUniversal | kCompactionStyleFIFO | kCompactionStyleNone.
#[export] Instance CompactionStyle_eq : EqDecision CompactionStyle.
Proof. solve_decision. Defined.
Inductive CompactionReason :=
  | kUnknownReason | kLevelL0FilesNum | kLevelMaxLevelSize | kUniversalSizeAmplification | kUniversalSizeRatio | kUniversalSortedRunNum | kFIFOMaxSize
  | kFIFOReduceNumFiles | kFIFOTtl | kManualCompaction | kFilesMarkedForCompaction | kBottommostFiles | kTtl | kFlush | kExternalSstIngestion
  | kPeriodicCompaction | kChangeTemperature | kForcedBlobGC | kRoundRobinTtl | kRefitLevel | kReadTriggered.
#[export] Instance CompactionReason_eq : EqDecision CompactionReason.
Proof. solve_decision. Defined.
Inductive ProximalOutputRangeType := kNotSupported | kFullRange | kNonLastRange | kDisabled.
#[export] Instance ProximalOutputRangeType_eq : EqDecision ProximalOutputRangeType.
Proof. solve_decision. Defined.

Record CompactionInputFiles := mkInputs { in_level : nat; in_files : list FileMetaData; boundaries : list (bytes * bytes) }.
Definition TotalFileSize (files : list FileMetaData) : Z := foldl (λ sum f, u64 (sum + file_size f)) 0 files.

Section Inputs.
Context {UC : Comparator} {TC : TsComparator UC}.
(** ** Boundaries of the inputs *)
(** [None]: not initialized yet. *)
Definition extend_keys (cur : option (bytes * bytes)) (start_key end_key : bytes) : res (option (bytes * bytes)) :=
  let* start_user_key := ExtractUserKey start_key in
  let* end_user_key := ExtractUserKey end_key in
  Ok (Some match cur with
           | None => (start_user_key, end_user_key)
           | Some (s, l) => (if Compare start_user_key s <? 0 then start_user_key else s, if 0 <? Compare end_user_key l then end_user_key else l)
           end).
Definition extend_internal (cur : option (bytes * bytes)) (start_key end_key : bytes) : res (option (bytes * bytes)) :=
  match cur with
  | None => Ok (Some (start_key, end_key))
  | Some (s, l) =>
      let* a := CompareSlices start_key s in
      let* b := CompareSlices end_key l in
      Ok (Some (if a <? 0 then start_key else s, if 0 <? b then end_key else l))
  end.
Fixpoint over_files (extend : option (bytes * bytes) → bytes → bytes → res (option (bytes * bytes))) (files : list FileMetaData) (cur : option (bytes * bytes)) : res (option (bytes * bytes)) :=
  match files with [] => Ok cur | f :: files => let* cur := extend cur (smallest f) (largest f) in over_files extend files cur end.
Fixpoint over_inputs (extend : option (bytes * bytes) → bytes → bytes → res (option (bytes * bytes))) (exclude_level : option nat) (inputs : list CompactionInputFiles) (cur : option (bytes * bytes)) :
    res (option (bytes * bytes)) :=
  match inputs with
  | [] => Ok cur
  | i :: inputs =>
      let* cur := if bool_decide (in_files i = []) || bool_decide (Some (in_level i) = exclude_level) then Ok cur
                  else if (in_level i =? 0)%nat then over_files extend (in_files i) cur
                  else let* first := deref (head (in_files i)) in let* back := deref (list.last (in_files i)) in extend cur (smallest first) (largest back) in
      over_inputs extend exclude_level inputs cur
  end.
(** The slices stay empty when there is nothing to look at. *)
Definition GetBoundaryKeys (inputs : list CompactionInputFiles) (exclude_level : option nat) : res (bytes * bytes) :=
  let* cur := over_inputs extend_keys exclude_level inputs None in Ok (default ([], []) cur).
Definition GetBoundaryInternalKeys (inputs : list CompactionInputFiles) (exclude_level : option nat) : res (bytes * bytes) :=
  let* cur := over_inputs extend_internal exclude_level inputs None in Ok (default ([], []) cur).

(** Runs of files that share boundary keys; [unit] are the files of the current one. *)
Fixpoint atomic_units (files : list FileMetaData) (unit_ : list FileMetaData) (cur_smallest cur_largest : bytes) : res (list (bytes * bytes)) :=
  match files with
  | [] => Ok (replicate (length unit_) (cur_smallest, cur_largest))
  | f :: files =>
      let* r := sstableKeyCompare cur_largest (smallest f) in
      if r =? 0 then atomic_units files (unit_ ++ [f]) cur_smallest (largest f)
      else let* rest := atomic_units files [f] (smallest f) (largest f) in Ok (replicate (length unit_) (cur_smallest, cur_largest) ++ rest)
  end.
Definition with_boundaries (i : CompactionInputFiles) : res CompactionInputFiles :=
  match in_files i with
  | [] => Ok i
  | f :: files =>
      if (in_level i =? 0)%nat then Ok i
      else
        let* units := atomic_units files [f] (smallest f) (largest f) in
        let units := boundaries i ++ units in
        let* _ := assert_ (length (in_files i) =? length units)%nat in
        Ok (mkInputs (in_level i) (in_files i) units)
  end.
Definition PopulateWithAtomicBoundaries (inputs : list CompactionInputFiles) : res (list CompactionInputFiles) := map_res with_boundaries inputs.

(** ** The output level *)
Definition IsBottommostLevel (output_level : nat) (v : VersionStorageInfo) (inputs : list CompactionInputFiles) : res bool :=
  let* output_l0_idx :=
    if (output_level =? 0)%nat then
      let* i := deref (head inputs) in
      let* back := deref (list.last (in_files i)) in
      let idx := default (length (LevelFiles v 0)) (fst <$> list_find (λ f, number f = number back) (LevelFiles v 0)) in
      let* _ := assert_ (idx <? length (LevelFiles v 0))%nat in
      Ok (Z.of_nat idx)
    else Ok (-1) in
  let* (smallest_key, largest_key) := GetBoundaryKeys inputs None in
  let* might := RangeMightExistAfterSortedRun v smallest_key largest_key output_level output_l0_idx in
  Ok (negb might).
Definition IsFullCompaction (v : VersionStorageInfo) (inputs : list CompactionInputFiles) : bool :=
  (foldl (λ n i, n + length (in_files i)) 0 inputs =? foldl (λ n l, n + length (LevelFiles v l)) 0 (seq 0 (num_levels_ v)))%nat.

(** ** The levels below *)
(** The loop over one level from where the last key left off: where it stops, and whether
    [stop] says that the file there overlaps. *)
Fixpoint advance_level (fuel : nat) (past : FileMetaData → res bool) (overlaps : FileMetaData → res bool) (files : list FileMetaData) (ptr : nat) : res (bool * nat) :=
  match fuel with
  | O => Fail OutOfFuel
  | S fuel =>
      match files !! ptr with
      | None => Ok (false, ptr)
      | Some f =>
          let* p := past f in
          if p : bool then advance_level fuel past overlaps files (S ptr) else let* o := overlaps f in Ok (o, ptr)
      end
  end.
Fixpoint advance_levels (past overlaps : FileMetaData → res bool) (v : VersionStorageInfo) (levels : list nat) (level_ptrs : list nat) : res (bool * list nat) :=
  match levels with
  | [] => Ok (true, level_ptrs)
  | lvl :: levels =>
      let* ptr := deref (level_ptrs !! lvl) in
      let files := LevelFiles v lvl in
      let* (o, ptr) := advance_level (S (length files)) past overlaps files ptr in
      let level_ptrs := <[lvl := ptr]> level_ptrs in
      if o : bool then Ok (false, level_ptrs) else advance_levels past overlaps v levels level_ptrs
  end.
Definition past_key (key : bytes) (f : FileMetaData) : res bool := let* l := ExtractUserKey (largest f) in Ok (0 <? Compare key l).
Definition not_before_file (key : bytes) (f : FileMetaData) : res bool :=
  let* s := ExtractUserKey (smallest f) in let* r := uc_CompareWithoutTimestamp key s in Ok (0 <=? r).
Definition past_range (begin_key : bytes) (f : FileMetaData) : res bool :=
  let* l := ExtractUserKey (largest f) in let* r := uc_CompareWithoutTimestamp begin_key l in Ok (0 <? r).
Definition meets_range (end_key : bytes) (f : FileMetaData) : res bool :=
  let* s := ExtractUserKey (smallest f) in let* r := uc_CompareWithoutTimestamp end_key s in Ok (0 <? r).
End Inputs.

Record Options := mkOptions {
  compaction_style : CompactionStyle; round_robin : bool; options_num_levels : nat; preclude_last_level_data_seconds : Z; db_max_subcompactions : Z;
  plain_table : bool; cf_allow_ingest_behind : bool; db_allow_ingest_behind : bool }.
Record Compaction := mkCompaction {
  input_vstorage_ : VersionStorageInfo; options_ : Options; start_level_ : nat; output_level_ : nat; number_levels_ : nat; inputs_ : list CompactionInputFiles;
  compaction_reason_ : CompactionReason; bottommost_level_ : bool; is_full_compaction_ : bool; is_manual_compaction_ : bool; max_subcompactions_ : Z;
  max_output_file_size_ : Z; smallest_user_key_ : bytes; largest_user_key_ : bytes; output_split_key_ : option bytes;
  input_levels_ : list (list FdWithKeyRange); filtered_input_levels_ : list (list FileMetaData);
  proximal_level_ : option nat; proximal_level_smallest_ : bytes; proximal_level_largest_ : bytes; proximal_output_range_type_ : ProximalOutputRangeType;
  keep_in_last_level_through_seqno_ : Z }.

Section Operations.
Context {UC : Comparator} {TC : TsComparator UC}.
Definition levels_below (c : Compaction) : list nat := seq (S (output_level_ c)) (number_levels_ c - S (output_level_ c)).
Definition looks_below (c : Compaction) : bool := negb (output_level_ c =? 0)%nat && bool_decide (compaction_style (options_ c) = kCompactionStyleLevel).
Definition KeyNotExistsBeyondOutputLevel (c : Compaction) (user_key : bytes) (level_ptrs : list nat) : res (bool * list nat) :=
  let* _ := assert_ (length level_ptrs =? number_levels_ c)%nat in
  if bottommost_level_ c then Ok (true, level_ptrs)
  else if looks_below c then advance_levels (past_key user_key) (not_before_file user_key) (input_vstorage_ c) (levels_below c) level_ptrs
  else Ok (false, level_ptrs).
Definition KeyRangeNotExistsBeyondOutputLevel (c : Compaction) (begin_key end_key : bytes) (level_ptrs : list nat) : res (bool * list nat) :=
  let* _ := assert_ (length level_ptrs =? number_levels_ c)%nat in
  let* r := uc_CompareWithoutTimestamp begin_key end_key in
  let* _ := assert_ (r <? 0) in
  if bottommost_level_ c then Ok (true, level_ptrs)
  else if looks_below c then advance_levels (past_range begin_key) (meets_range end_key) (input_vstorage_ c) (levels_below c) level_ptrs
  else Ok (false, level_ptrs).
(** [CompactionIterator::RealCompaction]. *)
Definition RealCompaction (c : Compaction) : CompactionProxy :=
  mkProxy (bottommost_level_ c) (cf_allow_ingest_behind (options_ c) || db_allow_ingest_behind (options_ c)) (number_levels_ c) (KeyNotExistsBeyondOutputLevel c).

(** ** Files being compacted *)
Fixpoint mark_files (being_compacted : bool) (files : list FileMetaData) (marks : gset Z) : res (gset Z) :=
  match files with
  | [] => Ok marks
  | f :: files =>
      let* _ := assert_ (negb (Bool.eqb being_compacted (bool_decide (number f ∈ marks)))) in
      mark_files being_compacted files (if being_compacted then {[number f]} ∪ marks else marks ∖ {[number f]})
  end.
Definition MarkFilesBeingCompacted (being_compacted : bool) (inputs : list CompactionInputFiles) (marks : gset Z) : res (gset Z) :=
  mark_files being_compacted (concat (in_files <$> inputs)) marks.
Definition AddInputDeletions (c : Compaction) : list (nat * Z) := concat ((λ i, (λ f, (in_level i, number f)) <$> in_files i) <$> inputs_ c).

(** ** Sizes *)
Definition CalculateTotalInputSize (c : Compaction) : Z := TotalFileSize (concat (in_files <$> inputs_ c)).
Definition OutputFilePreallocationSize (c : Compaction) : Z :=
  let size := TotalFileSize (concat (in_files <$> inputs_ c)) in
  let size := if negb (max_output_file_size_ c =? 2 ^ 64 - 1) && (bool_decide (compaction_style (options_ c) = kCompactionStyleLevel) || (0 <? output_level_ c)%nat)
              then Z.min (max_output_file_size_ c) size else size in
  Z.min 1073741824 (u64 (size + size / 10)).
Definition MinInputFileEpochNumber (c : Compaction) : Z := foldl (λ m f, Z.min m (epoch_number f)) (2 ^ 64 - 1) (concat (in_files <$> inputs_ c)).
Definition IsOutputLevelEmpty (c : Compaction) : res bool :=
  let* i := deref (list.last (inputs_ c)) in Ok (negb (in_level i =? output_level_ c)%nat || bool_decide (in_files i = [])).
Definition ShouldFormSubcompactions (c : Compaction) : bool :=
  let level := bool_decide (compaction_style (options_ c) = kCompactionStyleLevel) in
  if plain_table (options_ c) then false
  else if round_robin (options_ c) && level then (0 <? output_level_ c)%nat
  else if max_subcompactions_ c <=? 1 then false
  else if level then ((start_level_ c =? 0)%nat || is_manual_compaction_ c) && (0 <? output_level_ c)%nat
  else bool_decide (compaction_style (options_ c) = kCompactionStyleUniversal) && (1 <? number_levels_ c)%nat && (0 <? output_level_ c)%nat.

(** ** The proximal level *)
Definition EvaluateProximalLevel (v : VersionStorageInfo) (o : Options) (start_level output_level : nat) : res (option nat) :=
  let universal := bool_decide (compaction_style o = kCompactionStyleUniversal) in
  if negb (bool_decide (compaction_style o = kCompactionStyleLevel)) && negb universal then Ok None
  else if negb (Z.of_nat output_level =? Z.of_nat (options_num_levels o) - 1) then Ok None
  else
    let* _ := assert_ (Z.of_nat output_level - 1 <? Z.of_nat (options_num_levels o)) in
    if Z.of_nat output_level - 1 <=? 0 then Ok None
    else
      let proximal_level := (output_level - 1)%nat in
      if (Z.of_nat start_level =? Z.of_nat (options_num_levels o) - 1) && (negb universal || negb (bool_decide (LevelFiles v proximal_level = []))) then Ok None
      else Ok (if 0 <? preclude_last_level_data_seconds o then Some proximal_level else None).
Definition SupportsPerKeyPlacement (c : Compaction) : bool := match proximal_level_ c with Some _ => true | None => false end.
(** Every file of the proximal level goes into the compaction. *)
Definition all_proximal_files (c : Compaction) (proximal_level : nat) : bool :=
  let proximal_inputs := concat ((λ i, if (in_level i =? proximal_level)%nat then number <$> in_files i else []) <$> inputs_ c) in
  forallb (λ f, bool_decide (number f ∈ proximal_inputs)) (LevelFiles (input_vstorage_ c) proximal_level).
Definition PopulateProximalLevelOutputRange (c : Compaction) : res Compaction :=
  match proximal_level_ c with
  | None => let* _ := assert_ (keep_in_last_level_through_seqno_ c =? kMaxSequenceNumber) in Ok c
  | Some proximal_level =>
      let full := bool_decide (compaction_style (options_ c) = kCompactionStyleUniversal) && all_proximal_files c proximal_level in
      let exclude_level := if full then None else Some (number_levels_ c - 1)%nat in
      let* (s, l) := GetBoundaryInternalKeys (inputs_ c) exclude_level in
      let max_last_level_seqno := foldl (λ m i, if (in_level i =? output_level_ c)%nat then foldl (λ m f, Z.max m (largest_seqno f)) m (in_files i) else m) 0 (inputs_ c) in
      Ok (mkCompaction (input_vstorage_ c) (options_ c) (start_level_ c) (output_level_ c) (number_levels_ c) (inputs_ c) (compaction_reason_ c) (bottommost_level_ c)
            (is_full_compaction_ c) (is_manual_compaction_ c) (max_subcompactions_ c) (max_output_file_size_ c) (smallest_user_key_ c) (largest_user_key_ c) (output_split_key_ c)
            (input_levels_ c) (filtered_input_levels_ c) (proximal_level_ c) s l (if full then kFullRange else kNonLastRange) (if full then 0 else max_last_level_seqno))
  end.
Definition OverlapProximalLevelOutputRange (c : Compaction) (smallest_key largest_key : bytes) : res bool :=
  if negb (SupportsPerKeyPlacement c) then Ok false
  else if (length (proximal_level_smallest_ c) =? 0)%nat || (length (proximal_level_largest_ c) =? 0)%nat then Ok false
  else
    let* l := ExtractUserKey (proximal_level_largest_ c) in
    let* r := uc_CompareWithoutTimestamp smallest_key l in
    if 0 <? r then Ok false
    else
      let* s := ExtractUserKey (proximal_level_smallest_ c) in
      let* r := uc_CompareWithoutTimestamp largest_key s in
      Ok (0 <=? r).

Definition DoesInputReferenceBlobFiles (has_blob_files : bool) (c : Compaction) : bool :=
  has_blob_files && existsb (λ f, negb (oldest_blob_file_number f =? 0)) (concat (in_files <$> inputs_ c)).

(** ** Moving files without rewriting them *)
(** What the decision depends on besides the compaction; the partitioner is the user's. *)
Record MoveSettings := mkMove {
  level0_non_overlapping : bool; l0_files_might_overlap_ : bool; has_compaction_filter : bool; allow_trivial_move : bool; is_trivial_move_ : bool;
  output_path_id : Z; InputCompressionMatchesOutput : bool; max_compaction_bytes_ : Z; CanDoTrivialMove : option (bytes → bytes → bool) }.
Fixpoint moves_cheaply (m : MoveSettings) (c : Compaction) (files : list FileMetaData) : res bool :=
  match files with
  | [] => Ok true
  | f :: files =>
      let* o := GetOverlappingInputs (input_vstorage_ c) (S (output_level_ c)) (Some (smallest f)) (Some (largest f)) None true None in
      let file_grand_parents := match o with Some o => inputs o | None => [] end in
      if max_compaction_bytes_ m <? u64 (file_size f + TotalFileSize file_grand_parents) then Ok false
      else
        let* may := match CanDoTrivialMove m with
                    | None => Ok true
                    | Some can => let* s := ExtractUserKey (smallest f) in let* l := ExtractUserKey (largest f) in Ok (can s l)
                    end in
        if may : bool then moves_cheaply m c files else Ok false
  end.
Definition IsTrivialMove (m : MoveSettings) (c : Compaction) : res bool :=
  if (start_level_ c =? 0)%nat && negb (level0_non_overlapping m) && l0_files_might_overlap_ m then Ok false
  else if is_manual_compaction_ c && has_compaction_filter m then Ok false
  else if (start_level_ c =? output_level_ c)%nat then Ok false
  else if bool_decide (compaction_reason_ c = kChangeTemperature) then Ok false
  else if allow_trivial_move m && negb (output_level_ c =? 0)%nat && bool_decide (compaction_style (options_ c) = kCompactionStyleUniversal) then Ok (is_trivial_move_ m)
  else
    let* same_path := if (length (inputs_ c) =? 1)%nat then let* i := deref (head (inputs_ c)) in let* f := deref (head (in_files i)) in Ok (path_id f =? output_path_id m) else Ok false in
    if negb (same_path && InputCompressionMatchesOutput m) then Ok false
    else
      let* cheap := if (S (output_level_ c) <? number_levels_ c)%nat then let* i := deref (head (inputs_ c)) in moves_cheaply m c (in_files i) else Ok true in
      Ok (cheap && negb (SupportsPerKeyPlacement c)).

(** ** Inputs that a range tombstone deletes *)
Definition DataIsDefinitelyInSnapshot (checker : option (Z → Z → SnapshotCheckerResult)) (seqno snapshot : Z) : bool :=
  (seqno <=? snapshot) && match checker with None => true | Some check => bool_decide (check seqno snapshot = kInSnapshot) end.
(** The file lies in the tombstone's range and is older. *)
Definition deleted_by (tombstone f : FileMetaData) : res bool :=
  let* start := ExtractUserKey (smallest tombstone) in
  let* limit := ExtractUserKey (largest tombstone) in
  let* s := ExtractUserKey (smallest f) in
  let* l := ExtractUserKey (largest f) in
  let* a := uc_CompareWithoutTimestamp start s in
  let* b := uc_CompareWithoutTimestamp limit l in
  Ok ((largest_seqno f <? smallest_seqno tombstone) && (a <=? 0) && (0 <? b)).
Fixpoint split_deleted (tombstone : FileMetaData) (files : list FileMetaData) : res (list FileMetaData * list FileMetaData) :=
  match files with
  | [] => Ok ([], [])
  | f :: files =>
      let* d := deleted_by tombstone f in
      let* (keep, gone) := split_deleted tombstone files in
      Ok (if d : bool then (keep, f :: gone) else (f :: keep, gone))
  end.
(** The briefs of the inputs, and the files that are left out. *)
Definition FilterInputsForCompactionIterator (inputs : list CompactionInputFiles) (earliest_snapshot : Z) (checker : option (Z → Z → SnapshotCheckerResult)) :
    res (list (list FdWithKeyRange) * list (list FileMetaData)) :=
  let* _ := assert_ (timestamp_size =? 0)%nat in
  match inputs with
  | [] => Fail BadPointer
  | first :: others =>
      let* rangedel_candidate := deref (if (in_level first =? 0)%nat then list.last (in_files first) else head (in_files first)) in
      let* alone := FileIsStandAloneRangeTombstone rangedel_candidate in
      if negb alone || negb (DataIsDefinitelyInSnapshot checker (smallest_seqno rangedel_candidate) earliest_snapshot) then
        let* briefs := map_res (λ i, DoGenerateLevelFilesBrief (in_files i)) inputs in Ok (briefs, replicate (length inputs) [])
      else
        let* parts := map_res (λ i, split_deleted rangedel_candidate (in_files i)) others in
        let* brief := DoGenerateLevelFilesBrief (in_files first) in
        let* briefs := map_res DoGenerateLevelFilesBrief (fst <$> parts) in
        Ok (brief :: briefs, [] :: (snd <$> parts))
  end.

(** ** The constructor *)
Definition newCompaction (v : VersionStorageInfo) (o : Options) (inputs : list CompactionInputFiles) (output_level : nat) (target_file_size max_subcompactions : Z)
    (grandparents : list FileMetaData) (earliest_snapshot : option Z) (checker : option (Z → Z → SnapshotCheckerResult)) (reason : CompactionReason)
    (compact_cursor : bytes) (marks : gset Z) : res (Compaction * gset Z) :=
  let placeholder := bool_decide (reason = kExternalSstIngestion) || bool_decide (reason = kRefitLevel) in
  let* first := deref (head inputs) in
  let* inputs := PopulateWithAtomicBoundaries inputs in
  let* bottommost := if placeholder then Ok false else IsBottommostLevel output_level v inputs in
  let* proximal_level := if placeholder then Ok None else EvaluateProximalLevel v o (in_level first) output_level in
  let* marks := MarkFilesBeingCompacted true inputs marks in
  let max_output_file_size := if bottommost || bool_decide (grandparents = []) then target_file_size else u64 (2 * target_file_size) in
  let* _ := assert_ (bool_decide (Sorted Nat.lt (in_level <$> inputs))) in
  let* (input_levels, filtered) :=
    match earliest_snapshot with
    | Some q => FilterInputsForCompactionIterator inputs q checker
    | None => let* briefs := map_res (λ i, DoGenerateLevelFilesBrief (in_files i)) inputs in Ok (briefs, replicate (length inputs) [])
    end in
  let* (s, l) := GetBoundaryKeys inputs None in
  let* split_key :=
    if bool_decide (compaction_style o = kCompactionStyleLevel) && round_robin o && negb (length compact_cursor =? 0)%nat then
      let* u := ExtractUserKey compact_cursor in
      let* a := uc_CompareWithoutTimestamp u s in
      let* b := uc_CompareWithoutTimestamp u l in
      Ok (if (0 <? a) && (b <=? 0) then Some compact_cursor else None)
    else Ok None in
  let* c := PopulateProximalLevelOutputRange
    (mkCompaction v o (in_level first) output_level (num_levels_ v) inputs reason bottommost (IsFullCompaction v inputs) (bool_decide (reason = kManualCompaction))
       (if max_subcompactions =? 0 then db_max_subcompactions o else max_subcompactions) max_output_file_size s l split_key input_levels filtered
       proximal_level [] [] kNotSupported kMaxSequenceNumber) in
  Ok (c, marks).
End Operations.
