(* ===== verification/CompactionLevels.v ===== *)
(** * A compaction among the levels

    The answers that a compaction gives about the levels below it are right: the
    search that continues where the last key left off agrees with a scan of the
    levels, the boundary keys cover the inputs, and a compaction is bottommost only
    when no file beneath it overlaps its inputs.  With the theorems about the
    iterator: a compaction of real files is invisible to every reader. *)
From S2P Require Import Prelude Bitfield Slice Coding Comparator DbFormat CompactionIter CompactionRef CompactionSim CompactionThm LevelFiles LevelFilesThm Compaction.
From stdpp Require Import gmap.
Local Open Scope Z_scope.

Definition mfd (f : FileMetaData) : FdWithKeyRange := mkFd f (smallest f) (largest f).
(** The briefs are up to date, level 0 has any files, the others have them in order. *)
Record storage_ok `{UC : Comparator} (v : VersionStorageInfo) : Prop := {
  v_brief level : LevelBrief v level = mfd <$> LevelFiles v level;
  v_zero : Forall (λ f, file_ok (mfd f)) (LevelFiles v 0);
  v_levels level : (0 < level)%nat → level_ok (mfd <$> LevelFiles v level);
  v_empty level : (num_non_empty_levels_ v ≤ level)%nat → LevelFiles v level = [] }.
Definition inputs_ok `{UC : Comparator} (inputs : list CompactionInputFiles) : Prop :=
  ∀ i, i ∈ inputs → if (in_level i =? 0)%nat then Forall (λ f, file_ok (mfd f)) (in_files i) else level_ok (mfd <$> in_files i).

Section levels.
Context `{UL : ComparatorLaws} {TC : TsComparator C} (Hts : ∀ a b, uc_CompareWithoutTimestamp a b = Ok (Compare a b)).
Notation smallest_user f := (ukey (smallest f)). Notation largest_user f := (ukey (largest f)).

(** ** Searching on from the last key *)
Section advance.
Context (past overlaps : FileMetaData → res bool) (pastb overlapsb : FileMetaData → bool).
Definition hit (f : FileMetaData) : bool := negb (pastb f) && overlapsb f.
Record searchable (files : list FileMetaData) : Prop := {
  s_past f : f ∈ files → past f = Ok (pastb f); s_overlaps f : f ∈ files → overlaps f = Ok (overlapsb f);
  s_sorted : StronglySorted (λ f g, overlapsb g = true → overlapsb f = true) files }.
Definition behind (files : list FileMetaData) (ptr : nat) : Prop := ∀ i f, files !! i = Some f → (i < ptr)%nat → pastb f = true.
Lemma advance_level_spec files fuel ptr : searchable files → behind files ptr → (length files < fuel + ptr)%nat → (0 < fuel)%nat →
  ∃ ptr', advance_level fuel past overlaps files ptr = Ok (existsb hit files, ptr') ∧ behind files ptr'.
Proof.
  intros [Hp Ho Hs]. revert ptr. induction fuel as [|fuel IH]; intros ptr Hb Hf H0; [lia|]. cbn [advance_level]. destruct (files !! ptr) as [f|] eqn:E.
  - assert (Hin : f ∈ files) by (by eapply list_elem_of_lookup_2). rewrite (Hp f Hin). cbn [res_bind]. destruct (pastb f) eqn:Ep.
    + apply lookup_lt_Some in E as Hlt. apply IH; [|lia|lia]. intros i g Hg Hi. destruct (decide (i = ptr)) as [->|]; [congruence|]. apply (Hb i); [done|lia].
    + rewrite (Ho f Hin). cbn [res_bind]. exists ptr. split; [|done]. repeat f_equal. symmetry. destruct (overlapsb f) eqn:Eo.
      * eapply existsb_true; [exact E|]. unfold hit. by rewrite Ep, Eo.
      * apply existsb_false. intros i g Hg. unfold hit. destruct (Nat.lt_ge_cases i ptr) as [Hi|Hi]; [by rewrite (Hb i g)|]. destruct (decide (i = ptr)) as [->|]; [by simplify_eq; rewrite Eo, andb_false_r|].
        destruct (overlapsb g) eqn:Eg; [|by rewrite andb_false_r]. pose proof (sorted_lookup _ _ _ _ _ _ Hs E Hg ltac:(lia)) as H. cbn in H. rewrite H in Eo; done.
  - exists ptr. split; [|done]. repeat f_equal. symmetry. apply existsb_false. intros i g Hg. unfold hit. rewrite (Hb i g); [done|done|]. apply lookup_lt_Some in Hg. apply lookup_ge_None in E. lia.
Qed.
Definition behind_all (v : VersionStorageInfo) (ptrs : list nat) : Prop := ∀ lvl ptr, ptrs !! lvl = Some ptr → behind (LevelFiles v lvl) ptr.
Lemma advance_levels_spec v levels ptrs : (∀ lvl, lvl ∈ levels → (lvl < length ptrs)%nat ∧ searchable (LevelFiles v lvl)) → behind_all v ptrs →
  ∃ ptrs', advance_levels past overlaps v levels ptrs = Ok (forallb (λ lvl, negb (existsb hit (LevelFiles v lvl))) levels, ptrs') ∧ length ptrs' = length ptrs ∧ behind_all v ptrs'.
Proof.
  revert ptrs. induction levels as [|lvl levels IH]; intros ptrs Hl Hb; cbn [advance_levels forallb]; [eauto|].
  destruct (Hl lvl ltac:(by left)) as [Hlt Hs]. destruct (lookup_lt_is_Some_2 _ _ Hlt) as [ptr Ep]. rewrite Ep. cbn [deref res_bind].
  destruct (advance_level_spec _ (S (length (LevelFiles v lvl))) ptr Hs (Hb _ _ Ep) ltac:(lia) ltac:(lia)) as (ptr' & -> & Hb'). cbn [res_bind].
  assert (Hbs : behind_all v (<[lvl := ptr']> ptrs)).
  { intros l p. destruct (decide (l = lvl)) as [->|Hne]; [rewrite list_lookup_insert_eq by done; by intros [= <-]|]. rewrite list_lookup_insert_ne by done. apply Hb. }
  destruct (existsb hit (LevelFiles v lvl)); cbn [negb andb]; [eexists; split; [done|]; by rewrite length_insert|].
  destruct (IH (<[lvl := ptr']> ptrs)) as (ptrs' & -> & Hlen & Hr); [|done|].
  { intros l Hin. rewrite length_insert. apply Hl. by right. }
  rewrite length_insert in Hlen. eauto.
Qed.
End advance.

(** ** What the iterator asks *)
Notation has u f := (overlaps (Some u) (Some u) (mfd f)).
Definition past_user (u : bytes) (f : FileMetaData) : bool := after (Some u) (mfd f).
Lemma level_files_ok v lvl f : storage_ok v → f ∈ LevelFiles v lvl → file_ok (mfd f).
Proof.
  intros Hv Hf. destruct (decide (lvl = 0%nat)) as [->|Hne]; [pose proof (v_zero _ Hv) as H; rewrite Forall_forall in H; by apply H|].
  pose proof (lv_files _ (v_levels _ Hv lvl ltac:(lia))) as H. rewrite Forall_fmap, Forall_forall in H. by apply H.
Qed.
Lemma levels_sorted v lvl : storage_ok v → (0 < lvl)%nat → StronglySorted (λ f g, Compare (smallest_user f) (smallest_user g) ≤ 0) (LevelFiles v lvl).
Proof.
  intros Hv Hl. pose proof (lo_sorted _ (v_levels _ Hv lvl Hl)) as H. remember (mfd <$> LevelFiles v lvl) as l eqn:E. revert E. generalize (LevelFiles v lvl).
  induction H as [|f l H IH Hf]; intros [|g k]; intros [=]; constructor; simplify_eq; [by apply IH|]. by rewrite Forall_fmap in Hf.
Qed.
Lemma key_searchable v lvl u : storage_ok v → (0 < lvl)%nat →
  searchable (past_key u) (not_before_file u) (past_user u) (λ f, negb (LevelFilesThm.before (Some u) (mfd f))) (LevelFiles v lvl).
Proof.
  intros Hv Hl. constructor.
  - intros f Hf. unfold past_key. rewrite extract_ukey by (apply (level_files_ok v lvl f Hv Hf)). done.
  - intros f Hf. unfold not_before_file. rewrite extract_ukey by (apply (level_files_ok v lvl f Hv Hf)). cbn [res_bind]. rewrite Hts. cbn [res_bind LevelFilesThm.before]. f_equal.
    unfold lo. cbn [mfd smallest_key]. by rewrite Z.leb_antisym.
  - eapply sorted_mono; [|by apply (levels_sorted v lvl)]. intros f g Hfg. cbn [LevelFilesThm.before lo]. rewrite !negb_true_iff, !Z.ltb_ge. unfold lo. cbn [mfd smallest_key]. intros Hg.
    destruct (Compare_sign (smallest_user g) u) as [H1 _], (Compare_sign (smallest_user f) u) as [H2 _]. apply H2. eapply Compare_trans; [exact Hfg|]. by apply H1.
Qed.
Lemma range_searchable v lvl a b : storage_ok v → (0 < lvl)%nat → searchable (past_range a) (meets_range b) (past_user a) (λ f, 0 <? Compare b (smallest_user f)) (LevelFiles v lvl).
Proof.
  intros Hv Hl. constructor.
  - intros f Hf. unfold past_range. rewrite extract_ukey by (apply (level_files_ok v lvl f Hv Hf)). cbn [res_bind]. by rewrite Hts.
  - intros f Hf. unfold meets_range. rewrite extract_ukey by (apply (level_files_ok v lvl f Hv Hf)). cbn [res_bind]. by rewrite Hts.
  - eapply sorted_mono; [|by apply (levels_sorted v lvl)]. intros f g Hfg. cbn beta. rewrite !Z.ltb_lt. intros Hg. apply Compare_sign. apply Compare_sign in Hg.
    apply (Compare_lt_trans _ (smallest_user g)). auto.
Qed.
(** The compaction is bottommost, or no file of a deeper level has the key in its range. *)
Definition not_below (c : Compaction) (u : bytes) : bool :=
  Compaction.bottommost_level_ c || looks_below c && forallb (λ lvl, negb (existsb (λ f, has u f) (LevelFiles (input_vstorage_ c) lvl))) (levels_below c).
Definition ptrs_for (c : Compaction) (u : bytes) (ptrs : list nat) : Prop := length ptrs = number_levels_ c ∧ behind_all (past_user u) (input_vstorage_ c) ptrs.
Lemma real_proxy c : storage_ok (input_vstorage_ c) → proxy_ok (RealCompaction c) (not_below c) (ptrs_for c).
Proof.
  intros Hv. constructor; cbn [RealCompaction number_levels CompactionIter.KeyNotExistsBeyondOutputLevel bottommost_level].
  - intros u. split; [by rewrite length_replicate|]. intros lvl ptr [-> _]%lookup_replicate i f _. lia.
  - intros u u' ptrs Hu [Hl Hb]. split; [done|]. intros lvl ptr Hp i f Hf Hi. specialize (Hb lvl ptr Hp i f Hf Hi). unfold past_user in *. cbn [after] in *. rewrite Z.ltb_lt in *.
    apply Compare_sign. apply Compare_sign in Hb. eapply Compare_lt_trans. eauto.
  - intros u ptrs [Hl Hb]. unfold Compaction.KeyNotExistsBeyondOutputLevel. rewrite Hl, Nat.eqb_refl. cbn [assert_ res_bind]. unfold not_below.
    destruct (Compaction.bottommost_level_ c); [by exists ptrs|]. destruct (looks_below c); [|by exists ptrs]. cbn [orb andb].
    destruct (advance_levels_spec (past_key u) (not_before_file u) (past_user u) (λ f, negb (LevelFilesThm.before (Some u) (mfd f))) (input_vstorage_ c) (levels_below c) ptrs) as (ptrs' & E & Hlen & Hb'); [|exact Hb|].
    + intros lvl Hin. unfold levels_below in Hin. apply elem_of_seq in Hin. split; [rewrite Hl; lia|]. apply key_searchable; [done|lia].
    + exists ptrs'. split; [exact E|]. split; [congruence|done].
  - intros u Hb. unfold not_below. by rewrite Hb.
Qed.
(** The same for a range whose end is exclusive. *)
Definition range_not_below (c : Compaction) (a b : bytes) : bool :=
  Compaction.bottommost_level_ c ||
  looks_below c && forallb (λ lvl, negb (existsb (λ f, negb (past_user a f) && (0 <? Compare b (smallest_user f))) (LevelFiles (input_vstorage_ c) lvl))) (levels_below c).
Lemma range_search c a b ptrs : storage_ok (input_vstorage_ c) → ptrs_for c a ptrs → Compare a b < 0 →
  ∃ ptrs', KeyRangeNotExistsBeyondOutputLevel c a b ptrs = Ok (range_not_below c a b, ptrs') ∧ ptrs_for c a ptrs'.
Proof.
  intros Hv [Hl Hb] Hab. unfold KeyRangeNotExistsBeyondOutputLevel. rewrite Hl, Nat.eqb_refl, Hts. cbn [assert_ res_bind]. rewrite (proj2 (Z.ltb_lt _ _)) by done. cbn [assert_ res_bind].
  unfold range_not_below. destruct (Compaction.bottommost_level_ c); [by exists ptrs|]. destruct (looks_below c); [|by exists ptrs]. cbn [orb andb].
  destruct (advance_levels_spec (past_range a) (meets_range b) (past_user a) (λ f, 0 <? Compare b (smallest_user f)) (input_vstorage_ c) (levels_below c) ptrs) as (ptrs' & E & Hlen & Hb'); [|exact Hb|].
  - intros lvl Hin. unfold levels_below in Hin. apply elem_of_seq in Hin. split; [lia|]. apply range_searchable; [done|lia].
  - exists ptrs'. split; [exact E|]. split; [congruence|done].
Qed.

(** ** Levels that a range reaches *)
Lemma fmap_file_ok files : Forall (λ f, file_ok (mfd f)) files → Forall file_ok (mfd <$> files).
Proof. by rewrite Forall_fmap. Qed.
Lemma overlap_level v lvl a b : storage_ok v → OverlapInLevel v lvl a b = Ok (existsb (λ f, overlaps a b (mfd f)) (LevelFiles v lvl)).
Proof.
  intros Hv. unfold OverlapInLevel. destruct (Nat.leb_spec (num_non_empty_levels_ v) lvl) as [H|H]; [by rewrite (v_empty _ Hv)|]. rewrite (v_brief _ Hv).
  assert (existsb (λ f, overlaps a b (mfd f)) (LevelFiles v lvl) = existsb (overlaps a b) (mfd <$> LevelFiles v lvl)) as ->.
  { induction (LevelFiles v lvl) as [|f l IH]; [done|]. cbn [existsb fmap list_fmap]. by rewrite IH. }
  destruct (Nat.ltb_spec 0 lvl) as [Hl|Hl]; [by apply overlap_search, v_levels|]. unfold SomeFileOverlapsRange. cbn [negb]. apply some_overlap_spec; [done|].
  replace lvl with 0%nat by lia. apply fmap_file_ok, v_zero, Hv.
Qed.
Definition reaches (v : VersionStorageInfo) (a b : bytes) (last_level lvl : nat) : bool :=
  (0 <? length (LevelFiles v lvl))%nat && ((last_level =? 0)%nat || existsb (λ f, overlaps (Some a) (Some b) (mfd f)) (LevelFiles v lvl)).
Lemma range_below_spec v a b last fuel lvl : storage_ok v → (num_levels_ v < fuel + lvl)%nat → (0 < fuel)%nat →
  range_below fuel v a b last lvl = Ok (existsb (reaches v a b last) (seq lvl (num_levels_ v - lvl))).
Proof.
  intros Hv. revert lvl. induction fuel as [|fuel IH]; intros lvl Hf H0; [lia|]. cbn [range_below]. destruct (Nat.ltb_spec lvl (num_levels_ v)) as [Hl|Hl]; [|by replace (num_levels_ v - lvl)%nat with 0%nat by lia].
  replace (num_levels_ v - lvl)%nat with (S (num_levels_ v - S lvl)) by lia. cbn [seq existsb]. unfold reaches at 1. destruct (0 <? length (LevelFiles v lvl))%nat; cbn [res_bind andb orb]; [|apply IH; lia].
  destruct (last =? 0)%nat; cbn [res_bind orb]; [done|]. rewrite overlap_level by done. cbn [res_bind]. destruct (existsb _ (LevelFiles v lvl)); [done|]. apply IH; lia.
Qed.
Lemma range_might_spec v a b last idx : storage_ok v → (idx ≠ -1 ↔ last = 0%nat) →
  RangeMightExistAfterSortedRun v a b last idx =
    Ok ((last =? 0)%nat && negb (idx =? Z.of_nat (length (LevelFiles v 0)) - 1) || existsb (reaches v a b last) (seq (S last) (num_levels_ v - S last))).
Proof.
  intros Hv Hi. unfold RangeMightExistAfterSortedRun. rewrite bool_decide_true by done. cbn [assert_ res_bind]. destruct (_ && _); [done|]. cbn [orb]. apply range_below_spec; [done|lia|lia].
Qed.
(** ** The boundary keys of the inputs *)
Definition considered (exclude_level : option nat) (inputs : list CompactionInputFiles) : list FileMetaData :=
  concat ((λ i, if bool_decide (Some (in_level i) = exclude_level) then [] else in_files i) <$> inputs).
Definition tight (files : list FileMetaData) (s l : bytes) : Prop :=
  (∀ f, f ∈ files → Compare s (smallest_user f) ≤ 0 ∧ Compare (largest_user f) l ≤ 0) ∧ (∃ f, f ∈ files ∧ s = smallest_user f) ∧ (∃ f, f ∈ files ∧ l = largest_user f).
Definition bounds (files : list FileMetaData) (cur : option (bytes * bytes)) : Prop := match cur with None => files = [] | Some (s, l) => tight files s l end.
Lemma smaller_key a s x : Compare s x ≤ 0 ∨ Compare a x ≤ 0 → Compare (if Compare a s <? 0 then a else s) x ≤ 0.
Proof.
  destruct (Z.ltb_spec (Compare a s) 0) as [H|H]; intros [Hx|Hx]; try done; eapply Compare_trans; try exact Hx; [lia|]. destruct (Compare_sign s a). lia.
Qed.
Lemma larger_key a l x : Compare x l ≤ 0 ∨ Compare x a ≤ 0 → Compare x (if 0 <? Compare a l then a else l) ≤ 0.
Proof.
  destruct (Z.ltb_spec 0 (Compare a l)) as [H|H]; intros [Hx|Hx]; try done; eapply Compare_trans; try exact Hx; [|lia]. destruct (Compare_sign l a). lia.
Qed.
(** [run] is a block of files with the first one smallest and the last one largest. *)
Lemma extend_bounds files run cur a b : bounds files cur → a ∈ run → b ∈ run → (∀ f, f ∈ run → file_ok (mfd f)) →
  (∀ f, f ∈ run → Compare (smallest_user a) (smallest_user f) ≤ 0 ∧ Compare (largest_user f) (largest_user b) ≤ 0) →
  ∃ cur', extend_keys cur (smallest a) (largest b) = Ok cur' ∧ bounds (files ++ run) cur'.
Proof.
  intros Hc Ha Hb Hok Hrun. unfold extend_keys. rewrite !extract_ukey by (apply (f_small _ (Hok a Ha)) || apply (f_large _ (Hok b Hb))). cbn [res_bind]. eexists. split; [done|].
  destruct cur as [[s l]|]; cbn [bounds] in *.
  - destruct Hc as (H1 & (fs & Hs & ->) & (fl & Hl & ->)).
    split; [|split].
    + intros f [Hf|Hf]%elem_of_app; (split; [apply smaller_key|apply larger_key]); first [left; by apply H1|right; by apply Hrun].
    + destruct (_ <? 0); [exists a|exists fs]; set_solver.
    + destruct (0 <? _); [exists b|exists fl]; set_solver.
  - subst files. split; [done|]. split; eauto.
Qed.
Lemma over_files_bounds fs : ∀ files cur, bounds files cur → Forall (λ f, file_ok (mfd f)) fs → ∃ cur', over_files extend_keys fs cur = Ok cur' ∧ bounds (files ++ fs) cur'.
Proof.
  induction fs as [|f fs IH]; intros files cur Hc Hf; cbn [over_files]; [exists cur; by rewrite app_nil_r|].
  destruct (extend_bounds files [f] cur f f Hc) as (cur' & -> & Hc'); [by left|by left| |intros g ->%list_elem_of_singleton; by rewrite !Compare_eq|].
  { intros g ->%list_elem_of_singleton. exact (Forall_inv Hf). }
  cbn [res_bind]. destruct (IH _ _ Hc' (Forall_inv_tail Hf)) as (cur2 & -> & H2). exists cur2. split; [done|]. by rewrite <- app_assoc in H2.
Qed.
Lemma level_first_last files f g : level_ok (mfd <$> files) → head files = Some f → list.last files = Some g →
  ∀ x, x ∈ files → Compare (smallest_user f) (smallest_user x) ≤ 0 ∧ Compare (largest_user x) (largest_user g) ≤ 0.
Proof.
  intros Hl Hf Hg x Hx. apply list_elem_of_lookup in Hx as [i Hx]. apply lookup_lt_Some in Hx as Hi. rewrite head_lookup in Hf. rewrite last_lookup in Hg.
  assert (Hm : ∀ j y, files !! j = Some y → (mfd <$> files) !! j = Some (mfd y)) by (intros j y Hy; by rewrite list_lookup_fmap, Hy). split.
  - destruct (decide (i = 0%nat)) as [->|]; [simplify_eq; by rewrite Compare_eq|]. exact (sorted_lookup _ _ _ _ _ _ (lo_sorted _ Hl) (Hm _ _ Hf) (Hm _ _ Hx) ltac:(lia)).
  - destruct (decide (i = pred (length files))) as [->|]; [simplify_eq; by rewrite Compare_eq|]. exact (sorted_lookup _ _ _ _ _ _ (hi_sorted _ Hl) (Hm _ _ Hx) (Hm _ _ Hg) ltac:(lia)).
Qed.
Lemma over_inputs_bounds ex inputs : ∀ files cur, inputs_ok inputs → bounds files cur →
  ∃ cur', over_inputs extend_keys ex inputs cur = Ok cur' ∧ bounds (files ++ considered ex inputs) cur'.
Proof.
  induction inputs as [|i inputs IH]; intros files cur Hin Hc; cbn [over_inputs]; [exists cur; unfold considered; cbn; by rewrite app_nil_r|].
  set (fs := if bool_decide (Some (in_level i) = ex) then [] else in_files i). specialize (Hin i ltac:(by left)) as Hi.
  assert (∃ cur', (if bool_decide (in_files i = []) || bool_decide (Some (in_level i) = ex) then Ok cur else if (in_level i =? 0)%nat then over_files extend_keys (in_files i) cur
    else let* first := deref (head (in_files i)) in let* back := deref (list.last (in_files i)) in extend_keys cur (smallest first) (largest back)) = Ok cur' ∧ bounds (files ++ fs) cur')
    as (cur' & -> & Hc').
  { unfold fs. destruct (bool_decide_reflect (Some (in_level i) = ex)); [rewrite orb_true_r, app_nil_r; eauto|]. rewrite orb_false_r.
    destruct (bool_decide_reflect (in_files i = [])) as [->|Hne]; [rewrite app_nil_r; eauto|]. destruct (in_level i =? 0)%nat; [by apply over_files_bounds|].
    destruct (in_files i) as [|f l] eqn:E; [done|]. destruct (list.last (f :: l)) as [g|] eqn:Eg; [|by apply last_None in Eg]. cbn [head deref res_bind].
    apply (extend_bounds _ _ _ f g); [done|by left|by apply last_Some_elem_of| |by apply level_first_last]. apply lv_files in Hi. rewrite Forall_fmap, Forall_forall in Hi. done. }
  cbn [res_bind]. destruct (IH _ _ (λ j Hj, Hin j ltac:(by right)) Hc') as (cur2 & -> & H2). exists cur2. split; [done|]. unfold considered in *. cbn [fmap list_fmap concat]. fold fs. by rewrite app_assoc.
Qed.
Lemma boundary_keys ex inputs : inputs_ok inputs → considered ex inputs ≠ [] → ∃ s l, GetBoundaryKeys inputs ex = Ok (s, l) ∧ tight (considered ex inputs) s l.
Proof.
  intros Hin Hne. unfold GetBoundaryKeys. destruct (over_inputs_bounds ex inputs [] None Hin eq_refl) as ([[s l]|] & -> & Hc); cbn in Hc; [|done]. cbn. eauto.
Qed.

(** ** The bottommost level *)
(** The last file of the first input: for an output on level 0, where the run ends. *)
Definition last_input (inputs : list CompactionInputFiles) : option FileMetaData := i ← head inputs; list.last (in_files i).
Definition run_end (v : VersionStorageInfo) (inputs : list CompactionInputFiles) (g : FileMetaData) : Prop :=
  g ∈ LevelFiles v 0 ∧ ∃ b, last_input inputs = Some b ∧ number g = number b.
(** A file of an older sorted run than the output. *)
Definition beneath (v : VersionStorageInfo) (output_level : nat) (inputs : list CompactionInputFiles) (f : FileMetaData) : Prop :=
  (∃ lvl, (output_level < lvl < num_levels_ v)%nat ∧ f ∈ LevelFiles v lvl) ∨
  output_level = 0%nat ∧ ∃ i j g, run_end v inputs g ∧ LevelFiles v 0 !! i = Some g ∧ LevelFiles v 0 !! j = Some f ∧ (i < j)%nat.
Definition outputs_to (v : VersionStorageInfo) (output_level : nat) (inputs : list CompactionInputFiles) : Prop := output_level = 0%nat → ∃ g, run_end v inputs g.
Lemma bottommost_answer v out inputs : storage_ok v → inputs_ok inputs → considered None inputs ≠ [] → outputs_to v out inputs →
  ∃ s l b, tight (considered None inputs) s l ∧ IsBottommostLevel out v inputs = Ok b ∧
    (b = true → existsb (reaches v s l out) (seq (S out) (num_levels_ v - S out)) = false ∧
       ∀ i j g f, out = 0%nat → run_end v inputs g → LevelFiles v 0 !! i = Some g → LevelFiles v 0 !! j = Some f → (i < j)%nat → False) ∧
    ((0 < out)%nat → b = negb (existsb (reaches v s l out) (seq (S out) (num_levels_ v - S out)))).
Proof.
  intros Hv Hin Hne Hto. destruct (boundary_keys None inputs Hin Hne) as (s & l & E & Ht). exists s, l. unfold IsBottommostLevel. rewrite E. destruct (Nat.eqb_spec out 0) as [->|Hout].
  - destruct (Hto eq_refl) as (g & Hg & b & Hb & Hn). unfold last_input in Hb. destruct (head inputs) as [i0|] eqn:E0; [|done]. cbn [mbind option_bind] in Hb. cbn [deref res_bind]. rewrite Hb. cbn [deref res_bind].
    apply list_elem_of_lookup in Hg as [k Hk]. destruct (list_find (λ f, number f = number b) (LevelFiles v 0)) as [[idx h]|] eqn:Ef.
    2: { apply list_find_None in Ef. rewrite Forall_lookup in Ef. by destruct (Ef k g Hk). }
    cbn [fmap option_fmap option_map default fst res_bind]. unfold id. apply list_find_Some in Ef as (Hh & Hnh & Hbefore). apply lookup_lt_Some in Hh as Hlt. rewrite (proj2 (Nat.ltb_lt _ _)) by done. cbn [assert_ res_bind].
    rewrite range_might_spec by (done || lia). cbn [res_bind Nat.eqb andb]. eexists. split; [done|]. split; [reflexivity|]. split; [|lia]. intros [H1 H2]%negb_true_iff%orb_false_iff. split; [done|].
    apply negb_false_iff, Z.eqb_eq in H1. intros i j g' f _ (_ & b' & Hb' & Hn') Hi Hj Hij. unfold last_input in Hb'. rewrite E0 in Hb'. cbn in Hb'. rewrite Hb in Hb'. injection Hb' as <-.
    apply lookup_lt_Some in Hj. destruct (Nat.lt_ge_cases i idx) as [Hlt'|]; [by apply (Hbefore i g')|lia].
  - cbn [res_bind]. rewrite range_might_spec by (done || lia). rewrite (proj2 (Nat.eqb_neq _ _)) by done. cbn [andb orb res_bind]. eexists. split; [done|]. split; [reflexivity|]. split; [|done].
    intros H%negb_true_iff. split; [done|]. lia.
Qed.
Lemma has_iff u f : has u f = true ↔ Compare (smallest_user f) u ≤ 0 ∧ Compare u (largest_user f) ≤ 0.
Proof. rewrite overlaps_iff. unfold hi, lo. cbn [mfd smallest_key largest_key]. tauto. Qed.
(** Then no file beneath has a key that an input file may have. *)
Lemma bottommost_beneath v out inputs g f u : storage_ok v → inputs_ok inputs → outputs_to v out inputs → IsBottommostLevel out v inputs = Ok true →
  g ∈ considered None inputs → has u g = true → beneath v out inputs f → has u f = false.
Proof.
  intros Hv Hin Hto Hb Hg Hu Hf. destruct (bottommost_answer v out inputs Hv Hin) as (s & l & b & Ht & Hb' & Htrue & _); [by intros E; rewrite E in Hg; apply elem_of_nil in Hg|done|].
  rewrite Hb in Hb'. injection Hb' as <-. destruct (Htrue eq_refl) as [H1 H2]. destruct Hf as [(lvl & Hlvl & Hf)|(Hout & i & j & e & He & Hi & Hj & Hij)]; [|by destruct (H2 i j e f)].
  destruct (has u f) eqn:E; [|done]. exfalso. rewrite <- not_true_iff_false in H1. apply H1, existsb_exists. exists lvl. split; [apply in_seq; lia|]. unfold reaches.
  assert (Hlen : (0 <? length (LevelFiles v lvl))%nat = true) by (apply Nat.ltb_lt; destruct (LevelFiles v lvl); [by apply elem_of_nil in Hf|cbn; lia]). rewrite Hlen. cbn [andb].
  apply orb_true_iff. right. apply existsb_exists. exists f. split; [by apply list_elem_of_In|]. apply has_iff in E as [E1 E2], Hu as [U1 U2]. destruct (proj1 Ht g Hg) as [T1 T2].
  apply overlaps_iff. unfold lo, hi. cbn [mfd smallest_key largest_key]. split; [exact (Compare_trans _ _ _ T1 (Compare_trans _ _ _ U1 E2))|exact (Compare_trans _ _ _ E1 (Compare_trans _ _ _ U2 T2))].
Qed.
End levels.
