(* ===== verification/CompactionNew.v ===== *)
(** * Setting up a compaction

    The constructor of a compaction on inputs that the picker may choose: it does
    not fail, it marks exactly the input files, groups them into the units that share
    boundary keys, leaves out only files that a range tombstone deletes, and what it
    promises about the levels below is true.  Then the whole compaction, from the
    files to the iterator's output, is invisible to every reader. *)
From S2P Require Import Prelude Bitfield Slice Coding Comparator DbFormat CompactionIter CompactionRef CompactionSim CompactionThm LevelFiles LevelFilesThm Compaction CompactionLevels.
From stdpp Require Import gmap.
Local Open Scope Z_scope.

Lemma map_res_total {A B} (f : A → res B) (P : A → B → Prop) l : (∀ a, a ∈ l → ∃ b, f a = Ok b ∧ P a b) → ∃ l', map_res f l = Ok l' ∧ Forall2 P l l'.
Proof.
  induction l as [|a l IH]; intros H; cbn [map_res]; [by exists []|]. destruct (H a ltac:(by left)) as (b & -> & Hb). destruct IH as (l' & -> & Hl'); [intros x Hx; apply H; by right|].
  exists (b :: l'). by split; [|constructor].
Qed.
Lemma map_res_fun {A B} (f : A → res B) (g : A → B) l : (∀ a, a ∈ l → f a = Ok (g a)) → map_res f l = Ok (g <$> l).
Proof.
  intros H. destruct (map_res_total f (λ a b, b = g a) l) as (l' & -> & Hl); [intros a Ha; exists (g a); by rewrite H|]. f_equal. induction Hl as [|a b l l' -> _ IH]; [done|]. cbn. f_equal. apply IH. intros; apply H; by right.
Qed.

(** ** Marks *)
Definition numbers (files : list FileMetaData) : list Z := number <$> files.
Lemma mark_spec files marks : NoDup (numbers files) → (∀ f, f ∈ files → number f ∉ marks) → mark_files true files marks = Ok (list_to_set (numbers files) ∪ marks).
Proof.
  revert marks. induction files as [|f files IH]; intros marks Hnd Hm; cbn [mark_files]; [f_equal; set_solver|]. unfold numbers in *. cbn [fmap list_fmap] in Hnd. apply NoDup_cons in Hnd as [Hf Hnd].
  rewrite bool_decide_false by (apply Hm; by left). cbn [Bool.eqb negb assert_ res_bind]. rewrite IH; [f_equal; cbn; set_solver|done|].
  intros g Hg. rewrite not_elem_of_union, not_elem_of_singleton. split; [|apply Hm; by right]. intros E. apply Hf. rewrite <- E. by apply list_elem_of_fmap_2.
Qed.
Lemma unmark_spec files marks : NoDup (numbers files) → (∀ f, f ∈ files → number f ∈ marks) → mark_files false files marks = Ok (marks ∖ list_to_set (numbers files)).
Proof.
  revert marks. induction files as [|f files IH]; intros marks Hnd Hm; cbn [mark_files]; [f_equal; set_solver|]. unfold numbers in *. cbn [fmap list_fmap] in Hnd. apply NoDup_cons in Hnd as [Hf Hnd].
  rewrite bool_decide_true by (apply Hm; by left). cbn [Bool.eqb negb assert_ res_bind]. rewrite IH; [f_equal; cbn; set_solver|done|].
  intros g Hg. rewrite elem_of_difference, elem_of_singleton. split; [apply Hm; by right|]. intros E. apply Hf. rewrite <- E. by apply list_elem_of_fmap_2.
Qed.
Definition all_files (inputs : list CompactionInputFiles) : list FileMetaData := concat (in_files <$> inputs).
Lemma mark_unmark inputs marks : NoDup (numbers (all_files inputs)) → (∀ f, f ∈ all_files inputs → number f ∉ marks) →
  ∃ m, MarkFilesBeingCompacted true inputs marks = Ok m ∧ m = list_to_set (numbers (all_files inputs)) ∪ marks ∧ MarkFilesBeingCompacted false inputs m = Ok marks.
Proof.
  intros Hnd Hm. eexists. unfold MarkFilesBeingCompacted. split; [by apply mark_spec|]. split; [done|]. rewrite unmark_spec; [|done|].
  - f_equal. apply set_eq. intros x. rewrite elem_of_difference, elem_of_union, elem_of_list_to_set. split; [tauto|]. intros Hx. split; [by right|]. unfold numbers.
    intros (f & -> & Hf)%list_elem_of_fmap. by apply (Hm f).
  - intros f Hf. apply elem_of_union_l, elem_of_list_to_set. by apply list_elem_of_fmap_2.
Qed.
(** A file that is in another compaction cannot be taken. *)
Lemma mark_twice files marks f : f ∈ files → number f ∈ marks → mark_files true files marks = Fail AssertFail.
Proof.
  revert marks. induction files as [|g files IH]; intros marks Hf Hm; [by apply elem_of_nil in Hf|]. cbn [mark_files]. destruct (decide (number g ∈ marks)) as [Hg|Hg].
  { by rewrite bool_decide_true. }
  rewrite bool_decide_false by done. cbn [Bool.eqb negb assert_ res_bind]. apply elem_of_cons in Hf as [->|Hf]; [done|]. apply IH; [done|set_solver].
Qed.

Section setup.
Context `{UL : ComparatorLaws} {TC : TsComparator C} (Hts : ∀ a b, uc_CompareWithoutTimestamp a b = Ok (Compare a b)).

(** ** Atomic units *)
(** The unit of file [n]: the largest block around it whose neighbours share boundary keys. *)
Definition unit_of (files : list FileMetaData) (n : nat) (s l : bytes) : Prop :=
  ∃ i j a b, (i ≤ n < j)%nat ∧ (j ≤ length files)%nat ∧ ¬ shared (mfd <$> files) i ∧ ¬ shared (mfd <$> files) j ∧ (∀ k, (i < k < j)%nat → shared (mfd <$> files) k) ∧
    files !! i = Some a ∧ files !! (j - 1)%nat = Some b ∧ s = smallest a ∧ l = largest b.
Lemma lookup_mfd (files : list FileMetaData) (n : nat) : (mfd <$> files) !! n = mfd <$> files !! n.
Proof. apply list_lookup_fmap. Qed.
Lemma shared_pair files j p c : files !! (j - 1)%nat = Some p → files !! j = Some c → (0 < j)%nat → shared (mfd <$> files) j ↔ sst (largest p) (smallest c) = 0.
Proof.
  intros Hp Hc Hj. split.
  - intros (_ & p' & c' & Hp' & Hc' & E). rewrite lookup_mfd, Hp in Hp'. rewrite lookup_mfd, Hc in Hc'. cbn in Hp', Hc'. by simplify_eq.
  - intros E. split; [done|]. exists (mfd p), (mfd c). rewrite !lookup_mfd, Hp, Hc. done.
Qed.
Lemma block_ends pre u (a b : FileMetaData) rest : list.last (a :: u) = Some b →
  (pre ++ (a :: u) ++ rest) !! length pre = Some a ∧ (pre ++ (a :: u) ++ rest) !! (length pre + S (length u) - 1)%nat = Some b.
Proof.
  intros Eb. rewrite last_lookup in Eb. cbn [length pred] in Eb. split; [rewrite lookup_app_r by lia; by rewrite Nat.sub_diag|]. rewrite lookup_app_r by lia.
  rewrite lookup_app_l by (cbn [length]; lia). by replace (length pre + S (length u) - 1 - length pre)%nat with (length u) by lia.
Qed.
Lemma block_unit pre u a b rest n s l : let all := pre ++ (a :: u) ++ rest in
  list.last (a :: u) = Some b → ¬ shared (mfd <$> all) (length pre) → ¬ shared (mfd <$> all) (length pre + S (length u)) →
  (∀ k, (length pre < k < length pre + S (length u))%nat → shared (mfd <$> all) k) →
  replicate (length (a :: u)) (smallest a, largest b) !! n = Some (s, l) → unit_of all (length pre + n) s l.
Proof.
  intros all Eb H1 H2 H3 [[= -> ->] Hn]%lookup_replicate. cbn [length] in Hn. destruct (block_ends pre u a b rest Eb) as [Ha Hb]. exists (length pre), (length pre + S (length u))%nat, a, b.
  assert (length all = length pre + (S (length u) + length rest))%nat by (unfold all; rewrite !length_app; done). split; [lia|]. split; [lia|]. done.
Qed.
Lemma atomic_units_spec files : ∀ pre u a, let all := pre ++ (a :: u) ++ files in
  Forall (λ f, file_ok (mfd f)) all → ¬ shared (mfd <$> all) (length pre) → (∀ k, (length pre < k < length pre + S (length u))%nat → shared (mfd <$> all) k) →
  ∃ b r, list.last (a :: u) = Some b ∧ atomic_units files (a :: u) (smallest a) (largest b) = Ok r ∧ length r = (S (length u) + length files)%nat ∧
    ∀ n s l, r !! n = Some (s, l) → unit_of all (length pre + n) s l.
Proof.
  induction files as [|f files IH]; intros pre u a all Hok Hstart Hin; (destruct (list.last (a :: u)) as [b|] eqn:Eb; [|by apply last_None in Eb]); exists b; cbn [atomic_units].
  - eexists. split; [done|]. split; [done|]. rewrite length_replicate. split; [cbn; lia|]. intros n s l. apply block_unit; try done.
    intros H%shared_inside. rewrite length_fmap, !length_app in H. cbn [length] in H. lia.
  - destruct (block_ends pre u a b (f :: files) Eb) as [_ Hb]. fold all in Hb. assert (Hf : all !! (length pre + S (length u))%nat = Some f).
    { unfold all. rewrite app_assoc, lookup_app_r by (rewrite length_app; cbn; lia). rewrite length_app. cbn [length]. by rewrite Nat.sub_diag. }
    pose proof Hok as Hok'. rewrite Forall_lookup in Hok'. rewrite sst_spec by (done || apply (f_large _ (Hok' _ _ Hb)) || apply (f_small _ (Hok' _ _ Hf))). cbn [res_bind].
    pose proof (shared_pair all (length pre + S (length u)) b f Hb Hf ltac:(lia)) as Hsh. destruct (Z.eqb_spec (sst (largest b) (smallest f)) 0) as [E|E].
    + assert (Eall : pre ++ (a :: u ++ [f]) ++ files = all) by (unfold all; cbn; by rewrite <- app_assoc). specialize (IH pre (u ++ [f]) a). cbv zeta in IH. rewrite Eall, length_app in IH. cbn [length] in IH.
      destruct IH as (b' & r & Hb' & Hr & Hlen & Hun); [done|done| |].
      { intros k Hk. destruct (decide (k = length pre + S (length u))%nat) as [->|]; [by apply Hsh|apply Hin; lia]. }
      change (a :: u ++ [f]) with ((a :: u) ++ [f]) in Hb'. rewrite last_snoc in Hb'. injection Hb' as <-. exists r. split; [done|]. split; [done|]. split; [rewrite Hlen; cbn; lia|done].
    + assert (Eall : (pre ++ a :: u) ++ [f] ++ files = all) by (unfold all; by rewrite <- app_assoc). specialize (IH (pre ++ a :: u) [] f). cbv zeta in IH. rewrite Eall, length_app in IH. cbn [length] in IH.
      destruct IH as (b' & r & Hb' & Hr & Hlen & Hun); [done|tauto|lia|]. cbn in Hb'. injection Hb' as <-. rewrite Hr. cbn [res_bind]. eexists. split; [done|]. split; [done|].
      rewrite length_app, length_replicate, Hlen. cbn [length]. split; [lia|]. intros n s l [Hn|[Hge Hn]]%lookup_app_Some; [by apply (block_unit pre u a b (f :: files)); try done; tauto|].
      rewrite length_replicate in Hge, Hn. cbn [length] in Hge, Hn. apply Hun in Hn. by replace (length pre + S (length u) + (n - S (length u)))%nat with (length pre + n)%nat in Hn by lia.
Qed.
Record grouped (i i' : CompactionInputFiles) : Prop := {
  g_level : in_level i' = in_level i; g_files : in_files i' = in_files i;
  g_units : (0 < in_level i)%nat → length (boundaries i') = length (in_files i) ∧ ∀ n s l, boundaries i' !! n = Some (s, l) → unit_of (in_files i) n s l }.
Lemma populate_spec inputs : inputs_ok inputs → (∀ i, i ∈ inputs → boundaries i = []) → ∃ inputs', PopulateWithAtomicBoundaries inputs = Ok inputs' ∧ Forall2 grouped inputs inputs'.
Proof.
  intros Hin Hb. apply map_res_total. intros i Hi. specialize (Hin i Hi). specialize (Hb i Hi). unfold with_boundaries. destruct (in_files i) as [|f files] eqn:Ef.
  { exists i. split; [done|]. constructor; [done|done|]. intros _. rewrite Hb, Ef. by split; [|intros n s l H]. }
  destruct (Nat.eqb_spec (in_level i) 0) as [E|E]; [exists i; split; [done|]; constructor; [done|done|lia]|]. apply lv_files in Hin as Hok. rewrite Forall_fmap in Hok.
  destruct (atomic_units_spec files [] [] f) as (b & r & [= <-] & -> & Hlen & Hu); [done|intros [H _]; cbn in H; lia|cbn; lia|]. cbn [res_bind]. rewrite Hb. cbn [app length] in *.
  rewrite Hlen, Nat.eqb_refl. cbn [assert_ res_bind]. eexists. split; [done|]. constructor; [done|cbn; congruence|]. cbn [boundaries]. rewrite Ef. intros _. split; [done|]. exact Hu.
Qed.
Lemma brief_spec files : Forall (λ f, file_ok (mfd f)) files → DoGenerateLevelFilesBrief files = Ok (mfd <$> files).
Proof.
  intros Hf. apply map_res_fun. intros f Hin. rewrite Forall_forall in Hf. specialize (Hf f Hin). pose proof (f_small _ Hf) as H1. pose proof (f_large _ Hf) as H2. cbn in H1, H2. unfold Encode.
  rewrite !(proj2 (Nat.ltb_lt _ _)) by lia. done.
Qed.

(** ** Inputs that a range tombstone deletes *)
Definition shadows (t f : FileMetaData) : bool :=
  (largest_seqno f <? smallest_seqno t) && (Compare (ukey (smallest t)) (ukey (smallest f)) <=? 0) && (0 <? Compare (ukey (largest t)) (ukey (largest f))).
Lemma split_deleted_spec t files : file_ok (mfd t) → Forall (λ f, file_ok (mfd f)) files →
  split_deleted t files = Ok (List.filter (λ f, negb (shadows t f)) files, List.filter (shadows t) files).
Proof.
  intros Ht. induction 1 as [|f files Hf _ IH]; [done|]. cbn [split_deleted List.filter]. unfold deleted_by. rewrite !extract_ukey by (apply (f_small _ Ht) || apply (f_large _ Ht) || apply (f_small _ Hf) || apply (f_large _ Hf)).
  cbn [res_bind]. rewrite !Hts. cbn [res_bind]. rewrite IH. cbn [res_bind]. unfold shadows. by destruct (_ && _).
Qed.
Definition candidate (inputs : list CompactionInputFiles) : option FileMetaData :=
  first ← head inputs; if (in_level first =? 0)%nat then list.last (in_files first) else head (in_files first).
Definition stand_alone (f : FileMetaData) : bool := (num_range_deletions f =? 1) && (num_entries f =? num_range_deletions f).
Definition sole_seqno (f : FileMetaData) : Prop := stand_alone f = true → smallest_seqno f = largest_seqno f.
(** A stand-alone range tombstone, seen by all snapshots, leads the inputs and is newer than the file and covers it. *)
Definition left_out (inputs : list CompactionInputFiles) (earliest_snapshot : Z) (checker : option (Z → Z → SnapshotCheckerResult)) (f : FileMetaData) : Prop :=
  ∃ t, candidate inputs = Some t ∧ stand_alone t = true ∧ DataIsDefinitelyInSnapshot checker (smallest_seqno t) earliest_snapshot = true ∧ shadows t f = true.
Lemma files_of inputs i : inputs_ok inputs → i ∈ inputs → Forall (λ f, file_ok (mfd f)) (in_files i).
Proof. intros Hin Hi. specialize (Hin i Hi). destruct (in_level i =? 0)%nat; [done|]. apply lv_files in Hin. by rewrite Forall_fmap in Hin. Qed.
Definition parted (gone : FileMetaData → Prop) (i : CompactionInputFiles) (brief : list FdWithKeyRange) (out : list FileMetaData) : Prop :=
  ∃ P : FileMetaData → bool, brief = mfd <$> List.filter (λ f, negb (P f)) (in_files i) ∧ out = List.filter P (in_files i) ∧ ∀ f, f ∈ out → gone f.
Lemma filter_true {A} (l : list A) : List.filter (λ _, true) l = l.
Proof. induction l as [|a l IH]; [done|]. cbn. by rewrite IH. Qed.
Lemma filter_false {A} (l : list A) : List.filter (λ _, false) l = [].
Proof. by induction l. Qed.
Lemma parted_none gone inputs : Forall3 (parted gone) inputs ((λ i, mfd <$> in_files i) <$> inputs) (replicate (length inputs) []).
Proof.
  induction inputs as [|i inputs IH]; [constructor|]. constructor; [|done]. exists (λ _, false). cbn [negb]. rewrite filter_true, filter_false. split; [done|]. split; [done|]. intros f H%elem_of_nil. done.
Qed.
Lemma briefs_spec inputs : inputs_ok inputs → map_res (λ i, DoGenerateLevelFilesBrief (in_files i)) inputs = Ok ((λ i, mfd <$> in_files i) <$> inputs).
Proof. intros Hin. apply map_res_fun. intros i Hi. by apply brief_spec, (files_of inputs). Qed.
Lemma filter_spec inputs q checker t : inputs_ok inputs → timestamp_size = 0%nat → candidate inputs = Some t → file_ok (mfd t) → sole_seqno t →
  ∃ briefs out, FilterInputsForCompactionIterator inputs q checker = Ok (briefs, out) ∧ Forall3 (parted (left_out inputs q checker)) inputs briefs out.
Proof.
  intros Hin Ht Hc Hok Hs. unfold FilterInputsForCompactionIterator. rewrite Ht. cbn [Nat.eqb assert_ res_bind]. destruct inputs as [|first others]; [done|]. unfold candidate in Hc. cbn [head mbind option_bind] in Hc.
  rewrite Hc. cbn [deref res_bind]. unfold FileIsStandAloneRangeTombstone. fold (stand_alone t). assert (negb (stand_alone t) || (smallest_seqno t =? largest_seqno t) = true) as ->.
  { destruct (stand_alone t) eqn:E; [|done]. cbn. apply Z.eqb_eq. by apply Hs. }
  cbn [assert_ res_bind]. destruct (stand_alone t) eqn:Ea; [|cbn [negb orb]; rewrite briefs_spec by done; eexists _, _; split; [done|apply parted_none]].
  destruct (DataIsDefinitelyInSnapshot checker (smallest_seqno t) q) eqn:Ed; [|cbn [negb orb]; rewrite briefs_spec by done; eexists _, _; split; [done|apply parted_none]]. cbn [negb orb].
  assert (Hot : inputs_ok others) by (intros i Hi; apply Hin; by right).
  rewrite (map_res_fun _ (λ i, (List.filter (λ f, negb (shadows t f)) (in_files i), List.filter (shadows t) (in_files i)))) by (intros i Hi; apply split_deleted_spec; [done|by apply (files_of others)]).
  cbn [res_bind]. rewrite brief_spec by (apply (files_of (first :: others)); [done|by left]). cbn [res_bind].
  rewrite (map_res_fun _ (λ fs, mfd <$> fs)).
  - cbn [res_bind]. eexists _, _. split; [done|]. constructor; [exists (λ _, false); cbn [negb]; rewrite filter_true, filter_false; split; [done|]; split; [done|]; intros f H%elem_of_nil; done|].
    assert (Hl : ∀ f, shadows t f = true → left_out (first :: others) q checker f) by (intros f Hf; by exists t). revert Hl. generalize (left_out (first :: others) q checker). intros G Hl. clear -Hl. induction others as [|i others IH]; [constructor|]. cbn. constructor; [|apply IH].
    exists (shadows t). split; [done|]. split; [done|]. intros f Hf. apply Hl. by apply list_elem_of_In, List.filter_In in Hf as [_ Hf].
  - intros fs (? & -> & (i & -> & Hi)%list_elem_of_fmap)%list_elem_of_fmap. cbn [fst]. apply brief_spec. apply Forall_forall. intros f Hf. apply list_elem_of_In, List.filter_In in Hf as [Hf _].
    pose proof (files_of others i Hot Hi) as H. rewrite Forall_forall in H. by apply H, list_elem_of_In.
Qed.

(** ** The constructor *)
Definition long_keys (cur : option (bytes * bytes)) : Prop := match cur with None => True | Some (s, l) => (8 ≤ length s)%nat ∧ (8 ≤ length l)%nat end.
Lemma extend_internal_total cur a b : long_keys cur → (8 ≤ length a)%nat → (8 ≤ length b)%nat → ∃ cur', extend_internal cur a b = Ok cur' ∧ long_keys cur'.
Proof.
  intros Hc Ha Hb. destruct cur as [[s l]|]; [|by exists (Some (a, b))]. destruct Hc as [H1 H2]. unfold extend_internal, CompareSlices. rewrite !extract_ukey by done. cbn [res_bind].
  eexists. split; [done|]. cbn. by split; destruct (_ <? _).
Qed.
Lemma over_internal_total ex inputs : ∀ cur, inputs_ok inputs → long_keys cur → ∃ cur', over_inputs extend_internal ex inputs cur = Ok cur' ∧ long_keys cur'.
Proof.
  assert (Hfiles : ∀ fs cur, Forall (λ f, file_ok (mfd f)) fs → long_keys cur → ∃ cur', over_files extend_internal fs cur = Ok cur' ∧ long_keys cur').
  { induction fs as [|f fs IH]; intros cur Hf Hc; cbn [over_files]; [eauto|]. destruct (extend_internal_total cur (smallest f) (largest f) Hc (f_small _ (Forall_inv Hf)) (f_large _ (Forall_inv Hf))) as (c' & -> & Hc').
    apply IH; [by apply Forall_inv_tail in Hf|done]. }
  induction inputs as [|i inputs IH]; intros cur Hin Hc; cbn [over_inputs]; [eauto|]. pose proof (files_of _ i Hin ltac:(by left)) as Hf. assert (Hin' : inputs_ok inputs) by (intros j Hj; apply Hin; by right).
  destruct (bool_decide_reflect (in_files i = [])) as [|Hne]; [by apply IH|]. destruct (bool_decide (Some (in_level i) = ex)); [by apply IH|]. cbn [orb]. destruct (in_level i =? 0)%nat.
  - destruct (Hfiles _ _ Hf Hc) as (c' & -> & Hc'). by apply IH.
  - destruct (in_files i) as [|f l] eqn:E; [done|]. destruct (list.last (f :: l)) as [g|] eqn:Eg; [|by apply last_None in Eg]. cbn [head deref res_bind]. rewrite Forall_forall in Hf.
    destruct (extend_internal_total cur (smallest f) (largest g) Hc (f_small _ (Hf f ltac:(by left))) (f_large _ (Hf g (last_Some_elem_of _ _ Eg)))) as (c' & -> & Hc'). by apply IH.
Qed.
Lemma proximal_total v o a b : ∃ r, EvaluateProximalLevel v o a b = Ok r.
Proof.
  unfold EvaluateProximalLevel. destruct (_ && _); [eauto|]. destruct (Z.eqb_spec (Z.of_nat b) (Z.of_nat (options_num_levels o) - 1)) as [E|]; cbn [negb]; [|eauto]. rewrite (proj2 (Z.ltb_lt _ _)) by lia.
  cbn [assert_ res_bind]. destruct (_ <=? 0); [eauto|]. destruct (_ && _); eauto.
Qed.
(** What [PopulateProximalLevelOutputRange] leaves as it is. *)
Lemma proximal_range c : inputs_ok (inputs_ c) → keep_in_last_level_through_seqno_ c = kMaxSequenceNumber → ∃ c', PopulateProximalLevelOutputRange c = Ok c' ∧
  input_vstorage_ c' = input_vstorage_ c ∧ options_ c' = options_ c ∧ output_level_ c' = output_level_ c ∧ number_levels_ c' = number_levels_ c ∧ inputs_ c' = inputs_ c ∧
  Compaction.bottommost_level_ c' = Compaction.bottommost_level_ c ∧ smallest_user_key_ c' = smallest_user_key_ c ∧ largest_user_key_ c' = largest_user_key_ c ∧ input_levels_ c' = input_levels_ c ∧ filtered_input_levels_ c' = filtered_input_levels_ c.
Proof.
  intros Hin Hk. unfold PopulateProximalLevelOutputRange. destruct (proximal_level_ c) as [pl|]; [|rewrite Hk, Z.eqb_refl; cbn; exists c; done].
  unfold GetBoundaryInternalKeys. set (full := _ && _). destruct (over_internal_total (if full then None else Some (number_levels_ c - 1)%nat) (inputs_ c) None Hin I) as (cur & -> & _). cbn [res_bind].
  destruct (default ([], []) cur) as [s l]. eexists. split; [done|]. done.
Qed.
(** Grouping does not change which files there are. *)
Lemma grouped_inputs inputs inputs' : Forall2 grouped inputs inputs' → in_level <$> inputs' = in_level <$> inputs ∧ in_files <$> inputs' = in_files <$> inputs.
Proof. induction 1 as [|i i' l l' [H1 H2 _] _ [IH1 IH2]]; [done|]. cbn. by rewrite H1, H2, IH1, IH2. Qed.
Lemma grouped_ok inputs inputs' : Forall2 grouped inputs inputs' → inputs_ok inputs → inputs_ok inputs'.
Proof.
  intros Hg Hin i' Hi'. apply list_elem_of_lookup in Hi' as [n Hn]. destruct (Forall2_lookup_r _ _ _ _ _ Hg Hn) as (i & Hi & [H1 H2 _]). rewrite H1, H2. apply Hin. by eapply list_elem_of_lookup_2.
Qed.
Lemma considered_all inputs : considered None inputs = all_files inputs.
Proof. done. Qed.
Lemma grouped_last inputs inputs' : Forall2 grouped inputs inputs' → last_input inputs' = last_input inputs ∧ candidate inputs' = candidate inputs.
Proof. destruct 1 as [|i i' l l' [H1 H2 _] _]; [done|]. unfold last_input, candidate. cbn. by rewrite H1, H2. Qed.
Lemma grouped_beneath v out inputs inputs' f : Forall2 grouped inputs inputs' → beneath v out inputs f → beneath v out inputs' f.
Proof. intros Hg. unfold beneath, run_end. by rewrite (proj1 (grouped_last _ _ Hg)). Qed.
Lemma parted_grouped gone inputs inputs' : Forall2 grouped inputs inputs' → ∀ briefs out, Forall3 (parted gone) inputs' briefs out → Forall3 (parted gone) inputs briefs out.
Proof.
  induction 1 as [|i i' l l' [_ H2 _] _ IH]; intros briefs out H; inversion H; subst; constructor; [|by apply IH]. unfold parted in *. by rewrite <- H2.
Qed.

Record request_ok (v : VersionStorageInfo) (inputs : list CompactionInputFiles) (output_level : nat) (compact_cursor : bytes) (marks : gset Z) : Prop := {
  rq_storage : storage_ok v; rq_inputs : inputs_ok inputs; rq_unset i : i ∈ inputs → boundaries i = []; rq_levels : Sorted Nat.lt (in_level <$> inputs);
  rq_first : is_Some (candidate inputs); rq_distinct : NoDup (numbers (all_files inputs)); rq_free f : f ∈ all_files inputs → number f ∉ marks;
  rq_output : outputs_to v output_level inputs; rq_tombstone f : f ∈ all_files inputs → sole_seqno f; rq_cursor : compact_cursor = [] ∨ (8 ≤ length compact_cursor)%nat }.
Record compaction_ok (v : VersionStorageInfo) (o : Options) (inputs : list CompactionInputFiles) (output_level : nat) (gone : FileMetaData → Prop) (c : Compaction) : Prop := {
  co_storage : input_vstorage_ c = v; co_options : options_ c = o; co_level : output_level_ c = output_level; co_number : number_levels_ c = num_levels_ v;
  co_inputs : Forall2 grouped inputs (inputs_ c); co_keys : tight (all_files inputs) (smallest_user_key_ c) (largest_user_key_ c);
  co_iterated : Forall3 (parted gone) inputs (input_levels_ c) (filtered_input_levels_ c);
  co_bottommost g f u : Compaction.bottommost_level_ c = true → g ∈ all_files inputs → overlaps (Some u) (Some u) (mfd g) = true →
    beneath v output_level inputs f → overlaps (Some u) (Some u) (mfd f) = false }.
Lemma candidate_in inputs t : candidate inputs = Some t → t ∈ all_files inputs.
Proof.
  unfold candidate. destruct inputs as [|i inputs]; [done|]. cbn [head mbind option_bind]. intros H. unfold all_files. cbn [fmap list_fmap concat]. apply elem_of_app. left.
  destruct (in_level i =? 0)%nat; [by apply last_Some_elem_of|by apply head_Some_elem_of].
Qed.
Lemma all_files_ok inputs f : inputs_ok inputs → f ∈ all_files inputs → file_ok (mfd f).
Proof.
  intros Hin Hf. unfold all_files in Hf. apply list_elem_of_In, in_concat in Hf as (fs & Hfs & Hf). apply list_elem_of_In, list_elem_of_fmap in Hfs as (i & -> & Hi). apply list_elem_of_In in Hf.
  pose proof (files_of inputs i Hin Hi) as H. rewrite Forall_forall in H. by apply H.
Qed.
Lemma split_key_total cursor s l (b : bool) : cursor = [] ∨ (8 ≤ length cursor)%nat →
  ∃ r, (if b && negb (length cursor =? 0)%nat then let* u := ExtractUserKey cursor in let* a := uc_CompareWithoutTimestamp u s in let* b := uc_CompareWithoutTimestamp u l in
          Ok (if (0 <? a) && (b <=? 0) then Some cursor else None) else Ok None) = Ok r.
Proof. intros [->|H]; [rewrite andb_false_r; eauto|]. destruct (_ && _); [|eauto]. rewrite extract_ukey by done. cbn [res_bind]. rewrite !Hts. cbn [res_bind]. eauto. Qed.
Lemma input_levels_total inputs q checker t : inputs_ok inputs → timestamp_size = 0%nat → candidate inputs = Some t → sole_seqno t →
  ∃ briefs out, match q with
    | Some q => FilterInputsForCompactionIterator inputs q checker
    | None => let* briefs := map_res (λ i, DoGenerateLevelFilesBrief (in_files i)) inputs in Ok (briefs, replicate (length inputs) [])
    end = Ok (briefs, out) ∧ Forall3 (parted (λ f, ∃ s, q = Some s ∧ left_out inputs s checker f)) inputs briefs out.
Proof.
  intros Hin Ht Hc Hs. destruct q as [q|].
  - destruct (filter_spec inputs q checker t Hin Ht Hc (all_files_ok inputs t Hin (candidate_in _ _ Hc)) Hs) as (briefs & out & E & HP). exists briefs, out. split; [done|].
    eapply Forall3_impl; [done|]. intros i br f (P & H1 & H2 & H3). exists P. split; [done|]. split; [done|]. eauto.
  - rewrite briefs_spec by done. eexists _, _. split; [done|]. apply parted_none.
Qed.
Lemma new_compaction v o inputs output_level target subs grandparents earliest_snapshot checker reason cursor marks : timestamp_size = 0%nat → request_ok v inputs output_level cursor marks →
  ∃ c m, newCompaction v o inputs output_level target subs grandparents earliest_snapshot checker reason cursor marks = Ok (c, m) ∧
    compaction_ok v o inputs output_level (λ f, ∃ q, earliest_snapshot = Some q ∧ left_out inputs q checker f) c ∧ m = list_to_set (numbers (all_files inputs)) ∪ marks.
Proof.
  intros Ht [Hv Hin Hun Hlv [t Hc] Hnd Hfr Hto Hs Hcu]. unfold newCompaction. destruct (head inputs) as [first|] eqn:E0; [|unfold candidate in Hc; by rewrite E0 in Hc]. cbn [deref res_bind].
  destruct (populate_spec inputs Hin Hun) as (inputs' & -> & Hg). cbn [res_bind]. destruct (grouped_inputs _ _ Hg) as [Hgl Hgf]. destruct (grouped_last _ _ Hg) as [Hgb Hgc]. pose proof (grouped_ok _ _ Hg Hin) as Hin'.
  assert (Ha : all_files inputs' = all_files inputs) by (unfold all_files; by rewrite Hgf). pose proof (candidate_in _ _ Hc) as Htin.
  assert (Hto' : outputs_to v output_level inputs') by (unfold outputs_to, run_end; by rewrite Hgb). assert (Hne : considered None inputs' ≠ []) by (rewrite considered_all, Ha; intros H; rewrite H in Htin; by apply elem_of_nil in Htin).
  destruct (bottommost_answer Hts v output_level inputs' Hv Hin' Hne Hto') as (s0 & l0 & bm & _ & Hbm & _). set (ph := _ || _).
  assert (∃ b, (if ph then Ok false else IsBottommostLevel output_level v inputs') = Ok b ∧ (b = true → bm = true)) as (b & -> & Hb) by (destruct ph; [by exists false|by exists bm]). cbn [res_bind].
  assert (∃ p, (if ph then Ok None else EvaluateProximalLevel v o (in_level first) output_level) = Ok p) as (p & ->) by (destruct ph; [eauto|apply proximal_total]). cbn [res_bind].
  unfold MarkFilesBeingCompacted. fold (all_files inputs'). rewrite Ha, mark_spec by done. cbn [res_bind]. rewrite Hgl, bool_decide_true by done. cbn [assert_ res_bind].
  destruct (input_levels_total inputs' earliest_snapshot checker t Hin' Ht ltac:(congruence) (Hs t Htin)) as (briefs & out & -> & Hp). cbn [res_bind].
  destruct (boundary_keys Hts None inputs' Hin' Hne) as (s & l & -> & Htight). cbn [res_bind]. destruct (split_key_total cursor s l (bool_decide (compaction_style o = kCompactionStyleLevel) && round_robin o) Hcu) as (sk & ->).
  cbn [res_bind]. set (c0 := mkCompaction _ _ _ _ _ _ _ _ _ _ _ _ _ _ _ _ _ _ _ _ _ _). destruct (proximal_range c0 Hin' eq_refl) as (c & -> & H1 & H2 & H3 & H4 & H5 & H6 & H7 & H8 & H9 & H10). cbn [res_bind].
  exists c, (list_to_set (numbers (all_files inputs)) ∪ marks). split; [done|]. split; [|done]. constructor; [done..|rewrite H5; done| | |].
  - rewrite H7, H8. cbn [c0 smallest_user_key_ largest_user_key_]. by rewrite considered_all, Ha in Htight.
  - rewrite H9, H10. cbn [c0 input_levels_ filtered_input_levels_]. eapply parted_grouped in Hp; [|exact Hg]. unfold left_out in *. by rewrite Hgc in Hp.
  - intros g f u Hbot Hgin Hu Hf. rewrite H6 in Hbot. cbn in Hbot. rewrite (Hb Hbot) in Hbm. eapply (bottommost_beneath Hts v output_level inputs' g f u); try done; [by rewrite considered_all, Ha|by eapply grouped_beneath].
Qed.
End setup.

(** ** The compaction as a whole *)
Section whole.
Context `{UL : ComparatorLaws} {TC : TsComparator C} (Hts : ∀ a b, uc_CompareWithoutTimestamp a b = Ok (Compare a b)).
Notation has u f := (overlaps (Some u) (Some u) (mfd f)).
(** The answers for a list of keys, with the pointers carried along. *)
Fixpoint ask (c : Compaction) (keys : list bytes) (level_ptrs : list nat) : res (list bool) :=
  match keys with
  | [] => Ok []
  | u :: keys =>
      let* (b, level_ptrs) := KeyNotExistsBeyondOutputLevel c u level_ptrs in
      let* rest := ask c keys level_ptrs in Ok (b :: rest)
  end.
Lemma ask_spec c keys ptrs : storage_ok (input_vstorage_ c) → StronglySorted (λ u u', Compare u u' ≤ 0) keys → Forall (λ u, ptrs_for c u ptrs) keys → ask c keys ptrs = Ok (not_below c <$> keys).
Proof.
  intros Hv Hs. revert ptrs. pose proof (real_proxy Hts c Hv) as HP. induction Hs as [|u keys Hs IH Hu]; intros ptrs Hp; [done|]. cbn [ask].
  destruct (beyond_level _ _ _ HP u ptrs (Forall_inv Hp)) as (ptrs' & E & Hp'). cbn [RealCompaction CompactionIter.KeyNotExistsBeyondOutputLevel] in E. rewrite E. cbn [res_bind].
  rewrite IH; [done|]. eapply Forall_impl; [done|]. intros u' Hle. by eapply (ptrs_mono _ _ _ HP u u').
Qed.
End whole.

(** C21: the levels below are searched with one pointer per level that only moves
    forward.  For keys asked in increasing order, from fresh pointers, every answer
    of [KeyNotExistsBeyondOutputLevel] is what a scan of all files of the deeper levels
    gives: the compaction is bottommost, or, in a levelled compaction out of level 0,
    no file of a deeper level has the key in its range. *)
Theorem key_search_equals_scan `{UL : ComparatorLaws} {TC : TsComparator C} c keys : (∀ a b, uc_CompareWithoutTimestamp a b = Ok (Compare a b)) → storage_ok (input_vstorage_ c) →
  StronglySorted (λ u u', Compare u u' ≤ 0) keys → ask c keys (replicate (number_levels_ c) 0%nat) = Ok (not_below c <$> keys).
Proof. intros Hts Hv Hs. apply ask_spec; [done|done|done|]. apply Forall_true. intros u. exact (ptrs_start _ _ _ (real_proxy Hts c Hv) u). Qed.

(** C19: the constructor.  On inputs that a picker may choose (sorted levels, files in
    order, none of them being compacted already) no assertion fails.  Exactly the input
    files are newly marked, every input file belongs to the unit of the neighbours it
    shares boundary keys with, the boundary keys are those of the inputs, only files
    that a stand-alone range tombstone of the inputs deletes for all snapshots are
    left out, and if the compaction is bottommost no file of an older sorted run has
    a key that an input file can have. *)
Theorem compaction_constructed `{UL : ComparatorLaws} {TC : TsComparator C} v o inputs output_level target subs grandparents earliest_snapshot checker reason cursor marks :
  (∀ a b, uc_CompareWithoutTimestamp a b = Ok (Compare a b)) → timestamp_size = 0%nat → request_ok v inputs output_level cursor marks →
  ∃ c m, newCompaction v o inputs output_level target subs grandparents earliest_snapshot checker reason cursor marks = Ok (c, m) ∧
    compaction_ok v o inputs output_level (λ f, ∃ q, earliest_snapshot = Some q ∧ left_out inputs q checker f) c ∧
    m = list_to_set (numbers (all_files inputs)) ∪ marks ∧ MarkFilesBeingCompacted false (inputs_ c) m = Ok marks.
Proof.
  intros Hts Ht Hr. destruct (new_compaction Hts v o inputs output_level target subs grandparents earliest_snapshot checker reason cursor marks Ht Hr) as (c & m & E & Hc & Hm).
  exists c, m. split; [done|]. split; [done|]. split; [done|]. destruct (mark_unmark inputs marks (rq_distinct _ _ _ _ _ Hr) (rq_free _ _ _ _ _ Hr)) as (m' & _ & Em & Hu).
  subst. unfold MarkFilesBeingCompacted in *. by rewrite (proj2 (grouped_inputs _ _ (co_inputs _ _ _ _ _ _ Hc))).
Qed.


(** ** An example: a file of level 0 and one of level 1, above one of level 2 *)
Definition sample_file (n : Z) (lo hi : bytes) : FileMetaData :=
  mkFile n 100 0 10 (encoded (mkParsed lo 10 kTypeValue)) (encoded (mkParsed hi 0 kTypeValue)) 4 0 0 0 1.
Definition upper_file : FileMetaData := sample_file 7 [Byte.x61] [Byte.x64].
Definition middle_file : FileMetaData := sample_file 8 [Byte.x62] [Byte.x63].
Definition lower_file : FileMetaData := sample_file 9 [Byte.x64] [Byte.x65].
Definition sample_storage : VersionStorageInfo := mkStorage 3 3 [[upper_file]; [middle_file]; [lower_file]] [[mfd upper_file]; [mfd middle_file]; [mfd lower_file]].
Definition sample_options : Options := mkOptions kCompactionStyleLevel false 3 0 1 false false false.
Definition sample_inputs : list CompactionInputFiles := [mkInputs 0 [upper_file] []; mkInputs 1 [middle_file] []].
Abbreviation sample_new := (newCompaction sample_storage sample_options sample_inputs 1 1000 1 [] (Some 5) None kLevelL0FilesNum [] {[3]}).
Lemma sample_file_ok f : f ∈ [upper_file; middle_file; lower_file] → file_ok (mfd f).
Proof. intros [->|[->|[->|[]%elem_of_nil]%elem_of_cons]%elem_of_cons]%elem_of_cons; (constructor; [vm_compute; lia|vm_compute; lia|done|done|vm_compute; discriminate|vm_compute; discriminate]). Qed.
Lemma single_level f : f ∈ [upper_file; middle_file; lower_file] → level_ok (mfd <$> [f]).
Proof. intros H. constructor; [constructor; [by apply sample_file_ok|constructor]|repeat constructor]. Qed.
Lemma empty_level : level_ok [].
Proof. repeat constructor. Qed.
Lemma sample_storage_ok : storage_ok sample_storage.
Proof.
  constructor.
  - by intros [|[|[|level]]].
  - constructor; [apply sample_file_ok; by left|constructor].
  - intros [|[|[|level]]] H; [lia|apply single_level; right; by left|apply single_level; right; right; by left|apply empty_level].
  - intros [|[|[|level]]] H; cbn in H; [lia..|done].
Qed.
Lemma sample_request : request_ok sample_storage sample_inputs 1 [] {[3]}.
Proof.
  constructor.
  - apply sample_storage_ok.
  - intros i [->|[->|[]%elem_of_nil]%elem_of_cons]%elem_of_cons; cbn [in_level Nat.eqb in_files]; [constructor; [apply sample_file_ok; by left|constructor]|apply single_level; right; by left].
  - intros i [->|[->|[]%elem_of_nil]%elem_of_cons]%elem_of_cons; done.
  - repeat constructor.
  - by eexists.
  - apply (bool_decide_unpack _). vm_compute. done.
  - intros f [->|[->|[]%elem_of_nil]%elem_of_cons]%elem_of_cons; cbn; rewrite elem_of_singleton; done.
  - intros H. done.
  - intros f [->|[->|[]%elem_of_nil]%elem_of_cons]%elem_of_cons; intros H; vm_compute in H; done.
  - by left.
Qed.
Lemma key_search_equals_scan_witness : ∃ c m, sample_new = Ok (c, m) ∧ ask c [[Byte.x61]; [Byte.x64]; [Byte.x70]] (replicate 3 0%nat) = Ok [true; false; true].
Proof.
  eexists _, _. split; [vm_compute; reflexivity|]. etransitivity; [apply (key_search_equals_scan (C := BytewiseComparator) (UL := _)); [done|apply sample_storage_ok|]|vm_compute; reflexivity].
  repeat constructor; vm_compute; discriminate.
Defined.
Lemma compaction_constructed_witness : ∃ c m, sample_new = Ok (c, m) ∧ MarkFilesBeingCompacted false (inputs_ c) m = Ok {[3]} ∧ Compaction.bottommost_level_ c = false.
Proof.
  destruct (compaction_constructed (C := BytewiseComparator) (TC := no_ts) sample_storage sample_options sample_inputs 1 1000 1 [] (Some 5) None kLevelL0FilesNum [] {[3]} (λ _ _, eq_refl) eq_refl sample_request) as (c & m & E & _ & _ & Hm).
  exists c, m. split; [exact E|]. split; [exact Hm|]. vm_compute in E. by injection E as <- _.
Defined.
