(* ===== verification/CompactionMerge.v ===== *)
(** * A compaction of sorted runs

    The two iterators of a compaction job together: the merging iterator reads the
    sorted runs, the compaction iterator reads the merged stream, and the job writes
    what it lets through.  The runs are given by the laws of [MergeIterThm], so the
    theorem holds for every kind of run. *)
From S2P Require Import Prelude Bitfield Slice Coding Comparator DbFormat Heap MergeIter MergeIterThm VectorIter CompactionIter CompactionRef CompactionSim CompactionThm.
Local Open Scope Z_scope.

(** ** Reading without an order: the newest version that the snapshot sees *)
Definition newest `{UC : Comparator} (q : Z) (u : bytes) (recs : list kv) (answer : option (Z * bytes)) : Prop :=
  (∃ e, e ∈ recs ∧ sees q u e = true ∧ (∀ e', e' ∈ recs → sees q u e' = true → seq_of e' ≤ seq_of e) ∧ answer = if is_value e then Some (type_of e, e.2) else None) ∨
  (∀ e, e ∈ recs → sees q u e = false) ∧ answer = None.

Section order.
Context `{UL : ComparatorLaws}.
Lemma read_newest q u l : StronglySorted newer l → newest q u l (read_at q u l).
Proof.
  induction 1 as [|a l _ IH Ha]; [right; split; [by intros e ?%elem_of_nil|done]|]. cbn [read_at]. destruct (sees q u a) eqn:Es.
  - left. exists a. split; [by left|]. split; [done|]. split; [|done]. intros e [->|He]%elem_of_cons Hs; [done|]. rewrite Forall_forall in Ha. specialize (Ha e He). unfold newer in Ha.
    unfold sees in Es, Hs. apply andb_true_iff in Es as [Ea%same_iff _], Hs as [Ee%same_iff _]. apply Z.lt_le_incl, Ha. eapply Compare_zero_trans; [|exact Ee]. by apply Compare_zero_sym.
  - destruct IH as [(e & He & Hs & Hm & ->)|[Hn ->]].
    + left. exists e. split; [by right|]. split; [done|]. split; [|done]. intros e' [->|He']%elem_of_cons Hs'; [congruence|by apply Hm].
    + right. split; [|done]. by intros e [->|He]%elem_of_cons; [|apply Hn].
Qed.
Lemma newest_perm q u l l' answer : l ≡ₚ l' → newest q u l answer → newest q u l' answer.
Proof.
  intros Hp. unfold newest. by setoid_rewrite Hp.
Qed.
(** Sorted by internal key: by user key, the newest version first. *)
Definition key_sorted : list kv → Prop := StronglySorted (λ a b, CompareParsed a.1 b.1 ≤ 0).
Lemma ordered_sorted top l : ordered top l → key_sorted l.
Proof.
  intros [Hu Hn _ _]. unfold key_sorted. induction l as [|a l IH]; [constructor|]. apply StronglySorted_inv in Hu as [Hu Ha], Hn as [Hn Hb]. constructor; [by apply IH|].
  rewrite Forall_forall in *. intros b Hin. specialize (Ha b Hin). specialize (Hb b Hin). unfold user_le, newer, user_of, seq_of in *. apply CompareParsed_le. lia.
Qed.
Lemma sorted_once l l' top : ordered top l → key_sorted l' → l' ≡ₚ l → l' = l.
Proof.
  intros Ho Hs Hp. apply (StronglySorted_unique_strong (λ a b, CompareParsed a.1 b.1 ≤ 0)); [|done|by eapply ordered_sorted|done].
  intros a b Ha Hb H1 H2. rewrite Hp in Ha. pose proof (CompareParsed_opp a.1 b.1). apply CompareParsed_le in H1, H2. pose proof (Compare_opp (user_key a.1) (user_key b.1)).
  assert (E : Compare (user_of a) (user_of b) = 0 ∧ Compare (user_of b) (user_of a) = 0 ∧ seq_of a = seq_of b) by (unfold user_of, seq_of; lia). destruct E as (E1 & E2 & E3).
  apply list_elem_of_lookup_1 in Ha as (i & Hi), Hb as (j & Hj). pose proof (ord_newer _ _ Ho) as Hn. destruct (Nat.lt_trichotomy i j) as [Hlt|[->|Hlt]]; [|congruence|].
  - pose proof (sorted_lookup _ _ _ _ _ _ Hn Hi Hj Hlt E1). lia.
  - pose proof (sorted_lookup _ _ _ _ _ _ Hn Hj Hi Hlt E2). lia.
Qed.
End order.

Section job.
Context `{UL : ComparatorLaws} {TC : TsComparator C} (c : Settings) (ShouldDelete : bytes → bool) (HasOperator : bool) (MergeUntil : list Entry → Z → bool → MergeAnswer).
Context (blob_gc : ParsedInternalKey → bytes → Status * (Z * bytes)) (canceled down : nat → bool) (status_of : MergeIter.Status → Status).
Context {It R : Type} `{TO : !TombOps R} `{IO : !IterOps It R}.
Definition read_entry (e : bytes * bytes * bool) : Entry := let '(k, v, b) := e in mkEntry k v b.
(** The job over sorted runs: the merged stream goes through the compaction iterator. *)
Definition compact_runs (fuel n : nat) (s : CMI It R) : res (list (bytes * bytes) * CMI It R * CompactionIterator) :=
  let* s := MergeIter.SeekToFirst fuel s in
  let* (stream, s') := read_all n fuel s in
  let* i := newCompactionIterator c (read_entry <$> stream) in
  let* i := SeekToFirst c ShouldDelete HasOperator MergeUntil blob_gc canceled down (status_of (MergeIter.status_ s')) i in
  let* (out, i) := collect c ShouldDelete HasOperator MergeUntil blob_gc canceled down (status_of (MergeIter.status_ s')) (S (length stream)) i in
  Ok (out, s', i).
Lemma compact_merged fuel n s s0 s' ks : MergeIter.SeekToFirst fuel s = Ok s0 → read_all n fuel s0 = Ok (raw <$> ks, s') → Forall (λ e, e.2 = false) ks →
  compact_runs fuel n s =
    (let* (out, i) := run c ShouldDelete HasOperator MergeUntil blob_gc canceled down (status_of (MergeIter.status_ s')) ks.*1 in Ok (out, s', i)).
Proof.
  intros E0 E1 Hp. unfold compact_runs, run. rewrite E0. cbn [res_bind]. rewrite E1. cbn [res_bind]. rewrite !length_fmap.
  assert (read_entry <$> (raw <$> ks) = enc <$> ks.*1) as ->.
  { clear -Hp. induction Hp as [|[[k v] b] ks Hb _ IH]; [done|]. cbn in Hb |- *. by rewrite Hb, IH. }
  destruct (newCompactionIterator _ _) as [i|]; [|done]. cbn [res_bind]. by destruct (SeekToFirst _ _ _ _ _ _ _ _ i).
Qed.
End job.
(** The records at which the runs are positioned by a seek to their first keys. *)
Definition held `{UC : Comparator} {It R} `{TO : !TombOps R} `{IO : !IterOps It R} `{RL : !RunLaws It R} (s : CMI It R) : list (kv * bool) :=
  concat (run_contents <$> (sought_run it_seek_first rd_seek_first <$> runs s)).

(** C13: a compaction of sorted runs is invisible to every reader.  Any number of runs
    of point records is merged and compacted.  Whatever run a record is in, arranged
    by key and newest version first the records are a history: their versions are newer
    than what is below, and single deletions keep their contract.  Then no assertion
    of the merging iterator or of the compaction iterator fails, and unless the merging
    iterator reports an error the job ends with status OK, and a live reader
    that looks into the written records first and then below finds for every key the newest
    version that it sees among all records of the runs and below. *)
Theorem compaction_of_runs_preserves_reads `{UL : ComparatorLaws} {TC : TsComparator C} {It R : Type} `{TO : !TombOps R} `{IO : !IterOps It R} `{RL : !RunLaws It R}
    c not_below ptrs_for top ShouldDelete HasOperator MergeUntil blob_gc canceled down (status_of : MergeIter.Status → Status) (s : CMI It R) (fuel n : nat) l below :
  settings_ok c top ShouldDelete blob_gc canceled down (status_of None) → proxy_fits c not_below ptrs_for →
  length (tombstone_str s) = length (children_ s) → length (range_tombstone_iters_ s) = length (children_ s) → (∀ run, run ∈ runs s → MergeIterThm.opened run.1 run.2) →
  (sum_list_with (λ run, length (points run.1)) (sought_run it_seek_first rd_seek_first <$> runs s) < fuel)%nat → (length l < n)%nat →
  held s ≡ₚ (λ e, (e, false)) <$> l → history top l below → (∀ e u, e ∈ l → same u e = true → gone c not_below u = true → versions u below = []) →
  (∃ s0 stream s', MergeIter.SeekToFirst fuel s = Ok s0 ∧ read_all n fuel s0 = Ok (stream, s') ∧
    (MergeIter.status_ s' = None → ∃ out i, compact_runs c ShouldDelete HasOperator MergeUntil blob_gc canceled down status_of fuel n s = Ok (wire <$> out, s', i) ∧
      CompactionIter.status_ i = OK ∧ ∀ q u, live (snapshots_ c) top q → newest q u ((held s).*1 ++ below) (read_at q u (out ++ below)))).
Proof.
  intros Hok HP Hl1 Hl2 Hop Hf Hn Hheld Hh Hg.
  destruct (merged_stream s fuel n Hl1 Hl2 Hop Hf) as (s0 & ks & s' & E0 & E1 & Hsort & _ & Hp & Hall); fold (held s) in *; [by rewrite Hheld, length_fmap|].
  exists s0, (raw <$> ks), s'. split; [done|]. split; [done|]. intros Hs. specialize (Hall Hs).
  assert (Hks : ks = (λ e, (e, false)) <$> ks.*1).
  { assert (Hb : Forall (λ e, e.2 = false) ks) by (rewrite <- Hall, Hheld; apply Forall_fmap, Forall_true; done). clear -Hb. induction Hb as [|[k b] ks E _ IH]; [done|]. cbn in *. by rewrite E, <- IH. }
  assert (E : ks.*1 = l).
  { eapply sorted_once; [apply Hh| |].
    - unfold key_sorted. clear -Hsort. induction Hsort as [|a ks _ IH Ha]; cbn; constructor; [done|]. by apply Forall_fmap.
    - rewrite <- Hall, Hheld, <- list_fmap_compose. by rewrite list_fmap_id. }
  rewrite (compact_merged c ShouldDelete HasOperator MergeUntil blob_gc canceled down status_of fuel n s s0 s' ks E0 E1), E; [|rewrite Hks; apply Forall_fmap, Forall_true; done].
  rewrite Hs. destruct (run_reads c not_below ptrs_for top ShouldDelete HasOperator MergeUntil blob_gc canceled down (status_of None) Hok HP l below Hh Hg) as (out & i & -> & Hi & Hr).
  exists out, i. split; [done|]. split; [done|]. intros q u Hq. rewrite (Hr q u Hq). eapply newest_perm; [|apply read_newest, Hh].
  by rewrite Hall, E.
Qed.

(** ** An example: the records of the sample in two sorted runs *)
Definition vector_of (es : list kv) : VectorIterator := mkVec (encoded <$> es.*1) es.*2 (Z.of_nat (length es)) (seq 0 (length es)).
Definition new_run : list kv :=
  [rec Byte.x61 9 kTypeSingleDeletion []; rec Byte.x62 7 kTypeValue [Byte.x02]; rec Byte.x63 6 kTypeDeletion []; rec Byte.x64 10 kTypeSingleDeletion []].
Definition old_run : list kv :=
  [rec Byte.x61 8 kTypeValue [Byte.x01]; rec Byte.x62 4 kTypeValue [Byte.x03]; rec Byte.x62 3 kTypeValue [Byte.x04]; rec Byte.x63 2 kTypeValue [Byte.x05]].
Definition two_runs : CMI VectorIterator TombList :=
  mkCMI [mkWrapper (vector_of new_run) false no_result; mkWrapper (vector_of old_run) false no_result] [[]; []] [None; None] None None (mkHeap [] None).
Lemma two_runs_opened : ∀ run, run ∈ runs two_runs → MergeIterThm.opened (C := VectorIterator) (R := TombList) run.1 run.2.
Proof.
  assert (Hv : ∀ es, es ∈ [new_run; old_run] → vec_ok (vector_of es)).
  { intros es [->|[->|[]%not_elem_of_nil]%elem_of_cons]%elem_of_cons; (split; [|split; [|by vm_compute]]).
    all: try (apply Forall_forall; intros i Hi; repeat (apply elem_of_cons in Hi as [->|Hi]; [eexists; split; [reflexivity|]; by vm_compute|]); by apply not_elem_of_nil in Hi).
    all: repeat constructor; vm_compute; congruence. }
  intros run Hrun. unfold runs, two_runs in Hrun. cbn [children_ range_tombstone_iters_ zip_with iter_] in Hrun.
  apply elem_of_cons in Hrun as [->|[->|[]%not_elem_of_nil]%elem_of_cons]; (split; [apply Hv; set_solver|done]).
Qed.
Lemma two_runs_held : held two_runs ≡ₚ (λ e, (e, false)) <$> sample.
Proof.
  assert (held two_runs = (λ e, (e, false)) <$> new_run ++ old_run) as -> by (vm_compute; reflexivity). apply fmap_Permutation. unfold new_run, old_run, sample. cbn [app]. solve_Permutation.
Qed.
Lemma compaction_of_runs_preserves_reads_witness : ∃ out s i,
  compact_runs one_snapshot (λ _, false) false (λ _ _ _, mkMerge None [] [] 0 None) (λ k v, (OK, (type k, v))) (λ _, false) (λ _, false) (λ _, OK) 9 9 two_runs = Ok (wire <$> out, s, i) ∧
  CompactionIter.status_ i = OK ∧ newest 5 [Byte.x62] ((held two_runs).*1 ++ sample_below) (read_at 5 [Byte.x62] (out ++ sample_below)).
Proof.
  destruct (compaction_of_runs_preserves_reads (C := BytewiseComparator) (TC := no_ts) one_snapshot (λ _, false) (λ _ _, True) 10 (λ _, false) false (λ _ _ _, mkMerge None [] [] 0 None)
    (λ k v, (OK, (type k, v))) (λ _, false) (λ _, false) (λ _, OK) two_runs 9 9 sample sample_below sample_settings sample_proxy eq_refl eq_refl two_runs_opened ltac:(vm_compute; lia) ltac:(vm_compute; lia)
    two_runs_held sample_history ltac:(done)) as (s0 & stream & s' & E0 & E1 & H).
  assert (Hs : MergeIter.status_ s' = None).
  { assert (E : (let* s0 := MergeIter.SeekToFirst 9 two_runs in let* (_, s) := read_all 9 9 s0 in Ok (MergeIter.status_ s)) = Ok None) by (vm_compute; reflexivity).
    rewrite E0 in E. cbn [res_bind] in E. rewrite E1 in E. by injection E. }
  destruct (H Hs) as (out & i & E & Hi & Hr). exists out, s', i. split; [exact E|]. split; [exact Hi|]. apply Hr. left. apply elem_of_cons. by left.
Defined.
