(* ===== verification/OptionText.v ===== *)
(** * The text form of options (rocksdb [options/options_helper.cc], [util/string_util.cc],
    [util/slice.cc])

    A struct is written as [name=value;name=value;], a nested value in braces, strings
    as hexadecimal digits.  This file models the scanners of that text, down to
    characters and positions, and shows how they split what the writers produce. *)
From S2P Require Import Prelude CppString Slice.
Local Open Scope Z_scope.

#[global] Instance byte_countable : Countable byte := inj_countable' b2z z2b z2b_b2z.

Definition c_open : byte := Byte.x7b.
Definition c_close : byte := Byte.x7d.
Definition c_semi : byte := Byte.x3b.
Definition c_eq : byte := Byte.x3d.
Definition c_colon : byte := Byte.x3a.
Definition c_escape : byte := Byte.x5c.
Definition c_dot : byte := Byte.x2e.

(** ** [std::string] with positions; [None] is [npos] *)
Definition find_from (c : byte) (s : bytes) (pos : nat) : option nat := Nat.add pos <$> find c (drop pos s).
Fixpoint find_any (cs s : bytes) : option nat :=
  match s with [] => None | x :: s => if existsb (Byte.eqb x) cs then Some 0%nat else S <$> find_any cs s end.
Definition find_first_of (cs s : bytes) (pos : nat) : option nat := Nat.add pos <$> find_any cs (drop pos s).
Definition substr (s : bytes) (pos n : nat) : bytes := take n (drop pos s).
(** [value.c_str()] ends at the first zero. *)
Fixpoint c_str (s : bytes) : bytes := match s with b :: s => if Byte.eqb b Byte.x00 then [] else b :: c_str s | [] => [] end.

(** [trim]: either end moves only while the other is not reached. *)
Fixpoint trim_front (s : bytes) : bytes :=
  match s with a :: ((_ :: _) as s') => if is_space a then trim_front s' else s | _ => s end.
Definition trim (s : bytes) : bytes := rev (trim_front (rev (trim_front s))).
Fixpoint spaces (s : bytes) : nat := match s with b :: s => if is_space b then S (spaces s) else 0%nat | [] => 0%nat end.
Definition skip_from (s : bytes) (pos : nat) : nat := (pos + spaces (drop pos s))%nat.

Definition EndsWith (s pattern : bytes) : bool :=
  if (length pattern <=? length s)%nat then slice_compare (drop (length s - length pattern) s) pattern =? 0 else false.
Definition StartsWith (s pattern : bytes) : bool := slice_compare (take (length pattern) s) pattern =? 0.

Definition UnescapeChar (c : byte) : byte := if Byte.eqb c Byte.x72 then Byte.x0d else if Byte.eqb c Byte.x6e then Byte.x0a else c.
Fixpoint unescape (escaped : bool) (s : bytes) : bytes :=
  match s with
  | [] => []
  | c :: s => if escaped then UnescapeChar c :: unescape false s else if Byte.eqb c c_escape then unescape true s else c :: unescape false s
  end.
Definition UnescapeOptionString (s : bytes) : bytes := unescape false s.

(** ** Numbers; [None] is a thrown exception *)
Fixpoint digits (s : bytes) : nat := match s with b :: s => if is_digit b then S (digits s) else 0%nat | [] => 0%nat end.
(** What [strtol] and its kin read in base ten: the sign, the magnitude, the end. *)
Definition scan_number (s : bytes) : option (bool * Z * nat) :=
  let sp := spaces s in
  let s := drop sp s in
  let '(neg, sg) := match s with b :: _ => if Byte.eqb b Byte.x2d then (true, 1%nat) else if Byte.eqb b Byte.x2b then (false, 1%nat) else (false, 0%nat) | [] => (false, 0%nat) end in
  let s := drop sg s in
  match digits s with O => None | n => Some (neg, parse_dec 0 s, (sp + sg + n)%nat) end.
Definition stoull (s : bytes) : option (Z * nat) :=
  match scan_number s with
  | Some (neg, m, e) => if m <? 2 ^ 64 then Some (if neg then u64 (- m) else m, e) else None
  | None => None
  end.
Definition stoi_at (s : bytes) : option (Z * nat) :=
  match scan_number s with
  | Some (neg, m, e) => let v := if neg then - m else m in if (- 2 ^ 31 <=? v) && (v <? 2 ^ 31) then Some (v, e) else None
  | None => None
  end.
Definition s32 (z : Z) : Z := (z + 2 ^ 31) mod 2 ^ 32 - 2 ^ 31.
(** The suffix k, m, g or t, in either case. *)
Definition suffix (c : byte) (k m g t : Z) : Z :=
  let either x y := Byte.eqb c x || Byte.eqb c y in
  if either Byte.x6b Byte.x4b then k else if either Byte.x6d Byte.x4d then m else if either Byte.x67 Byte.x47 then g else if either Byte.x74 Byte.x54 then t else 0.
Definition ParseUint64 (value : bytes) : option Z :=
  match stoull (c_str value) with
  | Some (num, endchar) => Some (match value !! endchar with Some c => u64 (Z.shiftl num (suffix c 10 20 30 40)) | None => num end)
  | None => None
  end.
Definition ParseUint8 (value : bytes) : option Z :=
  match ParseUint64 value with Some num => if Z.shiftr num 8 =? 0 then Some num else None | None => None end.
Definition ParseInt (value : bytes) : option Z :=
  match stoi_at (c_str value) with
  | Some (num, endchar) => Some (match value !! endchar with Some c => s32 (Z.shiftl num (suffix c 10 20 30 0)) | None => num end)
  | None => None
  end.
Definition ParseBoolean (value : bytes) : option bool :=
  if decide (value = str "true" ∨ value = str "1") then Some true else if decide (value = str "false" ∨ value = str "0") then Some false else None.

(** ** Hexadecimal strings *)
Definition toHex (v : Z) : byte := if v <=? 9 then z2b (48 + v) else z2b (65 + v - 10).
Definition fromHex (b : byte) : Z :=
  let c := b2z b in
  let c := if (97 <=? c) && (c <=? 102) then c - 32 else c in
  if (c <? 48) || ((57 <? c) && ((c <? 65) || (70 <? c))) then -1 else if c <=? 57 then c - 48 else c - 65 + 10.
Definition ToHexString (s : bytes) : bytes := concat ((λ b, [toHex (Z.shiftr (b2z b) 4); toHex (Z.land (b2z b) 0xf)]) <$> s).
Fixpoint decode_hex (s : bytes) : bool * bytes :=
  match s with
  | a :: b :: s =>
      if fromHex a <? 0 then (false, []) else if fromHex b <? 0 then (false, [])
      else let (r, out) := decode_hex s in (r, z2b (Z.lor (Z.shiftl (fromHex a) 4) (fromHex b)) :: out)
  | _ => (true, [])
  end.
(** The result string is kept on an odd length, and holds what was decoded on a bad digit. *)
Definition DecodeHex (s result : bytes) : bool * bytes := if Nat.odd (length s) then (false, result) else decode_hex s.

(** ** Tokens *)
(** Where the brace that closes [count] open ones is. *)
Fixpoint match_brace (count : nat) (s : bytes) : option nat :=
  match s with
  | [] => None
  | b :: s =>
      if Byte.eqb b c_open then S <$> match_brace (S count) s
      else if Byte.eqb b c_close then match count with S (S n) => S <$> match_brace (S n) s | _ => Some 0%nat end
      else S <$> match_brace count s
  end.
(** The end of the token and the token; [None] is [InvalidArgument]. *)
Definition NextToken (opts : bytes) (delimiter : byte) (pos : nat) : option (option nat * bytes) :=
  let pos := skip_from opts pos in
  match opts !! pos with
  | None => Some (None, [])
  | Some b =>
      if Byte.eqb b c_open then
        match match_brace 1 (drop (S pos) opts) with
        | None => None
        | Some n =>
            let token := trim (substr opts (S pos) n) in
            let pos := skip_from opts (S pos + n + 1) in
            match opts !! pos with
            | Some c => if Byte.eqb c delimiter then Some (Some pos, token) else None
            | None => Some (Some pos, token)
            end
        end
      else
        match find_from delimiter opts pos with
        | None => Some (None, trim (drop pos opts))
        | Some e => Some (Some e, trim (substr opts pos (e - pos)))
        end
  end.

(** The brackets around the whole text. *)
Fixpoint strip (fuel : nat) (opts : bytes) : bytes :=
  match fuel with
  | O => opts
  | S fuel =>
      if (2 <? length opts)%nat && bool_decide (opts !! 0%nat = Some c_open) && bool_decide (opts !! (length opts - 1)%nat = Some c_close)
      then strip fuel (trim (substr opts 1 (length opts - 2))) else opts
  end.
(** [None] is [InvalidArgument]. *)
Fixpoint map_loop (fuel : nat) (opts : bytes) (pos : nat) (m : gmap bytes bytes) : res (option (gmap bytes bytes)) :=
  match fuel with
  | O => Fail OutOfFuel
  | S fuel =>
      if (pos <? length opts)%nat then
        match find_first_of [c_eq; c_open; c_close; c_semi] opts pos with
        | None => Ok None
        | Some eq_pos =>
            if bool_decide (opts !! eq_pos = Some c_eq) then
              let key := trim (substr opts pos (eq_pos - pos)) in
              if bool_decide (key = []) then Ok None
              else match NextToken opts c_semi (S eq_pos) with
                   | None => Ok None
                   | Some (None, value) => Ok (Some (<[key := value]> m))
                   | Some (Some pos, value) => map_loop fuel opts (S pos) (<[key := value]> m)
                   end
            else Ok None
        end
      else Ok (Some m)
  end.
(** Each round of either loop shortens what is left: the length is enough fuel. *)
Definition StringToMap (opts_str : bytes) (m : gmap bytes bytes) : res (option (gmap bytes bytes)) :=
  let opts := strip (length opts_str) (trim opts_str) in map_loop (S (length opts)) opts 0 m.

(** ** What the writers produce *)
(** Characters that are neither trimmed nor escaped, and those of plain values. *)
Definition calm (b : byte) : bool := negb (is_space b) && negb (Byte.eqb b c_escape).
Definition word_char (b : byte) : bool := calm b && negb (existsb (Byte.eqb b) [c_eq; c_open; c_close; c_semi]).
Abbreviation quiet s := (forallb calm s = true).
Abbreviation word s := (forallb word_char s = true).
(** Braces open and close in [s] without effect on the count. *)
Definition balanced (s : bytes) : Prop := ∀ n t, match_brace (S n) (s ++ t) = Nat.add (length s) <$> match_brace (S n) t.
(** A value as it is written, and the token that is read from it. *)
Inductive valued : bytes → bytes → Prop :=
  | valued_word w : word w → valued w w
  | valued_nested w : quiet w → balanced w → valued (c_open :: w ++ [c_close]) w.

Lemma word_calm b : word_char b = true → calm b = true.
Proof. intros [? _]%andb_true_iff. done. Qed.
Lemma forallb_impl {A} (f g : A → bool) l : (∀ x, f x = true → g x = true) → forallb f l = true → forallb g l = true.
Proof. rewrite !forallb_forall. auto. Qed.
Lemma word_quiet s : word s → quiet s.
Proof. apply forallb_impl, word_calm. Qed.
Lemma calm_space b : calm b = true → is_space b = false.
Proof. intros [?%negb_true_iff _]%andb_true_iff. done. Qed.
Lemma eqb_refl b : Byte.eqb b b = true.
Proof. by apply Byte.byte_dec_lb. Qed.
Lemma eqb_neq a b : Byte.eqb a b = false ↔ a ≠ b.
Proof. split; [intros H ->; by rewrite eqb_refl in H|]. intros H. destruct (Byte.eqb a b) eqn:E; [|done]. by apply Byte.byte_dec_bl in E. Qed.

Lemma trim_front_quiet s : quiet s → trim_front s = s.
Proof. destruct s as [|a [|b s]]; intros H; [done..|]. cbn [trim_front]. cbn [forallb] in H. apply andb_true_iff in H as [H%calm_space _]. by rewrite H. Qed.
Lemma quiet_rev s : quiet s → quiet (rev s).
Proof. rewrite !forallb_forall. intros H b Hb%in_rev. auto. Qed.
Lemma trim_quiet s : quiet s → trim s = s.
Proof. intros H. unfold trim. rewrite (trim_front_quiet s) by done. rewrite trim_front_quiet by by apply quiet_rev. apply rev_involutive. Qed.
Lemma spaces_quiet s : quiet s → spaces s = 0%nat.
Proof. destruct s as [|a s]; intros H; [done|]. cbn [forallb spaces] in *. apply andb_true_iff in H as [H%calm_space _]. by rewrite H. Qed.
Lemma unescape_quiet s : quiet s → UnescapeOptionString s = s.
Proof.
  unfold UnescapeOptionString. induction s as [|a s IH]; intros H; [done|]. cbn [forallb unescape] in *. apply andb_true_iff in H as [[_ H%negb_true_iff]%andb_true_iff Hs].
  by rewrite H, IH.
Qed.

Lemma find_here c s t : c ∉ s → find c (s ++ c :: t) = Some (length s).
Proof.
  induction s as [|a s IH]; intros H; cbn [app find length]; [by rewrite eqb_refl|]. apply not_elem_of_cons in H as [H1 H2].
  rewrite (proj2 (eqb_neq a c)), IH; done.
Qed.
Lemma find_absent c s : c ∉ s → find c s = None.
Proof. induction s as [|a s IH]; intros H; cbn [find]; [done|]. apply not_elem_of_cons in H as [H1 H2]. by rewrite (proj2 (eqb_neq a c)), IH. Qed.
Lemma find_any_word s t : word s → find_any [c_eq; c_open; c_close; c_semi] (s ++ c_eq :: t) = Some (length s).
Proof.
  induction s as [|a s IH]; intros H; cbn [app find_any length]; [done|]. cbn [forallb] in H. apply andb_true_iff in H as [[_ H%negb_true_iff]%andb_true_iff Hs]. by rewrite H, IH.
Qed.
Lemma word_without c s : word s → word_char c = false → c ∉ s.
Proof. intros Hs Hc Hin. rewrite forallb_forall in Hs. apply list_elem_of_In in Hin. rewrite (Hs c Hin) in Hc. done. Qed.

Lemma balanced_nil : balanced [].
Proof. intros n t. cbn. by destruct (match_brace (S n) t). Qed.
Lemma balanced_app s s' : balanced s → balanced s' → balanced (s ++ s').
Proof. intros H1 H2 n t. rewrite <- app_assoc, H1, H2, length_app. destruct (match_brace (S n) t); cbn; [|done]. f_equal. lia. Qed.
Lemma balanced_char b : b ≠ c_open → b ≠ c_close → balanced [b].
Proof. intros H1 H2 n t. cbn [app match_brace]. rewrite (proj2 (eqb_neq b c_open)), (proj2 (eqb_neq b c_close)) by done. by destruct (match_brace (S n) t). Qed.
Lemma balanced_word s : word s → balanced s.
Proof.
  induction s as [|a s IH]; intros H; [apply balanced_nil|]. cbn [forallb] in H. apply andb_true_iff in H as [Ha Hs]. change (a :: s) with ([a] ++ s).
  apply balanced_app; [|by apply IH]. apply balanced_char; intros ->; done.
Qed.
Lemma match_close s t n : balanced s → match_brace (S n) (s ++ c_close :: t) = match n with O => Some (length s) | S m => Nat.add (S (length s)) <$> match_brace (S m) t end.
Proof. intros H. rewrite H. cbn [match_brace]. rewrite (proj2 (eqb_neq c_close c_open)), eqb_refl by done. destruct n; cbn; [f_equal; lia|]. destruct (match_brace (S n) t); cbn; [|done]. f_equal. lia. Qed.
Lemma balanced_braces s : balanced s → balanced (c_open :: s ++ [c_close]).
Proof.
  intros H n t. cbn [app match_brace]. rewrite eqb_refl, <- app_assoc. cbn [app]. rewrite (match_close s t (S n)) by done.
  cbn [length]. rewrite length_app. cbn [length]. destruct (match_brace (S n) t); cbn; [|done]. f_equal. lia.
Qed.
Lemma valued_quiet v t : valued v t → quiet v ∧ quiet t.
Proof.
  intros [w Hw|w Hw _]; [by split; apply word_quiet|]. split; [|done]. cbn [forallb]. rewrite forallb_app, Hw. done.
Qed.
Lemma valued_balanced v t : valued v t → balanced v.
Proof. intros [w Hw|w _ Hw]; [by apply balanced_word|by apply balanced_braces]. Qed.

(** ** Splitting a text into tokens *)
Lemma skip_here pre v : quiet v → skip_from (pre ++ v) (length pre) = length pre.
Proof. intros H. unfold skip_from. rewrite drop_app_length, spaces_quiet by done. lia. Qed.
Lemma lookup_here {A} (pre : list A) x post : (pre ++ x :: post) !! length pre = Some x.
Proof. by rewrite lookup_app_r, Nat.sub_diag. Qed.
Lemma substr_here pre s post : substr (pre ++ s ++ post) (length pre) (length s) = s.
Proof. unfold substr. by rewrite drop_app_length, take_app_length. Qed.
(** The position behind [pre ++ s]. *)
Lemma behind {A} (pre s : list A) : (length pre + length s)%nat = length (pre ++ s).
Proof. by rewrite length_app. Qed.

Section tokens.
Context (d : byte) (Hd : calm d = true) (Hopen : d ≠ c_open).
Lemma next_plain pre w post : quiet w → w !! 0%nat ≠ Some c_open → d ∉ w → quiet post →
  NextToken (pre ++ w ++ d :: post) d (length pre) = Some (Some (length pre + length w)%nat, w).
Proof.
  intros Hw Ho Hn Hp. assert (Hq : quiet (w ++ d :: post)) by (rewrite forallb_app; cbn [forallb]; by rewrite Hw, Hd, Hp).
  unfold NextToken. rewrite skip_here by done. assert (∃ b, (pre ++ w ++ d :: post) !! length pre = Some b ∧ b ≠ c_open) as (b & -> & Hb).
  { destruct w as [|a w]; [exists d; split; [apply (lookup_here pre)|done]|]. exists a. split; [apply (lookup_here pre)|]. intros ->. done. }
  rewrite (proj2 (eqb_neq b c_open)) by done. unfold find_from. rewrite drop_app_length, find_here by done. cbn [fmap option_fmap option_map].
  rewrite Nat.add_comm, Nat.add_sub, substr_here. by rewrite trim_quiet.
Qed.
Lemma word_head w : word w → w !! 0%nat ≠ Some c_open.
Proof. destruct w as [|a w]; [done|]. intros H [= ->]. done. Qed.
Lemma next_last_word pre w : word w → d ∉ w → NextToken (pre ++ w) d (length pre) = Some (None, w).
Proof.
  intros Hw Hn. unfold NextToken. rewrite skip_here by by apply word_quiet. destruct w as [|a w].
  - by rewrite app_nil_r, lookup_ge_None_2 by done.
  - rewrite (lookup_here pre a w). rewrite (proj2 (eqb_neq a c_open)) by (by intros ->). unfold find_from. rewrite drop_app_length, find_absent by done. cbn [fmap option_fmap option_map].
    by rewrite trim_quiet by by apply word_quiet.
Qed.
(** A nested value ends at its brace, before the delimiter or the end of the text. *)
Lemma next_nested pre w post : quiet w → balanced w → quiet post → match post with [] => True | c :: _ => c = d end →
  NextToken (pre ++ (c_open :: w ++ [c_close]) ++ post) d (length pre) = Some (Some (length pre + length (c_open :: w ++ [c_close]))%nat, w).
Proof.
  intros Hw Hb Hp Hnext. set (v := c_open :: w ++ [c_close]). assert (Hv : quiet v) by (unfold v; cbn [forallb]; rewrite forallb_app, Hw; done).
  assert (Hq : quiet (v ++ post)) by (by rewrite forallb_app, Hv, Hp). unfold NextToken. rewrite skip_here by done. assert (Hl : (pre ++ v ++ post) !! length pre = Some c_open) by apply (lookup_here pre).
  rewrite Hl, eqb_refl. assert (E : pre ++ v ++ post = (pre ++ [c_open]) ++ w ++ c_close :: post) by (unfold v; cbn [app]; by rewrite <- !app_assoc).
  assert (El : S (length pre) = length (pre ++ [c_open])) by (rewrite length_app; cbn [length]; lia). rewrite El, E, drop_app_length, match_close by done. rewrite substr_here, trim_quiet, <- E by done.
  assert (Ep : skip_from (pre ++ v ++ post) (length (pre ++ [c_open]) + length w + 1) = length (pre ++ v)).
  { assert (Hn : (length (pre ++ [c_open]) + length w + 1)%nat = length (pre ++ v)) by (unfold v; rewrite !length_app; cbn [length]; rewrite length_app; cbn [length]; lia).
    rewrite Hn, app_assoc. by apply skip_here. }
  rewrite Ep, behind. rewrite (app_assoc pre v post). destruct post as [|c post]; [by rewrite app_nil_r, lookup_ge_None_2|]. by rewrite lookup_here, Hnext, eqb_refl.
Qed.
Lemma next_valued pre v t post : valued v t → (word v → d ∉ v) → quiet post →
  NextToken (pre ++ v ++ d :: post) d (length pre) = Some (Some (length pre + length v)%nat, t).
Proof.
  intros [w Hw|w Hw Hb] Hn Hp; [apply next_plain; auto using word_quiet, word_head|]. apply next_nested; try done. cbn [forallb]. by rewrite Hd, Hp.
Qed.
End tokens.

(** ** Reading a struct *)
(** The fields of a struct: name, value as written, token. *)
Abbreviation written_field := (bytes * bytes * bytes)%type.
Definition field_ok (e : written_field) : Prop := word e.1.1 ∧ e.1.1 ≠ [] ∧ valued e.1.2 e.2.
Definition field_text (e : written_field) : bytes := e.1.1 ++ c_eq :: e.1.2 ++ [c_semi].
Definition struct_text (es : list written_field) : bytes := concat (field_text <$> es).
Definition struct_map (es : list written_field) (m : gmap bytes bytes) : gmap bytes bytes := foldl (λ m e, <[e.1.1 := e.2]> m) m es.

Lemma field_quiet e : field_ok e → quiet (field_text e).
Proof. intros (H1 & _ & H2). destruct (valued_quiet _ _ H2) as [H3 _]. unfold field_text. rewrite forallb_app. cbn [forallb]. rewrite forallb_app, (word_quiet _ H1), H3. done. Qed.
Lemma struct_quiet es : Forall field_ok es → quiet (struct_text es).
Proof. induction 1 as [|e es He _ IH]; [done|]. unfold struct_text in *. cbn [fmap list_fmap concat]. by rewrite forallb_app, (field_quiet e He), IH. Qed.
Lemma struct_balanced es : Forall field_ok es → balanced (struct_text es).
Proof.
  induction 1 as [|e es (H1 & _ & H2) _ IH]; [apply balanced_nil|]. unfold struct_text in *. cbn [fmap list_fmap concat]. apply balanced_app; [|done]. unfold field_text.
  apply balanced_app; [by apply balanced_word|]. change (c_eq :: e.1.2 ++ [c_semi]) with ([c_eq] ++ e.1.2 ++ [c_semi]). apply balanced_app; [by apply balanced_char|].
  apply balanced_app; [by eapply valued_balanced|by apply balanced_char].
Qed.
Lemma map_loop_struct es pre fuel m : Forall field_ok es → (length es < fuel)%nat →
  map_loop fuel (pre ++ struct_text es) (length pre) m = Ok (Some (struct_map es m)).
Proof.
  revert pre fuel m. induction es as [|e es IH]; intros pre [|fuel] m Hes Hf; cbn [length] in Hf; try lia; cbn [map_loop].
  - unfold struct_text. cbn [fmap list_fmap concat]. rewrite app_nil_r, Nat.ltb_irrefl. done.
  - pose proof (Forall_inv Hes) as (Hn & Hne & Hv). pose proof (Forall_inv_tail Hes) as Hes'. pose proof (struct_quiet es Hes') as Hq. destruct e as [[name v] t]. cbn [fst snd] in *.
    assert (E : pre ++ struct_text ((name, v, t) :: es) = pre ++ name ++ c_eq :: v ++ c_semi :: struct_text es).
    { unfold struct_text. cbn [fmap list_fmap concat]. unfold field_text. cbn [fst snd]. rewrite <- !app_assoc. cbn [app]. by rewrite <- app_assoc. }
    rewrite E. destruct (Nat.ltb_spec (length pre) (length (pre ++ name ++ c_eq :: v ++ c_semi :: struct_text es))) as [_|Hl]; [|rewrite !length_app in Hl; cbn [length] in Hl; lia].
    unfold find_first_of. rewrite drop_app_length, find_any_word by done. cbn [fmap option_fmap option_map]. rewrite behind, app_assoc, lookup_here, bool_decide_true by done.
    rewrite <- behind, Nat.add_comm, Nat.add_sub, <- app_assoc, substr_here, trim_quiet by by apply word_quiet. rewrite bool_decide_false by done.
    assert (E' : pre ++ name ++ c_eq :: v ++ c_semi :: struct_text es = (pre ++ name ++ [c_eq]) ++ v ++ c_semi :: struct_text es) by (by rewrite <- !app_assoc).
    assert (El : S (length name + length pre) = length (pre ++ name ++ [c_eq])) by (rewrite !length_app; cbn [length]; lia). rewrite E', El.
    rewrite (next_valued c_semi) with (t := t); [|done|done|done|intros Hw; by apply word_without|done].
    assert (E2 : (pre ++ name ++ [c_eq]) ++ v ++ c_semi :: struct_text es = ((pre ++ name ++ [c_eq]) ++ v ++ [c_semi]) ++ struct_text es) by (by rewrite <- !app_assoc).
    assert (El2 : S (length (pre ++ name ++ [c_eq]) + length v) = length ((pre ++ name ++ [c_eq]) ++ v ++ [c_semi])) by (rewrite !length_app; cbn [length]; lia).
    rewrite E2, El2, IH; [done|done|lia].
Qed.
Lemma struct_head es : Forall field_ok es → struct_text es !! 0%nat ≠ Some c_open.
Proof.
  intros Hes. destruct es as [|e es]; [done|]. pose proof (Forall_inv Hes) as (Hn & Hne & _). destruct e as [[[|a name] v] t]; [done|]. cbn [fst] in *.
  unfold struct_text. cbn [fmap list_fmap concat field_text fst app lookup list_lookup]. intros [= ->]. done.
Qed.
Lemma strip_struct fuel es : Forall field_ok es → strip fuel (struct_text es) = struct_text es.
Proof. intros Hes. destruct fuel as [|fuel]; [done|]. cbn [strip]. by rewrite (bool_decide_false (_ = Some c_open)), andb_false_r by by apply struct_head. Qed.
Lemma struct_length es : Forall field_ok es → (length es ≤ length (struct_text es))%nat.
Proof.
  induction 1 as [|e es _ _ IH]; [done|]. unfold struct_text in *. cbn [fmap list_fmap concat length]. unfold field_text at 1. rewrite !length_app. cbn [length]. lia.
Qed.
Lemma StringToMap_struct es m : Forall field_ok es → StringToMap (struct_text es) m = Ok (Some (struct_map es m)).
Proof.
  intros Hes. unfold StringToMap. rewrite trim_quiet by by apply struct_quiet. rewrite strip_struct by done. apply (map_loop_struct es []); [done|].
  pose proof (struct_length es Hes). lia.
Qed.
Lemma StringToMap_nested es m : es ≠ [] → Forall field_ok es → StringToMap (c_open :: struct_text es ++ [c_close]) m = Ok (Some (struct_map es m)).
Proof.
  intros Hne Hes. pose proof (struct_quiet es Hes) as Hq. set (text := struct_text es) in *. pose proof (struct_length es Hes) as Hl. fold text in Hl.
  assert (Hlen : (1 ≤ length text)%nat) by (destruct es; [done|cbn [length] in Hl; lia]).
  assert (Hv : quiet (c_open :: text ++ [c_close])) by (cbn [forallb]; rewrite forallb_app, Hq; done).
  assert (E : length (c_open :: text ++ [c_close]) = S (S (length text))) by (cbn [length]; rewrite length_app; cbn [length]; lia).
  assert (Hs : ∀ fuel, strip (S fuel) (c_open :: text ++ [c_close]) = text).
  { intros fuel. cbn [strip]. rewrite E. cbn [Nat.sub]. rewrite (proj2 (Nat.ltb_lt _ _)) by lia. rewrite !bool_decide_true; [|cbn [lookup list_lookup]; apply lookup_here|done]. cbn [andb]. rewrite Nat.sub_0_r.
    change (c_open :: text ++ [c_close]) with ([c_open] ++ text ++ [c_close]). change 1%nat with (length [c_open]). rewrite substr_here, trim_quiet by done. by apply strip_struct. }
  unfold StringToMap. rewrite trim_quiet, E, Hs by done. apply (map_loop_struct es []); [done|]. fold text. lia.
Qed.

(** ** Numbers and hexadecimal strings are read back *)
Lemma digits_all s : forallb is_digit s = true → digits s = length s.
Proof. induction s as [|b s IH]; intros H; [done|]. cbn [forallb digits length] in *. apply andb_true_iff in H as [-> H]. by rewrite IH. Qed.
Lemma digit_word b : is_digit b = true → word_char b = true ∧ b ≠ c_colon ∧ b ≠ Byte.x00.
Proof. destruct b; try done; by vm_compute. Qed.
Lemma digits_facts s : forallb is_digit s = true → word s ∧ c_colon ∉ s ∧ c_str s = s.
Proof.
  induction s as [|b s IH]; intros H; [split_and!; try done; by apply not_elem_of_nil|]. cbn [forallb] in H. apply andb_true_iff in H as [Hb Hs]. destruct (IH Hs) as (H1 & H2 & H3), (digit_word b Hb) as (H4 & H5 & H6).
  cbn [forallb c_str]. rewrite H4, H1, H3, (proj2 (eqb_neq b Byte.x00)) by done. split_and!; [done|apply not_elem_of_cons; auto|done].
Qed.
Lemma scan_digits s : forallb is_digit s = true → s ≠ [] → scan_number s = Some (false, parse_dec 0 s, length s) ∧ scan_number (Byte.x2d :: s) = Some (true, parse_dec 0 s, S (length s)).
Proof.
  intros H Hne. pose proof (digits_all s H) as Hd. destruct s as [|b s]; [done|]. pose proof H as Hs. cbn [forallb] in Hs. apply andb_true_iff in Hs as [Hb _].
  destruct (digit_byte_facts b Hb) as (H1 & H2 & H3 & _). unfold scan_number. split.
  - cbn [spaces]. rewrite H1. cbn [drop]. rewrite H2, H3. cbn [drop]. rewrite Hd. done.
  - cbn [spaces]. change (is_space Byte.x2d) with false. cbn iota. cbn [drop]. rewrite eqb_refl. cbn [drop]. rewrite Hd. done.
Qed.
Lemma scan_to_string z : - 2 ^ 64 < z < 2 ^ 64 → scan_number (to_string z) = Some (z <? 0, Z.abs z, length (to_string z)) ∧
  word (to_string z) ∧ c_colon ∉ to_string z ∧ c_str (to_string z) = to_string z ∧ to_string z ≠ [].
Proof.
  intros Hz. unfold to_string. destruct (Z.ltb_spec z 0) as [Hn|Hn].
  - destruct (dec_spec 20 (- z)) as (Hd & Hne & Hp); [lia|lia|]. destruct (scan_digits _ Hd Hne) as [_ ->]. rewrite Hp. destruct (digits_facts _ Hd) as (H1 & H2 & H3).
    split; [do 2 f_equal; f_equal; lia|]. cbn [forallb c_str]. rewrite H1, H3. split_and!; [done|apply not_elem_of_cons; done|done|done].
  - destruct (dec_spec 20 z) as (Hd & Hne & Hp); [lia|lia|]. destruct (scan_digits _ Hd Hne) as [-> _]. rewrite Hp. destruct (digits_facts _ Hd) as (H1 & H2 & H3).
    split; [do 2 f_equal; f_equal; lia|]. done.
Qed.
Lemma ParseUint64_text z : in_u 64 z → ParseUint64 (to_string z) = Some z.
Proof.
  intros Hz. destruct (scan_to_string z) as (Hs & _ & _ & Hc & _); [lia|]. unfold ParseUint64, stoull. rewrite Hc, Hs, (proj2 (Z.ltb_lt _ _)), (proj2 (Z.ltb_ge _ _)) by lia.
  rewrite lookup_ge_None_2 by done. f_equal. lia.
Qed.
Lemma ParseUint8_text z : in_u 8 z → ParseUint8 (to_string z) = Some z.
Proof. intros Hz. unfold ParseUint8. rewrite ParseUint64_text by lia. rewrite Z.shiftr_div_pow2 by lia. by rewrite Z.div_small. Qed.
Lemma ParseInt_text z : - 2 ^ 31 ≤ z < 2 ^ 31 → ParseInt (to_string z) = Some z.
Proof.
  intros Hz. destruct (scan_to_string z) as (Hs & _ & _ & Hc & _); [lia|]. unfold ParseInt, stoi_at. rewrite Hc, Hs.
  assert (E : (if z <? 0 then - Z.abs z else Z.abs z) = z) by (destruct (Z.ltb_spec z 0); lia). rewrite E, (proj2 (Z.leb_le _ _)), (proj2 (Z.ltb_lt _ _)) by lia. cbn [andb].
  by rewrite lookup_ge_None_2.
Qed.
Lemma hex_byte b : let a := toHex (Z.shiftr (b2z b) 4) in let c := toHex (Z.land (b2z b) 0xf) in
  (fromHex a <? 0) = false ∧ (fromHex c <? 0) = false ∧ z2b (Z.lor (Z.shiftl (fromHex a) 4) (fromHex c)) = b ∧ word [a; c] ∧ a ≠ c_colon ∧ c ≠ c_colon.
Proof. destruct b; vm_compute; split_and!; done. Qed.
Lemma hex_facts s : decode_hex (ToHexString s) = (true, s) ∧ word (ToHexString s) ∧ c_colon ∉ ToHexString s ∧ Nat.odd (length (ToHexString s)) = false.
Proof.
  unfold ToHexString. induction s as [|b s (IH1 & IH2 & IH3 & IH4)]; [split_and!; try done; by apply not_elem_of_nil|]. cbn [fmap list_fmap concat app decode_hex]. destruct (hex_byte b) as (-> & -> & -> & H4 & H5 & H6).
  rewrite IH1. cbn [forallb] in *. rewrite andb_true_r in H4. apply andb_true_iff in H4 as [H4 H4']. rewrite H4, H4', IH2. split_and!; [done|done| |done].
  rewrite !not_elem_of_cons. auto.
Qed.
Lemma DecodeHex_text s old : DecodeHex (ToHexString s) old = (true, s).
Proof. destruct (hex_facts s) as (H1 & _ & _ & H4). unfold DecodeHex. by rewrite H4. Qed.
