(* ===== verification/OptionTypes.v ===== *)
(** * Reading and writing structs by tables (rocksdb [options/options_helper.cc],
    [include/rocksdb/utilities/options_type.h])

    An [OptionTypeInfo] says how one field of a struct is written and read; a struct
    has a table of them.  Fields are accessed by functions instead of offsets.  The tables
    and the parsed options are hash maps: the order in which they are iterated
    is not specified, and is an argument here. *)
From S2P Require Import Prelude CppString Slice OptionText.
Local Open Scope Z_scope.

(** ** Statuses; the texts of errors made here are left out *)
Record Status := mkStatus { code : Z; subcode : Z; sev : Z; retryable : bool; data_loss : bool; scope : Z; state : bytes }.
Definition status_of (c : Z) : Status := mkStatus c 0 0 false false 0 [].
Definition OK : Status := status_of 0.
Definition NotFound : Status := status_of 1.
Definition NotSupported : Status := status_of 3.
Definition InvalidArgument : Status := status_of 4.
Definition ok (s : Status) : bool := code s =? 0.

(** ** The iteration order of [std::unordered_map], in one process *)
Record Process := mkProcess {
  map_order : gmap bytes bytes → list (bytes * bytes);
  name_order : list bytes → list bytes }.
(** Every entry is visited once; the order of a constant table is that of its names. *)
Record process_ok (p : Process) : Prop := {
  map_order_perm m : map_order p m ≡ₚ map_to_list m;
  name_order_perm l : name_order p l ≡ₚ l }.

Record ConfigOptions := mkConfig { ignore_unknown_options : bool; ignore_unsupported_options : bool }.
Definition strict_elements (c : ConfigOptions) : ConfigOptions := mkConfig (ignore_unknown_options c) false.

(** ** Single values *)
Inductive Temperature := kUnknown | kHot | kWarm | kCool | kCold | kIce | kLastTemperature.
#[export] Instance Temperature_eq : EqDecision Temperature.
Proof. solve_decision. Defined.
Definition temperature_string_map : list (bytes * Temperature) :=
  [(str "kUnknown", kUnknown); (str "kHot", kHot); (str "kWarm", kWarm); (str "kCool", kCool); (str "kCold", kCold); (str "kIce", kIce)].
Fixpoint lookup_name {A} (name : bytes) (l : list (bytes * A)) : option A :=
  match l with (n, a) :: l => if decide (n = name) then Some a else lookup_name name l | [] => None end.
Fixpoint lookup_value (t : Temperature) (l : list (bytes * Temperature)) : option bytes :=
  match l with (n, a) :: l => if decide (a = t) then Some n else lookup_value t l | [] => None end.

(** A constant table in the order of iteration. *)
Definition table_order {A} (p : Process) (l : list (bytes * A)) : list (bytes * A) :=
  omap (λ n, pair n <$> lookup_name n l) (name_order p l.*1).

(** The types of single values, with the type of the field. *)
Inductive OptionType : Type → Type :=
  | kBoolean : OptionType bool | kInt : OptionType Z | kUInt8T : OptionType Z | kUInt64T : OptionType Z | kSizeT : OptionType Z
  | kEncodedString : OptionType bytes | kTemperature : OptionType Temperature.
(** The flag and the field after the call; [None] is an exception. *)
Definition ParseOptionHelper {A} (t : OptionType A) (value : bytes) : A → option (bool * A) :=
  match t in OptionType A return A → option (bool * A) with
  | kBoolean => λ _, pair true <$> ParseBoolean value
  | kInt => λ _, pair true <$> ParseInt value
  | kUInt8T => λ _, pair true <$> ParseUint8 value
  | kUInt64T => λ _, pair true <$> ParseUint64 value
  | kSizeT => λ _, pair true <$> ParseUint64 value
  | kEncodedString => λ old, Some (true, (DecodeHex value old).2)
  | kTemperature => λ old, match lookup_name value temperature_string_map with Some t => Some (true, t) | None => Some (false, old) end
  end.
Definition SerializeSingleOptionHelper (p : Process) {A} (t : OptionType A) : A → option bytes :=
  match t in OptionType A return A → option bytes with
  | kBoolean => λ b, Some (if b then str "true" else str "false")
  | kInt => λ z, Some (to_string z)
  | kUInt8T => λ z, Some (to_string z)
  | kUInt64T => λ z, Some (to_string z)
  | kSizeT => λ z, Some (to_string z)
  | kEncodedString => λ s, Some (ToHexString s)
  | kTemperature => λ t, lookup_value t (table_order p temperature_string_map)
  end.

(** ** Values and fields *)
(** How a value is read over an old one, and written; with the name of the option. *)
Record Codec (A : Type) := mkCodec {
  c_parse : Process → ConfigOptions → bytes → bytes → A → res (Status * A); c_serialize : Process → bytes → A → Status * bytes }.
Arguments mkCodec {A}. Arguments c_parse {A}. Arguments c_serialize {A}.
Record field (S A : Type) := mkField { get : S → A; set : A → S → S }.
Arguments mkField {S A}. Arguments get {S A}. Arguments set {S A}.
Record OptionTypeInfo (S : Type) := mkInfo {
  IsStruct : bool; Parse : Process → ConfigOptions → bytes → bytes → S → res (Status * S); Serialize : Process → bytes → S → Status * bytes }.
Arguments mkInfo {S}. Arguments IsStruct {S}. Arguments Parse {S}. Arguments Serialize {S}.
(** [OptionTypeInfo::Parse] and [Serialize]: the value is unescaped, the field is at its offset. *)
Definition at_field {S A} (structured : bool) (f : field S A) (c : Codec A) : OptionTypeInfo S :=
  mkInfo structured
    (λ p cfg name value s, let* (st, a) := c_parse c p cfg name (UnescapeOptionString value) (get f s) in Ok (st, set f a s))
    (λ p name s, c_serialize c p name (get f s)).
Definition whole {S} : field S S := mkField (λ s, s) (λ a _, a).

Section tables.
Definition Single {A} (t : OptionType A) : Codec A :=
  mkCodec (λ _ _ _ value old, Ok match ParseOptionHelper t value old with Some (true, a) => (OK, a) | Some (false, a) => (InvalidArgument, a) | None => (InvalidArgument, old) end)
    (λ p _ a, match SerializeSingleOptionHelper p t a with Some v => (OK, v) | None => (InvalidArgument, []) end).

(** *** Structs *)
Definition Table (S : Type) : Type := list (bytes * OptionTypeInfo S).
Definition Find {S} (opt_name : bytes) (table : Table S) : option (OptionTypeInfo S * bytes) :=
  match lookup_name opt_name table with
  | Some info => Some (info, opt_name)
  | None =>
      match find c_dot opt_name with
      | Some (Datatypes.S idx) =>
          match lookup_name (take (Datatypes.S idx) opt_name) table with
          | Some info => if IsStruct info then Some (info, drop (Datatypes.S (Datatypes.S idx)) opt_name) else None
          | None => None
          end
      | _ => None
      end
  end.
(** The second [ParseType]; with [keep], names that are not found are returned. *)
Fixpoint parse_fields {S} (p : Process) (cfg : ConfigOptions) (keep : bool) (opts : list (bytes * bytes)) (table : Table S) (s : S) (unused : list bytes) : res (Status * S * list bytes) :=
  match opts with
  | [] => Ok (OK, s, unused)
  | (name, value) :: opts =>
      match Find name table with
      | Some (info, opt_name) =>
          let* (st, s) := Parse info p cfg opt_name value s in
          if ok st then parse_fields p cfg keep opts table s unused else Ok (st, s, unused)
      | None =>
          if keep then parse_fields p cfg keep opts table s (name :: unused)
          else if negb (ignore_unknown_options cfg) then Ok (NotFound, s, unused)
          else parse_fields p cfg keep opts table s unused
      end
  end.
Definition ParseType {S} (p : Process) (cfg : ConfigOptions) (keep : bool) (opts_str : bytes) (table : Table S) (s : S) : res (Status * S * list bytes) :=
  let* m := StringToMap opts_str ∅ in
  match m with
  | None => Ok (InvalidArgument, s, [])
  | Some m => parse_fields p cfg keep (map_order p m) table s []
  end.
Fixpoint serialize_fields {S} (p : Process) (l : Table S) (s : S) (result : bytes) : Status * bytes :=
  match l with
  | [] => (OK, result)
  | (name, info) :: l =>
      let (st, single) := Serialize info p name s in
      if ok st then serialize_fields p l s (result ++ name ++ c_eq :: single ++ [c_semi]) else (st, result)
  end.
Definition SerializeType {S} (p : Process) (table : Table S) (s : S) (result : bytes) : Status * bytes := serialize_fields p (table_order p table) s result.
Definition parse_named {S} (p : Process) (cfg : ConfigOptions) (table : Table S) (name value : bytes) (s : S) : res (Status * S) :=
  match Find name table with
  | Some (info, elem_name) => Parse info p cfg elem_name value s
  | None => Ok (if negb (ignore_unknown_options cfg) then InvalidArgument else OK, s)
  end.
Definition ParseStruct {S} (p : Process) (cfg : ConfigOptions) (struct_name : bytes) (table : Table S) (opt_name opt_value : bytes) (s : S) : res (Status * S) :=
  if bool_decide (opt_name = struct_name) || EndsWith opt_name (c_dot :: struct_name) then
    let* (st, s, unused) := ParseType p cfg true opt_value table s in
    Ok (if ok st && negb (bool_decide (unused = [])) && negb (ignore_unknown_options cfg) then InvalidArgument else st, s)
  else if StartsWith opt_name (struct_name ++ [c_dot]) then parse_named p cfg table (drop (length struct_name + 1) opt_name) opt_value s
  else parse_named p cfg table opt_name opt_value s.
Definition SerializeStruct {S} (p : Process) (struct_name : bytes) (table : Table S) (opt_name : bytes) (s : S) : Status * bytes :=
  if EndsWith opt_name struct_name then
    let (st, result) := SerializeType p table s [] in if ok st then (st, c_open :: result ++ [c_close]) else (st, [])
  else if StartsWith opt_name (struct_name ++ [c_dot]) then
    match Find (drop (length struct_name + 1) opt_name) table with Some (info, elem_name) => Serialize info p elem_name s | None => (InvalidArgument, []) end
  else
    match Find opt_name table with Some (info, elem_name) => Serialize info p (opt_name ++ c_dot :: elem_name) s | None => (InvalidArgument, []) end.
Definition Struct {S} (struct_name : bytes) (table : Table S) : Codec S :=
  mkCodec (λ p cfg name value s, ParseStruct p cfg struct_name table name value s) (λ p, SerializeStruct p struct_name table).
(** A struct that is read and written by functions of its own, between braces. *)
Definition Braced {S} (table : Table S) : Codec S :=
  mkCodec (λ p cfg _ value s, let* (st, s, _) := ParseType p cfg false value table s in Ok (st, s))
    (λ p _ s, let (st, result) := SerializeType p table s [] in (st, c_open :: result ++ [c_close])).

(** *** Vectors, separated by colons *)
Fixpoint vector_loop {A} (p : Process) (fuel : nat) (cfg : ConfigOptions) (elem : OptionTypeInfo A) (new : A) (name value : bytes) (start : nat) (result : list A) : res (Status * list A) :=
  match fuel with
  | O => Fail OutOfFuel
  | Datatypes.S fuel =>
      if (start <? length value)%nat then
        match NextToken value c_colon start with
        | None => Ok (InvalidArgument, result)
        | Some (e, token) =>
            let* (st, a) := Parse elem p (strict_elements cfg) name token new in
            let '(st, result) := if ok st then (st, result ++ [a]) else if ignore_unsupported_options cfg && (code st =? 3) then (OK, result) else (st, result) in
            if ok st then match e with Some e => vector_loop p fuel cfg elem new name value (Datatypes.S e) result | None => Ok (st, result) end else Ok (st, result)
        end
      else Ok (OK, result)
  end.
Definition ParseVector {A} (p : Process) (cfg : ConfigOptions) (elem : OptionTypeInfo A) (new : A) (name value : bytes) : res (Status * list A) :=
  vector_loop p (Datatypes.S (length value)) cfg elem new name value 0 [].
(** The text so far and the number of elements in it. *)
Fixpoint join_elements {A} (p : Process) (elem : OptionTypeInfo A) (name : bytes) (l : list A) (result : bytes) (printed : nat) : Status * bytes * nat :=
  match l with
  | [] => (OK, result, printed)
  | a :: l =>
      let (st, elem_str) := Serialize elem p name a in
      if negb (ok st) then (st, result, printed)
      else if bool_decide (elem_str = []) then join_elements p elem name l result printed
      else
        let result := if (0 <? printed)%nat then result ++ [c_colon] else result in
        join_elements p elem name l (result ++ match find c_colon elem_str with Some _ => c_open :: elem_str ++ [c_close] | None => elem_str end) (Datatypes.S printed)
  end.
Definition SerializeVector {A} (p : Process) (elem : OptionTypeInfo A) (name : bytes) (l : list A) : Status * bytes :=
  let '(st, result, printed) := join_elements p elem name l [] 0 in
  if negb (ok st) then (st, [])
  else (OK, if find c_eq result then c_open :: result ++ [c_close]
            else if (1 <? printed)%nat && bool_decide (result !! 0%nat = Some c_open) then c_open :: result ++ [c_close] else result).
Definition Vector {A} (elem : OptionTypeInfo A) (new : A) : Codec (list A) :=
  mkCodec (λ p cfg name value _, ParseVector p cfg elem new name value) (λ p, SerializeVector p elem).

(** *** Arrays of a fixed size *)
Fixpoint array_loop {A} (p : Process) (fuel : nat) (cfg : ConfigOptions) (elem : OptionTypeInfo A) (name value : bytes) (i start : nat) (e : option nat) (result : list A) : res (Status * nat * nat * option nat * list A) :=
  match fuel with
  | O => Fail OutOfFuel
  | Datatypes.S fuel =>
      match result !! i, e with
      | Some old, Some _ =>
          if (start <? length value)%nat then
            match NextToken value c_colon start with
            | None => Ok (InvalidArgument, i, start, e, result)
            | Some (e, token) =>
                let* (st, a) := Parse elem p (strict_elements cfg) name token old in
                let result := <[i := a]> result in
                let st := if ignore_unsupported_options cfg && (code st =? 3) then OK else st in
                let next := match e with Some e => Datatypes.S e | None => 0%nat end in
                if ok st then array_loop p fuel cfg elem name value (Datatypes.S i) next e result else Ok (st, Datatypes.S i, next, e, result)
            end
          else Ok (OK, i, start, e, result)
      | _, _ => Ok (OK, i, start, e, result)
      end
  end.
Definition ParseArray {A} (p : Process) (cfg : ConfigOptions) (elem : OptionTypeInfo A) (name value : bytes) (old : list A) : res (Status * list A) :=
  let* (st, i, start, e, result) := array_loop p (Datatypes.S (Datatypes.S (length value))) cfg elem name value 0 0 (Some 0%nat) old in
  Ok (if negb (ok st) then (st, result)
      else if (i <? length old)%nat then (InvalidArgument, result)
      else if (start <? length value)%nat && bool_decide (e ≠ None) then (InvalidArgument, result)
      else (st, result)).
Definition Array {A} (elem : OptionTypeInfo A) : Codec (list A) := mkCodec (λ p cfg name value old, ParseArray p cfg elem name value old) (λ p, SerializeVector p elem).

(** *** Maps of strings, in the order of their keys *)
Definition key_le (a b : bytes * bytes) : Prop := lex a.1 b.1 ≤ 0.
#[export] Instance key_le_dec a b : Decision (key_le a b) := Z_le_dec _ _.
Definition map_entries (m : gmap bytes bytes) : list (bytes * bytes) := merge_sort key_le (map_to_list m).
Definition emplace (k v : bytes) (m : gmap bytes bytes) : gmap bytes bytes := match m !! k with Some _ => m | None => <[k := v]> m end.
Fixpoint string_map_loop (fuel : nat) (value : bytes) (start : nat) (m : gmap bytes bytes) : res (option (gmap bytes bytes)) :=
  match fuel with
  | O => Fail OutOfFuel
  | Datatypes.S fuel =>
      if (start <? length value)%nat then
        match NextToken value c_semi start with
        | None => Ok None
        | Some (e, token) =>
            let* m :=
              if bool_decide (token = []) then Ok m
              else match find c_eq token with
                   | None => Fail AssertFail
                   | Some pos => Ok (emplace (DecodeHex (take pos token) []).2 (DecodeHex (drop (Datatypes.S pos) token) []).2 m)
                   end in
            match e with Some e => string_map_loop fuel value (Datatypes.S e) m | None => Ok (Some m) end
        end
      else Ok (Some m)
  end.
Definition StringMap : Codec (gmap bytes bytes) :=
  mkCodec (λ _ _ _ value old, let* r := string_map_loop (Datatypes.S (length value)) value 0 ∅ in Ok match r with Some m => (OK, m) | None => (InvalidArgument, old) end)
    (λ _ _ m, (OK, c_open :: concat ((λ e, ToHexString e.1 ++ c_eq :: ToHexString e.2 ++ [c_semi]) <$> map_entries m) ++ [c_close])).
End tables.
