(* ===== verification/OptionLaws.v ===== *)
(** * What is written is read back

    Laws of the codecs of [OptionTypes], for every iteration order of the hash maps on
    either side: a value that is written and read over an old one replaces it, and
    a struct keeps from the old one exactly the fields that its table leaves out. *)
From S2P Require Import Prelude CppString Slice OptionText OptionTypes.
Local Open Scope Z_scope.

(** Every entry of a table with distinct names is visited once. *)
Lemma lookup_pairs {A} (l k : list (bytes * A)) : NoDup (k ++ l).*1 → omap (λ n, pair n <$> lookup_name n (k ++ l)) l.*1 = l.
Proof.
  revert k. induction l as [|[n a] l IH]; intros k Hn; [done|]. cbn [fmap list_fmap omap list_omap fst]. assert (E : lookup_name n (k ++ (n, a) :: l) = Some a).
  { clear IH. induction k as [|[m b] k IH]; cbn [app lookup_name]; [by rewrite decide_True|]. cbn [app fmap list_fmap fst] in Hn. apply NoDup_cons in Hn as [Hm Hn]. rewrite decide_False; [by apply IH|].
    intros ->. apply Hm. rewrite fmap_app. apply elem_of_app. right. by left. }
  rewrite E. cbn [fmap option_fmap option_map]. f_equal. replace (k ++ (n, a) :: l) with ((k ++ [(n, a)]) ++ l) in * by (by rewrite <- app_assoc). by apply IH.
Qed.
Lemma table_order_perm {A} p (l : list (bytes * A)) : process_ok p → NoDup l.*1 → table_order p l ≡ₚ l.
Proof. intros Hp Hn. unfold table_order. rewrite (name_order_perm p Hp). pose proof (lookup_pairs l [] Hn) as E. cbn [app] in E. by rewrite E. Qed.

(** A field of the table with the update that reading it makes. *)
Abbreviation placed S := (bytes * OptionTypeInfo S * (S → S → S))%type.
(** ... and with the values that it can hold. *)
Abbreviation described S := (prod (placed S) (S → Prop)).

Section laws.
(** One process writes; any process may read. *)
Context (pw : Process) (Hwriter : process_ok pw).
(** The value [a], written and read over an [old] one with the invariant, gives [back a old]. *)
Definition codec_ok {A} (c : Codec A) (name : bytes) (inv : A → Prop) (back : A → A → A) (a : A) : Prop :=
  ∃ v t, c_serialize c pw name a = (OK, v) ∧ valued v t ∧ ∀ p cfg old, process_ok p → inv old → c_parse c p cfg name t old = Ok (OK, back a old).
Definition any {A} (_ : A) : Prop := True.
Definition replace {A} (a _ : A) : A := a.
(** A field of [s], written and read into another struct, is [put] there. *)
Definition info_ok {S} (inv : S → Prop) (info : OptionTypeInfo S) (name : bytes) (put : S → S → S) (s : S) : Prop :=
  ∃ v t, Serialize info pw name s = (OK, v) ∧ valued v t ∧ ∀ p cfg x, process_ok p → inv x → Parse info p cfg name t x = Ok (OK, put s x).
Definition put_field {S A} (f : field S A) (back : A → A → A) (s x : S) : S := set f (back (get f s) (get f x)) x.

Lemma at_field_ok {S A} b (f : field S A) c name (inv : S → Prop) inv' back s : codec_ok c name inv' back (get f s) → (∀ x, inv x → inv' (get f x)) →
  info_ok inv (at_field b f c) name (put_field f back) s.
Proof.
  intros (v & t & Hs & Hv & Hp) Hi. exists v, t. split; [done|]. split; [done|]. intros p cfg x Hpr Hx. specialize (Hi x Hx). unfold at_field. cbn [Parse]. rewrite unescape_quiet by apply (valued_quiet v t Hv). by rewrite Hp by done.
Qed.

(** ** Structs *)
Definition place {S A} (name : bytes) (b : bool) (f : field S A) (c : Codec A) (back : A → A → A) : placed S := (name, at_field b f c, put_field f back).
Definition put_all {S} (l : list (placed S)) (s old : S) : S := foldl (λ x e, e.2 s x) old l.
Fixpoint apart {S} (s : S) (l : list (placed S)) : Prop :=
  match l with e :: l => Forall (λ e', ∀ x, e.2 s (e'.2 s x) = e'.2 s (e.2 s x)) l ∧ apart s l | [] => True end.
Record struct_ok {S} (inv : S → Prop) (l : list (placed S)) (s : S) : Prop := {
  names_words : Forall (λ e, word e.1.1 ∧ e.1.1 ≠ []) l; names_distinct : NoDup (fst ∘ fst <$> l); fields_apart : apart s l;
  fields_read : Forall (λ e, info_ok inv e.1.2 e.1.1 e.2 s ∧ ∀ x, inv x → inv (e.2 s x)) l }.

Section structs.
(** A placed field with its text and token. *)
Abbreviation item S := (placed S * (bytes * bytes))%type.
Definition item_field {S} (e : item S) : written_field := (e.1.1.1, e.2.1, e.2.2).
Definition item_ok {S} (inv : S → Prop) (s : S) (e : item S) : Prop :=
  field_ok (item_field e) ∧ Serialize e.1.1.2 pw e.1.1.1 s = (OK, e.2.1) ∧ ∀ p cfg x, process_ok p → inv x → Parse e.1.1.2 p cfg e.1.1.1 e.2.2 x = Ok (OK, e.1.2 s x) ∧ inv (e.1.2 s x).
Lemma items_of {S} (inv : S → Prop) (l : list (placed S)) s : struct_ok inv l s → ∃ es : list (item S), es.*1 = l ∧ Forall (item_ok inv s) es.
Proof.
  intros [Hw _ _ Hr]. induction l as [|e l IH]; [by exists []|]. apply Forall_cons in Hw as [[H1 H2] Hw], Hr as [[(v & t & Hs & Hv & Hp) Hi] Hr].
  destruct (IH Hw Hr) as (es & <- & Hes). exists ((e, (v, t)) :: es). split; [done|]. constructor; [|done]. split; [done|]. split; [done|]. intros p cfg x Hpr Hx. split; [by apply Hp|by apply Hi].
Qed.
Lemma serialize_items {S} inv (es : list (item S)) s r : Forall (item_ok inv s) es → serialize_fields pw (fst <$> es.*1) s r = (OK, r ++ struct_text (item_field <$> es)).
Proof.
  intros Hes. revert r. induction Hes as [|e es (_ & Hs & _) _ IH]; intros r; cbn [fmap list_fmap serialize_fields]; [by rewrite app_nil_r|].
  destruct e as [[[name info] put] [v t]]. cbn [fst snd] in *. rewrite Hs. cbn [ok code OK status_of]. cbn. rewrite IH. f_equal. unfold struct_text. cbn [fmap list_fmap concat]. unfold field_text, item_field. cbn [fst snd].
  rewrite <- !app_assoc. cbn [app]. by rewrite <- app_assoc.
Qed.
Lemma lookup_placed {S} (l : list (placed S)) e : NoDup (fst ∘ fst <$> l) → e ∈ l → lookup_name e.1.1 (fst <$> l) = Some e.1.2.
Proof.
  induction l as [|a l IH]; intros Hn He; [by apply elem_of_nil in He|]. cbn [fmap list_fmap] in *. apply NoDup_cons in Hn as [Ha Hn]. destruct a as [[n i] p]. cbn [lookup_name fst] in *.
  apply elem_of_cons in He as [->|He]; [by rewrite decide_True|]. rewrite decide_False; [by apply IH|]. intros E. apply Ha. cbn. rewrite E. apply list_elem_of_fmap. by exists e.
Qed.
Lemma parse_items {S} (inv : S → Prop) p cfg keep (l : list (placed S)) (es : list (item S)) s x : process_ok p → inv x → NoDup (fst ∘ fst <$> l) → Forall (item_ok inv s) es → (∀ e, e ∈ es → e.1 ∈ l) →
  parse_fields p cfg keep ((λ e, (e.1.1.1, e.2.2)) <$> es) (fst <$> l) x [] = Ok (OK, put_all es.*1 s x, []).
Proof.
  intros Hpr Hx Hn Hes. revert x Hx. induction Hes as [|e es (_ & _ & Hp) _ IH]; intros x Hx Hin; cbn [fmap list_fmap parse_fields]; [done|].
  unfold Find. rewrite (lookup_placed l e.1 Hn) by (apply Hin; by left). destruct (Hp p cfg x Hpr Hx) as [-> Hx']. cbn [res_bind]. cbn. rewrite IH; [done|done|]. intros e' He'. apply Hin. by right.
Qed.
Lemma apart_perm {S} (s : S) (l l' : list (placed S)) : l ≡ₚ l' → apart s l → apart s l'.
Proof.
  induction 1 as [|e l l' Hp IH|a b l|l1 l2 l3 _ IH1 _ IH2]; cbn [apart]; [done| | |tauto].
  - intros [H1 H2]. split; [by rewrite <- Hp|auto].
  - intros [H1 [H2 H3]]. apply Forall_cons in H1 as [H0 H1]. split; [|done]. constructor; [intros x; by rewrite H0|done].
Qed.
Lemma apart_fold {S} (s : S) (l l' : list (placed S)) : l ≡ₚ l' → apart s l → ∀ x, put_all l s x = put_all l' s x.
Proof.
  induction 1 as [|e l l' Hp IH|a b l|l1 l2 l3 H1 IH1 H2 IH2]; intros Ha x; [done| | |].
  - apply IH. apply Ha.
  - destruct Ha as [H _]. apply Forall_cons in H as [H _]. unfold put_all. cbn. by rewrite H.
  - rewrite IH1 by done. apply IH2. by eapply apart_perm.
Qed.
(** A map made from fields with distinct names has exactly these. *)
Lemma struct_map_list es : NoDup (fst ∘ fst <$> es) → map_to_list (struct_map es ∅) ≡ₚ (λ e : written_field, (e.1.1, e.2)) <$> es.
Proof.
  intros Hn. assert (E : ∀ m, NoDup (fst ∘ fst <$> es) → (∀ e, e ∈ es → m !! e.1.1 = None) → map_to_list (struct_map es m) ≡ₚ ((λ e : written_field, (e.1.1, e.2)) <$> es) ++ map_to_list m).
  { clear Hn. induction es as [|e es IH]; intros m Hn Hm; [done|]. cbn [fmap list_fmap] in *. apply NoDup_cons in Hn as [He Hn]. change (struct_map (e :: es) m) with (struct_map es (<[e.1.1 := e.2]> m)).
    rewrite IH; [|done|].
    - rewrite map_to_list_insert by (apply Hm; by left). cbn [app]. by rewrite Permutation_middle.
    - intros e' He'. rewrite lookup_insert_ne; [apply Hm; by right|]. intros E. apply He. cbn. rewrite E. apply list_elem_of_fmap. by exists e'. }
  rewrite E; [|done|done]. by rewrite map_to_list_empty, app_nil_r.
Qed.

Lemma ends_self s : EndsWith s s = true.
Proof. unfold EndsWith. rewrite Nat.leb_refl, Nat.sub_diag, drop_0, slice_compare_lex. apply Z.eqb_eq. by apply lex_eq. Qed.

(** The text of a struct, and that it is read back without and with its braces. *)
Lemma struct_text_ok {S} (inv : S → Prop) (l : list (placed S)) s : struct_ok inv l s → ∃ text,
  (∀ r, SerializeType pw (fst <$> l) s r = (OK, r ++ text)) ∧ quiet text ∧ balanced text ∧ (l ≠ [] → c_eq ∈ text) ∧
  ∀ p cfg keep x v, process_ok p → inv x → v = text ∨ l ≠ [] ∧ v = c_open :: text ++ [c_close] → ParseType p cfg keep v (fst <$> l) x = Ok (OK, put_all l s x, []).
Proof.
  intros Hok. assert (Hp : table_order pw (fst <$> l) ≡ₚ fst <$> l).
  { apply table_order_perm; [done|]. pose proof (names_distinct _ _ _ Hok) as H. by rewrite <- list_fmap_compose. }
  apply Permutation_map_inv in Hp as (l' & El & Hl). assert (Hok' : struct_ok inv l' s).
  { destruct Hok as [H1 H2 H3 H4]. constructor; [by rewrite <- Hl|by rewrite <- Hl|by eapply apart_perm|by rewrite <- Hl]. }
  destruct (items_of inv l' s Hok') as (es & <- & Hes). assert (Hf : Forall field_ok (item_field <$> es)) by (apply Forall_fmap; eapply Forall_impl; [exact Hes|]; by intros e [? _]).
  exists (struct_text (item_field <$> es)). split_and!.
  - intros r. unfold SerializeType. rewrite El. by eapply serialize_items.
  - by apply struct_quiet.
  - by apply struct_balanced.
  - intros Hne. destruct es as [|e es]; [symmetry in Hl; apply Permutation_nil_l in Hl; by subst|]. unfold struct_text. cbn [fmap list_fmap concat]. apply elem_of_app. left. unfold field_text. apply elem_of_app. right. by left.
  - intros p cfg keep x v Hpr Hx Hv. assert (E : StringToMap v ∅ = Ok (Some (struct_map (item_field <$> es) ∅))).
    { destruct Hv as [->|[Hne ->]]; [by apply StringToMap_struct|]. apply StringToMap_nested; [|done]. intros E. apply fmap_nil_inv in E. subst. symmetry in Hl. apply Permutation_nil_l in Hl. by subst. }
    unfold ParseType. rewrite E. cbn [res_bind]. assert (Hn : NoDup (fst ∘ fst <$> (item_field <$> es))).
    { pose proof (names_distinct _ _ _ Hok') as H. by rewrite <- !list_fmap_compose in *. }
    pose proof (map_order_perm p Hpr (struct_map (item_field <$> es) ∅)) as Hm. rewrite (struct_map_list _ Hn), <- list_fmap_compose in Hm. apply Permutation_map_inv in Hm as (es' & -> & He).
    etransitivity; [apply (parse_items inv p cfg keep l es' s x); [done|done|apply (names_distinct _ _ _ Hok)|by rewrite <- He|]|].
    + intros e Hin. rewrite Hl. apply list_elem_of_fmap. exists e. by rewrite He.
    + do 3 f_equal. symmetry. apply apart_fold; [|apply Hok]. by rewrite Hl, He.
Qed.

Lemma struct_codec_ok {S} name (inv : S → Prop) (l : list (placed S)) s : l ≠ [] → struct_ok inv l s → codec_ok (Struct name (fst <$> l)) name inv (put_all l) s.
Proof.
  intros Hne Hok. destruct (struct_text_ok inv l s Hok) as (text & Hs & Hq & Hb & _ & Hp). exists (c_open :: text ++ [c_close]), text. split; [|split; [by constructor|]].
  - cbn [c_serialize Struct]. unfold SerializeStruct. rewrite ends_self, Hs. done.
  - intros p cfg old Hpr Hold. cbn [c_parse Struct]. unfold ParseStruct. rewrite bool_decide_true by done. cbn [orb]. rewrite (Hp p) by auto. done.
Qed.
Lemma braced_codec_ok {S} name (inv : S → Prop) (l : list (placed S)) s : struct_ok inv l s → codec_ok (Braced (fst <$> l)) name inv (put_all l) s.
Proof.
  intros Hok. destruct (struct_text_ok inv l s Hok) as (text & Hs & Hq & Hb & _ & Hp). exists (c_open :: text ++ [c_close]), text. split; [|split; [by constructor|]].
  - cbn [c_serialize Braced]. by rewrite Hs.
  - intros p cfg old Hpr Hold. cbn [c_parse Braced]. rewrite (Hp p) by auto. done.
Qed.

(** ** Single values *)
Definition fits {A} (t : OptionType A) : A → Prop :=
  match t in OptionType A return A → Prop with
  | kInt => λ z, - 2 ^ 31 ≤ z < 2 ^ 31 | kUInt8T => λ z, in_u 8 z | kUInt64T => λ z, in_u 64 z | kSizeT => λ z, in_u 64 z
  | kTemperature => λ t, t ≠ kLastTemperature | kBoolean => λ _, True | kEncodedString => λ _, True
  end.
Lemma lookup_value_spec t l : (∃ n, (n, t) ∈ l) → ∃ n, lookup_value t l = Some n ∧ (n, t) ∈ l.
Proof.
  induction l as [|[n a] l IH]; intros [m Hm]; [by apply elem_of_nil in Hm|]. cbn [lookup_value]. destruct (decide (a = t)) as [->|Hne]; [exists n; split; [done|by left]|].
  destruct IH as (n' & -> & Hn'); [|exists n'; split; [done|by right]]. exists m. apply elem_of_cons in Hm as [[=]|Hm]; [by subst|done].
Qed.
Lemma temperature_order : table_order pw temperature_string_map ≡ₚ temperature_string_map.
Proof. apply table_order_perm; [done|]. apply (bool_decide_unpack _). vm_compute. done. Qed.
(** The text of a single value: a word without colons. *)
Lemma single_text {A} (t : OptionType A) a : fits t a → ∃ v, SerializeSingleOptionHelper pw t a = Some v ∧ word v ∧ c_colon ∉ v ∧ ∀ old, ParseOptionHelper t v old = Some (true, a).
Proof.
  destruct t; cbn [fits SerializeSingleOptionHelper ParseOptionHelper]; intros Hf.
  - eexists. split; [done|]. destruct a; (split; [done|]; split; [|done]; apply (bool_decide_unpack _); vm_compute; done).
  - destruct (scan_to_string a) as (_ & Hw & Hc & _); [lia|]. exists (to_string a). split_and!; try done. intros _. by rewrite ParseInt_text.
  - destruct (scan_to_string a) as (_ & Hw & Hc & _); [lia|]. exists (to_string a). split_and!; try done. intros _. by rewrite ParseUint8_text.
  - destruct (scan_to_string a) as (_ & Hw & Hc & _); [lia|]. exists (to_string a). split_and!; try done. intros _. by rewrite ParseUint64_text.
  - destruct (scan_to_string a) as (_ & Hw & Hc & _); [lia|]. exists (to_string a). split_and!; try done. intros _. by rewrite ParseUint64_text.
  - destruct (hex_facts a) as (_ & Hw & Hc & _). exists (ToHexString a). split_and!; try done. intros old. by rewrite DecodeHex_text.
  - destruct (lookup_value_spec a (table_order pw temperature_string_map)) as (n & -> & Hn).
    { setoid_rewrite temperature_order. destruct a; try done; eexists; rewrite list_elem_of_In; cbn; auto 8. }
    exists n. split; [done|]. rewrite temperature_order in Hn. apply list_elem_of_In in Hn. cbn in Hn.
    repeat (destruct Hn as [[= <- <-]|Hn]; [split_and!; [done|apply (bool_decide_unpack _); vm_compute; done|done]|]). done.
Qed.
Lemma single_ok {A} (t : OptionType A) name a : fits t a → codec_ok (Single t) name any replace a.
Proof.
  intros Hf. destruct (single_text t a Hf) as (v & Hs & Hw & _ & Hp). exists v, v. cbn [c_serialize c_parse Single]. rewrite Hs. split; [done|]. split; [by constructor|]. intros _ _ old _ _. by rewrite Hp.
Qed.

(** ** Vectors and arrays *)
Fixpoint join (ps : list bytes) : bytes := match ps with [] => [] | [p] => p | p :: ps => p ++ c_colon :: join ps end.
Definition piece (v : bytes) : bytes := match find c_colon v with Some _ => c_open :: v ++ [c_close] | None => v end.
Lemma join_cons p ps : join (p :: ps) = p ++ concat ((λ p, c_colon :: p) <$> ps).
Proof. revert p. induction ps as [|q ps IH]; intros p; [cbn; by rewrite app_nil_r|]. change (join (p :: q :: ps)) with (p ++ c_colon :: join (q :: ps)). by rewrite IH. Qed.
Lemma join_balanced ps : Forall balanced ps → balanced (join ps).
Proof.
  induction 1 as [|p ps Hp _ IH]; [apply balanced_nil|]. destruct ps as [|q ps]; [done|]. change (join (p :: q :: ps)) with (p ++ [c_colon] ++ join (q :: ps)).
  apply balanced_app; [done|]. apply balanced_app; [by apply balanced_char|done].
Qed.
Lemma join_elements_ok {A} (elem : OptionTypeInfo A) name (es : list (A * bytes)) r n : Forall (λ e, Serialize elem pw name e.1 = (OK, e.2) ∧ e.2 ≠ []) es →
  join_elements pw elem name es.*1 r n = (OK, r ++ match n with O => join (piece <$> es.*2) | _ => concat ((λ p, c_colon :: p) <$> (piece <$> es.*2)) end, (n + length es)%nat).
Proof.
  intros Hes. revert r n. induction Hes as [|e es [Hs Hne] _ IH]; intros r n.
  - cbn. rewrite Nat.add_0_r. by destruct n; cbn; rewrite app_nil_r.
  - cbn [fmap list_fmap join_elements]. rewrite Hs. cbn [negb ok code OK status_of]. change (negb (0 =? 0)) with false. cbn iota. rewrite bool_decide_false by done. fold (piece e.2). rewrite IH. cbn [length].
    rewrite <- Nat.add_succ_comm. f_equal. f_equal. destruct n as [|n]; cbn [Nat.ltb Nat.leb].
    + change (piece <$> (e.2 :: es.*2)) with (piece e.2 :: (piece <$> es.*2)). rewrite join_cons. by rewrite <- app_assoc.
    + cbn [fmap list_fmap concat]. by rewrite <- !app_assoc.
Qed.

(** An element as it stands in the text: its piece, the token read from it, the result. *)
Abbreviation read_elem A := (bytes * bytes * A)%type.
Definition elem_text {A} (e : read_elem A) : Prop := valued e.1.1 e.1.2 ∧ (word e.1.1 → e.1.1 ≠ [] ∧ c_colon ∉ e.1.1).
Definition elem_read {A} (elem : OptionTypeInfo A) (name : bytes) (old : A) (e : read_elem A) : Prop :=
  elem_text e ∧ ∀ p cfg, process_ok p → Parse elem p cfg name e.1.2 old = Ok (OK, e.2).
Lemma reads_texts {A} (elem : OptionTypeInfo A) name old es : Forall (elem_read elem name old) es → Forall elem_text es.
Proof. intros H. eapply Forall_impl; [exact H|]. by intros e [He _]. Qed.
Lemma join_quiet {A} (es : list (read_elem A)) : Forall elem_text es → quiet (join (fst ∘ fst <$> es)).
Proof.
  intros Hes. induction Hes as [|e es [He _] _ IH]; [done|]. destruct (valued_quiet _ _ He) as [Hq _]. cbn [fmap list_fmap] in *. destruct es as [|e' es]; [done|].
  change (join _) with (e.1.1 ++ c_colon :: join (fst ∘ fst <$> (e' :: es))). rewrite forallb_app. cbn [forallb]. rewrite Hq. cbn [andb]. exact IH.
Qed.
(** One step of either loop: the token at the front, and where the next one starts. *)
Lemma next_element {A} (e : read_elem A) es pre : elem_text e → Forall elem_text es →
  let text := pre ++ join (fst ∘ fst <$> (e :: es)) in
  (length pre < length text)%nat ∧ ∃ e', NextToken text c_colon (length pre) = Some (e', e.1.2) ∧
  match es with
  | [] => e' = None ∨ e' = Some (length text)
  | _ => e' = Some (length pre + length e.1.1)%nat ∧ text = (pre ++ e.1.1 ++ [c_colon]) ++ join (fst ∘ fst <$> es)
  end.
Proof.
  intros [Hv Hw] Hes text. assert (Hl : (0 < length e.1.1)%nat).
  { destruct Hv as [w Hword|w _ _]; [|cbn [length]; lia]. destruct (Hw Hword) as [Hne _]. by destruct w; [|cbn [length]; lia]. }
  pose proof (join_quiet es Hes) as Hq. subst text. destruct es as [|e1 es].
  - cbn [fmap list_fmap join compose]. rewrite length_app. split; [lia|]. destruct Hv as [w Hword|w Hqw Hb].
    + exists None. split; [|by left]. by apply next_last_word; [|apply Hw].
    + eexists. split; [|right; reflexivity]. pose proof (next_nested c_colon pre w [] Hqw Hb eq_refl I) as H. rewrite app_nil_r in H. rewrite H. by rewrite behind.
  - change (join (fst ∘ fst <$> (e :: e1 :: es))) with (e.1.1 ++ c_colon :: join (fst ∘ fst <$> (e1 :: es))). split; [rewrite !length_app; lia|]. eexists. split; [|split; [reflexivity|by rewrite <- !app_assoc]].
    apply next_valued; [done|done|done|intros Hword; by apply Hw|done].
Qed.
Lemma vector_loop_ok {A} elem name (new : A) p cfg es fuel pre acc : process_ok p → Forall (elem_read elem name new) es → (length es < fuel)%nat →
  vector_loop p fuel cfg elem new name (pre ++ join (fst ∘ fst <$> es)) (length pre) acc = Ok (OK, acc ++ es.*2).
Proof.
  intros Hpr. revert fuel pre acc. induction es as [|e es IH]; intros [|fuel] pre acc Hes Hf; cbn [length] in Hf; try lia; cbn [vector_loop].
  - cbn [fmap list_fmap join]. by rewrite app_nil_r, Nat.ltb_irrefl, app_nil_r.
  - pose proof (Forall_inv Hes) as [He Hparse]. pose proof (Forall_inv_tail Hes) as Hes'. destruct (next_element e es pre He (reads_texts _ _ _ _ Hes')) as (Hlt & e' & -> & Hnext).
    rewrite (proj2 (Nat.ltb_lt _ _)) by done. rewrite Hparse by done. cbn [res_bind]. change (ok OK) with true. cbn iota. change (ok OK) with true. cbn iota. destruct es as [|e1 es].
    + destruct Hnext as [-> | ->]; [done|]. destruct fuel as [|fuel]; [cbn [length] in Hf; lia|]. cbn [vector_loop]. rewrite (proj2 (Nat.ltb_ge _ _)) by lia. done.
    + destruct Hnext as [-> ->]. replace (Datatypes.S (length pre + length e.1.1)) with (length (pre ++ e.1.1 ++ [c_colon])) by (rewrite !length_app; cbn [length]; lia).
      rewrite IH by (done || lia). cbn [fmap list_fmap]. by rewrite <- app_assoc.
Qed.
Lemma join_length {A} (es : list (read_elem A)) : Forall elem_text es → (length es ≤ length (join (fst ∘ fst <$> es)))%nat.
Proof.
  intros Hes. induction Hes as [|e es He Hes IH]; [done|]. destruct (next_element e es [] He Hes) as (Hlt & _). destruct es as [|e1 es]; [cbn in *; lia|].
  change (join (fst ∘ fst <$> (e :: e1 :: es))) with (e.1.1 ++ c_colon :: join (fst ∘ fst <$> (e1 :: es))). rewrite length_app. cbn [length] in *. lia.
Qed.

(** Single values in a vector or array: those with an empty text would be left out. *)
Definition shown {A} (t : OptionType A) (a : A) : Prop := fits t a ∧ ∀ p, SerializeSingleOptionHelper p t a ≠ Some [].
Definition element {A} (t : OptionType A) : OptionTypeInfo A := at_field false whole (Single t).
Lemma shown_texts {A} (t : OptionType A) name l : Forall (shown t) l → ∃ vs, length vs = length l ∧
  SerializeVector pw (element t) name l = (OK, join vs) ∧ word (join vs) ∧ ∀ olds, length olds = length l → Forall2 (elem_read (element t) name) olds (zip (zip vs vs) l).
Proof.
  intros Hl. assert (∃ es : list (A * bytes), es.*1 = l ∧ Forall (λ e, SerializeSingleOptionHelper pw t e.1 = Some e.2 ∧ e.2 ≠ [] ∧ word e.2 ∧ c_colon ∉ e.2 ∧ ∀ old, ParseOptionHelper t e.2 old = Some (true, e.1)) es) as (es & <- & Hes).
  { induction Hl as [|a l [Hf Hne] _ (es & <- & Hes)]; [by exists []|]. destruct (single_text t a Hf) as (v & Hv & Hw & Hc & Hp). exists ((a, v) :: es). split; [done|].
    constructor; [|done]. split_and!; try done. cbn [snd]. intros ->. by apply (Hne pw). }
  exists es.*2. split; [by rewrite !length_fmap|]. assert (Ew : piece <$> es.*2 = es.*2).
  { clear -Hes. induction Hes as [|e es (_ & _ & _ & Hc & _) _ IH]; [done|]. cbn [fmap list_fmap]. rewrite IH. unfold piece. by rewrite find_absent. }
  assert (Hw : word (join es.*2)).
  { clear -Hes. induction Hes as [|e es (_ & _ & Hw & _) _ IH]; [done|]. cbn [fmap list_fmap]. destruct (es.*2) as [|v vs] eqn:E; [done|]. change (join (e.2 :: v :: vs)) with (e.2 ++ c_colon :: join (v :: vs)).
    rewrite forallb_app, Hw. cbn [forallb andb]. exact IH. }
  split; [|split; [done|]].
  - unfold SerializeVector. rewrite (join_elements_ok _ _ es), Ew; [|eapply Forall_impl; [exact Hes|]; intros e (H1 & H2 & _); cbn [element Serialize at_field c_serialize Single whole get]; by rewrite H1].
    cbn [app]. change (negb (ok OK)) with false. cbn iota. rewrite (find_absent c_eq) by (by apply word_without). rewrite (bool_decide_false (_ = Some c_open)), andb_false_r by by apply word_head. done.
  - intros olds Ho. rewrite length_fmap in Ho. clear Ew Hw Hl. revert olds Ho. induction Hes as [|e es (_ & H2 & H3 & H4 & H5) _ IH]; intros [|old olds] Ho; try done.
    cbn [fmap list_fmap zip_with]. constructor; [|apply IH; cbn [length] in Ho; lia].
    split; [split; [by constructor|done]|]. intros p cfg _. cbn [fst snd]. cbn [element Parse at_field c_parse Single whole get set]. rewrite unescape_quiet by by apply word_quiet. by rewrite H5.
Qed.
Lemma vector_words_ok {A} (t : OptionType A) new name l : Forall (shown t) l → codec_ok (Vector (element t) new) name any replace l.
Proof.
  intros Hl. destruct (shown_texts t name l Hl) as (vs & Hlen & Hs & Hw & Hr). exists (join vs), (join vs). split; [done|]. split; [by constructor|]. intros p cfg old Hpr _. cbn [c_parse Vector]. unfold ParseVector.
  set (es := zip (zip vs vs) l). assert (Hes : Forall (elem_read (element t) name new) es).
  { specialize (Hr (replicate (length l) new) ltac:(by rewrite length_replicate)). fold es in Hr. rewrite Forall_forall. intros e [i Hi]%list_elem_of_lookup_1.
    assert (Hlt : (i < length l)%nat) by (apply lookup_lt_Some in Hi; unfold es in Hi; rewrite !length_zip_with in Hi; lia).
    eapply (Forall2_lookup_lr _ _ _ i _ _ Hr); [|exact Hi]. by apply lookup_replicate_2. }
  assert (E1 : fst ∘ fst <$> es = vs) by (unfold es; rewrite list_fmap_compose, fst_zip, fst_zip; rewrite ?length_zip_with; lia || done).
  assert (E2 : es.*2 = l) by (unfold es; apply snd_zip; rewrite length_zip_with; lia).
  pose proof (vector_loop_ok (element t) name new p cfg es (Datatypes.S (length (join vs))) [] [] Hpr Hes) as H. rewrite E1, E2 in H. apply H.
  pose proof (join_length _ (reads_texts _ _ _ _ Hes)) as Hj. rewrite E1 in Hj. lia.
Qed.
Lemma array_loop_ok {A} (elem : OptionTypeInfo A) name p cfg es olds done_ fuel pre e0 : process_ok p → Forall2 (elem_read elem name) olds es → (length es < fuel)%nat → olds ≠ [] →
  ∃ start e, array_loop p fuel cfg elem name (pre ++ join (fst ∘ fst <$> es)) (length done_) (length pre) (Some e0) (done_ ++ olds) =
    Ok (OK, length (done_ ++ olds), start, e, done_ ++ es.*2) ∧ (e = None ∨ (length (pre ++ join (fst ∘ fst <$> es)) ≤ start)%nat).
Proof.
  intros Hpr Hes. revert fuel pre done_ e0. induction Hes as [|old e olds es [He Hparse] Hes IH]; intros fuel pre done_ e0 Hf Hne; [done|]. destruct fuel as [|fuel]; [cbn [length] in Hf; lia|]. cbn [length] in Hf. cbn [array_loop].
  assert (Ht : Forall elem_text es) by (rewrite Forall_forall; intros x [i Hi]%list_elem_of_lookup_1; destruct (Forall2_lookup_r _ _ _ _ _ Hes Hi) as (o & _ & [Ho _]); done).
  rewrite lookup_here. destruct (next_element e es pre He Ht) as (Hlt & e' & -> & Hnext). rewrite (proj2 (Nat.ltb_lt _ _)) by done. rewrite Hparse by done. cbn [res_bind].
  change (code OK =? 3) with false. rewrite andb_false_r. change (ok OK) with true. cbn iota. rewrite insert_app_r_alt, Nat.sub_diag by done. cbn [insert list_insert].
  assert (E : done_ ++ e.2 :: olds = (done_ ++ [e.2]) ++ olds) by (by rewrite <- app_assoc). assert (El : Datatypes.S (length done_) = length (done_ ++ [e.2])) by (rewrite length_app; cbn [length]; lia).
  destruct es as [|e1 es].
  - inversion Hes; subst olds. cbn [fmap list_fmap]. assert (Hend : ∀ f n x, array_loop p (Datatypes.S f) cfg elem name (pre ++ join (fst ∘ fst <$> [e])) (Datatypes.S (length done_)) n x (done_ ++ [e.2]) = Ok (OK, Datatypes.S (length done_), n, x, done_ ++ [e.2])).
    { intros f n x. cbn [array_loop]. rewrite lookup_ge_None_2; [done|]. rewrite length_app. cbn [length]. lia. }
    assert (Hl : Datatypes.S (length done_) = length (done_ ++ [old])) by (rewrite length_app; cbn [length]; lia). destruct fuel as [|fuel]; [cbn [length] in Hf; lia|].
    destruct Hnext as [-> | ->]; rewrite Hend, Hl; eexists _, _; (split; [done|]); [by left|]. right. cbn [fmap list_fmap] in *. lia.
  - destruct Hnext as [-> ->]. assert (Eq : Datatypes.S (length pre + length e.1.1) = length (pre ++ e.1.1 ++ [c_colon])) by (rewrite !length_app; cbn [length]; lia). rewrite E, El, Eq.
    destruct (IH fuel (pre ++ e.1.1 ++ [c_colon]) (done_ ++ [e.2]) (length pre + length e.1.1)%nat) as (start & e' & -> & He'); [cbn [length] in *; lia|by inversion Hes|].
    exists start, e'. split; [|done]. rewrite !length_app. cbn [length fmap list_fmap]. rewrite <- app_assoc. cbn [app]. do 5 f_equal. lia.
Qed.
Lemma array_words_ok {A} (t : OptionType A) name l : l ≠ [] → Forall (shown t) l → codec_ok (Array (element t)) name (λ old, length old = length l) replace l.
Proof.
  intros Hne Hl. destruct (shown_texts t name l Hl) as (vs & Hlen & Hs & Hw & Hr). exists (join vs), (join vs). split; [done|]. split; [by constructor|]. intros p cfg old Hpr Ho. cbn [c_parse Array]. unfold ParseArray.
  specialize (Hr old Ho). set (es := zip (zip vs vs) l) in *. assert (E1 : fst ∘ fst <$> es = vs) by (unfold es; rewrite list_fmap_compose, fst_zip, fst_zip; rewrite ?length_zip_with; lia || done).
  assert (E2 : es.*2 = l) by (unfold es; apply snd_zip; rewrite length_zip_with; lia). assert (Hold : old ≠ []) by (destruct old, l; done).
  destruct (array_loop_ok (element t) name p cfg es old [] (Datatypes.S (Datatypes.S (length (join vs)))) [] 0 Hpr Hr) as (start & e & Hloop & He); [|done|].
  - assert (Ht : Forall elem_text es) by (rewrite Forall_forall; intros x [i Hi]%list_elem_of_lookup_1; destruct (Forall2_lookup_r _ _ _ _ _ Hr Hi) as (o & _ & [Ho' _]); done).
    pose proof (join_length es Ht) as Hj. rewrite E1 in Hj. lia.
  - rewrite E1, E2 in Hloop. cbn [app length] in Hloop. rewrite Hloop. cbn [res_bind]. change (negb (ok OK)) with false. cbn iota. rewrite Nat.ltb_irrefl. rewrite E1 in He. cbn [app] in He.
    destruct He as [-> |He]; [by rewrite bool_decide_false, andb_false_r by auto|]. by rewrite (proj2 (Nat.ltb_ge _ _)).
Qed.

(** ** Vectors of structs: an element with a colon inside gets a second pair of braces *)
Lemma braces_valued w : quiet w → balanced w → quiet (c_open :: w ++ [c_close]) ∧ balanced (c_open :: w ++ [c_close]).
Proof. intros H1 H2. split; [cbn [forallb]; rewrite forallb_app, H1; done|by apply balanced_braces]. Qed.
Lemma struct_elements {S} name (inv : S → Prop) (l : list (placed S)) new ss : l ≠ [] → inv new → Forall (struct_ok inv l) ss →
  ∃ vs es, SerializeVector pw (at_field true whole (Struct name (fst <$> l))) name ss = (OK, match ss with [] => [] | _ => c_open :: join (piece <$> vs) ++ [c_close] end) ∧
    fst ∘ fst <$> es = piece <$> vs ∧ es.*2 = (λ s, put_all l s new) <$> ss ∧ Forall (elem_read (at_field true whole (Struct name (fst <$> l))) name new) es ∧ balanced (join (piece <$> vs)).
Proof.
  intros Hne Hnew Hss. set (elem := at_field true whole (Struct name (fst <$> l))).
  assert (∃ ps : list (S * bytes), ps.*1 = ss ∧ Forall (λ e, Serialize elem pw name e.1 = (OK, e.2) ∧ c_eq ∈ e.2 ∧ ∃ t, elem_read elem name new (piece e.2, t, put_all l e.1 new) ∧ balanced (piece e.2)) ps) as (ps & <- & Hps).
  { induction Hss as [|s ss Hs _ (ps & <- & Hps)]; [by exists []|]. destruct (struct_text_ok inv l s Hs) as (text & Hser & Hq & Hb & Heq & Hp). set (v := c_open :: text ++ [c_close]).
    exists ((s, v) :: ps). split; [done|]. constructor; [|done]. cbn [fst snd]. split; [|split].
    - unfold elem. cbn [Serialize at_field c_serialize Struct whole get]. unfold SerializeStruct. rewrite ends_self, Hser. done.
    - unfold v. right. apply elem_of_app. left. by apply Heq.
    - destruct (braces_valued text Hq Hb) as [Hqv Hbv]. assert (Hparse : ∀ x p cfg, process_ok p → quiet x → x = text ∨ x = v → Parse elem p cfg name x new = Ok (OK, put_all l s new)).
      { intros x p cfg Hpr Hx Hor. unfold elem. cbn [Parse at_field c_parse Struct whole get set]. rewrite unescape_quiet by done. unfold ParseStruct. rewrite bool_decide_true by done. cbn [orb]. rewrite (Hp p); [done|done|done|].
        destruct Hor as [-> | ->]; auto. }
      unfold piece. destruct (find c_colon v).
      + exists v. split; [|by apply balanced_braces]. split; [|intros p cfg Hpr; apply Hparse; auto]. split; [by constructor|]. cbn [fst]. intros Hw. done.
      + exists text. split; [|done]. split; [|intros p cfg Hpr; apply Hparse; auto]. split; [by constructor|]. cbn [fst]. intros Hw. done. }
  exists ps.*2. assert (∃ es, fst ∘ fst <$> es = piece <$> ps.*2 ∧ es.*2 = (λ s, put_all l s new) <$> ps.*1 ∧ Forall (elem_read elem name new) es) as (es & H1 & H2 & H3).
  { clear Hss. induction Hps as [|e ps (_ & _ & t & Ht & _) _ (es & H1 & H2 & H3)]; [by exists []|]. exists ((piece e.2, t, put_all l e.1 new) :: es). cbn [fmap list_fmap]. split; [|split; [|by constructor]].
    - cbn [compose fst]. f_equal. exact H1.
    - cbn [snd]. f_equal. exact H2. }
  exists es. split_and!; [|done|done|done|].
  - unfold SerializeVector. rewrite (join_elements_ok elem name ps); [|eapply Forall_impl; [exact Hps|]; intros e (Hs & Hin & _); split; [done|]; intros E; rewrite E in Hin; by apply elem_of_nil in Hin].
    change (negb (ok OK)) with false. cbn iota. cbn [app]. destruct ps as [|e ps]; [done|]. assert (Hin : c_eq ∈ join (piece <$> (e :: ps).*2)).
    { cbn [fmap list_fmap]. rewrite join_cons. apply elem_of_app. left. apply Forall_inv in Hps as (_ & Hin & _). unfold piece. destruct (find c_colon e.2); [|done]. right. apply elem_of_app. by left. }
    destruct (find c_eq (join (piece <$> (e :: ps).*2))) eqn:E; [done|]. exfalso. clear -Hin E. induction (join (piece <$> (e :: ps).*2)) as [|b t IH]; [by apply elem_of_nil in Hin|]. cbn [find] in E.
    destruct (Byte.eqb b c_eq) eqn:Eb; [done|]. apply elem_of_cons in Hin as [E0|Hin]; [by rewrite <- E0, eqb_refl in Eb|]. destruct (find c_eq t); [done|]. by apply IH.
  - apply join_balanced, Forall_fmap, Forall_fmap. eapply Forall_impl; [exact Hps|]. by intros e (_ & _ & t & _ & Hb).
Qed.
Lemma vector_structs_ok {S} name (inv : S → Prop) (l : list (placed S)) new ss : l ≠ [] → inv new → Forall (struct_ok inv l) ss →
  codec_ok (Vector (at_field true whole (Struct name (fst <$> l))) new) name any (λ ss _, (λ s, put_all l s new) <$> ss) ss.
Proof.
  intros Hne Hnew Hss. destruct (struct_elements name inv l new ss Hne Hnew Hss) as (vs & es & Hs & E1 & E2 & Hes & Hb). destruct ss as [|s ss].
  { exists [], []. split; [done|]. split; [by constructor|]. done. }
  exists (c_open :: join (piece <$> vs) ++ [c_close]), (join (piece <$> vs)). split; [done|]. pose proof (join_quiet es (reads_texts _ _ _ _ Hes)) as Hq. pose proof (join_length es (reads_texts _ _ _ _ Hes)) as Hj. rewrite E1 in Hq, Hj.
  split; [by constructor|]. intros p cfg old Hpr _. cbn [c_parse Vector]. unfold ParseVector. pose proof (vector_loop_ok _ name new p cfg es (Datatypes.S (length (join (piece <$> vs)))) [] [] Hpr Hes) as H. rewrite E1, E2 in H. apply H. lia.
Qed.
End structs.

(** ** Maps of strings *)
Definition pair_token (e : bytes * bytes) : bytes := ToHexString e.1 ++ c_eq :: ToHexString e.2.
Definition pairs_text (es : list (bytes * bytes)) : bytes := concat ((λ e, pair_token e ++ [c_semi]) <$> es).
Lemma pair_facts e : quiet (pair_token e) ∧ balanced (pair_token e) ∧ pair_token e !! 0%nat ≠ Some c_open ∧ c_semi ∉ pair_token e ∧ pair_token e ≠ [] ∧ find c_eq (pair_token e) = Some (length (ToHexString e.1)).
Proof.
  destruct (hex_facts e.1) as (_ & H1 & _ & _), (hex_facts e.2) as (_ & H2 & _ & _). unfold pair_token. split_and!.
  - rewrite forallb_app. cbn [forallb]. by rewrite (word_quiet _ H1), (word_quiet _ H2).
  - apply balanced_app; [by apply balanced_word|]. apply (balanced_app [c_eq]); [by apply balanced_char|by apply balanced_word].
  - pose proof (word_head _ H1). by destruct (ToHexString e.1).
  - rewrite not_elem_of_app, not_elem_of_cons. split_and!; [by apply word_without|done|by apply word_without].
  - by destruct (ToHexString e.1).
  - apply find_here. by apply word_without.
Qed.
Lemma pairs_facts es : quiet (pairs_text es) ∧ balanced (pairs_text es) ∧ (length es ≤ length (pairs_text es))%nat.
Proof.
  unfold pairs_text. induction es as [|e es (H1 & H2 & H3)]; [split_and!; [done|apply balanced_nil|done]|]. destruct (pair_facts e) as (Hq & Hb & _). cbn [fmap list_fmap concat]. split_and!.
  - rewrite !forallb_app, Hq, H1. done.
  - apply balanced_app; [|done]. apply balanced_app; [done|by apply balanced_char].
  - rewrite !length_app. cbn [length]. lia.
Qed.
Lemma string_map_loop_ok es pre fuel m : (length es < fuel)%nat →
  string_map_loop fuel (pre ++ pairs_text es) (length pre) m = Ok (Some (foldl (λ m e, emplace e.1 e.2 m) m es)).
Proof.
  revert pre fuel m. induction es as [|e es IH]; intros pre [|fuel] m Hf; cbn [length] in Hf; try lia; cbn [string_map_loop].
  - unfold pairs_text. cbn [fmap list_fmap concat]. by rewrite app_nil_r, Nat.ltb_irrefl.
  - destruct (pair_facts e) as (Hq & _ & Hh & Hs & Hne & Hf'). assert (E : pre ++ pairs_text (e :: es) = pre ++ pair_token e ++ c_semi :: pairs_text es) by (unfold pairs_text; cbn [fmap list_fmap concat]; by rewrite <- app_assoc).
    rewrite E. destruct (Nat.ltb_spec (length pre) (length (pre ++ pair_token e ++ c_semi :: pairs_text es))) as [_|Hl]; [|rewrite !length_app in Hl; cbn [length] in Hl; lia].
    rewrite (next_plain c_semi) by (done || apply pairs_facts). rewrite bool_decide_false by done. rewrite Hf'. cbn [res_bind].
    unfold pair_token at 3 4. rewrite take_app_length.
    replace (drop (S (length (ToHexString e.1))) (ToHexString e.1 ++ c_eq :: ToHexString e.2)) with (ToHexString e.2).
    2: { change (ToHexString e.1 ++ c_eq :: ToHexString e.2) with (ToHexString e.1 ++ [c_eq] ++ ToHexString e.2). rewrite app_assoc, drop_app_exact; [done|]. rewrite length_app. cbn [length]. lia. }
    rewrite !DecodeHex_text. cbn [snd foldl]. assert (E2 : pre ++ pair_token e ++ c_semi :: pairs_text es = (pre ++ pair_token e ++ [c_semi]) ++ pairs_text es) by (by rewrite <- !app_assoc).
    assert (El : S (length pre + length (pair_token e)) = length (pre ++ pair_token e ++ [c_semi])) by (rewrite !length_app; cbn [length]; lia). rewrite E2, El. apply IH. lia.
Qed.
Lemma emplace_all (es : list (bytes * bytes)) (m : gmap bytes bytes) : NoDup es.*1 → (∀ k, k ∈ es.*1 → m !! k = None) → foldl (λ m e, emplace e.1 e.2 m) m es = list_to_map es ∪ m.
Proof.
  revert m. induction es as [|[k v] es IH]; intros m Hn Hm; [cbn; by rewrite (left_id_L ∅ (∪))|]. cbn [fmap list_fmap fst] in *. apply NoDup_cons in Hn as [Hk Hn]. cbn [foldl fst snd]. rewrite list_to_map_cons.
  assert (E : emplace k v m = <[k := v]> m) by (unfold emplace; rewrite Hm; [done|by left]). rewrite E, IH; [|done|].
  - assert (Hl : (list_to_map es : gmap bytes bytes) !! k = None) by (by apply not_elem_of_list_to_map_1). by rewrite <- insert_union_r, <- insert_union_l.
  - intros k' Hk'. rewrite lookup_insert_ne by (by intros ->). apply Hm. by right.
Qed.
Lemma string_map_ok name m : codec_ok StringMap name any replace m.
Proof.
  destruct (pairs_facts (map_entries m)) as (Hq & Hb & Hl). exists (c_open :: pairs_text (map_entries m) ++ [c_close]), (pairs_text (map_entries m)). split; [|split; [by constructor|]].
  - cbn [c_serialize StringMap]. unfold pairs_text, pair_token. do 3 f_equal. f_equal. apply list_fmap_ext. intros i e _. by rewrite <- app_assoc.
  - intros p cfg old _ _. cbn [c_parse StringMap]. pose proof (string_map_loop_ok (map_entries m) [] (S (length (pairs_text (map_entries m)))) ∅ ltac:(lia)) as H. cbn [app length] in H. rewrite H. cbn [res_bind].
    assert (Hp : map_entries m ≡ₚ map_to_list m) by (unfold map_entries; by rewrite merge_sort_Permutation). assert (Hn : NoDup (map_entries m).*1) by (rewrite Hp; apply NoDup_fst_map_to_list).
    rewrite emplace_all by (done || (intros; apply lookup_empty)). rewrite (right_id_L ∅ (∪)). do 2 f_equal. unfold replace. rewrite (list_to_map_proper _ (map_to_list m)); [apply list_to_map_to_list|done|done].
Qed.

(** ** Struct descriptions

    A struct is valid if all its fields hold values that they can hold. *)
Section descriptions.
Context {S : Type}.
Definition table_of (l : list (described S)) : Table S := fst <$> l.*1.
Definition valid (l : list (described S)) (s : S) : Prop := Forall (λ e, e.2 s) l.
Definition single {A} (name : string) (t : OptionType A) (f : field S A) : described S := (place (str name) false f (Single t) replace, λ s, fits t (get f s)).
Definition vector_of {A} (name : string) (t : OptionType A) (new : A) (f : field S (list A)) : described S :=
  (place (str name) false f (Vector (element t) new) replace, λ s, Forall (shown t) (get f s)).
Definition array_of {A} (name : string) (t : OptionType A) (size : nat) (f : field S (list A)) : described S :=
  (place (str name) false f (Array (element t)) replace, λ s, length (get f s) = size ∧ Forall (shown t) (get f s)).
Definition string_map (name : string) (f : field S (gmap bytes bytes)) : described S := (place (str name) false f StringMap replace, λ _, True).

(** What each kind of field needs of the invariant of the struct. *)
Definition described_ok (inv : S → Prop) (e : described S) : Prop := ∀ s, e.2 s → info_ok inv e.1.1.2 e.1.1.1 e.1.2 s ∧ ∀ x, inv x → inv (e.1.2 s x).
Lemma single_described {A} inv name (t : OptionType A) f : (∀ a x, inv x → inv (set f a x)) → described_ok inv (single name t f).
Proof. intros Hi s Hs. split; [|intros x Hx; by apply Hi]. by eapply at_field_ok; [apply single_ok|]. Qed.
Lemma vector_described {A} inv name (t : OptionType A) new f : (∀ a x, inv x → inv (set f a x)) → described_ok inv (vector_of name t new f).
Proof. intros Hi s Hs. split; [|intros x Hx; by apply Hi]. by eapply at_field_ok; [apply vector_words_ok|]. Qed.
Lemma array_described {A} inv name (t : OptionType A) size f : (0 < size)%nat → (∀ a x, length a = size → inv x → inv (set f a x)) → (∀ x, inv x → length (get f x) = size) → described_ok inv (array_of name t size f).
Proof.
  intros Hs Hi Hl s [Hlen Hok]. split; [|intros x Hx; by apply Hi]. eapply at_field_ok; [apply array_words_ok; [|done]|].
  - intros E. rewrite E in Hlen. cbn in Hlen. lia.
  - intros x Hx. cbn. by rewrite Hlen, Hl.
Qed.
Lemma string_map_described inv name f : (∀ a x, inv x → inv (set f a x)) → described_ok inv (string_map name f).
Proof. intros Hi s Hs. split; [|intros x Hx; by apply Hi]. by eapply at_field_ok; [apply string_map_ok|]. Qed.

Definition names_ok (l : list bytes) : bool := forallb (λ n, forallb word_char n && bool_decide (n ≠ [])) l && bool_decide (NoDup l).
Lemma described_struct inv (l : list (described S)) s : names_ok (fst ∘ fst <$> l.*1) = true → apart s l.*1 → Forall (described_ok inv) l → valid l s → struct_ok inv l.*1 s.
Proof.
  intros [Hn Hd%bool_decide_eq_true]%andb_true_iff Ha Hok Hv. constructor; [|done|done|].
  - rewrite Forall_forall. intros e He. rewrite forallb_forall in Hn. specialize (Hn e.1.1). rewrite andb_true_iff, bool_decide_eq_true in Hn. apply Hn, list_elem_of_In, list_elem_of_fmap. by exists e.
  - unfold valid in Hv. clear Hn Hd Ha. induction Hok as [|e l He _ IH]; [constructor|]. apply Forall_cons in Hv as [Hs Hv]. cbn [fmap list_fmap]. constructor; [by apply He|by apply IH].
Qed.
End descriptions.
(** A struct, and a vector of structs, as a field of another struct. *)
Section nested.
Context {S T : Type} (l : list (described T)) (inv' : T → Prop).
Definition struct_of (name : string) (f : field S T) : described S := (place (str name) true f (Struct (str name) (table_of l)) (put_all l.*1), λ s, valid l (get f s)).
Definition braced_of (name : string) (f : field S T) : described S := (place (str name) true f (Braced (table_of l)) (put_all l.*1), λ s, valid l (get f s)).
Definition structs_of (name : string) (new : T) (f : field S (list T)) : described S :=
  (place (str name) false f (Vector (at_field true whole (Struct (str name) (table_of l))) new) (λ ss _, (λ s, put_all l.*1 s new) <$> ss), λ s, Forall (valid l) (get f s)).
Context (Hok : ∀ t, valid l t → struct_ok inv' l.*1 t) (Hne : l.*1 ≠ []).
Lemma struct_described inv name f : (∀ x, inv x → inv' (get f x)) → (∀ s x, valid l (get f s) → inv x → inv (set f (put_all l.*1 (get f s) (get f x)) x)) → described_ok inv (struct_of name f).
Proof. intros Hx Hi s Hs. split; [|intros x Hinv; by apply Hi]. by eapply at_field_ok; [apply struct_codec_ok; [done|by apply Hok]|]. Qed.
Lemma braced_described inv name f : (∀ x, inv x → inv' (get f x)) → (∀ s x, valid l (get f s) → inv x → inv (set f (put_all l.*1 (get f s) (get f x)) x)) → described_ok inv (braced_of name f).
Proof. intros Hx Hi s Hs. split; [|intros x Hinv; by apply Hi]. by eapply at_field_ok; [apply braced_codec_ok; by apply Hok|]. Qed.
Lemma structs_described inv name new f : inv' new → (∀ a x, inv x → inv (set f a x)) → described_ok inv (structs_of name new f).
Proof. intros Hn Hi s Hs. split; [|intros x Hinv; by apply Hi]. eapply at_field_ok; [eapply vector_structs_ok; [done|done|]|done]. cbn in Hs. eapply Forall_impl; [exact Hs|]. exact Hok. Qed.
End nested.
End laws.
