(* ===== verification/ServiceMessages.v ===== *)
(** * The messages of the compaction service (rocksdb [db/compaction/compaction_service_job.cc],
    [table/table_properties.cc])

    The job description that the database sends and the result that comes back, with
    all nested structs, as their tables describe them.  A field that is in no table
    is not transported: it is read back as the receiver's default. *)
From S2P Require Import Prelude CppString Slice Coding OptionText OptionTypes OptionLaws.
Local Open Scope Z_scope.

(** A field of a record. *)
Notation lens f := (mkField f (λ v s, s <| f := v |>)).

Module Input.
Record CompactionServiceInput := mkInput {
  cf_name : bytes; snapshots : list Z; input_files : list bytes; output_level : Z; db_id : bytes; has_begin : bool; begin_ : bytes; has_end : bool; end_ : bytes;
  options_file_number : Z }.
#[global] Instance CompactionServiceInput_settable : Settable CompactionServiceInput := λ s, mkInput (cf_name s) (snapshots s) (input_files s) (output_level s) (db_id s) (has_begin s) (begin_ s) (has_end s) (end_ s) (options_file_number s).
Definition new : CompactionServiceInput := mkInput [] [] [] 0 [] false [] false [] 0.
Definition fields : list (described CompactionServiceInput) :=
  [single "cf_name" kEncodedString (lens cf_name); vector_of "snapshots" kUInt64T 0 (lens snapshots); vector_of "input_files" kEncodedString [] (lens input_files);
   single "output_level" kInt (lens output_level); single "db_id" kEncodedString (lens db_id); single "has_begin" kBoolean (lens has_begin);
   single "begin" kEncodedString (lens begin_); single "has_end" kBoolean (lens has_end); single "end" kEncodedString (lens end_);
   single "options_file_number" kUInt64T (lens options_file_number)].
Definition cs_input_type_info : Table CompactionServiceInput := table_of fields.
End Input.

Module Props.
Record TableProperties := mkProps {
  orig_file_number : Z; data_size : Z; uncompressed_data_size : Z; index_size : Z; index_partitions : Z; top_level_index_size : Z; index_key_is_user_key : Z;
  index_value_is_delta_encoded : Z; udi_is_primary_index : Z; filter_size : Z; raw_key_size : Z; raw_value_size : Z; num_data_blocks : Z;
  num_data_blocks_compression_rejected : Z; num_data_blocks_compression_bypassed : Z; num_uniform_blocks : Z; num_entries : Z; num_filter_entries : Z; num_deletions : Z;
  num_merge_operands : Z; num_range_deletions : Z; format_version : Z; fixed_key_len : Z; column_family_id : Z; creation_time : Z; oldest_key_time : Z;
  newest_key_time : Z; file_creation_time : Z; slow_compression_estimated_data_size : Z; fast_compression_estimated_data_size : Z;
  external_sst_file_global_seqno_offset : Z; tail_start_offset : Z; user_defined_timestamps_persisted : Z; key_largest_seqno : Z; key_smallest_seqno : Z;
  data_block_restart_interval : Z; index_block_restart_interval : Z; separate_key_value_in_data_block : Z; db_id : bytes; db_session_id : bytes; db_host_id : bytes;
  column_family_name : bytes; filter_policy_name : bytes; comparator_name : bytes; merge_operator_name : bytes; prefix_extractor_name : bytes;
  property_collectors_names : bytes; compression_name : bytes; compression_options : bytes; seqno_to_time_mapping : bytes; user_collected_properties : gmap bytes bytes;
  readable_properties : gmap bytes bytes }.
#[global] Instance TableProperties_settable : Settable TableProperties := λ s, mkProps (orig_file_number s) (data_size s) (uncompressed_data_size s) (index_size s) (index_partitions s) (top_level_index_size s) (index_key_is_user_key s) (index_value_is_delta_encoded s) (udi_is_primary_index s) (filter_size s) (raw_key_size s) (raw_value_size s) (num_data_blocks s) (num_data_blocks_compression_rejected s) (num_data_blocks_compression_bypassed s) (num_uniform_blocks s) (num_entries s) (num_filter_entries s) (num_deletions s) (num_merge_operands s) (num_range_deletions s) (format_version s) (fixed_key_len s) (column_family_id s) (creation_time s) (oldest_key_time s) (newest_key_time s) (file_creation_time s) (slow_compression_estimated_data_size s) (fast_compression_estimated_data_size s) (external_sst_file_global_seqno_offset s) (tail_start_offset s) (user_defined_timestamps_persisted s) (key_largest_seqno s) (key_smallest_seqno s) (data_block_restart_interval s) (index_block_restart_interval s) (separate_key_value_in_data_block s) (db_id s) (db_session_id s) (db_host_id s) (column_family_name s) (filter_policy_name s) (comparator_name s) (merge_operator_name s) (prefix_extractor_name s) (property_collectors_names s) (compression_name s) (compression_options s) (seqno_to_time_mapping s) (user_collected_properties s) (readable_properties s).
Definition fields : list (described TableProperties) :=
  [single "orig_file_number" kUInt64T (lens orig_file_number); single "data_size" kUInt64T (lens data_size);
   single "uncompressed_data_size" kUInt64T (lens uncompressed_data_size); single "index_size" kUInt64T (lens index_size);
   single "index_partitions" kUInt64T (lens index_partitions); single "top_level_index_size" kUInt64T (lens top_level_index_size);
   single "index_key_is_user_key" kUInt64T (lens index_key_is_user_key); single "index_value_is_delta_encoded" kUInt64T (lens index_value_is_delta_encoded);
   single "udi_is_primary_index" kUInt64T (lens udi_is_primary_index); single "filter_size" kUInt64T (lens filter_size);
   single "raw_key_size" kUInt64T (lens raw_key_size); single "raw_value_size" kUInt64T (lens raw_value_size); single "num_data_blocks" kUInt64T (lens num_data_blocks);
   single "num_data_blocks_compression_rejected" kUInt64T (lens num_data_blocks_compression_rejected);
   single "num_data_blocks_compression_bypassed" kUInt64T (lens num_data_blocks_compression_bypassed); single "num_uniform_blocks" kUInt64T (lens num_uniform_blocks);
   single "num_entries" kUInt64T (lens num_entries); single "num_filter_entries" kUInt64T (lens num_filter_entries);
   single "num_deletions" kUInt64T (lens num_deletions); single "num_merge_operands" kUInt64T (lens num_merge_operands);
   single "num_range_deletions" kUInt64T (lens num_range_deletions); single "format_version" kUInt64T (lens format_version);
   single "fixed_key_len" kUInt64T (lens fixed_key_len); single "column_family_id" kUInt64T (lens column_family_id);
   single "creation_time" kUInt64T (lens creation_time); single "oldest_key_time" kUInt64T (lens oldest_key_time);
   single "newest_key_time" kUInt64T (lens newest_key_time); single "file_creation_time" kUInt64T (lens file_creation_time);
   single "slow_compression_estimated_data_size" kUInt64T (lens slow_compression_estimated_data_size);
   single "fast_compression_estimated_data_size" kUInt64T (lens fast_compression_estimated_data_size);
   single "external_sst_file_global_seqno_offset" kUInt64T (lens external_sst_file_global_seqno_offset); single "tail_start_offset" kUInt64T (lens tail_start_offset);
   single "user_defined_timestamps_persisted" kUInt64T (lens user_defined_timestamps_persisted); single "key_largest_seqno" kUInt64T (lens key_largest_seqno);
   single "key_smallest_seqno" kUInt64T (lens key_smallest_seqno); single "data_block_restart_interval" kUInt64T (lens data_block_restart_interval);
   single "index_block_restart_interval" kUInt64T (lens index_block_restart_interval);
   single "separate_key_value_in_data_block" kUInt64T (lens separate_key_value_in_data_block); single "db_id" kEncodedString (lens db_id);
   single "db_session_id" kEncodedString (lens db_session_id); single "db_host_id" kEncodedString (lens db_host_id);
   single "column_family_name" kEncodedString (lens column_family_name); single "filter_policy_name" kEncodedString (lens filter_policy_name);
   single "comparator_name" kEncodedString (lens comparator_name); single "merge_operator_name" kEncodedString (lens merge_operator_name);
   single "prefix_extractor_name" kEncodedString (lens prefix_extractor_name); single "property_collectors_names" kEncodedString (lens property_collectors_names);
   single "compression_name" kEncodedString (lens compression_name); single "compression_options" kEncodedString (lens compression_options);
   single "seqno_to_time_mapping" kEncodedString (lens seqno_to_time_mapping); string_map "user_collected_properties" (lens user_collected_properties);
   string_map "readable_properties" (lens readable_properties)].
Definition table_properties_type_info : Table TableProperties := table_of fields.
Definition new : TableProperties :=
  mkProps 0 0 0 0 0 0 0 0 0 0 0 0 0 0 0 0 0 0 0 0 0 0 0 2147483647 0 0 0 0 0 0 0 0 1 (2 ^ 64 - 1) (2 ^ 64 - 1) 0 0 0 [] [] [] [] [] [] [] [] [] [] [] [] ∅ ∅.
End Props.

Module OutputFile.
Record CompactionServiceOutputFile := mkOutputFile {
  file_name : bytes; file_size : Z; smallest_seqno : Z; largest_seqno : Z; smallest_internal_key : bytes; largest_internal_key : bytes; oldest_ancester_time : Z;
  file_creation_time : Z; epoch_number : Z; file_checksum : bytes; file_checksum_func_name : bytes; paranoid_hash : Z; marked_for_compaction : bool; unique_id : list Z;
  table_properties : Props.TableProperties; is_proximal_level_output : bool; file_temperature : Temperature }.
#[global] Instance CompactionServiceOutputFile_settable : Settable CompactionServiceOutputFile := λ s, mkOutputFile (file_name s) (file_size s) (smallest_seqno s) (largest_seqno s) (smallest_internal_key s) (largest_internal_key s) (oldest_ancester_time s) (file_creation_time s) (epoch_number s) (file_checksum s) (file_checksum_func_name s) (paranoid_hash s) (marked_for_compaction s) (unique_id s) (table_properties s) (is_proximal_level_output s) (file_temperature s).
Definition fields : list (described CompactionServiceOutputFile) :=
  [single "file_name" kEncodedString (lens file_name); single "file_size" kUInt64T (lens file_size); single "smallest_seqno" kUInt64T (lens smallest_seqno);
   single "largest_seqno" kUInt64T (lens largest_seqno); single "smallest_internal_key" kEncodedString (lens smallest_internal_key);
   single "largest_internal_key" kEncodedString (lens largest_internal_key); single "oldest_ancester_time" kUInt64T (lens oldest_ancester_time);
   single "file_creation_time" kUInt64T (lens file_creation_time); single "epoch_number" kUInt64T (lens epoch_number);
   single "file_checksum" kEncodedString (lens file_checksum); single "file_checksum_func_name" kEncodedString (lens file_checksum_func_name);
   single "paranoid_hash" kUInt64T (lens paranoid_hash); single "marked_for_compaction" kBoolean (lens marked_for_compaction);
   array_of "unique_id" kUInt64T 2 (lens unique_id); braced_of Props.fields "table_properties" (lens table_properties);
   single "is_proximal_level_output" kBoolean (lens is_proximal_level_output); single "file_temperature" kTemperature (lens file_temperature)].
Definition cs_output_file_type_info : Table CompactionServiceOutputFile := table_of fields.
(** Two flags of a new object are not initialized. *)
Definition new (marked proximal : bool) : CompactionServiceOutputFile :=
  mkOutputFile [] 0 0 0 [] [] 0 0 0 [] (str "Unknown") 0 marked [0; 0] Props.new proximal kUnknown.
End OutputFile.

Module JobStats.
Record CompactionJobStats := mkJobStats {
  elapsed_micros : Z; cpu_micros : Z; has_accurate_num_input_records : bool; num_input_records : Z; num_blobs_read : Z; num_input_files : Z;
  num_input_files_trivially_moved : Z; num_input_files_at_output_level : Z; num_filtered_input_files : Z; num_filtered_input_files_at_output_level : Z;
  num_output_records : Z; num_output_files : Z; num_output_files_blob : Z; is_full_compaction : bool; is_manual_compaction : bool; is_remote_compaction : bool;
  total_input_bytes : Z; total_blob_bytes_read : Z; total_output_bytes : Z; total_output_bytes_blob : Z; total_skipped_input_bytes : Z; num_records_replaced : Z;
  total_input_raw_key_bytes : Z; total_input_raw_value_bytes : Z; num_input_deletion_records : Z; num_expired_deletion_records : Z; num_corrupt_keys : Z;
  file_write_nanos : Z; file_range_sync_nanos : Z; file_fsync_nanos : Z; file_prepare_write_nanos : Z; smallest_output_key_prefix : bytes;
  largest_output_key_prefix : bytes; num_single_del_fallthru : Z; num_single_del_mismatch : Z }.
#[global] Instance CompactionJobStats_settable : Settable CompactionJobStats := λ s, mkJobStats (elapsed_micros s) (cpu_micros s) (has_accurate_num_input_records s) (num_input_records s) (num_blobs_read s) (num_input_files s) (num_input_files_trivially_moved s) (num_input_files_at_output_level s) (num_filtered_input_files s) (num_filtered_input_files_at_output_level s) (num_output_records s) (num_output_files s) (num_output_files_blob s) (is_full_compaction s) (is_manual_compaction s) (is_remote_compaction s) (total_input_bytes s) (total_blob_bytes_read s) (total_output_bytes s) (total_output_bytes_blob s) (total_skipped_input_bytes s) (num_records_replaced s) (total_input_raw_key_bytes s) (total_input_raw_value_bytes s) (num_input_deletion_records s) (num_expired_deletion_records s) (num_corrupt_keys s) (file_write_nanos s) (file_range_sync_nanos s) (file_fsync_nanos s) (file_prepare_write_nanos s) (smallest_output_key_prefix s) (largest_output_key_prefix s) (num_single_del_fallthru s) (num_single_del_mismatch s).
Definition fields : list (described CompactionJobStats) :=
  [single "elapsed_micros" kUInt64T (lens elapsed_micros); single "cpu_micros" kUInt64T (lens cpu_micros); single "num_input_records" kUInt64T (lens num_input_records);
   single "num_blobs_read" kUInt64T (lens num_blobs_read); single "num_input_files" kSizeT (lens num_input_files);
   single "num_input_files_at_output_level" kSizeT (lens num_input_files_at_output_level); single "num_output_records" kUInt64T (lens num_output_records);
   single "num_output_files" kSizeT (lens num_output_files); single "num_output_files_blob" kSizeT (lens num_output_files_blob);
   single "is_full_compaction" kBoolean (lens is_full_compaction); single "is_manual_compaction" kBoolean (lens is_manual_compaction);
   single "is_remote_compaction" kBoolean (lens is_remote_compaction); single "total_input_bytes" kUInt64T (lens total_input_bytes);
   single "total_blob_bytes_read" kUInt64T (lens total_blob_bytes_read); single "total_output_bytes" kUInt64T (lens total_output_bytes);
   single "total_output_bytes_blob" kUInt64T (lens total_output_bytes_blob); single "num_records_replaced" kUInt64T (lens num_records_replaced);
   single "total_input_raw_key_bytes" kUInt64T (lens total_input_raw_key_bytes); single "total_input_raw_value_bytes" kUInt64T (lens total_input_raw_value_bytes);
   single "num_input_deletion_records" kUInt64T (lens num_input_deletion_records); single "num_expired_deletion_records" kUInt64T (lens num_expired_deletion_records);
   single "num_corrupt_keys" kUInt64T (lens num_corrupt_keys); single "file_write_nanos" kUInt64T (lens file_write_nanos);
   single "file_range_sync_nanos" kUInt64T (lens file_range_sync_nanos); single "file_fsync_nanos" kUInt64T (lens file_fsync_nanos);
   single "file_prepare_write_nanos" kUInt64T (lens file_prepare_write_nanos); single "smallest_output_key_prefix" kEncodedString (lens smallest_output_key_prefix);
   single "largest_output_key_prefix" kEncodedString (lens largest_output_key_prefix); single "num_single_del_fallthru" kUInt64T (lens num_single_del_fallthru);
   single "num_single_del_mismatch" kUInt64T (lens num_single_del_mismatch)].
Definition compaction_job_stats_type_info : Table CompactionJobStats := table_of fields.
Definition Reset : CompactionJobStats :=
  mkJobStats 0 0 true 0 0 0 0 0 0 0 0 0 0 false false false 0 0 0 0 0 0 0 0 0 0 0 0 0 0 0 [] [] 0 0.
End JobStats.

Module LevelStats.
Record CompactionStats := mkStats {
  micros : Z; cpu_micros : Z; bytes_read_non_output_levels : Z; bytes_read_output_level : Z; bytes_skipped_non_output_levels : Z; bytes_skipped_output_level : Z;
  bytes_read_blob : Z; bytes_written : Z; bytes_written_pre_comp : Z; bytes_written_blob : Z; bytes_moved : Z; num_input_files_in_non_output_levels : Z;
  num_input_files_in_output_level : Z; num_filtered_input_files_in_non_output_levels : Z; num_filtered_input_files_in_output_level : Z; num_output_files : Z;
  num_output_files_blob : Z; num_input_records : Z; num_dropped_records : Z; num_output_records : Z; count : Z; counts : list Z }.
#[global] Instance CompactionStats_settable : Settable CompactionStats := λ s, mkStats (micros s) (cpu_micros s) (bytes_read_non_output_levels s) (bytes_read_output_level s) (bytes_skipped_non_output_levels s) (bytes_skipped_output_level s) (bytes_read_blob s) (bytes_written s) (bytes_written_pre_comp s) (bytes_written_blob s) (bytes_moved s) (num_input_files_in_non_output_levels s) (num_input_files_in_output_level s) (num_filtered_input_files_in_non_output_levels s) (num_filtered_input_files_in_output_level s) (num_output_files s) (num_output_files_blob s) (num_input_records s) (num_dropped_records s) (num_output_records s) (count s) (counts s).
(** [CompactionReason::kNumOfReasons]; all but the last are transported. *)
Definition kNumOfReasons : nat := 21.
(** The table has [count] as a 64-bit number: it is an [int], and the number is made of
    it and of the first of the [counts], which follows it in memory. *)
Definition count_and_first : field CompactionStats Z :=
  mkField (λ s, u32 (count s) + 2 ^ 32 * u32 (default 0 (counts s !! 0%nat)))
    (λ v s, s <| count := s32 v |> <| counts := <[0%nat := s32 (Z.shiftr v 32)]> (counts s) |>).
(** The counters hold values of type [int], one for each reason. *)
Definition ints (s : CompactionStats) : Prop :=
  - 2 ^ 31 ≤ count s < 2 ^ 31 ∧ length (counts s) = kNumOfReasons ∧ Forall (λ z, - 2 ^ 31 ≤ z < 2 ^ 31) (counts s).
Definition first_counts : field CompactionStats (list Z) :=
  mkField (λ s, take (kNumOfReasons - 1) (counts s)) (λ v s, s <| counts := v ++ drop (kNumOfReasons - 1) (counts s) |>).
Definition fields : list (described CompactionStats) :=
  [single "micros" kUInt64T (lens micros); single "cpu_micros" kUInt64T (lens cpu_micros);
   single "bytes_read_non_output_levels" kUInt64T (lens bytes_read_non_output_levels); single "bytes_read_output_level" kUInt64T (lens bytes_read_output_level);
   single "bytes_skipped_non_output_levels" kUInt64T (lens bytes_skipped_non_output_levels);
   single "bytes_skipped_output_level" kUInt64T (lens bytes_skipped_output_level); single "bytes_read_blob" kUInt64T (lens bytes_read_blob);
   single "bytes_written" kUInt64T (lens bytes_written); single "bytes_written_blob" kUInt64T (lens bytes_written_blob);
   single "bytes_moved" kUInt64T (lens bytes_moved); single "num_input_files_in_non_output_levels" kInt (lens num_input_files_in_non_output_levels);
   single "num_input_files_in_output_level" kInt (lens num_input_files_in_output_level);
   single "num_filtered_input_files_in_non_output_levels" kInt (lens num_filtered_input_files_in_non_output_levels);
   single "num_filtered_input_files_in_output_level" kInt (lens num_filtered_input_files_in_output_level); single "num_output_files" kInt (lens num_output_files);
   single "num_output_files_blob" kInt (lens num_output_files_blob); single "num_input_records" kUInt64T (lens num_input_records);
   single "num_dropped_records" kUInt64T (lens num_dropped_records); single "num_output_records" kUInt64T (lens num_output_records);
   (place (str "count") false count_and_first (Single kUInt64T) replace, ints); array_of "counts" kInt (kNumOfReasons - 1) first_counts].
Definition compaction_stats_type_info : Table CompactionStats := table_of fields.
Definition new : CompactionStats :=
  mkStats 0 0 0 0 0 0 0 0 0 0 0 0 0 0 0 0 0 0 0 0 0 (replicate kNumOfReasons 0).
End LevelStats.

Module FullStats.
Record CompactionStatsFull := mkFull {
  output_level_stats : LevelStats.CompactionStats; has_proximal_level_output : bool; proximal_level_stats : LevelStats.CompactionStats }.
#[global] Instance CompactionStatsFull_settable : Settable CompactionStatsFull := λ s, mkFull (output_level_stats s) (has_proximal_level_output s) (proximal_level_stats s).
Definition fields : list (described CompactionStatsFull) :=
  [struct_of LevelStats.fields "output_level_stats" (lens output_level_stats); single "has_proximal_level_output" kBoolean (lens has_proximal_level_output);
   struct_of LevelStats.fields "proximal_level_stats" (lens proximal_level_stats)].
Definition compaction_internal_stats_type_info : Table CompactionStatsFull := table_of fields.
Definition new : CompactionStatsFull := mkFull LevelStats.new false LevelStats.new.
End FullStats.

Module Adapter.
Record StatusSerializationAdapter := mkAdapter {
  code : Z; subcode : Z; severity : Z; message : bytes }.
#[global] Instance StatusSerializationAdapter_settable : Settable StatusSerializationAdapter := λ s, mkAdapter (code s) (subcode s) (severity s) (message s).
Definition fields : list (described StatusSerializationAdapter) :=
  [single "code" kUInt8T (lens code); single "subcode" kUInt8T (lens subcode); single "severity" kUInt8T (lens severity); single "message" kEncodedString (lens message)].
Definition status_adapter_type_info : Table StatusSerializationAdapter := table_of fields.
(** The message ends at its first zero. *)
Definition of_status (s : Status) : StatusSerializationAdapter := mkAdapter (OptionTypes.code s) (OptionTypes.subcode s) (sev s) (c_str (state s)).
Definition kMaxSubCode : Z := 20.
Definition GetStatus (a : StatusSerializationAdapter) : res Status :=
  let* _ := assert_ (negb (subcode a =? kMaxSubCode)) in Ok (mkStatus (code a) (subcode a) (severity a) false false 0 (message a)).
(** How a [Status] is written and read; a new adapter is not initialized. *)
Definition StatusCodec (uninitialized : StatusSerializationAdapter) : Codec Status :=
  mkCodec (λ p cfg _ value _, let* (st, a, _) := ParseType p cfg false value status_adapter_type_info uninitialized in let* s := GetStatus a in Ok (st, s))
    (λ p _ s, let (st, result) := SerializeType p status_adapter_type_info (of_status s) [] in (st, c_open :: result ++ [c_close])).
End Adapter.

Module Result.
Record CompactionServiceResult := mkResult {
  status : Status; output_files : list OutputFile.CompactionServiceOutputFile; output_level : Z; output_path : bytes; bytes_read : Z; bytes_written : Z;
  stats : JobStats.CompactionJobStats; internal_stats : FullStats.CompactionStatsFull }.
#[global] Instance CompactionServiceResult_settable : Settable CompactionServiceResult := λ s, mkResult (status s) (output_files s) (output_level s) (output_path s) (bytes_read s) (bytes_written s) (stats s) (internal_stats s).
Definition new : CompactionServiceResult := mkResult OK [] 0 [] 0 0 JobStats.Reset FullStats.new.
Section result.
Context (uninitialized : Adapter.StatusSerializationAdapter) (marked proximal : bool).
Definition fits_status (s : Status) : Prop := in_u 8 (code s) ∧ in_u 8 (subcode s) ∧ subcode s ≠ Adapter.kMaxSubCode ∧ in_u 8 (sev s).
(** A status that is read back: without its flags, its message up to the first zero. *)
Definition status_received (s : Status) : Status := mkStatus (code s) (subcode s) (sev s) false false 0 (c_str (state s)).
Definition fields : list (described CompactionServiceResult) :=
  [(place (str "status") true (lens status) (Adapter.StatusCodec uninitialized) (λ s _, status_received s), λ r, fits_status (status r));
   structs_of OutputFile.fields "output_files" (OutputFile.new marked proximal) (lens output_files); single "output_level" kInt (lens output_level);
   single "output_path" kEncodedString (lens output_path); single "bytes_read" kUInt64T (lens bytes_read); single "bytes_written" kUInt64T (lens bytes_written);
   struct_of JobStats.fields "stats" (lens stats); struct_of FullStats.fields "internal_stats" (lens internal_stats)].
Definition cs_result_type_info : Table CompactionServiceResult := table_of fields.
End result.
End Result.

(** ** Reading and writing *)
Definition kOptionsString : Z := 1.
Definition read_config : ConfigOptions := mkConfig true true.
Definition Write {S} (p : Process) (table : Table S) (s : S) (output : bytes) : Status * bytes :=
  SerializeType p table s (output ++ EncodeFixed32 true kOptionsString).
Definition Read {S} (p : Process) (table : Table S) (data_str : bytes) (s : S) : res (Status * S) :=
  if (length data_str <=? 4)%nat then Ok (InvalidArgument, s)
  else if DecodeFixed32 true data_str =? kOptionsString then let* (st, s, _) := ParseType p read_config false (drop 4 data_str) table s in Ok (st, s)
  else Ok (NotSupported, s).
