(* ===== verification/ServiceLaws.v ===== *)
(** * The fields of the messages of the compaction service

    For each message and each struct in it: that its table describes a struct whose
    fields do not disturb each other, and what of the struct is read back. *)
From S2P Require Import Prelude CppString Slice Coding OptionText OptionTypes OptionLaws ServiceMessages.
Local Open Scope Z_scope.

Ltac solve_apart :=
  cbn [apart fmap list_fmap];
  repeat match goal with |- _ ∧ _ => split | |- True => exact I | |- Forall _ [] => apply Forall_nil_2 | |- Forall _ (_ :: _) => apply Forall_cons_2; [try (intros ?; reflexivity)|] end.
Ltac describe :=
  repeat (apply Forall_cons; split; [first [apply single_described; intros; (exact I || assumption) | apply vector_described; intros; (exact I || assumption) | apply string_map_described; intros; (exact I || assumption) | idtac]|]); try apply Forall_nil_2.
Section laws.
Context (pw : Process) (Hwriter : process_ok pw).
Lemma input_struct s : valid Input.fields s → struct_ok pw any Input.fields.*1 s.
Proof.
  apply described_struct; [vm_compute; reflexivity| |].
  - unfold Input.fields. solve_apart.
  - unfold Input.fields. describe.
Qed.
Lemma input_complete s x : put_all Input.fields.*1 s x = s.
Proof. destruct s, x. reflexivity. Qed.
Lemma props_struct s : valid Props.fields s → struct_ok pw any Props.fields.*1 s.
Proof.
  apply described_struct; [vm_compute; reflexivity| |].
  - unfold Props.fields. solve_apart.
  - unfold Props.fields. describe.
Qed.
Lemma props_complete s x : put_all Props.fields.*1 s x = s.
Proof. destruct s, x. reflexivity. Qed.

(** ** The files of a result *)
Definition file_inv (f : OutputFile.CompactionServiceOutputFile) : Prop := length (OutputFile.unique_id f) = 2%nat.
Lemma file_struct s : valid OutputFile.fields s → struct_ok pw file_inv OutputFile.fields.*1 s.
Proof.
  apply described_struct; [vm_compute; reflexivity| |].
  - unfold OutputFile.fields. solve_apart.
  - unfold OutputFile.fields. describe.
    + apply array_described; [done|lia|done|done].
    + by apply (braced_described pw Hwriter _ any); [apply props_struct|..].
Qed.
Lemma file_complete s x : put_all OutputFile.fields.*1 s x = s.
Proof.
  transitivity (s <| OutputFile.table_properties := put_all Props.fields.*1 (OutputFile.table_properties s) (OutputFile.table_properties x) |>); [by destruct s, x|].
  rewrite props_complete. by destruct s.
Qed.

(** ** The statistics: what is not in the tables is kept from the receiver *)
Lemma job_stats_struct s : valid JobStats.fields s → struct_ok pw any JobStats.fields.*1 s.
Proof.
  apply described_struct; [vm_compute; reflexivity| |].
  - unfold JobStats.fields. solve_apart.
  - unfold JobStats.fields. describe.
Qed.
Definition job_stats_received (s x : JobStats.CompactionJobStats) : JobStats.CompactionJobStats :=
  s <| JobStats.has_accurate_num_input_records := JobStats.has_accurate_num_input_records x |>
    <| JobStats.num_input_files_trivially_moved := JobStats.num_input_files_trivially_moved x |>
    <| JobStats.num_filtered_input_files := JobStats.num_filtered_input_files x |>
    <| JobStats.num_filtered_input_files_at_output_level := JobStats.num_filtered_input_files_at_output_level x |>
    <| JobStats.total_skipped_input_bytes := JobStats.total_skipped_input_bytes x |>.
Lemma job_stats_back s x : put_all JobStats.fields.*1 s x = job_stats_received s x.
Proof. by destruct s, x. Qed.

Definition stats_inv (s : LevelStats.CompactionStats) : Prop := length (LevelStats.counts s) = LevelStats.kNumOfReasons.
Definition stats_received (s x : LevelStats.CompactionStats) : LevelStats.CompactionStats :=
  s <| LevelStats.bytes_written_pre_comp := LevelStats.bytes_written_pre_comp x |>
    <| LevelStats.counts := take 20 (LevelStats.counts s) ++ drop 20 (LevelStats.counts x) |>.
Lemma valid_ints s : valid LevelStats.fields s → LevelStats.ints s.
Proof. intros Hv. do 19 apply Forall_inv_tail in Hv. exact (Forall_inv Hv). Qed.
Lemma s32_u32 z : - 2 ^ 31 ≤ z < 2 ^ 31 → s32 (u32 z) = z.
Proof.
  intros Hz. unfold s32, u32. rewrite <- (Zplus_mod_idemp_l (z mod 2 ^ 32)). rewrite Z.mod_mod by lia. rewrite Zplus_mod_idemp_l. rewrite Z.mod_small by lia. lia.
Qed.
Lemma count_halves a b : - 2 ^ 31 ≤ a < 2 ^ 31 → - 2 ^ 31 ≤ b < 2 ^ 31 → s32 (u32 a + 2 ^ 32 * u32 b) = a ∧ s32 (Z.shiftr (u32 a + 2 ^ 32 * u32 b) 32) = b.
Proof.
  intros Ha Hb. pose proof (u32_range a). split.
  - rewrite <- (s32_u32 a) at 2 by done. unfold s32. f_equal. replace (u32 a + 2 ^ 32 * u32 b + 2 ^ 31) with (u32 a + 2 ^ 31 + u32 b * 2 ^ 32) by lia. by rewrite Z.mod_add by lia.
  - rewrite <- (s32_u32 b) at 2 by done. f_equal. rewrite Z.shiftr_div_pow2 by lia. rewrite (Z.mul_comm (2 ^ 32)), Z.div_add by lia. rewrite Z.div_small by lia. lia.
Qed.
Lemma count_read s : LevelStats.ints s → let v := get LevelStats.count_and_first s in
  in_u 64 v ∧ s32 v = LevelStats.count s ∧ LevelStats.counts s !! 0%nat = Some (s32 (Z.shiftr v 32)).
Proof.
  intros (Hc & Hl & Hf) v. destruct (LevelStats.counts s) as [|z l] eqn:E; [done|]. pose proof (Forall_inv Hf) as Hz. cbn beta in Hz. destruct (count_halves (LevelStats.count s) z Hc Hz) as [H1 H2].
  assert (Ev : v = u32 (LevelStats.count s) + 2 ^ 32 * u32 z) by (unfold v; cbn [get LevelStats.count_and_first]; by rewrite E). rewrite Ev, H1, H2.
  pose proof (u32_range (LevelStats.count s)). pose proof (u32_range z). split; [|done]. lia.
Qed.
Lemma count_apart s x : LevelStats.ints s →
  put_field LevelStats.count_and_first replace s (put_field LevelStats.first_counts replace s x) = put_field LevelStats.first_counts replace s (put_field LevelStats.count_and_first replace s x).
Proof.
  intros Hs. destruct (count_read s Hs) as (_ & _ & H0). set (v := get LevelStats.count_and_first s) in *. destruct Hs as (_ & Hl & _). unfold LevelStats.kNumOfReasons in Hl. set (z := s32 (Z.shiftr v 32)) in *.
  assert (E : <[0%nat := z]> (take 20 (LevelStats.counts s) ++ drop 20 (LevelStats.counts x)) = take 20 (LevelStats.counts s) ++ drop 20 (<[0%nat := z]> (LevelStats.counts x))).
  { rewrite drop_insert_lt by lia. rewrite insert_app_l by (rewrite length_take; lia). f_equal. apply list_insert_id. by rewrite lookup_take by lia. }
  transitivity (x <| LevelStats.count := s32 v |> <| LevelStats.counts := <[0%nat := z]> (take 20 (LevelStats.counts s) ++ drop 20 (LevelStats.counts x)) |>); [by destruct x|]. rewrite E. by destruct x.
Qed.
Lemma stats_struct s : valid LevelStats.fields s → struct_ok pw stats_inv LevelStats.fields.*1 s.
Proof.
  intros Hv. pose proof (valid_ints s Hv) as Hi. apply described_struct; [vm_compute; reflexivity| | |done].
  - unfold LevelStats.fields. solve_apart. intros x. by apply count_apart.
  - unfold LevelStats.fields. describe.
    + intros t Ht. split; [|intros x Hx; unfold stats_inv in *; cbn; by rewrite length_insert]. eapply at_field_ok; [apply single_ok; [done|]|done]. apply (count_read t Ht).
    + apply array_described; [done|unfold LevelStats.kNumOfReasons; lia| |].
      * intros a x Ha Hx. unfold stats_inv in *. cbn. rewrite length_app, length_drop, Ha, Hx. unfold LevelStats.kNumOfReasons. lia.
      * intros x Hx. unfold stats_inv in Hx. cbn. rewrite length_take, Hx. unfold LevelStats.kNumOfReasons. lia.
Qed.
Lemma stats_back s x : LevelStats.ints s → put_all LevelStats.fields.*1 s x = stats_received s x.
Proof.
  intros Hs. destruct (count_read s Hs) as (_ & Hc & H0). set (v := get LevelStats.count_and_first s) in *. set (pre := LevelStats.bytes_written_pre_comp x). set (z := s32 (Z.shiftr v 32)) in *.
  transitivity (s <| LevelStats.bytes_written_pre_comp := pre |> <| LevelStats.count := s32 v |> <| LevelStats.counts := take 20 (LevelStats.counts s) ++ drop 20 (<[0%nat := z]> (LevelStats.counts x)) |>); [by destruct s, x|].
  rewrite drop_insert_lt, Hc by lia. by destruct s, x.
Qed.

Definition full_inv (s : FullStats.CompactionStatsFull) : Prop := stats_inv (FullStats.output_level_stats s) ∧ stats_inv (FullStats.proximal_level_stats s).
Definition full_received (s x : FullStats.CompactionStatsFull) : FullStats.CompactionStatsFull :=
  s <| FullStats.output_level_stats := stats_received (FullStats.output_level_stats s) (FullStats.output_level_stats x) |>
    <| FullStats.proximal_level_stats := stats_received (FullStats.proximal_level_stats s) (FullStats.proximal_level_stats x) |>.
Lemma stats_kept s x : valid LevelStats.fields s → stats_inv x → stats_inv (put_all LevelStats.fields.*1 s x).
Proof.
  intros Hs%valid_ints Hx. rewrite stats_back by done. destruct Hs as (_ & Hl & _). unfold stats_inv in *. cbn. rewrite length_app, length_take, length_drop, Hl, Hx. unfold LevelStats.kNumOfReasons. lia.
Qed.
Lemma full_struct s : valid FullStats.fields s → struct_ok pw full_inv FullStats.fields.*1 s.
Proof.
  apply described_struct; [vm_compute; reflexivity| |].
  - unfold FullStats.fields. solve_apart.
  - unfold FullStats.fields. describe.
    + apply (struct_described pw Hwriter _ stats_inv); [exact stats_struct|done|by intros x []|]. intros t x Ht [H1 H2]. split; [by apply stats_kept|done].
    + apply (struct_described pw Hwriter _ stats_inv); [exact stats_struct|done|by intros x []|]. intros t x Ht [H1 H2]. split; [done|by apply stats_kept].
Qed.
Lemma full_back s x : valid FullStats.fields s → put_all FullStats.fields.*1 s x = full_received s x.
Proof.
  intros Hv. pose proof (Forall_inv Hv) as H1. do 2 apply Forall_inv_tail in Hv. pose proof (Forall_inv Hv) as H2. cbn in H1, H2.
  transitivity (s <| FullStats.output_level_stats := put_all LevelStats.fields.*1 (FullStats.output_level_stats s) (FullStats.output_level_stats x) |>
    <| FullStats.proximal_level_stats := put_all LevelStats.fields.*1 (FullStats.proximal_level_stats s) (FullStats.proximal_level_stats x) |>); [by destruct s, x|].
  by rewrite !stats_back by by apply valid_ints.
Qed.
Lemma full_kept s x : valid FullStats.fields s → full_inv x → full_inv (put_all FullStats.fields.*1 s x).
Proof.
  intros Hs [H1 H2]. rewrite full_back by done. pose proof (Forall_inv Hs) as V1. do 2 apply Forall_inv_tail in Hs. pose proof (Forall_inv Hs) as V2. cbn in V1, V2.
  unfold full_inv, full_received. cbn. rewrite <- !stats_back by by apply valid_ints. split; by apply stats_kept.
Qed.

(** ** Statuses *)
Lemma adapter_struct s : valid Adapter.fields s → struct_ok pw any Adapter.fields.*1 s.
Proof.
  apply described_struct; [vm_compute; reflexivity| |].
  - unfold Adapter.fields. solve_apart.
  - unfold Adapter.fields. describe.
Qed.
Lemma status_ok u name s : Result.fits_status s → codec_ok pw (Adapter.StatusCodec u) name any (λ s _, Result.status_received s) s.
Proof.
  intros (Hc & Hs & Hm & Hv). assert (Ha : valid Adapter.fields (Adapter.of_status s)) by (repeat (apply Forall_cons; split; [done|]); by apply Forall_nil_2).
  destruct (struct_text_ok pw Hwriter any Adapter.fields.*1 _ (adapter_struct _ Ha)) as (text & Hser & Hq & Hb & _ & Hp). exists (c_open :: text ++ [c_close]), text. split; [|split; [by constructor|]].
  - cbn [c_serialize Adapter.StatusCodec]. unfold Adapter.status_adapter_type_info, table_of. by rewrite Hser.
  - intros p cfg old Hpr _. cbn [c_parse Adapter.StatusCodec]. unfold Adapter.status_adapter_type_info, table_of. rewrite (Hp p) by (done || by left). cbn [res_bind].
    assert (E : put_all Adapter.fields.*1 (Adapter.of_status s) u = Adapter.of_status s) by by destruct u. rewrite E. unfold Adapter.GetStatus. cbn [Adapter.subcode Adapter.of_status].
    by rewrite (proj2 (Z.eqb_neq _ _) Hm).
Qed.

(** ** Results *)
Definition result_inv (r : Result.CompactionServiceResult) : Prop := full_inv (Result.internal_stats r).
Definition received (r x : Result.CompactionServiceResult) : Result.CompactionServiceResult :=
  r <| Result.status := Result.status_received (Result.status r) |> <| Result.stats := job_stats_received (Result.stats r) (Result.stats x) |>
    <| Result.internal_stats := full_received (Result.internal_stats r) (Result.internal_stats x) |>.
Lemma result_struct u m b r : valid (Result.fields u m b) r → struct_ok pw result_inv (Result.fields u m b).*1 r.
Proof.
  apply described_struct; [vm_compute; reflexivity| |].
  - unfold Result.fields. solve_apart.
  - unfold Result.fields. describe.
    + intros s Hs. split; [|done]. eapply at_field_ok; [by apply status_ok|done].
    + by apply (structs_described pw Hwriter _ file_inv); [exact file_struct|..].
    + by apply (struct_described pw Hwriter _ any); [exact job_stats_struct|..].
    + apply (struct_described pw Hwriter _ full_inv); [exact full_struct|done|done|]. intros s x Hs Hx. exact (full_kept _ _ Hs Hx).
Qed.
Lemma result_back u m b r x : valid (Result.fields u m b) r → put_all (Result.fields u m b).*1 r x = received r x.
Proof.
  intros Hv. do 7 apply Forall_inv_tail in Hv. pose proof (Forall_inv Hv) as Hf. cbn in Hf.
  transitivity ((received r x) <| Result.output_files := (λ s, put_all OutputFile.fields.*1 s (OutputFile.new m b)) <$> Result.output_files r |>
    <| Result.stats := put_all JobStats.fields.*1 (Result.stats r) (Result.stats x) |>
    <| Result.internal_stats := put_all FullStats.fields.*1 (Result.internal_stats r) (Result.internal_stats x) |>); [destruct r, x; reflexivity|].
  rewrite job_stats_back, full_back by done. rewrite (list_fmap_ext _ (λ s, s)) by (intros; apply file_complete). rewrite list_fmap_id. by destruct r, x.
Qed.
End laws.
