(* ===== verification/ServiceTrip.v ===== *)
(** * The messages of the compaction service make round trips

    What one process writes, another reads back, whatever the iteration order of the hash maps
    in the two processes: every valid job description unchanged, and of a
    result everything but a few statistics. *)
From S2P Require Import Prelude CppString Slice Coding OptionText OptionTypes OptionLaws ServiceMessages ServiceLaws.
Local Open Scope Z_scope.

(** ** Messages *)
Lemma message_read pw pr {S} (inv : S → Prop) (l : list (placed S)) s x : process_ok pw → process_ok pr → l ≠ [] → struct_ok pw inv l s → inv x →
  ∃ data, Write pw (fst <$> l) s [] = (OK, data) ∧ Read pr (fst <$> l) data x = Ok (OK, put_all l s x).
Proof.
  intros Hw Hr Hne Hok Hx. destruct (struct_text_ok pw Hw inv l s Hok) as (text & Hs & _ & _ & Heq & Hp). exists (EncodeFixed32 true kOptionsString ++ text). split; [by unfold Write; rewrite Hs|].
  specialize (Heq Hne). destruct text as [|b text]; [by apply elem_of_nil in Heq|]. unfold Read. change (drop 4 (EncodeFixed32 true kOptionsString ++ b :: text)) with (b :: text).
  rewrite (proj2 (Nat.leb_gt _ _)) by (rewrite length_app; change (length (EncodeFixed32 true kOptionsString)) with 4%nat; cbn [length]; lia). change (DecodeFixed32 true (EncodeFixed32 true kOptionsString ++ b :: text)) with kOptionsString. rewrite Z.eqb_refl. rewrite Hp by auto. done.
Qed.
(** What is written depends on the writers of the fields only. *)
Lemma lookup_same {S} (l l' : Table S) n : Forall2 (λ e e', e.1 = e'.1 ∧ Serialize e.2 = Serialize e'.2) l l' →
  match lookup_name n l, lookup_name n l' with Some i, Some i' => Serialize i = Serialize i' | None, None => True | _, _ => False end.
Proof. induction 1 as [|[m i] [m' i'] l l' [E Es] _ IH]; [done|]. cbn [fst snd] in *. subst m'. cbn [lookup_name]. by destruct (decide (m = n)). Qed.
Lemma write_same {S} p (l l' : Table S) s r : Forall2 (λ e e', e.1 = e'.1 ∧ Serialize e.2 = Serialize e'.2) l l' → SerializeType p l s r = SerializeType p l' s r.
Proof.
  intros Hl. assert (El : l.*1 = l'.*1) by (clear -Hl; induction Hl as [|e e' l l' [E _] _ IH]; [done|]; cbn [fmap list_fmap]; by rewrite E, IH).
  unfold SerializeType, table_order. rewrite <- El. revert r. induction (name_order p l.*1) as [|n ns IH]; intros r; [done|]. cbn [omap list_omap]. pose proof (lookup_same l l' n Hl) as Hn.
  destruct (lookup_name n l) as [i|], (lookup_name n l') as [i'|]; try done; cbn [fmap option_fmap option_map serialize_fields]. rewrite Hn. destruct (Serialize i' p n s) as [st v]. destruct (ok st); [apply IH|done].
Qed.

Lemma input_read pw pr s x : process_ok pw → process_ok pr → valid Input.fields s →
  ∃ data, Write pw Input.cs_input_type_info s [] = (OK, data) ∧ Read pr Input.cs_input_type_info data x = Ok (OK, s).
Proof.
  intros Hw Hr Hs. assert (Hne : Input.fields.*1 ≠ []) by done. destruct (message_read pw pr any Input.fields.*1 s x Hw Hr Hne (input_struct pw Hw s Hs) I) as (data & H1 & H2). exists data. split; [exact H1|]. by rewrite input_complete in H2.
Qed.
Lemma result_read pw pr u m b u' m' b' r x : process_ok pw → process_ok pr → valid (Result.fields u' m' b') r → result_inv x →
  ∃ data, Write pw (Result.cs_result_type_info u m b) r [] = (OK, data) ∧ Read pr (Result.cs_result_type_info u' m' b') data x = Ok (OK, received r x).
Proof.
  intros Hw Hr Hv Hx. assert (Hne : (Result.fields u' m' b').*1 ≠ []) by done. destruct (message_read pw pr result_inv (Result.fields u' m' b').*1 r x Hw Hr Hne (result_struct pw Hw u' m' b' r Hv) Hx) as (data & H1 & H2). exists data. split.
  - rewrite <- H1. apply write_same. repeat constructor.
  - by rewrite result_back in H2.
Qed.
(** C11: Every job description with values in the range of their types, no input file of
    which has an empty name, is written without an error by one process, and what is
    written is read back as the same description by any other, whatever the receiving
    object held and whatever the iteration orders of the two processes' hash maps. *)
Theorem input_roundtrip pw pr s x : process_ok pw → process_ok pr → valid Input.fields s →
  ∃ data, Write pw Input.cs_input_type_info s [] = (OK, data) ∧ Read pr Input.cs_input_type_info data x = Ok (OK, s).
Proof. exact (input_read pw pr s x). Qed.
(** C10: A result that the worker writes is read by the database without an error and with the same
    output files, each with all its properties, and the same status code, level, path and
    byte counts: only the five job statistics and the two level statistics that the
    tables leave out are those of the receiving object.  The iteration orders of the hash maps
    and the objects that the worker and the database left uninitialized do not matter. *)
Theorem result_roundtrip pw pr u m b u' m' b' r x : process_ok pw → process_ok pr → valid (Result.fields u' m' b') r → result_inv x →
  ∃ data, Write pw (Result.cs_result_type_info u m b) r [] = (OK, data) ∧ Read pr (Result.cs_result_type_info u' m' b') data x = Ok (OK, received r x).
Proof. exact (result_read pw pr u m b u' m' b' r x). Qed.

(** ** Examples: one process visits hash maps in one order, the other in the opposite one *)
Definition forwards : Process := mkProcess map_to_list (λ l, l).
Definition backwards : Process := mkProcess (λ m, reverse (map_to_list m)) reverse.
Lemma forwards_ok : process_ok forwards.
Proof. by constructor. Qed.
Lemma backwards_ok : process_ok backwards.
Proof. constructor; intros; cbn; by rewrite reverse_Permutation. Qed.
Ltac solve_range := split; [apply Z.leb_le; vm_compute; reflexivity|apply Z.ltb_lt; vm_compute; reflexivity].
Ltac each := first [apply Forall_nil_2 | apply Forall_cons_2; [|each]].
Ltac solve_valid :=
  repeat first [apply Forall_nil_2 | apply Forall_cons_2];
  try first [exact I | solve_range | discriminate | split; [first [exact I | solve_range]|intros ?; vm_compute; discriminate]].
Definition sample_input : Input.CompactionServiceInput :=
  Input.mkInput (str "default") [7; 12] [str "000012.sst"; str "000009.sst"] 2 (str "db{=;:}1") true (str "a\#;") false [] 31.
Lemma sample_input_valid : valid Input.fields sample_input.
Proof. solve_valid. Qed.
Lemma input_roundtrip_witness : ∃ data, Write forwards Input.cs_input_type_info sample_input [] = (OK, data) ∧ Read backwards Input.cs_input_type_info data Input.new = Ok (OK, sample_input).
Proof. exact (input_roundtrip forwards backwards sample_input Input.new forwards_ok backwards_ok sample_input_valid). Defined.
Definition sample_props : Props.TableProperties := Props.new <| Props.num_entries := 5 |> <| Props.comparator_name := str "leveldb.BytewiseComparator" |>
  <| Props.user_collected_properties := {[str "a=1" := str "{x:y}"; str "b" := []]} |>.
Definition sample_file : OutputFile.CompactionServiceOutputFile := (OutputFile.new true false) <| OutputFile.file_size := 4096 |>
  <| OutputFile.smallest_internal_key := str "a;=}" |> <| OutputFile.unique_id := [17; 2 ^ 64 - 1] |> <| OutputFile.table_properties := sample_props |> <| OutputFile.file_temperature := kCold |>.
Definition sample_stats : LevelStats.CompactionStats := LevelStats.new <| LevelStats.count := 1 |> <| LevelStats.counts := 1 :: replicate 19 0 ++ [4] |> <| LevelStats.bytes_written := 4096 |>.
Definition sample_result : Result.CompactionServiceResult :=
  Result.mkResult OK [sample_file <| OutputFile.file_name := str "000044.sst" |>; sample_file <| OutputFile.file_name := str "000045.sst" |>] 2 (str "/out") 9000 8192
    (JobStats.Reset <| JobStats.has_accurate_num_input_records := false |> <| JobStats.num_input_records := 7 |>) (FullStats.mkFull sample_stats false LevelStats.new).
Lemma sample_file_valid name : valid OutputFile.fields (sample_file <| OutputFile.file_name := name |>).
Proof. solve_valid; (split; [reflexivity|]); solve_valid. Qed.
Lemma stats_valid s : LevelStats.ints s → Forall (shown kInt) (take 20 (LevelStats.counts s)) →
  Forall (λ e, e.2 s) (take 19 LevelStats.fields) → valid LevelStats.fields s.
Proof.
  intros Hi Hs Hf. change LevelStats.fields with (take 19 LevelStats.fields ++ drop 19 LevelStats.fields). apply Forall_app. split; [done|]. repeat first [apply Forall_nil_2 | apply Forall_cons_2]; [done|]. split; [|done].
  destruct Hi as (_ & Hl & _). cbn. rewrite length_take, Hl. unfold LevelStats.kNumOfReasons. lia.
Qed.
Lemma sample_stats_valid : valid LevelStats.fields sample_stats ∧ valid LevelStats.fields LevelStats.new.
Proof. split; (apply stats_valid; [split; [split; [discriminate|reflexivity]|]; split; [reflexivity|]| |]); solve_valid. Qed.
Lemma sample_result_valid u m b : valid (Result.fields u m b) sample_result.
Proof.
  each; try first [exact I | solve_range].
  - split_and!; vm_compute; done.
  - each; apply sample_file_valid.
  - solve_valid.
  - each; [apply sample_stats_valid|exact I|apply sample_stats_valid].
Qed.
Lemma result_roundtrip_witness : ∃ data, Write backwards (Result.cs_result_type_info (Adapter.mkAdapter 9 9 9 []) false false) sample_result [] = (OK, data) ∧
  Read forwards (Result.cs_result_type_info (Adapter.mkAdapter 20 20 20 []) true true) data Result.new = Ok (OK, received sample_result Result.new).
Proof. exact (result_roundtrip backwards forwards _ _ _ _ _ _ sample_result Result.new backwards_ok forwards_ok (sample_result_valid _ _ _) (conj eq_refl eq_refl)). Defined.
