(* ===== verification/FileNames.v ===== *)
(** * Names of table files (rocksdb [file/filename.cc])

    A table file is named by its number, with at least six digits; the
    compaction service names its input files this way, and the worker turns the
    names back into numbers. *)
From S2P Require Import Prelude CppString OptionText.
Local Open Scope Z_scope.

(** The format [%06llu]. *)
Definition pad6 (s : bytes) : bytes := replicate (6 - length s) Byte.x30 ++ s.
Definition MakeFileName (number : Z) (suffix : bytes) : bytes := pad6 (to_string number) ++ Byte.x2e :: suffix.
Definition MakeTableFileName (number : Z) : bytes := MakeFileName number (str "sst").
Definition MakeTableFileNameIn (path : bytes) (number : Z) : bytes := path ++ str "/" ++ MakeTableFileName number.
(** Digits from the last one on, with the weight of the next one. *)
Fixpoint number_loop (s : bytes) (number base : Z) : Z :=
  match s with
  | b :: s => if is_digit b then number_loop s (u64 (number + u64 ((b2z b - 48) * base))) (u64 (base * 10)) else number
  | [] => number
  end.
Definition TableFileNameToNumber (name : bytes) : Z :=
  match rfind Byte.x2e name with
  | Some pos => number_loop (rev (take pos name)) 0 1
  | None => 0
  end.
(** The last of the paths stands for all that do not exist. *)
Definition TableFileName (db_paths : list bytes) (number : Z) (path_id : nat) : res bytes :=
  let* _ := assert_ (0 <? number) in
  let* path := deref (match db_paths !! path_id with Some p => Some p | None => list.last db_paths end) in
  Ok (MakeTableFileNameIn path number).

(** ** Round trip *)
Lemma number_loop_digits s : forallb is_digit s = true → ∀ number k, number_loop (rev s) (u64 number) (u64 (10 ^ Z.of_nat k)) = u64 (number + parse_dec 0 s * 10 ^ Z.of_nat k).
Proof.
  induction s as [|b s IH] using rev_ind; intros Hs number k; [cbn; by rewrite Z.add_0_r|]. rewrite forallb_app in Hs. apply andb_true_iff in Hs as [Hs Hb]. cbn [forallb] in Hb. rewrite andb_true_r in Hb.
  rewrite rev_app_distr. cbn [rev app number_loop]. rewrite Hb. rewrite parse_dec_app by done.
  replace (u64 (u64 number + u64 ((b2z b - 48) * u64 (10 ^ Z.of_nat k)))) with (u64 (number + (b2z b - 48) * 10 ^ Z.of_nat k)).
  2: { unfold u64. rewrite Zplus_mod_idemp_l, Zplus_mod_idemp_r. rewrite <- (Zplus_mod_idemp_r ((b2z b - 48) * (10 ^ Z.of_nat k mod 2 ^ 64))). rewrite Zmult_mod_idemp_r. by rewrite Zplus_mod_idemp_r. }
  replace (u64 (u64 (10 ^ Z.of_nat k) * 10)) with (u64 (10 ^ Z.of_nat (S k))).
  2: { unfold u64. rewrite Zmult_mod_idemp_l. f_equal. rewrite Nat2Z.inj_succ, Z.pow_succ_r by lia. lia. }
  rewrite IH by done. f_equal. rewrite Nat2Z.inj_succ, Z.pow_succ_r by lia. lia.
Qed.
Lemma parse_dec_zeros n s : parse_dec 0 (replicate n Byte.x30 ++ s) = parse_dec 0 s.
Proof. induction n as [|n IH]; [done|]. cbn [replicate app parse_dec]. exact IH. Qed.
Lemma table_name_number n : in_u 64 n → TableFileNameToNumber (MakeTableFileName n) = n.
Proof.
  intros Hn. unfold TableFileNameToNumber, MakeTableFileName, MakeFileName. set (digits := pad6 (to_string n)). change (digits ++ Byte.x2e :: str "sst") with (digits ++ [Byte.x2e] ++ str "sst"). rewrite rfind_last by (apply (bool_decide_unpack _); vm_compute; done). rewrite take_app_length. unfold digits.
  unfold to_string. rewrite (proj2 (Z.ltb_ge _ _)) by lia. destruct (dec_spec 20 n) as (Hd & _ & Hp); [lia|lia|]. unfold pad6. set (k := (6 - length (dec 20 n))%nat).
  assert (Hz : forallb is_digit (replicate k Byte.x30 ++ dec 20 n) = true) by (rewrite forallb_app, Hd, andb_true_r; clear; by induction k).
  pose proof (number_loop_digits _ Hz 0 0) as H. change (u64 (10 ^ Z.of_nat 0)) with 1 in H. change (u64 0) with 0 in H. rewrite H, parse_dec_zeros, Hp. rewrite Z.add_0_l, Z.pow_0_r, Z.mul_1_r. by rewrite u64_id.
Qed.
Lemma table_name_shown n : MakeTableFileName n ≠ [].
Proof. unfold MakeTableFileName, MakeFileName. by destruct (pad6 (to_string n)). Qed.
