(* ===== verification/Picker.v ===== *)
(** * The compaction picker (rocksdb [db/compaction/compaction_picker.cc])

    Ranges of inputs, the compactions in progress that they may not overlap, and the
    compaction of given files: the worker of a compaction service gets the numbers
    of the files, finds them in its own view of the database and builds the
    compaction from them. *)
From S2P Require Import Prelude Bitfield Slice Coding Comparator DbFormat CompactionIter LevelFiles Compaction.
Local Open Scope Z_scope.

(** A compaction in progress is known by its address. *)
Record CompactionPicker := mkPicker { compactions_in_progress_ : list (Z * Compaction); level0_compactions_in_progress_ : list (Z * Compaction) }.

Section picker.
Context {UC : Comparator} {TC : TsComparator UC}.
(** ** Ranges *)
Definition icmp (a b : bytes) : res Z := let* a := Encode a in let* b := Encode b in CompareSlices a b.
Definition extend_range (cur : bytes * bytes) (smallest largest : bytes) : res (bytes * bytes) :=
  let* a := icmp smallest cur.1 in
  let* b := icmp largest cur.2 in
  Ok (if a <? 0 then smallest else cur.1, if 0 <? b then largest else cur.2).
Fixpoint range_over (files : list FileMetaData) (cur : bytes * bytes) : res (bytes * bytes) :=
  match files with [] => Ok cur | f :: files => let* cur := extend_range cur (smallest f) (largest f) in range_over files cur end.
Definition GetRange (inputs : CompactionInputFiles) : res (bytes * bytes) :=
  match in_files inputs with
  | [] => Fail AssertFail
  | f :: files => if (in_level inputs =? 0)%nat then range_over files (smallest f, largest f) else Ok (smallest f, largest (default f (list.last files)))
  end.
Fixpoint ranges_over (exclude_level : option nat) (inputs : list CompactionInputFiles) (cur : option (bytes * bytes)) : res (option (bytes * bytes)) :=
  match inputs with
  | [] => Ok cur
  | i :: inputs =>
      if bool_decide (in_files i = []) || bool_decide (Some (in_level i) = exclude_level) then ranges_over exclude_level inputs cur
      else
        let* r := GetRange i in
        let* cur := match cur with None => Ok r | Some cur => extend_range cur r.1 r.2 end in
        ranges_over exclude_level inputs (Some cur)
  end.
(** The range of all inputs; [None] excludes no level. *)
Definition GetRangeOfAll (inputs : list CompactionInputFiles) (exclude_level : option nat) : res (bytes * bytes) :=
  let* cur := ranges_over exclude_level inputs None in
  match cur with Some r => Ok r | None => Fail AssertFail end.

(** ** Compactions in progress *)
Fixpoint RangeOverlapWithCompaction (running : list (Z * Compaction)) (smallest_user_key largest_user_key : bytes) (level : nat) : res bool :=
  match running with
  | [] => Ok false
  | (_, c) :: running =>
      let* overlap :=
        if (output_level_ c =? level)%nat then
          let* a := uc_CompareWithoutTimestamp smallest_user_key (largest_user_key_ c) in
          if a <=? 0 then let* b := uc_CompareWithoutTimestamp largest_user_key (smallest_user_key_ c) in Ok (0 <=? b) else Ok false
        else Ok false in
      if overlap : bool then Ok true
      else
        let* proximal := if SupportsPerKeyPlacement c then OverlapProximalLevelOutputRange c smallest_user_key largest_user_key else Ok false in
        if proximal : bool then Ok true else RangeOverlapWithCompaction running smallest_user_key largest_user_key level
  end.
Definition range_in_use (running : list (Z * Compaction)) (range : bytes * bytes) (level : nat) : res bool :=
  let* s := ExtractUserKey range.1 in
  let* l := ExtractUserKey range.2 in
  RangeOverlapWithCompaction running s l level.
Definition FilesRangeOverlapWithCompaction (running : list (Z * Compaction)) (style : CompactionStyle) (inputs : list CompactionInputFiles) (level : nat) (proximal_level : option nat) : res bool :=
  if forallb (λ i, bool_decide (in_files i = [])) inputs then Ok false
  else
    let* range := GetRangeOfAll inputs None in
    let* used :=
      match proximal_level with
      | None => Ok false
      | Some proximal_level =>
          if bool_decide (style = kCompactionStyleUniversal) then range_in_use running range proximal_level
          else let* proximal_range := GetRangeOfAll inputs (Some level) in range_in_use running proximal_range proximal_level
      end in
    if used : bool then Ok true else range_in_use running range level.
Definition AreFilesInCompaction (files : list FileMetaData) (marks : gset Z) : bool := existsb (λ f, bool_decide (number f ∈ marks)) files.
Definition RegisterCompaction (p : CompactionPicker) (style : CompactionStyle) (c : Z * Compaction) : res CompactionPicker :=
  let* _ := if negb (bool_decide (style = kCompactionStyleLevel)) || (output_level_ c.2 =? 0)%nat then Ok tt
            else let* used := FilesRangeOverlapWithCompaction (compactions_in_progress_ p) style (inputs_ c.2) (output_level_ c.2) (proximal_level_ c.2) in assert_ (negb used) in
  let level0 := (start_level_ c.2 =? 0)%nat && negb (bool_decide (compaction_reason_ c.2 = kExternalSstIngestion)) || bool_decide (style = kCompactionStyleUniversal) in
  Ok (mkPicker (c :: compactions_in_progress_ p) (if level0 then c :: level0_compactions_in_progress_ p else level0_compactions_in_progress_ p)).
Definition erase (a : Z) (l : list (Z * Compaction)) : list (Z * Compaction) := List.filter (λ e, negb (e.1 =? a)) l.
Definition UnregisterCompaction (p : CompactionPicker) (style : CompactionStyle) (c : Z * Compaction) : CompactionPicker :=
  let level0 := (start_level_ c.2 =? 0)%nat || bool_decide (style = kCompactionStyleUniversal) in
  mkPicker (erase c.1 (compactions_in_progress_ p)) (if level0 then erase c.1 (level0_compactions_in_progress_ p) else level0_compactions_in_progress_ p).

(** ** A compaction of given files *)
(** The files whose numbers are looked for, and the numbers that are left. *)
Fixpoint match_files (files : list FileMetaData) (input_set : gset Z) : list FileMetaData * gset Z :=
  match files with
  | [] => ([], input_set)
  | f :: files =>
      if bool_decide (number f ∈ input_set) then let (m, rest) := match_files files (input_set ∖ {[number f]}) in (f :: m, rest)
      else match_files files input_set
  end.
(** ... on all levels, with the first and the last level where some were found. *)
Fixpoint match_levels (levels : list (list FileMetaData)) (level : nat) (input_set : gset Z) (bounds : option (nat * nat)) : list (list FileMetaData) * gset Z * option (nat * nat) :=
  match levels with
  | [] => ([], input_set, bounds)
  | files :: levels =>
      let (m, rest) := match_files files input_set in
      let bounds := match m, bounds with [], _ => bounds | _, None => Some (level, level) | _, Some (first, _) => Some (first, level) end in
      let '(ms, rest, bounds) := match_levels levels (S level) rest bounds in (m :: ms, rest, bounds)
  end.
(** [None]: invalid argument. *)
Definition GetCompactionInputsFromFileNumbers (input_set : gset Z) (v : VersionStorageInfo) : option (list CompactionInputFiles) :=
  if bool_decide (input_set = ∅) then None
  else
    let '(matched, rest, bounds) := match_levels (LevelFiles v <$> seq 0 (num_levels_ v)) 0 input_set None in
    if negb (bool_decide (rest = ∅)) then None
    else Some match bounds with
              | Some (first, last) => (λ level, mkInputs level (default [] (matched !! level)) []) <$> seq first (S last - first)
              | None => []
              end.
Definition PickCompactionForCompactFiles (p : CompactionPicker) (address : Z) (v : VersionStorageInfo) (o : Options) (input_files : list CompactionInputFiles) (output_level : nat)
    (output_file_size_limit max_subcompactions : Z) (earliest_snapshot : option Z) (checker : option (Z → Z → SnapshotCheckerResult)) (compact_cursor : bytes) (marks : gset Z) :
    res (Compaction * CompactionPicker * gset Z) :=
  let* _ := assert_ (negb (bool_decide (input_files = []))) in
  let* _ := match list_find (λ i, in_files i ≠ []) input_files with
            | Some (_, first) =>
                if (output_level =? 0)%nat then Ok tt
                else
                  let* proximal_level := EvaluateProximalLevel v o (in_level first) output_level in
                  let* used := FilesRangeOverlapWithCompaction (compactions_in_progress_ p) (compaction_style o) input_files output_level proximal_level in
                  assert_ (negb used)
            | None => Ok tt
            end in
  let* (c, marks) := newCompaction v o input_files output_level output_file_size_limit max_subcompactions [] earliest_snapshot checker kManualCompaction compact_cursor marks in
  let* p := RegisterCompaction p (compaction_style o) (address, c) in
  Ok (c, p, marks).
End picker.

(** [MaxFileSizeForLevel] (options/cf_options.cc). *)
Definition MaxFileSizeForLevel (max_file_size : list Z) (level : Z) (style : CompactionStyle) (base_level : Z) (dynamic_level_bytes : bool) : res Z :=
  if negb dynamic_level_bytes || (level <? base_level) || negb (bool_decide (style = kCompactionStyleLevel)) then
    let* _ := assert_ (0 <=? level) in
    let* _ := assert_ (level <? Z.of_nat (length max_file_size)) in
    deref (max_file_size !! Z.to_nat level)
  else
    let* _ := assert_ ((0 <=? level) && (0 <=? base_level)) in
    let* _ := assert_ (level - base_level <? Z.of_nat (length max_file_size)) in
    deref (max_file_size !! Z.to_nat (level - base_level)).
