(* ===== verification/PickerThm.v ===== *)
(** * Finding the files of a compaction by their numbers

    The inputs that the picker finds for the numbers of a set of files are these files,
    level by level, and the compaction of them is constructed without an error. *)
From S2P Require Import Prelude Bitfield Slice Coding Comparator DbFormat CompactionIter LevelFiles LevelFilesThm Compaction CompactionLevels CompactionNew Picker.
Local Open Scope Z_scope.

(** ** Matching *)
Definition wanted (ns : gset Z) (f : FileMetaData) : bool := bool_decide (number f ∈ ns).
Lemma match_files_spec files : ∀ ns, NoDup (numbers files) → match_files files ns = (List.filter (wanted ns) files, ns ∖ list_to_set (numbers files)).
Proof.
  induction files as [|f files IH]; intros ns Hd; cbn [match_files List.filter numbers fmap list_fmap list_to_set]; [by rewrite difference_empty_L|]. apply NoDup_cons in Hd as [Hf Hd]. unfold wanted at 1.
  destruct (bool_decide_reflect (number f ∈ ns)) as [Hin|Hin]; rewrite IH by done.
  - f_equal; [f_equal|set_solver]. apply List.filter_ext_in. intros g Hg%list_elem_of_In. unfold wanted. apply bool_decide_ext. assert (number g ≠ number f); [|set_solver].
    intros E. apply Hf. rewrite <- E. apply list_elem_of_fmap. by exists g.
  - f_equal. set_solver.
Qed.
Fixpoint first_last (ms : list (list FileMetaData)) (level : nat) (bounds : option (nat * nat)) : option (nat * nat) :=
  match ms with
  | [] => bounds
  | m :: ms => first_last ms (S level) match m, bounds with [], _ => bounds | _, None => Some (level, level) | _, Some (first, _) => Some (first, level) end
  end.
Lemma match_levels_spec levels : ∀ level ns bounds, NoDup (numbers (concat levels)) →
  match_levels levels level ns bounds = (List.filter (wanted ns) <$> levels, ns ∖ list_to_set (numbers (concat levels)), first_last (List.filter (wanted ns) <$> levels) level bounds).
Proof.
  induction levels as [|files levels IH]; intros level ns bounds Hd; cbn [match_levels concat]; [cbn; by rewrite difference_empty_L|]. unfold numbers in Hd. cbn [concat] in Hd. rewrite fmap_app in Hd. apply NoDup_app in Hd as (Hd1 & Hx & Hd2).
  rewrite match_files_spec by done. rewrite IH by done. assert (E : List.filter (wanted (ns ∖ list_to_set (numbers files))) <$> levels = List.filter (wanted ns) <$> levels).
  { apply list_fmap_ext. intros i fs Hi. apply List.filter_ext_in. intros g Hg. unfold wanted. apply bool_decide_ext. assert (number g ∉ numbers files); [|set_solver].
    intros Hn. apply (Hx _ Hn). apply list_elem_of_fmap. exists g. split; [done|]. apply list_elem_of_In, in_concat. exists fs. split; [|done]. apply list_elem_of_In. by eapply list_elem_of_lookup_2. }
  rewrite E. cbn [fmap list_fmap]. f_equal. f_equal. unfold numbers. rewrite fmap_app, list_to_set_app_L. set_solver.
Qed.

(** *** The levels from the first to the last with a match *)
Lemma last_found ms : ∀ level a b, (b < level)%nat → ∃ b', first_last ms level (Some (a, b)) = Some (a, b') ∧ (b ≤ b' < level + length ms ∨ b' = b)%nat ∧
  (∀ i m, ms !! i = Some m → (b' < level + i)%nat → m = []).
Proof.
  induction ms as [|m ms IH]; intros level a b Hb; cbn [first_last]; [exists b; split_and!; [done|by right|done]|]. destruct m as [|f m].
  - destruct (IH (S level) a b ltac:(lia)) as (b' & E & Hb' & Hz). exists b'. split; [done|]. cbn [length]. split; [lia|]. intros [|i] m Hm Hi; [by injection Hm as <-|]. cbn in Hm. apply (Hz i m Hm). lia.
  - destruct (IH (S level) a level ltac:(lia)) as (b' & E & Hb' & Hz). exists b'. split; [done|]. cbn [length]. split; [lia|]. intros [|i] x Hx Hi; [lia|]. cbn in Hx. apply (Hz i x Hx). lia.
Qed.
Lemma first_last_spec ms : ∀ level, (∃ m, m ∈ ms ∧ m ≠ []) → ∃ a b f, first_last ms level None = Some (a, b) ∧ (level ≤ a ≤ b)%nat ∧ (b < level + length ms)%nat ∧
  ms !! (a - level)%nat = Some f ∧ f ≠ [] ∧ (∀ i m, ms !! i = Some m → (level + i < a ∨ b < level + i)%nat → m = []).
Proof.
  induction ms as [|m ms IH]; intros level (x & Hx & Hne); [by apply elem_of_nil in Hx|]. cbn [first_last]. destruct m as [|f m].
  - destruct (IH (S level)) as (a & b & f & E & H1 & H2 & H3 & H4 & Hz). { apply elem_of_cons in Hx as [->|Hx]; [done|]. eauto. }
    exists a, b, f. split; [done|]. cbn [length]. split; [lia|]. split; [lia|]. replace (a - level)%nat with (S (a - S level)) by lia. split; [done|]. split; [done|].
    intros [|i] y Hy Hi; [by injection Hy as <-|]. cbn in Hy. apply (Hz i y Hy). lia.
  - destruct (last_found ms (S level) level level ltac:(lia)) as (b & E & Hb & Hz). exists level, b, (f :: m). split; [done|]. cbn [length]. split; [lia|]. split; [lia|]. rewrite Nat.sub_diag. split; [done|]. split; [done|].
    intros [|i] y Hy Hi; [lia|]. cbn in Hy. apply (Hz i y Hy). lia.
Qed.
Lemma slice_levels {A} (ms : list (list A)) a n : (a + n ≤ length ms)%nat → (λ l, default [] (ms !! l)) <$> seq a n = take n (drop a ms).
Proof.
  intros Hn. apply list_eq. intros i. rewrite list_lookup_fmap. destruct (decide (i < n)%nat) as [Hi|Hi].
  - rewrite lookup_seq_lt by done. rewrite lookup_take by done. rewrite lookup_drop. destruct (lookup_lt_is_Some_2 ms (a + i)) as [m E]; [lia|]. rewrite decide_True by done. cbn. by rewrite E.
  - rewrite lookup_seq_ge by lia. cbn. symmetry. apply lookup_ge_None. rewrite length_take. lia.
Qed.
Lemma concat_empty {A} (ms : list (list A)) : (∀ i m, ms !! i = Some m → m = []) → concat ms = [].
Proof. induction ms as [|m ms IH]; intros H; [done|]. cbn [concat]. rewrite (H 0%nat m eq_refl). apply IH. intros i x Hx. by apply (H (S i)). Qed.
Lemma slice_all {A} (ms : list (list A)) a b : (a ≤ b < length ms)%nat → (∀ i m, ms !! i = Some m → (i < a ∨ b < i)%nat → m = []) →
  concat ((λ l, default [] (ms !! l)) <$> seq a (S b - a)) = concat ms.
Proof.
  intros Hab Hz. rewrite slice_levels by lia. rewrite <- (take_drop a ms) at 2. rewrite <- (take_drop (S b - a) (drop a ms)) at 2. rewrite !concat_app, drop_drop.
  rewrite (concat_empty (take a ms)), (concat_empty (drop _ ms)), app_nil_r; [done| |].
  - intros i m Hm. rewrite lookup_drop in Hm. apply (Hz _ _ Hm). lia.
  - intros i m Hm. apply lookup_take_Some in Hm as [Hm Hi]. apply (Hz _ _ Hm). lia.
Qed.

(** ** The files of a compaction, by level *)
Fixpoint files_at (inputs : list CompactionInputFiles) (level : nat) : list FileMetaData :=
  match inputs with i :: inputs => if decide (in_level i = level) then in_files i else files_at inputs level | [] => [] end.
Lemma files_at_in inputs level f : f ∈ files_at inputs level → ∃ i, i ∈ inputs ∧ in_level i = level ∧ f ∈ in_files i.
Proof.
  induction inputs as [|i inputs IH]; cbn [files_at]; [by intros []%elem_of_nil|]. destruct (decide (in_level i = level)) as [E|_]; [intros Hf; exists i; split; [by left|done]|].
  intros (j & Hj & H)%IH. exists j. split; [by right|done].
Qed.
Lemma files_at_level inputs i : NoDup (in_level <$> inputs) → i ∈ inputs → files_at inputs (in_level i) = in_files i.
Proof.
  induction inputs as [|j inputs IH]; intros Hd Hi; [by apply elem_of_nil in Hi|]. cbn [fmap list_fmap] in Hd. apply NoDup_cons in Hd as [Hj Hd]. cbn [files_at]. apply elem_of_cons in Hi as [->|Hi]; [by rewrite decide_True|].
  rewrite decide_False; [by apply IH|]. intros E. apply Hj. rewrite E. apply list_elem_of_fmap. by exists i.
Qed.
Lemma files_at_none inputs level : (∀ i, i ∈ inputs → in_level i ≠ level) → files_at inputs level = [].
Proof. intros H. destruct (files_at inputs level) as [|f l] eqn:E; [done|]. destruct (files_at_in inputs level f) as (i & Hi & Hl & _); [rewrite E; by left|]. by destruct (H i Hi). Qed.
Lemma files_by_level inputs : ∀ a n, StronglySorted Nat.lt (in_level <$> inputs) → (∀ i, i ∈ inputs → a ≤ in_level i < a + n)%nat → concat (files_at inputs <$> seq a n) = all_files inputs.
Proof.
  intros a n. revert a inputs. induction n as [|n IH]; intros a inputs Hs Hr.
  - destruct inputs as [|i inputs]; [done|]. specialize (Hr i ltac:(by left)). lia.
  - cbn [seq fmap list_fmap concat]. destruct inputs as [|i inputs]; [clear; cbn; induction (seq (S a) n) as [|x l IH]; done|]. cbn [fmap list_fmap] in Hs. apply StronglySorted_inv in Hs as [Hs Hi]. rewrite Forall_fmap, Forall_forall in Hi. unfold compose in Hi.
    pose proof (Hr i ltac:(by left)) as Ha. assert (Hr' : ∀ j, j ∈ inputs → (in_level i < in_level j < a + S n)%nat) by (intros j Hj; split; [by apply Hi|apply (Hr j); by right]).
    destruct (decide (in_level i = a)) as [E|E].
    + cbn [files_at]. rewrite decide_True by done. change (all_files (i :: inputs)) with (in_files i ++ all_files inputs). f_equal. rewrite <- (IH (S a) inputs Hs) by (intros j Hj; specialize (Hr' j Hj); lia).
      f_equal. apply list_fmap_ext. intros k l Hl. apply lookup_seq in Hl as [-> Hl]. by rewrite decide_False by lia.
    + cbn [files_at]. rewrite decide_False by done. rewrite files_at_none by (intros j Hj; specialize (Hr' j Hj); lia). cbn [app]. apply (IH (S a) (i :: inputs)).
      * cbn [fmap list_fmap]. constructor; [done|]. rewrite Forall_fmap, Forall_forall. exact Hi.
      * intros j [->|Hj]%elem_of_cons; [lia|]. specialize (Hr' j Hj). lia.
Qed.

(** ** Inputs of a version *)
Definition every_file (v : VersionStorageInfo) : list FileMetaData := concat (LevelFiles v <$> seq 0 (num_levels_ v)).
(** The inputs are files of the version, in its order; numbers are not shared. *)
Record picked (v : VersionStorageInfo) (inputs : list CompactionInputFiles) : Prop := {
  pk_level i : i ∈ inputs → (in_level i < num_levels_ v)%nat; pk_files i : i ∈ inputs → in_files i `sublist_of` LevelFiles v (in_level i);
  pk_numbers : NoDup (numbers (every_file v)) }.
Lemma number_unique (l : list FileMetaData) f g : NoDup (numbers l) → f ∈ l → g ∈ l → number f = number g → f = g.
Proof.
  intros Hd Hf Hg E. apply list_elem_of_lookup in Hf as [p Hp]. apply list_elem_of_lookup in Hg as [q Hq]. assert (p = q); [|congruence].
  eapply (NoDup_lookup (numbers l)); [done|unfold numbers; rewrite list_lookup_fmap, Hp; cbn; reflexivity|unfold numbers; rewrite list_lookup_fmap, Hq; cbn; by rewrite E].
Qed.
Lemma every_file_in v level f : (level < num_levels_ v)%nat → f ∈ LevelFiles v level → f ∈ every_file v.
Proof. intros Hl Hf. apply list_elem_of_In, in_concat. exists (LevelFiles v level). split; [|by apply list_elem_of_In]. apply list_elem_of_In, list_elem_of_fmap. exists level. split; [done|]. apply elem_of_seq. lia. Qed.
Lemma level_unique v l l' f : NoDup (numbers (every_file v)) → (l < num_levels_ v)%nat → (l' < num_levels_ v)%nat → f ∈ LevelFiles v l → f ∈ LevelFiles v l' → l = l'.
Proof.
  intros Hd%NoDup_fmap_1. unfold every_file in Hd. assert (Hg : ∀ n a, NoDup (concat (LevelFiles v <$> seq a n)) → ∀ l l', (a ≤ l < a + n)%nat → (a ≤ l' < a + n)%nat → f ∈ LevelFiles v l → f ∈ LevelFiles v l' → l = l').
  { clear. induction n as [|n IH]; intros a Hd l l' Hl Hl' Hf Hf'; [lia|]. cbn [seq fmap list_fmap concat] in Hd. apply NoDup_app in Hd as (_ & Hx & Hd).
    assert (Hin : ∀ k, (S a ≤ k < a + S n)%nat → f ∈ LevelFiles v k → f ∈ concat (LevelFiles v <$> seq (S a) n)).
    { intros k Hk Hfk. apply list_elem_of_In, in_concat. exists (LevelFiles v k). split; [|by apply list_elem_of_In]. apply list_elem_of_In, list_elem_of_fmap. exists k. split; [done|]. apply elem_of_seq. lia. }
    destruct (decide (l = a)) as [->|N], (decide (l' = a)) as [->|N']; [done| | |apply (IH (S a) Hd); (done || lia)]; exfalso.
    - apply (Hx f Hf). apply (Hin l'); [lia|done].
    - apply (Hx f Hf'). apply (Hin l); [lia|done]. }
  intros Hl Hl' Hf Hf'. apply (Hg (num_levels_ v) 0%nat Hd); (done || lia).
Qed.
Lemma filter_sublist ns (s l : list FileMetaData) : s `sublist_of` l → NoDup l → (∀ f, f ∈ l → wanted ns f = true ↔ f ∈ s) → List.filter (wanted ns) l = s.
Proof.
  induction 1 as [|f s l Hs IH|f s l Hs IH]; intros Hd Hw; [done| |]; apply NoDup_cons in Hd as [Hf Hd]; cbn [List.filter].
  - rewrite (proj2 (Hw f ltac:(by left))) by by left. f_equal. apply IH; [done|]. intros g Hg. rewrite (Hw g) by by right. split; [intros [->|H]%elem_of_cons; done|intros H; by right].
  - destruct (wanted ns f) eqn:E.
    + apply (Hw f ltac:(by left)) in E. destruct Hf. by eapply elem_of_sublist.
    + apply IH; [done|]. intros g Hg. apply Hw. by right.
Qed.
Section recovered.
Context (v : VersionStorageInfo) (inputs : list CompactionInputFiles) (Hp : picked v inputs) (Hsorted : StronglySorted Nat.lt (in_level <$> inputs)).
Notation ns := (list_to_set (numbers (all_files inputs)) : gset Z).
Lemma levels_distinct : NoDup (in_level <$> inputs).
Proof.
  clear Hp. induction inputs as [|i l IH]; [constructor|]. cbn [fmap list_fmap] in *. apply StronglySorted_inv in Hsorted as [Hs Hi]. constructor; [|by apply IH]. intros Hin. rewrite Forall_forall in Hi. specialize (Hi _ Hin). lia.
Qed.
Lemma all_files_in f : f ∈ all_files inputs ↔ ∃ i, i ∈ inputs ∧ f ∈ in_files i.
Proof.
  unfold all_files. rewrite list_elem_of_In, in_concat. split.
  - intros (fs & Hfs & Hf). apply list_elem_of_In, list_elem_of_fmap in Hfs as (i & -> & Hi). exists i. split; [done|by apply list_elem_of_In].
  - intros (i & Hi & Hf). exists (in_files i). split; [|by apply list_elem_of_In]. apply list_elem_of_In, list_elem_of_fmap. by exists i.
Qed.
Lemma input_in_version i f : i ∈ inputs → f ∈ in_files i → f ∈ LevelFiles v (in_level i) ∧ f ∈ every_file v.
Proof. intros Hi Hf. assert (f ∈ LevelFiles v (in_level i)) by (eapply elem_of_sublist; [done|by apply (pk_files _ _ Hp)]). split; [done|]. eapply every_file_in; [by apply (pk_level _ _ Hp i)|done]. Qed.
Lemma matched_level l : (l < num_levels_ v)%nat → List.filter (wanted ns) (LevelFiles v l) = files_at inputs l.
Proof.
  intros Hl. assert (Hd : NoDup (every_file v)) by (eapply NoDup_fmap_1; apply (pk_numbers _ _ Hp)). apply filter_sublist.
  - destruct (files_at inputs l) as [|f0 fs] eqn:E; [apply sublist_nil_l|]. destruct (files_at_in inputs l f0) as (i & Hi & <- & _); [rewrite E; by left|]. rewrite <- E, files_at_level by (done || apply levels_distinct). by apply (pk_files _ _ Hp).
  - clear -Hd Hl. unfold every_file in Hd. assert (Hin : LevelFiles v l ∈ (LevelFiles v <$> seq 0 (num_levels_ v))) by (apply list_elem_of_fmap; exists l; split; [done|]; apply elem_of_seq; lia).
    induction (LevelFiles v <$> seq 0 (num_levels_ v)) as [|x xs IH]; [by apply elem_of_nil in Hin|]. cbn [concat] in Hd. apply NoDup_app in Hd as (H1 & _ & H2). apply elem_of_cons in Hin as [->|Hin]; [done|by apply IH].
  - intros f Hf. unfold wanted. rewrite bool_decide_eq_true, elem_of_list_to_set. unfold numbers. rewrite list_elem_of_fmap. split.
    + intros (g & E & (i & Hi & Hg)%all_files_in). destruct (input_in_version i g Hi Hg) as [Hgl Hge]. assert (f = g) as -> by (eapply number_unique; [apply (pk_numbers _ _ Hp)|by eapply every_file_in|done|done]).
      assert (l = in_level i) as -> by (eapply level_unique; [apply (pk_numbers _ _ Hp)|done|by apply (pk_level _ _ Hp)|done|done]). by rewrite files_at_level by (done || apply levels_distinct).
    + intros (i & Hi & _ & Hfi)%files_at_in. exists f. split; [done|]. apply all_files_in. eauto.
Qed.
Lemma inputs_found first : head inputs = Some first → in_files first ≠ [] → ∃ inputs', GetCompactionInputsFromFileNumbers ns v = Some inputs' ∧ all_files inputs' = all_files inputs ∧
  Sorted Nat.lt (in_level <$> inputs') ∧ (∀ i, i ∈ inputs' → in_files i = files_at inputs (in_level i) ∧ boundaries i = []) ∧ ∃ first', head inputs' = Some first' ∧ in_level first' = in_level first ∧ in_files first' = in_files first.
Proof.
  intros Hh Hne. assert (Hfirst : first ∈ inputs) by by apply head_Some_elem_of. set (ms := files_at inputs <$> seq 0 (num_levels_ v)).
  assert (Em : List.filter (wanted ns) <$> (LevelFiles v <$> seq 0 (num_levels_ v)) = ms).
  { unfold ms. rewrite <- list_fmap_compose. apply list_fmap_ext. intros i l Hl. apply lookup_seq in Hl as [-> Hl]. apply matched_level. lia. }
  assert (Hms : ∀ l, (l < num_levels_ v)%nat → ms !! l = Some (files_at inputs l)) by (intros l Hl; unfold ms; rewrite list_lookup_fmap, lookup_seq_lt by done; done).
  pose proof (pk_level _ _ Hp first Hfirst) as Hlf. destruct (first_last_spec ms 0) as (a & b & fs & Eb & Hab & Hbn & Ha & Hfs & Hz).
  { exists (in_files first). split; [|done]. eapply list_elem_of_lookup_2. rewrite Hms by done. by rewrite files_at_level by (done || apply levels_distinct). }
  rewrite Nat.sub_0_r in Ha. assert (Hlen : length ms = num_levels_ v) by (unfold ms; by rewrite length_fmap, length_seq). rewrite Hms in Ha by lia. injection Ha as <-.
  assert (Efirst : a = in_level first).
  { destruct (files_at inputs a) as [|f0 r] eqn:E; [done|]. destruct (files_at_in inputs a f0) as (i & Hi & Hl & _); [rewrite E; by left|]. destruct (Nat.lt_trichotomy a (in_level first)) as [H|[H|H]]; [|done|].
    - exfalso. clear -H Hh Hi Hl Hsorted. destruct inputs as [|j l]; [done|]. injection Hh as ->. cbn [fmap list_fmap] in Hsorted. apply StronglySorted_inv in Hsorted as [_ Hf]. rewrite Forall_fmap, Forall_forall in Hf. unfold compose in Hf.
      apply elem_of_cons in Hi as [->|Hi]; [lia|]. specialize (Hf i Hi). lia.
    - exfalso. apply Hne. rewrite <- (files_at_level inputs first levels_distinct Hfirst). apply (Hz (in_level first)); [by apply Hms|lia]. }
  unfold GetCompactionInputsFromFileNumbers. rewrite bool_decide_false.
  2: { destruct (in_files first) as [|f r] eqn:E; [done|]. intros Hemp. assert (number f ∈ ns); [|set_solver]. apply elem_of_list_to_set. unfold numbers. apply list_elem_of_fmap. exists f. split; [done|]. apply all_files_in. exists first. split; [done|]. rewrite E. by left. }
  rewrite match_levels_spec by apply (pk_numbers _ _ Hp). rewrite Em, Eb, bool_decide_true.
  2: { apply set_eq. intros x. split; [|set_solver]. intros [Hx Hnx]%elem_of_difference. destruct Hnx. apply elem_of_list_to_set in Hx. apply elem_of_list_to_set. unfold numbers in *. apply list_elem_of_fmap in Hx as (f & -> & (i & Hi & Hf)%all_files_in).
    apply list_elem_of_fmap. exists f. split; [done|]. by apply (input_in_version i f). }
  cbn [negb]. eexists. split; [done|]. split_and!.
  - unfold all_files at 1. rewrite <- list_fmap_compose. unfold compose. cbn [in_files]. rewrite (slice_all ms a b); [|lia|intros i m Hm Hi; apply (Hz i m Hm); lia]. unfold ms. apply files_by_level; [done|]. intros i Hi. pose proof (pk_level _ _ Hp i Hi). lia.
  - rewrite <- list_fmap_compose. unfold compose. cbn [in_level]. rewrite list_fmap_id. clear. generalize (S b - a)%nat. intros n. revert a. induction n as [|n IH]; intros a; [constructor|]. cbn [seq]. constructor; [apply IH|]. destruct n; constructor. lia.
  - intros i (l & -> & Hl)%list_elem_of_fmap. apply elem_of_seq in Hl. cbn [in_level in_files boundaries]. by rewrite Hms by lia.
  - destruct (S b - a)%nat as [|n] eqn:En; [lia|]. cbn [seq fmap list_fmap head]. eexists. split; [done|]. cbn [in_level in_files]. split; [done|]. rewrite Hms by lia. cbn. rewrite Efirst. apply files_at_level; [apply levels_distinct|done].
Qed.
End recovered.

(** ** The compaction of the files *)
Section pick.
Context `{UL : ComparatorLaws} {TC : TsComparator C} (Hts : ∀ a b, uc_CompareWithoutTimestamp a b = Ok (Compare a b)).
Notation long r := (8 ≤ length r.1 ∧ 8 ≤ length r.2)%nat.
Lemma icmp_total a b : (8 ≤ length a)%nat → (8 ≤ length b)%nat → ∃ r, icmp a b = Ok r.
Proof. intros Ha Hb. unfold icmp, Encode. rewrite !(proj2 (Nat.ltb_lt _ _)) by lia. cbn [assert_ res_bind]. unfold CompareSlices. rewrite !extract_ukey by done. cbn [res_bind]. eauto. Qed.
Lemma extend_range_total cur s l : long cur → (8 ≤ length s)%nat → (8 ≤ length l)%nat → ∃ r, extend_range cur s l = Ok r ∧ long r.
Proof.
  intros [H1 H2] Hs Hl. unfold extend_range. destruct (icmp_total s cur.1 Hs H1) as [x ->], (icmp_total l cur.2 Hl H2) as [y ->]. cbn [res_bind]. eexists. split; [done|]. cbn. split; destruct (_ <? _); done.
Qed.
Lemma GetRange_total i : Forall (λ f, file_ok (mfd f)) (in_files i) → in_files i ≠ [] → ∃ r, GetRange i = Ok r ∧ long r.
Proof.
  intros Hf Hne. unfold GetRange. destruct (in_files i) as [|f fs]; [done|]. apply Forall_cons in Hf as [H1 Hf]. pose proof (f_small _ H1) as Hs. pose proof (f_large _ H1) as Hl. cbn in Hs, Hl. destruct (in_level i =? 0)%nat.
  - assert (Hc : long (smallest f, largest f)) by done. revert Hc. generalize (smallest f, largest f). clear -Hf TC. induction Hf as [|g fs Hg _ IH]; intros cur Hc; cbn [range_over]; [eauto|].
    destruct (extend_range_total cur (smallest g) (largest g) Hc (f_small _ Hg) (f_large _ Hg)) as (r & -> & Hr). cbn [res_bind]. by apply IH.
  - eexists. split; [done|]. cbn. split; [done|]. destruct (list.last fs) as [g|] eqn:E; [|done]. cbn. rewrite Forall_forall in Hf. apply (f_large _ (Hf g (last_Some_elem_of _ _ E))).
Qed.
Lemma ranges_total ex inputs : ∀ cur, inputs_ok inputs → (∀ r, cur = Some r → long r) → ∃ cur', ranges_over ex inputs cur = Ok cur' ∧ (∀ r, cur' = Some r → long r) ∧
  (cur ≠ None ∨ (∃ i, i ∈ inputs ∧ in_files i ≠ [] ∧ Some (in_level i) ≠ ex) → cur' ≠ None).
Proof.
  induction inputs as [|i inputs IH]; intros cur Hin Hc; cbn [ranges_over].
  { exists cur. split; [done|]. split; [done|]. intros [H|(i & Hi & _)]; [done|by apply elem_of_nil in Hi]. }
  assert (Hin' : inputs_ok inputs) by (intros j Hj; apply Hin; by right). destruct (bool_decide_reflect (in_files i = [])) as [E|Hne]; [|destruct (bool_decide_reflect (Some (in_level i) = ex)) as [E|Hex]].
  - cbn [orb]. destruct (IH cur Hin' Hc) as (cur' & -> & H1 & H2). exists cur'. split; [done|]. split; [done|]. intros H. apply H2. destruct H as [H|(j & Hj & H)]; [by left|]. right. apply elem_of_cons in Hj as [->|Hj]; [by destruct H|eauto].
  - cbn [orb]. destruct (IH cur Hin' Hc) as (cur' & -> & H1 & H2). exists cur'. split; [done|]. split; [done|]. intros H. apply H2. destruct H as [H|(j & Hj & H)]; [by left|]. right. apply elem_of_cons in Hj as [->|Hj]; [by destruct H|eauto].
  - cbn [orb]. destruct (GetRange_total i (files_of (i :: inputs) i Hin ltac:(by left)) Hne) as (r & -> & Hr). cbn [res_bind].
    assert (∃ c, match cur with None => Ok r | Some cur => extend_range cur r.1 r.2 end = Ok c ∧ long c) as (c & -> & Hlc).
    { destruct cur as [cur|]; [|eauto]. destruct Hr. by apply extend_range_total; [apply Hc|..]. }
    cbn [res_bind]. destruct (IH (Some c) Hin') as (cur' & -> & H1 & H2); [by intros ? [= <-]|]. exists cur'. split; [done|]. split; [done|]. intros _. apply H2. by left.
Qed.
(** Nothing overlaps when no compaction is in progress. *)
Lemma idle_free style inputs level prox : inputs_ok inputs → (∀ p, prox = Some p → style ≠ kCompactionStyleUniversal → ∃ i, i ∈ inputs ∧ in_files i ≠ [] ∧ in_level i ≠ level) →
  FilesRangeOverlapWithCompaction [] style inputs level prox = Ok false.
Proof.
  intros Hin Hprox. unfold FilesRangeOverlapWithCompaction. destruct (forallb _ inputs) eqn:Ef; [done|]. assert (Hne : ∃ i, i ∈ inputs ∧ in_files i ≠ []).
  { clear -Ef. induction inputs as [|i l IH]; [done|]. cbn [forallb] in Ef. destruct (bool_decide_reflect (in_files i = [])) as [|H]; [|exists i; split; [by left|done]]. destruct (IH Ef) as (j & Hj & H). exists j. split; [by right|done]. }
  assert (Hall : ∀ ex, (∃ i, i ∈ inputs ∧ in_files i ≠ [] ∧ Some (in_level i) ≠ ex) → ∃ r, GetRangeOfAll inputs ex = Ok r ∧ ∀ l, range_in_use [] r l = Ok false).
  { intros ex Hex. unfold GetRangeOfAll. destruct (ranges_total ex inputs None Hin ltac:(done)) as (cur & -> & Hl & Hn). cbn [res_bind]. destruct cur as [r|]; [|by destruct Hn; [right|]]. exists r. split; [done|]. intros l. destruct (Hl r eq_refl).
    unfold range_in_use. by rewrite !extract_ukey by done. }
  destruct (Hall None) as (r & -> & Hu). { destruct Hne as (i & Hi & H). exists i. done. }
  cbn [res_bind]. destruct prox as [p|]; [|cbn [res_bind]; apply Hu]. destruct (bool_decide_reflect (style = kCompactionStyleUniversal)) as [|Hst].
  - rewrite Hu. cbn [res_bind]. apply Hu.
  - destruct (Hall (Some level)) as (r' & -> & Hu'). { destruct (Hprox p eq_refl Hst) as (i & Hi & H1 & H2). exists i. split; [done|]. split; [done|]. congruence. }
    cbn [res_bind]. rewrite Hu'. cbn [res_bind]. apply Hu.
Qed.
Lemma proximal_inputs v o first out p : EvaluateProximalLevel v o first out = Ok (Some p) → compaction_style o ≠ kCompactionStyleUniversal → first ≠ out.
Proof.
  unfold EvaluateProximalLevel. intros E Hu ->. rewrite (bool_decide_false (_ = kCompactionStyleUniversal)) in E by done. destruct (_ && _); [done|]. destruct (Z.of_nat out =? _); [|done]. cbn [negb orb andb] in E.
  destruct (assert_ _); [|done]. cbn [res_bind] in E. by destruct (_ <=? 0).
Qed.
Lemma new_proximal v o inputs out target subs gp snap checker cursor marks c m : newCompaction v o inputs out target subs gp snap checker kManualCompaction cursor marks = Ok (c, m) →
  ∃ first, head inputs = Some first ∧ EvaluateProximalLevel v o (in_level first) out = Ok (proximal_level_ c).
Proof.
  unfold newCompaction. change (bool_decide (kManualCompaction = kExternalSstIngestion) || bool_decide (kManualCompaction = kRefitLevel)) with false. cbn iota. intros E. destruct (head inputs) as [first|]; [|done]. cbn [deref res_bind] in E. exists first. split; [done|].
  destruct (PopulateWithAtomicBoundaries inputs) as [ins|]; [|done]. cbn [res_bind] in E. destruct (IsBottommostLevel out v ins); [|done]. cbn [res_bind] in E. destruct (EvaluateProximalLevel v o (in_level first) out) as [pl|]; [|done]. cbn [res_bind] in E.
  repeat match type of E with res_bind ?x _ = _ => destruct x as [?|] eqn:?; [|done]; cbn [res_bind] in E | (let (_, _) := ?x in _) = _ => destruct x end. injection E as <- _. f_equal.
  match goal with H : PopulateProximalLevelOutputRange ?c0 = Ok ?c |- _ => change pl with (proximal_level_ c0); unfold PopulateProximalLevelOutputRange in H; destruct (proximal_level_ c0) as [q|] eqn:Eq end.
  - destruct (GetBoundaryInternalKeys _ _) as [[??]|]; [|done]. cbn [res_bind] in *. by simplify_eq/=.
  - destruct (assert_ _); [|done]. cbn [res_bind] in *. by simplify_eq/=.
Qed.
(** An idle picker builds the compaction of every valid request. *)
Lemma pick_idle level0 address v o inputs out limit subs snap checker cursor marks : timestamp_size = 0%nat → request_ok v inputs out cursor marks →
  ∃ c p m, PickCompactionForCompactFiles (mkPicker [] level0) address v o inputs out limit subs snap checker cursor marks = Ok (c, p, m) ∧ compactions_in_progress_ p = [(address, c)] ∧
    compaction_ok v o inputs out (λ f, ∃ q, snap = Some q ∧ left_out inputs q checker f) c ∧ m = list_to_set (numbers (all_files inputs)) ∪ marks.
Proof.
  intros Ht Hr. destruct (new_compaction Hts v o inputs out limit subs [] snap checker kManualCompaction cursor marks Ht Hr) as (c & m & En & Hc & Hm). destruct (new_proximal _ _ _ _ _ _ _ _ _ _ _ _ _ En) as (first & Hh & Epl).
  assert (Hne : in_files first ≠ []).
  { destruct (rq_first _ _ _ _ _ Hr) as [t Hcand]. unfold candidate in Hcand. rewrite Hh in Hcand. cbn in Hcand. intros E. rewrite E in Hcand. by destruct (in_level first =? 0)%nat. }
  assert (Hfirst : first ∈ inputs) by by apply head_Some_elem_of. pose proof (rq_inputs _ _ _ _ _ Hr) as Hin.
  assert (Hout : ∀ pl, proximal_level_ c = Some pl → compaction_style o ≠ kCompactionStyleUniversal → in_level first ≠ out) by (intros pl E Hu; rewrite E in Epl; by eapply proximal_inputs).
  unfold PickCompactionForCompactFiles. assert (bool_decide (inputs = []) = false) as -> by (apply bool_decide_false; intros E; by rewrite E in Hh). cbn [negb assert_ res_bind].
  assert (list_find (λ i, in_files i ≠ []) inputs = Some (0%nat, first)) as ->. { destruct inputs as [|i l]; [done|]. injection Hh as ->. cbn [list_find]. by rewrite decide_True. }
  rewrite Epl. cbn [res_bind compactions_in_progress_]. rewrite (idle_free (compaction_style o) inputs out (proximal_level_ c) Hin) by (intros pl E Hu; exists first; split; [done|]; split; [done|]; by eapply Hout).
  assert ((if (out =? 0)%nat then Ok tt else let* used := Ok false in assert_ (negb used)) = Ok tt) as -> by by destruct (out =? 0)%nat. cbn [res_bind]. rewrite En. cbn [res_bind].
  pose proof (co_inputs _ _ _ _ _ _ Hc) as Hg. pose proof (co_level _ _ _ _ _ _ Hc) as Hl. unfold RegisterCompaction. cbn [compactions_in_progress_ snd].
  rewrite (idle_free (compaction_style o) (inputs_ c) (output_level_ c) (proximal_level_ c)); [|by eapply grouped_ok|].
  - assert ((if negb (bool_decide (compaction_style o = kCompactionStyleLevel)) || (output_level_ c =? 0)%nat then Ok tt else let* used := Ok false in assert_ (negb used)) = Ok tt) as -> by by destruct (_ || _). cbn [res_bind].
    eexists c, _, m. split; [done|]. done.
  - intros pl E Hu. apply list_elem_of_lookup in Hfirst as [k Hk]. destruct (Forall2_lookup_l _ _ _ _ _ Hg Hk) as (i & Hi & Hgr). exists i. split; [by eapply list_elem_of_lookup_2|]. destruct Hgr as [G1 G2 _]. rewrite G1, G2, Hl. split; [done|]. by eapply Hout.
Qed.
End pick.
