(* ===== verification/HostJob.v ===== *)
(** * A compaction that is handed to a compaction service (rocksdb
    [db/compaction/compaction_service_job.cc], [db/compaction/subcompaction_state.h],
    [db/internal_stats.h])

    The database describes the sub-compaction, lets the service schedule it, waits for
    the result and moves the files of the result into its own directory; or it
    falls back to compacting locally.  The service and the file system
    are interfaces. *)
From S2P Require Import Prelude CppString Slice DbFormat LevelFiles Compaction OptionText OptionTypes ServiceMessages FileNames PnmService.
Local Open Scope Z_scope.

(** [Wait] may leave the result as it is. *)
Class CompactionService (W : Type) := {
  svc_Schedule : JobInfo → bytes → W → res (JobStatus * bytes * W);
  svc_Wait : bytes → W → res (JobStatus * option bytes * W);
  svc_OnInstallation : bytes → JobStatus → W → W }.
Class FileSystem (W : Type) := {
  RenameFile : W → bytes → bytes → Status * W;
  GetFileSize : W → bytes → Status * Z * W }.

(** ** Statistics *)
(** Addition of [int]: an overflow is undefined. *)
Definition add_int (a b : Z) : res Z := if (- 2 ^ 31 <=? a + b) && (a + b <? 2 ^ 31) then Ok (a + b) else Fail Undefined.
Fixpoint add_ints (a b : list Z) : res (list Z) :=
  match a, b with x :: a, y :: b => let* z := add_int x y in let* l := add_ints a b in Ok (z :: l) | _, _ => Ok a end.
Module Stats.
Import LevelStats.
Definition Add (s c : CompactionStats) : res CompactionStats :=
  let* a := add_int (num_input_files_in_non_output_levels s) (num_input_files_in_non_output_levels c) in
  let* b := add_int (num_input_files_in_output_level s) (num_input_files_in_output_level c) in
  let* d := add_int (num_filtered_input_files_in_non_output_levels s) (num_filtered_input_files_in_non_output_levels c) in
  let* e := add_int (num_filtered_input_files_in_output_level s) (num_filtered_input_files_in_output_level c) in
  let* f := add_int (num_output_files s) (num_output_files c) in
  let* g := add_int (num_output_files_blob s) (num_output_files_blob c) in
  let* n := add_int (count s) (count c) in
  let* ns := add_ints (counts s) (counts c) in
  Ok (mkStats (u64 (micros s + micros c)) (u64 (cpu_micros s + cpu_micros c)) (u64 (bytes_read_non_output_levels s + bytes_read_non_output_levels c))
    (u64 (bytes_read_output_level s + bytes_read_output_level c)) (u64 (bytes_skipped_non_output_levels s + bytes_skipped_non_output_levels c))
    (u64 (bytes_skipped_output_level s + bytes_skipped_output_level c)) (u64 (bytes_read_blob s + bytes_read_blob c)) (u64 (bytes_written s + bytes_written c))
    (u64 (bytes_written_pre_comp s + bytes_written_pre_comp c)) (u64 (bytes_written_blob s + bytes_written_blob c)) (u64 (bytes_moved s + bytes_moved c)) a b d e f g
    (u64 (num_input_records s + num_input_records c)) (u64 (num_dropped_records s + num_dropped_records c)) (u64 (num_output_records s + num_output_records c)) n ns).
End Stats.

(** ** Outputs *)
(** The metadata of an output file: what compactions look at, and the rest. *)
Record FileInfo := mkFileInfo {
  m_file : FileMetaData; oldest_ancester_time : Z; file_creation_time : Z; file_checksum : bytes; file_checksum_func_name : bytes; marked_for_compaction : bool;
  unique_id : list Z; temperature : Temperature; tail_size : Z }.
Record Output := mkOutput { meta : FileInfo; hash : Z; finished : bool; is_proximal_level : bool; table_properties : option Props.TableProperties }.
Record CompactionOutputs := mkOutputs { outputs_ : list Output; stats_ : LevelStats.CompactionStats }.
Definition AddOutput (proximal : bool) (m : FileInfo) (precalculated_hash : Z) (o : CompactionOutputs) : CompactionOutputs :=
  mkOutputs (outputs_ o ++ [mkOutput m precalculated_hash true proximal None]) (stats_ o).
(** The properties of the last output. *)
Definition UpdateTableProperties (p : Props.TableProperties) (o : CompactionOutputs) : res CompactionOutputs :=
  let* out := deref (list.last (outputs_ o)) in
  Ok (mkOutputs (take (length (outputs_ o) - 1) (outputs_ o) ++ [mkOutput (meta out) (hash out) (finished out) (is_proximal_level out) (Some p)]) (stats_ o)).
Record SubcompactionState := mkSub {
  compaction : Compaction; start : option bytes; end_ : option bytes; status : Status; compaction_job_stats : JobStats.CompactionJobStats; sub_job_id : Z;
  compaction_outputs_ : CompactionOutputs; proximal_level_outputs_ : CompactionOutputs }.
#[global] Instance SubcompactionState_settable : Settable SubcompactionState :=
  λ s, mkSub (compaction s) (start s) (end_ s) (status s) (compaction_job_stats s) (sub_job_id s) (compaction_outputs_ s) (proximal_level_outputs_ s).
(** [Outputs] and [OutputStats]: the outputs of a level are changed. *)
Definition on_outputs (proximal : bool) (f : CompactionOutputs → res CompactionOutputs) (s : SubcompactionState) : res SubcompactionState :=
  if proximal then
    let* _ := assert_ (SupportsPerKeyPlacement (compaction s)) in
    let* o := f (proximal_level_outputs_ s) in Ok (s <| proximal_level_outputs_ := o |>)
  else let* o := f (compaction_outputs_ s) in Ok (s <| compaction_outputs_ := o |>).
(** The new files of a version edit, with their levels. *)
Definition AddOutputsEdit (s : SubcompactionState) : res (list (nat * FileInfo)) :=
  let* proximal := match outputs_ (proximal_level_outputs_ s) with [] => Ok 0%nat | _ => deref (proximal_level_ (compaction s)) end in
  Ok (((λ o, (proximal, meta o)) <$> outputs_ (proximal_level_outputs_ s)) ++ ((λ o, (output_level_ (compaction s), meta o)) <$> outputs_ (compaction_outputs_ s))).

Definition CalculateTailSize (file_size : Z) (p : Props.TableProperties) : res Z :=
  let contain_no_data_blocks := (Props.num_entries p =? 0) || ((0 <? Props.num_entries p) && (Props.num_entries p =? Props.num_range_deletions p)) in
  if (0 <? Props.tail_start_offset p) || contain_no_data_blocks then
    let* _ := assert_ (Props.tail_start_offset p <=? file_size) in Ok (u64 (file_size - Props.tail_start_offset p))
  else Ok 0.
Definition kFileNumberMask : Z := 0x3FFFFFFFFFFFFFFF.
(** The metadata of a file of the result under its new number. *)
Definition installed_meta (path_id : nat) (file_num file_size : Z) (file : OutputFile.CompactionServiceOutputFile) : res FileInfo :=
  let* _ := assert_ (file_num <=? kFileNumberMask) in
  let* tail := CalculateTailSize file_size (OutputFile.table_properties file) in
  Ok (mkFileInfo
    (mkFile file_num file_size (OutputFile.smallest_seqno file) (OutputFile.largest_seqno file) (OutputFile.smallest_internal_key file) (OutputFile.largest_internal_key file)
       0 0 (Z.of_nat path_id) 0 (OutputFile.epoch_number file))
    (OutputFile.oldest_ancester_time file) (OutputFile.file_creation_time file) (OutputFile.file_checksum file) (OutputFile.file_checksum_func_name file)
    (OutputFile.marked_for_compaction file) (OutputFile.unique_id file) (OutputFile.file_temperature file) tail).

(** ** The job *)
Record CompactionJob := mkJob {
  db_id_ : bytes; dbname_ : bytes; cf_name : bytes; snapshot_seqs : list Z; options_file_number_ : Z; job_id_ : Z; cf_paths : list bytes; output_path_id : nat }.
Definition GetCompactionId (j : CompactionJob) (s : SubcompactionState) : Z := Z.lor (u64 (Z.shiftl (u64 (job_id_ j)) 32)) (sub_job_id s).
Definition compaction_input (j : CompactionJob) (s : SubcompactionState) : Input.CompactionServiceInput :=
  let c := compaction s in
  Input.mkInput (cf_name j) (snapshot_seqs j) (concat ((λ i, (λ f, MakeTableFileName (number f)) <$> in_files i) <$> inputs_ c)) (Z.of_nat (output_level_ c)) (db_id_ j)
    (match start s with Some _ => true | None => false end) (default [] (start s)) (match end_ s with Some _ => true | None => false end) (default [] (end_ s)) (options_file_number_ j).
Definition Aborted : Status := status_of 10.
Definition Incomplete : Status := status_of 7.

Section job.
Context {W : Type} `{CompactionService W} `{FileSystem W} (p : Process) (j : CompactionJob).
(** One file of the result; the flag tells whether to go on. *)
Definition install_file (output_path id : bytes) (file : OutputFile.CompactionServiceOutputFile) (s : SubcompactionState) (next_file_number : Z) (w : W) : res (bool * SubcompactionState * Z * W) :=
  let file_num := next_file_number in
  let next_file_number := u64 (next_file_number + 1) in
  let src_file := output_path ++ str "/" ++ OutputFile.file_name file in
  let* tgt_file := TableFileName (cf_paths j) file_num (output_path_id j) in
  let (st, w) := RenameFile w src_file tgt_file in
  if negb (ok st) then Ok (false, s <| status := st |>, next_file_number, svc_OnInstallation id kFailure w)
  else
    let '(st, file_size, w) := if OutputFile.file_size file =? 0 then GetFileSize w tgt_file else (st, OutputFile.file_size file, w) in
    if negb (ok st) then Ok (false, s <| status := st |>, next_file_number, svc_OnInstallation id kFailure w)
    else
      let* _ := assert_ (0 <? file_size) in
      let* m := installed_meta (output_path_id j) file_num file_size file in
      let proximal := OutputFile.is_proximal_level_output file in
      let* s := on_outputs proximal (λ o, UpdateTableProperties (OutputFile.table_properties file) (AddOutput proximal m (OutputFile.paranoid_hash file) o)) s in
      Ok (true, s, next_file_number, w).
Fixpoint install_files (output_path id : bytes) (files : list OutputFile.CompactionServiceOutputFile) (s : SubcompactionState) (next_file_number : Z) (w : W) : res (bool * SubcompactionState * Z * W) :=
  match files with
  | [] => Ok (true, s, next_file_number, w)
  | file :: files =>
      let* (go, s, next_file_number, w) := install_file output_path id file s next_file_number w in
      if go : bool then install_files output_path id files s next_file_number w else Ok (false, s, next_file_number, w)
  end.
Definition add_stats (proximal : bool) (c : LevelStats.CompactionStats) (s : SubcompactionState) : res SubcompactionState :=
  on_outputs proximal (λ o, let* a := Stats.Add (stats_ o) c in Ok (mkOutputs (outputs_ o) a)) s.
(** The result is installed; objects that are read into are not all initialized. *)
Definition install_result (id : bytes) (r : Result.CompactionServiceResult) (s : SubcompactionState) (next_file_number : Z) (w : W) : res (JobStatus * SubcompactionState * Z * W) :=
  let s := s <| status := Result.status r |> in
  let* (go, s, next_file_number, w) := install_files (Result.output_path r) id (Result.output_files r) s next_file_number w in
  if negb go then Ok (kFailure, s, next_file_number, w)
  else
    let* s := add_stats false (FullStats.output_level_stats (Result.internal_stats r)) s in
    let* s := if SupportsPerKeyPlacement (compaction s) then add_stats true (FullStats.proximal_level_stats (Result.internal_stats r)) s else Ok s in
    Ok (kSuccess, s <| compaction_job_stats := Result.stats r |>, next_file_number, svc_OnInstallation id kSuccess w).
Context (uninitialized : Adapter.StatusSerializationAdapter) (marked proximal : bool).
Definition ProcessKeyValueCompactionWithCompactionService (s : SubcompactionState) (next_file_number : Z) (w : W) : res (JobStatus * SubcompactionState * Z * W) :=
  let (st, binary) := Write p Input.cs_input_type_info (compaction_input j s) [] in
  if negb (ok st) then Ok (kFailure, s <| status := st |>, next_file_number, w)
  else
    let* (response, id, w) := svc_Schedule (mkJobInfo (dbname_ j) (GetCompactionId j s)) binary w in
    match response with
    | kAborted => Ok (kAborted, s <| status := Aborted |>, next_file_number, w)
    | kFailure => Ok (kFailure, s <| status := Incomplete |>, next_file_number, w)
    | kUseLocal => Ok (kUseLocal, s, next_file_number, w)
    | kSuccess =>
        let* (compaction_status, result_binary, w) := svc_Wait id w in
        match compaction_status with
        | kUseLocal => Ok (kUseLocal, s, next_file_number, w)
        | kAborted => Ok (kAborted, s <| status := Aborted |>, next_file_number, w)
        | kFailure =>
            let* (st, r) := Read p (Result.cs_result_type_info uninitialized marked proximal) (default [] result_binary) Result.new in
            Ok (kFailure, s <| status := if ok st && negb (ok (Result.status r)) then Result.status r else Incomplete |>, next_file_number, w)
        | kSuccess =>
            let* (st, r) := Read p (Result.cs_result_type_info uninitialized marked proximal) (default [] result_binary) Result.new in
            if negb (ok st) then
              let* _ := assert_ (ok (status s) && bool_decide (length (outputs_ (compaction_outputs_ s)) = 0%nat) && bool_decide (length (outputs_ (proximal_level_outputs_ s)) = 0%nat)) in
              Ok (kUseLocal, s, next_file_number, svc_OnInstallation id kUseLocal w)
            else install_result id r s next_file_number w
        end
    end.
Definition ShouldUseLocalCompaction (has_service : bool) (s : SubcompactionState) (next_file_number : Z) (w : W) : res (bool * SubcompactionState * Z * W) :=
  if negb has_service then Ok (true, s, next_file_number, w)
  else
  let* (comp_status, s, next_file_number, w) := ProcessKeyValueCompactionWithCompactionService s next_file_number w in
  if bool_decide (comp_status = kUseLocal) then
    Ok (true, s <| compaction_job_stats := (compaction_job_stats s) <| JobStats.is_remote_compaction := false |> |>, next_file_number, w)
  else Ok (false, s, next_file_number, w).
End job.
