(* ===== verification/HostThm.v ===== *)
(** * What becomes of a compaction that is handed to a service

    Every outcome of the call, and that the files of a result end up in the database's directory
    under fresh numbers and in its list of outputs. *)
From S2P Require Import Prelude CppString Slice DbFormat LevelFiles Compaction OptionText OptionTypes OptionLaws ServiceMessages ServiceLaws ServiceTrip FileNames PnmService HostJob.
Local Open Scope Z_scope.

(** What the file system's calls do to the files, by name with their sizes. *)
Class FileSystemLaws (W : Type) `{CompactionService W} `{!FileSystem W} := {
  fs_files : W → gmap bytes Z;
  rename_law w a b st w' : RenameFile w a b = (st, w') →
    if ok st then ∃ size, fs_files w !! a = Some size ∧ fs_files w' = <[b := size]> (delete a (fs_files w)) else fs_files w' = fs_files w;
  size_law w a st size w' : GetFileSize w a = (st, size, w') → fs_files w' = fs_files w ∧ (ok st = true → fs_files w !! a = Some size);
  notify_law id st w : fs_files (svc_OnInstallation id st w) = fs_files w }.

(** ** Outcomes *)
Section outcomes.
Context {W : Type} `{CompactionService W} `{!FileSystem W} (p : Process) (j : CompactionJob).
Lemma on_outputs_status b f s s' : on_outputs b f s = Ok s' → status s' = status s ∧ compaction s' = compaction s.
Proof. unfold on_outputs. intros E. destruct b; [destruct (assert_ _); [|done]; cbn [res_bind] in E|]; destruct (f _); cbn [res_bind] in E; [|done| |done]; by injection E as <-. Qed.
Lemma install_file_status path id f s n (w : W) go s' n' w' : install_file j path id f s n w = Ok (go, s', n', w') → if go : bool then status s' = status s else ok (status s') = false.
Proof.
  unfold install_file. intros E. destruct (TableFileName _ _ _); [|done]. cbn [res_bind] in E. destruct (RenameFile _ _ _) as [st w1]. destruct (ok st) eqn:Est; cbn [negb] in E; [|by injection E as <- <- _ _].
  destruct (if OutputFile.file_size f =? 0 then _ else _) as [[st2 size] w2]. destruct (ok st2) eqn:Est2; cbn [negb] in E; [|by injection E as <- <- _ _]. destruct (assert_ _); [|done]. cbn [res_bind] in E. destruct (installed_meta _ _ _ _); [|done]. cbn [res_bind] in E.
  destruct (on_outputs _ _ _) as [s2|] eqn:Eo; [|done]. cbn [res_bind] in E. injection E as <- <- _ _. by apply on_outputs_status in Eo as [].
Qed.
Lemma install_files_status path id files : ∀ s n (w : W) go s' n' w', install_files j path id files s n w = Ok (go, s', n', w') → if go : bool then status s' = status s else ok (status s') = false.
Proof.
  induction files as [|f files IH]; intros s n w go s' n' w' E; cbn [install_files] in E; [by injection E as <- <- _ _|]. destruct (install_file j path id f s n w) as [[[[go1 s1] n1] w1]|] eqn:E1; [|done]. cbn [res_bind] in E.
  apply install_file_status in E1. destruct go1; [|by injection E as <- <- _ _]. apply IH in E. destruct go; [congruence|done].
Qed.
Lemma install_result_status id r s n (w : W) st s' n' w' : install_result j id r s n w = Ok (st, s', n', w') → (st = kSuccess ∧ status s' = Result.status r) ∨ (st = kFailure ∧ ok (status s') = false).
Proof.
  unfold install_result. intros E. destruct (install_files _ _ _ _ _ _ _) as [[[[go s1] n1] w1]|] eqn:Ef; [|done]. cbn [res_bind] in E. apply install_files_status in Ef. destruct go; cbn [negb] in E; [|injection E as <- <- _ _; by right].
  destruct (add_stats false _ s1) as [s2|] eqn:E2; [|done]. cbn [res_bind] in E. unfold add_stats in *. apply on_outputs_status in E2 as [E2 _]. destruct (if SupportsPerKeyPlacement (compaction s2) then _ else _) as [s3|] eqn:E3; [|done]. cbn [res_bind] in E. injection E as <- <- _ _. left. split; [done|].
  assert (status s3 = status s2) by (destruct (SupportsPerKeyPlacement _); [by apply on_outputs_status in E3 as []|by injection E3 as <-]). cbn in *. congruence.
Qed.
End outcomes.

(** ** Installation *)
Definition source (r : Result.CompactionServiceResult) (f : OutputFile.CompactionServiceOutputFile) : bytes := Result.output_path r ++ str "/" ++ OutputFile.file_name f.
(** The directory of the job's output path. *)
Definition directory (j : CompactionJob) : bytes := default [] (match cf_paths j !! output_path_id j with Some d => Some d | None => list.last (cf_paths j) end).
Definition target (j : CompactionJob) (n : Z) : bytes := MakeTableFileNameIn (directory j) n.
(** The metadata that a file of the result has under a number: all that the worker has told of it. *)
Record told (path_id : nat) (n : Z) (f : OutputFile.CompactionServiceOutputFile) (m : FileInfo) : Prop := {
  td_number : number (m_file m) = n; td_path : LevelFiles.path_id (m_file m) = Z.of_nat path_id; td_size : LevelFiles.file_size (m_file m) = OutputFile.file_size f;
  td_seqnos : LevelFiles.smallest_seqno (m_file m) = OutputFile.smallest_seqno f ∧ LevelFiles.largest_seqno (m_file m) = OutputFile.largest_seqno f;
  td_keys : smallest (m_file m) = OutputFile.smallest_internal_key f ∧ largest (m_file m) = OutputFile.largest_internal_key f;
  td_epoch : LevelFiles.epoch_number (m_file m) = OutputFile.epoch_number f;
  td_times : oldest_ancester_time m = OutputFile.oldest_ancester_time f ∧ file_creation_time m = OutputFile.file_creation_time f;
  td_checksum : file_checksum m = OutputFile.file_checksum f ∧ file_checksum_func_name m = OutputFile.file_checksum_func_name f;
  td_marked : marked_for_compaction m = OutputFile.marked_for_compaction f; td_id : unique_id m = OutputFile.unique_id f; td_temperature : temperature m = OutputFile.file_temperature f;
  td_tail : 0 < Props.tail_start_offset (OutputFile.table_properties f) → tail_size m = u64 (OutputFile.file_size f - Props.tail_start_offset (OutputFile.table_properties f)) }.
(** The output that a file of the result becomes under a number. *)
Definition becomes (path_id : nat) (n : Z) (f : OutputFile.CompactionServiceOutputFile) (o : Output) : Prop :=
  told path_id n f (meta o) ∧ hash o = OutputFile.paranoid_hash f ∧ finished o = true ∧
  is_proximal_level o = OutputFile.is_proximal_level_output f ∧ table_properties o = Some (OutputFile.table_properties f).
(** ... one after the other, from a number on. *)
Fixpoint become (path_id : nat) (n : Z) (fs : list OutputFile.CompactionServiceOutputFile) (os : list Output) : Prop :=
  match fs, os with f :: fs, o :: os => becomes path_id n f o ∧ become path_id (n + 1) fs os | [], [] => True | _, _ => False end.
Definition with_outputs (s : SubcompactionState) (os : list Output) : SubcompactionState :=
  s <| compaction_outputs_ := mkOutputs (outputs_ (compaction_outputs_ s) ++ List.filter (λ o, negb (is_proximal_level o)) os) (stats_ (compaction_outputs_ s)) |>
    <| proximal_level_outputs_ := mkOutputs (outputs_ (proximal_level_outputs_ s) ++ List.filter is_proximal_level os) (stats_ (proximal_level_outputs_ s)) |>.
(** A file that can be installed: not empty, its tail within it, on a level that the compaction writes. *)
Record file_fits (c : Compaction) (f : OutputFile.CompactionServiceOutputFile) : Prop := {
  ff_size : 0 < OutputFile.file_size f; ff_tail : Props.tail_start_offset (OutputFile.table_properties f) ≤ OutputFile.file_size f;
  ff_level : OutputFile.is_proximal_level_output f = true → SupportsPerKeyPlacement c = true }.

Section install.
Context {W : Type} `{CompactionService W} `{!FileSystem W} `{!FileSystemLaws W} (j : CompactionJob).
(** A file that exists can be renamed. *)
Definition reliable : Prop := ∀ (w : W) a b, is_Some (fs_files w !! a) → ok (RenameFile w a b).1 = true.
Lemma target_name n : 0 < n → cf_paths j ≠ [] → TableFileName (cf_paths j) n (output_path_id j) = Ok (target j n).
Proof.
  intros Hn Hp. unfold TableFileName, target, directory. rewrite (proj2 (Z.ltb_lt _ _)) by done. cbn [assert_ res_bind]. destruct (cf_paths j !! output_path_id j); [done|]. destruct (list.last (cf_paths j)) eqn:E; [done|]. by apply last_None in E.
Qed.
Lemma target_inj a b : in_u 64 a → in_u 64 b → target j a = target j b → a = b.
Proof. intros Ha Hb E. unfold target, MakeTableFileNameIn in E. apply app_inv_head, app_inv_head in E. rewrite <- (table_name_number a Ha), <- (table_name_number b Hb). by rewrite E. Qed.
Lemma installed_told n f c : n ≤ kFileNumberMask → file_fits c f → ∃ m, installed_meta (output_path_id j) n (OutputFile.file_size f) f = Ok m ∧ told (output_path_id j) n f m.
Proof.
  intros Hn [Hs Ht _]. unfold installed_meta. rewrite (proj2 (Z.leb_le _ _)) by done. cbn [assert_ res_bind]. unfold CalculateTailSize. destruct (0 <? _) eqn:E; cbn [orb].
  - rewrite (proj2 (Z.leb_le _ _)) by done. cbn [assert_ res_bind]. eexists. by split; [|constructor].
  - apply Z.ltb_ge in E. destruct (_ || _); [rewrite (proj2 (Z.leb_le _ _)) by done; cbn [assert_ res_bind]|cbn [res_bind]]; (eexists; split; [done|constructor; try done; cbn; lia]).
Qed.
Lemma add_output b m h props o : UpdateTableProperties props (AddOutput b m h o) = Ok (mkOutputs (outputs_ o ++ [mkOutput m h true b (Some props)]) (stats_ o)).
Proof.
  unfold UpdateTableProperties, AddOutput. cbn [outputs_ stats_]. rewrite last_snoc. cbn [deref res_bind meta hash finished is_proximal_level]. rewrite length_app. cbn [length]. rewrite Nat.add_sub, take_app_length. done.
Qed.
Lemma install_file_ok path id f s n (w : W) : reliable → cf_paths j ≠ [] → 0 < n ≤ kFileNumberMask → file_fits (compaction s) f → is_Some (fs_files w !! (path ++ str "/" ++ OutputFile.file_name f)) →
  ∃ o w' size, install_file j path id f s n w = Ok (true, with_outputs s [o], n + 1, w') ∧ becomes (output_path_id j) n f o ∧
    fs_files w !! (path ++ str "/" ++ OutputFile.file_name f) = Some size ∧ fs_files w' = <[target j n := size]> (delete (path ++ str "/" ++ OutputFile.file_name f) (fs_files w)).
Proof.
  intros Hrel Hp Hn Hf Hsrc. destruct (installed_told n f (compaction s)) as (m & Em & Htold); [lia|done|]. unfold install_file. rewrite target_name by (done || lia). cbn [res_bind].
  specialize (Hrel w _ (target j n) Hsrc). destruct (RenameFile w _ _) as [st w1] eqn:Er. cbn in Hrel. apply rename_law in Er. rewrite Hrel in Er |- *. destruct Er as (size & Hsize & Hfs). cbn [negb].
  rewrite (proj2 (Z.eqb_neq _ _)) by (destruct Hf; lia). rewrite Hrel. cbn [negb]. rewrite (proj2 (Z.ltb_lt _ _)) by apply (ff_size _ _ Hf). cbn [assert_ res_bind]. rewrite Em. cbn [res_bind]. unfold kFileNumberMask in Hn.
  rewrite u64_id by lia. set (o := mkOutput m (OutputFile.paranoid_hash f) true (OutputFile.is_proximal_level_output f) (Some (OutputFile.table_properties f))). exists o, w1, size. split; [|done].
  unfold on_outputs. destruct (OutputFile.is_proximal_level_output f) eqn:Eb.
  - rewrite (ff_level _ _ Hf Eb). cbn [assert_ res_bind]. rewrite add_output. cbn [res_bind]. unfold with_outputs. cbn [List.filter o is_proximal_level negb]. rewrite app_nil_r. by destruct s as [????? ? [] []].
  - rewrite add_output. cbn [res_bind]. unfold with_outputs. cbn [List.filter o is_proximal_level negb]. rewrite app_nil_r. by destruct s as [????? ? [] []].
Qed.
Lemma with_outputs_cons s o os : with_outputs (with_outputs s [o]) os = with_outputs s (o :: os).
Proof. destruct s as [????? ? [] []]. unfold with_outputs. cbn. destruct (is_proximal_level o); cbn; by rewrite <- !app_assoc. Qed.
(** The files have been moved: the targets hold what the sources held, the sources are gone, nothing else has changed. *)
Record moved (src : OutputFile.CompactionServiceOutputFile → bytes) (n : Z) (files : list OutputFile.CompactionServiceOutputFile) (w w' : W) : Prop := {
  mv_target i f : files !! i = Some f → fs_files w' !! target j (n + Z.of_nat i) = fs_files w !! src f; mv_source f : f ∈ files → fs_files w' !! src f = None;
  mv_other x : (∀ f, f ∈ files → x ≠ src f) → (∀ i, (i < length files)%nat → x ≠ target j (n + Z.of_nat i)) → fs_files w' !! x = fs_files w !! x }.
Lemma install_files_ok path id files : let src f := path ++ str "/" ++ OutputFile.file_name f in ∀ s n (w : W), reliable → cf_paths j ≠ [] → 0 < n → n + Z.of_nat (length files) ≤ kFileNumberMask →
  Forall (file_fits (compaction s)) files → NoDup (OutputFile.file_name <$> files) → (∀ f, f ∈ files → is_Some (fs_files w !! src f)) → (∀ f k, f ∈ files → src f ≠ target j k) →
  ∃ os w', install_files j path id files s n w = Ok (true, with_outputs s os, n + Z.of_nat (length files), w') ∧ become (output_path_id j) n files os ∧ moved src n files w w'.
Proof.
  intros src. induction files as [|f files IH]; intros s n w Hrel Hp Hn Hm Hfit Hd Hex Hsep.
  { exists [], w. cbn [install_files length]. rewrite Z.add_0_r. split; [|split; [done|by split; [|intros ? []%elem_of_nil|]]]. unfold with_outputs. cbn. destruct s as [????? ? [] []]. cbn. by rewrite !app_nil_r. }
  cbn [length] in Hm. apply Forall_cons in Hfit as [Hf Hfit]. cbn [fmap list_fmap] in Hd. apply NoDup_cons in Hd as [Hd0 Hd]. cbn [install_files].
  destruct (install_file_ok path id f s n w Hrel Hp ltac:(lia) Hf (Hex f ltac:(by left))) as (o & w1 & size & -> & Ho & Hsize & Hfs). cbn [res_bind]. fold (src f) in Hsize, Hfs.
  assert (Hne : ∀ g, g ∈ files → src g ≠ src f). { intros g Hg E. apply Hd0. unfold src in E. apply app_inv_head, app_inv_head in E. rewrite <- E. apply list_elem_of_fmap. by exists g. }
  assert (Hold : ∀ x, x ≠ src f → x ≠ target j n → fs_files w1 !! x = fs_files w !! x) by (intros x H1 H2; rewrite Hfs, lookup_insert_ne, lookup_delete_ne by done; done).
  destruct (IH (with_outputs s [o]) (n + 1) w1) as (os & w' & -> & Hos & [M1 M2 M3]); try done; [lia|lia| | |].
  { intros g Hg. rewrite Hold; [apply Hex; by right|by apply Hne|]. apply Hsep. by right. }
  { intros g k Hg. apply Hsep. by right. }
  exists (o :: os), w'. rewrite with_outputs_cons. split; [do 3 f_equal; cbn [length]; lia|]. split; [done|].
  assert (Ht : ∀ i, (i < length files)%nat → target j n ≠ target j (n + 1 + Z.of_nat i)). { intros i Hi E. unfold kFileNumberMask in Hm. apply target_inj in E; lia. }
  split.
  - intros [|i] g Hg.
    + injection Hg as <-. rewrite Z.add_0_r, M3; [rewrite Hfs, lookup_insert_eq; done| |done]. intros g Hg. symmetry. apply Hsep. by right.
    + cbn in Hg. replace (n + Z.of_nat (S i)) with (n + 1 + Z.of_nat i) by lia. rewrite (M1 i g Hg). assert (g ∈ files) by by eapply list_elem_of_lookup_2. apply Hold; [by apply Hne|]. apply Hsep. by right.
  - intros g [->|Hg]%elem_of_cons; [|by apply M2]. rewrite M3; [rewrite Hfs, lookup_insert_ne, lookup_delete_eq; [done|symmetry; apply Hsep; by left]|intros h Hh; symmetry; by apply Hne|intros i Hi; apply Hsep; by left].
  - intros x Hx Ht'. rewrite M3; [apply Hold|intros g Hg; apply Hx; by right|].
    + apply Hx. by left.
    + specialize (Ht' 0%nat). rewrite Z.add_0_r in Ht'. apply Ht'. cbn [length]. lia.
    + intros i Hi. replace (n + 1 + Z.of_nat i) with (n + Z.of_nat (S i)) by lia. apply Ht'. cbn [length]. lia.
Qed.
End install.

(** ** Statistics: those of a fresh sub-compaction are zero *)
Lemma add_int_zero z : - 2 ^ 31 ≤ z < 2 ^ 31 → add_int 0 z = Ok z.
Proof. intros Hz. unfold add_int. rewrite Z.add_0_l, (proj2 (Z.leb_le _ _)), (proj2 (Z.ltb_lt _ _)) by lia. done. Qed.
Lemma add_ints_zero l : Forall (λ z, - 2 ^ 31 ≤ z < 2 ^ 31) l → add_ints (replicate (length l) 0) l = Ok l.
Proof. induction 1 as [|z l Hz _ IH]; [done|]. cbn [length replicate add_ints]. rewrite add_int_zero by done. cbn [res_bind]. rewrite IH. done. Qed.
Lemma add_fresh c : valid LevelStats.fields c → in_u 64 (LevelStats.bytes_written_pre_comp c) → Stats.Add LevelStats.new c = Ok c.
Proof.
  intros Hv Hpre. pose proof (valid_ints c Hv) as (Hc & Hl & Hf). unfold valid, LevelStats.fields in Hv. repeat (apply Forall_cons in Hv as [?F Hv]). cbn in * |-.
  unfold Stats.Add. cbn -[u64 add_ints replicate LevelStats.kNumOfReasons]. rewrite !add_int_zero by done. cbn [res_bind]. rewrite <- Hl, add_ints_zero by done. cbn [res_bind]. rewrite ?Z.add_0_l. rewrite !u64_id by done. by destruct c.
Qed.
Lemma received_valid s : valid LevelStats.fields s → valid LevelStats.fields (stats_received s LevelStats.new).
Proof.
  intros Hv. pose proof (valid_ints s Hv) as (Hc & Hl & Hf). unfold LevelStats.kNumOfReasons in Hl. unfold valid, LevelStats.fields in *. repeat (apply Forall_cons in Hv as [?F Hv]). repeat (apply Forall_cons_2; [try assumption|]); [..|apply Forall_nil_2].
  - split; [done|]. split; [cbn; rewrite length_app, length_take, Hl; done|]. cbn. apply Forall_app. split; [by apply Forall_take|]. repeat constructor; lia.
  - destruct F19 as [F1' F2']. cbn in F1', F2' |- *. rewrite take_app_length' by (rewrite length_take, Hl; done). done.
Qed.

(** ** The whole result *)
Definition fresh (s : SubcompactionState) : Prop := stats_ (compaction_outputs_ s) = LevelStats.new ∧ stats_ (proximal_level_outputs_ s) = LevelStats.new.
(** The sub-compaction with the outputs, the status and the statistics of a result. *)
Definition with_result (s : SubcompactionState) (os : list Output) (r : Result.CompactionServiceResult) : SubcompactionState :=
  let t := with_outputs s os in
  t <| status := Result.status r |> <| compaction_job_stats := Result.stats r |>
    <| compaction_outputs_ := mkOutputs (outputs_ (compaction_outputs_ t)) (FullStats.output_level_stats (Result.internal_stats r)) |>
    <| proximal_level_outputs_ := if SupportsPerKeyPlacement (compaction s) then mkOutputs (outputs_ (proximal_level_outputs_ t)) (FullStats.proximal_level_stats (Result.internal_stats r)) else proximal_level_outputs_ t |>.
(** What a result needs to be installed in a world. *)
Record installable {W} `{FileSystemLaws W} (j : CompactionJob) (s : SubcompactionState) (n : Z) (r : Result.CompactionServiceResult) (w : W) : Prop := {
  in_paths : cf_paths j ≠ []; in_number : 0 < n; in_numbers : n + Z.of_nat (length (Result.output_files r)) ≤ kFileNumberMask; in_fit : Forall (file_fits (compaction s)) (Result.output_files r);
  in_names : NoDup (OutputFile.file_name <$> Result.output_files r); in_sources f : f ∈ Result.output_files r → is_Some (fs_files w !! source r f);
  in_apart f k : f ∈ Result.output_files r → source r f ≠ target j k }.
Section whole.
Context {W : Type} `{FileSystemLaws W} (j : CompactionJob).
Lemma moved_notify src n files (w w' : W) id st : moved j src n files w w' → moved j src n files w (svc_OnInstallation id st w').
Proof. intros [M1 M2 M3]. split; intros; rewrite notify_law; auto. Qed.
Lemma install_result_ok id u m b r s n (w : W) : reliable (W := W) → fresh s → valid (Result.fields u m b) r → installable j s n r w →
  ∃ os w', install_result j id (received r Result.new) s n w = Ok (kSuccess, with_result s os (received r Result.new), n + Z.of_nat (length (Result.output_files r)), w') ∧
    become (output_path_id j) n (Result.output_files r) os ∧ moved j (source r) n (Result.output_files r) w w'.
Proof.
  intros Hrel [F1 F2] Hv [I1 I2 I3 I4 I5 I6 I7]. do 7 apply Forall_inv_tail in Hv. pose proof (Forall_inv Hv) as Hfull. cbn in Hfull. pose proof (Forall_inv Hfull) as V1. do 2 apply Forall_inv_tail in Hfull. pose proof (Forall_inv Hfull) as V2. cbn in V1, V2.
  unfold install_result. set (s0 := s <| status := _ |>). destruct (install_files_ok j (Result.output_path r) id (Result.output_files r) s0 n w) as (os & w' & E & Hos & Hmv); try done.
  change (Result.output_path (received r Result.new)) with (Result.output_path r). change (Result.output_files (received r Result.new)) with (Result.output_files r). rewrite E. cbn [res_bind negb]. exists os, (svc_OnInstallation id kSuccess w'). split; [|split; [done|by apply moved_notify]].
  change (FullStats.output_level_stats (Result.internal_stats (received r Result.new))) with (stats_received (FullStats.output_level_stats (Result.internal_stats r)) LevelStats.new).
  change (FullStats.proximal_level_stats (Result.internal_stats (received r Result.new))) with (stats_received (FullStats.proximal_level_stats (Result.internal_stats r)) LevelStats.new).
  set (a := stats_received _ _). set (c := stats_received _ _). assert (Ea : Stats.Add LevelStats.new a = Ok a) by (apply add_fresh; [by apply received_valid|done]). assert (Ec : Stats.Add LevelStats.new c = Ok c) by (apply add_fresh; [by apply received_valid|done]).
  unfold add_stats, on_outputs. cbn [res_bind]. replace (stats_ (compaction_outputs_ (with_outputs s0 os))) with LevelStats.new by (symmetry; exact F1). rewrite Ea. cbn [res_bind].
  set (s1 := (with_outputs s0 os) <| compaction_outputs_ := _ |>). change (SupportsPerKeyPlacement (compaction s1)) with (SupportsPerKeyPlacement (compaction s)). unfold with_result. destruct (SupportsPerKeyPlacement (compaction s)); cbn [assert_ res_bind]; [|done].
  replace (stats_ (proximal_level_outputs_ s1)) with LevelStats.new by (symmetry; exact F2). rewrite Ec. done.
Qed.
End whole.

(** C15: Whatever the service and the file system do, the status of the sub-compaction tells the
    outcome.  On a fallback nothing has changed, no file number has been used, and a
    local compaction can start; an aborted or failed job, also one whose files
    could not all be moved, never leaves a status that is OK; and a success
    leaves the status that the worker reported, after a result that could be read. *)
Theorem remote_job_outcomes {W} `{CompactionService W} `{!FileSystem W} p j u m b s n (w : W) st s' n' w' :
  ProcessKeyValueCompactionWithCompactionService p j u m b s n w = Ok (st, s', n', w') →
  match st with
  | kUseLocal => s' = s ∧ n' = n
  | kAborted => s' = s <| status := Aborted |> ∧ n' = n
  | kFailure => ok (status s') = false
  | kSuccess => ∃ id w0 data w1 rst r, svc_Wait id w0 = Ok (kSuccess, data, w1) ∧ Read p (Result.cs_result_type_info u m b) (default [] data) Result.new = Ok (rst, r) ∧ ok rst = true ∧ status s' = Result.status r
  end.
Proof.
  unfold ProcessKeyValueCompactionWithCompactionService. intros E. destruct (Write _ _ _ _) as [st0 binary]. destruct (ok st0) eqn:E0; cbn [negb] in E; [|by injection E as <- <- _ _].
  destruct (svc_Schedule _ _ _) as [[[resp id] w0]|]; [|done]. cbn [res_bind] in E. destruct resp; [|by injection E as <- <- _ _|by injection E as <- <- <- _|by injection E as <- <- <- _].
  destruct (svc_Wait id w0) as [[[cst data] w1]|] eqn:Ew; [|done]. cbn [res_bind] in E. destruct cst; [| |by injection E as <- <- <- _|by injection E as <- <- <- _];
    destruct (Read _ _ _ _) as [[rst r]|] eqn:Er; try done; cbn [res_bind] in E.
  - destruct (ok rst) eqn:Eok; cbn [negb] in E; [|destruct (assert_ _); [|done]; cbn [res_bind] in E; by injection E as <- <- <- _].
    destruct (install_result_status _ _ _ _ _ _ _ _ _ _ E) as [[-> Es]|[-> Es]]; [|done]. by exists id, w0, data, w1, rst, r.
  - injection E as <- <- _ _. cbn. destruct (ok rst && negb (ok (Result.status r))) eqn:Ea; [|done]. apply andb_true_iff in Ea as [_ Ea]. by apply negb_true_iff in Ea.
Qed.

Lemma remote_result {W} `{FileSystemLaws W} p pw j u m b u' m' b' s n (w w0 w1 : W) id data r : process_ok p → process_ok pw → reliable (W := W) →
  valid Input.fields (compaction_input j s) → (∀ binary, Write p Input.cs_input_type_info (compaction_input j s) [] = (OK, binary) → svc_Schedule (mkJobInfo (dbname_ j) (GetCompactionId j s)) binary w = Ok (kSuccess, id, w0)) →
  svc_Wait id w0 = Ok (kSuccess, Some data, w1) → Write pw (Result.cs_result_type_info u' m' b') r [] = (OK, data) → valid (Result.fields u m b) r → fresh s → installable j s n r w1 →
  ∃ os w', ProcessKeyValueCompactionWithCompactionService p j u m b s n w = Ok (kSuccess, with_result s os (received r Result.new), n + Z.of_nat (length (Result.output_files r)), w') ∧
    become (output_path_id j) n (Result.output_files r) os ∧ moved j (source r) n (Result.output_files r) w1 w'.
Proof.
  intros Hp Hpw Hrel Hin Hsch Hwait Hwrite Hv Hfresh Hinst. destruct (input_read p p (compaction_input j s) Input.new Hp Hp Hin) as (binary & Hb & _). unfold ProcessKeyValueCompactionWithCompactionService. rewrite Hb. change (negb (ok OK)) with false. cbn iota.
  rewrite (Hsch binary Hb). cbn [res_bind]. rewrite Hwait. cbn [res_bind]. change (default [] (Some data)) with data. destruct (result_read pw p u' m' b' u m b r Result.new Hpw Hp Hv ltac:(done)) as (data' & Hw' & Hr). rewrite Hwrite in Hw'. injection Hw' as <-. rewrite Hr. cbn [res_bind]. change (negb (ok OK)) with false. cbn iota.
  by apply (install_result_ok j id u m b).
Qed.
(** C8: The database and the worker of any service together: if the service accepts
    the job, and what the worker wrote as its result comes back, then the call succeeds.
    The outputs are exactly the files of the result, in order, under consecutive fresh
    numbers and with all their metadata; the files have been moved there and nothing else has; and
    status and statistics are those of the result. *)
Theorem remote_result_installed {W} `{FileSystemLaws W} p pw j u m b u' m' b' s n (w w0 w1 : W) id data r : process_ok p → process_ok pw → reliable (W := W) →
  valid Input.fields (compaction_input j s) → (∀ binary, Write p Input.cs_input_type_info (compaction_input j s) [] = (OK, binary) → svc_Schedule (mkJobInfo (dbname_ j) (GetCompactionId j s)) binary w = Ok (kSuccess, id, w0)) →
  svc_Wait id w0 = Ok (kSuccess, Some data, w1) → Write pw (Result.cs_result_type_info u' m' b') r [] = (OK, data) → valid (Result.fields u m b) r → fresh s → installable j s n r w1 →
  ∃ os w', ProcessKeyValueCompactionWithCompactionService p j u m b s n w = Ok (kSuccess, with_result s os (received r Result.new), n + Z.of_nat (length (Result.output_files r)), w') ∧
    become (output_path_id j) n (Result.output_files r) os ∧ moved j (source r) n (Result.output_files r) w1 w'.
Proof. apply remote_result. Qed.
