(* ===== verification/HostSample.v ===== *)
(** * Samples of jobs that are handed to a service

    A small world with files and a service that answers at once, a compaction of two files, and
    the theorems about the database's call applied to them. *)
From S2P Require Import Prelude CppString Slice DbFormat CompactionIter LevelFiles Compaction CompactionNew OptionText OptionTypes OptionLaws ServiceMessages ServiceLaws ServiceTrip FileNames PnmService HostJob HostThm.
Local Open Scope Z_scope.

(** The files with their sizes, the service's answer and the notifications it has got. *)
Record host0 := mkHost { h_files : gmap bytes Z; h_answer : JobStatus; h_reply : bytes; h_notes : list (bytes * JobStatus) }.
#[export] Instance host0_service : CompactionService host0 := {|
  svc_Schedule info input w := Ok (kSuccess, str "1:3", w);
  svc_Wait id w := Ok (h_answer w, Some (h_reply w), w);
  svc_OnInstallation id st w := mkHost (h_files w) (h_answer w) (h_reply w) (h_notes w ++ [(id, st)]) |}.
#[export] Instance host0_files : FileSystem host0 := {|
  RenameFile w a b := match h_files w !! a with
                      | Some size => (OK, mkHost (<[b := size]> (delete a (h_files w))) (h_answer w) (h_reply w) (h_notes w))
                      | None => (NotFound, w)
                      end;
  GetFileSize w a := match h_files w !! a with Some size => (OK, size, w) | None => (NotFound, 0, w) end |}.
#[export] Instance host0_laws : FileSystemLaws host0.
Proof.
  refine {| fs_files := h_files |}; cbn; try done.
  - intros w a b st w'. destruct (h_files w !! a) as [size|] eqn:E; intros [= <- <-]; cbn; [by exists size|done].
  - intros w a st size w'. destruct (h_files w !! a) as [z|] eqn:E; intros [= <- <- <-]; done.
Defined.
Lemma host0_reliable : reliable (W := host0).
Proof. intros w a b [size E]. cbn in *. by rewrite E. Qed.

Definition sample_compaction : Compaction :=
  mkCompaction sample_storage sample_options 0 1 3 sample_inputs kManualCompaction false false true 1 0 [Byte.x61] [Byte.x64] None [] [] None [] [] kNotSupported kMaxSequenceNumber.
Definition sample_job : CompactionJob := mkJob (str "db-1") (str "/db") (str "default") [5] 11 7 [str "/db"] 0.
Definition sample_sub : SubcompactionState :=
  mkSub sample_compaction None (Some (str "m")) OK JobStats.Reset 1 (mkOutputs [] LevelStats.new) (mkOutputs [] LevelStats.new).
Lemma sample_described : valid Input.fields (compaction_input sample_job sample_sub).
Proof. solve_valid. Qed.
Lemma sample_reply : ∃ reply, Write backwards (Result.cs_result_type_info (Adapter.mkAdapter 9 9 9 []) false false) sample_result [] = (OK, reply).
Proof.
  destruct (result_read backwards forwards (Adapter.mkAdapter 9 9 9 []) false false (Adapter.mkAdapter 9 9 9 []) false false sample_result Result.new backwards_ok forwards_ok (sample_result_valid _ _ _) (conj eq_refl eq_refl)) as (data & Hw & _). by exists data.
Qed.
Definition sample_world (answer : JobStatus) (reply : bytes) : host0 := mkHost {[str "/out/000044.sst" := 4096; str "/out/000045.sst" := 4096; str "/db/000007.sst" := 100]} answer reply [].
Lemma sample_installable reply : installable sample_job sample_sub 46 sample_result (sample_world kSuccess reply).
Proof.
  constructor; [done|done|done| | | |].
  - apply Forall_cons_2; [by constructor|]. apply Forall_cons_2; [by constructor|apply Forall_nil_2].
  - apply (bool_decide_unpack _). vm_compute. done.
  - intros f [->|[->|[]%elem_of_nil]%elem_of_cons]%elem_of_cons; by eexists.
  - intros f k _. unfold source, target, directory, MakeTableFileNameIn. cbn. discriminate.
Qed.

Lemma remote_job_outcomes_witness : ∃ s' n' w', ProcessKeyValueCompactionWithCompactionService forwards sample_job (Adapter.mkAdapter 0 0 0 []) false false sample_sub 46 (sample_world kFailure []) = Ok (kFailure, s', n', w') ∧ ok (status s') = false.
Proof.
  eexists _, _, _. assert (E : ProcessKeyValueCompactionWithCompactionService forwards sample_job (Adapter.mkAdapter 0 0 0 []) false false sample_sub 46 (sample_world kFailure []) = Ok (kFailure, sample_sub <| status := Incomplete |>, 46, sample_world kFailure []))
    by vm_cast_no_check (eq_refl (Ok (kFailure, sample_sub <| status := Incomplete |>, 46, sample_world kFailure []))).
  split; [exact E|exact (remote_job_outcomes _ _ _ _ _ _ _ _ _ _ _ _ E)].
Defined.
Lemma remote_result_installed_witness : ∃ reply os w', ProcessKeyValueCompactionWithCompactionService forwards sample_job (Adapter.mkAdapter 20 20 20 []) true true sample_sub 46 (sample_world kSuccess reply) =
    Ok (kSuccess, with_result sample_sub os (received sample_result Result.new), 48, w') ∧ become 0 46 (Result.output_files sample_result) os ∧
  moved sample_job (source sample_result) 46 (Result.output_files sample_result) (sample_world kSuccess reply) w'.
Proof.
  destruct sample_reply as [reply Hw]. exists reply. set (w := sample_world kSuccess reply).
  exact (remote_result_installed forwards backwards sample_job _ _ _ _ _ _ sample_sub 46 w w w (str "1:3") reply sample_result forwards_ok backwards_ok host0_reliable sample_described (λ _ _, eq_refl) eq_refl Hw
    (sample_result_valid _ _ _) (conj eq_refl eq_refl) (sample_installable reply)).
Defined.
