(* ===== verification/RemoteCompaction.v ===== *)
(** * A compaction from the database through the PNM unit and back

    The database's job ([HostJob]) over the PNM compaction service ([PnmService]), whose worker
    ([PnmUnit]) reads the job description and writes the result as the messages of
    [ServiceMessages]; and the compaction that the worker builds from the description. *)
From S2P Require Import Prelude CppString Slice Comparator DbFormat CompactionIter LevelFiles LevelFilesThm Compaction CompactionLevels CompactionNew OptionText OptionTypes OptionLaws ServiceMessages ServiceLaws ServiceTrip FileNames Picker PickerThm PnmIpc PnmService PnmUnit HostJob HostThm HostSample.
Local Open Scope Z_scope.

(** ** The two ends *)
(** The files that the service asks for, when the description can be read. *)
Definition input_file_names (p : Process) (input : bytes) : option (list bytes) :=
  match Read p Input.cs_input_type_info input Input.new with
  | Ok (st, i) => if ok st then Some (Input.input_files i) else None
  | Fail _ => None
  end.
(** The service as the database sees it; while it waits, other processes run. *)
Definition pnm_service {W} `{Os W} (p : Process) (fuel : nat) (sv : PNMCompactionService) (meanwhile : W → W) : CompactionService W := {|
  svc_Schedule info input w := Schedule (input_file_names p) fuel sv info input w;
  svc_Wait id w := Wait fuel id (meanwhile w);
  svc_OnInstallation _ _ w := w |}.
(** The secondary database of the worker. *)
Class Secondary (W : Type) := {
  sec_Db : Type; sec_Opts : Type;
  sec_LoadLatestOptions : W → bytes → option sec_Opts * W;
  sec_default_options : sec_Opts;
  sec_set_max_open_files : sec_Opts → Z → sec_Opts;
  sec_OpenAsSecondary : W → sec_Opts → bytes → bytes → option sec_Db * W;
  sec_OpenAndCompact : W → bytes → bytes → bytes → option bytes * W;
  sec_TryCatchUpWithPrimary : W → sec_Db → bool * W;
  sec_CompactWithoutInstallation : W → sec_Db → Input.CompactionServiceInput → Status * Result.CompactionServiceResult * W }.
(** ... with the messages that it reads and writes. *)
Definition worker_db {W} `{Secondary W} (p : Process) (uninitialized : Adapter.StatusSerializationAdapter) (marked proximal : bool) : RocksDb W := {|
  Db := sec_Db; Opts := sec_Opts; PnmUnit.Input := Input.CompactionServiceInput; PnmUnit.Result := Result.CompactionServiceResult;
  LoadLatestOptions := sec_LoadLatestOptions; default_options := sec_default_options; set_max_open_files := sec_set_max_open_files;
  OpenAsSecondary := sec_OpenAsSecondary; OpenAndCompact := sec_OpenAndCompact; TryCatchUpWithPrimary := sec_TryCatchUpWithPrimary;
  ReadInput input := match Read p Input.cs_input_type_info input Input.new with Ok (st, i) => if ok st then Some i else None | Fail _ => None end;
  CompactWithoutInstallation w db i := let '(st, r, w) := sec_CompactWithoutInstallation w db i in (ok st, ok (Result.status r), r, w);
  WriteResult r := let (st, out) := Write p (Result.cs_result_type_info uninitialized marked proximal) r [] in if ok st then Some out else None |}.

(** What the worker's job ends in when its secondary database is open. *)
Definition worker_outcome {W} `{Secondary W} (p : Process) u m b (db : sec_Db) (i : Input.CompactionServiceInput) (w : W) : outcome * W :=
  let (_, w) := sec_TryCatchUpWithPrimary w db in
  let '(st, r, w) := sec_CompactWithoutInstallation w db i in
  (if ok st && ok (Result.status r) then let (st, out) := Write p (Result.cs_result_type_info u m b) r [] in if ok st then Compacted out else Failed else Failed, w).
Section worker.
Context {W : Type} `{Os W} `{!UnitOs W} `{!Secondary W} (pw : Process) (uw : Adapter.StatusSerializationAdapter) (mw bw : bool).
Lemma job_work_reads (db : sec_Db) path id binary i (w : W) : Read pw Input.cs_input_type_info binary Input.new = Ok (OK, i) →
  job_work (H1 := worker_db pw uw mw bw) (Some db) path id binary w = ((worker_outcome pw uw mw bw db i w).1, Some db, (worker_outcome pw uw mw bw db i w).2).
Proof.
  intros Hr. unfold job_work, worker_outcome. cbn [ensure_secondary worker_db TryCatchUpWithPrimary ReadInput CompactWithoutInstallation WriteResult]. destruct (sec_TryCatchUpWithPrimary w db) as [x w1]. rewrite Hr. change (ok OK) with true. cbn iota.
  destruct (sec_CompactWithoutInstallation w1 db i) as [[st r] w2]. destruct (ok st); cbn [negb orb andb]; [|done]. destruct (ok (Result.status r)); cbn [negb]; [|done].
  destruct (Write pw _ r []) as [st' out]. by destruct (ok st').
Qed.
End worker.

(** ** End to end *)
Section end_to_end.
Context {WC WW : Type} `{OsC : Os WC} `{LawsC : !OsLaws WC} `{FsC : !FileSystem WC} `{OsW : Os WW} `{LawsW : !OsLaws WW} `{UnitW : !UnitOs WW} `{SecW : !Secondary WW}.
Context (p pw : Process) (fuel B : nat) (sv : PNMCompactionService) (meanwhile : WC → WC) (j : CompactionJob) (u uw : Adapter.StatusSerializationAdapter) (m b mw bw : bool).
(** The database's call, over the PNM service. *)
Definition remote_compaction (s : SubcompactionState) (n : Z) (w : WC) : res (JobStatus * SubcompactionState * Z * WC) :=
  ProcessKeyValueCompactionWithCompactionService (H := pnm_service p fuel sv meanwhile) p j u m b s n w.
(** The connections work: interruptions are bounded, and what is sent arrives. *)
Definition connections_ok : Prop := (∀ (w : WC) fd, os_intr w fd ≤ B)%nat ∧ (∀ (w : WW) fd, os_intr w fd ≤ B)%nat ∧ recv_healthy (S := WC * Z) ∧ recv_healthy (S := WW * Z) ∧ send_healthy (S := WW * Z).
(** A message that fits a frame and the fuel. *)
Definition carried (msg : bytes) : Prop := (5 + length msg + B < fuel)%nat ∧ Z.of_nat (length msg) < 2 ^ 32.
Definition job_text (s : SubcompactionState) (binary : bytes) : bytes := job_message (dbname_ j) (to_string (u32 (Z.shiftr (GetCompactionId j s) 32))) binary.
Lemma remote_failure s n (wc wc1 wc3 : WC) binary id : Write p Input.cs_input_type_info (compaction_input j s) [] = (OK, binary) →
  Schedule (input_file_names p) fuel sv (mkJobInfo (dbname_ j) (GetCompactionId j s)) binary wc = Ok (kSuccess, id, wc1) → Wait fuel id (meanwhile wc1) = Ok (kFailure, Some [], wc3) →
  remote_compaction s n wc = Ok (kFailure, s <| status := Incomplete |>, n, wc3).
Proof.
  intros Hb Hs Hw. unfold remote_compaction, ProcessKeyValueCompactionWithCompactionService. rewrite Hb. change (negb (ok OK)) with false. cbn iota. cbn [svc_Schedule pnm_service]. rewrite Hs. cbn [res_bind svc_Wait pnm_service]. rewrite Hw. cbn [res_bind]. done.
Qed.
End end_to_end.

(** C4: A compaction end to end.  The database writes the description of the job and the
    PNM service sends it; the worker reads exactly that description and compacts it on its
    secondary database; and when the worker's answer has arrived, the database's call ends: with success, the
    worker's files installed as its outputs, if the compaction succeeded, and otherwise with a failure
    that leaves nothing behind but the status. *)
Theorem pnm_compaction_end_to_end {WC WW} `{OsC : Os WC} `{LawsC : !OsLaws WC} `{FsC : !FileSystem WC} `{OsW : Os WW} `{LawsW : !OsLaws WW} `{UnitW : !UnitOs WW} `{SecW : !Secondary WW}
  p pw fuel B sv (meanwhile : WC → WC) j u uw m b mw bw s n (wc wc1 : WC) binary id
  (FL : FileSystemLaws (H := pnm_service p fuel sv meanwhile) WC) (UL : UnitLaws (RocksDb0 := worker_db pw uw mw bw) WW) :
  process_ok p → process_ok pw → connections_ok (WC := WC) (WW := WW) B → reliable (FileSystemLaws0 := FL) → fresh s → valid Input.fields (compaction_input j s) →
  Write p Input.cs_input_type_info (compaction_input j s) [] = (OK, binary) → carried fuel B (job_text j s binary) →
  Schedule (input_file_names p) fuel sv (mkJobInfo (dbname_ j) (GetCompactionId j s)) binary wc = Ok (kSuccess, id, wc1) →
  ∃ fd, fd ∈ os_fds wc1 ∧ ∀ mmio db conn (ww : WW), conn ∈ os_fds ww → os_inbox ww conn = os_sent wc1 fd → os_sent ww conn = [] →
    ∃ ww1, pnm_recv_frame fuel (ww, conn) [] = Ok (true, job_text j s binary, (ww1, conn)) ∧ ∀ c ww2 st r ww3 data,
      sec_TryCatchUpWithPrimary ww1 db = (c, ww2) → sec_CompactWithoutInstallation ww2 db (compaction_input j s) = (st, r, ww3) → valid (Result.fields u m b) r →
      Write pw (Result.cs_result_type_info uw mw bw) r [] = (OK, data) → carried fuel B (Byte.x00 :: data) → (mmio = true → is_ok (poll fuel ww3)) →
      ∃ ww', handle_job (H1 := worker_db pw uw mw bw) fuel mmio (Some db) conn ww = Ok (Some db, ww') ∧ os_sent ww' conn = frame (if ok st && ok (Result.status r) then Byte.x00 :: data else [Byte.x01]) ∧ (os_inbox (meanwhile wc1) fd = os_sent ww' conn →
        ∃ wc3, os_fds wc3 = os_fds (meanwhile wc1) ∖ {[fd]} ∧
          if ok st && ok (Result.status r) then
            installable (H := pnm_service p fuel sv meanwhile) j s n r wc3 → ∃ os w', remote_compaction p fuel sv meanwhile j u m b s n wc = Ok (kSuccess, with_result s os (received r Result.new), n + Z.of_nat (length (Result.output_files r)), w') ∧
              become (output_path_id j) n (Result.output_files r) os ∧ moved (H := pnm_service p fuel sv meanwhile) j (source r) n (Result.output_files r) wc3 w'
          else remote_compaction p fuel sv meanwhile j u m b s n wc = Ok (kFailure, s <| status := Incomplete |>, n, wc3)).
Proof.
  intros Hp Hpw (HB1 & HB2 & HR1 & HR2 & HS2) Hrel Hfresh Hin Hb [Hf1 Hf2] Hsch. destruct (input_read p pw (compaction_input j s) Input.new Hp Hpw Hin) as (b0 & Eb & Hread). rewrite Hb in Eb. injection Eb as <-.
  destruct (job_carried (WC := WC) (WW := WW) (H3 := UL) (input_file_names p) fuel B sv (mkJobInfo (dbname_ j) (GetCompactionId j s)) binary wc wc1 id HB1 HB2 HR1 HR2 HS2 Hf1 Hf2 Hsch) as (fd & Hfd & Hrest).
  exists fd. split; [done|]. intros mmio db conn ww Hc Hi Hs. destruct (Hrest mmio (Some db) conn ww Hc Hi Hs) as (ww1 & Hrecv & Hjob). exists ww1. split; [done|]. intros c ww2 st r ww3 data Ec Er Hv Hw [Hd1 Hd2] Hpoll. clear Hrest.
  pose proof (job_work_reads pw uw mw bw db (dbname_ j) (to_string (u32 (Z.shiftr (GetCompactionId j s) 32))) binary (compaction_input j s) ww1 Hread) as Hwork. unfold worker_outcome in Hwork. rewrite Ec, Er, Hw in Hwork. change (ok OK) with true in Hwork. cbn [fst snd] in Hwork. cbn iota in Hwork.
  specialize (Hjob _ _ _ Hwork). cbn [length] in Hd1, Hd2. destruct (ok st && ok (Result.status r)) eqn:Eok.
  - destruct Hjob as (ww' & Hh & Hsent & Hwait); [cbn [response length]; lia|cbn [response length]; lia|intros ? _; exact Hpoll|]. exists ww'. split; [done|]. split; [done|]. intros Hbox. destruct (Hwait (meanwhile wc1) Hbox) as (wc3 & Hfds & Ew). exists wc3. split; [done|]. intros Hinst.
    apply (remote_result (H := pnm_service p fuel sv meanwhile) p pw j u m b uw mw bw s n wc wc1 wc3 id data r Hp Hpw Hrel Hin); [|exact Ew|done|done|done|done]. intros b1 Hb1. rewrite Hb in Hb1. injection Hb1 as <-. exact Hsch.
  - destruct Hjob as (ww' & Hh & Hsent & Hwait); [cbn [response length]; lia|cbn [response length]; lia|done|]. exists ww'. split; [done|]. split; [done|]. intros Hbox. destruct (Hwait (meanwhile wc1) Hbox) as (wc3 & Hfds & Ew). exists wc3. split; [done|]. by eapply remote_failure.
Qed.

(** ** Example: a job whose result has no files, on the small operating system of the service *)
#[local] Instance os0_fs : FileSystem os0 := {| RenameFile w a b := (NotFound, w); GetFileSize w a := (NotFound, 0, w) |}.
Definition empty_result : Result.CompactionServiceResult := sample_result <| Result.output_files := [] |>.
#[local] Instance os0_secondary : Secondary os0 := {|
  sec_Db := bytes; sec_Opts := Z; sec_LoadLatestOptions w d := (None, w); sec_default_options := 0; sec_set_max_open_files o n := n;
  sec_OpenAsSecondary w o d d2 := (Some d, w); sec_OpenAndCompact w d d2 i := (None, w); sec_TryCatchUpWithPrimary w db := (true, w);
  sec_CompactWithoutInstallation w db i := (OK, empty_result, w) |}.
Lemma os0_files_laws p fuel sv meanwhile : FileSystemLaws (H := pnm_service p fuel sv meanwhile) os0.
Proof. refine {| fs_files := λ _, ∅ |}; cbn; try done; intros; by simplify_eq. Defined.
Lemma os0_worker_laws p u m b : UnitLaws (RocksDb0 := worker_db p u m b) os0.
Proof.
  constructor; cbn; try (intros; simplify_eq; by auto using keeps_refl).
  intros w srv fd err w'. destruct (add_fd w) as [fd' w1] eqn:E. intros [= <- <- <-]. destruct (add_fd_spec _ _ _ E) as [_ [[? ?]|(? & ? & ? & _)]]; split; intros; try lia; auto.
Qed.
Lemma empty_result_valid u m b : valid (Result.fields u m b) empty_result.
Proof.
  each; try first [exact I | solve_range].
  - split_and!; vm_compute; done.
  - apply Forall_nil_2.
  - solve_valid.
  - each; [apply sample_stats_valid|exact I|apply sample_stats_valid].
Qed.
Definition adapter0 : Adapter.StatusSerializationAdapter := Adapter.mkAdapter 0 0 0 [].
(** The worker's answer arrives on every connection. *)
Definition deliver (answer : bytes) (w : os0) : os0 := mkOs0 (o_fds w) (o_regs w) (o_sent w) (gset_to_gmap answer (o_fds w)) (o_status w).
Definition job_binary : bytes := Eval vm_compute in (Write forwards Input.cs_input_type_info (compaction_input sample_job sample_sub) []).2.
Definition result_binary : bytes := Eval vm_compute in (Write backwards (Result.cs_result_type_info adapter0 false false) empty_result []).2.
Definition job_fuel : nat := Z.to_nat 20000.
Lemma pnm_compaction_end_to_end_witness : ∃ os w', remote_compaction forwards job_fuel (mkService 9 true) (deliver (frame (Byte.x00 :: result_binary))) sample_job adapter0 true true sample_sub 46 os_init =
  Ok (kSuccess, with_result sample_sub os (received empty_result Result.new), 46, w').
Proof.
  set (meanwhile := deliver (frame (Byte.x00 :: result_binary))). set (info := mkJobInfo (dbname_ sample_job) (GetCompactionId sample_job sample_sub)).
  assert (Hs : ∃ id wc1, Schedule (input_file_names forwards) job_fuel (mkService 9 true) info job_binary os_init = Ok (kSuccess, id, wc1)) by (eexists _, _; vm_compute; reflexivity). destruct Hs as (id & wc1 & Hs).
  destruct (pnm_compaction_end_to_end (WC := os0) (WW := os0) forwards backwards job_fuel 0 (mkService 9 true) meanwhile sample_job adapter0 adapter0 true true false false sample_sub 46 os_init wc1 job_binary id
    (os0_files_laws _ _ _ _) (os0_worker_laws _ _ _ _) forwards_ok backwards_ok) as (fd & Hfd & Hrest); [|by intros w a b [z Hz]|done|apply sample_described|vm_compute; reflexivity|split; [apply Nat.ltb_lt|apply Z.ltb_lt]; vm_compute; reflexivity|exact Hs|].
  { split; [done|]. split; [done|]. split; [apply os0_recv_healthy|]. split; [apply os0_recv_healthy|apply os0_send_healthy]. }
  destruct (Hrest false (str "/db") 5 (mkOs0 {[5]} [] ∅ {[5 := bytes_of (o_sent wc1) fd]} 0)) as (ww1 & _ & Hjob); [by vm_compute|cbn; unfold bytes_of at 1; by rewrite lookup_singleton_eq|done|].
  destruct (Hjob true ww1 OK empty_result ww1 result_binary) as (ww' & _ & Hsent & Hend); [done|done|apply empty_result_valid|vm_compute; reflexivity|split; [apply Nat.ltb_lt|apply Z.ltb_lt]; vm_compute; reflexivity|done|].
  destruct Hend as (wc3 & _ & Hfin). { rewrite Hsent. cbn. unfold bytes_of. rewrite lookup_gset_to_gmap, option_guard_True by done. done. }
  destruct Hfin as (os & w' & E & _); [|by exists os, w'].
  constructor; [done|done|done|apply Forall_nil_2|apply NoDup_nil_2|by intros f ?%elem_of_nil|by intros f k ?%elem_of_nil].
Defined.
