(* ===== verification/WorkerJob.v ===== *)
(** * The worker's compaction (rocksdb [db/db_impl/db_impl_secondary.cc])

    How [CompactWithoutInstallation] turns a job description into a compaction: the names of
    the files become numbers, the picker finds them in the worker's version, and the
    compaction is built from them.  It is a compaction of exactly the files that the
    database chose. *)
From S2P Require Import Prelude Bitfield CppString Slice Coding Comparator DbFormat CompactionIter LevelFiles LevelFilesThm Compaction CompactionLevels CompactionNew OptionText OptionTypes OptionLaws ServiceMessages ServiceLaws ServiceTrip FileNames Picker PickerThm PnmService HostJob HostThm HostSample.
Local Open Scope Z_scope.

(** The column family of the worker: its version, options and picker. *)
Record WorkerDb := mkWorker {
  wd_storage : VersionStorageInfo; wd_options : Options; wd_max_file_size : list Z; wd_base_level : Z; wd_dynamic_level_bytes : bool; wd_picker : CompactionPicker;
  wd_marks : gset Z; wd_cursor : bytes }.
(** Stand-alone range deletions are used in universal compactions only. *)
Definition earliest_snapshot (style : CompactionStyle) (snapshots : list Z) : option Z :=
  if bool_decide (style = kCompactionStyleUniversal) then Some (match snapshots with q :: _ => q | [] => kMaxSequenceNumber end) else None.
Definition choose_compaction {UC : Comparator} {TC : TsComparator UC} (d : WorkerDb) (address : Z) (input : Input.CompactionServiceInput) :
    res (Status * option (Compaction * CompactionPicker * gset Z)) :=
  let input_set : gset Z := list_to_set (TableFileNameToNumber <$> Input.input_files input) in
  let o := wd_options d in
  let* limit := MaxFileSizeForLevel (wd_max_file_size d) (Input.output_level input) (compaction_style o) (wd_base_level d) (wd_dynamic_level_bytes d) in
  match GetCompactionInputsFromFileNumbers input_set (wd_storage d) with
  | None => Ok (InvalidArgument, None)
  | Some input_files =>
      let* r := PickCompactionForCompactFiles (wd_picker d) address (wd_storage d) o input_files (Z.to_nat (Input.output_level input)) limit 0
                  (earliest_snapshot (compaction_style o) (Input.snapshots input)) None (wd_cursor d) (wd_marks d) in
      Ok (OK, Some r)
  end.

Lemma numbers_of_names files : Forall (λ f, in_u 64 (number f)) files → TableFileNameToNumber <$> ((λ f, MakeTableFileName (number f)) <$> files) = number <$> files.
Proof. induction 1 as [|f fs Hf _ IH]; [done|]. cbn [fmap list_fmap]. rewrite table_name_number by done. f_equal. exact IH. Qed.
Lemma names_concat (inputs : list CompactionInputFiles) : concat ((λ i, (λ f, MakeTableFileName (number f)) <$> in_files i) <$> inputs) = (λ f, MakeTableFileName (number f)) <$> concat (in_files <$> inputs).
Proof. induction inputs as [|i l IH]; [done|]. cbn [fmap list_fmap concat]. rewrite fmap_app. f_equal. exact IH. Qed.
Section choice.
Context `{UL : ComparatorLaws} {TC : TsComparator C} (Hts : ∀ a b, uc_CompareWithoutTimestamp a b = Ok (Compare a b)).
Lemma sorted_levels l : Sorted Nat.lt l → StronglySorted Nat.lt l.
Proof. apply Sorted_StronglySorted. intros x y z. lia. Qed.
(** The inputs that were found make as good a request as those that were chosen. *)
Lemma request_found v inputs inputs' out cursor marks first' : request_ok v inputs out cursor marks → picked v inputs → all_files inputs' = all_files inputs → Sorted Nat.lt (in_level <$> inputs') →
  (∀ i, i ∈ inputs' → in_files i = files_at inputs (in_level i) ∧ boundaries i = []) → head inputs' = Some first' →
  (∀ first, head inputs = Some first → in_level first' = in_level first ∧ in_files first' = in_files first) → request_ok v inputs' out cursor marks.
Proof.
  intros [Hv Hin Hun Hlv Hc Hnd Hfr Hto Hs Hcu] Hp Ha Hl Hf Hh Hfirst. pose proof (levels_distinct inputs (sorted_levels _ Hlv)) as Hd. destruct (head inputs) as [first|] eqn:E0; [|destruct Hc as [t Hc]; unfold candidate in Hc; by rewrite E0 in Hc].
  destruct (Hfirst first eq_refl) as [E1 E2]. constructor; try done.
  - intros i Hi. destruct (Hf i Hi) as [-> _]. destruct (files_at inputs (in_level i)) as [|f fs] eqn:E; [destruct (in_level i =? 0)%nat; [by apply Forall_nil_2|split; constructor]|].
    destruct (files_at_in inputs (in_level i) f) as (k & Hk & Ek & _); [rewrite E; by left|]. rewrite <- E, <- Ek, files_at_level by done. by apply Hin.
  - intros i Hi. by apply Hf.
  - unfold candidate in *. rewrite Hh. rewrite E0 in Hc. cbn [mbind option_bind] in *. by rewrite E1, E2.
  - by rewrite Ha.
  - intros f. rewrite Ha. apply Hfr.
  - intros Hz. destruct (Hto Hz) as (g & Hg & bb & Hb & En). exists g. split; [done|]. exists bb. split; [|done]. unfold last_input in *. rewrite Hh. rewrite E0 in Hb. cbn [mbind option_bind] in *. by rewrite E2.
  - intros f. rewrite Ha. apply Hs.
Qed.
End choice.

(** C12: The worker compacts what the database chose.  The database has built a compaction of
    some of its files; the worker reads the description of it, looks up the files in its own view
    of the same version, and builds a compaction without an error: of exactly these files, to the same output level,
    with all the guarantees that the constructor gives for it. *)
Theorem worker_compacts_chosen_files `{UL : ComparatorLaws} {TC : TsComparator C} p pw d address j s inputs gone binary limit :
  (∀ a b, uc_CompareWithoutTimestamp a b = Ok (Compare a b)) → timestamp_size = 0%nat → process_ok p → process_ok pw →
  let c0 := compaction s in let out := output_level_ c0 in let v := wd_storage d in
  compaction_ok v (options_ c0) inputs out gone c0 → request_ok v inputs out (wd_cursor d) (wd_marks d) → picked v inputs → Forall (λ f, in_u 64 (number f)) (all_files inputs) →
  valid Input.fields (compaction_input j s) → Write p Input.cs_input_type_info (compaction_input j s) [] = (OK, binary) →
  compactions_in_progress_ (wd_picker d) = [] → MaxFileSizeForLevel (wd_max_file_size d) (Z.of_nat out) (compaction_style (wd_options d)) (wd_base_level d) (wd_dynamic_level_bytes d) = Ok limit →
  ∃ i c p' m inputs', Read pw Input.cs_input_type_info binary Input.new = Ok (OK, i) ∧ choose_compaction d address i = Ok (OK, Some (c, p', m)) ∧
    all_files inputs' = all_files inputs ∧ (∀ i, i ∈ inputs' → in_files i = files_at inputs (in_level i)) ∧
    compaction_ok v (wd_options d) inputs' out (λ f, ∃ q, earliest_snapshot (compaction_style (wd_options d)) (snapshot_seqs j) = Some q ∧ left_out inputs' q None f) c ∧
    compactions_in_progress_ p' = [(address, c)] ∧ m = list_to_set (numbers (all_files inputs)) ∪ wd_marks d.
Proof.
  intros Hts Ht Hp Hpw c0 out v Hc0 Hreq Hpick Hnum Hvalid Hw Hidle Hlim. destruct (input_read p pw (compaction_input j s) Input.new Hp Hpw Hvalid) as (b0 & Eb & Hread). rewrite Hw in Eb. injection Eb as <-.
  pose proof (grouped_inputs _ _ (co_inputs _ _ _ _ _ _ Hc0)) as [_ Hgf]. assert (Hset : list_to_set (TableFileNameToNumber <$> Input.input_files (compaction_input j s)) = (list_to_set (numbers (all_files inputs)) : gset Z)).
  { f_equal. unfold compaction_input. cbn [Input.input_files]. fold c0. transitivity (number <$> concat (in_files <$> inputs_ c0)); [|unfold numbers, all_files; by rewrite Hgf]. rewrite Hgf. fold (all_files inputs). rewrite <- (numbers_of_names (all_files inputs) Hnum). f_equal. rewrite names_concat. unfold all_files. by rewrite Hgf. }
  destruct (head inputs) as [first|] eqn:E0. 2: { destruct (rq_first _ _ _ _ _ Hreq) as [t Hcand]. unfold candidate in Hcand. by rewrite E0 in Hcand. }
  assert (Hne : in_files first ≠ []). { destruct (rq_first _ _ _ _ _ Hreq) as [t Hcand]. unfold candidate in Hcand. rewrite E0 in Hcand. cbn in Hcand. intros E. rewrite E in Hcand. by destruct (in_level first =? 0)%nat. }
  destruct (inputs_found v inputs Hpick (sorted_levels _ (rq_levels _ _ _ _ _ Hreq)) first E0 Hne) as (inputs' & Ef & Ha & Hl & Hf & first' & Hh & E1 & E2).
  assert (Hreq' : request_ok v inputs' out (wd_cursor d) (wd_marks d)). { eapply (request_found v inputs inputs'); try done. intros x Hx. rewrite E0 in Hx. by injection Hx as <-. }
  destruct (wd_picker d) as [running level0] eqn:Epk. cbn in Hidle. subst running.
  destruct (pick_idle Hts level0 address v (wd_options d) inputs' out limit 0 (earliest_snapshot (compaction_style (wd_options d)) (snapshot_seqs j)) None (wd_cursor d) (wd_marks d) Ht Hreq') as (c & p' & m & Epick & Hrun & Hc & Hm).
  exists (compaction_input j s), c, p', m, inputs'. split; [done|]. split; [|split; [done|]; split; [intros i Hi; by apply Hf|]; split; [done|]; split; [done|]; by rewrite <- Ha].
  unfold choose_compaction. rewrite Hset. cbn [Input.output_level compaction_input Input.snapshots]. fold c0 out v. rewrite Hlim. cbn [res_bind]. rewrite Ef, Epk, Nat2Z.id, Epick. done.
Qed.

(** ** Example: the compaction of two files *)
Definition sample_built : Compaction := Eval vm_compute in match sample_new with Ok (c, _) => c | Fail _ => sample_compaction end.
Definition built_sub : SubcompactionState := sample_sub <| compaction := sample_built |>.
Definition sample_worker : WorkerDb := mkWorker sample_storage sample_options [1000; 2000; 4000] 1 false (mkPicker [] []) {[3]} [].
Lemma sample_new_built : ∃ m, sample_new = Ok (sample_built, m).
Proof. eexists. vm_compute. reflexivity. Qed.
Lemma sample_built_ok : ∃ gone, compaction_ok (C := BytewiseComparator) sample_storage sample_options sample_inputs 1 gone sample_built.
Proof.
  destruct (new_compaction (C := BytewiseComparator) (TC := no_ts) (λ _ _, eq_refl) sample_storage sample_options sample_inputs 1 1000 1 [] (Some 5) None kLevelL0FilesNum [] {[3]} eq_refl sample_request) as (c & m & E & Hc & _).
  destruct sample_new_built as [m' E']. rewrite E' in E. injection E as <- <-. by eexists.
Qed.
Lemma sample_picked : picked sample_storage sample_inputs.
Proof.
  constructor; [intros i [->|[->|[]%elem_of_nil]%elem_of_cons]%elem_of_cons; cbn; lia|intros i [->|[->|[]%elem_of_nil]%elem_of_cons]%elem_of_cons; reflexivity|].
  apply (bool_decide_unpack _). vm_compute. done.
Qed.
Lemma built_described : valid Input.fields (compaction_input sample_job built_sub).
Proof. solve_valid. Qed.
Lemma worker_compacts_chosen_files_witness : ∃ binary i c p' m, Write forwards Input.cs_input_type_info (compaction_input sample_job built_sub) [] = (OK, binary) ∧
  Read backwards Input.cs_input_type_info binary Input.new = Ok (OK, i) ∧ choose_compaction (UC := BytewiseComparator) (TC := no_ts) sample_worker 77 i = Ok (OK, Some (c, p', m)) ∧ compactions_in_progress_ p' = [(77, c)].
Proof.
  destruct sample_built_ok as [gone Hc]. destruct (input_read forwards backwards (compaction_input sample_job built_sub) Input.new forwards_ok backwards_ok built_described) as (binary & Hw & _). exists binary.
  destruct (worker_compacts_chosen_files (C := BytewiseComparator) (TC := no_ts) forwards backwards sample_worker 77 sample_job built_sub sample_inputs gone binary 2000 (λ _ _, eq_refl) eq_refl forwards_ok backwards_ok
    Hc sample_request sample_picked ltac:(repeat constructor; vm_compute; congruence) built_described Hw eq_refl eq_refl) as (i & c & p' & m & inputs' & H1 & H2 & _ & _ & _ & H3 & _).
  by exists i, c, p', m.
Defined.
